(* ===== verification/_CoqProject ===== *)
-Q . S2P
Prelude.v
Events.v
Session.v
StateMachine.v
Scheduler.v
Goals.v
PyStr.v
Regex.v
PyText.v
Admission.v
AdmitHandles.v
AdmitOptions.v
AdmitOnce.v
Atomic.v
EditMatch.v
FileEdit.v
Compaction.v
Paths.v
Truncation.v
FileTools.v
Shell.v
Gates.v
Verify.v
Wire.v
Ladder.v
Executor.v
Dispatch.v
ToolGate.v
Stuck.v
Turn.v
MemFormat.v
Difflib.v
MemRouting.v
MemStore.v
MemIndex.v
MemLife.v
Context.v
