(* ===== verification/Prelude.v ===== *)
(** * Pernix: a verification library

    Pernix is an agent server: a process that keeps many chat sessions, runs
    an LLM turn at a time in each, lets the model edit files, run commands,
    remember facts and pursue goals across turns, and streams what happens to
    browsers.  This library models the parts of it that carry state other parts
    rely on, and proves what they promise.  Paths are relative to src/.

    ** The program and the files that model it

    Shared: [Prelude] has record update, the result type, lists and counting,
    the reachability of step relations, tactics; [PyStr] and [PyText] the str
    methods and the UTF-8 codec; [Regex] the regular expressions of the shell
    policy; [Difflib] the standard library's similarity ratio.

    Sessions:

    - [Events] (sessions/state.py, core/events.py): one session's event
      stream.  A [Channel] holds the replay buffer, the sequence counter, the
      callbacks marshalled onto the loop and the bounded subscriber queues;
      [emit_event], [deliver], [subscribe] and [unsubscribe] are the methods,
      and the step relation interleaves threads, loop and consumers.
    - [Session] (sessions/state.py): the [AgentSession] object, with the table
      of tracked subprocesses over string handles.
    - [StateMachine] (sessions/state_v2.py, sessions/manager.py, core/agent.py,
      db/models.py): [TRANSITIONS] and [transition] over a [World] of session,
      durable column, log and rejection counters, and the code that chooses
      the edges: [control_session], the start and end of a turn, cancellation,
      the pause checkpoint and the compaction controller.
    - [Goals] (db/models.py, sessions/manager.py, core/tools/builtin/goal_tools.py,
      core/agent.py, core/llm/client.py): goals and the outbox of automatic
      continuations, one Rocq function per transaction, and the manager's end
      of turn, dispatcher and boot recovery on top of them.
    - [Admission] (sessions/manager.py, db/models.py, api/routers/sessions.py):
      what becomes of a message from [prompt] or [steer] to the turn that runs
      it, with its handle and its options.  A [Desk] is a session with its rows
      and the manager's tables, [Op] what can happen to it.  [AdmitHandles],
      [AdmitOptions] and [AdmitOnce] prove about it.

    The turn:

    - [Context] (core/context/compiler.py, core/context/tokens.py): from the
      rows of a session and the blocks of the prompt to the payload of a call:
      [visible], [plan_budget], [_trim_history], [compile_context].
    - [Compaction] (core/context/compaction.py): the view transforms, and
      [compact_with_llm] up to the marker it appends.
    - [Wire] (core/context/compiler.py): the payload in a provider's format.
    - [Scheduler] (core/llm/semaphore.py): who gets an LLM slot and for how
      long.  [acquire] is split where the coroutine sleeps ([resume] is its
      second half); a cancelled or timed-out sleeper is a step of its own.
    - [Ladder] (core/llm/stream_ladder.py, core/llm/errors.py): one response of
      the model, through retries, the quota breaker and the fallback provider.
    - [ToolGate] (core/agent.py): the calls of a response, unwrapped, deduplicated,
      renamed, parsed and typed before they reach the executor.
    - [Stuck] (core/agent.py): the signals that a model repeats itself, and what
      the turn does about them.
    - [Turn] (core/agent.py): the loop of [run_agent] around all of these.
    - [Gates] (core/gates.py, core/extensions/evaluation/__init__.py): the shell
      commands whose exit codes judge a turn or hold back a goal.
    - [Verify] (core/reflect.py, sessions/hooks.py, sessions/manager.py): what
      becomes of a grade, and the loop that grants a turn its retries.

    The tools:

    - [Executor] (core/tools/executor.py): who may run, approvals, timeouts, a
      round of calls; [Dispatch]: the life of one admitted call between event
      loop, pool thread and stop.
    - [Paths] (core/tools/paths.py): from a string to the file a tool may touch;
      [Truncation] (core/tools/truncation.py): what is shown of long output.
    - [Atomic] (core/tools/atomic.py): the target lock as interleaved phases
      ([Module Locks]) and [atomic_write] as the list of file systems it goes
      through; [Class TargetWriter] states what an editor may rely on.
    - [EditMatch] (core/tools/builtin/file_edit.py): the matching cascade,
      from exact to fuzzy, with the edit distance and line endings; [FileEdit]
      (same file): [file_edit] and [multiedit] from call to reply, proved
      against [TargetWriter].
    - [FileTools] (core/tools/builtin/core_tools.py): [file_read] and
      [file_write], and the path policy put in front of every file tool.
    - [Shell] (core/tools/builtin/core_tools.py): what a command line may hold.

    Memory:

    - [MemFormat] (core/memory/format.py): entries as markdown, which is the
      source of truth; [MemRouting] (core/memory/routing.py): the file an entry
      goes to.
    - [MemStore] (core/memory/store.py, core/memory/dedup.py): the files, the
      index derived from them, and every operation that changes either.
    - [MemIndex] and [MemLife] prove about it: the operations as edits of
      documents, and the states a store goes through.

    A turn touches them in this order.  [Admission] gives a message its turn
    and the state machine starts it; [Context]
    compiles what the model sees, with [Compaction] in front when the history
    is long; [Turn] asks [Ladder] for a response, for which [Scheduler] admits
    the call and [Wire] shapes the messages; [ToolGate] filters the calls of the
    response, [Stuck] watches them, [Executor] admits them and [Dispatch] runs
    them; the tools act through [Paths], [Shell], [FileEdit] and [Atomic], or
    on the memory store; results become rows that the next compilation reads.
    At the end [Gates] run, [Verify] decides whether the turn is run again, the
    state machine finalizes it, goals may queue the next one, and all of it is
    emitted as events.  The composition is in the models
    too: [Turn] runs the ladder, the gate and the detector of the other files,
    [FileTools] runs the editors of [FileEdit] on the file systems of [Atomic]
    behind [Paths], [Context] runs [Compaction]'s orphan exclusion, [MemStore]
    runs [MemRouting], [MemFormat] and [Difflib], and a gate of [Gates] passes
    [Shell] and [Paths] before it runs and [Goals] or [Verify] asks for it.

    ** How code became definitions

    Python objects are records updated field by field; a method takes the
    object and returns it.  Where the code changes dicts in place and reads
    them elsewhere (the calls of a response) they live in a store and references
    are passed.  A raise is a value of [result] or a constructor of the reply.
    A coroutine is split at its suspension points and its calls are interleaved
    by a step relation or a list of operations over which the theorem
    quantifies.  A database transaction takes a flag that says whether SQLite
    fails.  Messages for humans are constructors carrying the numbers they show.
    Integers that Python keeps unbounded are [Z], [N] or [nat]; times are
    nanoseconds or seconds in [Z]; similarity and ranking scores are rationals
    and stuck scores tenths where the code has floats, so a score that rounding
    alone would move across a threshold is outside the model.  Texts are
    lists of code points; where case or white space decides, below 256.

    What is not the repository's is a parameter of the definitions that use
    it: the summarizer's answers, the tokenizer, a provider's stream, clock
    readings, the random part of a temporary name, which system call fails,
    what others do to a file meanwhile, SQLite's ranking of a search, the order
    in which Python goes through a set, JSON and hashing.  The hypotheses about
    such code are few: SQLite returns rows by increasing id
    ([Compaction.rows_ok]), JSON text of an object parses as an object, going
    through a set lists its elements, resolved paths are what the operating
    system says they are, and calm surroundings where a theorem says an
    operation succeeds.  Each has a witness.

    ** What the theorems show

    - Durability of state: the session's state, its column and the replay of
      its log agree after any run; every turn and every failed finalization
      gets back to idle.
    - Streams: a subscriber that is attached has missed nothing.
    - Messages: one begins at most one turn; one taken on is queued, running,
      begun, withdrawn or in a task that died unborn; its sender's handle is
      settled for good or owed by someone; its options are in force during its
      own turn and at no other time.
    - Scheduling: slots are conserved and none idles while someone waits.
    - Goals: the outbox of a goal numbers its continuations exactly; a
      continuation is started a bounded number of times across crashes.
    - A turn: it ends whatever the model, the tools and the clock do, within the
      bounds on rounds and compactions; every call of a row it writes is
      answered; the ladder tries what its account says, and each proposed call
      is settled once, with its arguments of the declared types.
    - Context: a compiled request fits the window or the error is the documented
      one, and exactly then; trimming drops only what it must; a turn sees its own request and not the rows queued
      behind it; transcripts sent to a provider pair calls with results; a
      compaction covers only what a summarizer saw.
    - Verdicts: a gate passes only if its command is admitted, runs inside and
      exits with 0, a reused failure was reached in the same turn, no grade
      passes a turn over a failing gate, a failing gate is answered by a retry
      or a reason, retries are bounded, and a goal waits for its gates.
    - Tools: an admitted call is allowed, an approval covers one call, a stopped
      call never enters its tool afterwards, a round's results are in order; no
      file tool leaves its roots, a denied command is refused.
    - Files: a write is all or nothing at every moment; one editor at a time;
      what an edit replies is what happened; following the offered offsets reads
      a whole file.
    - Memory: what is rendered is parsed back; in every state of a store its
      index is the live entries of its markdown, so that rebuilding it
      changes nothing; an edit touches one entry, a moved entry is a copy with a
      fresh address, an added one is found, a stale save is refused, and automatic
      routing stays in the space it was asked for.
    - Findings: lemmas exhibit runs in which the code does not do what it means
      to: among others a pause that outlives a failed compaction, undecodable
      bytes rewritten by an edit, a message that runs twice, a removed message
      that runs, a user's words run under a scheduled job's options, an approval unlocked by a no, a running call
      reported as never started, comments in a memory's text read back as
      metadata, two entries with one address, a result trimmed from its call, a
      gate the policy refuses that holds back nothing, a retry announced and
      not run.

    Bounds and fuel.  Recursion is structural except where noted.
    [EditMatch.walk] has a round per line plus one ([EditMatch.walk_rewrites]).
    [Ladder] has fuel for four requests to each of two models, which its retry
    limits stay within ([Ladder.ladder_terminates]).  [Turn.turn_loop] has four rounds per
    round of every window plus ten ([Turn.every_turn_ends]), and the retry loop
    of [Verify] one more than the cap on retries.  The word and
    bracket loops of [Shell] have a step per token, nested commands a depth of
    three, as in the code.  [Difflib] has the length of its texts,
    [MemStore]'s search for a free epoch one more than the epochs taken (a
    pigeonhole gives one), and the trimming loop the number of messages.

    ** Not modelled

    - What a model is told: the wording of prompts, notices and errors, the
      blocks of the system prompt, the attachments read from disk.  They are
      arguments of [Context] and [Turn].
    - What is mostly an LLM call and a parser around it: memory sweeps,
      consolidation and distillation, the call and the evidence behind a grade,
      synthesis, the scout, snooze and dream, skills and canaries.
    - The rest of the session manager (creation, deletion, boot reconciliation,
      the worker watch, reaping) and of its hooks, the
      extensions (workers, schedules, RLM, MCP, web): they
      are processes and network protocols around state already modelled.
    - HTTP and subprocess plumbing, provider clients, the schema and its
      migrations, retention, settings and start-up, the kernel, the browser
      front end, scripts, and display text such as unified diffs. *)
From Stdlib Require Export ZArith Lia.
From stdpp Require Export base numbers option list list_numbers strings gmap fin_maps.

#[global] Set Default Goal Selector "!".

(** ** Record update

    Python objects are records of fields that are assigned one at a time.
    [s <| f := v |>] is the object [s] after [s.f = v]; [s <| f ::= g |>] is
    [s] after [s.f = g(s.f)].  A record type opts in by a [Settable]
    instance that lists its fields once. *)
Class Settable (R : Type) := eta : R → R.
Class Setter {R T : Type} (proj : R → T) := modify : (T → T) → R → R.

Ltac derive_setter :=
  lazymatch goal with
  | |- @Setter ?R ?T ?p =>
      let inst := constr:(_ : Settable R) in
      let e := eval hnf in inst in
      lazymatch eval pattern p in e with
      | ?s _ => exact (fun f => s (fun r => f (p r)))
      end
  end.
#[global] Hint Extern 1 (Setter _) => derive_setter : typeclass_instances.

Declare Scope pernix_scope.
Delimit Scope pernix_scope with pernix.
Notation "s <| f := v |>" := (modify (proj:=f) (λ _, v) s)
  (at level 1, left associativity) : pernix_scope.
Notation "s <| f ::= g |>" := (modify (proj:=f) g s)
  (at level 1, left associativity) : pernix_scope.
Global Open Scope pernix_scope.

(** ** Exceptions

    [Ret a] is a Python call that returned [a]; [Raise e] one that raised. *)
Inductive result (E A : Type) : Type :=
| Ret (a : A)
| Raise (e : E).
Arguments Ret {E A} a.
Arguments Raise {E A} e.

Definition result_bind {E A B} (k : A → result E B) (m : result E A) : result E B :=
  match m with Ret a => k a | Raise e => Raise e end.
Notation "'let!' x ':=' m 'in' k" := (result_bind (λ x, k) m)
  (at level 10, x pattern, m at level 100, k at level 200) : pernix_scope.

(** ** Lists *)

(** [l.remove(x)] guarded by [x in l]: the first occurrence goes. *)
Fixpoint remove_first {A} `{EqDecision A} (x : A) (l : list A) : list A :=
  match l with
  | [] => []
  | y :: l => if decide (y = x) then l else y :: remove_first x l
  end.

(** [collections.deque(maxlen=n).append(x)]: a full deque drops from its left. *)
Definition deque_append {A} (n : nat) (l : list A) (x : A) : list A :=
  let l' := l ++ [x] in drop (length l' - n) l'.

(** [sum] over a list of integers. *)
Definition sumZ (l : list Z) : Z := foldr Z.add 0%Z l.

Section lists.
Context {A : Type}.
Implicit Types (l : list A) (x : A).

Lemma deque_append_length n l x :
  0 < n → length l ≤ n → length (deque_append n l x) ≤ n.
Proof. intros. unfold deque_append. rewrite length_drop, length_app; simpl. lia. Qed.

Lemma deque_append_suffix n l x :
  ∃ k, deque_append n l x = drop k l ++ [x] ∨ n = 0.
Proof.
  unfold deque_append. rewrite length_app; simpl.
  destruct n as [|n]; [by exists 0; right|].
  exists (length l + 1 - S n). left.
  rewrite drop_app_le; [done|lia].
Qed.

Context `{EqDecision A}.

Lemma remove_first_subset x y l : y ∈ remove_first x l → y ∈ l.
Proof.
  induction l as [|z l IH]; simpl; [done|].
  case_decide; rewrite ?elem_of_cons; intuition.
Qed.

Lemma remove_first_ne x y l : y ≠ x → y ∈ l → y ∈ remove_first x l.
Proof.
  intros ?. induction l as [|z l IH]; simpl; [done|].
  case_decide; rewrite ?elem_of_cons; intuition congruence.
Qed.

Lemma remove_first_NoDup x l : NoDup l → NoDup (remove_first x l).
Proof.
  induction 1 as [|y l Hy Hl IH]; simpl; [constructor|].
  case_decide; [done|]. constructor; [|done].
  intros ?%remove_first_subset; done.
Qed.

Lemma remove_first_gone x l : NoDup l → x ∉ remove_first x l.
Proof.
  induction 1 as [|y l Hy Hl IH]; simpl; [apply not_elem_of_nil|].
  case_decide as Hyx; [by subst|].
  rewrite not_elem_of_cons. split; congruence.
Qed.

Lemma remove_first_notin x l : x ∉ l → remove_first x l = l.
Proof.
  induction l as [|y l IH]; simpl; [done|]. rewrite not_elem_of_cons. intros [? ?].
  case_decide; [congruence|]. by rewrite IH.
Qed.
End lists.

Lemma filter_all {A} (P : A → Prop) `{∀ x, Decision (P x)} (l : list A) :
  (∀ x, x ∈ l → P x) → filter P l = l.
Proof.
  induction l as [|x l IH]; intros Hl; [done|].
  rewrite filter_cons_True by (apply Hl; left). rewrite IH; [done|].
  intros. apply Hl. by right.
Qed.

Lemma filter_none {A} (P : A → Prop) `{∀ x, Decision (P x)} l :
  (∀ x, x ∈ l → ¬ P x) → filter P l = [].
Proof.
  intros Hl. destruct (filter P l) as [|x k] eqn:E; [done|].
  assert (x ∈ filter P l) as [Hp Hx]%list_elem_of_filter by (rewrite E; left).
  by apply Hl in Hx.
Qed.


Lemma elem_of_concat {A} (x : A) (ls : list (list A)) :
  x ∈ concat ls ↔ ∃ l, l ∈ ls ∧ x ∈ l.
Proof.
  induction ls as [|l ls IH]; cbn.
  - split; [by intros ?%not_elem_of_nil|]. by intros (l & ?%not_elem_of_nil & _).
  - rewrite elem_of_app, IH. setoid_rewrite elem_of_cons. naive_solver.
Qed.
Lemma prefix_concat {A} (l1 l2 : list (list A)) : prefix l1 l2 → prefix (concat l1) (concat l2).
Proof. intros [k ->]. rewrite concat_app. by apply prefix_app_r. Qed.

(** Counting the elements a test accepts. *)
(** What every step keeps, the fold keeps. *)
Lemma foldl_keeps {A B C} (K : A → C) (f : A → B → A) (l : list B) (a : A) :
  (∀ a b, K (f a b) = K a) → K (foldl f a l) = K a.
Proof. intros H. revert a. induction l as [|b l IH]; intros a; [done|]. cbn. by rewrite IH, H. Qed.

Definition cnt {A} (P : A → bool) (l : list A) : Z :=
  foldr (λ x n, ((if P x then 1 else 0) + n)%Z) 0%Z l.

#[global] Arguments cnt : simpl never.

Lemma cnt_cons {A} (P : A → bool) x l :
  cnt P (x :: l) = ((if P x then 1 else 0) + cnt P l)%Z.
Proof. done. Qed.
Lemma cnt_app {A} (P : A → bool) l k : cnt P (l ++ k) = (cnt P l + cnt P k)%Z.
Proof. induction l as [|x l IH]; [done|]. cbn [app]. rewrite !cnt_cons, IH. lia. Qed.
Lemma cnt_snoc {A} (P : A → bool) l x : cnt P (l ++ [x]) = (cnt P l + if P x then 1 else 0)%Z.
Proof. rewrite cnt_app, cnt_cons. change (cnt P []) with 0%Z. lia. Qed.
Lemma cnt_nonneg {A} (P : A → bool) l : (0 ≤ cnt P l)%Z.
Proof. induction l as [|x l IH]; [done|]. rewrite cnt_cons. destruct (P x); lia. Qed.
Lemma cnt_insert {A} (P : A → bool) l i x y :
  l !! i = Some x →
  (cnt P (<[i := y]> l) + (if P x then 1 else 0) = cnt P l + (if P y then 1 else 0))%Z.
Proof.
  intros Hi. rewrite insert_take_drop by (by apply lookup_lt_Some in Hi).
  rewrite <-(take_drop_middle l i x Hi) at 3. rewrite !cnt_app, !cnt_cons. lia.
Qed.
Lemma cnt_delete {A} (P : A → bool) l i x :
  l !! i = Some x → (cnt P (delete i l) + (if P x then 1 else 0) = cnt P l)%Z.
Proof.
  intros Hi. rewrite delete_take_drop.
  rewrite <-(take_drop_middle l i x Hi) at 3. rewrite !cnt_app, cnt_cons. lia.
Qed.
Lemma cnt_pos {A} (P : A → bool) l : (0 < cnt P l)%Z ↔ ∃ x, x ∈ l ∧ P x = true.
Proof.
  split.
  - induction l as [|x l IH]; [done|]. rewrite cnt_cons. destruct (P x) eqn:E.
    + intros _. exists x. split; [left|done].
    + intros Hl. destruct IH as (y & ? & ?); [lia|]. exists y. split; [by right|done].
  - intros (x & Hx & HP). apply list_elem_of_lookup in Hx as [i Hi].
    pose proof (cnt_delete P l i x Hi). pose proof (cnt_nonneg P (delete i l)).
    rewrite HP in *. lia.
Qed.

(** ** Short texts

    A Coq string is read as Python text whose code points are below 256;
    [str.strip()] removes the white space among them. *)
Definition py_space (c : Ascii.ascii) : bool :=
  let n := Ascii.nat_of_ascii c in
  ((9 <=? n) && (n <=? 13)) || ((28 <=? n) && (n <=? 32)) || (n =? 133) || (n =? 160).
Fixpoint py_lstrip (s : string) : string :=
  match s with
  | String.String c s' => if py_space c then py_lstrip s' else s
  | String.EmptyString => s
  end.
Fixpoint py_rstrip (s : string) : string :=
  match s with
  | String.String c s' =>
      match py_rstrip s' with
      | String.EmptyString => if py_space c then String.EmptyString else String.String c String.EmptyString
      | s'' => String.String c s''
      end
  | String.EmptyString => s
  end.
Definition py_strip (s : string) : string := py_rstrip (py_lstrip s).

(** ** Integers *)
Lemma Z_eqb_spec_dec (a b : Z) : bool_decide (a = b) = (a =? b)%Z.
Proof. case_bool_decide; [by subst; rewrite Z.eqb_refl|]. by destruct (Z.eqb_spec a b). Qed.

(** ** Step relations

    The reflexive-transitive closure used to state what holds after any
    sequence of operations; [stable_invariant] is the rule-induction
    principle all reachability theorems go through. *)
Definition reachable {S} (init : S → Prop) (step : S → S → Prop) (s : S) : Prop :=
  ∃ s0, init s0 ∧ rtc step s0 s.

Lemma stable_invariant {S} (init : S → Prop) (step : S → S → Prop) (I : S → Prop) :
  (∀ s, init s → I s) → (∀ s s', I s → step s s' → I s') →
  ∀ s, reachable init step s → I s.
Proof.
  intros Hinit Hstep s (s0 & H0%Hinit & Hrtc). revert H0.
  induction Hrtc; eauto.
Qed.

(** ** Automation *)

(** Split on the innermost scrutinee of a [match] or [if], keeping its equation. *)
Ltac split_match :=
  match goal with
  | |- context [match ?x with _ => _ end] =>
      lazymatch x with
      | context [match _ with _ => _ end] => fail
      | _ => let E := fresh "E" in destruct x eqn:E
      end
  end.
Ltac split_match_in H :=
  match type of H with
  | context [match ?x with _ => _ end] =>
      lazymatch x with
      | context [match _ with _ => _ end] => fail
      | _ => let E := fresh "E" in destruct x eqn:E
      end
  end.

(** Turn boolean tests in the context into propositions. *)
Ltac breflect :=
  repeat match goal with
  | H : (_ && _)%bool = true |- _ => apply andb_prop in H as [? ?]
  | H : (_ || _)%bool = false |- _ => apply orb_false_elim in H as [? ?]
  | H : negb _ = true |- _ => apply negb_true_iff in H
  | H : negb _ = false |- _ => apply negb_false_iff in H
  | H : (_ =? _)%Z = true |- _ => apply Z.eqb_eq in H
  | H : (_ =? _)%Z = false |- _ => apply Z.eqb_neq in H
  | H : (_ <? _)%Z = true |- _ => apply Z.ltb_lt in H
  | H : (_ <? _)%Z = false |- _ => apply Z.ltb_ge in H
  | H : (_ <=? _)%Z = true |- _ => apply Z.leb_le in H
  | H : (_ <=? _)%Z = false |- _ => apply Z.leb_gt in H
  | H : (_ <? _)%nat = true |- _ => apply Nat.ltb_lt in H
  | H : (_ <? _)%nat = false |- _ => apply Nat.ltb_ge in H
  | H : (_ <=? _)%nat = true |- _ => apply Nat.leb_le in H
  | H : (_ <=? _)%nat = false |- _ => apply Nat.leb_gt in H
  | H : (_ =? _)%nat = true |- _ => apply Nat.eqb_eq in H
  | H : (_ =? _)%nat = false |- _ => apply Nat.eqb_neq in H
  | H : bool_decide _ = true |- _ => apply bool_decide_eq_true in H
  | H : bool_decide _ = false |- _ => apply bool_decide_eq_false in H
  end.

Create HintDb pernix discriminated.
#[export] Hint Resolve remove_first_NoDup remove_first_gone remove_first_ne : pernix.
#[export] Hint Resolve deque_append_length : pernix.
#[export] Hint Extern 1 (_ < _) => lia : pernix.
#[export] Hint Extern 1 (_ ≤ _) => lia : pernix.
