(* ===== verification/Events.v ===== *)
(** * Event delivery

    The publish/subscribe code of [sessions/state.py] ([AgentSession.emit_event]
    and its neighbours) and of [core/events.py] ([JobEventBus]).  Both keep a
    list of subscriber queues and push stamped events on them; the session
    keeps a replay buffer as well.

    A queue is an object shared by the producer and the consumer, so queues
    live in a store and the subscriber list holds their names.  A thread that
    emits stamps the event under a lock and only then hands the delivery to
    the event loop ([run_on_loop]), so stamping and delivery are separate
    steps: between them an event is [inflight] (its thread has not called
    [call_soon_threadsafe] yet) or in [callbacks] (the loop's FIFO). *)
From S2P Require Import Prelude.

(** [asyncio.Queue(maxsize=500)] and [deque(maxlen=2000)]. *)
Definition QUEUE_MAXSIZE : nat := 500.
Definition EVENTS_MAXLEN : nat := 2000.

(** Only the sequence number, the owner and the timestamp matter here: the
    rest of an event's dictionary is the opaque [ev_body]. *)
Record Event (B : Type) := mkEvent {
  ev_body : B;
  ev_seq : Z;
  ev_session_id : option string;
  ev_timestamp : Z
}.
Arguments mkEvent {B}. Arguments ev_body {B}. Arguments ev_seq {B}.
Arguments ev_session_id {B}. Arguments ev_timestamp {B}.

(** An [asyncio.Queue] with the [_pernix_dropped] attribute.  [q_taken] and
    [q_since] are history: what the consumer has read, and the sequence
    number at subscription. No operation reads them. *)
Record Queue (B : Type) := mkQueue {
  q_items : list (Event B);
  q_dropped : bool;
  q_taken : list (Event B);
  q_since : Z
}.
Arguments mkQueue {B}. Arguments q_items {B}. Arguments q_dropped {B}.
Arguments q_taken {B}. Arguments q_since {B}.
#[export] Instance Queue_settable {B} : Settable (Queue B) :=
  λ q, mkQueue (q_items q) (q_dropped q) (q_taken q) (q_since q).

(** The subscriber list and the queue objects. *)
Record Channel (B : Type) := mkChannel {
  subscribers : list nat;
  queues : gmap nat (Queue B);
  next_queue : nat
}.
Arguments mkChannel {B}. Arguments subscribers {B}. Arguments queues {B}.
Arguments next_queue {B}.
#[export] Instance Channel_settable {B} : Settable (Channel B) :=
  λ c, mkChannel (subscribers c) (queues c) (next_queue c).

Definition empty_channel {B} : Channel B := mkChannel [] ∅ 0.

Section channel.
Context {B : Type}.
Implicit Types (e : Event B) (c : Channel B) (q : Queue B).

(** [q.put_nowait(event)]: [None] is [asyncio.QueueFull]. *)
Definition put_nowait e q : option (Queue B) :=
  if decide (QUEUE_MAXSIZE ≤ length (q_items q)) then None
  else Some (q <| q_items ::= λ l, l ++ [e] |>).

(** [mark_queue_dropped] and [queue_was_dropped] of [core/events.py]. *)
Definition mark_queue_dropped q : Queue B := q <| q_dropped := true |>.
Definition queue_was_dropped q : bool := q_dropped q.

(** The first loop of the delivery: offer the event to every queue of the
    snapshot, collecting the ones that are full. *)
Fixpoint offer_all e (snapshot : list nat) (qs : gmap nat (Queue B))
    : gmap nat (Queue B) * list nat :=
  match snapshot with
  | [] => (qs, [])
  | i :: snapshot =>
      match qs !! i with
      | None => offer_all e snapshot qs
      | Some q =>
          match put_nowait e q with
          | Some q' => offer_all e snapshot (<[i := q']> qs)
          | None => let '(qs', dead) := offer_all e snapshot qs in (qs', i :: dead)
          end
      end
  end.

(** The second loop: flag each dead queue and detach it. *)
Definition detach_dead (i : nat) c : Channel B :=
  c <| queues ::= alter mark_queue_dropped i |>
    <| subscribers ::= remove_first i |>.

(** [AgentSession._deliver_to_subscribers] / [JobEventBus._deliver]. *)
Definition deliver e c : Channel B :=
  let '(qs, dead) := offer_all e (subscribers c) (queues c) in
  foldl (λ c i, detach_dead i c) (c <| queues := qs |>) dead.

(** [subscribe()]: a fresh queue, appended to the list. *)
Definition subscribe (seq : Z) c : nat * Channel B :=
  let i := next_queue c in
  (i, c <| queues ::= insert i (mkQueue [] false [] seq) |>
        <| subscribers ::= λ l, l ++ [i] |>
        <| next_queue := S i |>).

(** [unsubscribe(q)]; the [ValueError] of an unknown queue is swallowed. *)
Definition unsubscribe (i : nat) c : Channel B :=
  c <| subscribers ::= remove_first i |>.

(** The consumer's [q.get()]. *)
Definition consume (i : nat) c : Channel B :=
  c <| queues ::= alter (λ q,
    match q_items q with
    | [] => q
    | e :: l => q <| q_items := l |> <| q_taken ::= (λ t, t ++ [e]) |>
    end) i |>.
End channel.

(** [run_on_loop(fn)]: the call is inline when the thread runs a loop or when
    there is no open main loop to hand it to ([main_loop] is [None], or
    [Some closed]); otherwise it is marshalled onto the main loop. *)
Inductive dispatch := Inline | Marshalled.
Definition run_on_loop (running_loop : bool) (main_loop : option bool) : dispatch :=
  if running_loop then Inline
  else match main_loop with Some false => Marshalled | _ => Inline end.

(** ** The session's event fields

    [event_seq], [events], [subscribers] of [AgentSession], with the events
    whose delivery the loop still owes. *)
Record SessionEvents (B : Type) := mkSessionEvents {
  event_seq : Z;
  events : list (Event B);
  channel : Channel B;
  inflight : list (Event B);
  callbacks : list (Event B)
}.
Arguments mkSessionEvents {B}. Arguments event_seq {B}. Arguments events {B}.
Arguments channel {B}. Arguments inflight {B}. Arguments callbacks {B}.
#[export] Instance SessionEvents_settable {B} : Settable (SessionEvents B) :=
  λ s, mkSessionEvents (event_seq s) (events s) (channel s) (inflight s) (callbacks s).

Definition new_session_events {B} : SessionEvents B :=
  mkSessionEvents 0 [] empty_channel [] [].

Section session_events.
Context {B : Type}.
Implicit Types (s : SessionEvents B).

(** The locked part of [emit_event]: number the event, stamp it (a
    timestamp the caller set is kept), append it to the buffer. *)
Definition stamp (session_id : string) (body : B) (ts : option Z) (now : Z) s
    : Event B * SessionEvents B :=
  let seq := (event_seq s + 1)%Z in
  let e := mkEvent body seq (Some session_id) (default now ts) in
  (e, s <| event_seq := seq |> <| events ::= λ l, deque_append EVENTS_MAXLEN l e |>).

(** [emit_event]: stamp, then [run_on_loop] the delivery.  A marshalled
    delivery leaves the event with its thread until [call_soon]. *)
Definition emit_event (d : dispatch) (session_id : string) (body : B)
    (ts : option Z) (now : Z) s : SessionEvents B :=
  let '(e, s) := stamp session_id body ts now s in
  match d with
  | Inline => s <| channel ::= deliver e |>
  | Marshalled => s <| inflight ::= λ l, l ++ [e] |>
  end.

(** The thread that stamped the [k]-th event in flight calls
    [loop.call_soon_threadsafe]. *)
Definition call_soon (k : nat) s : SessionEvents B :=
  match inflight s !! k with
  | None => s
  | Some e => s <| inflight ::= delete k |> <| callbacks ::= λ l, l ++ [e] |>
  end.

(** The loop runs its next callback. *)
Definition run_callback s : SessionEvents B :=
  match callbacks s with
  | [] => s
  | e :: l => s <| callbacks := l |> <| channel ::= deliver e |>
  end.

Inductive step : SessionEvents B → SessionEvents B → Prop :=
| step_emit d sid b ts now s : step s (emit_event d sid b ts now s)
| step_call_soon k s : step s (call_soon k s)
| step_run_callback s : step s (run_callback s)
| step_subscribe s : step s (s <| channel := (subscribe (event_seq s) (channel s)).2 |>)
| step_unsubscribe i s : step s (s <| channel ::= unsubscribe i |>)
| step_consume i s : step s (s <| channel ::= consume i |>).
End session_events.

(** ** The global bus: [JobEventBus] has a sequence number but no buffer. *)
Record JobEventBus (B : Type) := mkBus { bus_seq : Z; bus_channel : Channel B }.
Arguments mkBus {B}. Arguments bus_seq {B}. Arguments bus_channel {B}.
#[export] Instance JobEventBus_settable {B} : Settable (JobEventBus B) :=
  λ b, mkBus (bus_seq b) (bus_channel b).

Definition bus_emit {B} (body : B) (ts : option Z) (now : Z) (b : JobEventBus B)
    : JobEventBus B :=
  let seq := (bus_seq b + 1)%Z in
  let e := mkEvent body seq None (default now ts) in
  b <| bus_seq := seq |> <| bus_channel ::= deliver e |>.

(** ** What delivery does to each queue *)
Section deliver_facts.
Context {B : Type}.
Implicit Types (e : Event B) (c : Channel B) (q : Queue B).

(** One queue's fate when [e] is delivered to it. *)
Definition after_delivery e q : Queue B :=
  default (mark_queue_dropped q) (put_nowait e q).

Lemma offer_all_queues e snap qs qs' dead i :
  NoDup snap → offer_all e snap qs = (qs', dead) →
  qs' !! i = if decide (i ∈ snap) then (λ q, default q (put_nowait e q)) <$> qs !! i
             else qs !! i.
Proof.
  intros Hnd. revert qs qs' dead.
  induction Hnd as [|j snap Hj Hnd IH]; intros qs qs' dead; simpl.
  { by intros [= <- <-]. }
  destruct (qs !! j) as [q|] eqn:Hq; [destruct (put_nowait e q) as [q'|] eqn:Hput|].
  - intros ->%IH. destruct (decide (i = j)) as [->|].
    + rewrite decide_False, decide_True by set_solver.
      by rewrite lookup_insert_eq, Hq; simpl; rewrite Hput.
    + rewrite lookup_insert_ne by done.
      by repeat case_decide; try done; set_solver.
  - destruct (offer_all e snap qs) as [qs1 dead1] eqn:Hrec. intros [= <- <-].
    rewrite (IH _ _ _ Hrec). destruct (decide (i = j)) as [->|].
    + rewrite decide_False, decide_True by set_solver. rewrite Hq. simpl. by rewrite Hput.
    + by repeat case_decide; try done; set_solver.
  - intros ->%IH. destruct (decide (i = j)) as [->|].
    + rewrite decide_False, decide_True by set_solver. by rewrite Hq.
    + by repeat case_decide; try done; set_solver.
Qed.

Lemma offer_all_dead e snap qs qs' dead i :
  NoDup snap → offer_all e snap qs = (qs', dead) →
  i ∈ dead ↔ i ∈ snap ∧ ∃ q, qs !! i = Some q ∧ put_nowait e q = None.
Proof.
  intros Hnd. revert qs qs' dead.
  induction Hnd as [|j snap Hj Hnd IH]; intros qs qs' dead; simpl.
  { intros [= <- <-]. set_solver. }
  destruct (qs !! j) as [q|] eqn:Hq; [destruct (put_nowait e q) as [q'|] eqn:Hput|].
  - intros Hrec%IH. rewrite Hrec, elem_of_cons.
    destruct (decide (i = j)) as [->|Hne].
    { split; [by intros [? _]|]. intros (_ & q0 & ? & ?). congruence. }
    rewrite lookup_insert_ne by done. naive_solver.
  - destruct (offer_all e snap qs) as [qs1 dead1] eqn:Hrec. intros [= <- <-].
    rewrite !elem_of_cons, (IH _ _ _ Hrec). naive_solver.
  - intros Hrec%IH. rewrite Hrec, elem_of_cons. split; [naive_solver|].
    intros ([->|?] & q & ? & ?); [congruence|naive_solver].
Qed.

Lemma detach_dead_all dead c c' :
  c' = foldl (λ c i, detach_dead i c) c dead →
  NoDup (subscribers c) →
  NoDup (subscribers c') ∧ next_queue c' = next_queue c ∧
  (∀ i, i ∈ subscribers c' ↔ i ∈ subscribers c ∧ i ∉ dead) ∧
  (∀ i, queues c' !! i =
    if decide (i ∈ dead) then mark_queue_dropped <$> queues c !! i else queues c !! i).
Proof.
  intros ->. induction dead as [|j dead IH] in c |- *; cbn [foldl]; intros Hnd.
  { split_and!; [done..|set_solver|]. intros i. by rewrite decide_False by set_solver. }
  destruct (IH (detach_dead j c)) as (Hnd' & Hnext & Hsubs & Hqs); [by apply remove_first_NoDup|].
  split_and!; [done..| |].
  - intros i. rewrite Hsubs, elem_of_cons. cbn.
    destruct (decide (i = j)) as [->|Hne].
    + pose proof (remove_first_gone j _ Hnd). naive_solver.
    + split; [|naive_solver eauto using remove_first_ne].
      intros [?%remove_first_subset ?]. naive_solver.
  - intros i. rewrite Hqs. cbn. destruct (decide (i = j)) as [->|Hne].
    + rewrite lookup_alter_eq, (decide_True (P := j ∈ j :: dead)) by set_solver.
      case_decide; [|done]. by destruct (queues c !! j).
    + rewrite lookup_alter_ne by done. by repeat case_decide; try done; set_solver.
Qed.

Lemma deliver_spec e c :
  NoDup (subscribers c) →
  NoDup (subscribers (deliver e c)) ∧ next_queue (deliver e c) = next_queue c ∧
  (∀ i, i ∈ subscribers (deliver e c) ↔
    i ∈ subscribers c ∧ ∀ q, queues c !! i = Some q → is_Some (put_nowait e q)) ∧
  (∀ i, queues (deliver e c) !! i =
    if decide (i ∈ subscribers c) then after_delivery e <$> queues c !! i
    else queues c !! i).
Proof.
  intros Hnd. unfold deliver.
  destruct (offer_all e (subscribers c) (queues c)) as [qs dead] eqn:Hoff.
  destruct (detach_dead_all dead (c <| queues := qs |>) _ eq_refl)
    as (? & ? & Hsubs & Hqs); [done|].
  split_and!; [done..| |].
  - intros i. rewrite Hsubs, (offer_all_dead _ _ _ _ _ _ Hnd Hoff). cbn.
    destruct (queues c !! i) as [q|]; [|naive_solver].
    assert ((∀ q0, Some q = Some q0 → is_Some (put_nowait e q0)) ↔ is_Some (put_nowait e q))
      as -> by naive_solver.
    rewrite <-not_eq_None_Some. naive_solver.
  - intros i. rewrite Hqs. cbn. rewrite (offer_all_queues _ _ _ _ _ i Hnd Hoff).
    pose proof (offer_all_dead _ _ _ _ _ i Hnd Hoff) as Hdead. unfold after_delivery.
    destruct (queues c !! i) as [q|] eqn:Hq; [|by repeat case_decide].
    assert (i ∈ dead ↔ i ∈ subscribers c ∧ put_nowait e q = None) as Hd.
    { rewrite Hdead. split; [intros (? & q' & [= <-] & ?); done|naive_solver]. }
    clear Hdead. repeat case_decide; simpl; try done; try tauto.
    + destruct Hd as [[_ ->] _]; done.
    + destruct (put_nowait e q) eqn:Hput; simpl; [done|tauto].
Qed.
End deliver_facts.

(** ** The invariant of a session's event fields *)
Section invariant.
Context {B : Type}.
Implicit Types (e : Event B) (c : Channel B) (q : Queue B) (s : SessionEvents B).

Definition seqs (l : list (Event B)) : list Z := ev_seq <$> l.
Definition received q : list (Event B) := q_taken q ++ q_items q.
(** Stamped, and owed to the loop. *)
Definition pending s : list (Event B) := inflight s ++ callbacks s.

(** The buffer holds the latest events, consecutively numbered. *)
Definition buffer_ok s : Prop :=
  length (events s) ≤ EVENTS_MAXLEN ∧ (0 ≤ event_seq s)%Z ∧
  ∀ k e, events s !! k = Some e →
    ev_seq e = (event_seq s - Z.of_nat (length (events s)) + 1 + Z.of_nat k)%Z.

Definition queue_ok (hi : Z) (p : list (Event B)) q : Prop :=
  length (q_items q) ≤ QUEUE_MAXSIZE ∧
  (q_since q ≤ hi)%Z ∧
  NoDup (seqs (received q ++ p)) ∧
  (∀ n, n ∈ seqs (received q) → n ≤ hi)%Z ∧
  (∀ n, q_since q < n ≤ hi → n ∈ seqs (received q ++ p))%Z.

Definition channel_ok (hi : Z) (p : list (Event B)) c : Prop :=
  NoDup (subscribers c) ∧
  (∀ i q, queues c !! i = Some q → i < next_queue c) ∧
  (∀ i, i ∈ subscribers c → ∃ q, queues c !! i = Some q ∧
    q_dropped q = false ∧ queue_ok hi p q).

Definition pending_ok (hi : Z) (p : list (Event B)) : Prop :=
  NoDup (seqs p) ∧ ∀ n, (n ∈ seqs p → n ≤ hi)%Z.

Definition events_inv s : Prop :=
  buffer_ok s ∧ pending_ok (event_seq s) (pending s) ∧
  channel_ok (event_seq s) (pending s) (channel s).

Lemma seqs_app l1 l2 : seqs (l1 ++ l2) = seqs l1 ++ seqs l2.
Proof. apply fmap_app. Qed.

(** *** The buffer *)
Lemma stamp_buffer sid b ts now s : buffer_ok s → buffer_ok (stamp sid b ts now s).2.
Proof.
  intros (Hlen & Hpos & Hseq). unfold stamp, buffer_ok. cbn. split; [|split; [lia|]].
  - apply deque_append_length; unfold EVENTS_MAXLEN in *; lia.
  - intros k e. unfold deque_append. rewrite lookup_drop, length_drop, length_app. cbn [length].
    set (d := length (events s) + 1 - EVENTS_MAXLEN).
    destruct (decide (d + k < length (events s))) as [Hlt|Hge].
    + rewrite lookup_app_l by done. intros ->%Hseq. subst d. unfold EVENTS_MAXLEN in *. lia.
    + intros Hlk. pose proof (lookup_lt_Some _ _ _ Hlk) as Hb.
      rewrite length_app in Hb. cbn in Hb.
      rewrite lookup_app_r in Hlk by lia.
      replace (d + k - length (events s)) with 0 in Hlk by lia.
      injection Hlk as <-. cbn. subst d. unfold EVENTS_MAXLEN in *. lia.
Qed.

(** *** The channel *)
Lemma queue_ok_perm hi p p' q :
  Permutation p p' → queue_ok hi p q → queue_ok hi p' q.
Proof.
  intros Hp (? & ? & Hnd & ? & Hall).
  assert (seqs (received q ++ p) ≡ₚ seqs (received q ++ p')) as Hperm
    by (unfold seqs; by rewrite Hp).
  split_and!; [done..| |done|].
  - by rewrite <-Hperm.
  - intros n Hn. rewrite <-Hperm. by apply Hall.
Qed.

Lemma channel_ok_perm hi p p' c :
  Permutation p p' → channel_ok hi p c → channel_ok hi p' c.
Proof.
  intros Hp (? & ? & Hsubs). split_and!; [done..|].
  intros i (q & ? & ? & ?)%Hsubs. eauto using queue_ok_perm.
Qed.

Lemma pending_ok_perm hi p p' : Permutation p p' → pending_ok hi p → pending_ok hi p'.
Proof.
  intros Hp [Hnd Hle]. unfold pending_ok, seqs in *.
  split; [by rewrite <-Hp|]. intros n. rewrite <-Hp. apply Hle.
Qed.

(** A freshly numbered event joins the pending ones. *)
Lemma channel_ok_stamp hi p c e :
  ev_seq e = (hi + 1)%Z → pending_ok hi p → channel_ok hi p c →
  channel_ok (hi + 1) (p ++ [e]) c.
Proof.
  intros He [Hpnd Hple] (? & ? & Hsubs). split_and!; [done..|].
  intros i (q & Hq & ? & ? & ? & Hnd & Hle & Hall)%Hsubs.
  exists q. split_and!; [done..|]. split_and!; [done|lia| |intros n ?%Hle; lia|].
  - rewrite app_assoc, seqs_app. apply NoDup_app. split_and!; [done| |apply NoDup_singleton].
    intros n Hn. cbn. rewrite He, list_elem_of_singleton. intros ->.
    rewrite seqs_app, elem_of_app in Hn. destruct Hn as [?%Hle|?%Hple]; lia.
  - intros n Hn. rewrite app_assoc, seqs_app, elem_of_app. cbn.
    rewrite He, list_elem_of_singleton.
    destruct (decide (n = hi + 1)%Z); [by right|]. left. apply Hall. lia.
Qed.

Lemma pending_ok_stamp hi p e :
  ev_seq e = (hi + 1)%Z → pending_ok hi p → pending_ok (hi + 1) (p ++ [e]).
Proof.
  intros He [Hnd Hle]. split.
  - rewrite seqs_app. apply NoDup_app. split_and!; [done| |apply NoDup_singleton].
    intros n Hn%Hle. cbn. rewrite He, list_elem_of_singleton. lia.
  - intros n. rewrite seqs_app, elem_of_app. cbn. rewrite He, list_elem_of_singleton.
    intros [?%Hle| ->]; lia.
Qed.

(** Delivering a pending event moves it from [pending] to every attached
    queue, or detaches the queue. *)
Lemma channel_ok_deliver hi e p c :
  (ev_seq e ≤ hi)%Z →
  channel_ok hi (e :: p) c → channel_ok hi p (deliver e c).
Proof.
  intros Hehi (Hnd & Hnext & Hsubs).
  destruct (deliver_spec e c Hnd) as (Hnd' & Hnx & Hs & Hq).
  split_and!; [done| |].
  - intros i q. rewrite Hq, Hnx. case_decide; [|by apply Hnext].
    intros (q0 & ? & _)%fmap_Some. eauto.
  - intros i Hi. pose proof Hi as Hi'. apply Hs in Hi as [Hi Hroom].
    destruct (Hsubs i Hi) as (q & Hlk & Hnotdropped & Hlen & Hsince & Hnodup & Hle & Hall).
    rewrite Hq, decide_True, Hlk by done. cbn.
    destruct (Hroom q Hlk) as [q' Hput]. unfold after_delivery. rewrite Hput. cbn.
    exists q'. unfold put_nowait in Hput. case_decide as Hfull; [done|]. injection Hput as <-.
    assert (Hperm : seqs (received (q <| q_items ::= λ l, l ++ [e] |>) ++ p)
      ≡ₚ seqs (received q ++ e :: p)).
    { unfold seqs. apply fmap_Permutation. unfold received; cbn. rewrite <-!app_assoc. done. }
    split_and!; [done..|]. split_and!; [|done| | |].
    + cbn. rewrite length_app. cbn. lia.
    + by rewrite Hperm.
    + intros n. unfold received. cbn. rewrite app_assoc, seqs_app, elem_of_app.
      intros [?|Hn]; [by apply Hle|]. cbn in Hn. apply list_elem_of_singleton in Hn. lia.
    + intros n Hn. rewrite Hperm. by apply Hall.
Qed.

Lemma channel_ok_subscribe hi p c :
  (0 ≤ hi)%Z → pending_ok hi p → channel_ok hi p c →
  channel_ok hi p (subscribe hi c).2.
Proof.
  intros ? [Hpnd Hple] (Hnd & Hnext & Hsubs). unfold subscribe. cbn.
  assert (next_queue c ∉ subscribers c) as Hfresh.
  { intros (q & ?%Hnext & _)%Hsubs. lia. }
  split_and!; cbn.
  - apply NoDup_app. split_and!; [done| |apply NoDup_singleton]. set_solver.
  - intros i q. destruct (decide (i = next_queue c)) as [->|]; [lia|].
    rewrite lookup_insert_ne by done. intros ?%Hnext. lia.
  - intros i. rewrite elem_of_app, list_elem_of_singleton.
    intros [Hi| ->].
    + rewrite lookup_insert_ne by (intros <-; done). by apply Hsubs.
    + rewrite lookup_insert_eq. eexists. split_and!; [done..|].
      split_and!; cbn; [lia..|done| |]; [intros n; cbn; by intros ?%not_elem_of_nil|lia].
Qed.

Lemma channel_ok_unsubscribe hi p i c :
  channel_ok hi p c → channel_ok hi p (unsubscribe i c).
Proof.
  intros (Hnd & Hnext & Hsubs). split_and!; cbn; eauto with pernix.
  intros j Hj%remove_first_subset. by apply Hsubs.
Qed.

Lemma channel_ok_consume hi p i c :
  channel_ok hi p c → channel_ok hi p (consume i c).
Proof.
  intros (Hnd & Hnext & Hsubs). split_and!; cbn; [done| |].
  - intros j q. destruct (decide (j = i)) as [->|].
    + rewrite lookup_alter_eq. intros (? & ? & _)%fmap_Some. eauto.
    + rewrite lookup_alter_ne by done. eauto.
  - intros j (q & Hq & Hd & Hok)%Hsubs. destruct (decide (j = i)) as [->|].
    + rewrite lookup_alter_eq, Hq. cbn. eexists; split; [done|].
      destruct (q_items q) as [|e l] eqn:Hitems; [done|].
      split; [done|]. destruct Hok as (Hlen & ? & Hnodup & Hle & Hall).
      assert (received (q <| q_items := l |> <| q_taken ::= (λ t, t ++ [e]) |>) = received q) as Hr.
      { unfold received. cbn. rewrite Hitems. by rewrite <-app_assoc. }
      unfold queue_ok. rewrite Hr. cbn. rewrite Hitems in Hlen. cbn in Hlen.
      split_and!; [lia|done..].
    + rewrite lookup_alter_ne by done. eauto.
Qed.

Lemma events_inv_step s s' : events_inv s → step s s' → events_inv s'.
Proof.
  intros (Hbuf & Hpend & Hchan) Hstep. destruct Hstep as
    [d sid b ts now s|k s|s|s|i s|i s].
  - (* emit *)
    pose proof (stamp_buffer sid b ts now s Hbuf) as Hbuf'.
    set (e := (stamp sid b ts now s).1).
    assert (He : ev_seq e = (event_seq s + 1)%Z) by done.
    pose proof (channel_ok_stamp _ _ _ e He Hpend Hchan) as Hchan'.
    pose proof (pending_ok_stamp _ _ e He Hpend) as Hpend'.
    unfold emit_event. cbn. destruct d; split_and!; cbn; try done.
    + split; [apply Hpend|]. intros n ?%Hpend. lia.
    + apply channel_ok_deliver; [cbn; lia|].
      eapply channel_ok_perm, Hchan'. apply Permutation_sym, Permutation_cons_append.
    + eapply pending_ok_perm, Hpend'. unfold pending; cbn.
      rewrite <-!app_assoc. apply Permutation_app_head, Permutation_app_comm.
    + eapply channel_ok_perm, Hchan'. unfold pending; cbn.
      rewrite <-!app_assoc. apply Permutation_app_head, Permutation_app_comm.
  - (* call_soon *)
    unfold call_soon. destruct (inflight s !! k) as [e|] eqn:Hk; [|done].
    assert (Hperm : pending s ≡ₚ
      pending (s <| inflight ::= delete k |> <| callbacks ::= λ l, l ++ [e] |>)).
    { unfold pending. cbn. rewrite (delete_Permutation _ _ _ Hk) at 1. cbn.
      by rewrite app_assoc, <-Permutation_cons_append. }
    split_and!; [done| |].
    + eapply pending_ok_perm; [exact Hperm|done].
    + eapply channel_ok_perm; [exact Hperm|done].
  - (* run_callback *)
    unfold run_callback. destruct (callbacks s) as [|e l] eqn:Hcb; [done|].
    assert (Hperm : pending s ≡ₚ e :: inflight s ++ l).
    { unfold pending. rewrite Hcb. by rewrite Permutation_middle. }
    assert (He : (ev_seq e ≤ event_seq s)%Z).
    { apply Hpend. unfold seqs. rewrite Hperm. cbn. by left. }
    split_and!; [done| |].
    + apply (pending_ok_perm _ _ _ Hperm) in Hpend as [[_ Hnd]%NoDup_cons Hle].
      split; [done|]. intros n Hn. apply Hle. by right.
    + cbn. apply channel_ok_deliver; [done|]. by eapply channel_ok_perm.
  - split_and!; [done..|]. apply channel_ok_subscribe; [apply Hbuf|done..].
  - split_and!; [done..|]. by apply channel_ok_unsubscribe.
  - split_and!; [done..|]. by apply channel_ok_consume.
Qed.

Definition initial s : Prop := s = new_session_events.

Lemma events_inv_reachable s : reachable initial step s → events_inv s.
Proof.
  apply stable_invariant; [|apply events_inv_step]. intros ? ->. split_and!.
  - split_and!; cbn; [lia..|]. by intros k e.
  - split; [constructor|]. cbn. by intros n ?%not_elem_of_nil.
  - split_and!; cbn; [constructor|done|]. by intros i ?%not_elem_of_nil.
Qed.
End invariant.

(** ** Properties *)

(** C27: No attached subscriber misses or repeats an event.  Whatever the
    interleaving of emitting threads, loop callbacks, consumers and
    (un)subscriptions, a queue still on the subscriber list is not flagged as
    dropped, holds at most 500 events, and the events it has received,
    together with the ones still owed to the loop, carry every number issued
    since it subscribed, none of them twice. *)
Theorem subscriber_misses_nothing {B} (s : SessionEvents B) (i : nat) (q : Queue B) :
  reachable initial step s →
  i ∈ subscribers (channel s) → queues (channel s) !! i = Some q →
  queue_was_dropped q = false ∧ length (q_items q) ≤ QUEUE_MAXSIZE ∧
  NoDup (seqs (received q ++ pending s)) ∧
  ∀ n, (q_since q < n ≤ event_seq s)%Z → n ∈ seqs (received q ++ pending s).
Proof.
  intros (_ & _ & (_ & _ & Hsubs))%events_inv_reachable Hi Hq.
  destruct (Hsubs i Hi) as (q' & Hq' & Hd & Hlen & _ & Hnd & _ & Hall).
  rewrite Hq in Hq'. injection Hq' as <-. done.
Qed.

(** A thread stamps one event, the loop overtakes it with a second one. *)
Definition overtaking_run : SessionEvents nat :=
  let s := new_session_events in
  let s := s <| channel := (subscribe (event_seq s) (channel s)).2 |> in
  let s := emit_event Marshalled "s" 10 None 0 s in
  let s := emit_event Inline "s" 20 None 0 s in
  run_callback (call_soon 0 s).

Lemma overtaking_run_reachable : reachable initial step overtaking_run.
Proof.
  eexists. split; [reflexivity|]. unfold overtaking_run.
  do 5 (eapply rtc_r; [|constructor]). apply rtc_refl.
Qed.

Lemma subscriber_misses_nothing_witness :
  ∃ q, queues (channel overtaking_run) !! 0 = Some q ∧
    seqs (q_items q) = [2; 1]%Z ∧ NoDup (seqs (received q ++ pending overtaking_run)).
Proof.
  eexists. split; [reflexivity|]. split; [reflexivity|].
  eapply (subscriber_misses_nothing overtaking_run 0);
    [apply overtaking_run_reachable|left|reflexivity].
Defined.

(** The replay buffer of a session holds at most 2000 events, numbered
    consecutively and ending at the last number issued: a client that
    reconnects with its last number can tell exactly what it is missing. *)
Theorem replay_buffer_consecutive {B} (s : SessionEvents B) :
  reachable initial step s →
  length (events s) ≤ EVENTS_MAXLEN ∧
  ∀ k e, events s !! k = Some e →
    ev_seq e = (event_seq s - Z.of_nat (length (events s)) + 1 + Z.of_nat k)%Z.
Proof. by intros ((? & _ & ?) & _)%events_inv_reachable. Qed.

Lemma replay_buffer_consecutive_witness :
  seqs (events overtaking_run) = [1; 2]%Z ∧ length (events overtaking_run) ≤ EVENTS_MAXLEN.
Proof.
  split; [reflexivity|].
  eapply (replay_buffer_consecutive overtaking_run), overtaking_run_reachable.
Defined.

(** A slow consumer is detached and told, everyone else is served.  When
    the loop delivers an event, each attached queue with room gets it as its
    last item and stays attached; each full one is flagged, keeps its items
    and leaves the list; queues not attached do not change. *)
Theorem slow_consumer_detached {B} (s : SessionEvents B) (e : Event B) (i : nat) (q : Queue B) :
  reachable initial step s →
  queues (channel s) !! i = Some q →
  let c' := deliver e (channel s) in
  (i ∈ subscribers c' ↔
    i ∈ subscribers (channel s) ∧ length (q_items q) < QUEUE_MAXSIZE) ∧
  queues c' !! i = Some
    (if decide (i ∈ subscribers (channel s)) then
       if decide (QUEUE_MAXSIZE ≤ length (q_items q)) then q <| q_dropped := true |>
       else q <| q_items ::= (λ l, l ++ [e]) |>
     else q).
Proof.
  intros (_ & _ & (Hnd & _))%events_inv_reachable Hq c'.
  destruct (deliver_spec e (channel s) Hnd) as (_ & _ & Hs & Hqs).
  split.
  - subst c'. rewrite Hs. split; intros [Hi Hroom]; (split; [done|]).
    + destruct (Hroom q Hq) as [q' Hput]. unfold put_nowait in Hput.
      case_decide; [done|lia].
    + intros q0 ?. simplify_eq. unfold put_nowait. rewrite decide_False by lia. eauto.
  - subst c'. rewrite Hqs, Hq. unfold after_delivery, put_nowait.
    destruct (decide (i ∈ _)); [|done]. cbn. by destruct (decide (_ ≤ _)).
Qed.

Lemma slow_consumer_detached_witness :
  ∃ q, queues (channel overtaking_run) !! 0 = Some q ∧
    0 ∈ subscribers (deliver (mkEvent 7 3 None 0) (channel overtaking_run)).
Proof.
  eexists. split; [reflexivity|].
  eapply (slow_consumer_detached overtaking_run _ 0);
    [apply overtaking_run_reachable|reflexivity|].
  split; [left|]. vm_compute. lia.
Defined.
