(* ===== verification/Session.v ===== *)
(** * The session object

    The data of [sessions/state.py]: [PendingMessage], [TurnState] and
    [AgentSession] with its small operations (activity, background
    references, tracked subprocesses), and the two enumerations of
    [sessions/state_v2.py] the object is typed with.

    Locks, [_seen_memory_lock], [last_scout_report] and
    [_deferred_grade_lock] carry no value an operation here reads and have no
    field; [TurnState.tool_summary], [tool_summary_attempts] and
    [gate_history] belong to the agent loop and to the gates ([Gates.v]
    threads the gate history itself).  Times are integers: nanoseconds for
    [time.time()] and [time.monotonic()]. *)
From S2P Require Import Prelude Events.
From stdpp Require Import pretty.

Inductive SessionStateV2 :=
| IDLE_READY | SCOUTING | PROCESSING | COMPACTING | PAUSE_REQUESTED
| PAUSED | CANCELLING | FINALIZING | AWAITING_USER | AWAITING_WORKERS.

#[export] Instance SessionStateV2_eq_dec : EqDecision SessionStateV2.
Proof. solve_decision. Defined.
#[export] Instance SessionStateV2_countable : Countable SessionStateV2.
Proof.
  refine (inj_countable'
    (λ s, match s with
      | IDLE_READY => 0 | SCOUTING => 1 | PROCESSING => 2 | COMPACTING => 3
      | PAUSE_REQUESTED => 4 | PAUSED => 5 | CANCELLING => 6 | FINALIZING => 7
      | AWAITING_USER => 8 | AWAITING_WORKERS => 9 end)
    (λ n, match n with
      | 0 => IDLE_READY | 1 => SCOUTING | 2 => PROCESSING | 3 => COMPACTING
      | 4 => PAUSE_REQUESTED | 5 => PAUSED | 6 => CANCELLING | 7 => FINALIZING
      | 8 => AWAITING_USER | _ => AWAITING_WORKERS end) _).
  by intros [].
Defined.

Definition all_states : list SessionStateV2 :=
  [IDLE_READY; SCOUTING; PROCESSING; COMPACTING; PAUSE_REQUESTED;
   PAUSED; CANCELLING; FINALIZING; AWAITING_USER; AWAITING_WORKERS].

Lemma elem_of_all_states s : s ∈ all_states.
Proof. by destruct s; vm_compute; repeat constructor. Qed.

(** [SessionStateV2(...).value] *)
Definition state_value (s : SessionStateV2) : string :=
  match s with
  | IDLE_READY => "idle_ready" | SCOUTING => "scouting" | PROCESSING => "processing"
  | COMPACTING => "compacting" | PAUSE_REQUESTED => "pause_requested"
  | PAUSED => "paused" | CANCELLING => "cancelling" | FINALIZING => "finalizing"
  | AWAITING_USER => "awaiting_user" | AWAITING_WORKERS => "awaiting_workers"
  end.

(** [SessionStateV2(value)]: [None] is [ValueError]. *)
Definition state_of_value (v : string) : option SessionStateV2 :=
  list_find (λ s, state_value s = v) all_states ≫= λ '(_, s), Some s.

Inductive TerminationReason :=
| COMPLETE | ROUND_CEILING | STUCK_LOOP | COMPACTION_FAILED | CANCELLED
| ERROR | SCOUT_ERROR | BUDGET_EXHAUSTED | INTERRUPTED.

Definition termination_value (t : TerminationReason) : string :=
  match t with
  | COMPLETE => "complete" | ROUND_CEILING => "round_ceiling"
  | STUCK_LOOP => "stuck_loop" | COMPACTION_FAILED => "compaction_failed"
  | CANCELLED => "cancelled" | ERROR => "error" | SCOUT_ERROR => "scout_error"
  | BUDGET_EXHAUSTED => "budget_exhausted" | INTERRUPTED => "interrupted"
  end.

(** The dictionary [capabilities()] returns. *)
Record Capabilities := mkCapabilities {
  can_pause : bool; can_resume : bool; can_steer : bool; can_cancel : bool
}.

(** Session events: the state machine's own, and everybody else's by type. *)
Inductive SessionEvent :=
| StateChanged (from to : SessionStateV2) (reason : string)
    (turn_id retry_index compaction_count : Z)
    (termination_reason : option TerminationReason) (parent_turn_id : option Z)
    (capabilities : Capabilities)
| OtherEvent (type : string).

Record PendingMessage := mkPendingMessage {
  message : string;
  system_prompt : option string;
  pre_saved : bool;
  queued_at : Z;
  msg_id : option Z;
  is_goal_continuation : bool;
  continuation_id : option Z
}.
#[export] Instance PendingMessage_settable : Settable PendingMessage :=
  λ m, mkPendingMessage (message m) (system_prompt m) (pre_saved m) (queued_at m)
         (msg_id m) (is_goal_continuation m) (continuation_id m).

Record TurnState := mkTurnState {
  reflect_count : Z;
  reflect_lessons : string;
  reflect_retry_requested : bool;
  retry_excluded_tools : gset string;
  eval_count : Z;
  eval_retry_requested : bool;
  eval_feedback : string;
  user_row_version : Z
}.
#[export] Instance TurnState_settable : Settable TurnState :=
  λ t, mkTurnState (reflect_count t) (reflect_lessons t) (reflect_retry_requested t)
         (retry_excluded_tools t) (eval_count t) (eval_retry_requested t)
         (eval_feedback t) (user_row_version t).

(** [TurnState()], the value installed at every turn boundary. *)
Definition new_turn_state : TurnState := mkTurnState 0 "" false ∅ 0 false "" 0.

Record AgentSession := mkAgentSession {
  session_id : string;
  task : option bool;                 (** [None], or [Some (task.done())] *)
  sess_events : SessionEvents SessionEvent;
  error : option string;
  termination_reason : option string;
  session_type : string;
  parent_session_id : option string;
  worker_ids : list string;
  workspace_override : option string;
  space_id : option string;
  workspace_home : option string;
  active_goal_id : option Z;
  cancel_requested : bool;
  pending_messages : list PendingMessage;
  last_user_msg_id : option Z;
  last_user_msg_at : Z;
  swept_orphan_ids : gset Z;
  current_turn_user_msg_id : option Z;
  pause_event : bool;                 (** [pause_event.is_set()] *)
  model_override : option string;
  tool_allowlist : option (gset string);
  context_budget_override : option Z;
  model_before_agent_switch : option string;
  budget_before_agent_switch : option Z;
  turn : TurnState;
  goal_continuation_active : bool;
  watched_worker_ids : gset string;
  active_processes : list (string * (string * nat)); (** a dict, in insertion order *)
  await_stalled_logged_at : Z;
  deferred_reflect_seq : Z;
  last_activity_time : Z;
  background_refs : Z;
  approved_dangerous_tools : gmap string (string * bool);
  seen_memory_keys : gset string;
  state_v2 : option SessionStateV2;
  turn_id : Z;
  retry_index : Z;
  compaction_count : Z;
  state_entered_ms : option Z;
  synthetic_turn_ids : gset Z
}.
#[export] Instance AgentSession_settable : Settable AgentSession :=
  λ s, mkAgentSession (session_id s) (task s) (sess_events s) (error s)
         (termination_reason s) (session_type s) (parent_session_id s) (worker_ids s)
         (workspace_override s) (space_id s) (workspace_home s) (active_goal_id s)
         (cancel_requested s) (pending_messages s) (last_user_msg_id s)
         (last_user_msg_at s) (swept_orphan_ids s) (current_turn_user_msg_id s)
         (pause_event s) (model_override s) (tool_allowlist s)
         (context_budget_override s) (model_before_agent_switch s)
         (budget_before_agent_switch s) (turn s) (goal_continuation_active s)
         (watched_worker_ids s) (active_processes s) (await_stalled_logged_at s)
         (deferred_reflect_seq s) (last_activity_time s) (background_refs s)
         (approved_dangerous_tools s) (seen_memory_keys s) (state_v2 s) (turn_id s)
         (retry_index s) (compaction_count s) (state_entered_ms s)
         (synthetic_turn_ids s).

(** [AgentSession(session_id)], created at time [now]. *)
Definition new_session (sid : string) (now : Z) : AgentSession :=
  mkAgentSession sid None new_session_events None None "normal" None [] None None None
    None false [] None 0 ∅ None true None None None None None new_turn_state false ∅ []
    0 0 now 0 ∅ ∅ None 0 0 0 None ∅.

Definition touch (now : Z) (s : AgentSession) : AgentSession :=
  s <| last_activity_time := now |>.

Definition add_background_ref (s : AgentSession) : AgentSession :=
  s <| background_refs ::= λ n, (n + 1)%Z |>.
Definition remove_background_ref (s : AgentSession) : AgentSession :=
  s <| background_refs ::= λ n, Z.max 0 (n - 1) |>.
Definition has_background_tasks (s : AgentSession) : bool := (0 <? background_refs s)%Z.

Definition session_emit (d : dispatch) (e : SessionEvent) (now : Z) (s : AgentSession)
    : AgentSession :=
  s <| sess_events ::= emit_event d (session_id s) e None now |>.

(** ** Tracked subprocesses

    [counter] is the module's [_process_handle_counter]; a handle is
    [f"{owner}#{n}"].  A Python dict keeps insertion order and an assignment
    to an existing key keeps its place. *)
Fixpoint dict_set {V} (k : string) (v : V) (d : list (string * V)) : list (string * V) :=
  match d with
  | [] => [(k, v)]
  | (k', v') :: d => if decide (k' = k) then (k, v) :: d else (k', v') :: dict_set k v d
  end.
Definition dict_pop {V} (k : string) (d : list (string * V)) : list (string * V) :=
  filter (λ kv, kv.1 ≠ k) d.

Definition process_handle (owner : string) (n : N) : string :=
  owner +:+ "#" +:+ pretty n.

Definition register_process (counter : N) (owner : string) (proc : nat) (s : AgentSession)
    : string * N * AgentSession :=
  let handle := process_handle owner counter in
  (handle, (counter + 1)%N, s <| active_processes ::= dict_set handle (owner, proc) |>).

Definition release_process (handle : string) (s : AgentSession) : AgentSession :=
  s <| active_processes ::= dict_pop handle |>.

Definition processes_for (owner : string) (s : AgentSession) : list nat :=
  (λ e, e.2.2) <$> filter (λ e, e.2.1 = owner) (active_processes s).

Definition all_processes (s : AgentSession) : list nat :=
  (λ e, e.2.2) <$> active_processes s.

(** ** The process table as an abstract registry

    Entries are [(n, (owner, proc))] in registration order. *)
Inductive proc_op :=
| Register (owner : string) (proc : nat)
| Release (owner : string) (n : N).

Definition run_proc_op (st : N * AgentSession) (op : proc_op) : N * AgentSession :=
  match op with
  | Register owner proc =>
      let '(_, counter, s) := register_process st.1 owner proc st.2 in (counter, s)
  | Release owner n => (st.1, release_process (process_handle owner n) st.2)
  end.

Definition abstract_proc_op (st : N * list (N * (string * nat))) (op : proc_op)
    : N * list (N * (string * nat)) :=
  match op with
  | Register owner proc => ((st.1 + 1)%N, st.2 ++ [(st.1, (owner, proc))])
  | Release owner n => (st.1, filter (λ e, (e.1, e.2.1) ≠ (n, owner)) st.2)
  end.

Lemma split_last_inj {A} (x : A) (l1 l2 d1 d2 : list A) :
  x ∉ d1 → x ∉ d2 → l1 ++ x :: d1 = l2 ++ x :: d2 → l1 = l2 ∧ d1 = d2.
Proof.
  intros H1 H2. revert l2. induction l1 as [|a l1 IH]; intros [|b l2]; cbn; intros Heq.
  - by simplify_eq.
  - injection Heq as -> ->. exfalso. apply H1. set_solver.
  - injection Heq as -> <-. exfalso. apply H2. set_solver.
  - injection Heq as -> Heq. apply IH in Heq as [-> ->]. done.
Qed.

Abbreviation chars := String.list_ascii_of_string.

Lemma chars_app s1 s2 : chars (s1 +:+ s2) = chars s1 ++ chars s2.
Proof. induction s1 as [|c s1 IH]; [done|]. cbn in *. by rewrite <-IH. Qed.

Lemma chars_inj s1 s2 : chars s1 = chars s2 → s1 = s2.
Proof.
  intros Heq%(f_equal String.string_of_list_ascii).
  by rewrite !String.string_of_list_ascii_of_string in Heq.
Qed.

Definition hash : Ascii.ascii := Ascii.Ascii true true false false false true false false.

(** A decimal numeral has no hash sign. *)
Lemma pretty_N_go_no_hash x s :
  hash ∉ chars s → hash ∉ chars (pretty_N_go x s).
Proof.
  revert s. induction (N.lt_wf_0 x) as [x _ IH]; intros s ?.
  destruct (decide (0 < x)%N).
  - rewrite pretty_N_go_step by done. apply IH; [by apply N.div_lt|].
    cbn. rewrite not_elem_of_cons. split; [|done].
    unfold pretty_N_char. by repeat case_match.
  - assert (x = 0)%N as -> by lia. by rewrite pretty_N_go_0.
Qed.

Lemma pretty_N_no_hash (n : N) : hash ∉ chars (pretty n).
Proof.
  unfold pretty, pretty_N. case_decide.
  - cbn. rewrite list_elem_of_singleton. done.
  - apply pretty_N_go_no_hash. cbn. apply not_elem_of_nil.
Qed.

Lemma process_handle_inj o n o' n' :
  process_handle o n = process_handle o' n' → (n, o) = (n', o').
Proof.
  intros Heq%(f_equal chars). unfold process_handle in Heq.
  rewrite !chars_app in Heq. cbn in Heq.
  apply split_last_inj in Heq as [->%chars_inj Hn%chars_inj]; auto using pretty_N_no_hash.
  f_equal. by apply (inj pretty).
Qed.

Definition concrete_entry (e : N * (string * nat)) : string * (string * nat) :=
  (process_handle e.2.1 e.1, e.2).

Lemma dict_set_fresh {V} k (v : V) d : k ∉ d.*1 → dict_set k v d = d ++ [(k, v)].
Proof.
  induction d as [|[k' v'] d IH]; cbn; [done|].
  rewrite not_elem_of_cons. intros [? ?]. rewrite decide_False by done. by rewrite IH.
Qed.

(** The invariant of the table: it is the registry, and every number in it
    was issued before [counter]. *)
Definition table_ok (st : N * AgentSession) (ast : N * list (N * (string * nat))) : Prop :=
  st.1 = ast.1 ∧ active_processes st.2 = concrete_entry <$> ast.2 ∧
  Forall (λ e, e.1 < ast.1)%N ast.2.

Lemma table_ok_step st ast op :
  table_ok st ast → table_ok (run_proc_op st op) (abstract_proc_op ast op).
Proof.
  destruct st as [c s], ast as [c' l]. intros (Hc & Hact & Hall). cbn in *. subst c'.
  destruct op as [owner proc|owner n]; split_and!; cbn; [done| | |done| |].
  - rewrite Hact, dict_set_fresh, fmap_app; [done|].
    rewrite <-list_fmap_compose. intros ([m [o p]] & Heq & Hin)%list_elem_of_fmap.
    cbn in Heq. apply process_handle_inj in Heq as [= -> ->].
    rewrite Forall_forall in Hall. specialize (Hall _ Hin). cbn in Hall. lia.
  - apply Forall_app. split; [|by constructor; [cbn; lia|]].
    eapply Forall_impl; [done|]. intros e ?. cbn in *. lia.
  - unfold dict_pop. rewrite Hact. clear.
    induction l as [|[m [o p]] l IH]; [done|]. cbn [fmap list_fmap].
    rewrite !filter_cons. cbn. rewrite IH.
    destruct (decide (process_handle o m = process_handle owner n)) as [Heq|Hne].
    + pose proof (process_handle_inj _ _ _ _ Heq) as [= -> ->].
      rewrite !decide_False by naive_solver. done.
    + rewrite !decide_True; [done| |done]. congruence.
  - rewrite Forall_forall in *. intros e [_ ?]%list_elem_of_filter. auto.
Qed.

Lemma table_ok_run ops st ast :
  table_ok st ast →
  table_ok (foldl run_proc_op st ops) (foldl abstract_proc_op ast ops).
Proof. revert st ast. induction ops; cbn; eauto using table_ok_step. Qed.

(** whatever subprocesses are registered and released, in any order and
    for any owners, the session's dict of string handles is the registry: a
    worker's kill list is its own unreleased processes, and the session
    teardown sees every unreleased process. *)
Theorem process_table_is_registry (sid : string) (now : Z) (ops : list proc_op) :
  let s := (foldl run_proc_op (0%N, new_session sid now) ops).2 in
  let reg := (foldl abstract_proc_op (0%N, []) ops).2 in
  (∀ owner, processes_for owner s =
            (λ e, e.2.2) <$> filter (λ e, e.2.1 = owner) reg) ∧
  all_processes s = (λ e, e.2.2) <$> reg.
Proof.
  intros s reg.
  destruct (table_ok_run ops (0%N, new_session sid now) (0%N, [])) as (_ & Hact & _).
  { split_and!; [done|done|constructor]. }
  fold s in Hact. fold reg in Hact. split.
  - intros owner. unfold processes_for. rewrite Hact. clearbody reg. clear.
    induction reg as [|e reg IH]; [done|]. cbn [fmap list_fmap].
    rewrite !filter_cons. cbn. case_decide; cbn; [f_equal|]; done.
  - unfold all_processes. rewrite Hact, <-list_fmap_compose. done.
Qed.
