(* ===== verification/StateMachine.v ===== *)
(** * The session state machine

    [sessions/state_v2.py] ([TRANSITIONS], [transition] and the accessors),
    the rows of [db/models.py] it writes ([add_state_log]), and the callers
    that decide which edge to take: [SessionManager.control_session], the
    turn driver [_run_agent_safe] / [_finalize_turn] of
    [sessions/manager.py], the pause checkpoint and the compaction
    controller of [core/agent.py].

    A [World] is one session object together with its durable rows.  Every
    call takes an [Env] with what the call reads from outside: the clocks,
    whether SQLite accepts the write, and the open questions.  A call that
    raises in Python returns [Raise] with the world it leaves behind. *)
From S2P Require Import Prelude Events Session.

(** ** The transition graph *)
Definition TRANSITIONS : list ((SessionStateV2 * string) * SessionStateV2) := [
  ((IDLE_READY, "prompt-arrived"), SCOUTING);
  ((SCOUTING, "scout-done"), PROCESSING);
  ((SCOUTING, "scout-error"), FINALIZING);
  ((SCOUTING, "cancel-requested"), CANCELLING);
  ((PROCESSING, "compact-proactive"), COMPACTING);
  ((PROCESSING, "compact-critical"), COMPACTING);
  ((PROCESSING, "compact-overflow"), COMPACTING);
  ((COMPACTING, "compact-done"), PROCESSING);
  ((COMPACTING, "compact-done-paused"), PAUSE_REQUESTED);
  ((PAUSE_REQUESTED, "compact-proactive"), COMPACTING);
  ((PAUSE_REQUESTED, "compact-critical"), COMPACTING);
  ((PAUSE_REQUESTED, "compact-overflow"), COMPACTING);
  ((COMPACTING, "compaction-failed"), FINALIZING);
  ((PROCESSING, "compaction-failed"), FINALIZING);
  ((PROCESSING, "ask-user"), AWAITING_USER);
  ((PROCESSING, "pause-requested"), PAUSE_REQUESTED);
  ((PROCESSING, "cancel-requested"), CANCELLING);
  ((PROCESSING, "loop-complete"), FINALIZING);
  ((PROCESSING, "round-ceiling"), FINALIZING);
  ((PROCESSING, "stuck-loop"), FINALIZING);
  ((PROCESSING, "agent-error"), FINALIZING);
  ((PAUSE_REQUESTED, "pause-observed"), PAUSED);
  ((PAUSE_REQUESTED, "resume"), PROCESSING);
  ((PAUSE_REQUESTED, "loop-complete"), FINALIZING);
  ((PAUSE_REQUESTED, "round-ceiling"), FINALIZING);
  ((PAUSE_REQUESTED, "stuck-loop"), FINALIZING);
  ((PAUSE_REQUESTED, "agent-error"), FINALIZING);
  ((PAUSE_REQUESTED, "ask-user"), AWAITING_USER);
  ((PAUSE_REQUESTED, "workers-dispatched"), AWAITING_WORKERS);
  ((PAUSE_REQUESTED, "cancel-during-pause"), CANCELLING);
  ((PAUSE_REQUESTED, "compaction-failed"), FINALIZING);
  ((PAUSED, "resume"), PROCESSING);
  ((PAUSED, "cancel-during-pause"), CANCELLING);
  ((CANCELLING, "cancel-complete"), IDLE_READY);
  ((CANCELLING, "cancel-timeout"), IDLE_READY);
  ((FINALIZING, "cancel-requested"), CANCELLING);
  ((FINALIZING, "reflect-retry"), SCOUTING);
  ((FINALIZING, "eval-retry"), SCOUTING);
  ((FINALIZING, "turn-complete"), IDLE_READY);
  ((FINALIZING, "finalize-error"), IDLE_READY);
  ((AWAITING_USER, "answer-received"), SCOUTING);
  ((AWAITING_USER, "cancel-requested"), CANCELLING);
  ((AWAITING_USER, "question-dismissed"), IDLE_READY);
  ((PROCESSING, "workers-dispatched"), AWAITING_WORKERS);
  ((AWAITING_WORKERS, "workers-complete"), SCOUTING);
  ((AWAITING_WORKERS, "worker-timeout"), IDLE_READY);
  ((AWAITING_WORKERS, "cancel-requested"), CANCELLING);
  ((AWAITING_WORKERS, "reaper-unstick"), IDLE_READY);
  ((COMPACTING, "cancel-requested"), CANCELLING);
  ((COMPACTING, "agent-error"), FINALIZING);
  ((PROCESSING, "reaper-unstick"), IDLE_READY);
  ((SCOUTING, "reaper-unstick"), IDLE_READY);
  ((PAUSE_REQUESTED, "reaper-unstick"), IDLE_READY);
  ((PAUSED, "reaper-unstick"), IDLE_READY);
  ((AWAITING_USER, "reaper-unstick"), IDLE_READY);
  ((FINALIZING, "reaper-unstick"), IDLE_READY);
  ((COMPACTING, "reaper-unstick"), IDLE_READY);
  ((CANCELLING, "reaper-unstick"), IDLE_READY);
  ((SCOUTING, "cancel-timeout"), IDLE_READY);
  ((PROCESSING, "cancel-timeout"), IDLE_READY);
  ((COMPACTING, "cancel-timeout"), IDLE_READY);
  ((PAUSE_REQUESTED, "cancel-timeout"), IDLE_READY);
  ((PAUSED, "cancel-timeout"), IDLE_READY);
  ((AWAITING_USER, "cancel-timeout"), IDLE_READY);
  ((AWAITING_WORKERS, "cancel-timeout"), IDLE_READY);
  ((FINALIZING, "cancel-timeout"), IDLE_READY)].

(** [TRANSITIONS.get((current, reason))] *)
Definition edge (current : SessionStateV2) (reason : string) : option SessionStateV2 :=
  snd <$> (snd <$> list_find (λ kv, kv.1 = (current, reason)) TRANSITIONS).

Definition NEW_TURN_REASONS : list string :=
  ["prompt-arrived"; "answer-received"; "workers-complete"].
Definition RETRY_REASONS : list string := ["reflect-retry"; "eval-retry"].
Definition COMPACT_ENTER_REASONS : list string :=
  ["compact-proactive"; "compact-critical"; "compact-overflow"].

(** [COMPAT_STATUS] and [compat_status], of a state and of a string. *)
Definition COMPAT_STATUS (s : SessionStateV2) : string :=
  match s with
  | IDLE_READY | AWAITING_USER | AWAITING_WORKERS => "idle"
  | SCOUTING => "scouting"
  | PROCESSING | COMPACTING | PAUSE_REQUESTED | PAUSED | CANCELLING | FINALIZING =>
      "processing"
  end.
Definition compat_status (to : string) : string :=
  match state_of_value to with Some s => COMPAT_STATUS s | None => "unknown" end.

(** ** The world of one session *)
Record LogRow := mkLogRow {
  row_turn_id : Z;
  row_parent_turn_id : option Z;
  row_retry_index : Z;
  row_compaction_count : Z;
  row_from : string;
  row_to : string;
  row_reason : string;
  row_termination : option string;
  row_reflect_count : Z;
  row_eval_count : Z;
  row_timestamp_ms : Z;
  row_elapsed_ms : option Z
}.

Record Env := mkEnv {
  env_mono_ns : Z;               (** [time.monotonic_ns()] *)
  env_wall_ns : Z;               (** [time.time()], in nanoseconds *)
  env_db_ok : bool;              (** the transaction commits *)
  env_questions : option nat     (** open question rows; [None]: the query raised *)
}.

Record World := mkWorld {
  w_session : AgentSession;
  w_state_v2 : option string;    (** the [state_v2] column of the session's row *)
  w_log : list LogRow;           (** [session_state_log], oldest first *)
  w_rejected : gmap string Z;    (** [_REJECTED_EDGES] *)
  w_warnings : list string       (** invariant warnings logged *)
}.
#[export] Instance World_settable : Settable World :=
  λ w, mkWorld (w_session w) (w_state_v2 w) (w_log w) (w_rejected w) (w_warnings w).

Inductive DbError := OperationalError.

Definition current_state (s : AgentSession) : SessionStateV2 :=
  default IDLE_READY (state_v2 s).

(** [session.task is not None and not session.task.done()] *)
Definition task_live (s : AgentSession) : bool :=
  match task s with Some done => negb done | None => false end.

Definition capabilities (s : AgentSession) : Capabilities :=
  let current := current_state s in
  let live := task_live s in
  mkCapabilities
    (live && bool_decide (current = PROCESSING) && negb (cancel_requested s))
    (live && bool_decide (current ∈ [PAUSE_REQUESTED; PAUSED]) && negb (cancel_requested s))
    (negb (cancel_requested s) &&
      (bool_decide (current = AWAITING_WORKERS) ||
       (live && bool_decide
          (current ∈ [SCOUTING; PROCESSING; COMPACTING; PAUSE_REQUESTED; PAUSED]))))
    (live || bool_decide (current ∈ [AWAITING_USER; AWAITING_WORKERS])).

Definition record_rejected_transition (from : SessionStateV2) (reason : string)
    (to : SessionStateV2) (stats : gmap string Z) : gmap string Z :=
  let key := state_value from +:+ "--(" +:+ reason +:+ ")-->" +:+ state_value to in
  <[key := (default 0 (stats !! key) + 1)%Z]> stats.

(** The ["total"] of [rejected_transition_stats()]. *)
Definition rejected_total (stats : gmap string Z) : Z :=
  sumZ (map_to_list stats).*2.

(** One transaction: the log row and, with [persist_state], the column. *)
Definition add_state_log (row : LogRow) (persist_state : bool) (w : World) : World :=
  let w := w <| w_log ::= λ l, l ++ [row] |> in
  if persist_state then w <| w_state_v2 := Some (row_to row) |> else w.

Definition check_invariants (env : Env) (s : AgentSession) (to : SessionStateV2) : list string :=
  let warn (b : bool) msg := if b then [msg] else [] in
  match to with
  | IDLE_READY =>
      warn (negb (pause_event s)) "IDLE_READY expects pause_event.is_set()" ++
      warn (cancel_requested s) "IDLE_READY expects cancel_requested=False"
  | PROCESSING =>
      warn (negb (pause_event s)) "PROCESSING expects pause_event.is_set()" ++
      warn (negb (task_live s)) "PROCESSING expects a running task"
  | PAUSE_REQUESTED =>
      warn (pause_event s) "PAUSE_REQUESTED expects pause_event.is_set()==False"
  | PAUSED => warn (pause_event s) "PAUSED expects pause_event.is_set()==False"
  | CANCELLING =>
      warn (negb (pause_event s))
        "CANCELLING expects pause_event.is_set() so cooperative cancel can wake"
  | FINALIZING =>
      warn (bool_decide (termination_reason s = None))
        "FINALIZING expects termination_reason to be set"
  | AWAITING_USER =>
      warn (bool_decide (env_questions env = Some 0))
        "AWAITING_USER expects at least one open question row"
  | AWAITING_WORKERS =>
      warn (bool_decide (watched_worker_ids s = ∅))
        "AWAITING_WORKERS expects _watched_worker_ids to be non-empty"
  | SCOUTING | COMPACTING => []
  end.

(** The turn, retry and compaction numbers after an accepted transition:
    [(turn_id, parent_turn_id, retry_index, compaction_count)]. *)
Definition turn_accounting (reason : string) (s : AgentSession) : Z * option Z * Z * Z :=
  if decide (reason ∈ NEW_TURN_REASONS) then
    ((turn_id s + 1)%Z,
     if decide (reason = "answer-received") then Some (turn_id s) else None, 0%Z, 0%Z)
  else if decide (reason ∈ RETRY_REASONS) then
    (turn_id s, None, (retry_index s + 1)%Z, 0%Z)
  else if decide (reason ∈ COMPACT_ENTER_REASONS) then
    (turn_id s, None, retry_index s, (compaction_count s + 1)%Z)
  else (turn_id s, None, retry_index s, compaction_count s).

(** [reject]: count the pair and try to record it; a DB failure is swallowed. *)
Definition reject_transition (env : Env) (to : SessionStateV2) (reason : string) (w : World)
    : World :=
  let s := w_session w in
  let current := current_state s in
  let w := w <| w_rejected ::= record_rejected_transition current reason to |> in
  if env_db_ok env then
    add_state_log
      (mkLogRow (turn_id s) None 0 0 (state_value current) (state_value current)
         ("invariant-violation:" +:+ reason) None 0 0 (env_wall_ns env / 1000000)%Z None)
      false w
  else w.

(** The pause event and the termination reason change before the row is
    written: leaving a paused state for one that is not wakes the loop. *)
Definition prepare_session (to : SessionStateV2) (term : option TerminationReason)
    (s : AgentSession) : AgentSession :=
  let s :=
    if decide ((to ∉ [PAUSE_REQUESTED; PAUSED; COMPACTING]) ∧
               (current_state s ∈ [PAUSE_REQUESTED; PAUSED]))
    then s <| pause_event := true |> else s in
  match term with
  | Some t => s <| termination_reason := Some (termination_value t) |>
  | None => s
  end.

Definition elapsed_since (prev : option Z) (now_ms : Z) : option Z :=
  match prev with
  | Some p => if decide (p = 0%Z) then None else Some (now_ms - p)%Z
  | None => None
  end.

(** The in-memory half, reached only once the row is durable. *)
Definition commit_session (env : Env) (to : SessionStateV2) (reason : string)
    (term : option TerminationReason) (s : AgentSession) : AgentSession :=
  let current := current_state s in
  let '(tid, parent, retry, compact) := turn_accounting reason s in
  let s := s <| state_entered_ms := Some (env_mono_ns env / 1000000)%Z |>
             <| turn_id := tid |> <| retry_index := retry |>
             <| compaction_count := compact |> <| state_v2 := Some to |> in
  let s := match term with
           | Some t => s <| termination_reason := Some (termination_value t) |>
           | None => s
           end in
  let s := touch (env_wall_ns env) s in
  session_emit Inline
    (StateChanged current to reason tid retry compact term parent (capabilities s))
    (env_wall_ns env) s.

Definition log_row (env : Env) (to : SessionStateV2) (reason : string)
    (term : option TerminationReason) (s : AgentSession) : LogRow :=
  let '(tid, parent, retry, compact) := turn_accounting reason s in
  mkLogRow tid parent retry compact (state_value (current_state s)) (state_value to)
    reason (termination_value <$> term) (reflect_count (turn s)) (eval_count (turn s))
    (env_wall_ns env / 1000000)%Z
    (elapsed_since (state_entered_ms s) (env_mono_ns env / 1000000)%Z).

Definition transition (env : Env) (to : SessionStateV2) (reason : string)
    (term : option TerminationReason) (w : World) : World * result DbError bool :=
  let s := w_session w in
  if decide (edge (current_state s) reason = Some to) then
    let previous_pause := pause_event s in
    let previous_termination := termination_reason s in
    let s1 := prepare_session to term s in
    let w := w <| w_session := s1 |>
               <| w_warnings ::= λ l, l ++ check_invariants env s1 to |> in
    if env_db_ok env then
      let w := add_state_log (log_row env to reason term s1) true w in
      (w <| w_session ::= commit_session env to reason term |>, Ret true)
    else
      (w <| w_session ::= λ s, s <| termination_reason := previous_termination |>
                                 <| pause_event := previous_pause |> |>,
       Raise OperationalError)
  else (reject_transition env to reason w, Ret false).

(** ** Choosing an edge: [sessions/manager.py] *)
Definition TERMINATION_ROUTED_STATES : list SessionStateV2 := [PROCESSING; PAUSE_REQUESTED].

Definition TERMINATION_TO_V2 (key : string) : option (string * TerminationReason) :=
  if decide (key = "complete") then Some ("loop-complete", COMPLETE)
  else if decide (key = "round_ceiling") then Some ("round-ceiling", ROUND_CEILING)
  else if decide (key = "stuck_loop") then Some ("stuck-loop", STUCK_LOOP)
  else if decide (key = "compaction_failed") then Some ("compaction-failed", COMPACTION_FAILED)
  else if decide (key = "error") then Some ("agent-error", ERROR)
  else if decide (key = "budget_exhausted") then Some ("loop-complete", BUDGET_EXHAUSTED)
  else None.

(** [tr or "complete"] also replaces the empty string. *)
Definition map_termination_to_v2_reason (tr : option string) : string * TerminationReason :=
  let key := match tr with Some "" | None => "complete" | Some k => k end in
  default ("loop-complete", COMPLETE) (TERMINATION_TO_V2 key).

Definition finalize_failure_reason (current : SessionStateV2) : string :=
  if decide (current = FINALIZING) then "finalize-error" else "reaper-unstick".

(** A transition inside [try: ... except Exception: logger.error]. *)
Definition try_transition (env : Env) to reason term (w : World) : World :=
  (transition env to reason term w).1.

Definition upd_session (f : AgentSession → AgentSession) (w : World) : World :=
  w <| w_session ::= f |>.

Inductive ControlReply :=
| ControlRejected (detail : string)
| ControlApplied (status detail : string) (state : SessionStateV2) (caps : Capabilities).

Definition capability (action : string) (c : Capabilities) : bool :=
  if decide (action = "pause") then can_pause c
  else if decide (action = "resume") then can_resume c
  else if decide (action = "steer") then can_steer c
  else if decide (action = "cancel") then can_cancel c
  else false.

(** [control_session], for a session the manager found. *)
Definition control_session (env : Env) (action : string) (w : World)
    : World * result DbError ControlReply :=
  let current := current_state (w_session w) in
  let applied status detail w :=
    (w, Ret (ControlApplied status detail (current_state (w_session w))
               (capabilities (w_session w)))) in
  if negb (capability action (capabilities (w_session w))) then
    (w, Ret (ControlRejected ("Cannot " +:+ action +:+ " session in " +:+ state_value current)))
  else if decide (action = "pause") then
    match transition env PAUSE_REQUESTED "pause-requested" None
            (upd_session (λ s, s <| pause_event := false |>) w) with
    | (w, Raise e) => (upd_session (λ s, s <| pause_event := true |>) w, Raise e)
    | (w, Ret _) => applied "pause_requested" "Session will pause at next checkpoint" w
    end
  else if decide (action = "resume") then
    let w := upd_session (λ s, s <| pause_event := true |>) w in
    if decide (current = PAUSE_REQUESTED) then
      match transition env PROCESSING "resume" None w with
      | (w, Raise e) => (upd_session (λ s, s <| pause_event := false |>) w, Raise e)
      | (w, Ret _) => applied "resumed" "Session resumed" w
      end
    else applied "resumed" "Session resumed" w
  else (w, Ret (ControlRejected ("Unsupported control: " +:+ action))).

(** *** The turn driver *)

(** [_run_agent_safe], up to the SCOUTING transition: a new [TurnState] and a
    reason that names where the turn came from.  A DB failure propagates. *)
Definition start_reason (s : SessionStateV2) : string :=
  match s with
  | AWAITING_USER => "answer-received"
  | AWAITING_WORKERS => "workers-complete"
  | _ => "prompt-arrived"
  end.
Definition start_turn (env : Env) (w : World) : World * result DbError bool :=
  let w := upd_session (λ s, s <| turn := new_turn_state |>) w in
  transition env SCOUTING (start_reason (current_state (w_session w))) None w.

(** The [except asyncio.CancelledError] arm (its cascade to other sessions
    left out: it cancels tasks this session does not own). *)
Definition on_cancelled (env : Env) (w : World) : World :=
  let w := upd_session (λ s, s <| termination_reason := Some "cancelled" |>) w in
  let current := current_state (w_session w) in
  let w :=
    if decide (current = CANCELLING) then w
    else try_transition env CANCELLING
           (if decide (current ∈ [PAUSED; PAUSE_REQUESTED]) then "cancel-during-pause"
            else "cancel-requested") (Some CANCELLED) w in
  upd_session (λ s, s <| watched_worker_ids := ∅ |>) w.

(** The [except Exception] arm; [budget] is [isinstance(e, LLMSessionTimeoutError)]. *)
Definition on_agent_error (env : Env) (msg : string) (budget : bool) (w : World) : World :=
  let w := upd_session (λ s, s <| error := Some msg |>) w in
  let w :=
    if decide (current_state (w_session w) = SCOUTING) then
      try_transition env FINALIZING "scout-error"
        (Some (if budget then BUDGET_EXHAUSTED else SCOUT_ERROR))
        (upd_session (λ s, s <| termination_reason :=
           Some (if budget then "budget_exhausted" else "scout_error") |>) w)
    else
      try_transition env FINALIZING "agent-error"
        (Some (if budget then BUDGET_EXHAUSTED else ERROR))
        (upd_session (λ s, s <| termination_reason :=
           Some (if budget then "budget_exhausted" else "error") |>) w) in
  upd_session (session_emit Inline (OtherEvent "stream.error") (env_wall_ns env)) w.

Definition end_of_turn (env : Env) (w : World) : World :=
  upd_session (λ s, session_emit Inline (OtherEvent "turn.complete") (env_wall_ns env)
                      (s <| current_turn_user_msg_id := None |>)) w.

(** [_finalize_turn] of a cancelled turn, up to the worker notification. *)
Definition finalize_cancelled (env : Env) (w : World) : World :=
  let w := upd_session (λ s,
    (touch (env_wall_ns env) s) <| termination_reason := Some "cancelled" |>
      <| pause_event := true |> <| cancel_requested := false |>) w in
  let current := current_state (w_session w) in
  let w :=
    if decide (current = CANCELLING) then try_transition env IDLE_READY "cancel-complete" None w
    else if decide (current = IDLE_READY) then w
    else try_transition env IDLE_READY "cancel-timeout" None w in
  end_of_turn env w.

(** [_finalize_turn] of any other turn: entering FINALIZING before the post
    hooks ... *)
Definition finalize_begin (env : Env) (w : World) : World :=
  let w := upd_session (touch (env_wall_ns env)) w in
  let current := current_state (w_session w) in
  let w := if decide (current = PAUSE_REQUESTED)
           then upd_session (λ s, s <| pause_event := true |>) w else w in
  if decide (current ∈ TERMINATION_ROUTED_STATES) then
    let '(reason, term) := map_termination_to_v2_reason (termination_reason (w_session w)) in
    try_transition env FINALIZING reason (Some term) w
  else if decide (current = COMPACTING) then
    try_transition env FINALIZING "compaction-failed" (Some COMPACTION_FAILED) w
  else w.

(** ... and leaving it after them. *)
Definition finalize_end (env : Env) (w : World) : World :=
  let w := if decide (current_state (w_session w) = FINALIZING)
           then try_transition env IDLE_READY "turn-complete" None w else w in
  end_of_turn env w.

(** The handlers around [_finalize_turn]: a cancel, or an exception, that
    escapes it.  Their transition is not guarded. *)
Definition finalization_cancelled (env : Env) (w : World) : World * result DbError bool :=
  let w := upd_session (λ s, s <| termination_reason := Some "cancelled" |>
                               <| cancel_requested := false |> <| pause_event := true |>) w in
  if decide (current_state (w_session w) = IDLE_READY) then (w, Ret true)
  else transition env IDLE_READY "cancel-timeout" None w.

Definition finalization_failed (env : Env) (msg : string) (w : World)
    : World * result DbError bool :=
  let w := upd_session (λ s, s <| error := Some msg |>
                               <| termination_reason := Some "error" |>) w in
  let current := current_state (w_session w) in
  if decide (current = IDLE_READY) then (w, Ret true)
  else transition env IDLE_READY (finalize_failure_reason current) None w.

(** [execution.settle(...)]: how the turn is reported. *)
Inductive ExecResult := EXEC_COMPLETED | EXEC_CANCELLED | EXEC_FAILED.
Definition execution_result (s : AgentSession) : ExecResult :=
  if decide (termination_reason s = Some "cancelled" ∨ cancel_requested s = true) then
    EXEC_CANCELLED
  else if decide ((error s ≠ None ∧ error s ≠ Some "") ∨
                  termination_reason s ∈
                    Some <$> ["error"; "scout_error"; "compaction_failed"; "interrupted"]) then
    EXEC_FAILED
  else EXEC_COMPLETED.

(** *** The agent loop: [core/agent.py] *)

(** The pause checkpoint, before and after [await session.pause_event.wait()];
    the second half runs once the event is set. *)
Definition pause_checkpoint (env : Env) (w : World) : World :=
  if negb (pause_event (w_session w)) &&
     bool_decide (current_state (w_session w) = PAUSE_REQUESTED)
  then try_transition env PAUSED "pause-observed" None w else w.
Definition pause_woken (env : Env) (w : World) : World :=
  let w := if decide (current_state (w_session w) = PAUSED)
           then try_transition env PROCESSING "resume" None w else w in
  if cancel_requested (w_session w)
  then upd_session (λ s, s <| termination_reason := Some "cancelled" |>) w else w.

(** [CompactionController.run], around the compaction itself. *)
Definition compaction_begin (env : Env) (reason : string) (w : World) : World :=
  try_transition env COMPACTING reason None
    (upd_session (session_emit Inline (OtherEvent "context.compacting") (env_wall_ns env)) w).
Definition compaction_end (env : Env) (compacted refused restore_on_failure : bool)
    (w : World) : World :=
  let w := upd_session (touch (env_wall_ns env)) w in
  if compacted || refused || restore_on_failure then
    if negb (pause_event (w_session w))
    then try_transition env PAUSE_REQUESTED "compact-done-paused" None w
    else try_transition env PROCESSING "compact-done" None w
  else w.

(** ** Runs

    Any sequence of the calls above, interleaved with arbitrary [transition]
    calls (the agent, the orchestration tools and the reaper make them
    directly) and with writes to the fields other components own. *)
Inductive sv_op :=
| OpTransition (env : Env) (to : SessionStateV2) (reason : string)
    (term : option TerminationReason)
| OpControl (env : Env) (action : string)
| OpStartTurn (env : Env)
| OpCancelled (env : Env)
| OpError (env : Env) (msg : string) (budget : bool)
| OpFinalizeCancelled (env : Env)
| OpFinalizeBegin (env : Env)
| OpFinalizeEnd (env : Env)
| OpFinalizationCancelled (env : Env)
| OpFinalizationFailed (env : Env) (msg : string)
| OpPauseCheckpoint (env : Env)
| OpPauseWoken (env : Env)
| OpCompactionBegin (env : Env) (reason : string)
| OpCompactionEnd (env : Env) (compacted refused restore : bool)
| OpSetCancelRequested (b : bool)
| OpSetTask (t : option bool)
| OpSetTerminationReason (r : option string)
| OpWatchWorkers (ids : gset string).

Definition run_op (w : World) (op : sv_op) : World :=
  match op with
  | OpTransition env to reason term => try_transition env to reason term w
  | OpControl env action => (control_session env action w).1
  | OpStartTurn env => (start_turn env w).1
  | OpCancelled env => on_cancelled env w
  | OpError env msg budget => on_agent_error env msg budget w
  | OpFinalizeCancelled env => finalize_cancelled env w
  | OpFinalizeBegin env => finalize_begin env w
  | OpFinalizeEnd env => finalize_end env w
  | OpFinalizationCancelled env => (finalization_cancelled env w).1
  | OpFinalizationFailed env msg => (finalization_failed env msg w).1
  | OpPauseCheckpoint env => pause_checkpoint env w
  | OpPauseWoken env => pause_woken env w
  | OpCompactionBegin env reason => compaction_begin env reason w
  | OpCompactionEnd env c r f => compaction_end env c r f w
  | OpSetCancelRequested b => upd_session (λ s, s <| cancel_requested := b |>) w
  | OpSetTask t => upd_session (λ s, s <| task := t |>) w
  | OpSetTerminationReason r => upd_session (λ s, s <| termination_reason := r |>) w
  | OpWatchWorkers ids => upd_session (λ s, s <| watched_worker_ids := ids |>) w
  end.

Definition fresh_world (sid : string) (now : Z) : World :=
  mkWorld (new_session sid now) None [] ∅ [].

Definition run (ops : list sv_op) (w : World) : World := foldl run_op w ops.

(** ** Replaying the durable log

    A post-mortem reader starts from IDLE_READY and follows the rows: a row
    of the graph moves, a rejected one stays, anything else is corruption. *)
Definition rejected_row (row : LogRow) : Prop :=
  row_to row = row_from row ∧ ∃ r, row_reason row = "invariant-violation:" +:+ r.

Inductive replays : SessionStateV2 → list LogRow → SessionStateV2 → Prop :=
| replays_nil s : replays s [] s
| replays_move s rows s1 s2 row :
    replays s rows s1 → edge s1 (row_reason row) = Some s2 →
    row_from row = state_value s1 → row_to row = state_value s2 →
    replays s (rows ++ [row]) s2
| replays_stay s rows s1 row :
    replays s rows s1 → rejected_row row → row_from row = state_value s1 →
    replays s (rows ++ [row]) s1.

(** Turns a log starts. *)
Definition turns_started (rows : list LogRow) : Z :=
  Z.of_nat (length (filter (λ r, row_reason r ∈ NEW_TURN_REASONS) rows)).

Definition machine_inv (w : World) : Prop :=
  w_state_v2 w = state_value <$> state_v2 (w_session w) ∧
  replays IDLE_READY (w_log w) (current_state (w_session w)) ∧
  turn_id (w_session w) = turns_started (w_log w) ∧
  Forall (λ r, 0 ≤ row_turn_id r ≤ turn_id (w_session w))%Z (w_log w) ∧
  (∀ i j ri rj, i < j → w_log w !! i = Some ri → w_log w !! j = Some rj →
     (row_turn_id ri ≤ row_turn_id rj)%Z).

(** The fields the state machine owns. *)
Definition machine (s : AgentSession) := (state_v2 s, turn_id s).

Lemma machine_inv_frame f w :
  (∀ s, machine (f s) = machine s) → machine_inv w → machine_inv (upd_session f w).
Proof.
  intros Hf (Hcol & Hrep & Htid & Hle & Hmono). specialize (Hf (w_session w)).
  injection Hf as Hs Ht. destruct w as [s ? ? ? ?]. unfold machine_inv, current_state in *.
  cbn in *. rewrite Hs, Ht. done.
Qed.

Lemma prepare_session_machine to term s : machine (prepare_session to term s) = machine s.
Proof. unfold prepare_session. by destruct (decide _), term. Qed.

Lemma commit_session_state env to reason term s :
  state_v2 (commit_session env to reason term s) = Some to ∧
  turn_id (commit_session env to reason term s) = (turn_accounting reason s).1.1.1.
Proof. unfold commit_session. by destruct (turn_accounting reason s) as [[[? ?] ?] ?], term. Qed.

Lemma turn_accounting_turn reason s :
  (turn_accounting reason s).1.1.1 =
    (turn_id s + if decide (reason ∈ NEW_TURN_REASONS) then 1 else 0)%Z.
Proof. unfold turn_accounting. repeat case_decide; cbn; lia. Qed.

Lemma log_row_fields env to reason term s :
  let row := log_row env to reason term s in
  row_turn_id row = (turn_accounting reason s).1.1.1 ∧ row_reason row = reason ∧
  row_from row = state_value (current_state s) ∧ row_to row = state_value to.
Proof. unfold log_row. by destruct (turn_accounting reason s) as [[[? ?] ?] ?]. Qed.

Lemma turns_started_snoc rows row :
  turns_started (rows ++ [row]) =
    (turns_started rows + if decide (row_reason row ∈ NEW_TURN_REASONS) then 1 else 0)%Z.
Proof.
  unfold turns_started. rewrite filter_app, length_app, Nat2Z.inj_add.
  cbn. by case_decide.
Qed.

(** A row of the current turn appended to the log keeps the numbers ordered. *)
Lemma row_numbers_snoc rows row t t' :
  Forall (λ r, 0 ≤ row_turn_id r ≤ t)%Z rows →
  (∀ i j ri rj, i < j → rows !! i = Some ri → rows !! j = Some rj →
     (row_turn_id ri ≤ row_turn_id rj)%Z) →
  (0 ≤ t ≤ t')%Z → row_turn_id row = t' →
  Forall (λ r, 0 ≤ row_turn_id r ≤ t')%Z (rows ++ [row]) ∧
  (∀ i j ri rj, i < j → (rows ++ [row]) !! i = Some ri → (rows ++ [row]) !! j = Some rj →
     (row_turn_id ri ≤ row_turn_id rj)%Z).
Proof.
  intros Hall Hmono Ht Hrow. split.
  - apply Forall_app. split; [|constructor; [lia|constructor]].
    eapply Forall_impl; [done|]. cbn. lia.
  - intros i j ri rj Hij Hi Hj.
    apply lookup_app_Some in Hj as [Hj|[Hlen Hj]].
    + pose proof (lookup_lt_Some _ _ _ Hj).
      rewrite lookup_app_l in Hi by lia. eauto.
    + apply list_lookup_singleton_Some in Hj as [? <-].
      rewrite lookup_app_l in Hi by lia.
      rewrite Forall_lookup in Hall. apply Hall in Hi. lia.
Qed.

Lemma violation_not_new_turn r : "invariant-violation:" +:+ r ∉ NEW_TURN_REASONS.
Proof. unfold NEW_TURN_REASONS. rewrite !not_elem_of_cons. split_and!; try done. apply not_elem_of_nil. Qed.

Lemma turns_started_nonneg rows : (0 ≤ turns_started rows)%Z.
Proof. unfold turns_started. lia. Qed.

Lemma reject_inv env to reason w : machine_inv w → machine_inv (reject_transition env to reason w).
Proof.
  intros (Hcol & Hrep & Htid & Hle & Hmono). unfold reject_transition.
  destruct (env_db_ok env); [|by split_and!].
  pose proof (turns_started_nonneg (w_log w)).
  set (row := mkLogRow _ _ _ _ _ _ _ _ _ _ _ _).
  destruct (row_numbers_snoc (w_log w) row (turn_id (w_session w)) (turn_id (w_session w)))
    as [? ?]; [done|done|lia|done|].
  unfold machine_inv. cbn. split_and!; try done.
  - apply replays_stay; [done| |done]. split; [done|]. by eexists.
  - rewrite turns_started_snoc, decide_False by apply violation_not_new_turn. lia.
Qed.

Lemma transition_inv env to reason term w :
  machine_inv w → machine_inv (transition env to reason term w).1.
Proof.
  intros Hinv. unfold transition. case_decide as Hedge; [|by apply reject_inv].
  destruct Hinv as (Hcol & Hrep & Htid & Hle & Hmono).
  pose proof (prepare_session_machine to term (w_session w)) as [= Hs Ht].
  set (s1 := prepare_session to term (w_session w)) in *.
  assert (current_state s1 = current_state (w_session w)) as Hcur
    by (unfold current_state; by rewrite Hs).
  destruct (env_db_ok env); cbn.
  - pose proof (turns_started_nonneg (w_log w)).
    destruct (commit_session_state env to reason term s1) as [Hst Htid'].
    destruct (log_row_fields env to reason term s1) as (Hrt & Hrr & Hrf & Hrto).
    pose proof (turn_accounting_turn reason s1) as Hacc.
    destruct (row_numbers_snoc (w_log w) (log_row env to reason term s1)
      (turn_id (w_session w)) (turn_accounting reason s1).1.1.1) as [? ?];
      [done|done|rewrite Hacc, Ht; case_decide; lia|done|].
    unfold machine_inv; cbn. unfold current_state. rewrite Hst, Htid'. cbn.
    rewrite Hrto. split_and!; try done.
    + eapply replays_move; [done|by rewrite Hrr|by rewrite Hrf, Hcur|done].
    + rewrite turns_started_snoc, Hrr, Hacc, Ht, Htid. done.
  - unfold machine_inv; cbn. unfold current_state in *. cbn.
    rewrite Hs, Ht. by split_and!.
Qed.

#[export] Hint Resolve transition_inv machine_inv_frame : pernix.

(** Every caller is made of transitions and of writes to other fields. *)
Ltac machine_frame :=
  repeat first
    [ assumption
    | apply transition_inv
    | apply machine_inv_frame; [done|]
    | match goal with
      | |- context [transition ?env ?to ?r ?t ?w] =>
          let w' := fresh "w" in let res := fresh "res" in let E := fresh "E" in
          let H := fresh "H" in
          assert (machine_inv (transition env to r t w).1) as H
            by (apply transition_inv; machine_frame);
          destruct (transition env to r t w) as [w' [?|?]] eqn:E; cbn in H |- *
      end
    | split_match; cbn ].

Lemma run_op_inv w op : machine_inv w → machine_inv (run_op w op).
Proof.
  intros ?. destruct op; cbn [run_op];
    unfold try_transition, control_session, start_turn, on_cancelled, on_agent_error,
      finalize_cancelled, finalize_begin, finalize_end, finalization_cancelled,
      finalization_failed, pause_checkpoint, pause_woken, compaction_begin, compaction_end,
      end_of_turn; cbv zeta; machine_frame.
Qed.

Lemma fresh_world_inv sid now : machine_inv (fresh_world sid now).
Proof. split_and!; try done; by constructor. Qed.

Lemma run_inv ops w : machine_inv w → machine_inv (run ops w).
Proof. revert w. induction ops; cbn; eauto using run_op_inv. Qed.

(** ** The counter of rejected pairs *)
Lemma sumZ_perm l k : l ≡ₚ k → sumZ l = sumZ k.
Proof. unfold sumZ. induction 1; cbn in *; lia. Qed.

Lemma sumZ_insert_fresh k v (m : gmap string Z) :
  m !! k = None → sumZ (map_to_list (<[k := v]> m)).*2 = (v + sumZ (map_to_list m).*2)%Z.
Proof.
  intros Hk.
  by rewrite (sumZ_perm _ _ (fmap_Permutation snd _ _ (map_to_list_insert _ _ _ Hk))).
Qed.

Lemma rejected_total_insert k v (m : gmap string Z) :
  rejected_total (<[k := v]> m) = (rejected_total m - default 0 (m !! k) + v)%Z.
Proof.
  unfold rejected_total. destruct (m !! k) as [v0|] eqn:Hk; cbn [default from_option].
  - rewrite <-(insert_delete_id m k v0 Hk) at 2. rewrite <-(insert_delete_eq m k v).
    rewrite !sumZ_insert_fresh by apply lookup_delete_eq. unfold id. lia.
  - rewrite sumZ_insert_fresh by done. lia.
Qed.

Lemma reject_transition_spec env to reason w :
  let w' := reject_transition env to reason w in
  w_session w' = w_session w ∧ w_state_v2 w' = w_state_v2 w ∧
  rejected_total (w_rejected w') = (rejected_total (w_rejected w) + 1)%Z.
Proof.
  cbn. unfold reject_transition.
  destruct (env_db_ok env); cbn; (split_and!; [done|done|]);
    unfold record_rejected_transition; rewrite rejected_total_insert; lia.
Qed.

Definition wakes (from to : SessionStateV2) : bool :=
  bool_decide (from ∈ [PAUSE_REQUESTED; PAUSED]) &&
  bool_decide (to ∉ [PAUSE_REQUESTED; PAUSED; COMPACTING]).

Lemma prepare_session_fields to term s :
  let s' := prepare_session to term s in
  pause_event s' = (wakes (current_state s) to || pause_event s) ∧
  cancel_requested s' = cancel_requested s ∧
  termination_reason s' = from_option (λ t, Some (termination_value t)) (termination_reason s) term.
Proof.
  cbn. unfold prepare_session, wakes. destruct term; cbn;
  repeat case_decide; repeat case_bool_decide; cbn; tauto.
Qed.

Lemma commit_session_fields env to reason term s :
  let s' := commit_session env to reason term s in
  pause_event s' = pause_event s ∧ cancel_requested s' = cancel_requested s ∧
  error s' = error s ∧
  termination_reason s' = from_option (λ t, Some (termination_value t)) (termination_reason s) term.
Proof.
  cbn. unfold commit_session.
  by destruct (turn_accounting reason s) as [[[? ?] ?] ?], term.
Qed.

Lemma restore_session to term s :
  (prepare_session to term s) <| termination_reason := termination_reason s |>
    <| pause_event := pause_event s |> = s.
Proof. destruct s. unfold prepare_session. by destruct (decide _), term. Qed.

(** What each of the three outcomes of [transition] leaves behind. *)
Definition transition_outcome (env : Env) (to : SessionStateV2) (reason : string)
    (term : option TerminationReason) (w w' : World) (r : result DbError bool) : Prop :=
  let s := w_session w in
  let s' := w_session w' in
  match r with
  | Ret true =>
      edge (current_state s) reason = Some to ∧ env_db_ok env = true ∧
      current_state s' = to ∧ w_state_v2 w' = Some (state_value to) ∧
      (∃ row, w_log w' = w_log w ++ [row] ∧ row_from row = state_value (current_state s) ∧
         row_to row = state_value to ∧ row_reason row = reason) ∧
      pause_event s' = (wakes (current_state s) to || pause_event s) ∧
      cancel_requested s' = cancel_requested s ∧ error s' = error s ∧
      termination_reason s' =
        from_option (λ t, Some (termination_value t)) (termination_reason s) term ∧
      w_rejected w' = w_rejected w ∧
      w_warnings w' = w_warnings w ++ check_invariants env (prepare_session to term s) to
  | Ret false =>
      edge (current_state s) reason ≠ Some to ∧ s' = s ∧ w_state_v2 w' = w_state_v2 w ∧
      rejected_total (w_rejected w') = (rejected_total (w_rejected w) + 1)%Z
  | Raise _ =>
      edge (current_state s) reason = Some to ∧ env_db_ok env = false ∧
      s' = s ∧ w_state_v2 w' = w_state_v2 w ∧ w_log w' = w_log w ∧
      w_rejected w' = w_rejected w
  end.

Lemma transition_outcome_ok env to reason term w :
  transition_outcome env to reason term w
    (transition env to reason term w).1 (transition env to reason term w).2.
Proof.
  unfold transition. case_decide as Hedge; cbn.
  - destruct (env_db_ok env) eqn:Hdb; cbn.
    + set (s1 := prepare_session to term (w_session w)).
      destruct (commit_session_fields env to reason term s1) as (Hp & Hc & He & Ht).
      destruct (prepare_session_fields to term (w_session w)) as (Hp1 & Hc1 & Ht1).
      destruct (commit_session_state env to reason term s1) as [Hst _].
      destruct (log_row_fields env to reason term s1) as (_ & Hrr & Hrf & Hrto).
      fold s1 in Hp1, Hc1, Ht1.
      assert (current_state s1 = current_state (w_session w)) as Hcur.
      { unfold current_state, s1.
        pose proof (prepare_session_machine to term (w_session w)) as [= Hs _].
        by rewrite Hs. }
      assert (error s1 = error (w_session w)) as He1.
      { unfold s1, prepare_session. by destruct (decide _), term. }
      assert (current_state (commit_session env to reason term s1) = to) as Hcur'.
      { unfold current_state. by rewrite Hst. }
      rewrite Hcur', Hp, Hc, He, Ht, Hp1, Hc1, He1, Ht1, Hrto.
      split_and!; try done; [|by destruct term].
      eexists. rewrite <-Hcur. by split_and!.
    + split_and!; try done. apply restore_session.
  - split; [done|]. apply reject_transition_spec.
Qed.

Lemma edge_cancel_timeout s : s ≠ IDLE_READY → edge s "cancel-timeout" = Some IDLE_READY.
Proof. by destruct s. Qed.
Lemma edge_finalize_failure s :
  s ≠ IDLE_READY → edge s (finalize_failure_reason s) = Some IDLE_READY.
Proof. by destruct s. Qed.
Lemma routed_reason_finalizes s tr :
  s ∈ TERMINATION_ROUTED_STATES → edge s (map_termination_to_v2_reason tr).1 = Some FINALIZING.
Proof.
  intros Hs. assert (s = PROCESSING ∨ s = PAUSE_REQUESTED) as Hs'
    by (unfold TERMINATION_ROUTED_STATES in Hs; set_solver).
  unfold map_termination_to_v2_reason, TERMINATION_TO_V2.
  destruct Hs' as [-> | ->]; repeat case_decide; reflexivity.
Qed.

(** ** Properties *)

(** C1: The durable record is the state.  After any sequence of transitions,
    control commands and turn-driver steps, with SQLite failing at any of
    them, the [state_v2] column holds the in-memory state, replaying
    [session_state_log] along the graph from IDLE_READY ends in that state,
    and the turn number is the number of turns the log starts. *)
Theorem durable_log_is_state (sid : string) (now : Z) (ops : list sv_op) :
  let w := run ops (fresh_world sid now) in
  w_state_v2 w = state_value <$> state_v2 (w_session w) ∧
  replays IDLE_READY (w_log w) (current_state (w_session w)) ∧
  turn_id (w_session w) = turns_started (w_log w).
Proof. destruct (run_inv ops _ (fresh_world_inv sid now)) as (? & ? & ? & _). done. Qed.

(** Rows of one turn are contiguous in the log: turn numbers never go
    back, are never negative and never exceed the session's. *)
Theorem log_turns_ordered (sid : string) (now : Z) (ops : list sv_op) (i j : nat)
    (ri rj : LogRow) :
  let w := run ops (fresh_world sid now) in
  i < j → w_log w !! i = Some ri → w_log w !! j = Some rj →
  (0 ≤ row_turn_id ri ≤ row_turn_id rj)%Z ∧ (row_turn_id rj ≤ turn_id (w_session w))%Z.
Proof.
  intros w Hij Hi Hj.
  destruct (run_inv ops _ (fresh_world_inv sid now)) as (_ & _ & _ & Hall & Hmono).
  fold w in Hall, Hmono. rewrite Forall_lookup in Hall.
  pose proof (Hall _ _ Hi). pose proof (Hall _ _ Hj). specialize (Hmono _ _ _ _ Hij Hi Hj). lia.
Qed.

Definition ok_env (t : Z) : Env := mkEnv (t * 1000000) (t * 1000000) true (Some 1).
Definition broken_env (t : Z) : Env := mkEnv (t * 1000000) (t * 1000000) false None.

(** Two prompts; the first one is cancelled while the DB is down. *)
Definition two_turns : list sv_op :=
  [OpSetTask (Some false); OpStartTurn (ok_env 1);
   OpTransition (ok_env 2) PROCESSING "scout-done" None;
   OpCancelled (broken_env 3); OpFinalizeCancelled (ok_env 4);
   OpTransition (ok_env 5) PAUSED "pause-observed" None; OpStartTurn (ok_env 6)].

Definition two_turns_world : World := Eval vm_compute in run two_turns (fresh_world "s" 0).
Definition two_turns_row (i : nat) : LogRow :=
  default (mkLogRow 0 None 0 0 "" "" "" None 0 0 0 None) (w_log two_turns_world !! i).

Lemma log_turns_ordered_witness :
  run two_turns (fresh_world "s" 0) = two_turns_world ∧
  (row_turn_id <$> w_log two_turns_world) = [1; 1; 1; 1; 2]%Z ∧
  (0 ≤ row_turn_id (two_turns_row 0) ≤ row_turn_id (two_turns_row 4))%Z.
Proof.
  split; [vm_compute; reflexivity|]. split; [reflexivity|].
  refine (proj1 (log_turns_ordered "s" 0 two_turns 0 4 (two_turns_row 0) (two_turns_row 4) _ _ _));
    [lia|vm_compute; reflexivity|vm_compute; reflexivity].
Defined.

(** A transition is all or nothing.  Accepted, it moved along the graph,
    its row and the column were written first, and leaving a paused state
    for an unpaused one woke the loop.  Refused, the session and the column
    are untouched and exactly one rejection is counted.  If the write
    raises, the session (pause event and termination reason included), the
    column and the log are what they were. *)
Theorem transition_all_or_nothing (env : Env) (to : SessionStateV2) (reason : string)
    (term : option TerminationReason) (w : World) :
  transition_outcome env to reason term w
    (transition env to reason term w).1 (transition env to reason term w).2.
Proof. apply transition_outcome_ok. Qed.

(** Every termination reason the agent loop may leave, known or not,
    finalizes the turn from every state the finalizer routes; every state a
    dead turn can be in has an edge to IDLE_READY for the cancel fallback
    and for the finalization-failure handler. *)
Theorem termination_edges_closed (s : SessionStateV2) (tr : option string) :
  (s ∈ TERMINATION_ROUTED_STATES →
     edge s (map_termination_to_v2_reason tr).1 = Some FINALIZING) ∧
  (s ≠ IDLE_READY →
     edge s "cancel-timeout" = Some IDLE_READY ∧
     edge s (finalize_failure_reason s) = Some IDLE_READY) ∧
  (s ≠ IDLE_READY → s ≠ CANCELLING →
     s ∉ [PAUSED; PAUSE_REQUESTED] → edge s "cancel-requested" = Some CANCELLING) ∧
  (s ∈ [PAUSED; PAUSE_REQUESTED] → edge s "cancel-during-pause" = Some CANCELLING).
Proof.
  split_and!.
  - apply routed_reason_finalizes.
  - auto using edge_cancel_timeout, edge_finalize_failure.
  - intros. by destruct s; try (exfalso; set_solver); vm_compute.
  - intros. by destruct s; try (exfalso; set_solver); vm_compute.
Qed.

Lemma termination_edges_closed_witness :
  edge PAUSE_REQUESTED (map_termination_to_v2_reason (Some "brand_new_reason")).1
    = Some FINALIZING ∧ edge CANCELLING "reaper-unstick" = Some IDLE_READY.
Proof.
  split.
  - eapply (termination_edges_closed PAUSE_REQUESTED). right. left.
  - eapply (termination_edges_closed CANCELLING None). done.
Defined.

(** Use the outcome of the transition in the goal. *)
Ltac case_transition :=
  match goal with
  | |- context [transition ?env ?to ?r ?t ?w] =>
      let H := fresh "Hout" in let E := fresh "Etr" in
      pose proof (transition_outcome_ok env to r t w) as H;
      destruct (transition env to r t w) as [? [[|]|[]]] eqn:E; cbn in H |- *
  end.

(** Pause and resume tell the truth.  A refused command changes nothing.
    An applied pause is durable and the loop will find its event cleared;
    one that raises leaves the session running, in its old state.  An
    applied resume sets the event and, if the pause had not been observed
    yet, is back in PROCESSING durably; one that raises leaves the session
    paused. *)
Theorem control_session_outcome (env : Env) (action : string) (w : World) :
  let s := w_session w in
  let w' := (control_session env action w).1 in
  let s' := w_session w' in
  match (control_session env action w).2 with
  | Ret (ControlRejected _) => w' = w
  | Ret (ControlApplied status _ st caps) =>
      st = current_state s' ∧ caps = capabilities s' ∧
      cancel_requested s = false ∧ task_live s = true ∧
      ((action = "pause" ∧ current_state s = PROCESSING ∧ st = PAUSE_REQUESTED ∧
          pause_event s' = false ∧ w_state_v2 w' = Some (state_value st)) ∨
       (action = "resume" ∧ pause_event s' = true ∧
          (current_state s = PAUSE_REQUESTED ∧ st = PROCESSING ∧
             w_state_v2 w' = Some (state_value st) ∨
           current_state s = PAUSED ∧ s' = s <| pause_event := true |>)))
  | Raise _ =>
      current_state s' = current_state s ∧ w_state_v2 w' = w_state_v2 w ∧
      w_log w' = w_log w ∧
      (action = "pause" ∧ pause_event s' = true ∨ action = "resume" ∧ pause_event s' = false)
  end.
Proof.
  cbv zeta. unfold control_session, capability.
  destruct (decide (action = "pause")) as [->|Hp]; [cbn [can_pause capabilities]|
    destruct (decide (action = "resume")) as [->|Hr]; [cbn [can_resume capabilities]|]].
  - destruct (task_live (w_session w)) eqn:Hlive; [|done].
    case_bool_decide as Hcur; [|done]. destruct (cancel_requested (w_session w)) eqn:Hc; [done|].
    cbn [andb negb]. case_transition.
    + destruct Hout as (_ & _ & Hst & Hcol & _ & Hpause & _).
      split_and!; try done. left. rewrite Hst, Hpause. unfold wakes, current_state in *.
      cbn. rewrite Hcur. by split_and!.
    + destruct Hout as [Hno _]. exfalso. apply Hno. unfold current_state in *. cbn.
      rewrite Hcur. done.
    + destruct Hout as (_ & _ & Hs & ? & ? & _). unfold current_state. rewrite Hs. cbn.
      split_and!; try done. by left.
  - destruct (task_live (w_session w)) eqn:Hlive; [|done].
    case_bool_decide as Hcur; [|done]. destruct (cancel_requested (w_session w)) eqn:Hc; [done|].
    cbn [andb negb]. destruct (decide (current_state (w_session w) = PAUSE_REQUESTED)) as [Hpr|Hpr].
    + case_transition.
      * destruct Hout as (_ & _ & Hst & Hcol & _ & Hpause & _).
        split_and!; try done. right. rewrite Hst, Hpause, orb_true_r. split_and!; try done. by left.
      * destruct Hout as [Hno _]. exfalso. apply Hno. unfold current_state in *. cbn.
        rewrite Hpr. done.
      * destruct Hout as (_ & _ & Hs & ? & ? & _). unfold current_state. rewrite Hs. cbn.
        split_and!; try done. by right.
    + cbn. split_and!; try done. right. split_and!; try done. right.
      split; [|done]. set_solver.
  - repeat case_decide; destruct (negb _); done.
Qed.

#[global] Arguments prepare_session : simpl never.
#[global] Arguments check_invariants : simpl never.

Lemma execution_cancelled s :
  termination_reason s = Some "cancelled" → execution_result s = EXEC_CANCELLED.
Proof. intros Hs. unfold execution_result. by rewrite decide_True by (by left). Qed.

(** The closing transition of a cancelled turn, on any edge to IDLE_READY. *)
Lemma close_to_idle env reason w :
  let s := w_session w in
  let w' := try_transition env IDLE_READY reason None w in
  let s' := w_session w' in
  edge (current_state s) reason = Some IDLE_READY →
  termination_reason s = Some "cancelled" → pause_event s = true →
  cancel_requested s = false →
  pause_event s' = true ∧ cancel_requested s' = false ∧
  termination_reason s' = Some "cancelled" ∧
  if env_db_ok env then current_state s' = IDLE_READY ∧ w_warnings w' = w_warnings w
  else current_state s' = current_state s ∧ w_state_v2 w' = w_state_v2 w.
Proof.
  cbv zeta. intros Hedge Ht Hp Hc. unfold try_transition. case_transition.
  - destruct Hout as (_ & -> & -> & _ & _ & -> & -> & _ & -> & _ & ->).
    destruct (prepare_session_fields IDLE_READY None (w_session w)) as (Hpp & Hpc & _).
    unfold check_invariants. rewrite Hpp, Hpc, Hp, Hc, Ht, orb_true_r.
    cbn. by rewrite app_nil_r.
  - exfalso. destruct Hout as [Hno _]. by apply Hno.
  - by destruct Hout as (_ & -> & -> & -> & _).
Qed.

(** A cancelled turn always closes.  Whatever state the cancel found the
    session in, finalizing it ends in IDLE_READY with the pause event set
    and the cancel flag clear (no state invariant is violated on entry), and
    the execution is reported as cancelled; with the database down the state
    and the column keep their values, but the session is awake and no longer
    cancelling. *)
Theorem finalize_cancelled_closes (env : Env) (w : World) :
  let w' := finalize_cancelled env w in
  let s' := w_session w' in
  pause_event s' = true ∧ cancel_requested s' = false ∧
  execution_result s' = EXEC_CANCELLED ∧
  if env_db_ok env
  then current_state s' = IDLE_READY ∧ w_warnings w' = w_warnings w
  else current_state s' = current_state (w_session w) ∧ w_state_v2 w' = w_state_v2 w.
Proof.
  cbv zeta. unfold finalize_cancelled.
  set (w1 := upd_session _ w).
  assert (∀ w2, let s := w_session w2 in
    pause_event s = true ∧ cancel_requested s = false ∧
    termination_reason s = Some "cancelled" ∧
    (if env_db_ok env then current_state s = IDLE_READY ∧ w_warnings w2 = w_warnings w1
     else current_state s = current_state (w_session w1) ∧ w_state_v2 w2 = w_state_v2 w1) →
    pause_event (w_session (end_of_turn env w2)) = true ∧
    cancel_requested (w_session (end_of_turn env w2)) = false ∧
    execution_result (w_session (end_of_turn env w2)) = EXEC_CANCELLED ∧
    if env_db_ok env
    then current_state (w_session (end_of_turn env w2)) = IDLE_READY ∧
         w_warnings (end_of_turn env w2) = w_warnings w
    else current_state (w_session (end_of_turn env w2)) = current_state (w_session w) ∧
         w_state_v2 (end_of_turn env w2) = w_state_v2 w) as Hend.
  { cbv zeta. intros w2 (? & ? & ? & ?).
    split_and!; [done|done|by apply execution_cancelled|done]. }
  apply Hend. case_decide as Hc; [|case_decide as Hi].
  - apply close_to_idle; [|done..]. by rewrite Hc.
  - cbv zeta. rewrite Hi. by destruct (env_db_ok env).
  - apply close_to_idle; [|done..]. by apply edge_cancel_timeout.
Qed.

(** A finalization that itself fails does not strand the session.  From
    every state, the two handlers around [_finalize_turn] (a cancel, or an
    exception escaping it) put the session in IDLE_READY; only a database
    failure stops them, it is raised, and the state is then unchanged. *)
Theorem failed_finalization_reaches_idle (env : Env) (msg : string) (w : World) :
  ∀ h, h ∈ [finalization_cancelled env; finalization_failed env msg] →
  match (h w).2 with
  | Ret ok => ok = true ∧ current_state (w_session (h w).1) = IDLE_READY
  | Raise _ => env_db_ok env = false ∧
      current_state (w_session (h w).1) = current_state (w_session w) ∧
      w_state_v2 (h w).1 = w_state_v2 w
  end.
Proof.
  intros h Hh.
  assert (h = finalization_cancelled env ∨ h = finalization_failed env msg) as [-> | ->]
    by set_solver.
  - unfold finalization_cancelled. case_decide as Hi; [done|].
    case_transition; unfold current_state in *; cbn in *.
    + by destruct Hout as (_ & _ & -> & _).
    + destruct Hout as [Hno _]. exfalso. by apply Hno, edge_cancel_timeout.
    + by destruct Hout as (_ & -> & -> & -> & _).
  - unfold finalization_failed. case_decide as Hi; [done|].
    case_transition; unfold current_state in *; cbn in *.
    + by destruct Hout as (_ & _ & -> & _).
    + destruct Hout as [Hno _]. exfalso. by apply Hno, edge_finalize_failure.
    + by destruct Hout as (_ & -> & -> & -> & _).
Qed.

Lemma failed_finalization_reaches_idle_witness :
  let w := run [OpSetTask (Some false); OpStartTurn (ok_env 1); OpCancelled (ok_env 2)]
             (fresh_world "s" 0) in
  current_state (w_session w) = CANCELLING ∧
  match (finalization_failed (ok_env 3) "boom" w).2 with
  | Ret ok => ok = true ∧
      current_state (w_session (finalization_failed (ok_env 3) "boom" w).1) = IDLE_READY
  | Raise _ => env_db_ok (ok_env 3) = false ∧
      current_state (w_session (finalization_failed (ok_env 3) "boom" w).1)
        = current_state (w_session w) ∧
      w_state_v2 (finalization_failed (ok_env 3) "boom" w).1 = w_state_v2 w
  end.
Proof.
  intros w. split; [vm_compute; reflexivity|].
  apply (failed_finalization_reaches_idle (ok_env 3) "boom" w (finalization_failed (ok_env 3) "boom")).
  right. left.
Defined.



(** A pause lands while the loop is between its checkpoint and a compaction;
    the compaction fails and ends the turn; the user prompts again. *)
Definition pause_before_failed_compaction : list sv_op :=
  [OpSetTask (Some false); OpStartTurn (ok_env 1);
   OpTransition (ok_env 2) PROCESSING "scout-done" None;
   OpControl (ok_env 3) "pause";
   OpCompactionBegin (ok_env 4) "compact-critical";
   OpCompactionEnd (ok_env 5) false false false;
   OpSetTerminationReason (Some "compaction_failed");
   OpFinalizeBegin (ok_env 6); OpFinalizeEnd (ok_env 7);
   OpStartTurn (ok_env 8); OpTransition (ok_env 9) PROCESSING "scout-done" None].

(** A pause pending when a compaction fails outlives its turn: COMPACTING to
    FINALIZING does not set the event, so the next turn reaches PROCESSING
    with the event cleared.  Its next checkpoint waits on the event without
    a PAUSED state, and resume is refused. *)
Lemma pause_outlives_failed_compaction :
  let w := run pause_before_failed_compaction (fresh_world "s" 0) in
  let s := w_session w in
  turn_id s = 2%Z ∧ current_state s = PROCESSING ∧ pause_event s = false ∧
  can_resume (capabilities s) = false ∧
  current_state (w_session (pause_checkpoint (ok_env 10) w)) = PROCESSING ∧
  w_warnings w = ["IDLE_READY expects pause_event.is_set()";
                  "PROCESSING expects pause_event.is_set()"].
Proof. vm_compute. by split_and!. Qed.
