(* ===== verification/Scheduler.v ===== *)
(** * The LLM scheduler

    [SessionAwareLLMScheduler] of [core/llm/semaphore.py]: a counting
    semaphore whose waiters are served oldest session first, then by
    priority, then in order of arrival, with a wall-clock budget per session.

    [acquire] suspends on a future, so it is split where it suspends:
    [acquire] runs up to [await asyncio.wait_for(fut, ...)], and [resume] is
    the rest, entered when the loop resumes the task.  Between the two the
    task is in [tasks].  A timeout or a cancellation ([interrupt]) reaches a
    suspended task through [Task.cancel]: it cancels a future that is still
    pending, and is thrown into the task when it next runs, even if the
    future was granted in between.  [held] counts the callers that returned
    from [acquire] and have not released.

    The heap is kept as the sorted list [heapq] pops it in: keys are distinct
    because of [seq].  Times are integers (nanoseconds) or [Inf], the value of
    [float("inf")]. *)
From S2P Require Import Prelude.
From Stdlib Require Import Sorting.Sorted.
Local Open Scope Z_scope.

(** ** Times that may be infinite *)
Inductive ext := Fin (z : Z) | Inf.

Definition ext_ltb (a b : ext) : bool :=
  match a, b with
  | Fin a, Fin b => a <? b
  | Fin _, Inf => true
  | Inf, _ => false
  end.
Definition ext_le (a b : ext) : Prop := ext_ltb b a = false.
Definition ext_max0 (a : ext) : ext := match a with Fin a => Fin (Z.max 0 a) | Inf => Inf end.
Definition ext_min (a b : ext) : ext := if ext_ltb b a then b else a.
(** [a + z] and [a - z] for a finite [z]. *)
Definition ext_add (z : Z) (a : ext) : ext := match a with Fin a => Fin (z + a) | Inf => Inf end.
Definition ext_sub (a : ext) (z : Z) : ext := match a with Fin a => Fin (a - z) | Inf => Inf end.
Definition ext_plus (a b : ext) : ext := match a with Fin a => ext_add a b | Inf => Inf end.

(** ** State *)
Definition PRIORITY_ORCHESTRATOR : Z := 0.
Definition PRIORITY_WORKER : Z := 1.
Definition PRIORITY_BACKGROUND : Z := 2.

Record WaitItem := mkWaitItem {
  session_created_at : ext;
  priority : Z;
  seq : nat;
  item_session_id : string
}.

(** The order [@dataclass(order=True)] derives from the compared fields. *)
Definition item_ltb (a b : WaitItem) : bool :=
  if ext_ltb (session_created_at a) (session_created_at b) then true
  else if ext_ltb (session_created_at b) (session_created_at a) then false
  else if priority a <? priority b then true
  else if priority b <? priority a then false
  else (seq a <? seq b)%nat.

Inductive fut_state := Pending | Granted | Cancelled.
#[export] Instance fut_state_eq_dec : EqDecision fut_state.
Proof. solve_decision. Defined.

Inductive interruption := TimedOut | TaskCancelled.

Record WaitTask := mkWaitTask {
  task_session_id : string;
  interrupted : option interruption
}.

Record Scheduler := mkScheduler {
  capacity : Z;
  available : Z;
  session_timeout : ext;
  heap : list WaitItem;
  next_seq : nat;
  waiting : Z;
  session_first_active : gmap string Z;
  session_timeout_override : gmap string ext;
  futures : gmap nat fut_state;      (** by the [seq] of their item *)
  tasks : gmap nat WaitTask;         (** suspended in [acquire] *)
  held : Z                           (** slots held by callers *)
}.
#[export] Instance Scheduler_settable : Settable Scheduler :=
  λ s, mkScheduler (capacity s) (available s) (session_timeout s) (heap s) (next_seq s)
         (waiting s) (session_first_active s) (session_timeout_override s) (futures s)
         (tasks s) (held s).

Definition new_scheduler (max_concurrent : Z) (timeout : ext) : Scheduler :=
  mkScheduler max_concurrent max_concurrent timeout [] 0 0 ∅ ∅ ∅ ∅ 0.

Definition effective_timeout (s : Scheduler) (sid : string) : ext :=
  default (session_timeout s) (session_timeout_override s !! sid).

(** ** Waking and reaping *)
Fixpoint heappush (it : WaitItem) (h : list WaitItem) : list WaitItem :=
  match h with
  | [] => [it]
  | it' :: h' => if item_ltb it it' then it :: h else it' :: heappush it h'
  end.

Definition drop_dead_waiters (s : Scheduler) : Scheduler :=
  if decide (waiting s = 0) then s <| heap := [] |> else s.

(** The loop of [_wake_next_or_free]: pop until a future that is not done. *)
Fixpoint pop_pending (h : list WaitItem) (futs : gmap nat fut_state)
    : list WaitItem * option WaitItem :=
  match h with
  | [] => ([], None)
  | it :: h =>
      if decide (futs !! seq it = Some Pending) then (h, Some it) else pop_pending h futs
  end.

Definition wake_next_or_free (s : Scheduler) : Scheduler :=
  let '(h, woken) := pop_pending (heap s) (futures s) in
  let s := s <| heap := h |> in
  match woken with
  | Some it => s <| futures ::= insert (seq it) Granted |>
  | None => drop_dead_waiters (s <| available ::= λ n, n + 1 |>)
  end.

(** ** Acquire and release *)
Definition mark_first_active (sid : string) (now : Z) (m : gmap string Z) : gmap string Z :=
  if decide (sid ≠ "" ∧ m !! sid = None) then <[sid := now]> m else m.

(** [LLMSessionTimeoutError]: the session's window is over. *)
Definition session_exhausted (now : Z) (sid : string) (s : Scheduler) : bool :=
  bool_decide (sid ≠ "") &&
  match session_first_active s !! sid with
  | Some first => ext_ltb (effective_timeout s sid) (Fin (now - first))
  | None => false
  end.

Inductive acquire_result := SessionTimeout | Acquired | Suspended (n : nat).

Definition acquire (now : Z) (sid : string) (created_at : ext) (prio : Z) (s : Scheduler)
    : Scheduler * acquire_result :=
  if session_exhausted now sid s then (s, SessionTimeout)
  else if 0 <? available s then
    (s <| available ::= λ n, n - 1 |>
       <| session_first_active ::= mark_first_active sid now |>
       <| held ::= λ n, n + 1 |>, Acquired)
  else
    let n := next_seq s in
    (s <| next_seq := S n |>
       <| heap ::= heappush (mkWaitItem created_at prio n sid) |>
       <| waiting ::= λ n, n + 1 |>
       <| futures ::= insert n Pending |>
       <| tasks ::= insert n (mkWaitTask sid None) |>, Suspended n).

Definition release (s : Scheduler) : Scheduler :=
  wake_next_or_free (s <| held ::= λ n, n - 1 |>).

(** [Task.cancel] on a suspended task, by [wait_for]'s timer or by the task's
    owner. *)
Definition interrupt (n : nat) (why : interruption) (s : Scheduler) : Scheduler :=
  match tasks s !! n with
  | None => s
  | Some t =>
      s <| tasks ::= insert n (mkWaitTask (task_session_id t) (Some why)) |>
        <| futures ::= (λ f, if decide (f !! n = Some Pending)
                             then <[n := Cancelled]> f else f) |>
  end.

(** The rest of [acquire], when the loop resumes the task: its future is done
    or an exception is thrown into it.  A pending future keeps it asleep. *)
Definition resume (n : nat) (now : Z) (s : Scheduler) : Scheduler :=
  match tasks s !! n with
  | None => s
  | Some t =>
      let left := s <| tasks ::= delete n |> <| waiting ::= λ n, n - 1 |> in
      match interrupted t, futures s !! n with
      | Some TimedOut, Some Granted => drop_dead_waiters (wake_next_or_free left)
      | Some TimedOut, _ => drop_dead_waiters left
      | Some TaskCancelled, Some Granted => drop_dead_waiters (wake_next_or_free left)
      | Some TaskCancelled, Some Pending =>
          drop_dead_waiters (left <| futures ::= insert n Cancelled |>)
      | Some TaskCancelled, _ => drop_dead_waiters left
      | None, Some Granted =>
          left <| session_first_active ::= mark_first_active (task_session_id t) now |>
               <| held ::= λ n, n + 1 |>
      | None, _ => s
      end
  end.

(** ** Session budgets *)
Definition purge_session (sid : string) (s : Scheduler) : Scheduler :=
  s <| session_first_active ::= delete sid |> <| session_timeout_override ::= delete sid |>.

Definition reset_session_budget (sid : string) (s : Scheduler) : Scheduler :=
  if decide (sid = "") then s else purge_session sid s.

Definition session_seconds_remaining (now : Z) (sid : string) (s : Scheduler) : ext :=
  match session_first_active s !! sid with
  | None => Inf
  | Some first => ext_max0 (ext_sub (effective_timeout s sid) (now - first))
  end.

(** [if proposed > existing: override[sid] = proposed] *)
Definition raise_override (sid : string) (proposed : ext) (s : Scheduler) : Scheduler :=
  if ext_ltb (effective_timeout s sid) proposed
  then s <| session_timeout_override ::= insert sid proposed |> else s.

Definition elapsed_of (now : Z) (sid : string) (s : Scheduler) : Z :=
  match session_first_active s !! sid with None => 0 | Some first => now - first end.

Definition extend_session_budget (sid : string) (additional : ext) (s : Scheduler)
    : Scheduler * ext :=
  if decide (sid = "") then (s, session_timeout s) else
  let s := raise_override sid (ext_plus (session_timeout s) (ext_max0 additional)) s in
  (s, effective_timeout s sid).

Definition ensure_session_budget (now : Z) (sid : string) (min_remaining : ext) (s : Scheduler)
    : Scheduler * ext :=
  if decide (sid = "") then (s, session_timeout s) else
  let s := raise_override sid (ext_add (elapsed_of now sid s) (ext_max0 min_remaining)) s in
  (s, effective_timeout s sid).

(** [ceiling = Fin 0] (and a negative one) means none. *)
Definition renew_phase_budget (now : Z) (sid : string) (window ceiling : ext) (s : Scheduler)
    : Scheduler * ext :=
  if decide (sid = "") then (s, session_timeout s) else
  let elapsed := elapsed_of now sid s in
  let needed := ext_add elapsed (ext_max0 window) in
  let needed := if ext_ltb (Fin 0) ceiling then ext_min needed ceiling else needed in
  let s := raise_override sid needed s in
  (s, ext_max0 (ext_sub (effective_timeout s sid) elapsed)).

(** ** Steps

    Callers acquire, wait, give up, resume and release; the session manager
    moves budgets.  A caller releases only what it holds. *)
Inductive sched_step : Scheduler → Scheduler → Prop :=
| step_acquire now sid created prio s :
    sched_step s (acquire now sid created prio s).1
| step_release s : 0 < held s → sched_step s (release s)
| step_interrupt n why s : sched_step s (interrupt n why s)
| step_resume n now s : sched_step s (resume n now s)
| step_purge sid s : sched_step s (purge_session sid s)
| step_reset sid s : sched_step s (reset_session_budget sid s)
| step_extend sid a s : sched_step s (extend_session_budget sid a s).1
| step_ensure now sid m s : sched_step s (ensure_session_budget now sid m s).1
| step_renew now sid w c s : sched_step s (renew_phase_budget now sid w c s).1.

Definition sched_init (s : Scheduler) : Prop :=
  ∃ n timeout, 0 ≤ n ∧ s = new_scheduler n timeout.

(** ** The invariant *)
Definition granted (s : Scheduler) : gset nat :=
  filter (λ k, futures s !! k = Some Granted) (dom (tasks s)).
Definition sleeping (s : Scheduler) : gset nat :=
  filter (λ k, futures s !! k = Some Pending) (dom (tasks s)).

Definition before (a b : WaitItem) : Prop := item_ltb a b = true.

(** [c] is the number of slots accounted for: all of them between calls, one
    less while a call holds a slot it is about to pass on. *)
Record sched_inv_at (c : Z) (s : Scheduler) : Prop := {
  inv_slots : available s + held s + Z.of_nat (size (granted s)) = c;
  inv_available : 0 ≤ available s;
  inv_held : 0 ≤ held s;
  inv_waiting : waiting s = Z.of_nat (size (tasks s));
  inv_free : 0 < available s → sleeping s = ∅;
  inv_pending : ∀ k, futures s !! k = Some Pending → k ∈ dom (tasks s);
  inv_queued : ∀ k, k ∈ sleeping s → ∃ it, it ∈ heap s ∧ seq it = k;
  inv_sorted : StronglySorted before (heap s);
  inv_seq : Forall (λ it, seq it < next_seq s)%nat (heap s);
  inv_tasks : ∀ k t, tasks s !! k = Some t →
    (k < next_seq s)%nat ∧ (interrupted t ≠ None → futures s !! k ≠ Some Pending)
}.
Definition sched_inv (s : Scheduler) : Prop := sched_inv_at (capacity s) s.

Lemma elem_of_sleeping s k : k ∈ sleeping s ↔ futures s !! k = Some Pending ∧ k ∈ dom (tasks s).
Proof. unfold sleeping. by rewrite elem_of_filter. Qed.
Lemma elem_of_granted s k : k ∈ granted s ↔ futures s !! k = Some Granted ∧ k ∈ dom (tasks s).
Proof. unfold granted. by rewrite elem_of_filter. Qed.

Lemma ext_ltb_spec a b :
  match a, b with
  | Fin x, Fin y => ext_ltb a b = true ↔ x < y
  | Fin _, Inf => ext_ltb a b = true
  | Inf, _ => ext_ltb a b = false
  end.
Proof. destruct a, b; cbn; try done. apply Z.ltb_lt. Qed.

#[local] Arguments Nat.ltb : simpl never.
#[local] Arguments Z.ltb : simpl never.

Ltac ext_cases :=
  repeat match goal with
  | a : ext |- _ => destruct a
  | a : WaitItem |- _ => destruct a
  end; cbn in *;
  repeat (match goal with
  | H : context [Z.ltb ?a ?b] |- _ => destruct (Z.ltb_spec a b)
  | |- context [Z.ltb ?a ?b] => destruct (Z.ltb_spec a b)
  | H : context [Nat.ltb ?a ?b] |- _ => destruct (Nat.ltb_spec a b)
  | |- context [Nat.ltb ?a ?b] => destruct (Nat.ltb_spec a b)
  end; cbn in *; try done; try lia); try done; try lia.

Lemma before_trans a b c : before a b → before b c → before a c.
Proof. unfold before, item_ltb. intros. ext_cases. Qed.
Lemma before_irrefl a : ¬ before a a.
Proof. unfold before, item_ltb. intros H. ext_cases. Qed.
Lemma before_total a b : seq a ≠ seq b → item_ltb a b = false → before b a.
Proof. unfold before, item_ltb. intros. ext_cases. Qed.

Lemma heappush_elem it h x : x ∈ heappush it h ↔ x = it ∨ x ∈ h.
Proof.
  induction h as [|y h IH]; cbn; [set_solver|]. case_match; set_solver.
Qed.

Lemma heappush_sorted it h :
  StronglySorted before h → Forall (λ y, seq y ≠ seq it) h →
  StronglySorted before (heappush it h).
Proof.
  induction 1 as [|y h Hs IH Hy]; cbn; intros Hne; [by repeat constructor|].
  inversion Hne as [|? ? Hny Hnh]; subst.
  destruct (item_ltb it y) eqn:Hlt.
  - constructor; [by constructor|]. constructor; [done|].
    eapply Forall_impl; [exact Hy|]. intros z. by apply before_trans.
  - constructor; [by apply IH|]. rewrite Forall_forall in *.
    intros z [->|Hz]%heappush_elem; [|auto]. apply before_total; done.
Qed.

Lemma pop_pending_spec h futs h' woken :
  pop_pending h futs = (h', woken) →
  (∃ dead, h = dead ++ match woken with Some it => it :: h' | None => h' end ∧
     Forall (λ it, futs !! seq it ≠ Some Pending) dead) ∧
  (match woken with Some it => futs !! seq it = Some Pending | None => h' = [] end).
Proof.
  revert h' woken. induction h as [|it h IH]; intros h' woken; cbn.
  - intros [= <- <-]. split; [|done]. by exists [].
  - case_decide as Hp.
    + intros [= <- <-]. split; [|done]. by exists [].
    + intros ([dead [-> Hdead]] & Hw)%IH. split; [|done].
      exists (it :: dead). by split; [|constructor].
Qed.

Lemma StronglySorted_app_r {A} (R : A → A → Prop) l k :
  StronglySorted R (l ++ k) → StronglySorted R k.
Proof. induction l as [|x l IH]; cbn; [done|]. inversion 1; auto. Qed.

(** ** Preservation *)
Lemma drop_dead_inv c s : sched_inv_at c s → sched_inv_at c (drop_dead_waiters s).
Proof.
  intros H. unfold drop_dead_waiters. case_decide as Hw; [|done].
  assert (tasks s = ∅) as Ht.
  { apply map_size_empty_iff. pose proof (inv_waiting _ _ H). lia. }
  destruct H. split; cbn; try done.
  - intros k Hk%elem_of_sleeping. cbn in Hk. rewrite Ht, dom_empty_L in Hk. set_solver.
  - constructor.
Qed.

(** A slot in hand goes to a waiter or back to the pool. *)
Lemma wake_inv c s :
  sched_inv_at c s → sched_inv_at (c + 1) (wake_next_or_free s).
Proof.
  intros H. unfold wake_next_or_free.
  destruct (pop_pending (heap s) (futures s)) as [h woken] eqn:Hpop.
  apply pop_pending_spec in Hpop as [(dead & Hheap & Hdead) Hw]. destruct H.
  rewrite Forall_forall in Hdead.
  destruct woken as [it|].
  - assert (seq it ∉ granted s) as Hng by (rewrite elem_of_granted; intros [? _]; congruence).
    assert (granted (s <| heap := h |> <| futures ::= insert (seq it) Granted |>) =
            {[seq it]} ∪ granted s) as Hgr.
    { apply set_eq. intros k. rewrite elem_of_granted, elem_of_union, elem_of_singleton,
        elem_of_granted. cbn. rewrite lookup_insert_Some.
      split; [naive_solver|]. intros [->|[? ?]]; [eauto|].
      split; [|done]. right. split; [|done]. intros <-. congruence. }
    split; cbn in *; try done.
    + rewrite Hgr, size_union, size_singleton by set_solver. lia.
    + intros Hav%inv_free0. apply elem_of_equiv_empty_L. intros k Hk.
      assert (seq it ∈ sleeping s) by (apply elem_of_sleeping; auto). set_solver.
    + intros k. rewrite lookup_insert_Some. naive_solver.
    + intros k [Hk ?]%elem_of_sleeping. cbn in *. rewrite lookup_insert_Some in Hk.
      destruct Hk as [[_ ?]|[Hne Hk]]; [done|].
      destruct (inv_queued0 k) as (it' & Hin & <-); [by apply elem_of_sleeping|].
      exists it'. split; [|done]. rewrite Hheap, elem_of_app, elem_of_cons in Hin.
      destruct Hin as [?%Hdead|[->|?]]; done.
    + rewrite Hheap in inv_sorted0. apply StronglySorted_app_r in inv_sorted0.
      by inversion inv_sorted0.
    + rewrite Hheap, Forall_app, Forall_cons in inv_seq0. tauto.
    + intros k t Ht. destruct (inv_tasks0 k t Ht) as [? Hint]. split; [done|].
      intros Hi. rewrite lookup_insert_Some. intros [[? ?]|[_ ?]]; [done|]. by apply Hint.
  - subst h. rewrite app_nil_r in Hheap. subst dead.
    apply drop_dead_inv.
    assert (sleeping s = ∅) as Hno.
    { apply elem_of_equiv_empty_L. intros k Hk.
      destruct (inv_queued0 k Hk) as (it & ?%Hdead & <-).
      apply elem_of_sleeping in Hk as [? _]. done. }
    split; cbn in *; try done; try lia.
    + change (granted _) with (granted s). lia.
    + intros k Hk. change (k ∈ sleeping s) in Hk. set_solver.
    + constructor.
Qed.

Lemma inv_budgets c s f g :
  sched_inv_at c s →
  sched_inv_at c (s <| session_first_active ::= f |> <| session_timeout_override ::= g |>).
Proof. intros []. by split. Qed.
Lemma inv_first_active c s f :
  sched_inv_at c s → sched_inv_at c (s <| session_first_active ::= f |>).
Proof. intros []. by split. Qed.
Lemma inv_raise_override c s sid p : sched_inv_at c s → sched_inv_at c (raise_override sid p s).
Proof. intros []. unfold raise_override. by case_match; split. Qed.

Lemma capacity_drop_dead s : capacity (drop_dead_waiters s) = capacity s.
Proof. unfold drop_dead_waiters. by case_decide. Qed.
Lemma capacity_wake s : capacity (wake_next_or_free s) = capacity s.
Proof.
  unfold wake_next_or_free. destruct (pop_pending _ _) as [? []]; [done|].
  by rewrite capacity_drop_dead.
Qed.
Lemma capacity_raise_override sid p s : capacity (raise_override sid p s) = capacity s.
Proof. unfold raise_override. by case_match. Qed.

Lemma acquire_inv now sid created prio s :
  sched_inv s → sched_inv (acquire now sid created prio s).1.
Proof.
  intros H. unfold acquire. destruct (session_exhausted now sid s); [done|].
  destruct (Z.ltb_spec 0 (available s)) as [Hav|Hav]; cbn.
  - destruct H. split; cbn; try done; try lia.
    + change (granted _) with (granted s). lia.
    + intros _. by apply inv_free0.
  - set (n := next_seq s). destruct H.
    assert (n ∉ dom (tasks s)) as Hn.
    { intros [t Ht]%elem_of_dom. apply inv_tasks0 in Ht as [? _]. unfold n in *. lia. }
    set (s' := s <| next_seq := S n |> <| heap ::= _ |> <| waiting ::= _ |>
                 <| futures ::= _ |> <| tasks ::= _ |>).
    assert (granted s' = granted s) as Hgr.
    { apply set_eq. intros k. rewrite !elem_of_granted. subst s'. cbn.
      rewrite lookup_insert_Some, dom_insert, elem_of_union, elem_of_singleton. naive_solver. }
    assert (∀ k, k ∈ sleeping s' ↔ k = n ∨ k ∈ sleeping s) as Hsl.
    { intros k. rewrite !elem_of_sleeping. subst s'. cbn.
      rewrite lookup_insert_Some, dom_insert, elem_of_union, elem_of_singleton.
      destruct (decide (n = k)) as [->|]; naive_solver. }
    split; fold n; try done.
    + by rewrite Hgr.
    + subst s'. cbn. rewrite map_size_insert_None by (by apply not_elem_of_dom). lia.
    + subst s'. cbn. lia.
    + subst s'. cbn. intros k. rewrite lookup_insert_Some, dom_insert. set_solver.
    + intros k. rewrite Hsl. subst s'. cbn. intros [->|Hk].
      * eexists. rewrite heappush_elem. split; [by left|done].
      * destruct (inv_queued0 k Hk) as (it & ? & ?). exists it. by rewrite heappush_elem; auto.
    + subst s'. cbn. apply heappush_sorted; [done|]. cbn.
      eapply Forall_impl; [exact inv_seq0|]. cbn. intros it ?. unfold n. lia.
    + subst s'. cbn. rewrite Forall_forall in *. intros it [->|Hit]%heappush_elem; cbn.
      * lia.
      * apply inv_seq0 in Hit. unfold n. lia.
    + subst s'. cbn. intros k t. rewrite !lookup_insert_Some. intros [[<- <-]|[Hne Ht]].
      * cbn. split; [lia|done].
      * destruct (inv_tasks0 k t Ht) as [? Hi]. split; [unfold n; lia|]. naive_solver.
Qed.

Lemma release_inv s : 0 < held s → sched_inv s → sched_inv (release s).
Proof.
  intros Hheld H. unfold release, sched_inv. rewrite capacity_wake. cbn.
  replace (capacity s) with ((capacity s - 1) + 1) by lia. apply wake_inv.
  destruct H. split; cbn; try done; try lia.
  change (granted _) with (granted s). lia.
Qed.

Lemma interrupt_inv n why s : sched_inv s → sched_inv (interrupt n why s).
Proof.
  intros H. unfold interrupt. destruct (tasks s !! n) as [t|] eqn:Ht; [|done].
  destruct H.
  assert (n ∈ dom (tasks s)) as Hn by (by apply elem_of_dom_2 in Ht).
  set (s' := s <| tasks ::= _ |> <| futures ::= _ |>).
  assert (dom (tasks s') = dom (tasks s)) as Hdom
    by (subst s'; cbn; rewrite dom_insert_L; set_solver).
  assert (∀ k st, st ≠ Cancelled → futures s' !! k = Some st →
    futures s !! k = Some st) as Hfut.
  { intros k st Hst. subst s'. cbn. case_decide; [|done].
    rewrite lookup_insert_Some. naive_solver. }
  assert (granted s' = granted s) as Hgr.
  { apply set_eq. intros k. rewrite !elem_of_granted, Hdom.
    split; [naive_solver|]. intros [Hg ?]. split; [|done]. subst s'. cbn.
    case_decide; [|done]. rewrite lookup_insert_ne; [done|]. intros ->. congruence. }
  assert (sleeping s' ⊆ sleeping s) as Hsl.
  { intros k. rewrite !elem_of_sleeping, Hdom. naive_solver. }
  split; try done.
  - by rewrite Hgr.
  - subst s'. cbn. by rewrite map_size_insert_Some by eauto.
  - intros ?%inv_free0. set_solver.
  - intros k Hk. rewrite Hdom. apply inv_pending0. by eapply Hfut.
  - intros k Hk. apply inv_queued0. set_solver.
  - subst s'. cbn. intros k t'. rewrite lookup_insert_Some. intros [[<- <-]|[Hne Hk]]; cbn.
    + apply inv_tasks0 in Ht as [? _]. split; [done|]. intros _. case_decide; [|done].
      by rewrite lookup_insert_eq.
    + destruct (inv_tasks0 k t' Hk) as [? Hi]. split; [done|]. intros Hint. case_decide; [|auto].
      rewrite lookup_insert_ne by done. auto.
Qed.

(** The task leaves [acquire]: a slot it had been granted is now in hand. *)
Lemma leave_inv n t s :
  sched_inv s → tasks s !! n = Some t → futures s !! n ≠ Some Pending →
  sched_inv_at (capacity s - if decide (futures s !! n = Some Granted) then 1 else 0)
    (s <| tasks ::= delete n |> <| waiting ::= λ n, n - 1 |>).
Proof.
  intros H Ht Hnp. destruct H.
  set (s' := s <| tasks ::= _ |> <| waiting ::= _ |>).
  assert (n ∈ dom (tasks s)) as Hn by (by apply elem_of_dom_2 in Ht).
  assert (size (granted s') + (if decide (futures s !! n = Some Granted) then 1 else 0) =
          size (granted s))%nat as Hgr.
  { case_decide as Hg.
    - assert (granted s = {[n]} ∪ granted s') as ->.
      { apply set_eq. intros k. rewrite elem_of_union, elem_of_singleton, !elem_of_granted.
        subst s'. cbn. rewrite dom_delete. set_unfold. destruct (decide (k = n)); naive_solver. }
      rewrite size_union, size_singleton; [lia|]. intros k. rewrite elem_of_singleton.
      intros ->. rewrite elem_of_granted. subst s'. cbn. rewrite dom_delete. set_solver.
    - replace (granted s') with (granted s); [lia|]. apply set_eq. intros k.
      rewrite !elem_of_granted. subst s'. cbn. rewrite dom_delete. set_unfold. naive_solver. }
  assert (sleeping s' = sleeping s) as Hsl.
  { apply set_eq. intros k. rewrite !elem_of_sleeping. subst s'. cbn.
    rewrite dom_delete. set_unfold. naive_solver. }
  split; try done.
  - subst s'. cbn in *. case_decide; lia.
  - subst s'. cbn. rewrite map_size_delete_Some by eauto. rewrite inv_waiting0.
    assert (size (tasks s) ≠ 0%nat); [|lia].
    intros Hz%map_size_empty_inv. rewrite Hz in Ht. by rewrite lookup_empty in Ht.
  - by rewrite Hsl.
  - subst s'. cbn. intros k Hk. rewrite dom_delete. set_unfold. naive_solver.
  - by rewrite Hsl.
  - subst s'. cbn. intros k t'. rewrite lookup_delete_Some. naive_solver.
Qed.

Lemma resume_inv n now s : sched_inv s → sched_inv (resume n now s).
Proof.
  intros H. unfold resume. destruct (tasks s !! n) as [t|] eqn:Ht; [|done].
  cbv zeta. set (left := s <| tasks ::= _ |> <| waiting ::= _ |>).
  assert (interrupted t ≠ None → futures s !! n ≠ Some Pending) as Hint
    by (by destruct (inv_tasks _ _ H n t Ht)).
  assert (futures s !! n ≠ Some Pending →
    sched_inv_at (capacity s - if decide (futures s !! n = Some Granted) then 1 else 0) left)
    as Hleft by (by eapply leave_inv).
  assert (futures s !! n = Some Granted → sched_inv (drop_dead_waiters (wake_next_or_free left)))
    as Hpass.
  { intros Hg. unfold sched_inv. rewrite ?capacity_drop_dead, ?capacity_wake. cbn.
    replace (capacity s) with ((capacity s - 1) + 1) by lia.
    apply drop_dead_inv, wake_inv. rewrite Hg in Hleft. by apply Hleft. }
  assert (futures s !! n ≠ Some Granted → futures s !! n ≠ Some Pending →
    sched_inv (drop_dead_waiters left)) as Hdrop.
  { intros Hg Hp. unfold sched_inv. rewrite ?capacity_drop_dead, ?capacity_wake. apply drop_dead_inv. cbn.
    specialize (Hleft Hp). rewrite decide_False, Z.sub_0_r in Hleft by done. done. }
  destruct (interrupted t) as [[]|]; destruct (futures s !! n) as [[]|] eqn:Hf;
    try done; try (by apply Hpass); try (by apply Hdrop); try (exfalso; by apply Hint).
  specialize (Hleft ltac:(done)). rewrite decide_True in Hleft by done.
  destruct Hleft. cbn in *.
  split; cbn; try done; try lia.
  - change (granted _) with (granted left). lia.
Qed.

Lemma sched_step_inv s s' : sched_inv s → sched_step s s' → sched_inv s'.
Proof.
  intros H Hstep. revert H. destruct Hstep; intros Hinv;
    auto using acquire_inv, release_inv, interrupt_inv, resume_inv.
  - by apply inv_budgets.
  - unfold reset_session_budget. case_decide; [done|]. by apply inv_budgets.
  - unfold extend_session_budget. case_decide; [done|]. cbn.
    unfold sched_inv. rewrite capacity_raise_override. by apply inv_raise_override.
  - unfold ensure_session_budget. case_decide; [done|]. cbn.
    unfold sched_inv. rewrite capacity_raise_override. by apply inv_raise_override.
  - unfold renew_phase_budget. case_decide; [done|]. cbn.
    unfold sched_inv. rewrite capacity_raise_override. by apply inv_raise_override.
Qed.

Lemma sched_reachable_inv s : reachable sched_init sched_step s → sched_inv s.
Proof.
  apply stable_invariant; [|exact sched_step_inv].
  intros ? (n & timeout & ? & ->). split; cbn; try done; try lia.
  - assert (granted (new_scheduler n timeout) = ∅) as ->; [|rewrite size_empty; lia].
    apply elem_of_equiv_empty_L. intros k [_ Hk]%elem_of_granted. cbn in Hk. set_solver.
  - constructor.
Qed.

(** ** Properties *)

(** C26: No slot is lost or invented.  Whatever callers acquire, time out, are
    cancelled (even in the window between being granted a slot and running),
    resume and release, the free slots, the held ones and the ones granted
    to a caller that has not run yet add up to the capacity; [waiting] is the
    number of suspended callers; and a slot is never free while a caller
    sleeps, so a newcomer on the fast path overtakes nobody. *)
Theorem slots_conserved (s : Scheduler) :
  reachable sched_init sched_step s →
  available s + held s + Z.of_nat (size (granted s)) = capacity s ∧
  0 ≤ available s ∧ 0 ≤ held s ≤ capacity s ∧
  waiting s = Z.of_nat (size (tasks s)) ∧
  (0 < available s → sleeping s = ∅).
Proof. intros H%sched_reachable_inv. destruct H. split_and!; try done; lia. Qed.

(** A released slot goes to the best waiter.  If any caller sleeps, the
    slot is granted to the one first in the order (session creation, then
    priority, then arrival), nobody else moves and no slot becomes free; if
    nobody sleeps it returns to the pool. *)
Theorem release_wakes_best (s : Scheduler) :
  reachable sched_init sched_step s → 0 < held s →
  let s' := release s in
  (sleeping s = ∅ ∧ available s' = available s + 1 ∧ futures s' = futures s) ∨
  (∃ it, it ∈ heap s ∧ seq it ∈ sleeping s ∧
     (∀ it', it' ∈ heap s → seq it' ∈ sleeping s → it' = it ∨ before it it') ∧
     futures s' = <[seq it := Granted]> (futures s) ∧ available s' = available s).
Proof.
  intros H%sched_reachable_inv Hheld s'. subst s'. unfold release, wake_next_or_free.
  cbn [heap futures modify].
  destruct (pop_pending _ _) as [h woken] eqn:Hpop.
  apply pop_pending_spec in Hpop as [(dead & Hheap & Hdead) Hw].
  cbn in Hheap, Hdead, Hw. rewrite Forall_forall in Hdead.
  destruct woken as [it|].
  - right. exists it. split_and!; try done.
    + rewrite Hheap. set_solver.
    + apply elem_of_sleeping. split; [done|]. by apply (inv_pending _ _ H).
    + intros it' Hin [Hp _]%elem_of_sleeping.
      pose proof (inv_sorted _ _ H) as Hsort. rewrite Hheap in Hsort, Hin.
      apply StronglySorted_app_r in Hsort. inversion Hsort as [|? ? _ Hall]; subst.
      rewrite Forall_forall in Hall.
      apply elem_of_app in Hin as [?%Hdead|[->|?]%elem_of_cons]; auto; done.
  - left. subst h. rewrite app_nil_r in Hheap. subst dead. split_and!.
    + apply elem_of_equiv_empty_L. intros k Hk.
      destruct (inv_queued _ _ H k Hk) as (it & ?%Hdead & <-).
      apply elem_of_sleeping in Hk as [? _]. done.
    + unfold drop_dead_waiters. by case_decide.
    + unfold drop_dead_waiters. by case_decide.
Qed.

(** One slot, held; an old session's worker and orchestrator and a newer
    session queue for it, the newer one first; the orchestrator gives up. *)
Definition contended : Scheduler :=
  let s := (acquire 0 "a" (Fin 100) 0 (new_scheduler 1 (Fin 1800))).1 in
  let s := (acquire 1 "c" (Fin 200) 0 s).1 in
  let s := (acquire 2 "b" (Fin 100) 1 s).1 in
  let s := (acquire 3 "b" (Fin 100) 0 s).1 in
  interrupt 2 TimedOut s.

Lemma contended_reachable : reachable sched_init sched_step contended.
Proof.
  eexists. split; [exists 1, (Fin 1800); by split|]. unfold contended.
  do 5 (eapply rtc_r; [|constructor]). apply rtc_refl.
Qed.

Lemma slots_conserved_witness :
  waiting contended = 3 ∧
  available contended + held contended + Z.of_nat (size (granted contended)) = 1.
Proof. split; [reflexivity|]. apply (slots_conserved contended contended_reachable). Defined.

Lemma release_wakes_best_witness :
  futures (release contended) !! 1%nat = Some Granted ∧
  ((sleeping contended = ∅ ∧ available (release contended) = available contended + 1 ∧
     futures (release contended) = futures contended) ∨
   (∃ it, it ∈ heap contended ∧ seq it ∈ sleeping contended ∧
     (∀ it', it' ∈ heap contended → seq it' ∈ sleeping contended → it' = it ∨ before it it') ∧
     futures (release contended) = <[seq it := Granted]> (futures contended) ∧
     available (release contended) = available contended)).
Proof.
  split; [vm_compute; reflexivity|].
  apply (release_wakes_best contended contended_reachable). vm_compute. reflexivity.
Defined.

(** ** Budgets *)
Lemma ext_le_refl a : ext_le a a.
Proof. unfold ext_le. ext_cases. Qed.
Lemma ext_le_trans a b c : ext_le a b → ext_le b c → ext_le a c.
Proof. unfold ext_le. intros. ext_cases. Qed.

Lemma effective_raise sid p s :
  effective_timeout (raise_override sid p s) sid =
    if ext_ltb (effective_timeout s sid) p then p else effective_timeout s sid.
Proof.
  unfold raise_override. case_match; [|done].
  unfold effective_timeout. cbn. by rewrite lookup_insert_eq.
Qed.
Lemma effective_raise_ne sid sid' p s :
  sid ≠ sid' → effective_timeout (raise_override sid p s) sid' = effective_timeout s sid'.
Proof.
  intros. unfold raise_override. case_match; [|done].
  unfold effective_timeout. cbn. by rewrite lookup_insert_ne.
Qed.
Lemma effective_raise_ge sid p s :
  ext_le (effective_timeout s sid) (effective_timeout (raise_override sid p s) sid) ∧
  ext_le p (effective_timeout (raise_override sid p s) sid).
Proof.
  rewrite effective_raise. unfold ext_le.
  destruct (ext_ltb (effective_timeout s sid) p) eqn:E; [|split; [apply ext_le_refl|done]].
  split; [|apply ext_le_refl]. destruct (effective_timeout s sid), p; ext_cases.
Qed.
Lemma first_active_raise sid p s :
  session_first_active (raise_override sid p s) = session_first_active s.
Proof. unfold raise_override. by case_match. Qed.

Lemma ext_room e m t :
  ext_le (ext_add t (ext_max0 m)) e → ext_le (ext_max0 m) (ext_max0 (ext_sub e t)).
Proof. unfold ext_le. intros. ext_cases. Qed.

Lemma ext_not_over e m t : ext_le (ext_add t (ext_max0 m)) e → ext_ltb e (Fin t) = false.
Proof. unfold ext_le. intros. ext_cases. Qed.

(** [ensure_session_budget] does what its name says.  Right after it, the
    session has at least the requested time left on the clock (from its
    first slot on, when the clock has not started), a call to [acquire] at
    that moment is not refused for time, the cap never shrinks and no other
    session's cap moves. *)
Theorem ensure_gives_headroom (now : Z) (sid : string) (m : ext) (s : Scheduler) :
  sid ≠ "" →
  let s' := (ensure_session_budget now sid m s).1 in
  ext_le (ext_max0 m) (session_seconds_remaining now sid s') ∧
  session_exhausted now sid s' = false ∧
  ext_le (effective_timeout s sid) (effective_timeout s' sid) ∧
  (∀ sid', sid' ≠ sid → effective_timeout s' sid' = effective_timeout s sid') ∧
  (∀ t created prio, session_first_active s !! sid = None →
     (acquire t sid created prio s').2 = Acquired →
     ext_le (ext_max0 m) (session_seconds_remaining t sid (acquire t sid created prio s').1)).
Proof.
  intros Hsid s'. subst s'. unfold ensure_session_budget. rewrite decide_False by done. cbn [fst].
  set (p := ext_add _ _).
  destruct (effective_raise_ge sid p s) as [Hge Hp].
  split_and!; [| |done| |].
  - unfold session_seconds_remaining. rewrite first_active_raise. subst p. unfold elapsed_of in *.
    destruct (session_first_active s !! sid) as [first|]; [by apply ext_room|].
    unfold ext_le. by destruct (ext_max0 m).
  - unfold session_exhausted. rewrite bool_decide_true by done. rewrite first_active_raise.
    subst p. unfold elapsed_of in *. cbn.
    destruct (session_first_active s !! sid) as [first|]; [|done].
    by eapply ext_not_over.
  - intros. by apply effective_raise_ne.
  - intros t created prio Hnone. unfold acquire.
    destruct (session_exhausted _ _ _); [done|]. destruct (0 <? available _); [|done]. intros _.
    cbn. unfold session_seconds_remaining. cbn. rewrite first_active_raise.
    unfold mark_first_active. rewrite decide_True by done. rewrite lookup_insert_eq.
    rewrite Z.sub_diag. apply ext_room.
    subst p. unfold elapsed_of in *. rewrite Hnone in *. exact Hp.
Qed.

Lemma ensure_gives_headroom_witness :
  let s := (acquire 0 "a" Inf 2 (new_scheduler 1 (Fin 1800))).1 in
  ext_le (Fin 600) (session_seconds_remaining 5000 "a" (ensure_session_budget 5000 "a" (Fin 600) s).1)
  ∧ session_seconds_remaining 5000 "a" s = Fin 0.
Proof.
  split; [|reflexivity].
  apply (ensure_gives_headroom 5000 "a" (Fin 600)
    (acquire 0 "a" Inf 2 (new_scheduler 1 (Fin 1800))).1). done.
Defined.

(** A self-renewing phase cannot run for ever.  However many times a
    session renews its window, with whatever windows and at whatever times,
    its cap never exceeds the larger of the cap it started with and the
    ceiling; each renewal reports the seconds that are really left, and
    never lowers the cap. *)
Theorem renewals_bounded_by_ceiling (sid : string) (c : Z) (l : list (Z * ext)) (s : Scheduler) :
  sid ≠ "" → 0 < c →
  let renew s tw := (renew_phase_budget tw.1 sid tw.2 (Fin c) s).1 in
  let s' := foldl renew s l in
  (ext_le (effective_timeout s' sid) (effective_timeout s sid) ∨
   ext_le (effective_timeout s' sid) (Fin c)) ∧
  ext_le (effective_timeout s sid) (effective_timeout s' sid) ∧
  (∀ now w first, session_first_active s !! sid = Some first →
     (renew_phase_budget now sid w (Fin c) s').2 =
       session_seconds_remaining now sid (renew_phase_budget now sid w (Fin c) s').1).
Proof.
  intros Hsid Hc renew s'.
  assert (∀ s tw,
    ext_le (effective_timeout s sid) (effective_timeout (renew s tw) sid) ∧
    (effective_timeout (renew s tw) sid = effective_timeout s sid ∨
     ext_le (effective_timeout (renew s tw) sid) (Fin c)) ∧
    session_first_active (renew s tw) = session_first_active s) as Hstep.
  { intros s0 [t w]. subst renew. unfold renew_phase_budget. cbn.
    rewrite decide_False, (proj2 (Z.ltb_lt 0 c)) by done. cbn.
    set (p := ext_min _ _). rewrite first_active_raise. split_and!; [apply effective_raise_ge| |done].
    rewrite effective_raise. case_match; [right|by left].
    subst p. unfold ext_min, ext_le. destruct (ext_add _ _); cbn; [|apply Z.ltb_irrefl].
    destruct (c <? z) eqn:E; [apply Z.ltb_irrefl|done]. }
  assert (∀ l s, let s' := foldl renew s l in
    (ext_le (effective_timeout s' sid) (effective_timeout s sid) ∨
     ext_le (effective_timeout s' sid) (Fin c)) ∧
    ext_le (effective_timeout s sid) (effective_timeout s' sid) ∧
    session_first_active s' = session_first_active s) as Hall.
  { clear s s' l. induction l as [|tw l IH]; intros s; cbn.
    - split_and!; [left; apply ext_le_refl|apply ext_le_refl|done].
    - destruct (IH (renew s tw)) as (H1 & H2 & H3).
      destruct (Hstep s tw) as (H4 & H5 & H6). split_and!.
      + destruct H1 as [H1|]; [|by right].
        destruct H5 as [H5|]; [left; by rewrite H5 in H1|right; by eapply ext_le_trans].
      + by eapply ext_le_trans.
      + by rewrite H3. }
  destruct (Hall l s) as (H1 & H2 & H3). split_and!; [done|done|].
  intros now w first Hf. unfold renew_phase_budget. rewrite decide_False by done. cbn.
  unfold session_seconds_remaining. rewrite first_active_raise. fold s' in H3.
  unfold elapsed_of. by rewrite H3, Hf.
Qed.

Lemma renewals_bounded_by_ceiling_witness :
  let s := (acquire 0 "a" Inf 2 (new_scheduler 1 (Fin 1800))).1 in
  ext_le (effective_timeout
    (foldl (λ s tw, (renew_phase_budget tw.1 "a" tw.2 (Fin 5400) s).1) s
       [(1700, Fin 1800); (3400, Fin 1800); (5100, Fin 1800)]) "a") (Fin 5400).
Proof.
  cbv zeta.
  destruct (renewals_bounded_by_ceiling "a" 5400
    [(1700, Fin 1800); (3400, Fin 1800); (5100, Fin 1800)]
    (acquire 0 "a" Inf 2 (new_scheduler 1 (Fin 1800))).1) as [[H|H] _];
    [done|done| |exact H].
  exfalso. vm_compute in H. discriminate H.
Defined.
