(* ===== verification/Goals.v ===== *)
(** * Goals and the continuation outbox

    The goal tables of [db/models.py] ([create_goal] to
    [reconcile_orphan_goals]) and what the session manager does with them:
    [_maybe_enqueue_goal_continuation], [_limit_goal],
    [_renew_continuation_budget], [_admit_continuation] and
    [recover_goal_continuations] of [sessions/manager.py], the goal tools of
    [core/tools/builtin/goal_tools.py] and [_goal_budget_exceeded] of
    [core/agent.py].

    A table is the list of its rows in [id] order.  Each database call is one
    transaction: [ok = false] is a call SQLite refuses, which raises and
    leaves the tables as they were. *)
From S2P Require Import Prelude Events Session StateMachine Scheduler.
From stdpp Require Import pretty.
Local Open Scope Z_scope.

(** ** Rows *)
Inductive goal_status := GoalActive | GoalPaused | BudgetLimited | GoalComplete | GoalError.
#[export] Instance goal_status_eq_dec : EqDecision goal_status.
Proof. solve_decision. Defined.

Definition LIVE_STATUSES : list goal_status := [GoalActive; GoalPaused; BudgetLimited].

Record Goal := mkGoal {
  goal_id : Z;
  goal_session : string;
  objective : string;
  status : goal_status;
  token_budget : option Z;
  time_budget_s : option Z;
  continuation_budget : Z;
  continuations_used : Z;
  started_at : Z
}.
#[export] Instance Goal_settable : Settable Goal :=
  λ g, mkGoal (goal_id g) (goal_session g) (objective g) (status g) (token_budget g)
         (time_budget_s g) (continuation_budget g) (continuations_used g) (started_at g).

Inductive cont_status := CPending | CClaimed | CDispatched | CAbandoned.
#[export] Instance cont_status_eq_dec : EqDecision cont_status.
Proof. solve_decision. Defined.

Record Continuation := mkContinuation {
  cont_id : Z;
  cont_goal : Z;
  cont_session : string;
  ordinal : Z;
  cstatus : cont_status;
  prompt : string;
  checkpoint : string;
  attempts : Z;
  recovered : bool;
  outcome : option string
}.
#[export] Instance Continuation_settable : Settable Continuation :=
  λ c, mkContinuation (cont_id c) (cont_goal c) (cont_session c) (ordinal c) (cstatus c)
         (prompt c) (checkpoint c) (attempts c) (recovered c) (outcome c).

Record GoalDB := mkGoalDB {
  goals : list Goal;
  next_goal_id : Z;
  continuations : list Continuation;
  next_cont_id : Z;
  db_sessions : gset string
}.
#[export] Instance GoalDB_settable : Settable GoalDB :=
  λ d, mkGoalDB (goals d) (next_goal_id d) (continuations d) (next_cont_id d) (db_sessions d).

Definition empty_goal_db (sids : gset string) : GoalDB := mkGoalDB [] 1 [] 1 sids.

(** [UPDATE ... WHERE]: rewrite the rows the clause selects. *)
Definition update_where {A} (P : A → bool) (f : A → A) (l : list A) : list A :=
  (λ x, if P x then f x else x) <$> l.

Definition is_live (g : Goal) : bool := bool_decide (status g ∈ LIVE_STATUSES).

(** ** Goals *)
Definition get_active_goal (sid : string) (d : GoalDB) : option Goal :=
  last (filter (λ g, goal_session g = sid ∧ is_live g = true) (goals d)).
Definition get_goal (gid : Z) (d : GoalDB) : option Goal :=
  head (filter (λ g, goal_id g = gid) (goals d)).

Definition create_goal (ok : bool) (sid obj : string) (tokens time : option Z) (conts now : Z)
    (d : GoalDB) : GoalDB * result DbError (option Z) :=
  if negb ok then (d, Raise OperationalError)
  else match get_active_goal sid d with
  | Some _ => (d, Ret None)
  | None =>
      let gid := next_goal_id d in
      (d <| goals ::= λ l, l ++ [mkGoal gid sid (String.substring 0 4000 obj) GoalActive
                                   tokens time conts 0 now] |>
         <| next_goal_id := gid + 1 |>, Ret (Some gid))
  end.

(** [update_goal(goal_id, **fields)] for the fields its callers pass. *)
Record GoalFields := mkGoalFields {
  f_objective : option string;
  f_status : option goal_status;
  f_token_budget : option (option Z);
  f_time_budget_s : option (option Z);
  f_continuation_budget : option Z
}.
Definition apply_fields (f : GoalFields) (g : Goal) : Goal :=
  mkGoal (goal_id g) (goal_session g) (default (objective g) (f_objective f))
    (default (status g) (f_status f)) (default (token_budget g) (f_token_budget f))
    (default (time_budget_s g) (f_time_budget_s f))
    (default (continuation_budget g) (f_continuation_budget f))
    (continuations_used g) (started_at g).
Definition update_goal (ok : bool) (gid : Z) (f : GoalFields) (d : GoalDB)
    : GoalDB * result DbError unit :=
  if ok then (d <| goals ::= update_where (λ g, goal_id g =? gid) (apply_fields f) |>, Ret tt)
  else (d, Raise OperationalError).

Definition status_only (st : goal_status) : GoalFields :=
  mkGoalFields None (Some st) None None None.

Definition reconcile_orphan_goals (ok : bool) (d : GoalDB) : GoalDB * result DbError unit :=
  if ok then
    (d <| goals ::= update_where (λ g, is_live g && bool_decide (goal_session g ∉ db_sessions d))
                      (λ g, g <| status := GoalError |>) |>, Ret tt)
  else (d, Raise OperationalError).

(** ** The outbox *)
Definition CONTINUATION_RECOVERY_LIMIT : Z := 3.

(** One transaction: check the goal, debit it, insert the row.  The unique
    index on [(goal_id, ordinal)] turns a collision into [None]. *)
Definition enqueue_goal_continuation (ok : bool) (sid : string) (gid budget : Z)
    (prompt_for : Z → Z → string) (ckpt : string) (d : GoalDB)
    : GoalDB * result DbError (option Continuation) :=
  if negb ok then (d, Raise OperationalError) else
  match head (filter (λ g, goal_id g = gid ∧ goal_session g = sid) (goals d)) with
  | None => (d, Ret None)
  | Some g =>
      if negb (bool_decide (status g = GoalActive)) then (d, Ret None) else
      let used := continuations_used g in
      if (budget <=? 0) || (budget <=? used) then (d, Ret None) else
      let n := used + 1 in
      if existsb (λ c, (cont_goal c =? gid) && (ordinal c =? n)) (continuations d)
      then (d, Ret None) else
      let row := mkContinuation (next_cont_id d) gid sid n CPending (prompt_for n budget)
                   ckpt 0 false None in
      (d <| goals ::= update_where (λ g, goal_id g =? gid) (λ g, g <| continuations_used := n |>) |>
         <| continuations ::= λ l, l ++ [row] |>
         <| next_cont_id ::= λ n, n + 1 |>, Ret (Some row))
  end.

Definition get_goal_continuation (cid : Z) (d : GoalDB) : option Continuation :=
  head (filter (λ c, cont_id c = cid) (continuations d)).

Definition claim_goal_continuation (ok : bool) (cid : Z) (d : GoalDB)
    : GoalDB * result DbError (option Continuation) :=
  if negb ok then (d, Raise OperationalError)
  else if existsb (λ c, (cont_id c =? cid) && bool_decide (cstatus c = CPending)) (continuations d)
  then
    let d := d <| continuations ::= update_where
                    (λ c, (cont_id c =? cid) && bool_decide (cstatus c = CPending))
                    (λ c, c <| cstatus := CClaimed |> <| attempts ::= λ n, n + 1 |>) |> in
    (d, Ret (get_goal_continuation cid d))
  else (d, Ret None).

Inductive settlement := Dispatched | Abandoned.
Definition settlement_status (st : settlement) : cont_status :=
  match st with Dispatched => CDispatched | Abandoned => CAbandoned end.

Definition cont_open (c : Continuation) : bool :=
  bool_decide (cstatus c = CPending) || bool_decide (cstatus c = CClaimed).

Definition settle_goal_continuation (ok : bool) (cid : Z) (st : settlement) (out : string)
    (d : GoalDB) : GoalDB * result DbError unit :=
  if ok then
    (d <| continuations ::= update_where (λ c, (cont_id c =? cid) && cont_open c)
            (λ c, c <| cstatus := settlement_status st |> <| outcome := Some out |>) |>, Ret tt)
  else (d, Raise OperationalError).

(** One row of the boot sweep: its new value, and whether it is offered again. *)
Definition recover_row (c : Continuation) : Continuation * bool :=
  if negb (cont_open c) then (c, false)
  else if CONTINUATION_RECOVERY_LIMIT <=? attempts c then
    (c <| cstatus := CAbandoned |>
       <| outcome := Some ("abandoned after " +:+ pretty (attempts c) +:+ " recovery attempts — " +:+
            "the process died on this continuation every time") |>, false)
  else if decide (cstatus c = CClaimed) then
    (c <| cstatus := CPending |> <| recovered := true |>, true)
  else (c, true).

Definition recover_abandoned_continuations (ok : bool) (d : GoalDB)
    : GoalDB * result DbError (list Continuation) :=
  if ok then
    (d <| continuations ::= fmap (λ c, (recover_row c).1) |>,
     Ret ((λ c, (recover_row c).1) <$> filter (λ c, (recover_row c).2 = true) (continuations d)))
  else (d, Raise OperationalError).

(** ** The goal tools *)
Inductive goal_update_status := GuNone | GuActive | GuPaused.

Definition no_fields (f : GoalFields) : bool :=
  match f with mkGoalFields None None None None None => true | _ => false end.

(** [goal_update]; a negative number, an empty text or no status keeps the
    field.  [None] is the error text. *)
Definition goal_update (ok : bool) (sid obj : string) (st : goal_update_status)
    (tokens time conts : Z) (d : GoalDB) : GoalDB * result DbError bool :=
  match get_active_goal sid d with
  | None => (d, Ret false)
  | Some g =>
      let obj := py_strip obj in
      let opt_budget n := if n =? 0 then None else Some n in
      let f := mkGoalFields
        (if decide (obj = "") then None else Some obj)
        (match st with GuNone => None | GuActive => Some GoalActive | GuPaused => Some GoalPaused end)
        (if 0 <=? tokens then Some (opt_budget tokens) else None)
        (if 0 <=? time then Some (opt_budget time) else None)
        (if 0 <=? conts then Some conts else None) in
      if no_fields f then (d, Ret false) else
      match update_goal ok (goal_id g) f d with
      | (d, Ret _) => (d, Ret true)
      | (d, Raise e) => (d, Raise e)
      end
  end.

(** [goal_complete]: refused while a gate fails. *)
Definition goal_complete (ok : bool) (sid : string) (gates_pass : bool) (d : GoalDB)
    : GoalDB * result DbError bool :=
  match get_active_goal sid d with
  | None => (d, Ret false)
  | Some g =>
      if negb gates_pass then (d, Ret false) else
      match update_goal ok (goal_id g) (status_only GoalComplete) d with
      | (d, Ret _) => (d, Ret true)
      | (d, Raise e) => (d, Raise e)
      end
  end.

(** ** The session manager *)
Definition SECOND : Z := 1000000000.
Definition MAX_SESSION_WALL_CLOCK : Z := 24 * 3600 * SECOND.

(** [phase_budget_ceiling]: one window now, one per authorized phase, one per
    worker, a day at most. *)
Definition phase_budget_ceiling (base phases workers : Z) : ext :=
  if base <=? 0 then Inf
  else Fin (Z.min ((1 + Z.max 0 phases + Z.max 0 workers) * base) MAX_SESSION_WALL_CLOCK).

Inductive LimitReason :=
| TokenBudgetSpent (used budget : Z)
| TimeBudgetSpent (elapsed budget : Z)
| ContinuationBudgetSpent (used budget : Z).

Record GoalWorld := mkGoalWorld {
  gdb : GoalDB;
  sessions : gmap string AgentSession;        (** the manager's [_sessions] *)
  schedulers : list Scheduler;                (** one per provider *)
  limit_notices : list (Z * LimitReason)      (** goal-budget notices sent *)
}.
#[export] Instance GoalWorld_settable : Settable GoalWorld :=
  λ w, mkGoalWorld (gdb w) (sessions w) (schedulers w) (limit_notices w).

(** What a call reads from outside: clocks, settings, token accounting, and
    whether the database accepts a write. *)
Record GoalEnv := mkGoalEnv {
  ge_now : Z;                     (** wall clock, ns *)
  ge_mono : Z;                    (** [time.monotonic()], ns *)
  ge_db_ok : bool;
  ge_tokens : Z → Z;              (** [goal_token_usage(goal_id)] *)
  ge_llm_timeout : Z;             (** [settings.llm_session_timeout], ns *)
  ge_checkpoint : string;         (** [_continuation_checkpoint(...)] *)
  ge_lookup_ok : bool;            (** the reads of [_admit_continuation] *)
  ge_orphans : string → bool;     (** [_find_db_orphans(session)] is not empty *)
  ge_rehydrate : string → option AgentSession
                                  (** what [get_or_create] builds from the row *)
}.

(** [_renew_continuation_budget], through the router's schedulers. *)
Definition renew_continuation_budget (env : GoalEnv) (s : AgentSession) (budget : Z)
    (scheds : list Scheduler) : list Scheduler :=
  let base := ge_llm_timeout env in
  if base <=? 0 then scheds
  else
    let ceiling := phase_budget_ceiling base budget (Z.of_nat (length (worker_ids s))) in
    (λ sc, (renew_phase_budget (ge_mono env) (session_id s) (Fin base) ceiling sc).1) <$> scheds.

Definition limit_goal (env : GoalEnv) (g : Goal) (why : LimitReason) (w : GoalWorld)
    : GoalWorld * result DbError bool :=
  match update_goal (ge_db_ok env) (goal_id g) (status_only BudgetLimited) (gdb w) with
  | (d, Ret _) =>
      (w <| gdb := d |> <| limit_notices ::= λ l, l ++ [(goal_id g, why)] |>, Ret false)
  | (_, Raise e) => (w, Raise e)
  end.

(** A truthy budget. *)
Definition budget_set (b : option Z) : option Z :=
  match b with Some n => if n =? 0 then None else Some n | None => None end.

(** The token and time checks shared with [_goal_budget_exceeded]. *)
Definition spent (env : GoalEnv) (g : Goal) : option LimitReason :=
  match budget_set (token_budget g) with
  | Some n =>
      if n <=? ge_tokens env (goal_id g) then Some (TokenBudgetSpent (ge_tokens env (goal_id g)) n)
      else match budget_set (time_budget_s g) with
           | Some t => if t * SECOND <=? ge_now env - started_at g
                       then Some (TimeBudgetSpent ((ge_now env - started_at g) / SECOND) t) else None
           | None => None
           end
  | None =>
      match budget_set (time_budget_s g) with
      | Some t => if t * SECOND <=? ge_now env - started_at g
                  then Some (TimeBudgetSpent ((ge_now env - started_at g) / SECOND) t) else None
      | None => None
      end
  end.

Definition goal_budget_exceeded (env : GoalEnv) (gid : Z) (d : GoalDB) : option LimitReason :=
  match get_goal gid d with
  | Some g => if is_live g then spent env g else None
  | None => None
  end.

Definition nl : string := String.String (Ascii.ascii_of_nat 10) String.EmptyString.

Definition continuation_prompt (obj : string) (n cap : Z) : string :=
  "[goal continuation " +:+ pretty n +:+ "/" +:+ pretty cap +:+ "] The goal is still active:" +:+ nl
  +:+ obj +:+ nl +:+ nl
  +:+ "Continue working toward it, or report blockage with host-observable "
  +:+ "evidence — do not end the goal yourself. Use goal_complete only when "
  +:+ "the objective is met and its gates pass.".

Definition continuation_message (text : string) (cid : Z) : PendingMessage :=
  mkPendingMessage text None false 0 None true (Some cid).

Definition CONTINUABLE : list string := ["complete"; "round_ceiling"; "budget_exhausted"].

(** [_maybe_enqueue_goal_continuation]; the answer is whether a turn was
    queued. *)
Definition maybe_enqueue_goal_continuation (env : GoalEnv) (s : AgentSession) (w : GoalWorld)
    : GoalWorld * result DbError bool :=
  if negb (bool_decide (current_state s = FINALIZING)) then (w, Ret false) else
  if negb (bool_decide (termination_reason s ∈ Some <$> CONTINUABLE)) then (w, Ret false) else
  match pending_messages s with _ :: _ => (w, Ret false) | [] =>
  match get_active_goal (session_id s) (gdb w) with
  | None => (w, Ret false)
  | Some g =>
      if negb (bool_decide (status g = GoalActive)) then (w, Ret false) else
      match spent env g with Some why => limit_goal env g why w | None =>
      let budget := continuation_budget g in
      if budget <=? 0 then (w, Ret false) else
      if budget <=? continuations_used g then
        limit_goal env g (ContinuationBudgetSpent (continuations_used g) budget) w
      else
      let w := w <| schedulers ::= renew_continuation_budget env s budget |> in
      match enqueue_goal_continuation (ge_db_ok env) (session_id s) (goal_id g) budget
              (continuation_prompt (objective g)) (ge_checkpoint env) (gdb w) with
      | (_, Raise e) => (w, Raise e)
      | (_, Ret None) => (w, Ret false)
      | (d, Ret (Some row)) =>
          let s := s <| pending_messages ::= λ l, l ++ [continuation_message (prompt row) (cont_id row)] |> in
          let s := session_emit Inline (OtherEvent "goal.continuation") (ge_now env) s in
          (w <| gdb := d |> <| sessions ::= insert (session_id s) s |>, Ret true)
      end end
  end end.

(** A settlement inside [try: ... except Exception: logger.warning]. *)
Definition try_abandon (env : GoalEnv) (cid : Z) (why : string) (d : GoalDB) : GoalDB :=
  (settle_goal_continuation (ge_db_ok env) cid Abandoned why d).1.

Definition goal_state_name (g : option Goal) : string :=
  match g with
  | None => "gone"
  | Some g => match status g with
              | GoalActive => "active" | GoalPaused => "paused" | BudgetLimited => "budget_limited"
              | GoalComplete => "complete" | GoalError => "error" end
  end.

(** [_admit_continuation]; [s] is the session with [entry] popped. *)
Definition admit_continuation (env : GoalEnv) (s : AgentSession) (entry : PendingMessage)
    (d : GoalDB) : GoalDB * result DbError bool :=
  match continuation_id entry with
  | None => (d, Ret true)
  | Some cid =>
      let abandon why := (try_abandon env cid why d, Ret false) in
      if cancel_requested s then abandon "the user cancelled the session" else
      if negb (pause_event s) then abandon "the session is paused" else
      if negb (ge_lookup_ok env) then abandon "outbox lookup failed" else
      let goal := get_goal_continuation cid d ≫= λ row, get_goal (cont_goal row) d in
      if negb (bool_decide (status <$> goal = Some GoalActive)) then
        abandon ("goal is " +:+ goal_state_name goal +:+ ", not active") else
      if existsb (λ m, bool_decide (is_Some (msg_id m))) (pending_messages s) then
        abandon "a queued user message supersedes it" else
      match claim_goal_continuation (ge_db_ok env) cid d with
      | (d, Raise e) => (d, Raise e)
      | (d, Ret None) => (d, Ret false)
      | (d, Ret (Some _)) => (d, Ret true)
      end
  end.

(** The loop of [_process_pending]: pop until an entry is admitted. *)
Fixpoint drain (env : GoalEnv) (queue : list PendingMessage) (s : AgentSession) (d : GoalDB)
    : AgentSession * GoalDB * result DbError (option PendingMessage) :=
  match queue with
  | [] => (s <| pending_messages := [] |>, d, Ret None)
  | entry :: queue =>
      let s := s <| pending_messages := queue |> in
      match admit_continuation env s entry d with
      | (d, Raise e) => (s, d, Raise e)
      | (d, Ret true) => (s, d, Ret (Some entry))
      | (d, Ret false) => drain env queue s d
      end
  end.

(** [_process_pending], called from outside the session's own task: dispatch
    one turn from an idle session, then settle its claim. *)
Definition process_pending (env : GoalEnv) (s : AgentSession) (w : GoalWorld)
    : GoalWorld * result DbError (option PendingMessage) :=
  if negb (bool_decide (current_state s = IDLE_READY)) || task_live s ||
     bool_decide (sessions w !! session_id s = None)
  then (w, Ret None)
  else
  match drain env (pending_messages s) s (gdb w) with
  | (s, d, Ret (Some entry)) =>
      let s := s <| goal_continuation_active := is_goal_continuation entry |>
                 <| current_turn_user_msg_id ::=
                      (λ m, match msg_id entry with Some i => Some i | None => m end) |>
                 <| error := None |> <| termination_reason := None |>
                 <| task := Some false |> in
      let scheds :=
        match msg_id entry with
        | Some _ => reset_session_budget (session_id s) <$> schedulers w
        | None => schedulers w
        end in
      let d := match continuation_id entry with
               | Some cid => (settle_goal_continuation (ge_db_ok env) cid Dispatched
                                "turn started" d).1
               | None => d
               end in
      (w <| gdb := d |> <| sessions ::= insert (session_id s) s |> <| schedulers := scheds |>,
       Ret (Some entry))
  | (s, d, r) => (w <| gdb := d |> <| sessions ::= insert (session_id s) s |>, r)
  end.

Definition RECOVERED_PREAMBLE (checkpoint_line : string) : string :=
  "[recovered continuation] The server restarted while this continuation "
  +:+ "was running. Whatever it had started may have completed, may have "
  +:+ "half-completed, or may never have begun — the outcome was not "
  +:+ "recorded. Before doing anything: re-read the workspace, the files "
  +:+ "this task writes, and any command receipts or logs, and work out what "
  +:+ "the current state actually is. Do NOT re-run a command, re-apply a "
  +:+ "file write, or re-send an external request whose result you have not "
  +:+ "confirmed is missing. Then continue from the state you observed." +:+ nl
  +:+ checkpoint_line +:+ nl.

Definition recovered_message (row : Continuation) : string :=
  if recovered row then
    RECOVERED_PREAMBLE
      (if decide (checkpoint row = "") then "No checkpoint was recorded."
       else "Checkpoint at the time it was dispatched: " +:+ checkpoint row) +:+ prompt row
  else prompt row.

Definition get_or_create (env : GoalEnv) (sid : string) (w : GoalWorld) : option AgentSession :=
  match sessions w !! sid with
  | Some s => Some s
  | None => ge_rehydrate env sid
  end.

(** One row of [recover_goal_continuations]: [true] when it is queued again. *)
Definition recover_one (env : GoalEnv) (row : Continuation) (w : GoalWorld) : GoalWorld * bool :=
  let cid := cont_id row in
  let abandon why w := (w <| gdb ::= try_abandon env cid why |>, false) in
  let goal := get_goal (cont_goal row) (gdb w) in
  if negb (bool_decide (status <$> goal = Some GoalActive)) then
    abandon ("goal is " +:+ goal_state_name goal +:+ ", not active") w else
  match get_or_create env (cont_session row) w with
  | None => abandon "session no longer exists" w
  | Some s =>
      let w := w <| sessions ::= insert (cont_session row) s |> in
      if cancel_requested s || negb (pause_event s) then
        abandon "the session is cancelled or paused" w else
      if existsb (λ m, bool_decide (continuation_id m = Some cid)) (pending_messages s) then (w, false) else
      if ge_orphans env (cont_session row) then
        abandon "un-answered user direction is waiting — the user's words come first" w else
      let s := s <| pending_messages ::= λ l, l ++ [continuation_message (recovered_message row) cid] |> in
      (w <| sessions ::= insert (cont_session row) s |>, true)
  end.

Definition recover_fold (env : GoalEnv) (acc : GoalWorld * Z) (row : Continuation) : GoalWorld * Z :=
  let '(w, n) := acc in
  let '(w, queued) := recover_one env row w in (w, if (queued : bool) then n + 1 else n).

Definition recover_goal_continuations (env : GoalEnv) (w : GoalWorld) : GoalWorld * Z :=
  match recover_abandoned_continuations (ge_db_ok env) (gdb w) with
  | (_, Raise _) => (w, 0)
  | (d, Ret rows) =>
      foldl (recover_fold env) (w <| gdb := d |>, 0) rows
  end.

(** ** Runs of the tables *)
Inductive db_op :=
| DCreate (ok : bool) (sid obj : string) (tokens time : option Z) (conts now : Z)
| DUpdate (ok : bool) (sid obj : string) (st : goal_update_status) (tokens time conts : Z)
| DComplete (ok : bool) (sid : string) (gates_pass : bool)
| DLimit (ok : bool) (sid : string)
| DReconcile (ok : bool)
| DEnqueue (ok : bool) (sid : string) (gid budget : Z) (prompt_for : Z → Z → string)
    (ckpt : string)
| DClaim (ok : bool) (cid : Z)
| DSettle (ok : bool) (cid : Z) (st : settlement) (out : string)
| DRecover (ok : bool)
| DSessions (sids : gset string).

Definition run_db_op (d : GoalDB) (op : db_op) : GoalDB :=
  match op with
  | DCreate ok sid obj tokens time conts now => (create_goal ok sid obj tokens time conts now d).1
  | DUpdate ok sid obj st tokens time conts => (goal_update ok sid obj st tokens time conts d).1
  | DComplete ok sid gates => (goal_complete ok sid gates d).1
  | DLimit ok sid =>
      match get_active_goal sid d with
      | Some g => (update_goal ok (goal_id g) (status_only BudgetLimited) d).1
      | None => d
      end
  | DReconcile ok => (reconcile_orphan_goals ok d).1
  | DEnqueue ok sid gid budget pf ckpt => (enqueue_goal_continuation ok sid gid budget pf ckpt d).1
  | DClaim ok cid => (claim_goal_continuation ok cid d).1
  | DSettle ok cid st out => (settle_goal_continuation ok cid st out d).1
  | DRecover ok => (recover_abandoned_continuations ok d).1
  | DSessions sids => d <| db_sessions := sids |>
  end.

(** ** The invariant of the tables

    [goal_keys] and [cont_keys] are the columns no later update may change;
    most operations leave them alone. *)
Definition goal_keys (d : GoalDB) : list (Z * Z) :=
  (λ g, (goal_id g, continuations_used g)) <$> goals d.
Definition cont_keys (d : GoalDB) : list (Z * (Z * Z)) :=
  (λ c, (cont_id c, (cont_goal c, ordinal c))) <$> continuations d.
Definition ordinals (gid : Z) (keys : list (Z * (Z * Z))) : list Z :=
  (λ k, k.2.2) <$> filter (λ k, k.2.1 = gid) keys.

Definition attempts_ok (c : Continuation) : Prop :=
  0 ≤ attempts c ≤ 3 ∧ (cstatus c = CPending → attempts c ≤ 2).

Record goal_db_inv (d : GoalDB) : Prop := {
  gi_goal_ids : NoDup (goal_keys d).*1;
  gi_goal_next : Forall (λ k, k.1 < next_goal_id d) (goal_keys d);
  gi_cont_ids : NoDup (cont_keys d).*1;
  gi_cont_next : Forall (λ k, k.1 < next_cont_id d ∧ k.2.1 < next_goal_id d) (cont_keys d);
  gi_used : Forall (λ k, 0 ≤ k.2 ∧ ordinals k.1 (cont_keys d) = seqZ 1 k.2) (goal_keys d);
  gi_live : NoDup (goal_session <$> filter (λ g, is_live g = true) (goals d));
  gi_attempts : Forall attempts_ok (continuations d)
}.

Lemma update_where_map {A B} (P : A → bool) (f : A → A) (g : A → B) l :
  (∀ x, P x = true → g (f x) = g x) → g <$> update_where P f l = g <$> l.
Proof.
  intros Hf. unfold update_where. rewrite <-list_fmap_compose. apply list_fmap_ext.
  intros _ x _. unfold compose. destruct (P x) eqn:E; auto.
Qed.

Lemma Forall_update_where {A} (P : A → bool) (f : A → A) (Q : A → Prop) l :
  (∀ x, P x = true → Q x → Q (f x)) → Forall Q l → Forall Q (update_where P f l).
Proof.
  intros Hf Hl. unfold update_where. rewrite Forall_fmap. eapply Forall_impl; [exact Hl|].
  intros x ?. unfold compose. destruct (P x) eqn:E; auto.
Qed.

(** A row that is rewritten among distinct keys. *)
Lemma in_keys {A B} (g : A → B) x y l :
  NoDup (g <$> l) → x ∈ l → y ∈ l → g x = g y → x = y.
Proof.
  induction l as [|z l IH]; cbn; [set_solver|].
  rewrite NoDup_cons, list_elem_of_fmap. intros [Hz Hl].
  rewrite !elem_of_cons. intros [->|Hx] [->|Hy] Heq; auto; exfalso; apply Hz; eauto.
Qed.

Lemma elem_of_head_filter {A} (P : A → Prop) `{∀ x, Decision (P x)} l x :
  head (filter P l) = Some x → P x ∧ x ∈ l.
Proof.
  intros Hh. cut (x ∈ filter P l); [by intros ?%list_elem_of_filter|]. destruct (filter P l); [done|]. cbn in Hh.
  injection Hh as ->. left.
Qed.

Lemma elem_of_last_filter {A} (P : A → Prop) `{∀ x, Decision (P x)} l x :
  last (filter P l) = Some x → P x ∧ x ∈ l.
Proof. by intros ?%last_Some_elem_of%list_elem_of_filter. Qed.

Lemma get_active_goal_live sid d g :
  get_active_goal sid d = Some g → g ∈ goals d ∧ goal_session g = sid ∧ is_live g = true.
Proof. intros [[? ?] ?]%elem_of_last_filter. done. Qed.

(** Updates of goal rows: the keys stay, and the rewritten rows do not
    become live unless they were. *)
Lemma inv_update_goals P f d :
  (∀ g, P g = true → (goal_id (f g), continuations_used (f g)) = (goal_id g, continuations_used g)) →
  (∀ g, P g = true → goal_session (f g) = goal_session g) →
  (∀ g, g ∈ goals d → P g = true → is_live (f g) = true → is_live g = true) →
  goal_db_inv d → goal_db_inv (d <| goals ::= update_where P f |>).
Proof.
  intros Hk Hs Hl []. split; unfold goal_keys in *; cbn; try done;
    rewrite ?(update_where_map P f _ (goals d) Hk); try done.
  clear - Hs Hl gi_live0. induction (goals d) as [|g l IH]; [constructor|].
  change (update_where P f (g :: l)) with ((if P g then f g else g) :: update_where P f l).
  rewrite filter_cons in gi_live0 |- *.
  assert (∀ s, s ∈ goal_session <$> filter (λ g, is_live g = true) (update_where P f l) →
    s ∈ goal_session <$> filter (λ g, is_live g = true) l) as Hsub.
  { intros s (g' & -> & [Hlive Hin]%list_elem_of_filter)%list_elem_of_fmap.
    apply list_elem_of_fmap in Hin as (g0 & -> & Hin). apply list_elem_of_fmap.
    exists g0. destruct (P g0) eqn:E.
    - split; [by apply Hs|]. apply list_elem_of_filter. split; [|done].
      apply Hl; [by right|done|done].
    - split; [done|]. by apply list_elem_of_filter. }
  assert (NoDup (goal_session <$> filter (λ g, is_live g = true) l)) as Hnd.
  { case_decide; [by inversion gi_live0|done]. }
  specialize (IH (λ g Hg, Hl g (list_elem_of_further _ _ _ Hg)) Hnd).
  destruct (decide (is_live (if P g then f g else g) = true)) as [Hg|Hg]; [|done].
  cbn. constructor; [|done]. intros Hin%Hsub.
  assert (is_live g = true) as Hlg
    by (destruct (P g) eqn:E; [apply Hl; [left|done|done]|done]).
  rewrite decide_True in gi_live0 by done. inversion gi_live0 as [|? ? Hnin]; subst.
  apply Hnin. destruct (P g) eqn:E; [by rewrite Hs in Hin|done].
Qed.

(** Updates of outbox rows that keep the keys. *)
Lemma inv_update_conts d l :
  (λ c, (cont_id c, (cont_goal c, ordinal c))) <$> l = cont_keys d →
  Forall attempts_ok l → goal_db_inv d → goal_db_inv (d <| continuations := l |>).
Proof.
  intros Hk Hatt []. split; unfold cont_keys in *; cbn; rewrite ?Hk; done.
Qed.

Lemma create_goal_inv ok sid obj tokens time conts now d :
  goal_db_inv d → goal_db_inv (create_goal ok sid obj tokens time conts now d).1.
Proof.
  intros H. unfold create_goal. destruct ok; [|done]. cbn.
  destruct (get_active_goal sid d) as [g|] eqn:Hact; [done|]. cbn.
  destruct H. set (g0 := mkGoal _ _ _ _ _ _ _ _ _).
  assert (goal_keys (d <| goals ::= λ l, l ++ [g0] |> <| next_goal_id := next_goal_id d + 1 |>)
    = goal_keys d ++ [(next_goal_id d, 0)]) as Hkeys
    by (unfold goal_keys; cbn; by rewrite fmap_app).
  split; rewrite ?Hkeys; cbn; try done.
  - rewrite fmap_app. cbn. apply NoDup_app. split_and!; [done| |apply NoDup_singleton].
    intros k (k' & -> & Hk)%list_elem_of_fmap.
    rewrite Forall_forall in gi_goal_next0. apply gi_goal_next0 in Hk.
    rewrite list_elem_of_singleton. lia.
  - apply Forall_app. split; [eapply Forall_impl; [exact gi_goal_next0|]; cbn; lia|].
    constructor; [cbn; lia|constructor].
  - eapply Forall_impl; [exact gi_cont_next0|]. cbn. lia.
  - apply Forall_app. split; [done|]. constructor; [|constructor]. cbn.
    split; [lia|]. unfold cont_keys, ordinals in *. cbn in *.
    rewrite Forall_forall in gi_cont_next0.
    assert (filter (λ k : Z * (Z * Z), k.2.1 = next_goal_id d)
      ((λ c, (cont_id c, (cont_goal c, ordinal c))) <$> continuations d) = []) as ->; [|done].
    apply filter_none. intros k Hk Heq.
    apply gi_cont_next0 in Hk. lia.
  - rewrite filter_app. cbn. rewrite fmap_app. apply NoDup_app.
    split_and!; [done| |cbn; apply NoDup_singleton].
    intros s (g & -> & [Hlive Hin]%list_elem_of_filter)%list_elem_of_fmap.
    intros Heq%list_elem_of_singleton. cbn in Heq.
    unfold get_active_goal in Hact. apply last_None in Hact.
    assert (g ∈ filter (λ g, goal_session g = sid ∧ is_live g = true) (goals d)) as Hf
      by (by apply list_elem_of_filter).
    rewrite Hact in Hf. set_solver.
Qed.

Lemma seqZ_snoc n : 0 ≤ n → seqZ 1 (n + 1) = seqZ 1 n ++ [n + 1].
Proof.
  intros. rewrite seqZ_app by lia. f_equal.
  rewrite seqZ_cons, seqZ_nil by lia. f_equal. lia.
Qed.

Lemma ordinals_snoc gid l k :
  ordinals gid (l ++ [k]) = ordinals gid l ++ if decide (k.2.1 = gid) then [k.2.2] else [].
Proof. unfold ordinals. rewrite filter_app, fmap_app. cbn. by case_decide. Qed.

Lemma live_sessions_update P f l :
  (∀ g, goal_session (f g) = goal_session g ∧ is_live (f g) = is_live g) →
  goal_session <$> filter (λ g, is_live g = true) (update_where P f l) =
  goal_session <$> filter (λ g, is_live g = true) l.
Proof.
  intros Hf. induction l as [|g l IH]; [done|].
  change (update_where P f (g :: l)) with ((if P g then f g else g) :: update_where P f l).
  rewrite !filter_cons. destruct (Hf g) as [Hs Hl].
  destruct (P g); rewrite ?Hl; case_decide; cbn; rewrite ?Hs, ?IH; done.
Qed.

(** Debiting a goal rewrites one counter and no id. *)
Lemma debit_keys gid n gs :
  let debited := update_where (λ g, goal_id g =? gid) (λ g, g <| continuations_used := n |>) gs in
  ((λ g, (goal_id g, continuations_used g)) <$> debited) =
    ((λ k, if k.1 =? gid then (k.1, n) else k) <$> ((λ g, (goal_id g, continuations_used g)) <$> gs)).
Proof.
  unfold update_where. cbv zeta. rewrite <-!list_fmap_compose.
  apply list_fmap_ext. intros _ g _. unfold compose. cbn. by destruct (goal_id g =? gid).
Qed.
Lemma debited_ids gid n (ks : list (Z * Z)) :
  ((λ k, if k.1 =? gid then (k.1, n) else k) <$> ks).*1 = ks.*1.
Proof.
  rewrite <-list_fmap_compose. apply list_fmap_ext. intros _ k _.
  unfold compose. by destruct (k.1 =? gid).
Qed.

Lemma enqueue_inv ok sid gid budget pf ckpt d :
  goal_db_inv d → goal_db_inv (enqueue_goal_continuation ok sid gid budget pf ckpt d).1.
Proof.
  intros H. unfold enqueue_goal_continuation. destruct ok; [|done]. cbn [negb].
  destruct (head _) as [g|] eqn:Hg; [|done].
  apply elem_of_head_filter in Hg as [[Hid Hsid] Hin].
  destruct (negb _) eqn:Hact; [done|].
  destruct (_ || _) eqn:Hbudget; [done|]. destruct (existsb _ _) eqn:Hex; [done|].
  cbn. destruct H. set (n := continuations_used g + 1).
  set (row := mkContinuation _ _ _ _ _ _ _ _ _ _).
  set (d' := d <| goals ::= _ |> <| continuations ::= _ |> <| next_cont_id ::= _ |>).
  assert (cont_keys d' = cont_keys d ++ [(next_cont_id d, (gid, n))]) as Hck
    by (unfold cont_keys; subst d'; cbn; by rewrite fmap_app).
  assert (goal_keys d' = (λ k, if k.1 =? gid then (k.1, n) else k) <$> goal_keys d) as Hgk
    by apply debit_keys.
  assert ((goal_keys d').*1 = (goal_keys d).*1) as Hids by (rewrite Hgk; apply debited_ids).
  assert (0 ≤ continuations_used g ∧
          ordinals gid (cont_keys d) = seqZ 1 (continuations_used g)) as [Hpos Hord].
  { rewrite Forall_forall in gi_used0. rewrite <-Hid.
    apply (gi_used0 (goal_id g, continuations_used g)). apply list_elem_of_fmap. eauto. }
  assert (gid < next_goal_id d) as Hlt.
  { rewrite Forall_forall in gi_goal_next0. rewrite <-Hid.
    apply (gi_goal_next0 (goal_id g, continuations_used g)). apply list_elem_of_fmap. eauto. }
  split; rewrite ?Hck, ?Hids; try done.
  - rewrite Hgk, Forall_fmap. eapply Forall_impl; [exact gi_goal_next0|].
    intros k ?. unfold compose. by destruct (k.1 =? gid).
  - rewrite fmap_app. cbn. apply NoDup_app. split_and!; [done| |apply NoDup_singleton].
    intros k (k' & -> & Hk)%list_elem_of_fmap.
    rewrite Forall_forall in gi_cont_next0. apply gi_cont_next0 in Hk.
    rewrite list_elem_of_singleton. lia.
  - subst d'. cbn. apply Forall_app. split.
    + eapply Forall_impl; [exact gi_cont_next0|]. cbn. lia.
    + constructor; [cbn; lia|constructor].
  - rewrite Hgk, Forall_fmap. eapply Forall_impl; [exact gi_used0|].
    intros k [? Hk]. unfold compose. rewrite ordinals_snoc. cbn.
    destruct (Z.eqb_spec k.1 gid) as [Heq|Hne]; cbn.
    + split; [lia|]. subst n. rewrite seqZ_snoc by lia. rewrite Heq, decide_True by done.
      by rewrite Hord.
    + rewrite decide_False by done. by rewrite app_nil_r.
  - subst d'. cbn. rewrite live_sessions_update; [done|]. by intros [].
  - subst d'. cbn. apply Forall_app. split; [done|]. constructor; [|constructor].
    split; cbn; [lia|]. lia.
Qed.

Lemma update_goal_inv ok g f d :
  goal_db_inv d → g ∈ goals d → is_live g = true →
  goal_db_inv (update_goal ok (goal_id g) f d).1.
Proof.
  intros H Hg Hlive. unfold update_goal. destruct ok; [|done]. cbn.
  apply inv_update_goals; try done.
  intros g' Hin Heq%Z.eqb_eq _.
  assert (g' = g) as ->; [|done].
  apply (in_keys goal_id) with (l := goals d); try done.
  destruct H. unfold goal_keys in *. by rewrite <-list_fmap_compose in gi_goal_ids0.
Qed.

Lemma goal_update_inv ok sid obj st tokens time conts d :
  goal_db_inv d → goal_db_inv (goal_update ok sid obj st tokens time conts d).1.
Proof.
  intros H. unfold goal_update.
  destruct (get_active_goal sid d) as [g|] eqn:Hg; [|done].
  apply get_active_goal_live in Hg as (Hin & _ & Hlive).
  set (f := mkGoalFields _ _ _ _ _). clearbody f.
  pose proof (update_goal_inv ok g f d H Hin Hlive) as Hu.
  destruct (no_fields f); [exact H|].
  destruct (update_goal _ _ f d) as [d' [|]]; exact Hu.
Qed.

Lemma goal_complete_inv ok sid gates d :
  goal_db_inv d → goal_db_inv (goal_complete ok sid gates d).1.
Proof.
  intros H. unfold goal_complete.
  destruct (get_active_goal sid d) as [g|] eqn:Hg; [|done].
  apply get_active_goal_live in Hg as (Hin & _ & Hlive).
  destruct gates; [|done]. cbn [negb].
  pose proof (update_goal_inv ok g (status_only GoalComplete) d H Hin Hlive) as Hu.
  by destruct (update_goal ok (goal_id g) (status_only GoalComplete) d) as [d' [|]].
Qed.

Lemma limit_inv ok sid d : goal_db_inv d → goal_db_inv (run_db_op d (DLimit ok sid)).
Proof.
  intros H. cbn. destruct (get_active_goal sid d) as [g|] eqn:Hg; [|done].
  apply get_active_goal_live in Hg as (Hin & _ & Hlive). by apply update_goal_inv.
Qed.

Lemma reconcile_inv ok d : goal_db_inv d → goal_db_inv (reconcile_orphan_goals ok d).1.
Proof.
  intros H. unfold reconcile_orphan_goals. destruct ok; [|done]. cbn.
  by apply inv_update_goals.
Qed.

Lemma claim_inv ok cid d : goal_db_inv d → goal_db_inv (claim_goal_continuation ok cid d).1.
Proof.
  intros H. unfold claim_goal_continuation. destruct ok; [|done]. cbn [negb].
  destruct (existsb _ _); [|done]. cbn. apply inv_update_conts; [|eapply Forall_update_where|done].
  - unfold cont_keys. by apply update_where_map.
  - intros c [_ Hp%bool_decide_eq_true]%andb_prop [? Hc]. specialize (Hc Hp).
    split; cbn; [lia|done].
  - apply gi_attempts, H.
Qed.

Lemma settle_inv ok cid st out d :
  goal_db_inv d → goal_db_inv (settle_goal_continuation ok cid st out d).1.
Proof.
  intros H. unfold settle_goal_continuation. destruct ok; [|done]. cbn.
  apply inv_update_conts; [|eapply Forall_update_where|done].
  - unfold cont_keys. by apply update_where_map.
  - intros c _ [? _]. split; [done|]. by destruct st.
  - apply gi_attempts, H.
Qed.

Lemma recover_row_keys c :
  (cont_id (recover_row c).1, (cont_goal (recover_row c).1, ordinal (recover_row c).1)) =
  (cont_id c, (cont_goal c, ordinal c)).
Proof. unfold recover_row. by repeat case_match. Qed.

Lemma recover_row_attempts c : attempts_ok c → attempts_ok (recover_row c).1.
Proof.
  intros [? Hc]. unfold recover_row, CONTINUATION_RECOVERY_LIMIT.
  destruct (cont_open c); [|by split]. cbn. destruct (Z.leb_spec 3 (attempts c)).
  - by split.
  - case_decide; split; cbn; try done; intros; lia.
Qed.

Lemma recover_inv ok d : goal_db_inv d → goal_db_inv (recover_abandoned_continuations ok d).1.
Proof.
  intros H. unfold recover_abandoned_continuations. destruct ok; [|done]. cbn.
  apply inv_update_conts; [| |done].
  - rewrite <-list_fmap_compose. apply list_fmap_ext. intros _ c _. apply recover_row_keys.
  - rewrite Forall_fmap. eapply Forall_impl; [apply gi_attempts, H|]. apply recover_row_attempts.
Qed.

Lemma run_db_op_inv d op : goal_db_inv d → goal_db_inv (run_db_op d op).
Proof.
  intros H. destruct op; try (by apply limit_inv); cbn [run_db_op];
    auto using create_goal_inv, goal_update_inv, goal_complete_inv, reconcile_inv,
      enqueue_inv, claim_inv, settle_inv, recover_inv.
  by destruct H; split.
Qed.

Lemma run_db_ops_inv ops d : goal_db_inv d → goal_db_inv (foldl run_db_op d ops).
Proof. revert d. induction ops; cbn; auto using run_db_op_inv. Qed.

Lemma empty_goal_db_inv sids : goal_db_inv (empty_goal_db sids).
Proof. by split; cbn; try constructor. Qed.

(** ** Counting claims *)
Definition claims_of (cid : Z) (d : GoalDB) (op : db_op) : Z :=
  match op with
  | DClaim ok cid' =>
      if decide (cid' = cid) then
        match (claim_goal_continuation ok cid d).2 with Ret (Some _) => 1 | _ => 0 end
      else 0
  | _ => 0
  end.
Fixpoint total_claims (cid : Z) (d : GoalDB) (ops : list db_op) : Z :=
  match ops with
  | [] => 0
  | op :: ops => claims_of cid d op + total_claims cid (run_db_op d op) ops
  end.

(** The attempts column of a row, 0 when there is none. *)
Definition attempts_of (cid : Z) (l : list Continuation) : Z :=
  sumZ (attempts <$> filter (λ c, cont_id c = cid) l).

Lemma attempts_of_fmap cid f l :
  (∀ c, cont_id (f c) = cont_id c ∧ (cont_id c = cid → attempts (f c) = attempts c)) →
  attempts_of cid (f <$> l) = attempts_of cid l.
Proof.
  intros Hf. unfold attempts_of, sumZ. induction l as [|c l IH]; [done|].
  cbn [fmap list_fmap]. rewrite !filter_cons. destruct (Hf c) as [Hi Ha].
  rewrite Hi. case_decide; cbn; rewrite ?Ha by done; lia.
Qed.

Lemma filter_unique {A B} `{EqDecision B} (g : A → B) k l :
  NoDup (g <$> l) →
  filter (λ x, g x = k) l = [] ∨ ∃ x, filter (λ x, g x = k) l = [x] ∧ x ∈ l ∧ g x = k.
Proof.
  induction l as [|x l IH]; [by left|]. cbn [fmap list_fmap].
  intros [Hx Hnd]%NoDup_cons. rewrite filter_cons. case_decide as Hk.
  - right. exists x. rewrite filter_none; [split_and!; [done|left|done]|].
    intros y Hy Hgy. apply Hx, list_elem_of_fmap. exists y. split; [congruence|done].
  - destruct (IH Hnd) as [?|(y & ? & ? & ?)]; [by left|].
    right. exists y. split_and!; [done|by right|done].
Qed.

Lemma conts_by_id d cid :
  goal_db_inv d →
  filter (λ c, cont_id c = cid) (continuations d) = [] ∨
  ∃ c, filter (λ c, cont_id c = cid) (continuations d) = [c] ∧
       c ∈ continuations d ∧ cont_id c = cid.
Proof.
  intros []. apply filter_unique. unfold cont_keys in *.
  by rewrite <-list_fmap_compose in gi_cont_ids0.
Qed.

Lemma filter_update_where {A B} `{EqDecision B} (g : A → B) k P f l :
  (∀ x, g (f x) = g x) →
  filter (λ x, g x = k) (update_where P f l) = update_where P f (filter (λ x, g x = k) l).
Proof.
  intros Hf. induction l as [|x l IH]; [done|].
  change (update_where P f (x :: l)) with ((if P x then f x else x) :: update_where P f l).
  rewrite !filter_cons, IH.
  assert (g (if P x then f x else x) = g x) as -> by (destruct (P x); auto).
  by case_decide.
Qed.

(** What a claim does, by the row it finds. *)
Lemma claim_spec cid d :
  goal_db_inv d →
  (∃ c, c ∈ continuations d ∧ cont_id c = cid ∧ cstatus c = CPending ∧
     (claim_goal_continuation true cid d).2 =
       Ret (Some (c <| cstatus := CClaimed |> <| attempts ::= λ n, n + 1 |>)) ∧
     attempts_of cid (continuations (claim_goal_continuation true cid d).1) =
       attempts_of cid (continuations d) + 1) ∨
  ((∀ c, c ∈ continuations d → cont_id c = cid → cstatus c ≠ CPending) ∧
   claim_goal_continuation true cid d = (d, Ret None)).
Proof.
  intros H. unfold claim_goal_continuation. cbn [negb].
  destruct (existsb _ _) eqn:Hex.
  - left. apply existsb_exists in Hex as (c & Hc & [Hid%Z.eqb_eq Hp%bool_decide_eq_true]%andb_prop).
    apply list_elem_of_In in Hc. exists c. cbn. unfold get_goal_continuation, attempts_of. cbn.
    rewrite !filter_update_where by done.
    destruct (conts_by_id d cid H) as [Hnil|(c' & Hf & _ & _)].
    { assert (c ∈ filter (λ c, cont_id c = cid) (continuations d)) as Hc'
        by (by apply list_elem_of_filter). rewrite Hnil in Hc'. set_solver. }
    assert (c' = c) as ->.
    { assert (c ∈ filter (λ c, cont_id c = cid) (continuations d)) as Hc'
        by (by apply list_elem_of_filter). rewrite Hf in Hc'. set_solver. }
    rewrite Hf. cbn. rewrite Hid, Z.eqb_refl, bool_decide_true by done. cbn.
    split_and!; try done. lia.
  - right. split; [|done]. intros c Hc Hid Hp.
    assert (existsb (λ c, (cont_id c =? cid) && bool_decide (cstatus c = CPending))
      (continuations d) = true); [|congruence].
    apply existsb_exists. exists c. rewrite bool_decide_true, Hid, Z.eqb_refl by done.
    split; [|done]. by apply list_elem_of_In.
Qed.

Lemma attempts_of_claim_ne cid cid' ok d :
  cid' ≠ cid →
  attempts_of cid (continuations (claim_goal_continuation ok cid' d).1) =
  attempts_of cid (continuations d).
Proof.
  intros Hne. unfold claim_goal_continuation. destruct ok; [|done]. cbn [negb].
  destruct (existsb _ _); [|done]. cbn. apply attempts_of_fmap. intros c.
  destruct (Z.eqb_spec (cont_id c) cid'); [|done]. by case_match; split; intros; try congruence.
Qed.

Lemma attempts_of_step cid d op :
  goal_db_inv d →
  attempts_of cid (continuations (run_db_op d op)) =
  attempts_of cid (continuations d) + claims_of cid d op.
Proof.
  intros H. destruct op; cbn [run_db_op claims_of]; rewrite ?Z.add_0_r.
  - unfold create_goal. by repeat case_match.
  - unfold goal_update, update_goal. repeat case_match; simplify_eq; done.
  - unfold goal_complete, update_goal. repeat case_match; simplify_eq; done.
  - unfold update_goal. by repeat case_match.
  - unfold reconcile_orphan_goals. by case_match.
  - unfold enqueue_goal_continuation. repeat case_match; try done. cbn.
    unfold attempts_of. rewrite filter_app, fmap_app. unfold sumZ. rewrite foldr_app.
    cbn. by destruct (decide (next_cont_id d = cid)).
  - destruct (decide (cid0 = cid)) as [->|]; [|rewrite attempts_of_claim_ne by done; lia].
    destruct ok; [|cbn; lia].
    destruct (claim_spec cid d H) as [(c & _ & _ & _ & -> & ->)|[_ ->]]; cbn; lia.
  - unfold settle_goal_continuation. case_match; [|done]. cbn. apply attempts_of_fmap.
    intros c. by case_match.
  - unfold recover_abandoned_continuations. case_match; [|done]. cbn. apply attempts_of_fmap.
    intros c. unfold recover_row. by repeat case_match.
  - done.
Qed.

Lemma attempts_of_bound cid d : goal_db_inv d → 0 ≤ attempts_of cid (continuations d) ≤ 3.
Proof.
  intros H. unfold attempts_of. destruct (conts_by_id d cid H) as [->|(c & -> & Hc & _)]; cbn.
  - lia.
  - pose proof (gi_attempts _ H) as Hall. rewrite Forall_forall in Hall.
    destruct (Hall c Hc) as [? _]. lia.
Qed.

Lemma total_claims_attempts cid d ops :
  goal_db_inv d →
  attempts_of cid (continuations (foldl run_db_op d ops)) =
  attempts_of cid (continuations d) + total_claims cid d ops.
Proof.
  revert d. induction ops as [|op ops IH]; intros d H; cbn; [lia|].
  rewrite IH by (by apply run_db_op_inv). rewrite attempts_of_step by done. lia.
Qed.

(** ** Runs of the manager

    A crash loses every session object and scheduler but not the tables;
    [GSession] is any change another component makes to a session, its queue
    included; [GDb] is any other use of the tables. *)
Inductive goal_op :=
| GFinalize (env : GoalEnv) (sid : string)
| GDispatch (env : GoalEnv) (sid : string)
| GRecover (env : GoalEnv)
| GCrash
| GSession (sid : string) (s : AgentSession)
| GDb (op : db_op).

Definition run_goal_op (w : GoalWorld) (op : goal_op) : GoalWorld :=
  match op with
  | GFinalize env sid =>
      match sessions w !! sid with
      | Some s => (maybe_enqueue_goal_continuation env s w).1
      | None => w
      end
  | GDispatch env sid =>
      match sessions w !! sid with
      | Some s => (process_pending env s w).1
      | None => w
      end
  | GRecover env => (recover_goal_continuations env w).1
  | GCrash => w <| sessions := ∅ |> <| schedulers := [] |>
  | GSession sid s => w <| sessions ::= insert sid s |>
  | GDb op => w <| gdb ::= λ d, run_db_op d op |>
  end.

(** Turns started for continuation [cid] by one step. *)
Definition turns_of (cid : Z) (w : GoalWorld) (op : goal_op) : Z :=
  match op with
  | GDispatch env sid =>
      match sessions w !! sid with
      | Some s =>
          match (process_pending env s w).2 with
          | Ret (Some e) => if decide (continuation_id e = Some cid) then 1 else 0
          | _ => 0
          end
      | None => 0
      end
  | _ => 0
  end.
Fixpoint total_turns (cid : Z) (w : GoalWorld) (ops : list goal_op) : Z :=
  match ops with
  | [] => 0
  | op :: ops => turns_of cid w op + total_turns cid (run_goal_op w op) ops
  end.

(** [d'] comes from [d] by database calls, at least [n] of them successful
    claims of [cid]. *)
Definition by_db_ops (cid n : Z) (d d' : GoalDB) : Prop :=
  ∃ ops, d' = foldl run_db_op d ops ∧ n ≤ total_claims cid d ops.

Lemma claims_of_nonneg cid d op : 0 ≤ claims_of cid d op.
Proof. unfold claims_of. repeat case_match; lia. Qed.
Lemma total_claims_nonneg cid d ops : 0 ≤ total_claims cid d ops.
Proof.
  revert d. induction ops as [|op ops IH]; intros d; cbn; [lia|].
  pose proof (claims_of_nonneg cid d op). specialize (IH (run_db_op d op)). lia.
Qed.
Lemma total_claims_app cid d ops ops' :
  total_claims cid d (ops ++ ops') =
  total_claims cid d ops + total_claims cid (foldl run_db_op d ops) ops'.
Proof. revert d. induction ops as [|op ops IH]; intros d; cbn; rewrite ?IH; lia. Qed.

Lemma by_db_refl cid d : by_db_ops cid 0 d d.
Proof. exists []. split; [done|]. cbn. lia. Qed.
Lemma by_db_one cid d op : by_db_ops cid (claims_of cid d op) d (run_db_op d op).
Proof. exists [op]. split; [done|]. cbn. lia. Qed.
Lemma by_db_trans cid n m d d' d'' :
  by_db_ops cid n d d' → by_db_ops cid m d' d'' → by_db_ops cid (n + m) d d''.
Proof.
  intros (ops & -> & ?) (ops' & -> & ?). exists (ops ++ ops').
  rewrite foldl_app, total_claims_app. split; [done|lia].
Qed.
Lemma by_db_weaken cid n m d d' : m ≤ n → by_db_ops cid n d d' → by_db_ops cid m d d'.
Proof. intros ? (ops & -> & ?). exists ops. split; [done|lia]. Qed.
Lemma by_db_op cid d op : by_db_ops cid 0 d (run_db_op d op).
Proof. eapply by_db_weaken; [apply claims_of_nonneg|apply by_db_one]. Qed.

Lemma abandon_by_db cid env cid' why d : by_db_ops cid 0 d (try_abandon env cid' why d).
Proof. apply (by_db_op cid d (DSettle (ge_db_ok env) cid' Abandoned why)). Qed.

Lemma admit_by_db cid env s e d :
  by_db_ops cid
    (match (admit_continuation env s e d).2 with
     | Ret true => if decide (continuation_id e = Some cid) then 1 else 0 | _ => 0 end)
    d (admit_continuation env s e d).1.
Proof.
  unfold admit_continuation. destruct (continuation_id e) as [cid'|]; [|apply by_db_refl].
  destruct (cancel_requested s); [apply abandon_by_db|].
  destruct (negb (pause_event s)); [apply abandon_by_db|].
  destruct (negb (ge_lookup_ok env)); [apply abandon_by_db|].
  cbv zeta. destruct (negb _); [apply abandon_by_db|].
  destruct (existsb _ _); [apply abandon_by_db|].
  pose proof (by_db_one cid d (DClaim (ge_db_ok env) cid')) as H. cbn in H.
  destruct (decide (cid' = cid)) as [->|Hne].
  - rewrite (decide_True (P := Some cid = Some cid)) by done.
    by destruct (claim_goal_continuation (ge_db_ok env) cid d) as [d' [[c|]|]].
  - rewrite (decide_False (P := Some cid' = Some cid)) by congruence.
    by destruct (claim_goal_continuation (ge_db_ok env) cid' d) as [d' [[c|]|]].
Qed.

Lemma drain_by_db cid env q s d :
  by_db_ops cid
    (match (drain env q s d).2 with
     | Ret (Some e) => if decide (continuation_id e = Some cid) then 1 else 0 | _ => 0 end)
    d (drain env q s d).1.2.
Proof.
  revert s d. induction q as [|e q IH]; intros s d; cbn; [apply by_db_refl|].
  pose proof (admit_by_db cid env (s <| pending_messages := q |>) e d) as H.
  destruct (admit_continuation _ _ e d) as [d' [[|]|]]; cbn in *; [done| |done].
  replace (match _ with Ret _ => _ | Raise _ => _ end) with
    (0 + match (drain env q (s <| pending_messages := q |>) d').2 with
     | Ret (Some e) => if decide (continuation_id e = Some cid) then 1 else 0 | _ => 0 end) by done.
  eapply by_db_trans; [exact H|apply IH].
Qed.

Lemma process_pending_by_db cid env s w :
  by_db_ops cid
    (match (process_pending env s w).2 with
     | Ret (Some e) => if decide (continuation_id e = Some cid) then 1 else 0 | _ => 0 end)
    (gdb w) (gdb (process_pending env s w).1).
Proof.
  unfold process_pending. destruct (_ || _); [apply by_db_refl|].
  pose proof (drain_by_db cid env (pending_messages s) s (gdb w)) as H.
  destruct (drain _ _ s (gdb w)) as [[s' d'] [[e|]|]]; cbn in *; [|done|done].
  destruct (continuation_id e) as [cid'|]; [|done].
  rewrite <-(Z.add_0_r (if decide _ then 1 else 0)). eapply by_db_trans; [exact H|].
  apply (by_db_op cid d' (DSettle (ge_db_ok env) cid' Dispatched "turn started")).
Qed.

Lemma update_goal_by_db cid ok sid g d :
  get_active_goal sid d = Some g →
  by_db_ops cid 0 d (update_goal ok (goal_id g) (status_only BudgetLimited) d).1.
Proof.
  intros Hg. pose proof (by_db_op cid d (DLimit ok sid)) as H. cbn in H. by rewrite Hg in H.
Qed.

Lemma limit_goal_by_db cid env sid g why w :
  get_active_goal sid (gdb w) = Some g →
  by_db_ops cid 0 (gdb w) (gdb (limit_goal env g why w).1).
Proof.
  intros Hg. unfold limit_goal.
  pose proof (update_goal_by_db cid (ge_db_ok env) sid g (gdb w) Hg) as H.
  destruct (update_goal _ _ _ _) as [d [|]]; [done|]. apply by_db_refl.
Qed.

Lemma maybe_enqueue_by_db cid env s w :
  by_db_ops cid 0 (gdb w) (gdb (maybe_enqueue_goal_continuation env s w).1).
Proof.
  unfold maybe_enqueue_goal_continuation.
  destruct (negb _); [apply by_db_refl|]. destruct (negb _); [apply by_db_refl|].
  destruct (pending_messages s); [|apply by_db_refl].
  destruct (get_active_goal _ _) as [g|] eqn:Hg; [|apply by_db_refl].
  destruct (negb _); [apply by_db_refl|].
  destruct (spent env g); [by eapply limit_goal_by_db|]. cbv zeta.
  destruct (continuation_budget g <=? 0); [apply by_db_refl|].
  destruct (continuation_budget g <=? continuations_used g); [by eapply limit_goal_by_db|].
  pose proof (by_db_op cid (gdb w) (DEnqueue (ge_db_ok env) (session_id s) (goal_id g)
    (continuation_budget g) (continuation_prompt (objective g)) (ge_checkpoint env))) as H.
  cbn in H |- *.
  destruct (enqueue_goal_continuation _ _ _ _ _ _ _) as [d [[row|]|]]; [done|apply by_db_refl..].
Qed.

Lemma recover_one_by_db cid env row w :
  by_db_ops cid 0 (gdb w) (gdb (recover_one env row w).1).
Proof.
  unfold recover_one. destruct (negb _); [apply abandon_by_db|].
  destruct (get_or_create _ _ _) as [s|]; [|apply abandon_by_db].
  cbn. destruct (_ || _); [apply abandon_by_db|].
  destruct (existsb _ _); [apply by_db_refl|].
  destruct (ge_orphans _ _); [apply abandon_by_db|apply by_db_refl].
Qed.

Lemma recover_by_db cid env w :
  by_db_ops cid 0 (gdb w) (gdb (recover_goal_continuations env w).1).
Proof.
  unfold recover_goal_continuations.
  pose proof (by_db_op cid (gdb w) (DRecover (ge_db_ok env))) as H. cbn in H.
  destruct (recover_abandoned_continuations _ _) as [d [rows|]]; [|apply by_db_refl].
  cbn in H.
  assert (∀ rows acc, by_db_ops cid 0 (gdb acc.1) (gdb (foldl (recover_fold env) acc rows).1)) as Hf.
  { clear. induction rows as [|row rows IH]; intros [w n]; cbn; [apply by_db_refl|].
    pose proof (recover_one_by_db cid env row w) as H.
    destruct (recover_one env row w) as [w' q]. rewrite <-(Z.add_0_r 0).
    eapply by_db_trans; [exact H|apply (IH (w', _))]. }
  rewrite <-(Z.add_0_r 0). eapply by_db_trans; [exact H|apply Hf].
Qed.

(** Every step of the manager is made of database calls. *)
Lemma run_goal_op_by_db cid w op :
  by_db_ops cid (turns_of cid w op) (gdb w) (gdb (run_goal_op w op)).
Proof.
  destruct op as [env sid|env sid|env| |sid s|op]; cbn [turns_of run_goal_op].
  - destruct (sessions w !! sid); [apply maybe_enqueue_by_db|apply by_db_refl].
  - destruct (sessions w !! sid); [apply process_pending_by_db|apply by_db_refl].
  - apply recover_by_db.
  - apply by_db_refl.
  - apply by_db_refl.
  - apply by_db_op.
Qed.

Lemma run_goal_ops_by_db cid ops w :
  by_db_ops cid (total_turns cid w ops) (gdb w) (gdb (foldl run_goal_op w ops)).
Proof.
  revert w. induction ops as [|op ops IH]; intros w; cbn; [apply by_db_refl|].
  eapply by_db_trans; [apply run_goal_op_by_db|apply IH].
Qed.

Definition boot_world (sids : gset string) : GoalWorld :=
  mkGoalWorld (empty_goal_db sids) ∅ [] [].

Lemma goal_run_inv sids ops : goal_db_inv (gdb (foldl run_goal_op (boot_world sids) ops)).
Proof.
  destruct (run_goal_ops_by_db 0 ops (boot_world sids)) as (dops & -> & _).
  apply run_db_ops_inv, empty_goal_db_inv.
Qed.

(** ** Properties *)

(** C8: The continuation allowance is debited exactly once per outbox row.
    Whatever turns end, dispatch, crash and recover, and whatever the tools
    do to the goals, with SQLite failing at any call, a goal's rows carry
    the ordinals 1, 2, ..., [continuations_used] in order, row ids are
    unique, and a session has at most one live goal. *)
Theorem outbox_ordinals_exact (sids : gset string) (ops : list goal_op) :
  let d := gdb (foldl run_goal_op (boot_world sids) ops) in
  (∀ g, g ∈ goals d →
     ordinals (goal_id g) (cont_keys d) = seqZ 1 (continuations_used g)) ∧
  NoDup (cont_keys d).*1 ∧
  NoDup (goal_session <$> filter (λ g, is_live g = true) (goals d)).
Proof.
  intros d. destruct (goal_run_inv sids ops) as [_ _ ? _ Hused ? _].
  split_and!; [|done|done]. intros g Hg. rewrite Forall_forall in Hused.
  apply (Hused (goal_id g, continuations_used g)). apply list_elem_of_fmap. eauto.
Qed.

(** C10: A crash loop cannot replay a continuation for ever: across any number
    of crashes and recoveries, at most three turns are started for one
    outbox row. *)
Theorem continuation_started_at_most_thrice (sids : gset string) (ops : list goal_op) (cid : Z) :
  total_turns cid (boot_world sids) ops ≤ CONTINUATION_RECOVERY_LIMIT.
Proof.
  destruct (run_goal_ops_by_db cid ops (boot_world sids)) as (dops & Hd & Hn).
  pose proof (empty_goal_db_inv sids) as H0.
  pose proof (attempts_of_bound cid _ (goal_run_inv sids ops)) as Hb. rewrite Hd in Hb.
  cbn [gdb boot_world] in *. rewrite total_claims_attempts in Hb by done.
  unfold CONTINUATION_RECOVERY_LIMIT. cbn in Hb |- *. lia.
Qed.

Definition not_recover (op : db_op) : Prop := match op with DRecover _ => False | _ => True end.

Lemma pending_step d op c' :
  not_recover op → c' ∈ continuations (run_db_op d op) → cstatus c' = CPending →
  (∃ c, c ∈ continuations d ∧ cont_id c = cont_id c' ∧ cstatus c = CPending) ∨
  cont_id c' = next_cont_id d.
Proof.
  destruct op; cbn [run_db_op not_recover]; intros Hop.
  - unfold create_goal. repeat case_match; cbn; eauto.
  - unfold goal_update, update_goal. repeat case_match; simplify_eq; cbn; eauto.
  - unfold goal_complete, update_goal. repeat case_match; simplify_eq; cbn; eauto.
  - unfold update_goal. repeat case_match; cbn; eauto.
  - unfold reconcile_orphan_goals. case_match; cbn; eauto.
  - unfold enqueue_goal_continuation. repeat case_match; cbn; eauto.
    intros [?|Hx%list_elem_of_singleton]%elem_of_app; [eauto|]. subst. by right.
  - unfold claim_goal_continuation. repeat case_match; cbn; eauto.
    intros (c & -> & Hc)%list_elem_of_fmap. case_match; [done|eauto].
  - unfold settle_goal_continuation. repeat case_match; cbn; eauto.
    intros (c & -> & Hc)%list_elem_of_fmap. case_match; [by destruct st|eauto].
  - done.
  - eauto.
Qed.

Lemma next_cont_id_step d op : next_cont_id d ≤ next_cont_id (run_db_op d op).
Proof.
  destruct op; cbn [run_db_op].
  - unfold create_goal. repeat case_match; cbn; lia.
  - unfold goal_update, update_goal. repeat case_match; simplify_eq; cbn; lia.
  - unfold goal_complete, update_goal. repeat case_match; simplify_eq; cbn; lia.
  - unfold update_goal. repeat case_match; cbn; lia.
  - unfold reconcile_orphan_goals. case_match; cbn; lia.
  - unfold enqueue_goal_continuation. repeat case_match; cbn; lia.
  - unfold claim_goal_continuation. repeat case_match; cbn; lia.
  - unfold settle_goal_continuation. case_match; cbn; lia.
  - unfold recover_abandoned_continuations. case_match; cbn; lia.
  - cbn. lia.
Qed.

(** No pending row, and none will get this id again. *)
Definition taken (cid : Z) (d : GoalDB) : Prop :=
  cid < next_cont_id d ∧ ∀ c, c ∈ continuations d → cont_id c = cid → cstatus c ≠ CPending.

Lemma taken_step cid d op : not_recover op → taken cid d → taken cid (run_db_op d op).
Proof.
  intros Hop [Hlt Ht]. pose proof (next_cont_id_step d op). split; [lia|].
  intros c Hc Hid Hp.
  destruct (pending_step d op c Hop Hc Hp) as [(c0 & Hin & Hid0 & Hp0)|Hn].
  - apply (Ht c0); [done|congruence|done].
  - lia.
Qed.

Lemma taken_no_claims cid d ops :
  goal_db_inv d → taken cid d → Forall not_recover ops → total_claims cid d ops = 0.
Proof.
  revert d. induction ops as [|op ops IH]; intros d H Ht Hops; cbn; [done|].
  inversion Hops as [|? ? Hop Hops']; subst.
  rewrite IH by (auto using run_db_op_inv, taken_step).
  destruct op; cbn; try done. case_decide; [|done]. subst. destruct ok; [|done].
  destruct (claim_spec cid d H) as [(c & Hin & Hid & Hp & _)|[_ ->]]; [|done].
  by destruct (proj2 Ht c Hin Hid).
Qed.

(** A claim is exclusive.  Once a dispatcher has claimed a continuation,
    no other claim of it succeeds, whatever happens to the tables, until a
    boot recovers it. *)
Theorem claim_exclusive (sids : gset string) (ops : list db_op) (cid : Z) (row : Continuation)
    (later : list db_op) :
  let d := foldl run_db_op (empty_goal_db sids) ops in
  (claim_goal_continuation true cid d).2 = Ret (Some row) →
  Forall not_recover later →
  cstatus row = CClaimed ∧ cont_id row = cid ∧
  total_claims cid (claim_goal_continuation true cid d).1 later = 0.
Proof.
  intros d Hclaim Hlater.
  assert (goal_db_inv d) as H by apply run_db_ops_inv, empty_goal_db_inv.
  destruct (claim_spec cid d H) as [(c & Hin & Hid & Hp & Hr & _)|[_ Hno]];
    [|rewrite Hno in Hclaim; done].
  rewrite Hr in Hclaim. injection Hclaim as <-. split_and!; [done|done|].
  apply taken_no_claims; [by apply claim_inv| |done]. split.
  - pose proof (gi_cont_next _ H) as Hn. rewrite Forall_forall in Hn.
    assert ((cont_id c, (cont_goal c, ordinal c)) ∈ cont_keys d) as Hk
      by (apply list_elem_of_fmap; eauto).
    apply Hn in Hk. pose proof (next_cont_id_step d (DClaim true cid)). cbn in *. lia.
  - unfold claim_goal_continuation. cbn [negb]. case_match eqn:Hex.
    + cbn. intros c' (c0 & -> & Hc0)%list_elem_of_fmap Hid' Hp'.
      case_match eqn:Hm; [done|]. rewrite Hid', Z.eqb_refl, bool_decide_true in Hm by done. done.
    + intros c' Hc' Hid' Hp'. assert (existsb (λ c, (cont_id c =? cid) &&
        bool_decide (cstatus c = CPending)) (continuations d) = true); [|congruence].
      apply existsb_exists. exists c'. rewrite bool_decide_true, Hid', Z.eqb_refl by done.
      split; [|done]. by apply list_elem_of_In.
Qed.

(** Settlement is final: a continuation that was dispatched or abandoned
    keeps its row unchanged whatever the program does afterwards. *)
Theorem settled_is_final (c : Continuation) (ops : list db_op) (d : GoalDB) :
  c ∈ continuations d → cont_open c = false →
  c ∈ continuations (foldl run_db_op d ops).
Proof.
  intros Hc Hopen. revert d Hc. induction ops as [|op ops IH]; intros d Hc; [done|].
  apply IH. assert (bool_decide (cstatus c = CPending) = false) as Hp
    by (unfold cont_open in Hopen; by apply orb_false_elim in Hopen as [? _]).
  destruct op; cbn [run_db_op].
  - unfold create_goal. by repeat case_match.
  - unfold goal_update, update_goal. repeat case_match; simplify_eq; done.
  - unfold goal_complete, update_goal. repeat case_match; simplify_eq; done.
  - unfold update_goal. by repeat case_match.
  - unfold reconcile_orphan_goals. by case_match.
  - unfold enqueue_goal_continuation. repeat case_match; try done. cbn. set_solver.
  - unfold claim_goal_continuation. repeat case_match; try done. cbn.
    apply list_elem_of_fmap. exists c. by rewrite Hp, andb_false_r.
  - unfold settle_goal_continuation. case_match; [|done]. cbn.
    apply list_elem_of_fmap. exists c. by rewrite Hopen, andb_false_r.
  - unfold recover_abandoned_continuations. case_match; [|done]. cbn.
    apply list_elem_of_fmap. exists c. unfold recover_row. by rewrite Hopen.
  - done.
Qed.

(** A goal with two continuations; the first one is claimed, then settled. *)
Definition demo_ops : list db_op :=
  [DCreate true "s" "write the report" None None 2 0;
   DEnqueue true "s" 1 2 (continuation_prompt "write the report") "" ].
Definition demo_db : GoalDB := Eval vm_compute in foldl run_db_op (empty_goal_db {["s"]}) demo_ops.
Definition demo_claimed : Continuation :=
  Eval vm_compute in
    match (claim_goal_continuation true 1 demo_db).2 with
    | Ret (Some c) => c
    | _ => mkContinuation 0 0 "" 0 CPending "" "" 0 false None
    end.

Lemma claim_exclusive_witness :
  cont_id demo_claimed = 1 ∧
  total_claims 1
    (claim_goal_continuation true 1 (foldl run_db_op (empty_goal_db {["s"]}) demo_ops)).1
    [DClaim true 1; DSettle false 1 Dispatched ""; DClaim true 1] = 0.
Proof.
  split; [reflexivity|].
  refine (proj2 (proj2 (claim_exclusive {["s"]} demo_ops 1 demo_claimed
    [DClaim true 1; DSettle false 1 Dispatched ""; DClaim true 1] _ _))).
  - vm_compute. reflexivity.
  - repeat constructor.
Defined.

Lemma settled_is_final_witness :
  let c := demo_claimed <| cstatus := CDispatched |> in
  let d := demo_db <| continuations := [c] |> in
  c ∈ continuations (foldl run_db_op d [DRecover true; DClaim true 1; DSettle true 1 Abandoned ""]).
Proof.
  intros c d.
  apply (settled_is_final c [DRecover true; DClaim true 1; DSettle true 1 Abandoned ""] d);
    [left|reflexivity].
Defined.

(** What the end of a turn may queue. *)
Definition enqueue_outcome (env : GoalEnv) (s : AgentSession) (w w' : GoalWorld)
    (r : result DbError bool) : Prop :=
  match r with
  | Ret true => ∃ g row,
      get_active_goal (session_id s) (gdb w) = Some g ∧ status g = GoalActive ∧
      current_state s = FINALIZING ∧ pending_messages s = [] ∧
      termination_reason s ∈ Some <$> CONTINUABLE ∧ spent env g = None ∧
      continuations_used g < continuation_budget g ∧
      continuations (gdb w') = continuations (gdb w) ++ [row] ∧
      cont_goal row = goal_id g ∧ ordinal row = continuations_used g + 1 ∧
      cstatus row = CPending ∧
      (goal_id g, continuations_used g + 1) ∈ goal_keys (gdb w') ∧
      ∃ s', sessions w' !! session_id s = Some s' ∧
        pending_messages s' = [continuation_message (prompt row) (cont_id row)]
  | Ret false =>
      continuations (gdb w') = continuations (gdb w) ∧
      goal_keys (gdb w') = goal_keys (gdb w) ∧ sessions w' = sessions w
  | Raise _ => gdb w' = gdb w ∧ sessions w' = sessions w
  end.

Lemma update_goal_frame ok gid f d :
  continuations (update_goal ok gid f d).1 = continuations d ∧
  goal_keys (update_goal ok gid f d).1 = goal_keys d.
Proof.
  unfold update_goal. destruct ok; [|done]. split; [done|]. unfold goal_keys. cbn.
  by apply update_where_map.
Qed.

Lemma limit_goal_outcome env s g why w :
  enqueue_outcome env s w (limit_goal env g why w).1 (limit_goal env g why w).2.
Proof.
  unfold limit_goal.
  destruct (update_goal_frame (ge_db_ok env) (goal_id g) (status_only BudgetLimited) (gdb w)).
  destruct (update_goal _ _ _ _) as [d [|]]; cbn in *; done.
Qed.

Lemma enqueue_spec ok sid g budget pf ckpt d :
  goal_db_inv d → g ∈ goals d → goal_session g = sid →
  match enqueue_goal_continuation ok sid (goal_id g) budget pf ckpt d with
  | (d', Ret (Some row)) =>
      status g = GoalActive ∧ continuations_used g < budget ∧
      continuations d' = continuations d ++ [row] ∧ cont_goal row = goal_id g ∧
      ordinal row = continuations_used g + 1 ∧ cstatus row = CPending ∧
      (goal_id g, continuations_used g + 1) ∈ goal_keys d'
  | (d', _) => d' = d
  end.
Proof.
  intros H Hg Hs. unfold enqueue_goal_continuation. destruct ok; [|done]. cbn [negb].
  destruct (head _) as [g'|] eqn:Hh; [|done].
  apply elem_of_head_filter in Hh as [[Hid _] Hin].
  assert (g' = g) as ->.
  { apply (in_keys goal_id) with (l := goals d); try done.
    destruct H. unfold goal_keys in *. by rewrite <-list_fmap_compose in gi_goal_ids0. }
  destruct (negb _) eqn:Hact; [done|]. destruct (_ || _) eqn:Hb; [done|].
  destruct (existsb _ _); [done|]. breflect. cbn.
  split_and!; try done.
  - unfold goal_keys. cbn. apply list_elem_of_fmap.
    exists (g <| continuations_used := continuations_used g + 1 |>). split; [done|].
    apply list_elem_of_fmap. exists g. by rewrite Z.eqb_refl.
Qed.

(** The end of a turn queues a continuation only when it may, and pays for
    it in the same transaction.  One is queued only for an active goal with
    allowance, token and time left, after a turn that ended cleanly in
    FINALIZING with no user message waiting; then exactly one outbox row is
    added, carrying the next ordinal, the goal is debited and the session's
    queue is that one message.  Otherwise the outbox, the debits and the
    sessions do not change. *)
Theorem maybe_enqueue_outcome (sids : gset string) (ops : list goal_op) (env : GoalEnv)
    (s : AgentSession) :
  let w := foldl run_goal_op (boot_world sids) ops in
  enqueue_outcome env s w (maybe_enqueue_goal_continuation env s w).1
    (maybe_enqueue_goal_continuation env s w).2.
Proof.
  intros w. pose proof (goal_run_inv sids ops : goal_db_inv (gdb w)) as H.
  unfold maybe_enqueue_goal_continuation.
  destruct (negb _) eqn:Hst; [done|]. destruct (negb (bool_decide (_ ∈ _))) eqn:Hterm; [done|].
  destruct (pending_messages s) eqn:Hpend; [|done].
  destruct (get_active_goal _ _) as [g|] eqn:Hg; [|done].
  destruct (negb (bool_decide (status g = _))) eqn:Hact; [done|].
  destruct (spent env g) eqn:Hsp; [apply limit_goal_outcome|]. cbv zeta.
  destruct (continuation_budget g <=? 0); [done|].
  destruct (continuation_budget g <=? continuations_used g); [apply limit_goal_outcome|].
  apply get_active_goal_live in Hg as Hg'. destruct Hg' as (Hin & Hsess & _).
  pose proof (enqueue_spec (ge_db_ok env) (session_id s) g (continuation_budget g)
    (continuation_prompt (objective g)) (ge_checkpoint env) (gdb w) H Hin Hsess) as He.
  cbn [gdb modify]. breflect.
  destruct (enqueue_goal_continuation _ _ _ _ _ _ _) as [d [[row|]|]]; [|done|done].
  destruct He as (? & ? & ? & ? & ? & ? & ?). cbn.
  exists g, row. split_and!; try done.
  eexists. split; [apply lookup_insert_eq|]. cbn. by rewrite Hpend.
Qed.

(** ** Boot recovery *)
Definition queued (w : GoalWorld) (sid : string) (cid : Z) : Prop :=
  ∃ s m, sessions w !! sid = Some s ∧ m ∈ pending_messages s ∧ continuation_id m = Some cid.

(** After the rows before [rest] were handled. *)
Definition recovering (rest : list Continuation) (w : GoalWorld) : Prop :=
  ∀ c, c ∈ continuations (gdb w) →
    cstatus c ≠ CClaimed ∧
    (cstatus c = CPending →
       (∃ r, r ∈ rest ∧ cont_id r = cont_id c ∧ cont_session r = cont_session c) ∨
       queued w (cont_session c) (cont_id c)).

(** The session a row is offered to, with at least the queue it had. *)
Lemma queued_mono w w' :
  (∀ sid s, sessions w !! sid = Some s →
     ∃ s', sessions w' !! sid = Some s' ∧ pending_messages s ⊆ pending_messages s') →
  ∀ sid cid, queued w sid cid → queued w' sid cid.
Proof.
  intros Hs sid cid (s & m & Hl & Hm & Hc). destruct (Hs sid s Hl) as (s' & Hl' & Hsub).
  exists s', m. split_and!; [done|by apply Hsub|done].
Qed.

Lemma abandon_recovering env row rest why w w' :
  ge_db_ok env = true →
  gdb w' = try_abandon env (cont_id row) why (gdb w) →
  (∀ sid cid, queued w sid cid → queued w' sid cid) →
  recovering (row :: rest) w → recovering rest w'.
Proof.
  intros Hok Hd Hq Hrec c'. rewrite Hd. unfold try_abandon, settle_goal_continuation.
  rewrite Hok. cbn. intros (c & -> & Hc)%list_elem_of_fmap.
  destruct (Hrec c Hc) as [Hcl Hp]. destruct (_ && _) eqn:Hm; cbn; [done|].
  split; [done|]. intros Hpend. destruct (Hp Hpend) as [(r & Hr & Hid & Hses)|?]; [|auto].
  apply elem_of_cons in Hr as [->|Hr]; [|left; eauto].
  exfalso. unfold cont_open in Hm. rewrite Hid, Z.eqb_refl, Hpend in Hm. done.
Qed.

Lemma recover_one_recovering env row rest w :
  ge_db_ok env = true →
  recovering (row :: rest) w → recovering rest (recover_one env row w).1.
Proof.
  intros Hok Hrec. unfold recover_one.
  destruct (negb _); [by eapply abandon_recovering|].
  destruct (get_or_create _ _ _) as [s|] eqn:Hget; [|by eapply abandon_recovering].
  cbv zeta. set (w1 := w <| sessions ::= insert (cont_session row) s |>).
  assert (∀ s', pending_messages s ⊆ pending_messages s' → ∀ sid cid, queued w sid cid →
    queued (w <| sessions ::= insert (cont_session row) s' |>) sid cid) as Hmono.
  { intros s' Hsub. apply queued_mono. intros sid s0 Hs0. cbn.
    destruct (decide (sid = cont_session row)) as [->|Hne].
    - rewrite lookup_insert_eq. unfold get_or_create in Hget. rewrite Hs0 in Hget.
      injection Hget as ->. eauto.
    - rewrite lookup_insert_ne by done. eauto. }
  assert (∀ sid cid, queued w sid cid → queued w1 sid cid) as Hq by (by apply Hmono).
  destruct (_ || _); [by eapply (abandon_recovering _ _ _ _ w)|].
  destruct (existsb _ _) eqn:Hex; [|destruct (ge_orphans _ _);
    [by eapply (abandon_recovering _ _ _ _ w)|]].
  - intros c Hc. destruct (Hrec c Hc) as [? Hp]. split; [done|]. intros Hpend.
    destruct (Hp Hpend) as [(r & Hr & Hid & Hses)|?]; [|auto].
    apply elem_of_cons in Hr as [->|Hr]; [|left; eauto]. right.
    apply existsb_exists in Hex as (m & Hm%list_elem_of_In & Hm'%bool_decide_eq_true).
    exists s, m. rewrite <-Hses, <-Hid. split_and!; [apply lookup_insert_eq|done|done].
  - set (s' := s <| pending_messages ::= _ |>).
    assert (pending_messages s ⊆ pending_messages s') as Hsub
      by (subst s'; cbn; set_solver).
    intros c Hc. destruct (Hrec c Hc) as [? Hp]. split; [done|]. intros Hpend.
    assert (sessions (w1 <| sessions ::= insert (cont_session row) s' |>) =
            sessions (w <| sessions ::= insert (cont_session row) s' |>)) as Heq
      by (subst w1; cbn; apply insert_insert_eq).
    destruct (Hp Hpend) as [(r & Hr & Hid & Hses)|Hqd].
    + apply elem_of_cons in Hr as [->|Hr]; [|left; eauto]. right.
      exists s', (continuation_message (recovered_message row) (cont_id row)).
      rewrite <-Hses, <-Hid. cbn [fst]. rewrite Heq. cbn.
      split_and!; [apply lookup_insert_eq|subst s'; cbn; set_solver|done].
    + right. destruct (Hmono s' Hsub _ _ Hqd) as (s0 & m & Hl & ? & ?).
      exists s0, m. cbn [fst]. by rewrite Heq.
Qed.

(** Boot recovery leaves no continuation behind.  Whatever a dead process
    left in the outbox, after the sweep no row is still claimed, and every
    pending one has its message in the queue of its session: the debited
    allowance is either offered again or settled. *)
Theorem recovery_leaves_nothing_behind (env : GoalEnv) (w : GoalWorld) (c : Continuation) :
  ge_db_ok env = true →
  let w' := (recover_goal_continuations env w).1 in
  c ∈ continuations (gdb w') →
  cstatus c ≠ CClaimed ∧
  (cstatus c = CPending → queued w' (cont_session c) (cont_id c)).
Proof.
  intros Hok w' Hc.
  assert (recovering [] w') as Hrec.
  { subst w'. clear c Hc. unfold recover_goal_continuations, recover_abandoned_continuations.
    rewrite Hok. set (rows := _ <$> filter _ _).
    set (w1 := w <| gdb := _ |>).
    assert (recovering rows w1) as H0.
    { intros c' (c & -> & Hc)%list_elem_of_fmap. split.
      - unfold recover_row. destruct (cont_open c) eqn:Ho; cbn.
        + case_match; [done|]. case_decide; done.
        + unfold cont_open in Ho. breflect. intros ?. naive_solver.
      - intros Hp. left. exists (recover_row c).1. split; [|done].
        apply list_elem_of_fmap. exists c. split; [done|]. apply list_elem_of_filter.
        split; [|done]. revert Hp. unfold recover_row.
        destruct (cont_open c) eqn:Ho; cbn.
        + case_match; [done|]. case_decide; done.
        + intros Hp. unfold cont_open in Ho. by rewrite Hp in Ho. }
    clearbody rows w1. generalize 0. clear w. revert w1 H0.
    induction rows as [|row rows IH]; intros w1 H0 n; cbn; [done|].
    pose proof (recover_one_recovering env row rows w1 Hok H0) as H1.
    destruct (recover_one env row w1) as [w2 q]. by apply IH. }
  destruct (Hrec c Hc) as [? Hp]. split; [done|]. intros Hpend.
  destruct (Hp Hpend) as [(r & Hr & _)|?]; [set_solver|done].
Qed.

Definition boot_env : GoalEnv :=
  mkGoalEnv 0 0 true (λ _, 0) 0 "" true (λ _, false) (λ sid, Some (new_session sid 0)).
Definition crashed_world : GoalWorld :=
  (boot_world {["s"]}) <| gdb := (claim_goal_continuation true 1 demo_db).1 |>.
Definition recovered_row : Continuation := (recover_row demo_claimed).1.

Lemma recovery_leaves_nothing_behind_witness :
  cstatus demo_claimed = CClaimed ∧ recovered recovered_row = true ∧
  queued (recover_goal_continuations boot_env crashed_world).1 "s" 1.
Proof.
  split; [reflexivity|]. split; [reflexivity|].
  refine (proj2 (recovery_leaves_nothing_behind boot_env crashed_world recovered_row _ _) _).
  - reflexivity.
  - vm_compute. left.
  - reflexivity.
Defined.
