(* ===== verification/PyStr.v ===== *)
(** * Python text

    The parts of [str] and of the UTF-8 codec the editing code relies on.  A
    text is the list of its code points; a file holds bytes.  [t "..."] is
    the text of an ASCII literal. *)
From S2P Require Import Prelude.

Abbreviation text := (list N).

Definition t (s : string) : text := Ascii.N_of_ascii <$> String.list_ascii_of_string s.
Definition to_string (s : text) : string :=
  String.string_of_list_ascii (Ascii.ascii_of_N <$> s).
Definition NL : N := 10.
Definition CR : N := 13.
Definition SP : N := 32.
Definition TAB : N := 9.
Definition EM_DASH : text := [8212%N].

(** [str.isspace] of one code point. *)
Definition is_space (c : N) : bool :=
  ((9 <=? c) && (c <=? 13) || (28 <=? c) && (c <=? 32) || (c =? 133) || (c =? 160)
   || (c =? 5760) || (8192 <=? c) && (c <=? 8202) || (c =? 8232) || (c =? 8233)
   || (c =? 8239) || (c =? 8287) || (c =? 12288))%N.

Fixpoint lstrip (s : text) : text :=
  match s with
  | c :: s' => if is_space c then lstrip s' else s
  | [] => []
  end.
Definition rstrip (s : text) : text := reverse (lstrip (reverse s)).
Definition strip (s : text) : text := rstrip (lstrip s).

Fixpoint starts_with (p s : text) : bool :=
  match p, s with
  | [], _ => true
  | a :: p, b :: s => (a =? b)%N && starts_with p s
  | _ :: _, [] => false
  end.

(** [s.find(p)]; [None] is -1. *)
Fixpoint find (p s : text) : option nat :=
  if starts_with p s then Some 0
  else match s with
       | [] => None
       | _ :: s => S <$> find p s
       end.
Definition contains (p s : text) : bool := match find p s with Some _ => true | None => false end.

(** [s.split("\n")] and ["\n".join(lines)]. *)
Fixpoint split_lines (s : text) : list text :=
  match s with
  | [] => [[]]
  | c :: s =>
      match split_lines s with
      | l :: ls => if decide (c = NL) then [] :: l :: ls else (c :: l) :: ls
      | [] => []
      end
  end.
Fixpoint join_lines (ls : list text) : text :=
  match ls with
  | [] => []
  | [l] => l
  | l :: ls => l ++ NL :: join_lines ls
  end.

(** [s.replace(old, new)]: left to right, without overlap.  [skip] counts the
    characters of a match still to be passed over. *)
Fixpoint replace_from (old new : text) (skip : nat) (s : text) : text :=
  match s with
  | [] => []
  | c :: s' =>
      match skip with
      | S skip => replace_from old new skip s'
      | O => if starts_with old s then new ++ replace_from old new (length old - 1) s'
             else c :: replace_from old new 0 s'
      end
  end.
(** An empty [old] matches between all characters. *)
Definition replace (old new s : text) : text :=
  match old with
  | [] => new ++ (s ≫= λ c, c :: new)
  | _ => replace_from old new 0 s
  end.
Fixpoint count_from (old : text) (skip : nat) (s : text) : nat :=
  match s with
  | [] => 0
  | _ :: s' =>
      match skip with
      | S skip => count_from old skip s'
      | O => if starts_with old s then S (count_from old (length old - 1) s')
             else count_from old 0 s'
      end
  end.
Definition count (old s : text) : nat :=
  match old with [] => S (length s) | _ => count_from old 0 s end.

(** [s.lower()] on code points below 256. *)
Definition lower_code (c : N) : N :=
  (if (65 <=? c) && (c <=? 90) || (192 <=? c) && (c <=? 222) && negb (c =? 215)
   then c + 32 else c)%N.
Definition lower_text (s : text) : text := lower_code <$> s.

(** [s.split()] *)
Fixpoint split_words_from (cur : text) (s : text) : list text :=
  match s with
  | [] => match cur with [] => [] | _ => [cur] end
  | c :: s =>
      if is_space c then
        match cur with
        | [] => split_words_from [] s
        | _ => cur :: split_words_from [] s
        end
      else split_words_from (cur ++ [c]) s
  end.
Definition split_words (s : text) : list text := split_words_from [] s.

(** [s.split(ch)] *)
Fixpoint split_on (ch : N) (s : text) : list text :=
  match s with
  | [] => [[]]
  | c :: s =>
      match split_on ch s with
      | l :: ls => if (c =? ch)%N then [] :: l :: ls else (c :: l) :: ls
      | [] => []
      end
  end.
Definition before (ch : N) (s : text) : text := default [] (head (split_on ch s)).
Fixpoint join_with (sep : text) (ls : list text) : text :=
  match ls with
  | [] => []
  | [l] => l
  | l :: ls => l ++ sep ++ join_with sep ls
  end.
Fixpoint lstrip_char (ch : N) (s : text) : text :=
  match s with
  | c :: s' => if (c =? ch)%N then lstrip_char ch s' else s
  | [] => []
  end.

(** [int(s)] of a string: optional sign, digits with single underscores. *)
Fixpoint parse_digits (after_digit : bool) (acc : Z) (s : text) : option Z :=
  match s with
  | [] => if after_digit then Some acc else None
  | c :: s =>
      if ((48 <=? c) && (c <=? 57))%N then parse_digits true (acc * 10 + (Z.of_N c - 48)) s
      else if (c =? 95)%N && after_digit then parse_digits false acc s
      else None
  end.
Definition py_int (s : text) : option Z :=
  match strip s with
  | 43%N :: s => parse_digits false 0 s
  | 45%N :: s => Z.opp <$> parse_digits false 0 s
  | s => parse_digits false 0 s
  end.

(** ** UTF-8 *)
Abbreviation bytes := (list N).

Definition is_scalar (c : N) : bool :=
  ((c <? 55296) || (57343 <? c) && (c <? 1114112))%N.

Definition encode_char (c : N) : bytes :=
  (if c <? 128 then [c]
   else if c <? 2048 then [192 + c / 64; 128 + c mod 64]
   else if c <? 65536 then [224 + c / 4096; 128 + c / 64 mod 64; 128 + c mod 64]
   else [240 + c / 262144; 128 + c / 4096 mod 64; 128 + c / 64 mod 64; 128 + c mod 64])%N.

(** [s.encode()]: [None] is [UnicodeEncodeError]. *)
Definition encode (s : text) : option bytes :=
  if forallb is_scalar s then Some (s ≫= encode_char) else None.

Definition REPLACEMENT : N := 65533.

(** The bytes that may follow a lead byte: how many, and the range of the
    first; [None] is a byte that cannot start a sequence. *)
Definition lead (b : N) : option (nat * N * N * N) :=
  (if b <? 128 then Some (0%nat, b, 0, 0)
   else if (194 <=? b) && (b <=? 223) then Some (1%nat, b - 192, 128, 191)
   else if b =? 224 then Some (2%nat, 0, 160, 191)
   else if b =? 237 then Some (2%nat, 13, 128, 159)
   else if (225 <=? b) && (b <=? 239) then Some (2%nat, b - 224, 128, 191)
   else if b =? 240 then Some (3%nat, 0, 144, 191)
   else if (241 <=? b) && (b <=? 243) then Some (3%nat, b - 240, 128, 191)
   else if b =? 244 then Some (3%nat, 4, 128, 143)
   else None)%N.

(** [data.decode(errors="replace")]: [need] continuation bytes are missing
    from the character [acc], the next one in [lo..hi]; a sequence that
    breaks off becomes one replacement character and the byte that broke it
    is read afresh. *)
Fixpoint decode_from (need : nat) (acc lo hi : N) (b : bytes) : text :=
  match b with
  | [] => match need with O => [] | S _ => [REPLACEMENT] end
  | x :: b =>
      let fresh :=
        match lead x with
        | Some (O, c, _, _) => c :: decode_from 0 0 0 0 b
        | Some (n, c, lo, hi) => decode_from n c lo hi b
        | None => REPLACEMENT :: decode_from 0 0 0 0 b
        end in
      match need with
      | O => fresh
      | S need =>
          if ((lo <=? x) && (x <=? hi))%N then
            let acc := (acc * 64 + (x - 128))%N in
            match need with
            | O => acc :: decode_from 0 0 0 0 b
            | S _ => decode_from need acc 128 191 b
            end
          else REPLACEMENT :: fresh
      end
  end.
Definition decode (b : bytes) : text := decode_from 0 0 0 0 b.

Example decode_latin1 : decode [99; 233; 10]%N = [99; 65533; 10]%N.
Proof. reflexivity. Qed.
Example encode_euro : encode [8364]%N = Some [226; 130; 172]%N.
Proof. reflexivity. Qed.

(** ** Facts *)
Lemma starts_with_spec p s : starts_with p s = true ↔ ∃ r, s = p ++ r.
Proof.
  revert s. induction p as [|a p IH]; intros [|b s]; cbn; split; try done; try (by eauto).
  - intros [r [=]].
  - intros [->%N.eqb_eq [r ->]%IH]%andb_prop. by eexists.
  - intros [r [= -> ->]]. rewrite N.eqb_refl. apply IH. eauto.
Qed.

Lemma find_Some p s n : find p s = Some n → s = take n s ++ p ++ drop (n + length p) s.
Proof.
  revert n. induction s as [|c s IH]; intros n; cbn.
  - destruct p; cbn; [|done]. by intros [= <-].
  - destruct (starts_with p (c :: s)) eqn:E.
    + apply starts_with_spec in E as [r Hr]. intros [= <-]. rewrite Hr. cbn.
      by rewrite drop_app_length.
    + destruct (find p s) as [m|] eqn:Hf; [|done]. intros [= <-]. cbn.
      f_equal. by apply IH.
Qed.

Lemma split_lines_cons s : ∃ l ls, split_lines s = l :: ls.
Proof.
  induction s as [|c s (l & ls & IH)]; cbn; [eauto|]. rewrite IH. case_decide; eauto.
Qed.

Lemma join_split s : join_lines (split_lines s) = s.
Proof.
  induction s as [|c s IH]; cbn; [done|].
  destruct (split_lines_cons s) as (l & ls & Hs). rewrite Hs in IH |- *.
  case_decide as Hc; [subst c; cbn|].
  - destruct ls; cbn in *; by rewrite <-IH.
  - destruct ls; cbn in *; by rewrite <-IH.
Qed.

Definition one_line (l : text) : Prop := NL ∉ l.

Lemma split_app_line l s :
  one_line l → split_lines (l ++ NL :: s) = l :: split_lines s.
Proof.
  unfold one_line. induction l as [|c l IH]; cbn.
  - intros _. destruct (split_lines_cons s) as (l & ls & ->). done.
  - rewrite not_elem_of_cons. intros [? ?]. rewrite IH by done.
    by rewrite decide_False by congruence.
Qed.
Lemma split_one_line l : one_line l → split_lines l = [l].
Proof.
  unfold one_line. induction l as [|c l IH]; cbn; [done|].
  rewrite not_elem_of_cons. intros [? ?]. rewrite IH by done.
  by rewrite decide_False by congruence.
Qed.
Lemma split_join ls : ls ≠ [] → Forall one_line ls → split_lines (join_lines ls) = ls.
Proof.
  intros Hne Hall. induction Hall as [|l ls Hl Hall IH]; [done|].
  destruct ls as [|l' ls]; [by apply split_one_line|].
  change (join_lines (l :: l' :: ls)) with (l ++ NL :: join_lines (l' :: ls)).
  rewrite split_app_line by done. by rewrite IH.
Qed.

Lemma split_lines_one_line s : Forall one_line (split_lines s).
Proof.
  induction s as [|c s IH]; cbn; [repeat constructor; apply not_elem_of_nil|].
  destruct (split_lines_cons s) as (l & ls & Hs). rewrite Hs in IH |- *.
  inversion IH; subst. case_decide.
  - constructor; [apply not_elem_of_nil|done].
  - constructor; [|done]. unfold one_line in *. rewrite not_elem_of_cons. auto.
Qed.

Lemma join_cons l ls : ls ≠ [] → join_lines (l :: ls) = l ++ NL :: join_lines ls.
Proof. by destruct ls. Qed.
Lemma join_app ls1 ls2 :
  ls1 ≠ [] → ls2 ≠ [] → join_lines (ls1 ++ ls2) = join_lines ls1 ++ NL :: join_lines ls2.
Proof.
  intros Hne H2. induction ls1 as [|l [|l1 ls1] IH]; [done|by apply join_cons|].
  change ((l :: l1 :: ls1) ++ ls2) with (l :: (l1 :: ls1) ++ ls2).
  rewrite join_cons, IH by done. by rewrite (join_cons l (l1 :: ls1)), <-app_assoc by done.
Qed.
(** ** The codec round trip *)
Ltac Zify.zify_post_hook ::= Z.to_euclidean_division_equations.

Ltac utf8_test :=
  match goal with
  | |- context [N.ltb ?a ?b] => first
      [ rewrite (proj2 (N.ltb_lt a b)) by lia | rewrite (proj2 (N.ltb_ge a b)) by lia ]
  | |- context [N.leb ?a ?b] => first
      [ rewrite (proj2 (N.leb_le a b)) by lia | rewrite (proj2 (N.leb_gt a b)) by lia ]
  | |- context [N.eqb ?a ?b] => first
      [ rewrite (proj2 (N.eqb_eq a b)) by lia | rewrite (proj2 (N.eqb_neq a b)) by lia ]
  end.

Lemma lead_ascii c : (c < 128)%N → lead c = Some (0, c, 0%N, 0%N).
Proof. intros. unfold lead. by repeat utf8_test. Qed.

Lemma continuation c : (c < 64)%N → ((128 <=? 128 + c) && (128 + c <=? 191))%N = true.
Proof. intros. by repeat utf8_test. Qed.

Lemma decode_encode_char c b :
  is_scalar c = true → decode_from 0 0 0 0 (encode_char c ++ b) = c :: decode_from 0 0 0 0 b.
Proof.
  intros Hc. unfold encode_char.
  destruct (N.ltb_spec c 128); [by cbn; rewrite lead_ascii|].
  assert (c < 1114112 ∧ (c < 55296 ∨ 57343 < c))%N as [Hmax Hsur].
  { unfold is_scalar in Hc. apply orb_true_iff in Hc as [?%N.ltb_lt|[?%N.ltb_lt ?%N.ltb_lt]%andb_prop]; lia. }
  destruct (N.ltb_spec c 2048); [|destruct (N.ltb_spec c 65536)]; cbn [app decode_from].
  - unfold lead. repeat utf8_test. cbn [andb]. repeat utf8_test. cbn [andb]. f_equal. lia.
  - assert (∃ q r1 r2, c = q * 4096 + r1 * 64 + r2 ∧ r1 < 64 ∧ r2 < 64 ∧ q < 16 ∧
      c / 4096 = q ∧ c / 64 mod 64 = r1 ∧ c mod 64 = r2)%N as (q & r1 & r2 & ? & ? & ? & ? & -> & -> & ->).
    { exists (c / 4096)%N, (c / 64 mod 64)%N, (c mod 64)%N. lia. }
    assert (lead (224 + q) = Some (2%nat, q, if (q =? 0)%N then 160 else 128,
                                   if (q =? 13)%N then 159 else 191)%N) as ->.
    { unfold lead. destruct (N.eqb_spec q 0) as [->|]; [done|].
      destruct (N.eqb_spec q 13) as [->|]; [done|].
      repeat (utf8_test; cbn [andb]). do 4 f_equal. lia. }
    assert (((if q =? 0 then 160 else 128) <=? 128 + r1) &&
            (128 + r1 <=? (if q =? 13 then 159 else 191)) = true)%N as ->.
    { destruct (N.eqb_spec q 0), (N.eqb_spec q 13); by repeat utf8_test. }
    rewrite continuation by done. f_equal. lia.
  - assert (∃ q r0 r1 r2, c = q * 262144 + r0 * 4096 + r1 * 64 + r2 ∧ r0 < 64 ∧ r1 < 64 ∧
      r2 < 64 ∧ q < 5 ∧ c / 262144 = q ∧ c / 4096 mod 64 = r0 ∧ c / 64 mod 64 = r1 ∧
      c mod 64 = r2)%N as (q & r0 & r1 & r2 & ? & ? & ? & ? & ? & -> & -> & -> & ->).
    { exists (c / 262144)%N, (c / 4096 mod 64)%N, (c / 64 mod 64)%N, (c mod 64)%N. lia. }
    assert (lead (240 + q) = Some (3%nat, q, if (q =? 0)%N then 144 else 128,
                                   if (q =? 4)%N then 143 else 191)%N) as ->.
    { assert (q = 0 ∨ q = 1 ∨ q = 2 ∨ q = 3 ∨ q = 4)%N as [->|[->|[->|[->| ->]]]] by lia; done. }
    assert (((if q =? 0 then 144 else 128) <=? 128 + r0) &&
            (128 + r0 <=? (if q =? 4 then 143 else 191)) = true)%N as ->.
    { destruct (N.eqb_spec q 0), (N.eqb_spec q 4); by repeat utf8_test. }
    rewrite !continuation by done. f_equal. lia.
Qed.

Lemma decode_encode s b : encode s = Some b → decode b = s.
Proof.
  unfold encode. destruct (forallb is_scalar s) eqn:Hs; [|done]. intros [= <-].
  unfold decode. induction s as [|c s IH]; [done|].
  cbn in Hs. apply andb_prop in Hs as [Hc Hs].
  change ((c :: s) ≫= encode_char) with (encode_char c ++ (s ≫= encode_char)).
  rewrite decode_encode_char by done. by rewrite IH.
Qed.
