(* ===== verification/Regex.v ===== *)
(** * Regular expressions

    The part of Python's [re] the shell policy uses, as languages: a search
    succeeds when some part of the text is in the language of the pattern.
    [accepts] decides membership by derivatives; [accepts_spec] relates it to
    the inductive definition.  A lookahead is an intersection with what
    follows; a word boundary is spelled out as the characters around it. *)
From S2P Require Import Prelude PyStr.

Inductive re :=
| Empty
| Eps
| Chr (p : N → bool)
| Cat (r s : re)
| Alt (r s : re)
| And (r s : re)
| Star (r : re).

Inductive lang : re → text → Prop :=
| lang_eps : lang Eps []
| lang_chr p c : p c = true → lang (Chr p) [c]
| lang_cat r s u v : lang r u → lang s v → lang (Cat r s) (u ++ v)
| lang_alt_l r s u : lang r u → lang (Alt r s) u
| lang_alt_r r s u : lang s u → lang (Alt r s) u
| lang_and r s u : lang r u → lang s u → lang (And r s) u
| lang_star_nil r : lang (Star r) []
| lang_star_app r u v : lang r u → lang (Star r) v → lang (Star r) (u ++ v).
#[export] Hint Constructors lang : pernix.

Fixpoint nullable (r : re) : bool :=
  match r with
  | Empty | Chr _ => false
  | Eps | Star _ => true
  | Cat r s | And r s => nullable r && nullable s
  | Alt r s => nullable r || nullable s
  end.

(** Constructors that drop what cannot match, so that derivatives stay small. *)
Definition cat (r s : re) : re :=
  match r, s with
  | Empty, _ | _, Empty => Empty
  | Eps, _ => s
  | _, _ => Cat r s
  end.
Definition alt (r s : re) : re :=
  match r, s with
  | Empty, _ => s
  | _, Empty => r
  | _, _ => Alt r s
  end.
Definition and (r s : re) : re :=
  match r, s with
  | Empty, _ | _, Empty => Empty
  | _, _ => And r s
  end.

Fixpoint deriv (c : N) (r : re) : re :=
  match r with
  | Empty | Eps => Empty
  | Chr p => if p c then Eps else Empty
  | Cat r s => if nullable r then alt (cat (deriv c r) s) (deriv c s) else cat (deriv c r) s
  | Alt r s => alt (deriv c r) (deriv c s)
  | And r s => and (deriv c r) (deriv c s)
  | Star r => cat (deriv c r) (Star r)
  end.

Fixpoint accepts (r : re) (s : text) : bool :=
  match s with
  | [] => nullable r
  | c :: s => accepts (deriv c r) s
  end.

(** ** Correctness *)
Lemma nullable_spec r : nullable r = true ↔ lang r [].
Proof.
  split.
  - induction r; cbn; intros H; try done; try (constructor; done).
    + apply andb_prop in H as [? ?]. rewrite <-(app_nil_l []). eauto with pernix.
    + apply orb_prop in H as [?|?]; auto with pernix.
    + apply andb_prop in H as [? ?]. auto with pernix.
  - intros H. remember [] as u eqn:Hu. revert Hu.
    induction H as [|p c ?|r s u v ? IH1 ? IH2|r s u ? IH|r s u ? IH|r s u ? IH1 ? IH2| |];
      intros Hu; cbn; try done.
    + apply app_eq_nil in Hu as [-> ->]. by rewrite IH1, IH2.
    + by rewrite IH.
    + rewrite IH by done. apply orb_true_r.
    + by rewrite IH1, IH2.
Qed.

Lemma lang_cat_inv r s w : lang (Cat r s) w ↔ ∃ u v, w = u ++ v ∧ lang r u ∧ lang s v.
Proof. split; [inversion 1; subst; eauto|intros (? & ? & -> & ? & ?); by constructor]. Qed.
Lemma lang_alt_inv r s w : lang (Alt r s) w ↔ lang r w ∨ lang s w.
Proof. split; [inversion 1; subst; auto|intros [?|?]; auto with pernix]. Qed.
Lemma lang_and_inv r s w : lang (And r s) w ↔ lang r w ∧ lang s w.
Proof. split; [inversion 1; subst; auto|intros [? ?]; by constructor]. Qed.
Lemma lang_chr_inv p w : lang (Chr p) w ↔ ∃ c, w = [c] ∧ p c = true.
Proof. split; [inversion 1; subst; eauto|intros (? & -> & ?); by constructor]. Qed.
Lemma lang_eps_inv w : lang Eps w ↔ w = [].
Proof. split; [by inversion 1|intros ->; constructor]. Qed.
Lemma lang_empty_inv w : lang Empty w ↔ False.
Proof. split; [inversion 1|done]. Qed.

Lemma lang_cat_empty_l s w : lang (Cat Empty s) w ↔ False.
Proof. rewrite lang_cat_inv. setoid_rewrite lang_empty_inv. naive_solver. Qed.
Lemma lang_cat_empty_r r w : lang (Cat r Empty) w ↔ False.
Proof. rewrite lang_cat_inv. setoid_rewrite lang_empty_inv. naive_solver. Qed.
Lemma lang_cat_eps_l s w : lang (Cat Eps s) w ↔ lang s w.
Proof.
  rewrite lang_cat_inv. setoid_rewrite lang_eps_inv. split; [by intros (? & ? & -> & -> & ?)|].
  intros. by exists [], w.
Qed.
Lemma lang_cat_smart r s w : lang (cat r s) w ↔ lang (Cat r s) w.
Proof.
  destruct r, s; cbn; first
    [ reflexivity
    | rewrite lang_cat_empty_l, lang_empty_inv; reflexivity
    | rewrite lang_cat_empty_r, lang_empty_inv; reflexivity
    | rewrite lang_cat_eps_l; reflexivity ].
Qed.
Lemma lang_alt_smart r s w : lang (alt r s) w ↔ lang (Alt r s) w.
Proof. rewrite lang_alt_inv. destruct r, s; cbn; rewrite ?lang_alt_inv, ?lang_empty_inv; tauto. Qed.
Lemma lang_and_smart r s w : lang (and r s) w ↔ lang (And r s) w.
Proof. rewrite lang_and_inv. destruct r, s; cbn; rewrite ?lang_and_inv, ?lang_empty_inv; tauto. Qed.

Lemma lang_star_cons r c w :
  lang (Star r) (c :: w) ↔ ∃ u v, w = u ++ v ∧ lang r (c :: u) ∧ lang (Star r) v.
Proof.
  split.
  - remember (Star r) as q eqn:Hq. remember (c :: w) as x eqn:Hx. intros H. revert Hq Hx.
    induction H as [| | | | | | |r' u v Hu _ Hv IH]; try done. intros [= ->] Hx.
    destruct u as [|c' u]; [by apply IH|]. injection Hx as -> <-. eauto.
  - intros (u & v & -> & Hu & Hv). change (c :: u ++ v) with ((c :: u) ++ v). by constructor.
Qed.

Lemma lang_cat_cons r s c w :
  lang (Cat r s) (c :: w) ↔
    (∃ u v, w = u ++ v ∧ lang r (c :: u) ∧ lang s v) ∨ (lang r [] ∧ lang s (c :: w)).
Proof.
  rewrite lang_cat_inv. split.
  - intros (u & v & Hw & Hu & Hv). destruct u as [|c' u]; [right|left].
    + cbn in Hw. by subst.
    + injection Hw as -> ->. eauto.
  - intros [(u & v & -> & Hu & Hv)|[Hr Hs]]; [by exists (c :: u), v|by exists [], (c :: w)].
Qed.

Lemma deriv_spec c r w : lang (deriv c r) w ↔ lang r (c :: w).
Proof.
  revert w. induction r as [| |p|r IHr s IHs|r IHr s IHs|r IHr s IHs|r IHr]; intros w; cbn.
  - by rewrite !lang_empty_inv.
  - by rewrite lang_empty_inv, lang_eps_inv.
  - destruct (p c) eqn:Hp; rewrite ?lang_eps_inv, ?lang_empty_inv, lang_chr_inv.
    + split; [intros ->; eauto|]. by intros (? & [= <- ->] & _).
    + split; [done|]. intros (? & [= <- _] & ?). congruence.
  - assert (∀ w, lang (cat (deriv c r) s) w ↔ ∃ u v, w = u ++ v ∧ lang r (c :: u) ∧ lang s v) as Hcat.
    { intros x. rewrite lang_cat_smart, lang_cat_inv. by setoid_rewrite IHr. }
    rewrite lang_cat_cons. destruct (nullable r) eqn:Hn.
    + rewrite lang_alt_smart, lang_alt_inv, Hcat, IHs. apply nullable_spec in Hn. tauto.
    + rewrite Hcat. assert (¬ lang r []) by (rewrite <-nullable_spec; congruence). tauto.
  - by rewrite lang_alt_smart, !lang_alt_inv, IHr, IHs.
  - by rewrite lang_and_smart, !lang_and_inv, IHr, IHs.
  - rewrite lang_cat_smart, lang_cat_inv, lang_star_cons. by setoid_rewrite IHr.
Qed.

Lemma accepts_spec r s : accepts r s = true ↔ lang r s.
Proof.
  revert r. induction s as [|c s IH]; intros r; cbn; [apply nullable_spec|].
  by rewrite IH, deriv_spec.
Qed.

(** ** Notation of patterns *)
Definition any : re := Star (Chr (λ _, true)).
Definition dot : re := Chr (λ c, negb (c =? NL)%N).
Definition opt (r : re) : re := Alt r Eps.
Definition plus (r : re) : re := Cat r (Star r).
Definition lit (s : string) : re := foldr (λ c r, Cat (Chr (N.eqb c)) r) Eps (t s).
Definition one_of (l : list re) : re := foldr Alt Empty l.
Definition seq (l : list re) : re := foldr Cat Eps l.

(** [\d], [\w], [\s] on code points below 256. *)
Definition is_digit (c : N) : bool := ((48 <=? c) && (c <=? 57))%N.
Definition is_alpha (c : N) : bool :=
  ((65 <=? c) && (c <=? 90) || (97 <=? c) && (c <=? 122) || (c =? 170) || (c =? 181) || (c =? 186)
   || (192 <=? c) && (c <=? 255) && negb (c =? 215) && negb (c =? 247))%N.
Definition is_alnum (c : N) : bool :=
  (is_alpha c || is_digit c || (c =? 178) || (c =? 179) || (c =? 185)
   || (188 <=? c) && (c <=? 190))%N.
Definition is_word (c : N) : bool := is_alnum c || (c =? 95)%N.
Definition space : re := Chr is_space.
Definition nonspace : re := Chr (λ c, negb (is_space c)).

(** [re.search(r, s)]; [r\b] after a word character; [\br] before one. *)
Definition search (r : re) (s : text) : bool := accepts (seq [any; r; any]) s.
Definition search_then_boundary (r : re) (s : text) : bool :=
  accepts (seq [any; r; opt (Cat (Chr (λ c, negb (is_word c))) any)]) s.
Definition search_from_boundary (r : re) (s : text) : bool :=
  accepts (seq [opt (Cat any (Chr (λ c, negb (is_word c)))); r; any]) s.

Lemma search_spec r s : search r s = true ↔ ∃ a u b, s = a ++ u ++ b ∧ lang r u.
Proof.
  unfold search. rewrite accepts_spec. unfold seq; cbn.
  setoid_rewrite lang_cat_inv. setoid_rewrite lang_cat_inv. setoid_rewrite lang_cat_inv.
  setoid_rewrite lang_eps_inv.
  assert (∀ w, lang any w) as Hany.
  { induction w as [|c w IH]; [constructor|]. change (c :: w) with ([c] ++ w). by repeat constructor. }
  split.
  - intros (a & ? & -> & _ & u & ? & -> & Hu & b & ? & -> & _ & ->). exists a, u, b.
    by rewrite app_nil_r.
  - intros (a & u & b & -> & Hu). exists a, (u ++ b). split_and!; [done..|].
    exists u, b. split_and!; [done..|]. exists b, []. by rewrite app_nil_r.
Qed.
