(* ===== verification/PyText.v ===== *)
(** * Texts: splitting, stripping, searching

    More of [str] (split at a separator, replace once, decimal numerals) and
    the lemmas on lines, infixes and stripping that the parsers share. *)
From stdpp Require Import list strings pretty.
From S2P Require Import Prelude PyStr Regex.

(** [s.split(sep)] of a separator that is not empty. *)
Fixpoint split_from (sep : text) (skip : nat) (s : text) : list text :=
  match s with
  | [] => [[]]
  | c :: s' =>
      match skip with
      | S skip => split_from sep skip s'
      | O =>
          if starts_with sep s then [] :: split_from sep (length sep - 1) s'
          else match split_from sep 0 s' with
               | l :: ls => (c :: l) :: ls
               | [] => []
               end
      end
  end.
Definition split (sep s : text) : list text := split_from sep 0 s.
(** [s.replace(old, new, 1)] *)
Definition replace_first (old new s : text) : text :=
  match find old s with
  | Some n => take n s ++ new ++ drop (n + length old) s
  | None => s
  end.
Fixpoint span (P : N → bool) (s : text) : text * text :=
  match s with
  | c :: s' => if P c then let '(u, r) := span P s' in (c :: u, r) else ([], s)
  | [] => ([], [])
  end.
Definition decimal (n : N) : text := t (pretty n).
(** [int(digits)] *)
Definition int_of (s : text) : N := foldl (λ acc c, acc * 10 + (c - 48))%N 0%N s.


(** The maximal runs of [P]: [re.findall] of a repeated character class. *)
Fixpoint runs_from (P : N → bool) (cur s : text) : list text :=
  match s with
  | [] => match cur with [] => [] | _ => [reverse cur] end
  | c :: s =>
      if P c then runs_from P (c :: cur) s
      else match cur with [] => [] | _ => [reverse cur] end ++ runs_from P [] s
  end.
(** The order of strings, by code points. *)
Fixpoint text_leb (a b : text) : bool :=
  match a, b with
  | [], _ => true
  | _ :: _, [] => false
  | x :: a, y :: b => ((x <? y) || (x =? y) && text_leb a b)%N
  end.
Definition text_le (a b : text) : Prop := text_leb a b = true.
#[export] Instance text_le_dec : RelDecision text_le := λ a b, bool_eq_dec (text_leb a b) true.

(** [str.splitlines()] *)
Definition is_line_break (c : N) : bool :=
  ((10 <=? c) && (c <=? 13) || (28 <=? c) && (c <=? 30) || (c =? 133) || (c =? 8232) || (c =? 8233))%N.
Fixpoint splitlines_from (after_cr : bool) (cur s : text) : list text :=
  match s with
  | [] => match cur with [] => [] | _ => [reverse cur] end
  | c :: s =>
      if after_cr && (c =? NL)%N then splitlines_from false cur s
      else if is_line_break c then reverse cur :: splitlines_from (c =? CR)%N [] s
      else splitlines_from false (c :: cur) s
  end.
Definition splitlines (s : text) : list text := splitlines_from false [] s.
(** Reading in text mode. *)
Fixpoint universal_from (after_cr : bool) (s : text) : text :=
  match s with
  | [] => []
  | c :: s =>
      if decide (c = CR) then NL :: universal_from true s
      else if decide (c = NL ∧ after_cr = true) then universal_from false s
      else c :: universal_from false s
  end.
Definition universal_newlines (s : text) : text := universal_from false s.
Lemma universal_newlines_id s : CR ∉ s → universal_newlines s = s.
Proof.
  unfold universal_newlines. induction s as [|c s IH]; [done|].
  rewrite not_elem_of_cons. intros [Hc Hs]. cbn. rewrite decide_False by congruence.
  rewrite decide_False by (intros [_ ?]; done). f_equal. auto.
Qed.

(** ** Prefixes and infixes *)
Lemma starts_with_app p s : starts_with p (p ++ s) = true.
Proof. apply starts_with_spec. eauto. Qed.
Lemma starts_with_both a p s : starts_with (a ++ p) (a ++ s) = starts_with p s.
Proof. induction a as [|c a IH]; [done|]. cbn. by rewrite N.eqb_refl, IH. Qed.

Lemma contains_spec p s : contains p s = true ↔ ∃ a b, s = a ++ p ++ b.
Proof.
  unfold contains. split.
  - destruct (find p s) eqn:Hf; [|done]. intros _. apply find_Some in Hf. eauto.
  - intros (a & b & ->). induction a as [|c a IH].
    + destruct (p ++ b) eqn:E; cbn; [by destruct p|]. by rewrite <-E, starts_with_app.
    + cbn. destruct (starts_with p _); [done|]. by destruct (find p (a ++ p ++ b)).
Qed.
Lemma contains_within p s a b : contains p (a ++ s ++ b) = false → contains p s = false.
Proof.
  intros H. apply not_true_iff_false. intros (x & y & ->)%contains_spec. apply not_true_iff_false in H.
  apply H, contains_spec. exists (a ++ x), (y ++ b). by rewrite <-!app_assoc.
Qed.
Lemma contains_longer p q s : contains p s = false → contains (p ++ q) s = false.
Proof.
  intros H. apply not_true_iff_false. intros (x & y & ->)%contains_spec. apply not_true_iff_false in H.
  apply H, contains_spec. exists x, (q ++ y). by rewrite <-!app_assoc.
Qed.
Lemma contains_absent c p s : c ∉ s → contains (c :: p) s = false.
Proof.
  intros H. apply not_true_iff_false. intros (x & y & ->)%contains_spec. apply H. set_solver.
Qed.

(** ** Lines *)
Lemma split_lines_app a b : split_lines (a ++ NL :: b) = split_lines a ++ split_lines b.
Proof.
  induction a as [|c a IH]; [by destruct (split_lines_cons b) as (l & ls & H); cbn; rewrite H|].
  cbn. rewrite IH. destruct (split_lines_cons a) as (l & ls & ->). cbn. by case_decide.
Qed.

(** A text without a character cannot reach across it. *)
Lemma starts_with_sep x p a b : x ∉ p → starts_with p (a ++ x :: b) = starts_with p a.
Proof.
  revert a. induction p as [|c p IH]; intros a Hp; [by destruct a|].
  apply not_elem_of_cons in Hp as [Hc Hp].
  destruct a as [|d a]; cbn; [by rewrite (proj2 (N.eqb_neq c x)) by done|by rewrite IH].
Qed.
Lemma contains_sep x p a b : x ∉ p → p ≠ [] → contains p (a ++ x :: b) = contains p a || contains p b.
Proof.
  intros Hp Hne. destruct (contains p a || contains p b) eqn:E.
  - apply contains_spec. apply orb_true_iff in E as [(u & y & ->)%contains_spec|(u & y & ->)%contains_spec].
    + exists u, (y ++ x :: b). by rewrite <-!app_assoc.
    + exists (a ++ x :: u), y. by rewrite <-!app_assoc.
  - apply orb_false_iff in E as [Ha Hb]. unfold contains in *. induction a as [|c a IH].
    + cbn. change (x :: b) with ([] ++ x :: b). rewrite starts_with_sep by done. cbn.
      destruct p; [done|]. cbn. by destruct (find (n :: p) b).
    + cbn in Ha |- *. change (c :: a ++ x :: b) with ((c :: a) ++ x :: b). rewrite starts_with_sep by done.
      destruct (starts_with p (c :: a)); [done|]. destruct (find p a); [done|].
      specialize (IH eq_refl). by destruct (find p (a ++ x :: b)).
Qed.
Lemma starts_with_line p a b : NL ∉ p → starts_with p (a ++ NL :: b) = starts_with p a.
Proof. apply starts_with_sep. Qed.
Lemma contains_line p a b :
  NL ∉ p → p ≠ [] → contains p (a ++ NL :: b) = contains p a || contains p b.
Proof. apply contains_sep. Qed.
Lemma contains_lines p ls : NL ∉ p → p ≠ [] → contains p (join_lines ls) = existsb (contains p) ls.
Proof.
  intros Hp Hne. induction ls as [|l ls IH]; [by destruct p|].
  destruct ls as [|l' ls]; [by cbn; rewrite orb_false_r|].
  rewrite join_cons, contains_line by done. by rewrite IH.
Qed.
Lemma line_infix l s : l ∈ split_lines s → ∃ a b, s = a ++ l ++ b.
Proof.
  revert l. induction s as [|c s IH]; intros l; cbn.
  - intros ->%list_elem_of_singleton. by exists [], [].
  - destruct (split_lines_cons s) as (h & ls & Hs). rewrite Hs in IH |- *. case_decide as Hc.
    + subst c. intros [->|(a & b & ->)%IH]%elem_of_cons; [by eexists [], _|]. by exists (NL :: a), b.
    + intros [->|Hl]%elem_of_cons.
      * exists [], (drop (length h) s). cbn. f_equal. rewrite <-(join_split s), Hs. destruct ls; cbn.
        -- by rewrite drop_all, app_nil_r.
        -- by rewrite drop_app_length.
      * destruct (IH l) as (a & b & ->); [by constructor|]. by exists (c :: a), b.
Qed.

(** ** Stripping *)
Definition blank (s : text) : Prop := Forall (λ c, is_space c = true) s.

Lemma lstrip_spec s : ∃ w, s = w ++ lstrip s ∧ blank w.
Proof.
  induction s as [|c s (w & Hs & Hw)]; [exists []; split; [done|constructor]|]. cbn.
  destruct (is_space c) eqn:Hc; [|exists []; split; [done|constructor]].
  exists (c :: w). split; [cbn; by f_equal|by constructor].
Qed.
Lemma lstrip_head s c r : lstrip s = c :: r → is_space c = false.
Proof.
  induction s as [|d s IH]; [done|]. cbn. destruct (is_space d) eqn:Hd; [done|]. by intros [= <- <-].
Qed.
Lemma lstrip_app a b : lstrip a ≠ [] → lstrip (a ++ b) = lstrip a ++ b.
Proof. induction a as [|c a IH]; [done|]. cbn. by destruct (is_space c). Qed.
Lemma lstrip_blank w a : blank w → lstrip (w ++ a) = lstrip a.
Proof. induction 1 as [|c w Hc _ IH]; [done|]. cbn. by rewrite Hc. Qed.

Lemma rstrip_spec s : ∃ w, s = rstrip s ++ w ∧ blank w.
Proof.
  destruct (lstrip_spec (reverse s)) as (w & Hs & Hw). exists (reverse w). split; [|by apply Forall_reverse].
  unfold rstrip. by rewrite <-reverse_app, <-Hs, reverse_involutive.
Qed.
Lemma rstrip_app a b : rstrip b ≠ [] → rstrip (a ++ b) = a ++ rstrip b.
Proof.
  unfold rstrip. intros H. rewrite reverse_app, lstrip_app, reverse_app, reverse_involutive; [done|].
  by intros E; rewrite E in H.
Qed.
Lemma rstrip_blank a w : blank w → rstrip (a ++ w) = rstrip a.
Proof. intros Hw. unfold rstrip. rewrite reverse_app, lstrip_blank by by apply Forall_reverse. done. Qed.
Lemma rstrip_last a c : is_space c = false → rstrip (a ++ [c]) = a ++ [c].
Proof. intros Hc. assert (rstrip [c] = [c]) as H.
  { unfold rstrip. change (reverse [c]) with [c]. cbn [lstrip]. by rewrite Hc. }
  by rewrite rstrip_app; rewrite H. Qed.

Lemma strip_nil s : strip s = [] ↔ blank s.
Proof.
  unfold strip. split.
  - intros H. destruct (lstrip_spec s) as (w & Hs & Hw). destruct (rstrip_spec (lstrip s)) as (w' & Hr & Hw').
    rewrite H in Hr. rewrite Hs, Hr. by apply Forall_app.
  - intros Hs. rewrite <-(app_nil_r s), lstrip_blank by done. done.
Qed.
Lemma rstrip_nil s : rstrip s = [] ↔ blank s.
Proof.
  split.
  - intros H. destruct (rstrip_spec s) as (w & Hs & Hw). rewrite H in Hs. by rewrite Hs.
  - intros Hs. by rewrite <-(app_nil_l s), rstrip_blank by done.
Qed.
Lemma lstrip_nil s : lstrip s = [] ↔ blank s.
Proof.
  split.
  - intros H. destruct (lstrip_spec s) as (w & Hs & Hw). rewrite H, app_nil_r in Hs. by rewrite Hs.
  - intros Hs. by rewrite <-(app_nil_r s), lstrip_blank by done.
Qed.
Lemma strip_rstrip s : strip (rstrip s) = strip s.
Proof.
  destruct (rstrip_spec s) as (w & Hs & Hw). unfold strip.
  destruct (decide (blank (rstrip s))) as [Hb|Hb].
  - rewrite (proj2 (lstrip_nil _) Hb), Hs, lstrip_blank by done. by rewrite (proj2 (lstrip_nil w) Hw).
  - rewrite Hs at 2. rewrite lstrip_app, rstrip_blank; [done|done|]. by rewrite lstrip_nil.
Qed.
Lemma strip_within s : ∃ a b, s = a ++ strip s ++ b.
Proof.
  destruct (lstrip_spec s) as (a & Hs & _). destruct (rstrip_spec (lstrip s)) as (b & Hr & _).
  exists a, b. unfold strip. by rewrite <-Hr.
Qed.
Lemma strip_first c s : is_space c = false → strip (c :: s) = rstrip (c :: s).
Proof. intros Hc. unfold strip. cbn. by rewrite Hc. Qed.
Lemma strip_involutive s : strip (strip s) = strip s.
Proof.
  unfold strip at 2. destruct (lstrip s) as [|c r] eqn:Hl; [by unfold strip; rewrite Hl|].
  rewrite strip_rstrip, strip_first by by eapply lstrip_head. unfold strip. by rewrite Hl.
Qed.
Lemma strip_blank_r s w : blank w → strip (s ++ w) = strip s.
Proof. intros Hw. by rewrite <-strip_rstrip, rstrip_blank, strip_rstrip by done. Qed.

(** ** Splitting *)
Lemma split_from_cons sep k s : ∃ l ls, split_from sep k s = l :: ls.
Proof.
  revert k. induction s as [|c s IH]; intros k; cbn; [eauto|]. destruct k; [|eauto].
  destruct (starts_with sep (c :: s)); [eauto|]. destruct (IH 0) as (l & ls & ->). eauto.
Qed.
Lemma join_with_cons sep l ls : ls ≠ [] → join_with sep (l :: ls) = l ++ sep ++ join_with sep ls.
Proof. by destruct ls. Qed.
Lemma join_split_from sep k s : sep ≠ [] → join_with sep (split_from sep k s) = drop k s.
Proof.
  intros Hne. revert k. induction s as [|c s IH]; intros k; cbn; [by rewrite drop_nil|].
  destruct k as [|k]; [|by rewrite IH]. destruct (starts_with sep (c :: s)) eqn:E.
  - destruct (split_from_cons sep (length sep - 1) s) as (l & ls & Hs).
    rewrite join_with_cons by by rewrite Hs. rewrite IH. apply starts_with_spec in E as [r Hr].
    destruct sep as [|d sep]; [done|]. injection Hr as -> ->. cbn. by rewrite Nat.sub_0_r, drop_app_length.
  - specialize (IH 0). destruct (split_from_cons sep 0 s) as (l & ls & Hs). rewrite Hs in IH |- *.
    destruct ls; cbn in *; by rewrite IH.
Qed.
Lemma join_with_split sep s : sep ≠ [] → join_with sep (split sep s) = s.
Proof. apply join_split_from. Qed.

Lemma split_on_cons ch s : ∃ l ls, split_on ch s = l :: ls.
Proof.
  induction s as [|c s (l & ls & IH)]; cbn; [eauto|]. rewrite IH. destruct (c =? ch)%N; eauto.
Qed.
Lemma split_on_app ch a b : ch ∉ a → split_on ch (a ++ ch :: b) = a :: split_on ch b.
Proof.
  intros Ha. induction a as [|c a IH]; cbn.
  - rewrite N.eqb_refl. by destruct (split_on_cons ch b) as (l & ls & ->).
  - apply not_elem_of_cons in Ha as [Hc Ha]. rewrite IH by done. by rewrite (proj2 (N.eqb_neq c ch)) by done.
Qed.
Lemma split_on_one ch a : ch ∉ a → split_on ch a = [a].
Proof.
  intros Ha. induction a as [|c a IH]; cbn; [done|].
  apply not_elem_of_cons in Ha as [Hc Ha]. rewrite IH by done. by rewrite (proj2 (N.eqb_neq c ch)) by done.
Qed.
Lemma split_on_join ch ls : ls ≠ [] → Forall (λ l, ch ∉ l) ls → split_on ch (join_with [ch] ls) = ls.
Proof.
  intros Hne Hls. induction Hls as [|l ls Hl Hls IH]; [done|].
  destruct ls as [|l' ls]; [by apply split_on_one|].
  rewrite join_with_cons by done. cbn [app]. rewrite split_on_app by done. by rewrite IH.
Qed.

(** ** Numerals *)
Lemma digit_char d : (d < 10)%N → Ascii.N_of_ascii (pretty_N_char d) = (48 + d)%N.
Proof.
  intros Hd. assert (d = 0 ∨ d = 1 ∨ d = 2 ∨ d = 3 ∨ d = 4 ∨ d = 5 ∨ d = 6 ∨ d = 7 ∨ d = 8 ∨ d = 9)%N as H by lia.
  by repeat (destruct H as [->|H] || subst d).
Qed.
Lemma t_cons c s : t (String.String c s) = Ascii.N_of_ascii c :: t s.
Proof. done. Qed.
Lemma decimal_value x s :
  foldl (λ acc c, acc * 10 + (c - 48))%N 0%N (t (pretty_N_go x s)) =
  foldl (λ acc c, acc * 10 + (c - 48))%N x (t s).
Proof.
  revert s. induction (N.lt_wf_0 x) as [x _ IH]; intros s.
  destruct (decide (x = 0%N)) as [->|Hx]; [by rewrite pretty_N_go_0|].
  rewrite pretty_N_go_step, IH by (try apply N.div_lt; lia). rewrite t_cons. cbn [foldl].
  rewrite digit_char by (apply N.mod_lt; lia). f_equal. pose proof (N.div_mod x 10). lia.
Qed.
Lemma decimal_digits_go x s :
  Forall (λ c, is_digit c = true) (t s) → Forall (λ c, is_digit c = true) (t (pretty_N_go x s)).
Proof.
  revert s. induction (N.lt_wf_0 x) as [x _ IH]; intros s Hs.
  destruct (decide (x = 0%N)) as [->|Hx]; [by rewrite pretty_N_go_0|].
  rewrite pretty_N_go_step by lia. apply IH; [apply N.div_lt; lia|]. rewrite t_cons. constructor; [|done].
  assert (x `mod` 10 < 10)%N by (apply N.mod_lt; lia). rewrite digit_char by done.
  unfold is_digit. apply andb_true_iff. split; apply N.leb_le; lia.
Qed.
Lemma int_of_decimal n : int_of (decimal n) = n.
Proof.
  unfold int_of, decimal, pretty, pretty_N. case_decide as Hn; [by subst n|]. by rewrite decimal_value.
Qed.
Lemma decimal_digits n : Forall (λ c, is_digit c = true) (decimal n).
Proof.
  unfold decimal, pretty, pretty_N. case_decide as Hn; [by repeat constructor|].
  apply decimal_digits_go. constructor.
Qed.
Lemma decimal_nonempty n : decimal n ≠ [].
Proof.
  intros H. assert (int_of (decimal n) = n) as Hn by apply int_of_decimal. rewrite H in Hn. cbn in Hn. by subst n.
Qed.
Lemma t_inj a b : t a = t b → a = b.
Proof.
  revert b. induction a as [|c a IH]; intros [|d b]; try done. rewrite !t_cons. intros [= Hc ->%IH].
  f_equal. by rewrite <-(Ascii.ascii_N_embedding c), Hc, Ascii.ascii_N_embedding.
Qed.
(** A text whose ends are not blank. *)
Definition snug (s : text) : Prop :=
  s ≠ [] ∧ (∀ c r, s = c :: r → is_space c = false) ∧ (∀ c r, s = r ++ [c] → is_space c = false).
Lemma snug_strip s : s ≠ [] → strip s = s → snug s.
Proof.
  intros Hne Hs. split; [done|]. assert (lstrip s = s) as Hl.
  { destruct (lstrip_spec s) as (w & Hw & _). destruct (rstrip_spec (lstrip s)) as (w' & Hw' & _).
    change (rstrip (lstrip s)) with (strip s) in Hw'. rewrite Hs in Hw'.
    assert (length s = length w + length (lstrip s)) by by rewrite Hw at 1; rewrite length_app.
    assert (length (lstrip s) = length s + length w') by by rewrite Hw' at 1; rewrite length_app.
    destruct w; [done|cbn in *; lia]. }
  split.
  - intros c r E. apply (lstrip_head s c r). by rewrite Hl.
  - intros c r E. unfold strip in Hs. rewrite Hl in Hs. destruct (is_space c) eqn:Hc; [|done].
    rewrite E, rstrip_blank in Hs by by repeat constructor. destruct (rstrip_spec r) as (w & Hr & _).
    exfalso. apply (f_equal length) in Hs, Hr. rewrite !length_app in *. cbn in *. lia.
Qed.
Lemma snug_app a b m : snug a → snug b → snug (a ++ m ++ b).
Proof.
  intros (Ha & Ha1 & _) (Hb & _ & Hb2). split; [by destruct a|]. split.
  - intros c r E. destruct a as [|d a]; [done|]. injection E as -> _. by eapply Ha1.
  - intros c r E. destruct b as [|d b] using rev_ind; [done|]. rewrite !app_assoc in E.
    apply app_inj_tail in E as [_ ->]. by eapply Hb2.
Qed.
Lemma snug_lstrip s r : snug s → lstrip (s ++ r) = s ++ r.
Proof. intros (Hne & H1 & _). destruct s as [|c s]; [done|]. cbn. by rewrite (H1 c s). Qed.
Lemma snug_strip_id s : snug s → strip s = s.
Proof.
  intros Hs. unfold strip. rewrite <-(app_nil_r s) at 1. rewrite snug_lstrip, app_nil_r by done.
  destruct Hs as (Hne & _ & H2). destruct s as [|c s _] using rev_ind; [done|]. apply rstrip_last. by eapply H2.
Qed.
Lemma snug_join sep ls : ls ≠ [] → Forall snug ls → snug (join_with sep ls).
Proof.
  intros Hne. induction 1 as [|l ls Hl Hls IH]; [done|]. destruct ls as [|l' ls]; [done|].
  rewrite join_with_cons by done. apply snug_app; [done|]. by apply IH.
Qed.
Lemma rstrip_keeps a c b : is_space c = false → ∃ y, rstrip ((a ++ [c]) ++ b) = (a ++ [c]) ++ y.
Proof.
  intros Hc. destruct (decide (rstrip b = [])) as [Hb|Hb]; [|by rewrite rstrip_app; eauto].
  apply rstrip_nil in Hb. rewrite rstrip_blank, rstrip_last by done. exists []. by rewrite app_nil_r.
Qed.
