(* ===== verification/Admission.v ===== *)
(** * Admission and dispatch of messages (sessions/manager.py, db/models.py,
    api/routers/sessions.py)

    What becomes of a message sent to a session: [prompt] starts a turn,
    queues it, folds it into an earlier message or rejects it; [_process_pending]
    starts queued ones; the sweeps bring back rows nothing has delivered; a
    cancel or the user withdraws them.  Beside every message goes a handle
    ([TurnExecution]) that its sender waits on, and the options its turn runs
    under.

    A [Desk] is one session with the manager's tables and the rows of its
    transcript; a step is one operation.  Most hold the session's lock across
    their awaits.  What does not take the lock can still fall into one, and the
    cases that matter are there: a turn finalized while a prompt saves its row
    ([finalizes]), admission closed meanwhile ([closes]), a removal cut in two
    ([RemovePending], [DeleteRow]), and a cancel whose stamp comes later
    ([Cancel], [Stamp]).  Any other cancel or removal is before or after the
    step it would fall into.  Database calls are taken to succeed, except the
    settling of a finished turn's row.  The switch of models an agent makes
    inside its own turn is left out.

    [begun], [accepted], [withdrawn] and [stillborn] only record.  The theorems
    are in AdmitHandles, AdmitOptions and AdmitOnce. *)
From stdpp Require Import gmap.
From S2P Require Import Prelude Events Session StateMachine PyStr Regex PyText.
Local Open Scope Z_scope.

(** ** The transcript *)
Inductive Role := User | Assistant | OtherRole.
Inductive Delivery := Pending | Consumed | Settled | CancelledRow.
#[export] Instance Role_eq_dec : EqDecision Role. Proof. solve_decision. Defined.
#[export] Instance Delivery_eq_dec : EqDecision Delivery. Proof. solve_decision. Defined.
(** A message and the metadata read here; [delivery] is [None] on a row the
    delivery protocol does not manage, [is_final] marks an assistant row with
    text and no calls. *)
Record Row := mkRow {
  row_id : Z;
  row_role : Role;
  row_content : string;
  delivery : option Delivery;
  row_cancelled : bool;
  injected : bool;
  parent : option Z;
  is_final : bool
}.
#[export] Instance Row_settable : Settable Row := λ r,
  mkRow (row_id r) (row_role r) (row_content r) (delivery r) (row_cancelled r) (injected r) (parent r) (is_final r).

Definition update_rows (P : Row → bool) (f : Row → Row) (rows : list Row) : list Row :=
  (λ r, if P r then f r else r) <$> rows.
Definition get_message (mid : Z) (rows : list Row) : option Row := head (filter (λ r, row_id r = mid) rows).
Definition has_status (s : Delivery) (r : Row) : bool := bool_decide (delivery r = Some s).
(** [set_message_delivery] *)
Definition set_message_delivery (ids : list Z) (status : Delivery) : list Row → list Row :=
  update_rows (λ r, bool_decide (row_id r ∈ ids) && bool_decide (delivery r ≠ None)
                    && (bool_decide (status ≠ Consumed) || has_status Pending r))
    (λ r, r <| delivery := Some status |>).
Definition requeue_message_delivery (mid : Z) : list Row → list Row :=
  update_rows (λ r, bool_decide (row_id r = mid) && has_status Pending r)
    (λ r, r <| parent := None |> <| injected := false |>).
Definition mark_messages_cancelled (ids : list Z) : list Row → list Row :=
  update_rows (λ r, bool_decide (row_id r ∈ ids)) (λ r, r <| row_cancelled := true |>).
Definition get_pending_user_message_ids (rows : list Row) : list Z :=
  row_id <$> filter (λ r, row_role r = User ∧ delivery r = Some Pending ∧ row_cancelled r = false) rows.
Definition turn_has_assistant_row (mid : Z) (rows : list Row) : bool :=
  existsb (λ r, bool_decide (row_role r = Assistant) && (mid <? row_id r)) rows.
Definition turn_has_final_answer (mid : Z) (rows : list Row) : bool :=
  existsb (λ r, bool_decide (row_role r = Assistant) && is_final r && bool_decide (parent r = Some mid)) rows.

(** Settled, given up or already read: recovery leaves it alone. *)
Definition is_closed (r : Row) : bool :=
  row_cancelled r || bool_decide (delivery r ∈ [Some Consumed; Some Settled; Some CancelledRow]).
(** A pending row is an orphan; an unmanaged one if another user row or the end
    comes before an answer. *)
Fixpoint orphans_from (pending_user : option Row) (rows : list Row) : list Row :=
  match rows with
  | [] => match pending_user with Some r => [r] | None => [] end
  | r :: rows =>
      match row_role r with
      | User =>
          if is_closed r then orphans_from pending_user rows
          else if has_status Pending r then r :: orphans_from pending_user rows
          else if injected r then orphans_from pending_user rows
          else match pending_user with
               | Some p => p :: orphans_from (Some r) rows
               | None => orphans_from (Some r) rows
               end
      | Assistant => orphans_from None rows
      | OtherRole => orphans_from pending_user rows
      end
  end.
Definition get_orphaned_user_messages (rows : list Row) : list Row := orphans_from None rows.

(** ** Executions *)
Record ExecOptions := mkOptions {
  o_model : option string;
  o_tools : option (gset string);
  o_budget : option Z
}.
(** An absent or empty setting is none. *)
Definition some_model (o : ExecOptions) : option string :=
  match o_model o with Some m => if decide (m = "")%string then None else Some m | None => None end.
Definition some_tools (o : ExecOptions) : option (gset string) :=
  match o_tools o with Some l => if decide (l = ∅) then None else Some l | None => None end.
Definition some_budget (o : ExecOptions) : option Z :=
  match o_budget o with Some b => if decide (b = 0) then None else Some b | None => None end.
Definition no_options (o : ExecOptions) : bool :=
  bool_decide (some_model o = None ∧ some_tools o = None ∧ some_budget o = None).

Inductive Result := Ended (r : ExecResult) | Rejected | Dropped | Absorbed | QueueCancelled.
Record Handle := mkHandle {
  h_options : option ExecOptions;
  h_origin : string;
  h_msg : option Z;
  h_running : bool;
  h_result : option Result
}.
#[export] Instance Handle_settable : Settable Handle := λ h,
  mkHandle (h_options h) (h_origin h) (h_msg h) (h_running h) (h_result h).

(** The session's own settings. *)
Record Pins := mkPins { p_model : option string; p_tools : option (gset string); p_budget : option Z }.
Definition pins_of (s : AgentSession) : Pins :=
  mkPins (model_override s) (tool_allowlist s) (context_budget_override s).
Definition set_pins (p : Pins) (s : AgentSession) : AgentSession :=
  s <| model_override := p_model p |> <| tool_allowlist := p_tools p |> <| context_budget_override := p_budget p |>.
Record AppliedExec := mkApplied { a_exec : nat; a_options : ExecOptions; a_saved : Pins }.

(** The task that owns the session. *)
Inductive Phase := Created | Running | Finalized | Closing.
#[export] Instance Phase_eq_dec : EqDecision Phase. Proof. solve_decision. Defined.
Record Run := mkRun {
  r_exec : option nat;
  r_message : string;
  r_pre_saved : bool;
  r_msg : option Z;              (** the row it was started for *)
  r_message_id : option Z;       (** [run_message_id] *)
  r_phase : Phase
}.
#[export] Instance Run_settable : Settable Run := λ r,
  mkRun (r_exec r) (r_message r) (r_pre_saved r) (r_msg r) (r_message_id r) (r_phase r).

Record Desk := mkDesk {
  sess : AgentSession;
  rows : list Row;
  next_id : Z;
  shutting_down : bool;
  handles : list Handle;
  pending_execs : gmap Z nat;
  active_exec : option AppliedExec;
  running : option Run;
  begun : list Z;
  accepted : list Z;
  withdrawn : list Z;
  stillborn : list Run
}.
#[export] Instance Desk_settable : Settable Desk := λ d,
  mkDesk (sess d) (rows d) (next_id d) (shutting_down d) (handles d) (pending_execs d) (active_exec d)
    (running d) (begun d) (accepted d) (withdrawn d) (stillborn d).
(** A session opened on the transcript the database has of it. *)
Definition open_desk (sid kind : string) (now : Z) (p : Pins) (rs : list Row) : Desk :=
  mkDesk (set_pins p (new_session sid now) <| session_type := kind |>) rs (foldr Z.max 0 (row_id <$> rs) + 1) false [] ∅ None None [] [] [] [].

(** First writer wins. *)
Definition settle (h : nat) (r : Result) (d : Desk) : Desk :=
  d <| handles ::= alter (λ x, match h_result x with Some _ => x | None => x <| h_result := Some r |> end) h |>.
Definition settle_opt (h : option nat) (r : Result) (d : Desk) : Desk :=
  match h with Some h => settle h r d | None => d end.
Definition mark_running (h : nat) (d : Desk) : Desk :=
  d <| handles ::= alter (λ x, match h_result x with Some _ => x | None => x <| h_running := true |> end) h |>.
Definition queued_ids (s : AgentSession) : list Z := omap msg_id (pending_messages s).

Definition _register_pending_exec (mid : option Z) (h : nat) (d : Desk) : Desk :=
  match mid with
  | None => d
  | Some mid => d <| handles ::= alter (λ x, x <| h_msg := Some mid |>) h |> <| pending_execs ::= <[mid := h]> |>
  end.
Definition _take_pending_exec (mid : option Z) (d : Desk) : Desk * option nat :=
  match mid with
  | None => (d, None)
  | Some mid => (d <| pending_execs ::= delete mid |>, pending_execs d !! mid)
  end.
(** For the given ids, or for all that are no longer queued. *)
Definition reap_one (r : Result) (mid : Z) (d : Desk) : Desk :=
  match pending_execs d !! mid with
  | Some h => settle h r (d <| pending_execs ::= delete mid |>)
  | None => d
  end.
Definition _reap_pending_execs (r : Result) (ids : option (list Z)) (d : Desk) : Desk :=
  let ids := match ids with
             | Some ids => ids
             | None => filter (λ m, m ∉ queued_ids (sess d)) (map_to_list (pending_execs d)).*1
             end in
  foldl (λ d mid, reap_one r mid d) d ids.

(** ** Options of a turn *)
(** [opts] over [base]; and back from [p] to the fields [opts] had displaced. *)
Definition overlay (o : ExecOptions) (base : Pins) : Pins :=
  mkPins (match some_model o with Some m => Some m | None => p_model base end)
         (match some_tools o with Some l => Some l | None => p_tools base end)
         (match some_budget o with Some b => Some b | None => p_budget base end).
Definition put_back (a : AppliedExec) (p : Pins) : Pins :=
  mkPins (match some_model (a_options a) with Some _ => p_model (a_saved a) | None => p_model p end)
         (match some_tools (a_options a) with Some _ => p_tools (a_saved a) | None => p_tools p end)
         (match some_budget (a_options a) with Some _ => p_budget (a_saved a) | None => p_budget p end).
Definition _restore_session_settings (a : AppliedExec) (s : AgentSession) : AgentSession :=
  set_pins (put_back a (pins_of s)) s.
Definition exec_options (h : option nat) (d : Desk) : option ExecOptions :=
  h ≫= λ h, handles d !! h ≫= h_options.
Definition _apply_execution (h : option nat) (d : Desk) : Desk :=
  let d := match active_exec d with
           | Some stale => d <| active_exec := None |> <| sess ::= _restore_session_settings stale |>
           | None => d
           end in
  match h, exec_options h d with
  | Some h, Some o =>
      if no_options o then d
      else let saved := pins_of (sess d) in
        d <| sess ::= set_pins (overlay o saved) |> <| active_exec := Some (mkApplied h o saved) |>
  | _, _ => d
  end.
Definition _release_execution (h : option nat) (d : Desk) : Desk :=
  match h, active_exec d with
  | Some h, Some a =>
      if decide (a_exec a = h)
      then d <| active_exec := None |> <| sess ::= _restore_session_settings a |> else d
  | _, _ => d
  end.

(** ** Folding *)
Definition _COMBINED_PREFIX : string := "[Combined rapid-fire messages]".
(** A line that starts an item (numbered in ASCII digits); the newline after it
    is white space too. *)
Definition item_number (last : bool) (line : text) : option N :=
  match span is_digit line with
  | (c :: ds, 46%N :: rest) =>
      if match rest with c :: _ => is_space c | [] => negb last end then Some (int_of (c :: ds)) else None
  | _ => None
  end.
Fixpoint item_numbers (lines : list text) : list N :=
  match lines with
  | [] => []
  | [l] => match item_number true l with Some n => [n] | None => [] end
  | l :: ls => match item_number false l with Some n => n :: item_numbers ls | None => item_numbers ls end
  end.
Definition _combine_rapid_fire (existing addition : string) : string :=
  let blank := to_string [NL; NL] in
  if starts_with (t _COMBINED_PREFIX) (t existing) then
    let next := (foldr N.max 0 (item_numbers (split_lines (t existing))) + 1)%N in
    existing +:+ blank +:+ to_string (decimal next) +:+ ". " +:+ addition
  else _COMBINED_PREFIX +:+ blank +:+ "1. " +:+ existing +:+ blank +:+ "2. " +:+ addition.

Definition RAPID_FIRE_WINDOW : Z := 3000000000.
Definition _can_absorb_rapid_fire (target : Z) (d : Desk) : bool :=
  bool_decide (current_turn_user_msg_id (sess d) ≠ Some target) || negb (turn_has_final_answer target (rows d)).

(** ** Starting turns *)
Definition start_task (h : option nat) (message : string) (pre_saved : bool) (mid : option Z) (d : Desk) : Desk :=
  let d := match h with Some h => mark_running h d | None => d end in
  d <| sess ::= λ s, s <| task := Some false |> |> <| running := Some (mkRun h message pre_saved mid None Created) |>.
Definition enqueue (e : PendingMessage) (d : Desk) : Desk :=
  d <| sess ::= λ s, s <| pending_messages ::= λ q, q ++ [e] |> |>.
Definition entry (message : string) (now : Z) (mid : option Z) : PendingMessage :=
  mkPendingMessage message (Some "") true now mid false None.

(** The loop that pops until an entry is admitted; [admits] is what
    [_admit_continuation] (Goals) answers for a durable continuation. *)
Definition admits_entry (admits : Z → bool) (e : PendingMessage) : bool :=
  match continuation_id e with Some c => admits c | None => true end.
Fixpoint next_entry (admits : Z → bool) (q : list PendingMessage) (d : Desk) : Desk * option PendingMessage :=
  match q with
  | [] => (d, None)
  | e :: q =>
      let d := d <| sess ::= λ s, s <| pending_messages := q |> |> in
      if admits_entry admits e then (d, Some e)
      else next_entry admits q (_reap_pending_execs Dropped (Some (option_list (msg_id e))) d)
  end.
Definition dispatch (e : PendingMessage) (d : Desk) : Desk :=
  let d := d <| sess ::= λ s, s <| goal_continuation_active := is_goal_continuation e |>
                                <| error := None |> <| termination_reason := None |> |> in
  let d := match msg_id e with
           | Some m => d <| sess ::= λ s, s <| current_turn_user_msg_id := Some m |> |>
           | None => d
           end in
  let '(d, h) := _take_pending_exec (msg_id e) d in
  start_task h (message e) (pre_saved e) (msg_id e) d.
(** [own]: called from the task that owns the session. *)
Definition _process_pending (own : bool) (ready : list SessionStateV2) (admits : Z → bool) (d : Desk) : Desk :=
  if shutting_down d then d
  else
    let d := _reap_pending_execs Dropped None d in
    if decide (pending_messages (sess d) = []) then d
    else if decide (current_state (sess d) ∉ ready) then d
    else if task_live (sess d) && negb own then d
    else match next_entry admits (pending_messages (sess d)) d with
    | (d, Some e) => dispatch e d
    | (d, None) => d
    end.

(** ** Recovery *)
Definition _find_db_orphans (d : Desk) : list Row :=
  let rs := get_orphaned_user_messages (rows d) in
  if decide (session_type (sess d) = "worker") then filter (λ r, delivery r = Some Pending) rs else rs.
Definition unswept (d : Desk) (rs : list Row) : list Row :=
  filter (λ r, row_id r ∉ swept_orphan_ids (sess d)) rs.
(** The row goes back into the queue. *)
Definition requeue (now : Z) (r : Row) (d : Desk) : Desk :=
  let mid := row_id r in
  let d := d <| rows ::= requeue_message_delivery mid |>
             <| sess ::= λ s, s <| swept_orphan_ids ::= λ w, {[mid]} ∪ w |> |> in
  if decide (mid ∈ queued_ids (sess d)) then d
  else enqueue (entry (row_content r) now (Some mid)) d.
Definition _sweep_db_pending (now : Z) (exclude : option Z) (d : Desk) : Desk :=
  let orphans := unswept d (filter (λ r, exclude ≠ Some (row_id r)) (_find_db_orphans d)) in
  match last orphans with
  | None => d
  | Some l =>
      let d := foldl (λ d r, if decide (row_id r ∈ queued_ids (sess d)) then d else requeue now r d) d orphans in
      if decide (default 0 (last_user_msg_id (sess d)) < row_id l)
      then d <| sess ::= λ s, s <| last_user_msg_id := Some (row_id l) |> <| last_user_msg_at := now |> |>
      else d
  end.

(** ** A turn *)
(** [_run_agent_safe] up to scouting. *)
Definition begin (now : Z) (r : Run) (d : Desk) : Desk :=
  let d := d <| sess ::= λ s, s <| turn := new_turn_state |> |> in
  let d := _apply_execution (r_exec r) d in
  let mid := current_turn_user_msg_id (sess d) in
  let d := match r_msg r with Some m => d <| begun ::= cons m |> | None => d end in
  let fresh := next_id d in
  if bool_decide (current_state (sess d) = IDLE_READY) && bool_decide (r_message r ≠ "") && negb (r_pre_saved r) then
    d <| rows ::= λ l, l ++ [mkRow fresh User (r_message r) None false false None false] |>
      <| next_id := fresh + 1 |>
      <| sess ::= λ s, s <| last_user_msg_id := Some fresh |> <| last_user_msg_at := now |>
                         <| current_turn_user_msg_id := Some fresh |> |>
      <| running := Some (r <| r_message_id := Some fresh |> <| r_phase := Running |>) |>
  else d <| running := Some (r <| r_message_id := mid |> <| r_phase := Running |>) |>.
(** How [_finalize_turn] leaves: past its last cancel check, by its cancel
    exit, or by an exception before either. *)
Inductive Leaving := Normally | ByCancel | Raised.
Definition finalize (how : Leaving) (now : Z) (r : Run) (d : Desk) : Desk :=
  let d := d <| running := Some (r <| r_phase := Finalized |>) |> in
  match how with
  | Raised => d
  | ByCancel => d <| sess ::= λ s, s <| current_turn_user_msg_id := None |> |>
  | Normally =>
      let completed := current_turn_user_msg_id (sess d) in
      _sweep_db_pending now completed (d <| sess ::= λ s, s <| current_turn_user_msg_id := None |> |>)
  end.
(** The last [finally] block; [written] is false when settling the row fails. *)
Definition close (written : bool) (r : Run) (d : Desk) : Desk :=
  let d := match r_message_id r with
           | Some m => if written then d <| rows ::= set_message_delivery [m] Settled |> else d
           | None => d
           end in
  let d := _release_execution (r_exec r) d in
  let d := settle_opt (r_exec r) (Ended (execution_result (sess d))) d in
  d <| running := Some (r <| r_phase := Closing |>) |>.
Definition task_done (d : Desk) : Desk := d <| sess ::= λ s, s <| task := Some true |> |> <| running := None |>.
(** And the drain it ends with. *)
Definition dispatch_next (admits : Z → bool) (d : Desk) : Desk :=
  let d := _process_pending true [IDLE_READY] admits d in
  match running d with
  | Some r => if decide (r_phase r = Closing) then task_done d else d
  | None => d
  end.
(** A task cancelled before its first step never runs its body. *)
Definition never_began (r : Run) (d : Desk) : Desk := (task_done d) <| stillborn ::= cons r |>.

(** ** Admission *)
Inductive Admission :=
| AdmitStarted (mid : option Z)
| AdmitQueued (mid : option Z)
| AdmitAbsorbed (mid : Z)
| AdmitRejected (why : string).

Definition reject (h : nat) (why : string) (d : Desk) : Desk * Admission :=
  (settle h Rejected d, AdmitRejected why).
(** [save_prompt]: the row, pending; then the watermark of rapid-fire folding. *)
Definition save_row (message : string) (d : Desk) : Desk :=
  d <| rows ::= λ l, l ++ [mkRow (next_id d) User message (Some Pending) false false None false] |>
    <| next_id ::= λ n, n + 1 |>.
Definition watermark (now mid : Z) (d : Desk) : Desk :=
  d <| sess ::= λ s, s <| last_user_msg_id := Some mid |> <| last_user_msg_at := now |> |>.
Definition save_prompt (now : Z) (message : string) (d : Desk) : Desk * Z :=
  (watermark now (next_id d) (save_row message d), next_id d).
(** What the turn in flight does while the row is being written. *)
Definition meanwhile (finalizes : bool) (now : Z) (d : Desk) : Desk :=
  match running d with
  | Some r => if finalizes && bool_decide (r_phase r = Running) then finalize Normally now r d else d
  | None => d
  end.
Definition accept (mid : Z) (d : Desk) : Desk := d <| accepted ::= cons mid |>.

(** The row a message sent while the session is busy is folded into. *)
Definition fold_target (now : Z) (opts : option ExecOptions) (origin message : string) (settling : bool) (d : Desk)
    : option Row :=
  if bool_decide (message ≠ "") && bool_decide (origin = "user") && bool_decide (opts = None) && negb settling then
    match last_user_msg_id (sess d) with
    | Some target =>
        if decide (now - last_user_msg_at (sess d) <= RAPID_FIRE_WINDOW) then
          match get_message target (rows d) with
          | Some row => if _can_absorb_rapid_fire target d then Some row else None
          | None => None
          end
        else None
    | None => None
    end
  else None.
(** The first queued entry of the row is told the new text. *)
Fixpoint retell (target : Z) (combined : string) (now : Z) (q : list PendingMessage) : list PendingMessage :=
  match q with
  | [] => []
  | e :: q => if decide (msg_id e = Some target) then e <| message := combined |> <| queued_at := now |> :: q
              else e :: retell target combined now q
  end.
Definition fold_into (now : Z) (row : Row) (message : string) (h : nat) (d : Desk) : Desk * Admission :=
  let target := row_id row in
  let combined := _combine_rapid_fire (row_content row) message in
  let d := d <| rows ::= update_rows (λ r, bool_decide (row_id r = target)) (λ r, r <| row_content := combined |>) |> in
  let d := if decide (current_turn_user_msg_id (sess d) = Some target)
           then d <| sess ::= λ s, s <| turn ::= λ u, u <| user_row_version ::= Z.add 1 |> |> |> else d in
  let d := d <| sess ::= λ s, s <| last_user_msg_at := now |> <| pending_messages ::= retell target combined now |> |> in
  (settle h Absorbed d, AdmitAbsorbed target).

Definition park (now : Z) (message : string) (h : nat) (mid : Z) (d : Desk) : Desk * Admission :=
  (accept mid (_register_pending_exec (Some mid) h (enqueue (entry message now (Some mid)) d)),
   AdmitQueued (Some mid)).
(** [finalizes]: the turn in flight is finalized while the row is saved. *)
Definition queue_behind (finalizes : bool) (now : Z) (message : string) (h : nat) (d : Desk) : Desk * Admission :=
  if decide (message = "") then
    (settle h Dropped (enqueue (entry message now None) d), AdmitQueued None)
  else
    let mid := next_id d in
    park now message h mid (watermark now mid (meanwhile finalizes now (save_row message d))).
Definition busy_prompt (max_pending : nat) (finalizes : bool) (now : Z) (opts : option ExecOptions) (origin message : string)
    (settling : bool) (h : nat) (d : Desk) : Desk * Admission :=
  if (max_pending <=? length (pending_messages (sess d)))%nat then reject h "queue_full" d
  else match fold_target now opts origin message settling d with
  | Some row => fold_into now row message h d
  | None => queue_behind finalizes now message h d
  end.

(** A new user turn on the session. *)
Definition reset_for_turn (s : AgentSession) : AgentSession :=
  s <| cancel_requested := false |> <| turn := new_turn_state |> <| goal_continuation_active := false |>
    <| error := None |> <| termination_reason := None |>.
(** [closes]: admission closes while the row is being saved. *)
Definition start_now (closes : bool) (now : Z) (message : string) (h : nat) (d : Desk) : Desk * Admission :=
  let '(d, mid) := if decide (message = "") then (d, None)
                   else let '(d, mid) := save_prompt now message d in
                     (d <| sess ::= λ s, s <| current_turn_user_msg_id := Some mid |> |>, Some mid) in
  if closes then reject h "shutting_down" (d <| shutting_down := true |>)
  else
    let d := d <| handles ::= alter (λ x, x <| h_msg := mid |>) h |> in
    (match mid with Some mid => accept mid | None => id end (start_task (Some h) message (bool_decide (message ≠ "")) mid d), AdmitStarted mid).
Definition behind_orphans (now : Z) (message : string) (h : nat) (d : Desk) : Desk * Admission :=
  if decide (message = "") then (settle h Dropped d, AdmitQueued None)
  else
    let '(d, mid) := save_prompt now message d in park now message h mid d.
Definition fresh_prompt (runner closes : bool) (now : Z) (message : string) (h : nat) (d : Desk) : Desk * Admission :=
  let awaiting := bool_decide (current_state (sess d) = AWAITING_USER) in
  let d := d <| sess ::= reset_for_turn |> in
  if negb runner then reject h "no_agent_runner" d
  else
    match if awaiting then [] else unswept d (_find_db_orphans d) with
    | [] => start_now closes now message h d
    | orphans => behind_orphans now message h (foldl (λ d r, requeue now r d) d orphans)
    end.

(** The handle is the next free one.  A prompt never comes from the task that
    owns the session. *)
Definition prompt (max_pending : nat) (runner closes finalizes : bool) (now : Z) (opts : option ExecOptions)
    (origin message : string) (d : Desk) : Desk * Admission :=
  let h := length (handles d) in
  let d := d <| handles ::= λ l, l ++ [mkHandle opts origin None false None] |> in
  if bool_decide (opts ≠ None) && bool_decide (message = "") then reject h "empty_message" d
  else if shutting_down d then reject h "shutting_down" d
  else
    let state := current_state (sess d) in
    let ready := bool_decide (state ∈ [IDLE_READY; AWAITING_USER]) in
    let settling := task_live (sess d) && ready in
    if decide (state = CANCELLING) then reject h "cancelling" d
    else if settling || negb ready then busy_prompt max_pending finalizes now opts origin message settling h d
    else fresh_prompt runner closes now message h d.

(** A correction for the turn in progress; any other goes through [prompt]. *)
Definition steer_accepts (s : AgentSession) : bool :=
  task_live s && bool_decide (current_state s ∈ [SCOUTING; PROCESSING; COMPACTING; PAUSE_REQUESTED; PAUSED])
  || bool_decide (current_state s = AWAITING_WORKERS).
Definition steer (max_pending : nat) (runner closes finalizes : bool) (now : Z) (origin message : string) (d : Desk)
    : Desk :=
  let s := sess d in
  let state := current_state s in
  if shutting_down d || cancel_requested s || bool_decide (state = CANCELLING) then
    settle (length (handles d)) Rejected (d <| handles ::= λ l, l ++ [mkHandle None origin None false None] |>)
  else if steer_accepts s then
    d <| rows ::= λ l,
          l ++ [mkRow (next_id d) User message (Some Pending) false true (current_turn_user_msg_id s) false] |>
      <| next_id ::= λ n, n + 1 |>
      <| sess ::= λ s, s <| turn ::= λ u, u <| user_row_version ::= Z.add 1 |> |> |>
  else (prompt max_pending runner closes finalizes now None origin message d).1.

(** ** Withdrawal *)
Definition _drain_pending_for_cancel (d : Desk) : Desk :=
  let d := d <| withdrawn ::= λ w, queued_ids (sess d) ++ w |> in
  _reap_pending_execs QueueCancelled None (d <| sess ::= λ s, s <| pending_messages := [] |> |>).
Definition _stamp_cancel_disposition (queued : list Z) (run : option Z) (scan_pending : bool) (d : Desk) : Desk :=
  let scanned := if scan_pending
                 then filter (λ m, Some m ≠ run ∧ m ∉ queued) (get_pending_user_message_ids (rows d)) else [] in
  let unanswered := match run with
                    | Some m => if turn_has_assistant_row m (rows d) then [] else [m]
                    | None => []
                    end in
  let ids := queued ++ scanned ++ unanswered in
  d <| rows ::= λ l, set_message_delivery ids CancelledRow (mark_messages_cancelled ids l) |>.
(** The task's own end is a later step. *)
Definition cancel_session (for_delete : bool) (d : Desk) : Desk :=
  let d := d <| sess ::= λ s, s <| cancel_requested := true |> |> in
  let queued := queued_ids (sess d) in
  let run := current_turn_user_msg_id (sess d) in
  _stamp_cancel_disposition queued run (negb for_delete) (_drain_pending_for_cancel d).
(** Removing one queued message: the entry, and after a thread hop the row. *)
Fixpoint remove_entry (mid : Z) (q : list PendingMessage) : list PendingMessage :=
  match q with
  | [] => []
  | e :: q => if decide (msg_id e = Some mid) then q else e :: remove_entry mid q
  end.
Definition remove_pending (mid : Z) (d : Desk) : Desk :=
  d <| sess ::= λ s, s <| pending_messages ::= remove_entry mid |> |>
    <| withdrawn ::= cons mid |>.
Definition delete_row (mid : Z) (d : Desk) : Desk :=
  let d := d <| rows ::= filter (λ r, row_id r ≠ mid) |> in
  if decide (last_user_msg_id (sess d) = Some mid)
  then d <| sess ::= λ s, s <| last_user_msg_id := None |> |> else d.

(** ** The harness's own messages *)
(** [_resume_from_workers], once the resume is due. *)
Definition resume_parent (now : Z) (resume_msg : string) (d : Desk) : Desk :=
  let queued := enqueue (mkPendingMessage resume_msg None false now None false None) d in
  if task_live (sess d) then queued
  else if decide (current_state (sess d) = AWAITING_WORKERS) then
    if shutting_down d then d
    else start_task None resume_msg false None
           (d <| sess ::= λ s, s <| cancel_requested := false |> <| turn := new_turn_state |>
                                 <| error := None |> <| termination_reason := None |> |>)
  else if decide (current_state (sess d) = IDLE_READY) then queued
  else d.
Definition enqueue_continuation (cid : Z) (text : string) (now : Z) (d : Desk) : Desk :=
  enqueue (mkPendingMessage text None false now None true (Some cid)) d.

(** ** A session's life *)
Inductive Op :=
| Prompt (max_pending : nat) (runner closes finalizes : bool) (now : Z) (opts : option ExecOptions)
    (origin message : string)
| Steer (max_pending : nat) (runner closes finalizes : bool) (now : Z) (origin message : string)
| Drain (ready : list SessionStateV2) (admits : Z → bool)
| Resume (now : Z) (resume_msg : string)
| Continue (cid : Z) (text : string) (now : Z)
| Begin (now : Z)
| Answer (final : bool)                       (** an assistant row of the turn *)
| Consume (ids : list Z)                      (** rows a response has used *)
| Reports (err termination : option string)
| Moves (to : SessionStateV2)
| Finalize (how : Leaving) (now : Z)
| Close (written : bool)
| DispatchNext (admits : Z → bool)
| Dies                                        (** the task is cancelled while it waits to drain *)
| NeverBegan
| Cancel (for_delete : bool)
| Stamp (queued : list Z) (run : option Z)    (** the other half of a cancel, off the loop *)
| RemovePending (mid : Z)
| DeleteRow (mid : Z)
| Repin (p : Pins)                            (** the user changes the session's settings *)
| CloseAdmission.

(** A step of the task that owns the session, when it is at [phase]. *)
Definition when_at (phase : Phase) (f : Run → Desk → Desk) (d : Desk) : Desk :=
  match running d with
  | Some r => if decide (r_phase r = phase) then f r d else d
  | None => d
  end.
Definition answer (final : bool) (d : Desk) : Desk :=
  d <| rows ::= λ l, l ++ [mkRow (next_id d) Assistant "" None false false (current_turn_user_msg_id (sess d)) final] |>
    <| next_id ::= λ n, n + 1 |>.
Definition step (d : Desk) (op : Op) : Desk :=
  match op with
  | Prompt max runner closes finalizes now opts origin message =>
      (prompt max runner closes finalizes now opts origin message d).1
  | Steer max runner closes finalizes now origin message => steer max runner closes finalizes now origin message d
  | Drain ready admits => _process_pending false ready admits d
  | Resume now text => resume_parent now text d
  | Continue cid text now => enqueue_continuation cid text now d
  | Begin now => when_at Created (begin now) d
  | Answer final => when_at Running (λ _, answer final) d
  | Consume ids => d <| rows ::= set_message_delivery ids Consumed |>
  | Reports err tr => d <| sess ::= λ s, s <| error := err |> <| termination_reason := tr |> |>
  | Moves to => d <| sess ::= λ s, s <| state_v2 := Some to |> |>
  | Finalize how now => when_at Running (finalize how now) d
  | Close written => when_at Finalized (close written) d
  | DispatchNext admits => when_at Closing (λ _, dispatch_next admits) d
  | Dies => when_at Closing (λ _, task_done) d
  | NeverBegan => when_at Created never_began d
  | Cancel for_delete => cancel_session for_delete d
  | Stamp queued run => _stamp_cancel_disposition queued run true d
  | RemovePending mid => if decide (mid ∈ queued_ids (sess d)) then remove_pending mid d else d
  | DeleteRow mid => delete_row mid d
  | Repin p => d <| sess ::= set_pins p |>
  | CloseAdmission => d <| shutting_down := true |>
  end.
Definition run (ops : list Op) (d : Desk) : Desk := foldl step d ops.

(** Every write of the turn's end reaches the database, and no turn is
    finalized between the saving of a row and its queueing. *)
Definition calm (op : Op) : Prop :=
  match op with
  | Prompt _ _ _ finalizes _ _ _ _ | Steer _ _ _ finalizes _ _ _ => finalizes = false
  | Close written => written = true
  | _ => True
  end.
#[export] Instance calm_dec op : Decision (calm op).
Proof. destruct op; apply _. Defined.

(** ** Concrete desks *)
Definition no_pins : Pins := mkPins None None None.
Definition a_desk : Desk := open_desk "s" "normal" 0 no_pins [].
Definition say (now : Z) (text : string) : Op := Prompt 10 true false false now None "user" text.
Definition job (now : Z) (text : string) : Op :=
  Prompt 10 true false false now (Some (mkOptions (Some "small") None None)) "scheduled" text.
Definition turn_ends : list Op := [Moves IDLE_READY; Finalize Normally 5; Close true; DispatchNext (λ _, true)].
(** A turn, a job queued behind it, its own turn, and a message withdrawn. *)
Definition a_day : list Op :=
  [say 0 "hi"; Begin 1; Moves PROCESSING; Answer true; job 9000000000 "report"] ++ turn_ends ++
  [Begin 2; Moves PROCESSING; say 20000000000 "and this"; RemovePending 4].
