(* ===== verification/AdmitHandles.v ===== *)
(** * What senders are owed

    Over the steps of Admission.v: handles only settle, every open one is owed
    by someone, and every message taken on is somewhere.  The proofs say for
    each operation what it leaves alone ([apart_from_queue],
    [apart_from_execs]) and carry two invariants, [handled] and [placed], with
    the handle or the queue entry an operation holds in hand as a parameter. *)
From stdpp Require Import gmap.
From S2P Require Import Prelude Events Session StateMachine PyStr PyText Admission.
Local Open Scope Z_scope.

(** ** What a step leaves alone *)
(** A desk without its transcript, its queue and its bookkeeping of both: all
    that recovery, folding and saving a row may change. *)
Definition apart_from_queue (d : Desk) : Desk :=
  d <| rows := [] |> <| next_id := 0 |>
    <| sess ::= λ s, s <| pending_messages := [] |> <| swept_orphan_ids := ∅ |> <| last_user_msg_id := None |>
                       <| last_user_msg_at := 0 |> |>.
(** A desk without the executions waiting in it. *)
Definition apart_from_execs (d : Desk) : Desk := d <| handles := [] |> <| pending_execs := ∅ |>.

Lemma requeue_apart now r d : apart_from_queue (requeue now r d) = apart_from_queue d.
Proof. unfold requeue. by case_decide. Qed.
Lemma requeue_next_id now r d : next_id (requeue now r d) = next_id d.
Proof. unfold requeue. by case_decide. Qed.
Lemma foldl_view {A B} (view : B → A) {C} (f : B → C → B) l b :
  (∀ b c, view (f b c) = view b) → view (foldl f b l) = view b.
Proof. intros Hf. revert b. induction l as [|c l IH]; intros b; [done|]. cbn. by rewrite IH, Hf. Qed.
Lemma sweep_apart now e d : apart_from_queue (_sweep_db_pending now e d) = apart_from_queue d.
Proof.
  unfold _sweep_db_pending. destruct (last _) as [l|]; [|done].
  set (d' := foldl _ _ _).
  assert (apart_from_queue d' = apart_from_queue d) as Hd'.
  { apply (foldl_view apart_from_queue). intros b c. case_decide; [done|apply requeue_apart]. }
  by case_decide.
Qed.
Lemma sweep_next_id now e d : next_id (_sweep_db_pending now e d) = next_id d.
Proof.
  unfold _sweep_db_pending. destruct (last _) as [l|]; [|done].
  set (d' := foldl _ _ _).
  assert (next_id d' = next_id d) as Hd'.
  { apply (foldl_view next_id). intros b c. case_decide; [done|apply requeue_next_id]. }
  by case_decide.
Qed.
Lemma reap_one_apart r d mid : apart_from_execs (reap_one r mid d) = apart_from_execs d.
Proof. unfold reap_one. by destruct (_ !! _). Qed.
Lemma reap_apart r ids d : apart_from_execs (_reap_pending_execs r ids d) = apart_from_execs d.
Proof. unfold _reap_pending_execs. apply (foldl_view apart_from_execs). intros. apply reap_one_apart. Qed.

(** ** Handles only settle *)
Definition handle_grows (x y : Handle) : Prop :=
  h_options y = h_options x ∧ (h_result x ≠ None → h_result y = h_result x).
Definition grows (d d' : Desk) : Prop :=
  ∀ h x, handles d !! h = Some x → ∃ y, handles d' !! h = Some y ∧ handle_grows x y.
#[export] Instance handle_grows_preorder : PreOrder handle_grows.
Proof.
  split; [by intros x|]. intros x y z [Ho1 Hr1] [Ho2 Hr2]. split; [congruence|].
  intros Hx. rewrite <- (Hr1 Hx). apply Hr2. by rewrite (Hr1 Hx).
Qed.
#[export] Instance grows_preorder : PreOrder grows.
Proof.
  split; [intros d h x Hx; by exists x|]. intros d e f Hde Hef h x Hx.
  destruct (Hde h x Hx) as (y & Hy & Hxy). destruct (Hef h y Hy) as (z & Hz & Hyz).
  exists z. split; [done|by etrans].
Qed.
Lemma same_grows d d' : handles d' = handles d → grows d d'.
Proof. intros E h x Hx. exists x. by rewrite E. Qed.
Lemma alter_grows f h d :
  (∀ x, handle_grows x (f x)) → grows d (d <| handles ::= alter f h |>).
Proof.
  intros Hf k x Hx. destruct (decide (k = h)) as [->|Hne].
  - exists (f x). split; [|done]. cbn. by rewrite list_lookup_alter_eq, Hx.
  - exists x. split; [|done]. cbn. by rewrite list_lookup_alter_ne.
Qed.
Lemma settle_grows h r d : grows d (settle h r d).
Proof. apply alter_grows. intros x. destruct (h_result x) eqn:E; [done|]. split; [done|]. by rewrite E. Qed.
Lemma mark_running_grows h d : grows d (mark_running h d).
Proof. apply alter_grows. intros x. destruct (h_result x) eqn:E; [done|]. split; [done|]. by rewrite E. Qed.
Lemma new_handle_grows x d : grows d (d <| handles ::= λ l, l ++ [x] |>).
Proof. intros h y Hy. exists y. split; [|done]. cbn. by apply lookup_app_l_Some. Qed.
Lemma grows_length d d' : grows d d' → (length (handles d) ≤ length (handles d'))%nat.
Proof.
  intros Hg. destruct (length (handles d)) as [|n] eqn:E; [lia|].
  destruct (lookup_lt_is_Some_2 (handles d) n) as [x Hx]; [lia|].
  destruct (Hg n x Hx) as (y & Hy & _). apply lookup_lt_Some in Hy. lia.
Qed.
Lemma settle_settles h r d x : handles (settle h r d) !! h = Some x → h_result x ≠ None.
Proof.
  cbn. rewrite list_lookup_alter_eq. destruct (handles d !! h) as [y|]; [|done]. cbn.
  intros [= <-]. by destruct (h_result y) eqn:E; [rewrite E|].
Qed.
Lemma foldl_grows {A} (f : Desk → A → Desk) l d : (∀ d a, grows d (f d a)) → grows d (foldl f d l).
Proof. intros Hf. revert d. induction l as [|a l IH]; intros d; cbn; [done|]. etrans; [apply Hf|apply IH]. Qed.
Lemma reap_one_grows r mid d : grows d (reap_one r mid d).
Proof. unfold reap_one. destruct (_ !! _); [|done]. etrans; [|apply settle_grows]. by apply same_grows. Qed.
Lemma reap_grows r ids d : grows d (_reap_pending_execs r ids d).
Proof. apply foldl_grows. intros. apply reap_one_grows. Qed.

(** ** Who owes a handle its result *)
Definition owed (d : Desk) (h : nat) : Prop :=
  (∃ mid, pending_execs d !! mid = Some h) ∨
  (∃ r, running d = Some r ∧ r_exec r = Some h ∧ r_phase r ≠ Closing) ∨
  (∃ r, r ∈ stillborn d ∧ r_exec r = Some h).
(** Every open handle is owed, apart from the one in [hand]. *)
Record handled (hand : option nat) (d : Desk) : Prop := mkHandled {
  open_owed h x : handles d !! h = Some x → h_result x = None → hand = Some h ∨ owed d h;
  parked_old mid h : pending_execs d !! mid = Some h → mid < next_id d ∧ (h < length (handles d))%nat;
  running_old r h : running d = Some r → r_exec r = Some h → (h < length (handles d))%nat;
  live_running : task_live (sess d) = bool_decide (is_Some (running d))
}.

Lemma handled_frame hand d d' :
  handles d' = handles d → pending_execs d' = pending_execs d → running d' = running d →
  stillborn d' = stillborn d → next_id d ≤ next_id d' → task (sess d') = task (sess d) →
  handled hand d → handled hand d'.
Proof.
  intros Eh Ep Er Es Hn Et [H1 H2 H3 H4]. split.
  - intros h x. rewrite Eh. unfold owed. rewrite Ep, Er, Es. apply H1.
  - intros mid h. rewrite Ep, Eh. intros Hm. destruct (H2 mid h Hm). lia.
  - intros r h. rewrite Er, Eh. apply H3.
  - unfold task_live in *. by rewrite Et, Er.
Qed.
Lemma handled_apart hand d d' :
  apart_from_queue d' = apart_from_queue d → next_id d' = next_id d → handled hand d → handled hand d'.
Proof.
  intros E En. apply handled_frame.
  - apply (f_equal handles E).
  - apply (f_equal pending_execs E).
  - apply (f_equal running E).
  - apply (f_equal stillborn E).
  - lia.
  - apply (f_equal (λ d, task (sess d)) E).
Qed.
(** The handles change, no one else does. *)
Lemma handled_grows hand hand' d d' :
  grows d d' → length (handles d') = length (handles d) →
  pending_execs d' = pending_execs d → running d' = running d → stillborn d' = stillborn d →
  next_id d' = next_id d → task (sess d') = task (sess d) →
  (∀ h x, hand = Some h → handles d' !! h = Some x → h_result x = None → hand' = Some h) →
  handled hand d → handled hand' d'.
Proof.
  intros Hg El Ep Er Es En Et Hh [H1 H2 H3 H4]. split.
  - intros h x Hx Hnone.
    destruct (lookup_lt_is_Some_2 (handles d) h) as [y Hy]; [rewrite <- El; by eapply lookup_lt_Some|].
    destruct (Hg h y Hy) as (x' & Hx' & _ & Hr). simplify_eq.
    destruct (h_result y) eqn:Ey; [by rewrite Hr in Hnone|].
    destruct (H1 h y Hy Ey) as [->|Ho]; [left; by eapply Hh|]. right. unfold owed. by rewrite Ep, Er, Es.
  - intros mid h. rewrite Ep, El, En. apply H2.
  - intros r h. rewrite Er, El. apply H3.
  - unfold task_live in *. by rewrite Et, Er.
Qed.
Lemma settle_handled h r d : handled (Some h) d → handled None (settle h r d).
Proof.
  apply handled_grows; try done.
  - apply settle_grows.
  - cbn. by rewrite length_alter.
  - intros k x [= <-] Hx Hn. by destruct (settle_settles _ _ _ _ Hx).
Qed.
Lemma settle_more hand h r d : handled hand d → handled hand (settle h r d).
Proof. apply handled_grows; try done; [apply settle_grows|cbn; by rewrite length_alter]. Qed.

Lemma new_handle_handled x d :
  handled None d → handled (Some (length (handles d))) (d <| handles ::= λ l, l ++ [x] |>).
Proof.
  intros [H1 H2 H3 H4]. split; cbn; [| | |done].
  - intros h y Hy Hn. apply lookup_app_Some in Hy as [Hy|[Hle Hy]].
    + right. by destruct (H1 h y Hy Hn) as [?|Ho].
    + left. f_equal. destruct (h - length (handles d))%nat eqn:E; [lia|done].
  - intros mid h Hm. rewrite length_app. destruct (H2 mid h Hm). cbn. lia.
  - intros r h Hr Hh. rewrite length_app. specialize (H3 r h Hr Hh). lia.
Qed.
Lemma register_handled h mid d :
  mid < next_id d → (h < length (handles d))%nat → pending_execs d !! mid = None →
  handled (Some h) d → handled None (_register_pending_exec (Some mid) h d).
Proof.
  intros Hmid Hh Hfree [H1 H2 H3 H4]. split; cbn; [| | |done].
  - intros k x Hx Hn. right. rewrite list_lookup_alter in Hx. case_decide as E; [subst k|].
    { left. exists mid. cbn. by rewrite lookup_insert_eq. }
    destruct (H1 k x Hx Hn) as [[= ?]|[[m Hm]|Ho]]; [done| |by right].
    left. exists m. cbn. by rewrite lookup_insert_ne by naive_solver.
  - intros m k Hm. rewrite length_alter.
    apply lookup_insert_Some in Hm as [[<- <-]|[_ Hm]]; [done|by apply (H2 m k)].
  - intros r k Hr Hk. rewrite length_alter. by apply (H3 r k).
Qed.
Lemma take_handled mid d :
  handled None d → handled (_take_pending_exec mid d).2 (_take_pending_exec mid d).1.
Proof.
  intros Hok. unfold _take_pending_exec. destruct mid as [mid|]; [|done]. cbn.
  destruct Hok as [H1 H2 H3 H4]. split; cbn; [| |done|done].
  - intros h x Hx Hn. destruct (H1 h x Hx Hn) as [?|[[m Hm]|Ho]]; [done| |right; by right].
    destruct (decide (m = mid)) as [->|Hne]; [by left|].
    right. left. exists m. cbn. by rewrite lookup_delete_ne.
  - intros m h Hm. apply lookup_delete_Some in Hm as [_ Hm]. by apply (H2 m h).
Qed.
Lemma reap_one_handled r mid d : handled None d → handled None (reap_one r mid d).
Proof.
  intros Hok. unfold reap_one. destruct (_ !! _) as [h|] eqn:E; [|done].
  pose proof (take_handled (Some mid) d Hok) as Ht. cbn in Ht. rewrite E in Ht.
  by apply settle_handled.
Qed.
Lemma reap_handled r ids d : handled None d → handled None (_reap_pending_execs r ids d).
Proof.
  unfold _reap_pending_execs. set (l := match ids with Some _ => _ | None => _ end). clearbody l.
  revert d. induction l as [|m l IH]; intros d Hok; [done|]. cbn. by apply IH, reap_one_handled.
Qed.
(** A task starts only when none is live, or by the one that ends. *)
Definition free (d : Desk) : Prop := ∀ r, running d = Some r → r_phase r = Closing.
Lemma start_task_handled h text pre mid d :
  free d → (∀ k, h = Some k → (k < length (handles d))%nat) →
  handled h d → handled None (start_task h text pre mid d).
Proof.
  intros Hfree Hlen Hok. unfold start_task.
  set (e := match h with Some h => mark_running h d | None => d end).
  assert (handled h e) as [H1 H2 H3 H4].
  { subst e. destruct h as [h|]; [|done]. revert Hok. apply handled_grows; try done.
    - apply mark_running_grows.
    - cbn. by rewrite length_alter. }
  assert (running e = running d ∧ length (handles e) = length (handles d)) as [Er El].
  { subst e. destruct h; [|done]. cbn. by rewrite length_alter. }
  split; cbn; [|done| |done].
  - intros k x Hx Hn. right. destruct (H1 k x Hx Hn) as [->|[Hm|[(r & Hr & _ & Hp)|Hs]]].
    + right. left. by eexists.
    + by left.
    + rewrite Er in Hr. by specialize (Hfree r Hr).
    + right. by right.
  - intros r k [= <-]. cbn. rewrite El. apply Hlen.
Qed.

(** The turn in flight moves on; before it closes its handle is settled. *)
Lemma moves_on_handled hand r g d :
  running d = Some r → r_exec g = r_exec r →
  (∀ h x, r_exec r = Some h → r_phase g = Closing → handles d !! h = Some x → h_result x ≠ None) →
  handled hand d → handled hand (d <| running := Some g |>).
Proof.
  intros Hr Hg Hset [H1 H2 H3 H4]. split; cbn; [|done| |by rewrite H4, Hr].
  - intros h x Hx Hn. destruct (H1 h x Hx Hn) as [?|[Hm|[(r' & Hr' & Hh & _)|Hs]]]; [by left|right; by left| |right; right; by right].
    right. right. left. exists g. simplify_eq. rewrite Hg. split_and!; [done|done|]. intros Hp. by eapply Hset.
  - intros r' h [= <-]. rewrite Hg. by apply H3.
Qed.

(** ** Every operation keeps its promises to senders *)
Lemma apply_handled hand h d : handled hand d → handled hand (_apply_execution h d).
Proof. apply handled_frame; unfold _apply_execution; repeat (split_match; cbn; try done). Qed.
Lemma release_handled hand h d : handled hand d → handled hand (_release_execution h d).
Proof. apply handled_frame; unfold _release_execution; repeat (split_match; cbn; try done). Qed.
Lemma apply_running h d : running (_apply_execution h d) = running d.
Proof. unfold _apply_execution. repeat (split_match; cbn; try done). Qed.
Lemma release_running h d : running (_release_execution h d) = running d.
Proof. unfold _release_execution. repeat (split_match; cbn; try done). Qed.
Lemma begin_handled now r d : running d = Some r → handled None d → handled None (begin now r d).
Proof.
  intros Hr Hok. unfold begin.
  set (e := _apply_execution _ _).
  assert (handled None e) as He by (apply apply_handled; revert Hok; by apply handled_frame).
  assert (running e = Some r) as Er by (subst e; by rewrite apply_running). clearbody e.
  set (e' := match r_msg r with Some m => _ | None => e end).
  assert (handled None e') as He' by (revert He; apply handled_frame; subst e'; by destruct (r_msg r)).
  assert (running e' = Some r) as Er' by (subst e'; by destruct (r_msg r)). clearbody e'.
  destruct (_ && _); (eapply moves_on_handled; [done|done|done|]); [|done].
  revert He'. apply handled_frame; try done. cbn. lia.
Qed.
Lemma sweep_handled hand now e d : handled hand d → handled hand (_sweep_db_pending now e d).
Proof. apply handled_apart; [apply sweep_apart|apply sweep_next_id]. Qed.
Lemma finalize_handled hand how now r d : running d = Some r → handled hand d → handled hand (finalize how now r d).
Proof.
  intros Hr Hok. unfold finalize. set (d' := d <| running := _ |>).
  assert (handled hand d') as Hok' by by eapply moves_on_handled.
  destruct how; [|by revert Hok'; apply handled_frame|done].
  apply sweep_handled. revert Hok'. by apply handled_frame.
Qed.
Lemma meanwhile_handled hand f now d : handled hand d → handled hand (meanwhile f now d).
Proof. intros Hok. unfold meanwhile. destruct (running d) eqn:E; [|done]. destruct (_ && _); [|done]. by apply finalize_handled. Qed.
Lemma close_handled written r d : running d = Some r → handled None d → handled None (close written r d).
Proof.
  intros Hr Hok. unfold close.
  set (e := match r_message_id r with Some m => _ | None => d end).
  assert (handled None e) as He by (revert Hok; apply handled_frame; subst e; destruct (r_message_id r), written; done).
  assert (running e = Some r) as Er by (subst e; by destruct (r_message_id r), written). clearbody e.
  apply (release_handled _ (r_exec r)) in He. rewrite <- (release_running (r_exec r)) in Er.
  set (f := _release_execution _ e) in *. clearbody f.
  apply (moves_on_handled _ r); [|done| |].
  - by destruct (r_exec r).
  - intros h x -> _. cbn. apply settle_settles.
  - destruct (r_exec r); [|done]. by apply settle_more.
Qed.
Lemma task_done_handled d : free d → handled None d → handled None (task_done d).
Proof.
  intros Hfree [H1 H2 H3 H4]. split; cbn; [|done|done|done].
  intros h x Hx Hn. right. destruct (H1 h x Hx Hn) as [?|[Hm|[(r & Hr & _ & Hp)|Hs]]]; [done|by left| |right; by right].
  by destruct Hp; apply Hfree.
Qed.
Lemma never_began_handled r d : running d = Some r → handled None d → handled None (never_began r d).
Proof.
  intros Hr [H1 H2 H3 H4]. split; cbn; [|done|done|done].
  intros h x Hx Hn. right.
  destruct (H1 h x Hx Hn) as [?|[Hm|[(r' & Hr' & Hh & _)|(r' & Hr' & Hh)]]]; [done|by left| |];
    right; right; cbn; [exists r; simplify_eq|exists r']; by (split; [set_solver|]).
Qed.
Lemma no_task_free hand d : handled hand d → task_live (sess d) = false → free d.
Proof. intros Hok Hl r Hr. rewrite (live_running _ _ Hok), Hr in Hl. done. Qed.

(** Admission. *)
Lemma park_handled now message h mid d :
  mid < next_id d → (h < length (handles d))%nat → pending_execs d !! mid = None →
  handled (Some h) d → handled None (park now message h mid d).1.
Proof.
  intros Hmid Hh Hfree Hok. unfold park. cbn [fst].
  assert (handled None (_register_pending_exec (Some mid) h (enqueue (entry message now (Some mid)) d))) as Hr.
  { apply register_handled; try done. revert Hok. by apply handled_frame. }
  revert Hr. by apply handled_frame.
Qed.
Lemma save_row_handled hand message d : handled hand d → handled hand (save_row message d).
Proof. apply handled_frame; try done. cbn. lia. Qed.
Lemma fresh_unparked hand d : handled hand d → pending_execs d !! next_id d = None.
Proof.
  intros Hok. destruct (pending_execs d !! next_id d) as [h|] eqn:E; [|done].
  destruct (parked_old _ _ Hok _ _ E). lia.
Qed.
Lemma meanwhile_apart f now d :
  pending_execs (meanwhile f now d) = pending_execs d ∧ handles (meanwhile f now d) = handles d ∧
  next_id (meanwhile f now d) = next_id d.
Proof.
  unfold meanwhile. destruct (running d) as [r|]; [|done]. destruct (_ && _); [|done].
  unfold finalize. set (d' := _ <| sess ::= _ |>).
  pose proof (sweep_apart now (current_turn_user_msg_id (sess (d <| running := Some r <| r_phase := Finalized |> |>))) d') as E.
  split_and!; [apply (f_equal pending_execs E)|apply (f_equal handles E)|by rewrite sweep_next_id].
Qed.
Lemma queue_behind_handled f now message h d :
  (h < length (handles d))%nat → handled (Some h) d → handled None (queue_behind f now message h d).1.
Proof.
  intros Hh Hok. unfold queue_behind. case_decide.
  { apply settle_handled. revert Hok. by apply handled_frame. }
  pose proof (meanwhile_apart f now (save_row message d)) as (Ep & Eh & En).
  apply park_handled; cbn; rewrite ?Ep, ?Eh, ?En; cbn; [lia|done|by eapply fresh_unparked|].
  assert (handled (Some h) (meanwhile f now (save_row message d))) as Hm by by apply meanwhile_handled, save_row_handled.
  revert Hm. by apply handled_frame.
Qed.
Lemma fold_into_handled now row message h d : handled (Some h) d → handled None (fold_into now row message h d).1.
Proof. intros Hok. unfold fold_into. cbn [fst]. apply settle_handled. revert Hok. case_decide; by apply handled_frame. Qed.
Lemma reject_handled h why d : handled (Some h) d → handled None (reject h why d).1.
Proof. apply settle_handled. Qed.
Lemma busy_prompt_handled max f now opts origin message settling h d :
  (h < length (handles d))%nat → handled (Some h) d →
  handled None (busy_prompt max f now opts origin message settling h d).1.
Proof.
  intros Hh Hok. unfold busy_prompt. destruct (_ <=? _)%nat; [by apply reject_handled|].
  destruct (fold_target _ _ _ _ _ _); [by apply fold_into_handled|by apply queue_behind_handled].
Qed.
Lemma start_now_handled closes now message h d :
  free d → (h < length (handles d))%nat → handled (Some h) d → handled None (start_now closes now message h d).1.
Proof.
  intros Hfree Hh Hok. unfold start_now.
  set (p := if decide (message = "") then _ else _).
  assert (handled (Some h) p.1 ∧ handles p.1 = handles d ∧ running p.1 = running d) as (Hp & Eh & Er).
  { subst p. case_decide; [done|]. split; [|done]. revert Hok. apply handled_frame; try done. cbn. lia. }
  destruct p as [e mid]. cbn in *.
  destruct closes.
  { apply reject_handled. revert Hp. by apply handled_frame. }
  cbn [fst].
  set (e' := e <| handles ::= _ |>).
  assert (handled (Some h) e') as He.
  { revert Hp. apply handled_grows; try done; [by apply alter_grows|]. cbn. by rewrite length_alter. }
  assert (handled None (start_task (Some h) message (bool_decide (message ≠ "")) mid e')) as Hs.
  { apply start_task_handled; [|intros k [= <-]|done].
    - intros r Hr. apply Hfree. by rewrite <- Er.
    - cbn. by rewrite length_alter, Eh. }
  destruct mid; [|done]. revert Hs. by apply handled_frame.
Qed.
Lemma behind_orphans_handled now message h d :
  (h < length (handles d))%nat → handled (Some h) d → handled None (behind_orphans now message h d).1.
Proof.
  intros Hh Hok. unfold behind_orphans. case_decide; [by apply settle_handled|].
  apply park_handled; cbn; [lia|done|by eapply fresh_unparked|]. by apply handled_frame with (d := save_row message d), save_row_handled.
Qed.
Lemma requeues_handled hand now rs d :
  handled hand d → handled hand (foldl (λ d r, requeue now r d) d rs).
Proof.
  apply handled_apart; [apply (foldl_view apart_from_queue)|apply (foldl_view next_id)]; intros.
  - apply requeue_apart.
  - apply requeue_next_id.
Qed.
Lemma fresh_prompt_handled runner closes now message h d :
  free d → (h < length (handles d))%nat → handled (Some h) d →
  handled None (fresh_prompt runner closes now message h d).1.
Proof.
  intros Hfree Hh Hok. unfold fresh_prompt. set (d' := d <| sess ::= reset_for_turn |>).
  assert (handled (Some h) d') as Hd' by (revert Hok; by apply handled_frame).
  destruct (negb runner); [by apply reject_handled|].
  destruct (if bool_decide _ then _ else _) as [|r rs]; [by apply start_now_handled|].
  apply behind_orphans_handled; [|by apply requeues_handled].
  rewrite (foldl_view handles) by (intros b c; apply (f_equal handles (requeue_apart now c b))). done.
Qed.
Lemma prompt_handled max runner closes f now opts origin message d :
  handled None d → handled None (prompt max runner closes f now opts origin message d).1.
Proof.
  intros Hok. unfold prompt. set (h := length (handles d)).
  pose proof (new_handle_handled (mkHandle opts origin None false None) d Hok) as Hd. fold h in Hd.
  set (d' := d <| handles ::= _ |>) in *.
  assert (h < length (handles d'))%nat as Hh by (cbn; rewrite length_app; cbn; lia).
  destruct (_ && _); [by apply reject_handled|].
  destruct (shutting_down d'); [by apply reject_handled|].
  case_decide; [by apply reject_handled|].
  destruct (_ || _) eqn:Hbusy; [by apply busy_prompt_handled|].
  apply fresh_prompt_handled; try done. eapply no_task_free; [done|].
  apply orb_false_iff in Hbusy as [Hs Hr]. rewrite negb_false_iff in Hr. by rewrite Hr, andb_true_r in Hs.
Qed.

(** Dispatch. *)
Lemma reap_running r ids d : running (_reap_pending_execs r ids d) = running d.
Proof. apply (f_equal running (reap_apart r ids d)). Qed.
Lemma next_entry_handled admits q d :
  handled None d → handled None (next_entry admits q d).1 ∧ running (next_entry admits q d).1 = running d.
Proof.
  revert d. induction q as [|e q IH]; intros d Hok; [done|]. cbn.
  set (d' := d <| sess ::= _ |>).
  assert (handled None d') as Hd' by (revert Hok; by apply handled_frame).
  destruct (admits_entry admits e); [done|].
  destruct (IH _ (reap_handled Dropped (Some (option_list (msg_id e))) d' Hd')) as [H1 H2].
  split; [done|]. etrans; [exact H2|]. exact (reap_running _ _ d').
Qed.
Lemma dispatch_handled e d : free d → handled None d → handled None (dispatch e d).
Proof.
  intros Hfree Hok. unfold dispatch.
  set (d' := match msg_id e with Some m => _ | None => _ end).
  assert (handled None d') as Hd'.
  { revert Hok. subst d'. destruct (msg_id e); by apply handled_frame. }
  assert (running d' = running d) as Er by (subst d'; by destruct (msg_id e)). clearbody d'.
  pose proof (take_handled (msg_id e) d' Hd') as Ht.
  assert (∀ k, (_take_pending_exec (msg_id e) d').2 = Some k → (k < length (handles d'))%nat) as Hk.
  { intros k. destruct (msg_id e) as [m|]; [|done]. apply (parked_old _ _ Hd'). }
  assert (running (_take_pending_exec (msg_id e) d').1 = running d' ∧
          handles (_take_pending_exec (msg_id e) d').1 = handles d') as [Tr Th] by by destruct (msg_id e).
  destruct (_take_pending_exec _ _) as [d'' h]. cbn in *.
  apply start_task_handled; [|by rewrite Th|done].
  intros r Hr. apply Hfree. congruence.
Qed.
Lemma process_pending_handled own ready admits d :
  (own = true → free d) → handled None d → handled None (_process_pending own ready admits d).
Proof.
  intros Hown Hok. unfold _process_pending. destruct (shutting_down d); [done|].
  pose proof (reap_handled Dropped None d Hok) as Hr.
  pose proof (reap_running Dropped None d) as Er.
  set (d' := _reap_pending_execs _ _ d) in *. clearbody d'.
  case_decide; [done|]. case_decide; [done|].
  destruct (task_live (sess d') && negb own) eqn:Hl; [done|].
  destruct (next_entry_handled admits (pending_messages (sess d')) d' Hr) as [Hn En].
  destruct (next_entry _ _ d') as [d'' [e|]]; [|done]. cbn in *.
  apply dispatch_handled; [|done].
  assert (free d') as Hf.
  { apply andb_false_iff in Hl as [Hl|Hl]; [by eapply no_task_free|].
    intros r. rewrite Er. apply Hown. by destruct own. }
  intros r. rewrite En. apply Hf.
Qed.
Lemma dispatch_next_handled admits d : free d → handled None d → handled None (dispatch_next admits d).
Proof.
  intros Hf Hok. unfold dispatch_next.
  pose proof (process_pending_handled true [IDLE_READY] admits d (λ _, Hf) Hok) as Hp.
  destruct (running _) as [r|] eqn:Er; [|done]. case_decide; [|done].
  apply task_done_handled; [|done]. intros r' Hr'. congruence.
Qed.
Lemma cancel_handled b d : handled None d → handled None (cancel_session b d).
Proof.
  intros Hok. unfold cancel_session, _drain_pending_for_cancel.
  set (d1 := _ <| sess ::= λ s, s <| pending_messages := [] |> |>).
  assert (handled None d1) as H1 by (revert Hok; by apply handled_frame).
  pose proof (reap_handled QueueCancelled None d1 H1) as H2. revert H2. by apply handled_frame.
Qed.
Lemma steer_handled max runner closes f now origin message d :
  handled None d → handled None (steer max runner closes f now origin message d).
Proof.
  intros Hok. unfold steer. destruct (_ || _); [|destruct (steer_accepts _)].
  - by apply settle_handled, new_handle_handled.
  - revert Hok. apply handled_frame; try done. cbn. lia.
  - by apply prompt_handled.
Qed.
Lemma resume_parent_handled now text d : handled None d → handled None (resume_parent now text d).
Proof.
  intros Hok. unfold resume_parent. set (e := enqueue _ d).
  assert (handled None e) as He by (revert Hok; by apply handled_frame).
  destruct (task_live (sess d)) eqn:Hl; [done|]. case_decide; [|by case_decide].
  destruct (shutting_down d); [done|].
  apply start_task_handled; [|done|by revert Hok; apply handled_frame].
  intros r Hr. by eapply (no_task_free _ d).
Qed.
Lemma step_handled d op : handled None d → handled None (step d op).
Proof.
  intros Hok. destruct op; cbn; unfold when_at; try (destruct (running d) as [r|] eqn:Hr; [case_decide as Hp|]; try done);
    try (revert Hok; by apply handled_frame).
  - by apply prompt_handled.
  - by apply steer_handled.
  - by apply process_pending_handled.
  - by apply resume_parent_handled.
  - by apply begin_handled.
  - revert Hok. apply handled_frame; try done. cbn. lia.
  - by apply finalize_handled.
  - by apply close_handled.
  - apply dispatch_next_handled; [|done]. intros r' Hr'. congruence.
  - apply task_done_handled; [|done]. intros r' Hr'. congruence.
  - by apply never_began_handled.
  - by apply cancel_handled.
  - case_decide; [|done]. revert Hok. by apply handled_frame.
  - unfold delete_row. revert Hok. case_decide; by apply handled_frame.
Qed.
Lemma open_desk_handled sid kind now p rs : handled None (open_desk sid kind now p rs).
Proof. by split. Qed.
Lemma run_handled ops d : handled None d → handled None (run ops d).
Proof. revert d. induction ops as [|op ops IH]; intros d Hok; [done|]. cbn. by apply IH, step_handled. Qed.

(** A result, once there, is never another. *)
Lemma sweep_handles now e d : handles (_sweep_db_pending now e d) = handles d.
Proof. apply (f_equal handles (sweep_apart now e d)). Qed.
Lemma finalize_handles how now r d : handles (finalize how now r d) = handles d.
Proof. destruct how; [|done|done]. cbn [finalize]. by rewrite sweep_handles. Qed.
Lemma requeues_handles now rs d : handles (foldl (λ d r, requeue now r d) d rs) = handles d.
Proof. apply (foldl_view handles). intros b c. apply (f_equal handles (requeue_apart now c b)). Qed.
Lemma start_task_grows h text pre mid d : grows d (start_task h text pre mid d).
Proof.
  unfold start_task. set (e := match h with Some h => mark_running h d | None => d end).
  trans e; [|by apply same_grows]. subst e. destruct h; [apply mark_running_grows|done].
Qed.
Lemma park_grows now message h mid d : grows d (park now message h mid d).1.
Proof. etrans; [apply (alter_grows (λ x, x <| h_msg := Some mid |>) h); by intros x|]. by apply same_grows. Qed.
Lemma busy_prompt_grows max f now opts origin message settling h d :
  grows d (busy_prompt max f now opts origin message settling h d).1.
Proof.
  unfold busy_prompt. destruct (_ <=? _)%nat; [apply settle_grows|].
  destruct (fold_target _ _ _ _ _ _).
  - unfold fold_into. cbn [fst]. etrans; [|apply settle_grows]. apply same_grows. by case_decide.
  - unfold queue_behind. case_decide; [etrans; [|apply settle_grows]; by apply same_grows|].
    etrans; [|apply park_grows]. apply same_grows. cbn.
    by destruct (meanwhile_apart f now (save_row message d)) as (_ & -> & _).
Qed.
Lemma start_now_grows closes now message h d : grows d (start_now closes now message h d).1.
Proof.
  unfold start_now. set (p := if decide (message = "") then _ else _).
  assert (handles p.1 = handles d) as Eh by (subst p; by case_decide).
  destruct p as [e mid]. cbn in Eh.
  destruct closes; [etrans; [|apply settle_grows]; by apply same_grows|]. cbn [fst].
  etrans; [by apply same_grows, eq_sym|]. etrans; [apply (alter_grows (λ x, x <| h_msg := mid |>) h); by intros x|].
  etrans; [apply (start_task_grows (Some h) message (bool_decide (message ≠ "")) mid)|].
  apply same_grows. by destruct mid.
Qed.
Lemma prompt_grows max runner closes f now opts origin message d :
  grows d (prompt max runner closes f now opts origin message d).1.
Proof.
  unfold prompt. set (h := length (handles d)).
  etrans; [apply (new_handle_grows (mkHandle opts origin None false None))|]. set (d' := d <| handles ::= _ |>).
  destruct (_ && _); [apply settle_grows|].
  destruct (shutting_down d'); [apply settle_grows|].
  case_decide; [apply settle_grows|].
  destruct (_ || _); [apply busy_prompt_grows|].
  unfold fresh_prompt. etrans; [by apply (same_grows _ (d' <| sess ::= reset_for_turn |>))|].
  destruct (negb runner); [apply settle_grows|].
  destruct (if bool_decide _ then _ else _) as [|r rs]; [apply start_now_grows|].
  etrans; [apply same_grows, (requeues_handles now (r :: rs))|].
  unfold behind_orphans. case_decide; [apply settle_grows|]. etrans; [|apply park_grows]. by apply same_grows.
Qed.
Lemma next_entry_grows admits q d : grows d (next_entry admits q d).1.
Proof.
  revert d. induction q as [|e q IH]; intros d; [done|]. cbn.
  destruct (admits_entry admits e); [by apply same_grows|].
  etrans; [|apply IH]. set (d' := d <| sess ::= _ |>). trans d'; [by apply same_grows|].
  exact (reap_grows Dropped (Some (option_list (msg_id e))) d').
Qed.
Lemma process_pending_grows own ready admits d : grows d (_process_pending own ready admits d).
Proof.
  unfold _process_pending. destruct (shutting_down d); [done|].
  etrans; [apply (reap_grows Dropped None)|]. set (d' := _reap_pending_execs _ _ d). clearbody d'.
  case_decide; [done|]. case_decide; [done|]. destruct (_ && _); [done|].
  pose proof (next_entry_grows admits (pending_messages (sess d')) d') as Hn.
  destruct (next_entry _ _ d') as [d'' [e|]]; [|done]. cbn in Hn. etrans; [exact Hn|].
  unfold dispatch. set (f := match msg_id e with Some m => _ | None => _ end).
  assert (handles f = handles d'') as Ef by (subst f; by destruct (msg_id e)). clearbody f.
  etrans; [by apply same_grows|].
  assert (handles (_take_pending_exec (msg_id e) f).1 = handles f) as Et by by destruct (msg_id e).
  destruct (_take_pending_exec _ f) as [g h]. etrans; [by apply same_grows|]. apply start_task_grows.
Qed.
Lemma begin_handles now r d : handles (begin now r d) = handles d.
Proof.
  unfold begin. set (e := _apply_execution _ _).
  assert (handles e = handles d) as <-.
  { subst e. unfold _apply_execution. repeat (split_match; cbn; try done). }
  destruct (r_msg r); by destruct (_ && _).
Qed.
Lemma close_grows written r d : grows d (close written r d).
Proof.
  unfold close. set (e := match r_message_id r with Some m => _ | None => d end).
  assert (handles (_release_execution (r_exec r) e) = handles d) as Ef.
  { unfold _release_execution. trans (handles e); [repeat (split_match; cbn; try done)|].
    subst e. by destruct (r_message_id r), written. }
  etrans; [by apply same_grows|]. set (f := _release_execution _ e).
  trans (settle_opt (r_exec r) (Ended (execution_result (sess f))) f); [|by apply same_grows].
  destruct (r_exec r); [apply settle_grows|done].
Qed.
Lemma step_grows d op : grows d (step d op).
Proof.
  destruct op; cbn; unfold when_at; try (destruct (running d) as [r|] eqn:Hr; [case_decide|]; try done); try by apply same_grows.
  - apply prompt_grows.
  - unfold steer. destruct (_ || _); [|destruct (steer_accepts _); [by apply same_grows|apply prompt_grows]].
    etrans; [|apply settle_grows]. apply new_handle_grows.
  - apply process_pending_grows.
  - unfold resume_parent. destruct (task_live _); [by apply same_grows|].
    case_decide; [destruct (shutting_down d); [done|by apply same_grows]|case_decide; by apply same_grows].
  - apply same_grows, begin_handles.
  - apply same_grows, finalize_handles.
  - apply close_grows.
  - unfold dispatch_next. etrans; [apply (process_pending_grows true [IDLE_READY] admits)|].
    destruct (running (_process_pending _ _ _ _)); [case_decide; by apply same_grows|done].
  - unfold cancel_session, _drain_pending_for_cancel. set (e := _ <| sess ::= λ s, s <| pending_messages := [] |> |>).
    trans e; [by apply same_grows|]. etrans; [apply (reap_grows QueueCancelled None)|]. by apply same_grows.
  - case_decide; by apply same_grows.
  - unfold delete_row. case_decide; by apply same_grows.
Qed.
Lemma run_grows ops d : grows d (run ops d).
Proof. revert d. induction ops as [|op ops IH]; intros d; [done|]. cbn. etrans; [apply step_grows|apply IH]. Qed.

(** ** Where a message is *)
(** Entries with a row are saved, and are not continuations. *)
Definition entry_ok (e : PendingMessage) : Prop := msg_id e ≠ None → pre_saved e = true ∧ continuation_id e = None.
(** Queues only get longer at the end. *)
Definition queue_grows (d d' : Desk) : Prop :=
  ∃ new, pending_messages (sess d') = pending_messages (sess d) ++ new ∧ Forall entry_ok new.
#[export] Instance queue_grows_preorder : PreOrder queue_grows.
Proof.
  split; [intros d; exists []; by rewrite app_nil_r|]. intros d e f (n1 & E1 & F1) (n2 & E2 & F2).
  exists (n1 ++ n2). rewrite E2, E1, app_assoc. split; [done|]. by apply Forall_app.
Qed.
Lemma same_queue_grows d d' : pending_messages (sess d') = pending_messages (sess d) → queue_grows d d'.
Proof. intros E. exists []. by rewrite E, app_nil_r. Qed.
Lemma requeue_grows now r d : queue_grows d (requeue now r d).
Proof.
  unfold requeue. case_decide; [by apply same_queue_grows|].
  exists [entry (row_content r) now (Some (row_id r))]. split; [done|]. by apply Forall_singleton.
Qed.
Lemma requeues_grow now rs d : queue_grows d (foldl (λ d r, requeue now r d) d rs).
Proof. revert d. induction rs as [|r rs IH]; intros d; [done|]. cbn. etrans; [apply requeue_grows|apply IH]. Qed.
Lemma sweep_grows now e d : queue_grows d (_sweep_db_pending now e d).
Proof.
  unfold _sweep_db_pending. set (os := unswept _ _). clearbody os. destruct (last os) as [l|]; [|done].
  set (d' := foldl _ _ _).
  assert (queue_grows d d') as Hg; [|by case_decide].
  subst d'. revert d. induction os as [|r os IH]; intros d; [done|]. cbn. etrans; [|apply IH].
  case_decide; [done|apply requeue_grows].
Qed.
Lemma queued_grows d d' mid : queue_grows d d' → mid ∈ queued_ids (sess d) → mid ∈ queued_ids (sess d').
Proof. intros (new & E & _). unfold queued_ids. rewrite E, omap_app. set_solver. Qed.

(** A message the session took on waits, waits to begin, has begun, was
    withdrawn, or its task died unborn. *)
Definition created (d : Desk) : list Z :=
  match running d with
  | Some r => if decide (r_phase r = Created) then option_list (r_msg r) else []
  | None => []
  end.
Definition placed_in (queue : list Z) (d : Desk) (mid : Z) : Prop :=
  mid ∈ queue ∨ mid ∈ withdrawn d ∨ mid ∈ begun d ∨ mid ∈ created d ∨ mid ∈ omap r_msg (stillborn d).
Record placed (queue : list PendingMessage) (d : Desk) : Prop := mkPlaced {
  waits mid h : pending_execs d !! mid = Some h → mid ∈ omap msg_id queue ∨ mid ∈ withdrawn d;
  accounted mid : mid ∈ accepted d → placed_in (omap msg_id queue) d mid;
  entries_ok : Forall entry_ok queue
}.
Local Notation placed_now d := (placed (pending_messages (sess d)) d).

Lemma placed_frame queue queue' d d' :
  omap msg_id queue ⊆ omap msg_id queue' → Forall entry_ok queue' →
  (∀ mid h, pending_execs d' !! mid = Some h → pending_execs d !! mid = Some h) →
  withdrawn d ⊆ withdrawn d' → begun d ⊆ begun d' → created d ⊆ created d' → stillborn d' = stillborn d →
  accepted d' = accepted d →
  placed queue d → placed queue' d'.
Proof.
  intros Hq Hok Hp Hw Hb Hc Es Ea [H1 H2 H3]. split; [| |done].
  - intros mid h Hm. destruct (H1 mid h (Hp _ _ Hm)); set_solver.
  - intros mid. rewrite Ea. intros Hm. unfold placed_in. rewrite Es. destruct (H2 mid Hm) as [?|[?|[?|[?|?]]]]; set_solver.
Qed.
(** The queue grows and nothing else moves. *)
Lemma placed_grows d d' :
  queue_grows d d' → pending_execs d' = pending_execs d → withdrawn d' = withdrawn d → begun d' = begun d →
  running d' = running d → stillborn d' = stillborn d → accepted d' = accepted d → placed_now d → placed_now d'.
Proof.
  intros (new & Eq & Hnew) Ep Ew Eb Er Es Ea Hok. pose proof (entries_ok _ _ Hok) as Hold. revert Hok.
  apply placed_frame; rewrite ?Ep, ?Ew, ?Eb; try done.
  - rewrite Eq, omap_app. set_solver.
  - rewrite Eq. by apply Forall_app.
  - unfold created. by rewrite Er.
Qed.
Lemma placed_same d d' :
  pending_messages (sess d') = pending_messages (sess d) → pending_execs d' = pending_execs d →
  withdrawn d' = withdrawn d → begun d' = begun d → running d' = running d → stillborn d' = stillborn d →
  accepted d' = accepted d → placed_now d → placed_now d'.
Proof. intros E. apply placed_grows. by apply same_queue_grows. Qed.
Lemma placed_sweep now e d : placed_now d → placed_now (_sweep_db_pending now e d).
Proof.
  pose proof (sweep_apart now e d) as E.
  apply placed_grows; [apply sweep_grows|apply (f_equal pending_execs E)|apply (f_equal withdrawn E)
    |apply (f_equal begun E)|apply (f_equal running E)|apply (f_equal stillborn E)|apply (f_equal accepted E)].
Qed.
Lemma placed_requeues now rs d : placed_now d → placed_now (foldl (λ d r, requeue now r d) d rs).
Proof.
  assert (apart_from_queue (foldl (λ d r, requeue now r d) d rs) = apart_from_queue d) as E.
  { apply (foldl_view apart_from_queue). intros. apply requeue_apart. }
  apply placed_grows; [apply requeues_grow|apply (f_equal pending_execs E)|apply (f_equal withdrawn E)
    |apply (f_equal begun E)|apply (f_equal running E)|apply (f_equal stillborn E)|apply (f_equal accepted E)].
Qed.
Lemma reap_one_pending r mid d m h : pending_execs (reap_one r mid d) !! m = Some h → pending_execs d !! m = Some h.
Proof. unfold reap_one. destruct (pending_execs d !! mid) eqn:E; [|done]. cbn. rewrite lookup_delete_Some. naive_solver. Qed.
Lemma reap_pending r ids d m h :
  pending_execs (_reap_pending_execs r ids d) !! m = Some h → pending_execs d !! m = Some h.
Proof.
  unfold _reap_pending_execs. set (l := match ids with Some _ => _ | None => _ end). clearbody l.
  revert d. induction l as [|x l IH]; intros d; [done|]. cbn. intros H. by eapply reap_one_pending, IH.
Qed.
Lemma reap_one_gone r mid d : pending_execs (reap_one r mid d) !! mid = None.
Proof. unfold reap_one. destruct (pending_execs d !! mid) eqn:E; [|done]. cbn. apply lookup_delete_eq. Qed.
Lemma placed_reap r ids queue d : placed queue d → placed queue (_reap_pending_execs r ids d).
Proof.
  intros Hok. pose proof (reap_apart r ids d) as E. pose proof (entries_ok _ _ Hok). revert Hok. apply placed_frame; try done.
  - apply reap_pending.
  - by assert (withdrawn (_reap_pending_execs r ids d) = withdrawn d) as -> by apply (f_equal withdrawn E).
  - by assert (begun (_reap_pending_execs r ids d) = begun d) as -> by apply (f_equal begun E).
  - unfold created. by rewrite reap_running.
  - apply (f_equal stillborn E).
  - apply (f_equal accepted E).
Qed.

(** The turn in flight moves on. *)
Lemma created_phase d r : running d = Some r → created d = if decide (r_phase r = Created) then option_list (r_msg r) else [].
Proof. unfold created. by intros ->. Qed.
Lemma placed_begin now r d :
  running d = Some r → r_phase r = Created → placed_now d → placed_now (begin now r d).
Proof.
  intros Hr Hp Hok. unfold begin. set (e := _apply_execution _ _).
  assert (pending_messages (sess e) = pending_messages (sess d) ∧ pending_execs e = pending_execs d ∧
    withdrawn e = withdrawn d ∧ begun e = begun d ∧ running e = running d ∧ stillborn e = stillborn d ∧
    accepted e = accepted d) as (E1 & E2 & E3 & E4 & E5 & E6 & E7).
  { subst e. unfold _apply_execution. repeat (split_match; cbn; try done). }
  apply (placed_same d e) in Hok; [|done..]. clearbody e. rewrite Hr in E5. clear E1 E2 E3 E4 E6 E7.
  set (e' := match r_msg r with Some m => _ | None => e end).
  assert (∀ q f, pending_messages (sess f) = pending_messages (sess e) → pending_execs f = pending_execs e →
    withdrawn f = withdrawn e → begun f = option_list (r_msg r) ++ begun e → running f = Some q →
    r_phase q = Running → stillborn f = stillborn e → accepted f = accepted e → placed_now f) as Hgo.
  { intros q f F1 F2 F3 F4 F5 F6 F7 F8. destruct Hok as [H1 H2 H3]. split.
    - intros mid h. rewrite F1, F2, F3. apply H1.
    - intros mid. rewrite F8. intros Hm. specialize (H2 mid Hm).
      unfold placed_in in *. rewrite F1, F3, F4, F7, (created_phase f q F5), F6.
      rewrite (created_phase e r E5), decide_True in H2 by done. set_solver.
    - by rewrite F1. }
  assert (begun e' = option_list (r_msg r) ++ begun e) as Eb by (subst e'; by destruct (r_msg r)).
  destruct (_ && _).
  - eapply (Hgo (r <| r_message_id := Some (next_id e') |> <| r_phase := Running |>)); try done; subst e'; by destruct (r_msg r).
  - eapply (Hgo (r <| r_message_id := current_turn_user_msg_id (sess e') |> <| r_phase := Running |>)); try done; subst e'; by destruct (r_msg r).
Qed.
Lemma placed_moves_on queue r g d :
  running d = Some r → r_phase r ≠ Created → r_phase g ≠ Created →
  placed queue d → placed queue (d <| running := Some g |>).
Proof.
  intros Hr Hp Hg Hok. pose proof (entries_ok _ _ Hok). revert Hok. apply placed_frame; try done.
  rewrite (created_phase d r Hr), decide_False by done. set_solver.
Qed.
Lemma placed_finalize how now r d :
  running d = Some r → r_phase r ≠ Created → placed_now d → placed_now (finalize how now r d).
Proof.
  intros Hr Hp Hok. unfold finalize. set (d' := d <| running := _ |>).
  assert (placed_now d') as Hd' by by apply (placed_moves_on _ r).
  destruct how; [apply placed_sweep|..|done]; revert Hd'; by apply placed_same.
Qed.
Lemma placed_meanwhile f now d : placed_now d → placed_now (meanwhile f now d).
Proof.
  intros Hok. unfold meanwhile. destruct (running d) as [r|] eqn:E; [|done].
  destruct (f && _) eqn:Ef; [|done]. breflect. apply placed_finalize; [done|congruence|done].
Qed.
Lemma placed_close written r d :
  running d = Some r → r_phase r ≠ Created → placed_now d → placed_now (close written r d).
Proof.
  intros Hr Hp Hok. unfold close. set (e := match r_message_id r with Some m => _ | None => d end).
  assert (placed_now e) as He by (revert Hok; apply placed_same; subst e; by destruct (r_message_id r), written).
  assert (running e = Some r) as Er by (subst e; by destruct (r_message_id r), written). clearbody e. clear Hok Hr.
  rewrite <- (release_running (r_exec r)) in Er.
  assert (placed_now (_release_execution (r_exec r) e)) as Hf.
  { revert He. apply placed_same; unfold _release_execution; repeat (split_match; cbn; try done). }
  set (f := _release_execution _ e) in *. clearbody f.
  set (g := settle_opt _ _ f).
  assert (placed_now g) as Hg by (revert Hf; by apply placed_same; subst g; destruct (r_exec r)).
  assert (running g = Some r) as Er' by (subst g; by destruct (r_exec r)). clearbody g.
  by apply (placed_moves_on _ r).
Qed.
Lemma free_created d : free d → created d = [].
Proof. intros Hf. unfold created. destruct (running d) as [r|] eqn:E; [|done]. by rewrite (Hf r E). Qed.
Lemma placed_task_done d : free d → placed_now d → placed_now (task_done d).
Proof.
  intros Hf Hok. pose proof (entries_ok _ _ Hok). revert Hok. apply placed_frame; try done.
  by rewrite (free_created d Hf).
Qed.
Lemma placed_never_began r d :
  running d = Some r → r_phase r = Created → placed_now d → placed_now (never_began r d).
Proof.
  intros Hr Hp [H1 H2 H3]. split; [done| |done].
  intros mid Hm. specialize (H2 mid Hm). unfold placed_in in *.
  rewrite (created_phase d r Hr), decide_True in H2 by done.
  assert (omap r_msg (stillborn (never_began r d)) = option_list (r_msg r) ++ omap r_msg (stillborn d)) as -> by (cbn; by destruct (r_msg r)).
  cbn in *. set_solver.
Qed.
Lemma accepted_start h text pre mid d : accepted (start_task h text pre mid d) = accepted d.
Proof. by destruct h. Qed.
(** A new task has the message that was in hand. *)
Lemma placed_start h text pre mid e d :
  free d → msg_id e = mid → (∀ m, mid = Some m → pending_execs d !! m = None) →
  placed (e :: pending_messages (sess d)) d → placed_now (start_task h text pre mid d).
Proof.
  intros Hf He Hnone [H1 H2 H3]. apply Forall_cons in H3 as [_ H3].
  assert (omap msg_id (e :: pending_messages (sess d)) = option_list mid ++ omap msg_id (pending_messages (sess d))) as Eq.
  { cbn. rewrite He. by destruct mid. }
  rewrite Eq in H1, H2.
  split; [|intros m Hm; specialize (H2 m)|]; destruct h; try done; cbn in *.
  all: try (intros m h Hm; destruct (H1 m h Hm) as [[Hin|?]%elem_of_app|?]; [|by auto..];
            destruct mid; [apply list_elem_of_singleton in Hin as ->; by rewrite Hnone in Hm|by apply not_elem_of_nil in Hin]).
  all: unfold placed_in in *; cbn in *; rewrite free_created in H2 by done; set_solver.
Qed.
Lemma placed_next_entry admits q d :
  placed q d → pending_messages (sess d) = q →
  match next_entry admits q d with
  | (d', Some e) => placed (e :: pending_messages (sess d')) d'
  | (d', None) => placed_now d'
  end.
Proof.
  revert d. induction q as [|e q IH]; intros d Hok Hq; cbn; [by rewrite Hq|].
  set (d' := d <| sess ::= _ |>).
  pose proof (entries_ok _ _ Hok) as Hent.
  assert (placed (e :: q) d') as Hd' by (revert Hok; by apply placed_frame).
  destruct (admits_entry admits e) eqn:Ea; [done|].
  apply IH.
  - apply (placed_reap Dropped (Some (option_list (msg_id e)))). apply Forall_cons in Hent as [He Hq'].
    revert Hd'. apply placed_frame; try done. unfold entry_ok, admits_entry in *. cbn.
    destruct (msg_id e); [|set_solver]. destruct He as [_ He]; [done|]. by rewrite He in Ea.
  - exact (f_equal (λ d, pending_messages (sess d)) (reap_apart Dropped (Some (option_list (msg_id e))) d')).
Qed.
Lemma placed_dispatch e d :
  free d → placed (e :: pending_messages (sess d)) d → placed_now (dispatch e d).
Proof.
  intros Hf Hok. unfold dispatch. set (d' := match msg_id e with Some m => _ | None => _ end).
  pose proof (entries_ok _ _ Hok) as Hent.
  assert (placed (e :: pending_messages (sess d')) d') as Hd'.
  { subst d'. revert Hok. destruct (msg_id e); by apply placed_frame. }
  assert (free d') as Hf' by (subst d'; destruct (msg_id e); done). clearbody d'.
  clear Hok Hf Hent. pose proof (entries_ok _ _ Hd') as Hent.
  destruct (msg_id e) as [m|] eqn:Em; cbn [_take_pending_exec].
  - apply (placed_start _ _ _ _ e); [done|done| |].
    + intros k [= <-]. cbn. apply lookup_delete_eq.
    + revert Hd'. apply placed_frame; try done. cbn. intros mid h. rewrite lookup_delete_Some. naive_solver.
  - by apply (placed_start _ _ _ _ e).
Qed.
Lemma placed_process_pending own ready admits d :
  handled None d → (own = true → free d) → placed_now d → placed_now (_process_pending own ready admits d).
Proof.
  intros Hh Hown Hok. unfold _process_pending. destruct (shutting_down d); [done|].
  assert (pending_messages (sess (_reap_pending_execs Dropped None d)) = pending_messages (sess d)) as Eq
    by exact (f_equal (λ d, pending_messages (sess d)) (reap_apart Dropped None d)).
  pose proof (placed_reap Dropped None _ _ Hok) as Hr. rewrite <- Eq in Hr.
  pose proof (reap_handled Dropped None d Hh) as Hhr. pose proof (reap_running Dropped None d) as Er.
  set (d' := _reap_pending_execs _ _ d) in *. clearbody d'.
  case_decide; [done|]. case_decide; [done|]. destruct (task_live (sess d') && negb own) eqn:Hl; [done|].
  pose proof (placed_next_entry admits _ d' Hr eq_refl) as Hn.
  destruct (next_entry_handled admits (pending_messages (sess d')) d' Hhr) as [_ En].
  destruct (next_entry _ _ d') as [d'' [e|]]; [|done]. apply placed_dispatch; [|done].
  intros r. cbn in En. rewrite En. revert r. fold (free d').
  apply andb_false_iff in Hl as [Hl|Hl]; [by eapply no_task_free|].
  intros r. rewrite Er. apply Hown. by destruct own.
Qed.
Lemma placed_dispatch_next admits d : handled None d → free d → placed_now d → placed_now (dispatch_next admits d).
Proof.
  intros Hh Hf Hok. unfold dispatch_next.
  pose proof (placed_process_pending true [IDLE_READY] admits d Hh (λ _, Hf) Hok) as Hp.
  destruct (running _) as [r|] eqn:Er; [|done]. case_decide; [|done].
  apply placed_task_done; [|done]. intros r' Hr'. congruence.
Qed.
Lemma placed_park now message h mid d : placed_now d → placed_now (park now message h mid d).1.
Proof.
  intros [H1 H2 H3]. unfold park. cbn [fst].
  assert (omap msg_id (pending_messages (sess d) ++ [entry message now (Some mid)]) = queued_ids (sess d) ++ [mid]) as Eq
    by by rewrite omap_app.
  split; cbn; rewrite ?Eq.
  - intros m k Hm. apply lookup_insert_Some in Hm as [[<- _]|[_ Hm]]; [set_solver|].
    destruct (H1 m k Hm); set_solver.
  - intros m Hm. apply elem_of_cons in Hm as [->|Hm]; [left; set_solver|].
    specialize (H2 m Hm). unfold placed_in in *. cbn. set_solver.
  - apply Forall_app. split; [done|]. by apply Forall_singleton.
Qed.
Lemma placed_queue_behind f now message h d : placed_now d → placed_now (queue_behind f now message h d).1.
Proof.
  intros Hok. unfold queue_behind. case_decide.
  - revert Hok. apply placed_grows; try done. eexists; split; [done|]. by apply Forall_singleton.
  - apply placed_park. assert (placed_now (meanwhile f now (save_row message d))) as Hm.
    { apply placed_meanwhile. revert Hok. by apply placed_same. }
    revert Hm. by apply placed_same.
Qed.
Lemma retell_ids target c now q : omap msg_id (retell target c now q) = omap msg_id q.
Proof.
  induction q as [|e q IH]; [done|]. cbn. case_decide as E; cbn; [by rewrite E|].
  by rewrite IH.
Qed.
Lemma retell_ok target c now q : Forall entry_ok q → Forall entry_ok (retell target c now q).
Proof. induction 1; cbn; [done|]. case_decide; by constructor. Qed.
Lemma placed_fold_into now row message h d : placed_now d → placed_now (fold_into now row message h d).1.
Proof.
  intros Hok. pose proof (entries_ok _ _ Hok). unfold fold_into. cbn [fst]. revert Hok.
  case_decide; (apply placed_frame; try done; [cbn; by rewrite retell_ids|by apply retell_ok]).
Qed.
Lemma placed_start_saved h message (now : Z) mid d :
  free d → (∀ m, mid = Some m → pending_execs d !! m = None) → placed_now d →
  placed_now (match mid with Some m => accept m | None => id end
                (start_task (Some h) message (bool_decide (message ≠ "")) mid d)).
Proof.
  intros Hf Hnone Hok.
  set (d' := start_task _ _ _ _ _).
  assert (placed_now d') as [H1 H2 H3].
  { apply (placed_start _ _ _ _ (entry message now mid)); [done|done|done|].
    pose proof (entries_ok _ _ Hok). revert Hok. apply placed_frame; try done.
    - cbn. destruct mid; set_solver.
    - by constructor. }
  destruct mid as [m|]; [|done]. split; [done| |done].
  cbn. intros m' Hm'. apply elem_of_cons in Hm' as [->|Hm']; [|by apply (H2 m')].
  right. right. right. left. cbn. set_solver.
Qed.
Lemma placed_start_now closes now message h d :
  handled (Some h) d → free d → placed_now d → placed_now (start_now closes now message h d).1.
Proof.
  intros Hh Hf Hok. unfold start_now. set (p := if decide (message = "") then _ else _).
  assert (placed_now p.1 ∧ free p.1 ∧ ∀ m, p.2 = Some m → pending_execs p.1 !! m = None) as (Hp & Hfp & Hm).
  { subst p. case_decide; [done|]. cbn [fst snd save_prompt]. split_and!; [by revert Hok; apply placed_same|done|].
    intros m [= <-]. exact (fresh_unparked _ d Hh). }
  destruct p as [e mid]. cbn in *. destruct closes; [revert Hp; by apply placed_same|]. cbn [fst].
  apply placed_start_saved with (now := now); [done|done|]. revert Hp. by apply placed_same.
Qed.
Lemma placed_prompt max runner closes f now opts origin message d :
  handled None d → placed_now d → placed_now (prompt max runner closes f now opts origin message d).1.
Proof.
  intros Hh Hok. unfold prompt. set (h := length (handles d)).
  pose proof (new_handle_handled (mkHandle opts origin None false None) d Hh) as Hd. fold h in Hd.
  set (d' := d <| handles ::= _ |>) in *.
  assert (placed_now d') as Hp by (revert Hok; by apply placed_same). clearbody h d'.
  assert (∀ why, placed_now (reject h why d').1) as Hrej by (intros why; revert Hp; by apply placed_same).
  destruct (_ && _); [done|]. destruct (shutting_down d'); [done|]. case_decide; [done|].
  destruct (_ || _) eqn:Hbusy.
  - unfold busy_prompt. destruct (_ <=? _)%nat; [done|].
    destruct (fold_target _ _ _ _ _ _); [by apply placed_fold_into|by apply placed_queue_behind].
  - assert (free d') as Hf.
    { eapply no_task_free; [done|].
      apply orb_false_iff in Hbusy as [Hs Hr]. rewrite negb_false_iff in Hr. by rewrite Hr, andb_true_r in Hs. }
    unfold fresh_prompt. set (d2 := d' <| sess ::= reset_for_turn |>).
    assert (placed_now d2) as Hp2 by (revert Hp; by apply placed_same).
    destruct (negb runner); [revert Hp2; by apply placed_same|].
    destruct (if bool_decide _ then _ else _) as [|r rs].
    + apply placed_start_now; [|done|done]. revert Hd. by apply handled_frame.
    + apply (placed_requeues now (r :: rs)) in Hp2. set (d3 := foldl _ d2 (r :: rs)) in *. clearbody d3.
      unfold behind_orphans. destruct (decide (message = "")); [revert Hp2; by apply placed_same|].
      apply placed_park. revert Hp2. by apply placed_same.
Qed.
Lemma placed_cancel b d : placed_now d → placed_now (cancel_session b d).
Proof.
  intros [H1 H2 H3]. unfold cancel_session, _drain_pending_for_cancel.
  set (d1 := _ <| sess ::= λ s, s <| pending_messages := [] |> |>).
  assert (placed_now d1) as Hd1.
  { split; [| |done].
    - intros mid h Hm. right. cbn. destruct (H1 mid h Hm); set_solver.
    - intros mid Hm. specialize (H2 mid Hm). unfold placed_in in *. cbn in *. set_solver. }
  apply (placed_reap QueueCancelled None) in Hd1.
  assert (pending_messages (sess (_reap_pending_execs QueueCancelled None d1)) = []) as Eq
    by exact (f_equal (λ d, pending_messages (sess d)) (reap_apart QueueCancelled None d1)).
  change (pending_messages (sess d1)) with (@nil PendingMessage) in Hd1. rewrite <- Eq in Hd1.
  set (d2 := _reap_pending_execs QueueCancelled None d1) in *. clearbody d2. revert Hd1. by apply placed_same.
Qed.
Lemma remove_entry_ids mid q : omap msg_id q ⊆ mid :: omap msg_id (remove_entry mid q).
Proof. induction q as [|e q IH]; [set_solver|]. cbn. case_decide as E; [rewrite E; set_solver|]. cbn. destruct (msg_id e); set_solver. Qed.
Lemma remove_entry_ok mid q : Forall entry_ok q → Forall entry_ok (remove_entry mid q).
Proof. induction 1; cbn; [done|]. case_decide; [done|by constructor]. Qed.
Lemma placed_remove mid d : placed_now d → placed_now (remove_pending mid d).
Proof.
  intros [H1 H2 H3]. pose proof (remove_entry_ids mid (pending_messages (sess d))) as Hq. split; [| |by apply remove_entry_ok].
  - intros m h Hm. cbn. destruct (H1 m h Hm); set_solver.
  - intros m Hm. specialize (H2 m Hm). unfold placed_in in *. cbn in *. set_solver.
Qed.
Lemma placed_resume now text d : handled None d → placed_now d → placed_now (resume_parent now text d).
Proof.
  intros Hh Hok. unfold resume_parent. set (e := enqueue _ d).
  assert (placed_now e) as He.
  { revert Hok. apply placed_grows; try done. eexists; split; [done|]. by apply Forall_singleton. }
  destruct (task_live (sess d)) eqn:Hl; [done|]. case_decide; [|by case_decide].
  destruct (shutting_down d); [done|].
  set (d' := d <| sess ::= _ |>).
  apply (placed_start _ _ _ _ (mkPendingMessage text None false now None false None)); [|done|done|].
  - intros r Hr. by eapply (no_task_free _ d).
  - pose proof (entries_ok _ _ Hok). revert Hok. apply placed_frame; try done. by constructor.
Qed.
Lemma step_placed d op : handled None d → placed_now d → placed_now (step d op).
Proof.
  intros Hh Hok. destruct op; cbn [step];
    try (unfold when_at; progress destruct (running d) as [r|] eqn:Hr; [case_decide as Hp|]; try done);
    try (revert Hok; by apply placed_same).
  - by apply placed_prompt.
  - unfold steer. destruct (_ || _); [|destruct (steer_accepts _); [|by apply placed_prompt]]; revert Hok; by apply placed_same.
  - by apply placed_process_pending.
  - by apply placed_resume.
  - revert Hok. apply placed_grows; try done. eexists; split; [done|]. by apply Forall_singleton.
  - by apply placed_begin.
  - apply placed_finalize; [done|congruence|done].
  - apply placed_close; [done|congruence|done].
  - apply placed_dispatch_next; [done| |done]. intros r' Hr'. congruence.
  - apply placed_task_done; [|done]. intros r' Hr'. congruence.
  - by apply placed_never_began.
  - by apply placed_cancel.
  - by apply placed_remove.
  - case_decide; [by apply placed_remove|done].
  - unfold delete_row. revert Hok. case_decide; by apply placed_same.
Qed.
Lemma run_placed ops d : handled None d → placed_now d → placed_now (run ops d).
Proof.
  revert d. induction ops as [|op ops IH]; intros d Hh Hok; [done|]. cbn.
  apply IH; [by apply step_handled|by apply step_placed].
Qed.

Lemma open_placed sid kind now p rs : placed [] (open_desk sid kind now p rs).
Proof. split; [done| |done]. intros mid Hm. by apply not_elem_of_nil in Hm. Qed.

(** ** Properties *)
(** C18: Every sender's handle is settled, once and for good, or someone still
    owes it a result: the queue entry or withdrawal its message is parked
    under, the turn in flight, or a task that was cancelled before its first
    step.  Whatever the order of prompts, cancels, removals, finalizations and
    dispatches. *)
Theorem handles_are_settled_or_owed (sid kind : string) (now : Z) (p : Pins) (rs : list Row) (ops more : list Op) (h : nat) (x : Handle) :
  let d := run ops (open_desk sid kind now p rs) in
  handles d !! h = Some x →
  match h_result x with
  | Some res => ∃ y, handles (run more d) !! h = Some y ∧ h_result y = Some res
  | None =>
      (∃ mid, pending_execs d !! mid = Some h ∧ (mid ∈ queued_ids (sess d) ∨ mid ∈ withdrawn d)) ∨
      (∃ r, running d = Some r ∧ r_exec r = Some h ∧ r_phase r ≠ Closing) ∨
      (∃ r, r ∈ stillborn d ∧ r_exec r = Some h)
  end.
Proof.
  intros d Hx.
  assert (handled None d) as Hh by apply run_handled, open_desk_handled.
  assert (placed (pending_messages (sess d)) d) as Hpl by (apply run_placed; [apply open_desk_handled|apply open_placed]).
  destruct (h_result x) as [res|] eqn:Er.
  - destruct (run_grows more d h x Hx) as (y & Hy & _ & Hr). exists y. split; [done|]. by rewrite Hr; rewrite Er.
  - destruct (open_owed _ _ Hh h x Hx Er) as [?|[[mid Hm]|[Hr|Hs]]]; [done|left|by right; left|by right; right].
    exists mid. split; [done|]. by apply (waits _ _ Hpl mid h).
Qed.

(** C20: Every message the session took on is in the queue, or in a task that
    has not begun, or had a turn begun for it, or was withdrawn: none is
    dropped on the way, through recovery sweeps, refused continuations and
    crashed turns. *)
Theorem accepted_messages_are_accounted_for (sid kind : string) (now : Z) (p : Pins) (rs : list Row) (ops : list Op) :
  let d := run ops (open_desk sid kind now p rs) in
  Forall (λ m, m ∈ queued_ids (sess d) ∨ m ∈ withdrawn d ∨ m ∈ begun d ∨ m ∈ created d ∨ m ∈ omap r_msg (stillborn d))
    (accepted d).
Proof.
  intros d. apply Forall_forall. intros m Hm.
  assert (placed (pending_messages (sess d)) d) as Hpl by (apply run_placed; [apply open_desk_handled|apply open_placed]).
  apply (accounted _ _ Hpl m Hm).
Qed.

Lemma handles_are_settled_or_owed_witness :
  (∃ x, handles (run a_day a_desk) !! 0%nat = Some x ∧ h_result x = Some (Ended EXEC_COMPLETED)) ∧
  ∃ y, handles (run turn_ends (run a_day a_desk)) !! 0%nat = Some y ∧ h_result y = Some (Ended EXEC_COMPLETED).
Proof.
  split.
  - eexists. split; [vm_compute; reflexivity|reflexivity].
  - pose proof (handles_are_settled_or_owed "s" "normal" 0 no_pins [] a_day turn_ends 0
      (mkHandle None "user" (Some 1) true (Some (Ended EXEC_COMPLETED)))) as H.
    cbn zeta in H. apply H. vm_compute. reflexivity.
Defined.

(** *** What goes wrong *)
(** A task cancelled before its first step leaves its sender waiting, through
    every later turn. *)
Lemma unborn_turn_settles_nothing :
  let d := run ([say 0 "hi"; Cancel false; NeverBegan; say 9000000000 "next"; Begin 1; Moves PROCESSING; Answer true] ++ turn_ends)
             a_desk in
  h_result <$> handles d = [None; Some (Ended EXEC_COMPLETED)].
Proof. vm_compute. reflexivity. Qed.
