(* ===== verification/AdmitOptions.v ===== *)
(** * A turn's options

    Over the steps of Admission.v: the options of a message are on the session
    from the first step of its own turn to its last, and at no other time. *)
From stdpp Require Import gmap.
From S2P Require Import Prelude Events Session StateMachine PyStr PyText Admission AdmitHandles.
Local Open Scope Z_scope.

(** ** The settings a turn runs under *)
(** The execution of the turn whose options are in force. *)
Definition engaged (d : Desk) : option (option nat) :=
  match running d with
  | Some r => if decide (r_phase r = Running ∨ r_phase r = Finalized) then Some (r_exec r) else None
  | None => None
  end.
Definition turn_options (d : Desk) : option ExecOptions := mjoin (engaged d) ≫= λ h, exec_options (Some h) d.
Definition applied_for (base : Pins) (h : option nat) (d : Desk) : option AppliedExec :=
  match h, exec_options h d with
  | Some h, Some o => if no_options o then None else Some (mkApplied h o base)
  | _, _ => None
  end.
Record in_force (base : Pins) (d : Desk) : Prop := mkInForce {
  active_is : active_exec d = applied_for base (mjoin (engaged d)) d;
  pins_are : pins_of (sess d) = match active_exec d with Some a => overlay (a_options a) base | None => base end
}.
Definition settings (d : Desk) := (active_exec d, pins_of (sess d), engaged d).

Lemma overlay_none o base : no_options o = true → overlay o base = base.
Proof.
  unfold no_options, overlay. intros H%bool_decide_eq_true. destruct H as (-> & -> & ->). by destruct base.
Qed.
Lemma put_back_overlay h o base : put_back (mkApplied h o base) (overlay o base) = base.
Proof. unfold put_back, overlay. destruct base as [m l b]. cbn. by destruct (some_model o), (some_tools o), (some_budget o). Qed.
Lemma pins_set p s : pins_of (set_pins p s) = p.
Proof. by destruct p. Qed.
Lemma exec_options_grows h d d' :
  grows d d' → (∀ k, h = Some k → (k < length (handles d))%nat) → exec_options h d' = exec_options h d.
Proof.
  intros Hg Hlen. destruct h as [k|]; [|done]. unfold exec_options. cbn.
  destruct (lookup_lt_is_Some_2 (handles d) k) as [x Hx]; [by apply Hlen|].
  destruct (Hg k x Hx) as (y & Hy & Ho & _). by rewrite Hx, Hy.
Qed.
Lemma in_force_frame base d d' :
  settings d' = settings d → grows d d' → handled None d → in_force base d → in_force base d'.
Proof.
  intros E Hg Hh [H1 H2]. unfold settings in E. injection E as Ea Ep1 Ep2 Ep3 Ee.
  assert (applied_for base (mjoin (engaged d')) d' = applied_for base (mjoin (engaged d)) d) as Ex.
  { rewrite Ee. destruct (mjoin (engaged d)) as [h|] eqn:Em; [|done]. unfold applied_for.
    rewrite (exec_options_grows (Some h) d d' Hg); [done|]. intros k [= <-].
    unfold engaged in Em. destruct (running d) as [r|] eqn:Er; [|done]. case_decide; [|done].
    by eapply (running_old _ _ Hh). }
  split; [by rewrite Ex, Ea|]. rewrite Ea, <- H2. unfold pins_of. congruence.
Qed.

Lemma settings_apart d d' : apart_from_queue d' = apart_from_queue d → settings d' = settings d.
Proof. intros E. apply (f_equal settings E). Qed.
Lemma finalize_settings how now r d :
  running d = Some r → r_phase r = Running → settings (finalize how now r d) = settings d.
Proof.
  intros Hr Hp. unfold finalize. set (d' := d <| running := _ |>).
  assert (settings d' = settings d) as E.
  { unfold settings, engaged. rewrite Hr. cbn. by rewrite Hp, !decide_True by auto. }
  destruct how; [|done|done]. rewrite (settings_apart _ _ (sweep_apart _ _ _)). done.
Qed.
Lemma meanwhile_settings f now d : settings (meanwhile f now d) = settings d.
Proof.
  unfold meanwhile. destruct (running d) as [r|] eqn:E; [|done]. destruct (f && _) eqn:Ef; [|done].
  breflect. by apply finalize_settings.
Qed.
Lemma reap_settings r ids d : settings (_reap_pending_execs r ids d) = settings d.
Proof. apply (f_equal settings (reap_apart r ids d)). Qed.
Lemma free_settings d : free d → settings d = (active_exec d, pins_of (sess d), None).
Proof.
  intros Hf. unfold settings, engaged. destruct (running d) as [r|] eqn:E; [|done].
  rewrite (Hf r E), decide_False; [done|]. by intros [?|?].
Qed.
Lemma start_settings h text pre mid d : free d → settings (start_task h text pre mid d) = settings d.
Proof. intros Hf. rewrite (free_settings d Hf). by destruct h. Qed.
Lemma park_settings now message h mid d : settings (park now message h mid d).1 = settings d.
Proof. done. Qed.
Lemma start_now_settings closes now message h d : free d → settings (start_now closes now message h d).1 = settings d.
Proof.
  intros Hf. unfold start_now. set (p := if decide (message = "") then _ else _).
  assert (settings p.1 = settings d ∧ free p.1) as [Hp Hfp] by (subst p; by destruct (decide (message = ""))).
  destruct p as [e mid]. cbn [fst] in *. clear Hf. destruct closes; [exact Hp|]. cbn [fst].
  rewrite <- Hp. set (e' := e <| handles ::= _ |>).
  trans (settings (start_task (Some h) message (bool_decide (message ≠ "")) mid e')); [by destruct mid|].
  rewrite start_settings by exact Hfp. reflexivity.
Qed.
Lemma prompt_settings max runner closes f now opts origin message d :
  handled None d → settings (prompt max runner closes f now opts origin message d).1 = settings d.
Proof.
  intros Hh. unfold prompt. set (h := length (handles d)).
  pose proof (new_handle_handled (mkHandle opts origin None false None) d Hh) as Hd. fold h in Hd.
  trans (settings (d <| handles ::= λ l, l ++ [mkHandle opts origin None false None] |>)); [|done].
  set (d' := d <| handles ::= _ |>) in *. clearbody h d'.
  destruct (_ && _); [done|]. destruct (shutting_down d'); [done|]. case_decide; [done|].
  destruct (_ || _) eqn:Hbusy.
  - unfold busy_prompt. destruct (_ <=? _)%nat; [done|]. destruct (fold_target _ _ _ _ _ _).
    + unfold fold_into. cbn [fst]. by destruct (decide (current_turn_user_msg_id _ = _)).
    + unfold queue_behind. destruct (decide (message = "")); [done|]. rewrite park_settings.
      apply (meanwhile_settings f now (save_row message d')).
  - assert (free d') as Hf.
    { eapply no_task_free; [done|].
      apply orb_false_iff in Hbusy as [Hs Hr]. rewrite negb_false_iff in Hr. by rewrite Hr, andb_true_r in Hs. }
    unfold fresh_prompt. set (d2 := d' <| sess ::= reset_for_turn |>).
    trans (settings d2); [|done]. assert (free d2) as Hf2 by done. clearbody d2.
    destruct (negb runner); [done|].
    destruct (if bool_decide _ then _ else _) as [|r rs].
    + by apply start_now_settings.
    + unfold behind_orphans. trans (settings (foldl (λ d r, requeue now r d) d2 (r :: rs))); [by destruct (decide (message = ""))|].
      apply settings_apart, (foldl_view apart_from_queue). intros. apply requeue_apart.
Qed.
Lemma next_entry_settings admits q d : settings (next_entry admits q d).1 = settings d.
Proof.
  revert d. induction q as [|e q IH]; intros d; [done|]. cbn. set (d' := d <| sess ::= _ |>).
  trans (settings d'); [|done]. destruct (admits_entry admits e); [done|].
  etrans; [apply IH|]. exact (reap_settings Dropped (Some (option_list (msg_id e))) d').
Qed.
Lemma dispatch_settings e d : free d → settings (dispatch e d) = settings d.
Proof.
  intros Hf. unfold dispatch. set (d' := match msg_id e with Some m => _ | None => _ end).
  assert (settings d' = settings d ∧ free d') as [E Hf'] by (subst d'; by destruct (msg_id e)). rewrite <- E. clearbody d'.
  assert (settings (_take_pending_exec (msg_id e) d').1 = settings d' ∧ free (_take_pending_exec (msg_id e) d').1)
    as [Et Hft] by by destruct (msg_id e).
  destruct (_take_pending_exec (msg_id e) d') as [f h]. cbn [fst] in *. rewrite <- Et. by apply start_settings.
Qed.
Lemma process_pending_settings own ready admits d :
  handled None d → (own = true → free d) → settings (_process_pending own ready admits d) = settings d.
Proof.
  intros Hh Hown. unfold _process_pending. destruct (shutting_down d); [done|].
  rewrite <- (reap_settings Dropped None d).
  pose proof (reap_handled Dropped None d Hh) as Hhr. pose proof (reap_running Dropped None d) as Er.
  set (d' := _reap_pending_execs _ _ d) in *. clearbody d'.
  case_decide; [done|]. case_decide; [done|]. destruct (task_live (sess d') && negb own) eqn:Hl; [done|].
  pose proof (next_entry_settings admits (pending_messages (sess d')) d') as Es.
  destruct (next_entry_handled admits (pending_messages (sess d')) d' Hhr) as [_ En].
  destruct (next_entry _ _ d') as [d'' [e|]]; [|done]. cbn [fst] in *. rewrite <- Es. apply dispatch_settings.
  intros r. rewrite En. revert r. fold (free d').
  apply andb_false_iff in Hl as [Hl|Hl]; [by eapply no_task_free|].
  intros r. rewrite Er. apply Hown. by destruct own.
Qed.
Lemma task_done_settings d : free d → settings (task_done d) = settings d.
Proof. intros Hf. by rewrite (free_settings d Hf). Qed.

(** A turn puts its options on as it begins, and takes them off as it ends. *)
Lemma apply_on base h d :
  active_exec d = None → pins_of (sess d) = base →
  active_exec (_apply_execution h d) = applied_for base h d ∧
  pins_of (sess (_apply_execution h d)) = match applied_for base h d with Some a => overlay (a_options a) base | None => base end.
Proof.
  intros Ha Hp. unfold _apply_execution, applied_for. rewrite Ha.
  destruct h as [h|]; [|done]. destruct (exec_options (Some h) d) as [o|]; [|done].
  destruct (no_options o); [done|]. cbn. rewrite Hp. by destruct (overlay o base).
Qed.
Lemma begin_settings now r d :
  running d = Some r →
  let d1 := d <| sess ::= λ s, s <| turn := new_turn_state |> |> in
  settings (begin now r d) =
    (active_exec (_apply_execution (r_exec r) d1), pins_of (sess (_apply_execution (r_exec r) d1)), Some (r_exec r)).
Proof.
  intros Hr d1. unfold begin. fold d1. set (e := _apply_execution _ d1).
  set (e' := match r_msg r with Some m => _ | None => e end).
  assert (active_exec e' = active_exec e ∧ pins_of (sess e') = pins_of (sess e)) as [<- <-] by (subst e'; by destruct (r_msg r)).
  clearbody e'. by destruct (_ && _).
Qed.
Lemma begin_in_force base now r d :
  running d = Some r → r_phase r = Created → handled None d → in_force base d → in_force base (begin now r d).
Proof.
  intros Hr Hp Hh [H1 H2].
  assert (engaged d = None) as Een.
  { unfold engaged. rewrite Hr, decide_False; [done|]. rewrite Hp. by intros [?|?]. }
  rewrite Een in H1. cbn in H1. rewrite H1 in H2.
  pose proof (begin_settings now r d Hr) as E. cbv zeta in E. set (d1 := d <| sess ::= _ |>) in E.
  destruct (apply_on base (r_exec r) d1 H1 H2) as [Ha Hpn]. rewrite Ha, Hpn in E.
  pose proof (f_equal (λ x, x.1.1) E) as Ea. pose proof (f_equal (λ x, x.1.2) E) as Epn. pose proof (f_equal snd E) as Ee.
  cbn [settings fst snd] in Ea, Epn, Ee. split.
  - rewrite Ea, Ee. cbn. unfold applied_for. destruct (r_exec r) as [h|]; [|done].
    unfold exec_options. by rewrite begin_handles.
  - by rewrite Epn, Ea.
Qed.
Lemma release_off base h d :
  active_exec d = applied_for base h d → pins_of (sess d) = match active_exec d with Some a => overlay (a_options a) base | None => base end →
  active_exec (_release_execution h d) = None ∧ pins_of (sess (_release_execution h d)) = base.
Proof.
  intros Ha Hp. unfold _release_execution. rewrite Ha in *. unfold applied_for in *.
  destruct h as [h|]; [|by rewrite Ha]. destruct (exec_options (Some h) d) as [o|]; [|by rewrite Ha].
  destruct (no_options o); [by rewrite Ha|]. cbn [a_exec a_options] in *. rewrite decide_True by done.
  cbn [active_exec sess]. split; [done|]. cbn. unfold _restore_session_settings. rewrite pins_set, Hp. apply put_back_overlay.
Qed.
Lemma close_in_force base written r d :
  running d = Some r → r_phase r = Finalized → in_force base d → in_force base (close written r d).
Proof.
  intros Hr Hp [H1 H2]. unfold engaged in H1. rewrite Hr, decide_True in H1 by auto. cbn in H1.
  unfold close. set (e := match r_message_id r with Some m => _ | None => d end).
  assert (active_exec e = active_exec d ∧ sess e = sess d ∧ handles e = handles d) as (Ea & Es & Eh).
  { subst e. by destruct (r_message_id r), written. }
  clearbody e.
  destruct (release_off base (r_exec r) e) as [Fa Fp].
  { rewrite Ea, H1. unfold applied_for, exec_options. by rewrite Eh. }
  { by rewrite Es, Ea. }
  set (f := _release_execution _ e) in *. clearbody f.
  split; cbn; destruct (r_exec r); cbn; rewrite Fa; done.
Qed.
Lemma step_in_force base d op :
  (∀ p, op ≠ Repin p) → handled None d → in_force base d → in_force base (step d op).
Proof.
  intros Hop Hh Hok.
  assert (settings (step d op) = settings d → in_force base (step d op)) as Hsame.
  { intros E. eapply in_force_frame; [done|apply step_grows|done|done]. }
  destruct op; try (by apply Hsame); cbn [step] in *;
    try (unfold when_at in *; progress destruct (running d) as [r|] eqn:Hr; [case_decide as Hp|]; try done).
  - apply Hsame. by apply prompt_settings.
  - apply Hsame. unfold steer. destruct (_ || _); [done|]. destruct (steer_accepts _); [done|]. by apply prompt_settings.
  - apply Hsame. by apply process_pending_settings.
  - apply Hsame. unfold resume_parent. destruct (task_live (sess d)) eqn:Hl; [done|].
    case_decide; [|by case_decide]. destruct (shutting_down d); [done|].
    rewrite start_settings; [done|]. intros r Hr. by eapply (no_task_free _ d).
  - by apply begin_in_force.
  - by apply Hsame.
  - apply Hsame. by apply finalize_settings.
  - by apply close_in_force.
  - apply Hsame. unfold dispatch_next.
    assert (free d) as Hf by (intros r' Hr'; congruence).
    pose proof (process_pending_settings true [IDLE_READY] admits d Hh (λ _, Hf)) as E.
    destruct (running (_process_pending _ _ _ _)) as [r'|] eqn:Er; [|done]. case_decide; [|done].
    rewrite task_done_settings; [done|]. intros r2 Hr2. congruence.
  - apply Hsame, task_done_settings. intros r' Hr'. congruence.
  - apply Hsame. unfold settings, engaged. rewrite Hr. cbn. rewrite decide_False; [done|]. rewrite Hp. by intros [?|?].
  - apply Hsame. unfold cancel_session, _drain_pending_for_cancel. set (e := _ <| sess ::= λ s, s <| pending_messages := [] |> |>).
    trans (settings (_reap_pending_execs QueueCancelled None e)); [done|]. by rewrite reap_settings.
  - by apply Hsame.
  - apply Hsame. by case_decide.
  - apply Hsame. unfold delete_row. by case_decide.
  - by destruct (Hop p).
Qed.
Lemma run_in_force base ops d :
  (∀ p, Repin p ∉ ops) → handled None d → in_force base d → in_force base (run ops d).
Proof.
  revert d. induction ops as [|op ops IH]; intros d Hr Hh Hok; [done|]. cbn.
  apply IH; [set_solver|by apply step_handled|]. apply step_in_force; [|done|done]. intros p ->. apply (Hr p). set_solver.
Qed.

(** ** Properties *)
(** C19: A turn runs under its own message's options over the session's
    settings, and between turns the session has its settings back: however
    messages with options queue behind, replace or follow each other, fail or
    are cancelled, as long as the user changes none of the settings. *)
Theorem options_belong_to_their_turn (sid kind : string) (now : Z) (p : Pins) (rs : list Row) (ops : list Op) :
  (∀ q, Repin q ∉ ops) →
  let d := run ops (open_desk sid kind now p rs) in
  pins_of (sess d) = match turn_options d with Some o => overlay o p | None => p end.
Proof.
  intros Hr d.
  assert (in_force p d) as [Ha Hp].
  { apply run_in_force; [done|apply open_desk_handled|]. split; [done|]. cbn. by destruct p. }
  rewrite Hp, Ha. unfold turn_options, applied_for. destruct (mjoin (engaged d)) as [h|]; [|done]. cbn [mbind option_bind].
  destruct (exec_options (Some h) d) as [o|]; [|done]. destruct (no_options o) eqn:E; [|done]. by rewrite overlay_none.
Qed.

Lemma options_belong_to_their_turn_witness :
  p_model (pins_of (sess (run a_day a_desk))) = Some "small" ∧
  pins_of (sess (run a_day a_desk)) = match turn_options (run a_day a_desk) with Some o => overlay o no_pins | None => no_pins end.
Proof.
  split; [vm_compute; reflexivity|].
  apply (options_belong_to_their_turn "s" "normal" 0 no_pins [] a_day).
  intros q Hq. repeat (apply elem_of_cons in Hq as [Hq|Hq]; [discriminate|]). by apply not_elem_of_nil in Hq.
Defined.

(** *** What goes wrong *)
(** The user's words are folded into a scheduled job's row, and run under its
    options. *)
Lemma follow_up_joins_the_job :
  let d := run [job 0 "report"; Begin 1; Moves PROCESSING; say 1000000 "hello"] a_desk in
  (row_content <$> get_message 1 (rows d)) = Some (_combine_rapid_fire "report" "hello") ∧
  turn_options d = Some (mkOptions (Some "small") None None) ∧ length (rows d) = 1%nat.
Proof. vm_compute. done. Qed.
(** A model the user pins during a turn with options is gone when it ends. *)
Lemma pin_set_during_a_job_is_lost :
  let d := run [job 0 "report"; Begin 1; Moves PROCESSING; Repin (mkPins (Some "mine") None None); Answer true;
                Moves IDLE_READY; Finalize Normally 5; Close true] a_desk in
  p_model (pins_of (sess d)) = None.
Proof. vm_compute. reflexivity. Qed.
