(* ===== verification/AdmitOnce.v ===== *)
(** * One message, one turn

    Over the steps of Admission.v: rows change only towards being closed
    ([rows_evolve]), and a message that has begun is never brought back into
    the queue ([once]). *)
From stdpp Require Import gmap.
From S2P Require Import Prelude Events Session StateMachine PyStr PyText Admission AdmitHandles.
Local Open Scope Z_scope.
Local Notation placed_now d := (placed (pending_messages (sess d)) d).

(** ** No message begins twice *)
Lemma submseteq_distinct {A} (l k : list A) : l ⊆+ k → NoDup k → NoDup l.
Proof. intros [r Hr]%submseteq_Permutation. rewrite Hr. by intros [? _]%NoDup_app. Qed.
(** What the delivery protocol forgets of a row: never that it manages it, nor
    that it is closed. *)
Definition row_evolves (r r' : Row) : Prop :=
  row_id r' = row_id r ∧ (delivery r ≠ None → delivery r' ≠ None) ∧ (is_closed r = true → is_closed r' = true).
Definition rows_evolve (n : Z) (rs rs' : list Row) : Prop :=
  ∀ r', r' ∈ rs' → row_id r' < n → ∃ r, r ∈ rs ∧ row_evolves r r'.
#[export] Instance row_evolves_preorder : PreOrder row_evolves.
Proof. split; [by intros r|]. intros r1 r2 r3 (E1 & D1 & C1) (E2 & D2 & C2). split_and!; [congruence|auto..]. Qed.
#[export] Instance rows_evolve_preorder n : PreOrder (rows_evolve n).
Proof.
  split; [intros rs r Hr _; by exists r|]. intros rs1 rs2 rs3 H12 H23 r3 H3 Hn.
  destruct (H23 r3 H3 Hn) as (r2 & H2 & E23). destruct (H12 r2 H2) as (r1 & H1 & E12); [by destruct E23 as [<- _]|].
  exists r1. split; [done|by etrans].
Qed.
Lemma update_evolves n P f rs : (∀ r, row_evolves r (f r)) → rows_evolve n rs (update_rows P f rs).
Proof.
  intros Hf r' Hr' _. apply list_elem_of_fmap in Hr' as (r & -> & Hr). exists r. split; [done|]. by destruct (P r).
Qed.
Lemma delivery_evolves n ids st rs : st ≠ Pending → rows_evolve n rs (set_message_delivery ids st rs).
Proof.
  intros Hst. apply update_evolves. intros r. split_and!; [done|done|]. intros _. unfold is_closed. cbn.
  apply orb_true_iff. right. apply bool_decide_eq_true. destruct st; set_solver.
Qed.
Lemma requeue_evolves n mid rs : rows_evolve n rs (requeue_message_delivery mid rs).
Proof. by apply update_evolves. Qed.
Lemma cancelled_evolves n ids rs : rows_evolve n rs (mark_messages_cancelled ids rs).
Proof. by apply update_evolves. Qed.
Lemma snoc_evolves n rs r : n ≤ row_id r → rows_evolve n rs (rs ++ [r]).
Proof.
  intros Hn r' [Hr'|Hr']%elem_of_app Hlt; [by exists r'|]. apply list_elem_of_singleton in Hr' as ->. lia.
Qed.
Definition rows_old (d : Desk) : Prop := ∀ r, r ∈ rows d → row_id r < next_id d.
Definition all_rows (P : Row → Prop) (mid : Z) (rs : list Row) : Prop := ∀ r, r ∈ rs → row_id r = mid → P r.
Lemma evolve_managed n rs rs' m :
  m < n → rows_evolve n rs rs' → all_rows (λ r, delivery r ≠ None) m rs → all_rows (λ r, delivery r ≠ None) m rs'.
Proof. intros Hm He H r' Hr' Hid. destruct (He r' Hr') as (r & Hr & E & D & _); [lia|]. apply D, H; [done|congruence]. Qed.
Lemma evolve_closed n rs rs' m :
  m < n → rows_evolve n rs rs' → all_rows (λ r, is_closed r = true) m rs → all_rows (λ r, is_closed r = true) m rs'.
Proof. intros Hm He H r' Hr' Hid. destruct (He r' Hr') as (r & Hr & E & _ & C); [lia|]. apply C, H; [done|congruence]. Qed.

Definition swept (d : Desk) : gset Z := swept_orphan_ids (sess d).
Definition tickets (queue : list PendingMessage) (d : Desk) : list Z := omap msg_id queue ++ created d ++ begun d.
(** A begun message is not brought back: it was already, or its row is closed,
    or its turn is still to close it. *)
Definition finished (d : Desk) (m : Z) : Prop :=
  m ∈ swept d ∨ all_rows (λ r, is_closed r = true) m (rows d) ∨
  ∃ r, running d = Some r ∧ (r_phase r = Running ∨ r_phase r = Finalized) ∧ r_message_id r = Some m.
Definition turn_ok (d : Desk) : Prop := ∀ r, running d = Some r →
  (r_phase r = Created → ∀ m, r_msg r = Some m → current_turn_user_msg_id (sess d) = Some m ∧ r_pre_saved r = true) ∧
  (r_phase r = Running → r_message_id r = current_turn_user_msg_id (sess d)).
Record once (queue : list PendingMessage) (d : Desk) : Prop := mkOnce {
  once_each : NoDup (tickets queue d);
  once_old m : m ∈ tickets queue d → m < next_id d;
  once_rows : rows_old d;
  once_managed m : m ∈ tickets queue d → m ∈ swept d ∨ all_rows (λ r, delivery r ≠ None) m (rows d);
  once_finished m : m ∈ begun d → finished d m;
  once_turn : turn_ok d
}.
Local Notation once_now d := (once (pending_messages (sess d)) d).

Lemma once_frame queue queue' d d' :
  tickets queue' d' ⊆+ tickets queue d → next_id d ≤ next_id d' →
  rows_evolve (next_id d) (rows d) (rows d') → rows_old d' → swept d ⊆ swept d' →
  (∀ m, m ∈ begun d' → finished d' m) → turn_ok d' → once queue d → once queue' d'.
Proof.
  intros Ht Hn He Ho Hs Hf Hok [H1 H2 H3 H4 H5 H6].
  assert (∀ m, m ∈ tickets queue' d' → m ∈ tickets queue d) as Hin
    by (intros m Hm; by eapply elem_of_submseteq).
  split; [|intros m Hm; specialize (H2 m (Hin m Hm)); lia|done| |done|done].
  - by eapply submseteq_distinct.
  - intros m Hm. destruct (H4 m (Hin m Hm)); [set_solver|]. right. eapply evolve_managed; eauto.
Qed.
Lemma finished_evolves d d' m :
  m < next_id d → rows_evolve (next_id d) (rows d) (rows d') → swept d ⊆ swept d' → running d' = running d →
  finished d m → finished d' m.
Proof.
  intros Hm He Hs Er [?|[Hc|Hr]]; [left; set_solver|right; left; by eapply evolve_closed|right; right; by rewrite Er].
Qed.
(** The transcript moves on and the turn does not. *)
Lemma once_rows_frame queue queue' d d' :
  omap msg_id queue' ⊆+ omap msg_id queue → begun d' = begun d → running d' = running d → next_id d ≤ next_id d' →
  rows_evolve (next_id d) (rows d) (rows d') → rows_old d' → swept d ⊆ swept d' →
  current_turn_user_msg_id (sess d') = current_turn_user_msg_id (sess d) →
  once queue d → once queue' d'.
Proof.
  intros Hq Eb Er Hn He Ho Hs Ec Hok. apply (once_frame queue queue' d d'); try done.
  - unfold tickets, created. rewrite Eb, Er. by apply submseteq_app.
  - rewrite Eb. intros m Hm. apply (finished_evolves d d'); try done; [|by apply (once_finished _ _ Hok)].
    apply (once_old _ _ Hok). unfold tickets. set_solver.
  - intros r. rewrite Er, Ec. apply (once_turn _ _ Hok).
Qed.
Lemma once_same queue d d' :
  begun d' = begun d → running d' = running d → next_id d' = next_id d → rows d' = rows d → swept d' = swept d →
  current_turn_user_msg_id (sess d') = current_turn_user_msg_id (sess d) → once queue d → once queue d'.
Proof.
  intros Eb Er En Ew Es Ec Hok. apply (once_rows_frame queue queue d d'); rewrite ?En, ?Ew, ?Es; try done.
  intros r. rewrite Ew, En. apply (once_rows _ _ Hok).
Qed.
(** A row is added. *)
Lemma once_new_row queue r d d' :
  begun d' = begun d → running d' = running d → next_id d' = next_id d + 1 → rows d' = rows d ++ [r] →
  row_id r = next_id d → swept d' = swept d → current_turn_user_msg_id (sess d') = current_turn_user_msg_id (sess d) →
  once queue d → once queue d'.
Proof.
  intros Eb Er En Ew Eid Es Ec Hok. apply (once_rows_frame queue queue d d'); rewrite ?En, ?Ew, ?Es; try done; [lia| |].
  - apply snoc_evolves. lia.
  - intros r'. rewrite Ew, En. intros [Hr|Hr]%elem_of_app; [specialize (once_rows _ _ Hok r' Hr); lia|].
    apply list_elem_of_singleton in Hr as ->. lia.
Qed.
Lemma rows_old_evolve d d' :
  next_id d ≤ next_id d' → (∀ r', r' ∈ rows d' → ∃ r, r ∈ rows d ∧ row_id r' = row_id r) → rows_old d → rows_old d'.
Proof. intros Hn Hr Ho r' Hr'. destruct (Hr r' Hr') as (r & Hin & ->). specialize (Ho r Hin). lia. Qed.
Lemma update_ids P f rs r' : (∀ r, row_id (f r) = row_id r) → r' ∈ update_rows P f rs → ∃ r, r ∈ rs ∧ row_id r' = row_id r.
Proof. intros Hf Hr'. apply list_elem_of_fmap in Hr' as (r & -> & Hr). exists r. split; [done|]. by destruct (P r). Qed.
(** A message is queued. *)
Lemma once_queue queue m e d :
  msg_id e = Some m → m ∉ tickets queue d → m < next_id d →
  m ∈ swept d ∨ all_rows (λ r, delivery r ≠ None) m (rows d) → once queue d → once (queue ++ [e]) d.
Proof.
  intros He Hm Hlt Hman [H1 H2 H3 H4 H5 H6].
  assert (tickets (queue ++ [e]) d ≡ₚ m :: tickets queue d) as Hp.
  { unfold tickets. rewrite omap_app. cbn. rewrite He. solve_Permutation. }
  split; [by rewrite Hp; constructor|intros k; rewrite Hp; intros [->|Hk]%elem_of_cons; auto|done| |done|done].
  intros k. rewrite Hp. intros [->|Hk]%elem_of_cons; auto.
Qed.
(** A row that is not closed and was not brought back before has not begun,
    unless its turn is the one in flight. *)
Lemma orphans_from_open p rs r :
  (∀ q, p = Some q → is_closed q = false) → r ∈ orphans_from p rs → (r ∈ rs ∨ p = Some r) ∧ is_closed r = false.
Proof.
  revert p. induction rs as [|x rs IH]; intros p Hp; cbn.
  { destruct p as [q|]; [|by intros ?%not_elem_of_nil]. intros ->%list_elem_of_singleton. auto. }
  assert (∀ q, (∀ y, q = Some y → is_closed y = false) → r ∈ orphans_from q rs →
    (∀ y, q = Some y → y = x ∨ p = Some y) → (r ∈ x :: rs ∨ p = Some r) ∧ is_closed r = false) as Hgo.
  { intros q Hq Hr Hx. destruct (IH q Hq Hr) as [[Hin|Hqr] Hc]; split; try done; [left; set_solver|].
    destruct (Hx r Hqr) as [->|?]; [left; set_solver|by right]. }
  destruct (row_role x); [|intros Hr; by apply (Hgo None)|intros Hr; apply (Hgo p); auto].
  destruct (is_closed x) eqn:Hc; [intros Hr; apply (Hgo p); auto|].
  destruct (has_status Pending x).
  { intros [->|Hr]%elem_of_cons; [split; [left; set_solver|done]|apply (Hgo p); auto]. }
  destruct (injected x); [intros Hr; apply (Hgo p); auto|].
  assert (r ∈ orphans_from (Some x) rs → (r ∈ x :: rs ∨ p = Some r) ∧ is_closed r = false) as Hx.
  { intros Hr. apply (Hgo (Some x)); [by intros y [= <-]|done|]. intros y [= <-]. by left. }
  destruct p as [q|]; [|done]. intros [->|Hr]%elem_of_cons; [split; [by right|by apply Hp]|auto].
Qed.
Lemma orphan_unbegun queue d r :
  once queue d → r ∈ unswept d (_find_db_orphans d) →
  (∀ g, running d = Some g → r_phase g = Running ∨ r_phase g = Finalized → r_message_id g ≠ Some (row_id r)) →
  row_id r ∉ begun d ∧ row_id r < next_id d.
Proof.
  intros Hok [Hs Hr]%list_elem_of_filter Hrun.
  assert (r ∈ rows d ∧ is_closed r = false) as [Hin Hc].
  { unfold _find_db_orphans in Hr. assert (r ∈ get_orphaned_user_messages (rows d)) as Ho.
    { case_decide; [by apply list_elem_of_filter in Hr as [_ ?]|done]. }
    apply orphans_from_open in Ho as [[?|?] ?]; done. }
  split; [|by apply (once_rows _ _ Hok)]. intros Hb.
  destruct (once_finished _ _ Hok _ Hb) as [?|[Hcl|(g & Hg & Hp & Hm)]]; [done| |by eapply Hrun].
  by rewrite (Hcl r Hin eq_refl) in Hc.
Qed.
Lemma once_requeue now r d :
  created d = [] → row_id r ∉ begun d → row_id r < next_id d → once_now d → once_now (requeue now r d).
Proof.
  intros Hcr Hb Hlt Hok. unfold requeue. set (d' := _ <| sess ::= _ |>).
  assert (once_now d') as Hd'.
  { apply (once_rows_frame (pending_messages (sess d)) _ d d'); try done; [apply requeue_evolves| |unfold swept; cbn; set_solver].
    apply (rows_old_evolve d); [done| |apply (once_rows _ _ Hok)]. intros r'. by apply update_ids. }
  case_decide as Hq; [done|].
  assert (once (pending_messages (sess d') ++ [entry (row_content r) now (Some (row_id r))]) d') as Hnew.
  { apply (once_queue _ (row_id r)); try done; [|left; unfold swept; cbn; set_solver].
    unfold tickets. change (created d') with (created d). rewrite Hcr. change (begun d') with (begun d).
    rewrite elem_of_app. by intros [?|?]. }
  revert Hnew. by apply once_same.
Qed.
Lemma requeue_view {A} (view : Desk → A) now r d :
  (∀ f, view f = view (apart_from_queue f)) → view (requeue now r d) = view d.
Proof. intros Hv. by rewrite Hv, requeue_apart, <- Hv. Qed.
Lemma once_requeues now rs d :
  created d = [] → Forall (λ r, row_id r ∉ begun d ∧ row_id r < next_id d) rs → once_now d →
  once_now (foldl (λ d r, requeue now r d) d rs).
Proof.
  revert d. induction rs as [|r rs IH]; intros d Hcr Hrs Hok; [done|]. cbn.
  apply Forall_cons in Hrs as [[Hb Hn] Hrs].
  apply IH; [by rewrite (requeue_view created)| |by apply once_requeue].
  by rewrite requeue_next_id, (requeue_view begun).
Qed.
Lemma once_sweep now e d :
  created d = [] → (∀ g, running d = Some g → r_phase g = Running ∨ r_phase g = Finalized → e = r_message_id g) →
  once_now d → once_now (_sweep_db_pending now e d).
Proof.
  intros Hcr He Hok. unfold _sweep_db_pending. set (os := unswept _ _).
  assert (Forall (λ r, row_id r ∉ begun d ∧ row_id r < next_id d) os) as Hos.
  { apply Forall_forall. intros r [Hs [Hne Hr]%list_elem_of_filter]%list_elem_of_filter.
    eapply orphan_unbegun; [done|by apply list_elem_of_filter|]. intros g Hg Hp Hm. apply Hne. by rewrite (He g Hg Hp). }
  clearbody os. clear He. destruct (last os) as [l|]; [|done]. set (d' := foldl _ _ _).
  assert (once_now d') as Hd'.
  { subst d'. revert d Hcr Hok Hos. induction os as [|r rs IH]; intros d Hcr Hok Hos; [done|]. cbn.
    apply Forall_cons in Hos as [[Hb Hn] Hos]. case_decide; [by apply IH|].
    apply IH; [by rewrite (requeue_view created)|by apply once_requeue|].
    by rewrite requeue_next_id, (requeue_view begun). }
  case_decide; [|done]. revert Hd'. by apply once_same.
Qed.

(** The turn in flight moves on. *)
Lemma once_finalize how now r d :
  running d = Some r → r_phase r = Running → once_now d → once_now (finalize how now r d).
Proof.
  intros Hr Hp Hok. destruct (once_turn _ _ Hok r Hr) as [_ Hcur]. specialize (Hcur Hp).
  assert (created d = []) as Hcr by by rewrite (created_phase d r Hr), decide_False by congruence.
  assert (∀ f, running f = Some (r <| r_phase := Finalized |>) → rows f = rows d → next_id f = next_id d → swept f = swept d →
    begun f = begun d → pending_messages (sess f) = pending_messages (sess d) → once_now f) as Hgo.
  { intros f Fr Fw Fn Fs Fb Fq. rewrite Fq.
    assert (created f = []) as Fcr by by rewrite (created_phase f _ Fr).
    apply (once_frame (pending_messages (sess d)) _ d f); rewrite ?Fn, ?Fw, ?Fs, ?Fb; try done.
    - unfold tickets. by rewrite Fcr, Hcr, Fb.
    - intros r'. rewrite Fw, Fn. apply (once_rows _ _ Hok).
    - intros m Hm. destruct (once_finished _ _ Hok m Hm) as [?|[?|(g & Hg & _ & Hgm)]].
      + left. by rewrite Fs.
      + right. left. by rewrite Fw.
      + right. right. eexists. split; [done|]. split; [by right|]. cbn. congruence.
    - intros g. rewrite Fr. by intros [= <-]. }
  unfold finalize. destruct how; [|by apply Hgo|by apply Hgo].
  apply once_sweep; [done| |by apply Hgo]. cbn. intros g [= <-] _. cbn. by rewrite Hcur.
Qed.
Lemma once_begin now r d :
  running d = Some r → r_phase r = Created → once_now d → once_now (begin now r d).
Proof.
  intros Hr Hp Hok. destruct (once_turn _ _ Hok r Hr) as [Hcur _]. specialize (Hcur Hp).
  assert (∀ g f, running f = Some g → r_phase g = Running → r_message_id g = current_turn_user_msg_id (sess f) →
    (∀ m, r_msg r = Some m → r_message_id g = Some m) → begun f = option_list (r_msg r) ++ begun d →
    pending_messages (sess f) = pending_messages (sess d) → next_id d ≤ next_id f →
    rows_evolve (next_id d) (rows d) (rows f) → rows_old f → swept f = swept d → once_now f) as Hgo.
  { intros g f Fr Fp Fc Fm Fb Fq Fn Fe Fo Fs. rewrite Fq.
    apply (once_frame (pending_messages (sess d)) _ d f); rewrite ?Fs; try done.
    - unfold tickets. rewrite (created_phase d r Hr), (created_phase f g Fr), Fb, Fp, Hp.
      by repeat case_decide.
    - intros m. rewrite Fb. intros [Hm|Hm]%elem_of_app.
      + right. right. exists g. split_and!; [done|by left|]. apply Fm. destruct (r_msg r); set_solver.
      + destruct (once_finished _ _ Hok m Hm) as [?|[?|(g' & Hg & [?|?] & _)]]; [|right; left|congruence..].
        * left. by rewrite Fs.
        * eapply evolve_closed; [|done|done]. apply (once_old _ _ Hok). unfold tickets. set_solver.
    - intros g'. rewrite Fr. intros [= <-]. split; [congruence|done]. }
  unfold begin. set (e := _apply_execution _ _).
  assert (rows e = rows d ∧ next_id e = next_id d ∧ begun e = begun d ∧ swept e = swept d ∧
    pending_messages (sess e) = pending_messages (sess d) ∧
    current_turn_user_msg_id (sess e) = current_turn_user_msg_id (sess d)) as (E1 & E2 & E3 & E4 & E5 & E6).
  { subst e. unfold _apply_execution. repeat (split_match; cbn; try done). }
  set (e' := match r_msg r with Some m => _ | None => e end).
  assert (rows e' = rows d ∧ next_id e' = next_id d ∧ begun e' = option_list (r_msg r) ++ begun d ∧ swept e' = swept d ∧
    pending_messages (sess e') = pending_messages (sess d) ∧
    current_turn_user_msg_id (sess e') = current_turn_user_msg_id (sess d)) as (F1 & F2 & F3 & F4 & F5 & F6).
  { subst e'. rewrite <- E3. by destruct (r_msg r). }
  rewrite E6. clearbody e e'. clear E1 E2 E3 E4 E5.
  destruct (_ && _) eqn:Hfresh; eapply Hgo; try reflexivity; cbn; rewrite ?F1, ?F2, ?F3; try done; try lia.
  - intros m Hm. destruct (Hcur m Hm) as [_ Hs]. by rewrite Hs, andb_comm in Hfresh.
  - apply snoc_evolves. cbn. lia.
  - intros r'. cbn. rewrite F1. intros [Hr'|Hr']%elem_of_app.
    + specialize (once_rows _ _ Hok r' Hr'). lia.
    + apply list_elem_of_singleton in Hr' as ->. cbn. lia.
  - intros m Hm. by destruct (Hcur m Hm).
  - intros r'. cbn. rewrite F1, F2. apply (once_rows _ _ Hok).
Qed.
Lemma settled_closed m rs :
  all_rows (λ r, delivery r ≠ None) m rs → all_rows (λ r, is_closed r = true) m (set_message_delivery [m] Settled rs).
Proof.
  intros Hm r' Hr' Hid. apply list_elem_of_fmap in Hr' as (r & -> & Hr). revert Hid. set (c := _ && _ && _).
  destruct c eqn:Ec; cbn; intros Hid.
  - unfold is_closed. cbn. apply orb_true_iff. right. by apply bool_decide_eq_true; set_solver.
  - exfalso. specialize (Hm r Hr Hid). subst c. rewrite !bool_decide_true in Ec by (done || set_solver). done.
Qed.
Lemma once_close r d : running d = Some r → r_phase r = Finalized → once_now d → once_now (close true r d).
Proof.
  intros Hr Hp Hok.
  assert (created d = []) as Hcr by by rewrite (created_phase d r Hr), decide_False by congruence.
  assert (∀ f, running f = Some (r <| r_phase := Closing |>) → begun f = begun d → next_id f = next_id d →
    swept f = swept d → pending_messages (sess f) = pending_messages (sess d) →
    rows f = match r_message_id r with Some m => set_message_delivery [m] Settled (rows d) | None => rows d end →
    once_now f) as Hgo.
  { intros f Fr Fb Fn Fs Fq Fw. rewrite Fq.
    assert (rows_evolve (next_id d) (rows d) (rows f)) as He.
    { rewrite Fw. destruct (r_message_id r); [by apply delivery_evolves|done]. }
    apply (once_frame (pending_messages (sess d)) _ d f); rewrite ?Fn, ?Fs; try done.
    - unfold tickets. by rewrite Hcr, Fb, (created_phase f _ Fr).
    - apply (rows_old_evolve d); [lia| |apply (once_rows _ _ Hok)]. rewrite Fw. intros r'.
      destruct (r_message_id r); [by apply update_ids|by exists r'].
    - rewrite Fb. intros m Hm.
      assert (m ∈ tickets (pending_messages (sess d)) d) as Ht by (unfold tickets; set_solver).
      pose proof (once_old _ _ Hok m Ht) as Hlt.
      destruct (once_finished _ _ Hok m Hm) as [?|[?|(g & Hg & _ & Hgm)]].
      + left. by rewrite Fs.
      + right. left. by eapply evolve_closed.
      + simplify_eq. rewrite Hgm in Fw. destruct (once_managed _ _ Hok m Ht) as [?|?]; [left; by rewrite Fs|].
        right. left. rewrite Fw. by apply settled_closed.
    - intros g. rewrite Fr. by intros [= <-]. }
  unfold close. set (e := match r_message_id r with Some m => _ | None => d end).
  apply Hgo; try done; unfold _release_execution; subst e;
    by destruct (r_exec r), (r_message_id r); cbn; repeat (split_match; cbn).
Qed.
Lemma once_idle queue d d' :
  free d → running d' = None → begun d' = begun d → next_id d' = next_id d → rows d' = rows d → swept d' = swept d →
  once queue d → once queue d'.
Proof.
  intros Hf Er Eb En Ew Es Hok. apply (once_frame queue _ d); rewrite ?En, ?Ew, ?Es; try done.
  - unfold tickets. rewrite (free_created d Hf), Eb. unfold created. by rewrite Er.
  - intros r. rewrite Ew, En. apply (once_rows _ _ Hok).
  - rewrite Eb. intros m Hm. destruct (once_finished _ _ Hok m Hm) as [?|[?|(g & Hg & Hp & _)]].
    + left. by rewrite Es.
    + right. left. by rewrite Ew.
    + rewrite (Hf g Hg) in Hp. by destruct Hp.
  - intros g. by rewrite Er.
Qed.
Lemma once_never_began r d : running d = Some r → r_phase r = Created → once_now d → once_now (never_began r d).
Proof.
  intros Hr Hp Hok. apply (once_frame (pending_messages (sess d)) _ d); try done.
  - unfold tickets, created. rewrite Hr. cbn. rewrite decide_True by done.
    apply submseteq_app; [done|]. by apply submseteq_inserts_l.
  - apply (once_rows _ _ Hok).
  - intros m Hm. destruct (once_finished _ _ Hok m Hm) as [?|[?|(g & Hg & [?|?] & _)]]; [by left|by right; left|congruence..].
Qed.
Lemma once_start h text pre mid e d :
  free d → msg_id e = mid → (∀ m, mid = Some m → current_turn_user_msg_id (sess d) = Some m ∧ pre = true) →
  once (e :: pending_messages (sess d)) d → once_now (start_task h text pre mid d).
Proof.
  intros Hf He Hm Hok.
  assert (∀ f, running f = Some (mkRun h text pre mid None Created) → begun f = begun d → next_id f = next_id d →
    rows f = rows d → swept f = swept d → pending_messages (sess f) = pending_messages (sess d) →
    current_turn_user_msg_id (sess f) = current_turn_user_msg_id (sess d) → once_now f) as Hgo.
  { intros f Fr Fb Fn Fw Fs Fq Fc. rewrite Fq.
    apply (once_frame (e :: pending_messages (sess d)) _ d f); rewrite ?Fn, ?Fw, ?Fs; try done.
    - unfold tickets. rewrite (free_created d Hf), Fb, (created_phase f _ Fr), decide_True by done. cbn. rewrite He.
      destruct mid as [m|]; cbn; [|done]. by rewrite <- Permutation_middle.
    - intros r. rewrite Fw, Fn. apply (once_rows _ _ Hok).
    - rewrite Fb. intros m Hb. destruct (once_finished _ _ Hok m Hb) as [?|[?|(g & Hg & Hp & _)]].
      + left. by rewrite Fs.
      + right. left. by rewrite Fw.
      + rewrite (Hf g Hg) in Hp. by destruct Hp.
    - intros g. rewrite Fr. intros [= <-]. split; [|done]. intros _ m Em. rewrite Fc. by apply Hm. }
  apply Hgo; by destruct h.
Qed.
Lemma once_reap r ids queue d : once queue d → once queue (_reap_pending_execs r ids d).
Proof.
  pose proof (reap_apart r ids d) as E.
  apply once_same; [apply (f_equal begun E)|apply (f_equal running E)|apply (f_equal next_id E)|apply (f_equal rows E)
    |apply (f_equal (λ d, swept d) E)|apply (f_equal (λ d, current_turn_user_msg_id (sess d)) E)].
Qed.
Lemma once_fewer queue queue' d : omap msg_id queue' ⊆+ omap msg_id queue → once queue d → once queue' d.
Proof. intros Hq Hok. apply (once_rows_frame queue _ d); try done. apply (once_rows _ _ Hok). Qed.
Lemma once_next_entry admits q d :
  once q d → pending_messages (sess d) = q →
  match next_entry admits q d with
  | (d', Some e) => once (e :: pending_messages (sess d')) d'
  | (d', None) => once_now d'
  end.
Proof.
  revert d. induction q as [|e q IH]; intros d Hok Hq; cbn; [by rewrite Hq|].
  set (d' := d <| sess ::= _ |>).
  assert (once (e :: q) d') as Hd' by (revert Hok; by apply once_same).
  destruct (admits_entry admits e); [done|]. apply IH.
  - apply (once_reap Dropped (Some (option_list (msg_id e)))). revert Hd'. apply once_fewer.
    cbn. destruct (msg_id e); [by apply submseteq_cons|done].
  - exact (f_equal (λ d, pending_messages (sess d)) (reap_apart Dropped (Some (option_list (msg_id e))) d')).
Qed.
Lemma once_current queue m d : free d → once queue d → once queue (d <| sess ::= λ s, s <| current_turn_user_msg_id := m |> |>).
Proof.
  intros Hf [H1 H2 H3 H4 H5 H6]. split; try done. intros r Hr. specialize (Hf r Hr). split; congruence.
Qed.
Lemma once_dispatch e d :
  free d → entry_ok e → once (e :: pending_messages (sess d)) d → once_now (dispatch e d).
Proof.
  intros Hf Hent Hok. unfold dispatch. set (d0 := d <| sess ::= _ |>).
  assert (once (e :: pending_messages (sess d0)) d0) as H0 by (revert Hok; by apply once_same).
  assert (free d0) as Hf0 by done. clearbody d0. clear Hok Hf.
  destruct (msg_id e) as [m|] eqn:Em; cbn [_take_pending_exec].
  - apply (once_start _ _ _ _ e); [done|done| |].
    + intros k [= <-]. split; [done|]. apply Hent. by rewrite Em.
    + apply (once_current _ (Some m)) in H0; [|done]. revert H0. by apply once_same.
  - by apply (once_start _ _ _ _ e).
Qed.
Lemma once_process_pending own ready admits d :
  handled None d → placed (pending_messages (sess d)) d → (own = true → free d) → once_now d →
  once_now (_process_pending own ready admits d).
Proof.
  intros Hh Hpl Hown Hok. unfold _process_pending. destruct (shutting_down d); [done|].
  assert (pending_messages (sess (_reap_pending_execs Dropped None d)) = pending_messages (sess d)) as Eq
    by exact (f_equal (λ d, pending_messages (sess d)) (reap_apart Dropped None d)).
  pose proof (once_reap Dropped None _ _ Hok) as Hr. pose proof (placed_reap Dropped None _ _ Hpl) as Hpr.
  rewrite <- Eq in Hr, Hpr.
  pose proof (reap_handled Dropped None d Hh) as Hhr. pose proof (reap_running Dropped None d) as Er.
  set (d' := _reap_pending_execs _ _ d) in *. clearbody d'.
  case_decide; [done|]. case_decide; [done|]. destruct (task_live (sess d') && negb own) eqn:Hl; [done|].
  pose proof (once_next_entry admits _ d' Hr eq_refl) as Hn.
  pose proof (placed_next_entry admits _ d' Hpr eq_refl) as Hpn.
  destruct (next_entry_handled admits (pending_messages (sess d')) d' Hhr) as [_ En].
  destruct (next_entry _ _ d') as [d'' [e|]]; [|done].
  apply once_dispatch; [|by apply entries_ok, Forall_cons in Hpn as [? _]|done].
  intros r. cbn in En. rewrite En. revert r. fold (free d').
  apply andb_false_iff in Hl as [Hl|Hl]; [by eapply no_task_free|].
  intros r. rewrite Er. apply Hown. by destruct own.
Qed.
Lemma once_dispatch_next admits d :
  handled None d → placed (pending_messages (sess d)) d → free d → once_now d → once_now (dispatch_next admits d).
Proof.
  intros Hh Hpl Hf Hok. unfold dispatch_next.
  pose proof (once_process_pending true [IDLE_READY] admits d Hh Hpl (λ _, Hf) Hok) as Hp.
  destruct (running (_process_pending _ _ _ _)) as [r|] eqn:Er; [|done]. case_decide; [|done].
  revert Hp. apply once_idle; try done. intros r' Hr'. congruence.
Qed.

(** A new message: its row, then its place. *)
Lemma once_save_row message queue d : once queue d → once queue (save_row message d).
Proof. by apply once_new_row with (r := mkRow (next_id d) User message (Some Pending) false false None false). Qed.
Lemma saved_managed message d :
  rows_old d → all_rows (λ r, delivery r ≠ None) (next_id d) (rows (save_row message d)).
Proof.
  intros Ho r [Hr|Hr]%elem_of_app Hid; [specialize (Ho r Hr); lia|]. by apply list_elem_of_singleton in Hr as ->.
Qed.
Lemma once_saved message now queue d :
  once queue d → once (queue ++ [entry message now (Some (next_id d))]) (save_row message d).
Proof.
  intros Hok. apply (once_queue _ (next_id d)); [done| |cbn; lia| |by apply once_save_row].
  - intros Hin. specialize (once_old _ _ Hok (next_id d) Hin). lia.
  - right. apply saved_managed, (once_rows _ _ Hok).
Qed.
Lemma once_park_saved now now' message h d :
  once_now d → once_now (park now message h (next_id d) (watermark now' (next_id d) (save_row message d))).1.
Proof.
  intros Hok. pose proof (once_saved message now _ d Hok) as Hs. revert Hs. by apply once_same.
Qed.
Lemma once_fold_into now row message h d : once_now d → once_now (fold_into now row message h d).1.
Proof.
  intros Hok. unfold fold_into. cbn [fst].
  set (upd := update_rows _ _).
  assert (∀ f, pending_messages (sess f) = retell (row_id row) (_combine_rapid_fire (row_content row) message) now (pending_messages (sess d)) →
    begun f = begun d → running f = running d → next_id f = next_id d → rows f = upd (rows d) → swept f = swept d →
    current_turn_user_msg_id (sess f) = current_turn_user_msg_id (sess d) → once_now f) as Hgo.
  { intros f Fq Fb Fr Fn Fw Fs Fc. rewrite Fq.
    apply (once_rows_frame (pending_messages (sess d)) _ d f); rewrite ?Fn, ?Fw, ?Fs; try done.
    - by rewrite retell_ids.
    - by apply update_evolves.
    - apply (rows_old_evolve d); [lia| |apply (once_rows _ _ Hok)]. rewrite Fw. intros r'. by apply update_ids. }
  by case_decide; apply Hgo.
Qed.
Lemma once_started h message now mid d :
  free d → (∀ m, mid = Some m → current_turn_user_msg_id (sess d) = Some m ∧ message ≠ "") →
  once (pending_messages (sess d) ++ [entry message now mid]) d →
  once_now (match mid with Some m => accept m | None => id end
              (start_task (Some h) message (bool_decide (message ≠ "")) mid d)).
Proof.
  intros Hf Hm Hok. set (d' := start_task _ _ _ _ _).
  assert (once_now d') as Hd'.
  { apply (once_start _ _ _ _ (entry message now mid)); [done|done| |].
    - intros m Em. destruct (Hm m Em). split; [done|]. by apply bool_decide_eq_true.
    - revert Hok. apply once_fewer. rewrite omap_app. change (?e :: ?q) with ([e] ++ q). rewrite omap_app.
      by rewrite Permutation_app_comm. }
  clearbody d'. destruct mid; [|done]. revert Hd'. by apply once_same.
Qed.
Lemma once_start_now closes now message h d : free d → once_now d → once_now (start_now closes now message h d).1.
Proof.
  intros Hf Hok. unfold start_now. set (p := if decide (message = "") then _ else _).
  assert (once_now p.1 ∧ free p.1 ∧ once (pending_messages (sess p.1) ++ [entry message now p.2]) p.1 ∧
    ∀ m, p.2 = Some m → current_turn_user_msg_id (sess p.1) = Some m ∧ message ≠ "") as (Hp & Hfp & Hs & Hm).
  { subst p. case_decide; cbn [fst snd save_prompt].
    - split_and!; [done|done| |done]. revert Hok. apply once_fewer. by rewrite omap_app, app_nil_r.
    - set (d' := watermark now (next_id d) (save_row message d)).
      assert (once_now d') as H1 by (generalize (once_save_row message _ d Hok); by apply once_same).
      assert (once (pending_messages (sess d') ++ [entry message now (Some (next_id d))]) d') as H2
        by (generalize (once_saved message now _ d Hok); by apply once_same).
      assert (free d') as H3 by done. clearbody d'.
      split_and!; [|done| |by intros m [= <-]].
      + by apply (once_current _ (Some (next_id d))) in H1.
      + by apply (once_current _ (Some (next_id d))) in H2. }
  destruct p as [e mid]. cbn [fst snd] in *. destruct closes; [revert Hp; by apply once_same|]. cbn [fst].
  apply once_started with (now := now); [done|done|]. revert Hs. by apply once_same.
Qed.
Lemma meanwhile_false now d : meanwhile false now d = d.
Proof. unfold meanwhile. by destruct (running d). Qed.
Lemma once_free_current queue f d :
  (∀ s, pending_messages (f s) = pending_messages s ∧ swept_orphan_ids (f s) = swept_orphan_ids s) →
  free d → once queue d → once queue (d <| sess ::= f |>).
Proof.
  intros Hs Hf Hok. apply (once_frame queue _ d); try done.
  - apply (once_rows _ _ Hok).
  - unfold swept. cbn. by destruct (Hs (sess d)) as [_ ->].
  - intros m Hm. destruct (once_finished _ _ Hok m Hm) as [?|[?|?]]; [left|by right; left|by right; right].
    unfold swept. cbn. by destruct (Hs (sess d)) as [_ ->].
  - intros r Hr. specialize (Hf r Hr). split; congruence.
Qed.
Lemma once_prompt max runner closes now opts origin message d :
  handled None d → once_now d → once_now (prompt max runner closes false now opts origin message d).1.
Proof.
  intros Hh Hok. unfold prompt. set (h := length (handles d)).
  pose proof (new_handle_handled (mkHandle opts origin None false None) d Hh) as Hd. fold h in Hd.
  set (d' := d <| handles ::= _ |>) in *.
  assert (once_now d') as Hp by (revert Hok; by apply once_same). clearbody h d'.
  assert (∀ why, once_now (reject h why d').1) as Hrej by (intros why; revert Hp; by apply once_same).
  destruct (_ && _); [done|]. destruct (shutting_down d'); [done|]. case_decide; [done|].
  destruct (_ || _) eqn:Hbusy.
  - unfold busy_prompt. destruct (_ <=? _)%nat; [done|].
    destruct (fold_target _ _ _ _ _ _); [by apply once_fold_into|].
    unfold queue_behind. destruct (decide (message = "")).
    + cbn [fst]. pose proof (once_fewer _ (pending_messages (sess d') ++ [entry message now None]) d'
        ltac:(by rewrite omap_app, app_nil_r) Hp) as Hq. revert Hq. by apply once_same.
    + rewrite meanwhile_false. by apply once_park_saved.
  - assert (free d') as Hf.
    { eapply no_task_free; [done|].
      apply orb_false_iff in Hbusy as [Hs Hr]. rewrite negb_false_iff in Hr. by rewrite Hr, andb_true_r in Hs. }
    unfold fresh_prompt. set (d2 := d' <| sess ::= reset_for_turn |>).
    assert (once_now d2) as Hp2 by by apply (once_free_current _ reset_for_turn).
    assert (free d2) as Hf2 by done. clearbody d2.
    destruct (negb runner); [revert Hp2; by apply once_same|].
    set (os := if bool_decide _ then _ else _).
    assert (Forall (λ r, row_id r ∉ begun d2 ∧ row_id r < next_id d2) os) as Hos.
    { apply Forall_forall. subst os. destruct (bool_decide (current_state _ = _)); [by intros r ?%not_elem_of_nil|]. intros r Hr.
      apply (orphan_unbegun _ d2 r Hp2 Hr). intros g Hg [Hpg|Hpg]; by rewrite (Hf2 g Hg) in Hpg. }
    clearbody os. destruct os as [|r rs]; [by apply once_start_now|].
    apply (once_requeues now (r :: rs)) in Hp2; [|by apply free_created|done].
    set (d3 := foldl _ d2 (r :: rs)) in *. clearbody d3.
    unfold behind_orphans. destruct (decide (message = "")); [revert Hp2; by apply once_same|].
    by apply once_park_saved.
Qed.
Lemma once_updated f d :
  rows_evolve (next_id d) (rows d) (f (rows d)) →
  (∀ r', r' ∈ f (rows d) → ∃ r, r ∈ rows d ∧ row_id r' = row_id r) → once_now d → once_now (d <| rows ::= f |>).
Proof.
  intros He Hi Hok. apply (once_rows_frame (pending_messages (sess d)) _ d); try done.
  apply (rows_old_evolve d); [done|done|apply (once_rows _ _ Hok)].
Qed.
Lemma once_stamp queued run scan d : once_now d → once_now (_stamp_cancel_disposition queued run scan d).
Proof.
  apply once_updated.
  - etrans; [apply cancelled_evolves|by apply delivery_evolves].
  - intros r' Hr'. apply update_ids in Hr' as (r & Hr & ->); [|done]. apply update_ids in Hr as (r0 & ? & ->); [|done].
    by exists r0.
Qed.
Lemma once_cancel b d : once_now d → once_now (cancel_session b d).
Proof.
  intros Hok. unfold cancel_session, _drain_pending_for_cancel. apply once_stamp.
  set (d1 := _ <| sess ::= λ s, s <| pending_messages := [] |> |>).
  assert (once (@nil PendingMessage) d1) as Hd1.
  { apply (once_fewer _ []) in Hok; [|apply submseteq_nil_l]. revert Hok. by apply once_same. }
  apply (once_reap QueueCancelled None) in Hd1.
  by rewrite (f_equal (λ d, pending_messages (sess d)) (reap_apart QueueCancelled None d1) :
    pending_messages (sess (_reap_pending_execs QueueCancelled None d1)) = []).
Qed.
Lemma remove_entry_sub mid q : omap msg_id (remove_entry mid q) ⊆+ omap msg_id q.
Proof.
  induction q as [|e q IH]; [done|]. cbn. case_decide as E; [rewrite E; by apply submseteq_cons|].
  cbn. destruct (msg_id e); [by apply submseteq_skip|done].
Qed.
Lemma once_resume now text d : handled None d → once_now d → once_now (resume_parent now text d).
Proof.
  intros Hh Hok. unfold resume_parent. set (e := enqueue _ d).
  assert (once_now e) as He.
  { pose proof (once_fewer _ (pending_messages (sess d) ++ [mkPendingMessage text None false now None false None]) d
      ltac:(by rewrite omap_app, app_nil_r) Hok) as Hq. revert Hq. by apply once_same. }
  destruct (task_live (sess d)) eqn:Hl; [done|]. case_decide; [|by case_decide]. destruct (shutting_down d); [done|].
  apply (once_start _ _ _ _ (mkPendingMessage text None false now None false None)); [|done|done|].
  - intros r Hr. by eapply (no_task_free _ d).
  - apply (once_fewer (pending_messages (sess d))); [done|]. revert Hok. by apply once_same.
Qed.
Lemma step_once d op :
  calm op → handled None d → placed (pending_messages (sess d)) d → once_now d → once_now (step d op).
Proof.
  intros Hc Hh Hpl Hok. destruct op; cbn [calm] in Hc; subst; cbn [step];
    try (unfold when_at; progress destruct (running d) as [r|] eqn:Hr; [case_decide as Hp|]; try done);
    try (revert Hok; by apply once_same).
  - by apply once_prompt.
  - unfold steer. destruct (_ || _); [|destruct (steer_accepts _); [|by apply once_prompt]]; [revert Hok; by apply once_same|].
    revert Hok. by eapply once_new_row with (r := mkRow (next_id d) User _ (Some Pending) false true _ false).
  - by apply once_process_pending.
  - by apply once_resume.
  - pose proof (once_fewer _ (pending_messages (sess d) ++ [mkPendingMessage text None false now None true (Some cid)]) d
      ltac:(by rewrite omap_app, app_nil_r) Hok) as Hq. revert Hq. by apply once_same.
  - by apply once_begin.
  - revert Hok. by eapply once_new_row with (r := mkRow (next_id d) Assistant "" None false false _ final).
  - apply once_updated; [by apply delivery_evolves| |done]. intros r'. by apply update_ids.
  - by apply once_finalize.
  - by apply once_close.
  - apply once_dispatch_next; [done|done| |done]. intros r' Hr'. congruence.
  - revert Hok. apply once_idle; try done. intros r' Hr'. congruence.
  - by apply once_never_began.
  - by apply once_cancel.
  - by apply once_stamp.
  - apply (once_fewer _ (remove_entry mid (pending_messages (sess d)))) in Hok; [|apply remove_entry_sub].
    revert Hok. by apply once_same.
  - case_decide; [|done]. apply (once_fewer _ (remove_entry mid (pending_messages (sess d)))) in Hok; [|apply remove_entry_sub].
    revert Hok. by apply once_same.
  - assert (once_now (d <| rows ::= filter (λ r, row_id r ≠ mid) |>)) as Hd.
    { apply once_updated; [| |done].
      - intros r' [_ ?]%list_elem_of_filter _. by exists r'.
      - intros r' [_ ?]%list_elem_of_filter. by exists r'. }
    unfold delete_row. case_decide; revert Hd; by apply once_same.
Qed.
Lemma run_once ops d :
  Forall calm ops → handled None d → placed (pending_messages (sess d)) d → once_now d → once_now (run ops d).
Proof.
  revert d. induction ops as [|op ops IH]; intros d Hc Hh Hpl Hok; [done|]. cbn.
  apply Forall_cons in Hc as [Hc Hcs].
  apply IH; [done|by apply step_handled|by apply step_placed|by apply step_once].
Qed.
Lemma open_once sid kind now p rs : once [] (open_desk sid kind now p rs).
Proof.
  split; try done; cbn.
  - constructor.
  - intros m Hm. by apply not_elem_of_nil in Hm.
  - intros r Hr. cbn in *. enough (row_id r ≤ foldr Z.max 0 (row_id <$> rs)) by lia.
    induction rs as [|x rs IH]; [by apply not_elem_of_nil in Hr|]. apply elem_of_cons in Hr as [->|Hr]; cbn; [lia|].
    specialize (IH Hr). lia.
  - intros m Hm. by apply not_elem_of_nil in Hm.
  - intros m Hm. by apply not_elem_of_nil in Hm.
Qed.

(** ** Properties *)
(** C17: No message begins two turns, nor waits again once it has begun: not
    even when the sweeps for lost messages read its row, before, during and
    after its turn.  Provided the write that settles a finished turn's row
    succeeds, and no turn is finalized while a prompt is saving the row it will
    queue. *)
Theorem a_message_begins_at_most_one_turn (sid kind : string) (now : Z) (p : Pins) (rs : list Row) (ops : list Op) :
  Forall calm ops →
  let d := run ops (open_desk sid kind now p rs) in
  NoDup (queued_ids (sess d) ++ created d ++ begun d).
Proof.
  intros Hc d.
  assert (once (pending_messages (sess d)) d) as Hok.
  { apply run_once; [done|apply open_desk_handled|apply open_placed|apply open_once]. }
  apply (once_each _ _ Hok).
Qed.

Lemma a_message_begins_at_most_one_turn_witness :
  begun (run a_day a_desk) = [3; 1] ∧
  NoDup (queued_ids (sess (run a_day a_desk)) ++ created (run a_day a_desk) ++ begun (run a_day a_desk)).
Proof.
  split; [vm_compute; reflexivity|].
  apply (a_message_begins_at_most_one_turn "s" "normal" 0 no_pins [] a_day). apply (bool_decide_unpack _). vm_compute. exact I.
Defined.

(** *** What goes wrong *)
(** A row that becomes visible while its turn's predecessor sweeps is queued by
    the sweep and again by the prompt: it runs twice. *)
Lemma row_saved_during_finalization_runs_twice :
  begun (run ([say 0 "hi"; Begin 1; Moves PROCESSING; Answer true; Moves FINALIZING;
               Prompt 10 true false true 9000000000 None "user" "next"; Moves IDLE_READY; Close true; DispatchNext (λ _, true);
               Begin 2; Moves PROCESSING; Answer true] ++ turn_ends ++ [Begin 3]) a_desk) = [3; 3; 1].
Proof. vm_compute. reflexivity. Qed.
(** A message removed from the queue is swept back before its row is deleted. *)
Lemma removed_message_runs :
  let d := run [say 0 "hi"; Begin 1; Moves PROCESSING; Answer true; say 9000000000 "next"; RemovePending 3;
                Moves IDLE_READY; Finalize Normally 5; DeleteRow 3; Close true; DispatchNext (λ _, true); Begin 2] a_desk in
  withdrawn d = [3] ∧ begun d = [3; 1] ∧ get_message 3 (rows d) = None.
Proof. vm_compute. done. Qed.
