(* ===== verification/Atomic.v ===== *)
(** * Atomic writes and target locks

    [core/tools/atomic.py]: the registry of per-path re-entrant locks behind
    [target_lock], [_mode_for] and [atomic_write].

    The lock registry is process-wide state shared by threads, so a [with]
    statement is cut at the points where another thread can run: entering the
    registry, acquiring, leaving the body, leaving the registry.

    A file system is a map from paths to nodes; [atomic_write] produces every
    state it goes through, so that what a reader (or a crash) can see in the
    middle is part of the model. *)
From S2P Require Import Prelude PyStr.

(** ** Target locks *)
Module Locks.

Inductive phase := Waiting | Inside | Leaving.
#[export] Instance phase_eq_dec : EqDecision phase.
Proof. solve_decision. Defined.

(** One activation of [with target_lock(key):]. *)
Record Call := mkCall {
  c_thread : nat;
  c_key : string;
  c_lock : nat;
  c_phase : phase
}.
#[export] Instance Call_settable : Settable Call :=
  λ c, mkCall (c_thread c) (c_key c) (c_lock c) (c_phase c).

Record Registry := mkRegistry {
  locks : gmap string nat;                 (** [_locks], to the lock's identity *)
  holders : gmap string Z;                 (** [_holders] *)
  rlocks : gmap nat (nat * Z);             (** owned locks: owner and depth *)
  next_lock : nat;
  calls : list Call
}.
#[export] Instance Registry_settable : Settable Registry :=
  λ r, mkRegistry (locks r) (holders r) (rlocks r) (next_lock r) (calls r).

Definition empty_registry : Registry := mkRegistry ∅ ∅ ∅ 0 [].

(** The first guarded block: find or create the lock, count the holder. *)
Definition find_lock (key : string) (r : Registry) : Registry :=
  match locks r !! key with
  | Some _ => r
  | None => r <| locks ::= insert key (next_lock r) |> <| next_lock ::= S |>
  end.
Definition enter (tid : nat) (key : string) (r : Registry) : Registry :=
  let r := find_lock key r in
  let lock := default 0 (locks r !! key) in
  r <| holders ::= (λ h, <[key := (default 0 (h !! key) + 1)%Z]> h) |>
    <| calls ::= λ l, l ++ [mkCall tid key lock Waiting] |>.

(** [RLock.acquire]: free, or already this thread's; the new depth. *)
Definition relock (tid : nat) (cur : option (nat * Z)) : option Z :=
  match cur with
  | None => Some 1%Z
  | Some (owner, n) => if decide (owner = tid) then Some (n + 1)%Z else None
  end.
Definition acquire (i : nat) (r : Registry) : Registry :=
  match calls r !! i with
  | Some c =>
      if decide (c_phase c = Waiting) then
        match relock (c_thread c) (rlocks r !! c_lock c) with
        | Some n => r <| rlocks ::= insert (c_lock c) (c_thread c, n) |>
                      <| calls ::= insert i (c <| c_phase := Inside |>) |>
        | None => r
        end
      else r
  | None => r
  end.

(** The timeout of [acquire]: [TargetBusy] is raised. *)
Definition wait_timed_out (i : nat) (r : Registry) : Registry :=
  match calls r !! i with
  | Some c => if decide (c_phase c = Waiting)
              then r <| calls ::= insert i (c <| c_phase := Leaving |>) |> else r
  | None => r
  end.

(** [lock.release()] at the end of the body. *)
Definition release (i : nat) (r : Registry) : Registry :=
  match calls r !! i with
  | Some c =>
      if decide (c_phase c = Inside) then
        match rlocks r !! c_lock c with
        | Some (owner, n) =>
            r <| rlocks ::= (if decide (n = 1%Z) then delete (c_lock c)
                             else insert (c_lock c) (owner, (n - 1)%Z)) |>
              <| calls ::= insert i (c <| c_phase := Leaving |>) |>
        | None => r
        end
      else r
  | None => r
  end.

(** The second guarded block: the last holder drops the registry entry. *)
Definition leave (i : nat) (r : Registry) : Registry :=
  match calls r !! i with
  | Some c =>
      if decide (c_phase c = Leaving) then
        let remaining := (default 1 (holders r !! c_key c) - 1)%Z in
        let r := r <| calls ::= delete i |> in
        if decide (remaining ≤ 0)%Z then
          r <| holders ::= delete (c_key c) |> <| locks ::= delete (c_key c) |>
        else r <| holders ::= insert (c_key c) remaining |>
      else r
  | None => r
  end.

Inductive lock_op :=
| Enter (tid : nat) (key : string) | Acquire (i : nat) | GiveUp (i : nat)
| Release (i : nat) | Leave (i : nat).
Definition run_op (r : Registry) (op : lock_op) : Registry :=
  match op with
  | Enter tid key => enter tid key r
  | Acquire i => acquire i r
  | GiveUp i => wait_timed_out i r
  | Release i => release i r
  | Leave i => leave i r
  end.

(** *** Invariant *)
Definition at_key (key : string) (c : Call) : bool := bool_decide (c_key c = key).
Definition inside (lock : nat) (c : Call) : bool :=
  bool_decide (c_lock c = lock) && bool_decide (c_phase c = Inside).

Record inv (r : Registry) : Prop := {
  inv_call : ∀ c, c ∈ calls r → locks r !! c_key c = Some (c_lock c);
  inv_holders : ∀ key, holders r !! key =
    if decide (cnt (at_key key) (calls r) = 0%Z) then None else Some (cnt (at_key key) (calls r));
  inv_locks : ∀ key, is_Some (locks r !! key) → (0 < cnt (at_key key) (calls r))%Z;
  inv_inj : ∀ k1 k2 n, locks r !! k1 = Some n → locks r !! k2 = Some n → k1 = k2;
  inv_next : ∀ key n, locks r !! key = Some n → n < next_lock r;
  inv_rlock : ∀ n, match rlocks r !! n with
    | None => cnt (inside n) (calls r) = 0%Z
    | Some (owner, depth) => depth = cnt (inside n) (calls r) ∧ (0 < depth)%Z ∧
        (∀ c, c ∈ calls r → inside n c = true → c_thread c = owner) ∧ n < next_lock r
    end
}.

Lemma empty_inv : inv empty_registry.
Proof.
  split; cbn; try done.
  - intros c Hc. set_solver.
  - intros key. rewrite lookup_empty. by intros [? ?].
Qed.

(** A call that only changes its phase keeps what the registry counts. *)
Lemma at_key_phase key p c : at_key key (c <| c_phase := p |>) = at_key key c.
Proof. done. Qed.

Lemma cnt_same {A} (P : A → bool) l i x y :
  l !! i = Some x → P x = P y → cnt P (<[i := y]> l) = cnt P l.
Proof. intros Hi HP. pose proof (cnt_insert P l i x y Hi) as H. rewrite HP in H. lia. Qed.

Lemma elem_of_insert_calls (l : list Call) i c c' x :
  l !! i = Some c → x ∈ <[i := c']> l → x = c' ∨ x ∈ l.
Proof.
  intros Hi Hx. apply list_elem_of_lookup in Hx as [j Hj].
  apply list_lookup_insert_Some in Hj as [(? & ? & ?)|[? ?]]; [by left|right].
  by eapply list_elem_of_lookup_2.
Qed.

(** Changing the phase of call [i], with a matching change of the owners. *)
Lemma phase_inv r i c p rl :
  inv r → calls r !! i = Some c →
  (∀ n, match rl !! n with
    | None => cnt (inside n) (<[i := c <| c_phase := p |>]> (calls r)) = 0%Z
    | Some (owner, depth) =>
        depth = cnt (inside n) (<[i := c <| c_phase := p |>]> (calls r)) ∧ (0 < depth)%Z ∧
        (∀ x, x ∈ <[i := c <| c_phase := p |>]> (calls r) → inside n x = true →
              c_thread x = owner) ∧ n < next_lock r
    end) →
  inv (r <| rlocks := rl |> <| calls ::= insert i (c <| c_phase := p |>) |>).
Proof.
  intros [] Hi Hrl. split; cbn; try done.
  - intros x [->|?]%(elem_of_insert_calls _ _ _ _ _ Hi); [|auto].
    apply (inv_call0 c). by eapply list_elem_of_lookup_2.
  - intros key. rewrite (cnt_same _ _ _ c); [apply inv_holders0|done|done].
  - intros key. rewrite (cnt_same _ _ _ c); [apply inv_locks0|done|done].
Qed.

Lemma inside_other n c p : c_lock c ≠ n → inside n (c <| c_phase := p |>) = inside n c.
Proof. intros. unfold inside. cbn. by rewrite bool_decide_false by done. Qed.

Lemma inside_phase c p : inside (c_lock c) (c <| c_phase := p |>) = bool_decide (p = Inside).
Proof. unfold inside. cbn. by rewrite bool_decide_true by done. Qed.

(** The owner map at the locks call [i] does not use. *)
Lemma rlock_other r i c p n :
  inv r → calls r !! i = Some c → c_lock c ≠ n →
  match rlocks r !! n with
  | None => cnt (inside n) (<[i := c <| c_phase := p |>]> (calls r)) = 0%Z
  | Some (owner, depth) =>
      depth = cnt (inside n) (<[i := c <| c_phase := p |>]> (calls r)) ∧ (0 < depth)%Z ∧
      (∀ x, x ∈ <[i := c <| c_phase := p |>]> (calls r) → inside n x = true →
            c_thread x = owner) ∧ n < next_lock r
  end.
Proof.
  intros [] Hi Hn. specialize (inv_rlock0 n).
  rewrite (cnt_same _ _ _ c) by (try done; symmetry; by apply inside_other).
  destruct (rlocks r !! n) as [[owner depth]|]; [|done].
  destruct inv_rlock0 as (? & ? & Hown & ?). split_and!; try done.
  intros x [->|?]%(elem_of_insert_calls _ _ _ _ _ Hi); [|auto].
  rewrite inside_other by done. intros. cbn. apply Hown; [by eapply list_elem_of_lookup_2|done].
Qed.

Lemma wait_timed_out_inv i r : inv r → inv (wait_timed_out i r).
Proof.
  intros H. unfold wait_timed_out. destruct (calls r !! i) as [c|] eqn:Hi; [|done].
  case_decide as Hp; [|done].
  assert (r <| calls ::= insert i (c <| c_phase := Leaving |>) |> =
    r <| rlocks := rlocks r |> <| calls ::= insert i (c <| c_phase := Leaving |>) |>) as ->
    by done.
  apply phase_inv; [done|done|]. intros n.
  destruct (decide (c_lock c = n)) as [<-|]; [|by apply rlock_other].
  assert (inside (c_lock c) c = false) as Hc by (unfold inside; by rewrite Hp, andb_comm).
  destruct H. specialize (inv_rlock0 (c_lock c)).
  rewrite (cnt_same _ _ _ c) by (try done; by rewrite inside_phase, Hc).
  destruct (rlocks r !! c_lock c) as [[owner depth]|]; [|done].
  destruct inv_rlock0 as (? & ? & Hown & ?). split_and!; try done.
  intros x [->|?]%(elem_of_insert_calls _ _ _ _ _ Hi); [|auto].
  by rewrite inside_phase.
Qed.

Lemma lock_acquire_inv i r : inv r → inv (acquire i r).
Proof.
  intros H. unfold acquire. destruct (calls r !! i) as [c|] eqn:Hi; [|done].
  case_decide as Hp; [|done]. cbv zeta.
  assert (inside (c_lock c) c = false) as Hc by (unfold inside; by rewrite Hp, andb_comm).
  assert (cnt (inside (c_lock c)) (<[i := c <| c_phase := Inside |>]> (calls r)) =
          cnt (inside (c_lock c)) (calls r) + 1)%Z as Hcnt.
  { pose proof (cnt_insert (inside (c_lock c)) (calls r) i c (c <| c_phase := Inside |>) Hi) as He.
    rewrite inside_phase, Hc, bool_decide_true in He by done. lia. }
  assert (c ∈ calls r) as Hin by (by eapply list_elem_of_lookup_2).
  destruct (relock _ _) as [n|] eqn:Hn; [|done].
  apply (phase_inv r i c Inside (<[c_lock c := (c_thread c, n)]> (rlocks r))); [done|done|].
  intros m. destruct (decide (c_lock c = m)) as [<-|];
    [|rewrite lookup_insert_ne by done; by apply rlock_other].
  rewrite lookup_insert_eq, Hcnt. pose proof H as [].
  pose proof (inv_next0 _ _ (inv_call0 c Hin)). specialize (inv_rlock0 (c_lock c)).
  pose proof (cnt_nonneg (inside (c_lock c)) (calls r)).
  destruct (rlocks r !! c_lock c) as [[owner depth]|] eqn:Hrl; cbn in Hn.
  - case_decide as Hown; [|done]. injection Hn as <-.
    destruct inv_rlock0 as (? & ? & Hall & ?). split_and!; [lia|lia| |done].
    intros x [->|?]%(elem_of_insert_calls _ _ _ _ _ Hi) ?; [done|].
    rewrite <-Hown. auto.
  - injection Hn as <-. split_and!; [lia|lia| |done].
    intros x [->|Hx]%(elem_of_insert_calls _ _ _ _ _ Hi) Hins; [done|].
    assert (0 < cnt (inside (c_lock c)) (calls r))%Z by (apply cnt_pos; eauto). lia.
Qed.

Lemma lock_release_inv i r : inv r → inv (release i r).
Proof.
  intros H. unfold release. destruct (calls r !! i) as [c|] eqn:Hi; [|done].
  case_decide as Hp; [|done].
  assert (inside (c_lock c) c = true) as Hc
    by (unfold inside; by rewrite Hp, !bool_decide_true by done).
  assert (cnt (inside (c_lock c)) (<[i := c <| c_phase := Leaving |>]> (calls r)) =
          cnt (inside (c_lock c)) (calls r) - 1)%Z as Hcnt.
  { pose proof (cnt_insert (inside (c_lock c)) (calls r) i c (c <| c_phase := Leaving |>) Hi) as He.
    rewrite inside_phase, Hc, bool_decide_false in He by done. lia. }
  destruct (rlocks r !! c_lock c) as [[owner n]|] eqn:Hrl; [|done].
  apply (phase_inv r i c Leaving ((if decide (n = 1%Z) then delete (c_lock c)
    else insert (c_lock c) (owner, (n - 1)%Z)) (rlocks r))); [done|done|].
  intros m. pose proof (inv_rlock _ H (c_lock c)) as Hcur. rewrite Hrl in Hcur.
  destruct Hcur as (Hn & ? & Hall & ?).
  destruct (decide (c_lock c = m)) as [<-|Hne].
  - case_decide; [rewrite lookup_delete_eq|rewrite lookup_insert_eq]; rewrite Hcnt; [lia|].
    split_and!; [lia|lia| |done].
    intros x [->|?]%(elem_of_insert_calls _ _ _ _ _ Hi); [by rewrite inside_phase|auto].
  - assert ((if decide (n = 1%Z) then delete (c_lock c) else insert (c_lock c) (owner, (n - 1)%Z))
      (rlocks r) !! m = rlocks r !! m) as ->
      by (case_decide; [by rewrite lookup_delete_ne|by rewrite lookup_insert_ne]).
    by apply rlock_other.
Qed.

Lemma elem_of_delete_calls (l : list Call) i x : x ∈ delete i l → x ∈ l.
Proof.
  rewrite delete_take_drop, elem_of_app. intros [Hx|Hx].
  - apply elem_of_take in Hx as (j & Hj & _). by eapply list_elem_of_lookup_2.
  - apply list_elem_of_lookup in Hx as [j Hj]. rewrite lookup_drop in Hj.
    by eapply list_elem_of_lookup_2.
Qed.

(** What finding the lock leaves and what it adds. *)
Lemma find_lock_frame key r :
  calls (find_lock key r) = calls r ∧ holders (find_lock key r) = holders r ∧
  rlocks (find_lock key r) = rlocks r ∧ next_lock r ≤ next_lock (find_lock key r) ∧
  (∀ k n, locks r !! k = Some n → locks (find_lock key r) !! k = Some n) ∧
  (∀ k n, locks (find_lock key r) !! k = Some n → k = key ∨ locks r !! k = Some n).
Proof.
  unfold find_lock. destruct (locks r !! key) eqn:E; [split_and!; auto|].
  split_and!; cbn; try done; [lia|..]; intros k n.
  - intros Hk. by rewrite lookup_insert_ne by congruence.
  - rewrite lookup_insert_Some. naive_solver.
Qed.
Lemma find_lock_found key r :
  inv r → ∃ lock, locks (find_lock key r) !! key = Some lock ∧ lock < next_lock (find_lock key r).
Proof.
  intros H. unfold find_lock. destruct (locks r !! key) as [n|] eqn:E.
  - exists n. split; [done|]. by eapply inv_next.
  - exists (next_lock r). cbn. rewrite lookup_insert_eq. split; [done|lia].
Qed.
Lemma find_lock_inj key r k1 k2 n :
  inv r → locks (find_lock key r) !! k1 = Some n → locks (find_lock key r) !! k2 = Some n → k1 = k2.
Proof.
  intros []. unfold find_lock. destruct (locks r !! key) eqn:E; [eauto|]. cbn.
  rewrite !lookup_insert_Some. intros [[? Hk1]|[? Hk1]] [[? Hk2]|[? Hk2]]; subst; try done.
  - by apply inv_next0 in Hk2; lia.
  - by apply inv_next0 in Hk1; lia.
  - eauto.
Qed.

Lemma cnt_at_key_snoc k c l :
  cnt (at_key k) (l ++ [c]) = (cnt (at_key k) l + if decide (c_key c = k) then 1 else 0)%Z.
Proof.
  rewrite cnt_app, cnt_cons. change (cnt _ []) with 0%Z.
  assert (at_key k c = bool_decide (c_key c = k)) as -> by done.
  destruct (decide (c_key c = k)) as [E|E];
    [rewrite (bool_decide_eq_true_2 _ E)|rewrite (bool_decide_eq_false_2 _ E)]; cbn; lia.
Qed.
Lemma cnt_at_key_delete k i c l :
  l !! i = Some c →
  cnt (at_key k) (delete i l) = (cnt (at_key k) l - if decide (c_key c = k) then 1 else 0)%Z.
Proof.
  intros Hi. pose proof (cnt_delete (at_key k) l i c Hi) as Hd. assert (at_key k c = bool_decide (c_key c = k)) as Hk by done. rewrite Hk in Hd.
  destruct (decide (c_key c = k)) as [E|E]; [rewrite (bool_decide_eq_true_2 _ E) in Hd|
    rewrite (bool_decide_eq_false_2 _ E) in Hd]; cbn in Hd |- *; lia.
Qed.

Lemma lock_enter_inv tid key r : inv r → inv (enter tid key r).
Proof.
  intros H. pose proof (find_lock_found key r H) as (lock & Hlock & Hlt).
  pose proof (λ k1 k2 n, find_lock_inj key r k1 k2 n H) as Hinj.
  destruct (find_lock_frame key r) as (Hcalls & Hhold & Hrl & Hnext & Hold & Hnew).
  unfold enter. set (r1 := find_lock key r) in *. rewrite Hlock. cbn. destruct H.
  split; cbn; rewrite ?Hcalls, ?Hhold, ?Hrl; try done.
  - intros c [Hc|Hc%list_elem_of_singleton]%elem_of_app; [auto|by subst].
  - intros k. rewrite cnt_at_key_snoc. cbn. pose proof (cnt_nonneg (at_key k) (calls r)).
    destruct (decide (key = k)) as [->|Hne].
    + rewrite lookup_insert_eq, decide_False by lia. f_equal. rewrite inv_holders0.
      destruct (decide (cnt (at_key k) (calls r) = 0%Z)); cbn; lia.
    + rewrite lookup_insert_ne, Z.add_0_r by done. apply inv_holders0.
  - intros k [n Hn]. apply Hnew in Hn as [->|Hk]; rewrite cnt_at_key_snoc; cbn.
    + pose proof (cnt_nonneg (at_key key) (calls r)). rewrite decide_True by done. lia.
    + assert (0 < cnt (at_key k) (calls r))%Z by eauto. case_decide; lia.
  - intros k n Hk. destruct (Hnew k n Hk) as [->|Hk']; [|apply inv_next0 in Hk'; lia].
    rewrite Hlock in Hk. by injection Hk as <-.
  - intros n. specialize (inv_rlock0 n). rewrite cnt_app, cnt_cons.
    assert (inside n (mkCall tid key lock Waiting) = false) as ->
      by (unfold inside; cbn; apply andb_false_r).
    change (cnt _ []) with 0%Z. rewrite !Z.add_0_r.
    destruct (rlocks r !! n) as [[owner depth]|]; [|done].
    destruct inv_rlock0 as (? & ? & Hown & ?). split_and!; try done; [|lia].
    intros c [Hc|Hc%list_elem_of_singleton]%elem_of_app; [auto|subst].
    unfold inside. cbn. by rewrite andb_false_r.
Qed.

Lemma lock_leave_inv i r : inv r → inv (leave i r).
Proof.
  intros H. unfold leave. destruct (calls r !! i) as [c|] eqn:Hi; [|done].
  case_decide as Hp; [|done]. cbv zeta. destruct H.
  assert (c ∈ calls r) as Hin by (by eapply list_elem_of_lookup_2).
  pose proof (λ k, cnt_at_key_delete k i c (calls r) Hi) as Hcnt.
  assert (0 < cnt (at_key (c_key c)) (calls r))%Z as Hpos.
  { apply cnt_pos. exists c. split; [done|]. unfold at_key. by rewrite bool_decide_true. }
  assert (∀ n, cnt (inside n) (delete i (calls r)) = cnt (inside n) (calls r)) as Hins.
  { intros n. pose proof (cnt_delete (inside n) (calls r) i c Hi) as Hd.
    assert (inside n c = false) as Hf by (unfold inside; by rewrite Hp, andb_false_r).
    rewrite Hf in Hd. lia. }
  rewrite inv_holders0.
  destruct (decide (cnt (at_key (c_key c)) (calls r) = 0%Z)) as [?|_]; [lia|].
  cbn [default from_option]. unfold id.
  assert (∀ n, match rlocks r !! n with
    | None => cnt (inside n) (delete i (calls r)) = 0%Z
    | Some (owner, depth) => depth = cnt (inside n) (delete i (calls r)) ∧ (0 < depth)%Z ∧
        (∀ c, c ∈ delete i (calls r) → inside n c = true → c_thread c = owner) ∧ n < next_lock r
    end) as Hrl.
  { intros n. rewrite Hins. specialize (inv_rlock0 n).
    destruct (rlocks r !! n) as [[owner depth]|]; [|done].
    destruct inv_rlock0 as (? & ? & Hown & ?). split_and!; try done.
    intros c' Hc'%elem_of_delete_calls. auto. }
  case_decide as Hrem; split; cbn; try done.
  - intros c' Hc'. assert (c_key c' ≠ c_key c) as Hne.
    { intros Heq. assert (0 < cnt (at_key (c_key c)) (delete i (calls r)))%Z; [|rewrite Hcnt in *;
        case_decide; [lia|done]].
      apply cnt_pos. exists c'. split; [done|]. unfold at_key. by rewrite bool_decide_true. }
    rewrite lookup_delete_ne by done. apply inv_call0. by eapply elem_of_delete_calls.
  - intros k. rewrite Hcnt. destruct (decide (c_key c = k)) as [<-|Hne].
    + rewrite lookup_delete_eq, decide_True by lia. done.
    + rewrite lookup_delete_ne by done. rewrite Z.sub_0_r. apply inv_holders0.
  - intros k. rewrite Hcnt. destruct (decide (c_key c = k)) as [<-|Hne].
    + rewrite lookup_delete_eq. by intros [].
    + rewrite lookup_delete_ne, Z.sub_0_r by done. auto.
  - intros k1 k2 n [_ ?]%lookup_delete_Some [_ ?]%lookup_delete_Some. eauto.
  - intros k n [_ ?]%lookup_delete_Some. eauto.
  - intros c' Hc'%elem_of_delete_calls. auto.
  - intros k. rewrite Hcnt. destruct (decide (c_key c = k)) as [<-|Hne].
    + rewrite lookup_insert_eq, decide_False by lia. done.
    + rewrite lookup_insert_ne, Z.sub_0_r by done. apply inv_holders0.
  - intros k Hk%inv_locks0. rewrite Hcnt. case_decide; subst; lia.
Qed.

Lemma lock_run_op_inv r op : inv r → inv (run_op r op).
Proof.
  destruct op; cbn; auto using lock_enter_inv, lock_acquire_inv, wait_timed_out_inv, lock_release_inv, lock_leave_inv.
Qed.

Lemma lock_run_inv ops : inv (foldl run_op empty_registry ops).
Proof.
  generalize empty_inv. generalize empty_registry.
  induction ops as [|op ops IH]; cbn; auto using lock_run_op_inv.
Qed.

(** C39: The target lock works and leaks nothing.  Under any interleaving of
    threads entering, waiting, giving up, working and leaving, two calls
    inside the body for the same path belong to the same thread (re-entry);
    the registry has an entry exactly for the paths some call is using, the
    holder count is the number of those calls, and a lock is free as soon as
    nobody is inside. *)
Theorem target_lock_exclusive (ops : list lock_op) :
  let r := foldl run_op empty_registry ops in
  (∀ c1 c2, c1 ∈ calls r → c2 ∈ calls r → c_key c1 = c_key c2 →
     c_phase c1 = Inside → c_phase c2 = Inside → c_thread c1 = c_thread c2) ∧
  (∀ key, is_Some (locks r !! key) ↔ ∃ c, c ∈ calls r ∧ c_key c = key) ∧
  (∀ key, default 0%Z (holders r !! key) = cnt (at_key key) (calls r)) ∧
  (∀ key lock, locks r !! key = Some lock →
     (∀ c, c ∈ calls r → c_key c = key → c_phase c ≠ Inside) → rlocks r !! lock = None).
Proof.
  intros r. pose proof (lock_run_inv ops : inv r) as H. clearbody r. destruct H. split_and!.
  - intros c1 c2 H1 H2 Hk Hp1 Hp2.
    pose proof (inv_call0 _ H1) as Hl1. pose proof (inv_call0 _ H2) as Hl2.
    rewrite Hk, Hl2 in Hl1. injection Hl1 as Hl.
    assert (inside (c_lock c1) c1 = true ∧ inside (c_lock c1) c2 = true) as [Hi1 Hi2]
      by (unfold inside; by rewrite Hp1, Hp2, Hl, !bool_decide_true by done).
    specialize (inv_rlock0 (c_lock c1)).
    destruct (rlocks r !! c_lock c1) as [[owner depth]|].
    + destruct inv_rlock0 as (_ & _ & Hown & _). by rewrite (Hown c1), (Hown c2).
    + assert (0 < cnt (inside (c_lock c1)) (calls r))%Z by (apply cnt_pos; eauto). lia.
  - intros key. split.
    + intros (c & Hc & Hk%bool_decide_eq_true)%inv_locks0%cnt_pos. eauto.
    + intros (c & Hc & <-). eauto.
  - intros key. rewrite inv_holders0. by case_decide.
  - intros key lock Hl Hno. specialize (inv_rlock0 lock).
    destruct (rlocks r !! lock) as [[owner depth]|]; [|done].
    destruct inv_rlock0 as (-> & (c & Hc & Hin)%cnt_pos & _ & _).
    unfold inside in Hin. apply andb_prop in Hin as [Hcl%bool_decide_eq_true Hp%bool_decide_eq_true].
    destruct (Hno c Hc); [|done]. pose proof (inv_call0 c Hc). subst lock. by eapply inv_inj0.
Qed.
End Locks.

(** ** Files *)
Inductive kind := Regular | Directory | Special.
#[export] Instance kind_eq_dec : EqDecision kind.
Proof. solve_decision. Defined.

Record Node := mkNode { node_kind : kind; mode : N; data : bytes }.
#[export] Instance Node_settable : Settable Node :=
  λ n, mkNode (node_kind n) (mode n) (data n).

(** A canonical path: its directory and its last component. *)
Abbreviation path := (string * string)%type.
Abbreviation FS := (gmap path Node).

Definition NEW_FILE_MODE : N := 384.   (** 0o600 *)
Definition S_ISUID : N := 2048.        (** 0o4000 *)

Inductive WriteError :=
| UnicodeEncodeError | FileExistsError | IsADirectoryError | OSError (step : nat).

Record WriteOutcome := mkWriteOutcome {
  out_mode : N;
  created : bool;
  dropped_setuid : bool
}.

(** [_mode_for]; [stat_fails] is an [OSError] other than a missing file. *)
Definition mode_for (stat_fails : bool) (p : path) (fs : FS) : N * bool * bool :=
  match fs !! p with
  | None => if stat_fails then (NEW_FILE_MODE, false, false) else (NEW_FILE_MODE, false, true)
  | Some n =>
      if stat_fails then (NEW_FILE_MODE, false, false)
      else if decide (node_kind n = Regular) then
        (N.ldiff (mode n) S_ISUID, N.testbit (mode n) 11, false)
      else (NEW_FILE_MODE, false, false)
  end.

(** [tempfile.mkstemp(prefix=f".{name}.", suffix=".tmp")] next to the target. *)
Definition temp_path (rand : string) (p : path) : path :=
  (p.1, "." +:+ p.2 +:+ "." +:+ rand +:+ ".tmp").

(** What the operating system does during a write: the random part of the
    temporary name, how much of the content a first flush got out, the step
    that fails (if any) and whether cleaning up works. *)
Record WriteEnv := mkWriteEnv {
  we_stat_fails : bool;
  we_rand : string;
  we_partial : nat;
  we_fail : option nat;
  we_unlink_ok : bool
}.

(** [atomic_write]: the file systems it goes through, oldest first, and its
    result.  The steps are numbered as in [we_fail]: 0 mkdir, 1 mkstemp,
    2 write and flush, 3 fchmod, 4 fsync, 5 replace. *)
Definition atomic_write (env : WriteEnv) (p : path) (content : text) (fs : FS)
    : list FS * result WriteError WriteOutcome :=
  let fails n := bool_decide (we_fail env = Some n) in
  if fails 0 then ([fs], Raise (OSError 0)) else
  let '(m, dropped, created) := mode_for (we_stat_fails env) p fs in
  let tmp := temp_path (we_rand env) p in
  if fails 1 then ([fs], Raise (OSError 1)) else
  match fs !! tmp with Some _ => ([fs], Raise FileExistsError) | None =>
  let put mo b : FS := <[tmp := mkNode Regular mo b]> fs in
  let cleanup cur : list FS := if we_unlink_ok env then [delete tmp cur] else [] in
  let s1 := put NEW_FILE_MODE [] in
  match encode content with
  | None => ([fs; s1] ++ cleanup s1, Raise UnicodeEncodeError)
  | Some b =>
      let s2 := put NEW_FILE_MODE (take (we_partial env) b) in
      if fails 2 then ([fs; s1; s2] ++ cleanup s2, Raise (OSError 2)) else
      let s3 := put NEW_FILE_MODE b in
      if fails 3 then ([fs; s1; s2; s3] ++ cleanup s3, Raise (OSError 3)) else
      let s4 := put m b in
      if fails 4 then ([fs; s1; s2; s3; s4] ++ cleanup s4, Raise (OSError 4)) else
      if fails 5 then ([fs; s1; s2; s3; s4] ++ cleanup s4, Raise (OSError 5)) else
      if bool_decide (node_kind <$> fs !! p = Some Directory) then
        ([fs; s1; s2; s3; s4] ++ cleanup s4, Raise IsADirectoryError) else
      let s5 := delete tmp (<[p := mkNode Regular m b]> s4) in
      ([fs; s1; s2; s3; s4; s5], Ret (mkWriteOutcome m created dropped))
  end end.

(** The state a finished call leaves. *)
Definition final (fs : FS) (trace : list FS) : FS := default fs (last trace).

Lemma append_length s1 s2 :
  String.length (s1 +:+ s2) = String.length s1 + String.length s2.
Proof. induction s1 as [|c s1 IH]; [done|]. cbn in *. by rewrite <-IH. Qed.

Lemma temp_path_ne rand p : temp_path rand p ≠ p.
Proof.
  destruct p as [d n]. unfold temp_path. cbn. intros [= Heq].
  apply (f_equal String.length) in Heq. rewrite !append_length in Heq.
  change (String.length ".") with 1 in Heq. lia.
Qed.

(** What a reader may find at any moment of the write. *)
Definition visible (p tmp : path) (m : N) (content : text) (fs s : FS) : Prop :=
  (∀ q, q ≠ p → q ≠ tmp → s !! q = fs !! q) ∧
  (s !! p = fs !! p ∨
   ∃ b, encode content = Some b ∧ s !! p = Some (mkNode Regular m b)).

Lemma visible_start p tmp m content fs : visible p tmp m content fs fs.
Proof. split; auto. Qed.
Lemma visible_temp p tmp m content fs n :
  tmp ≠ p → visible p tmp m content fs (<[tmp := n]> fs).
Proof. intros. split; [intros q ? ?; by rewrite lookup_insert_ne|left; by rewrite lookup_insert_ne]. Qed.
Lemma visible_cleanup p tmp m content fs n :
  tmp ≠ p → visible p tmp m content fs (delete tmp (<[tmp := n]> fs)).
Proof.
  intros. rewrite delete_insert_eq.
  split; [intros q ? ?; by rewrite lookup_delete_ne|left; by rewrite lookup_delete_ne].
Qed.

Lemma mode_for_spec sf p fs m dropped created :
  mode_for sf p fs = (m, dropped, created) →
  N.testbit m 11 = false ∧
  (sf = false →
   match fs !! p with
   | None => mkWriteOutcome m created dropped = mkWriteOutcome NEW_FILE_MODE true false
   | Some n => node_kind n = Regular →
       created = false ∧ dropped = N.testbit (mode n) 11 ∧
       ∀ i, i ≠ 11%N → N.testbit m i = N.testbit (mode n) i
   end).
Proof.
  unfold mode_for. destruct (fs !! p) as [n|].
  - destruct sf; [by intros [= <- <- <-]|]. case_decide as Hk; intros [= <- <- <-].
    + assert (∀ i, N.testbit S_ISUID i = bool_decide (i = 11%N)) as Hbit.
      { intros i. change S_ISUID with (2 ^ 11)%N. rewrite N.pow2_bits_eqb.
        case_bool_decide; subst; [done|]. by apply N.eqb_neq. }
      split; [by rewrite N.ldiff_spec, Hbit, bool_decide_true, andb_false_r by done|].
      intros _ _. split_and!; [done|done|]. intros i Hi.
      by rewrite N.ldiff_spec, Hbit, bool_decide_false, andb_true_r by done.
    + done.
  - destruct sf; intros [= <- <- <-]; done.
Qed.

(** What the write promises: of every state it goes through, and of its end. *)
Definition write_contract (env : WriteEnv) (p : path) (content : text) (fs : FS)
    (trace : list FS) (r : result WriteError WriteOutcome) : Prop :=
  let tmp := temp_path (we_rand env) p in
  (∀ s, s ∈ trace →
     visible p tmp (mode_for (we_stat_fails env) p fs).1.1 content fs s) ∧
  match r with
  | Raise _ =>
      final fs trace !! p = fs !! p ∧ (we_unlink_ok env = true → final fs trace = fs)
  | Ret out =>
      ∃ b, encode content = Some b ∧
        final fs trace = <[p := mkNode Regular (out_mode out) b]> fs ∧
        N.testbit (out_mode out) 11 = false ∧
        (we_stat_fails env = false →
         match fs !! p with
         | None => out = mkWriteOutcome NEW_FILE_MODE true false
         | Some n => node_kind n = Regular →
             created out = false ∧ dropped_setuid out = N.testbit (mode n) 11 ∧
             ∀ i, i ≠ 11%N → N.testbit (out_mode out) i = N.testbit (mode n) i
         end)
  end.

(** A write that stops with the temporary file in some state. *)
Lemma write_contract_failed env p content fs states n e :
  let tmp := temp_path (we_rand env) p in
  fs !! tmp = None →
  Forall (visible p tmp (mode_for (we_stat_fails env) p fs).1.1 content fs) states →
  write_contract env p content fs
    ((states ++ [<[tmp := n]> fs]) ++
     (if we_unlink_ok env then [delete tmp (<[tmp := n]> fs)] else [])) (Raise e).
Proof.
  intros tmp Htmp Hall. pose proof (temp_path_ne (we_rand env) p : tmp ≠ p) as Hne.
  split.
  - apply Forall_forall. fold tmp. rewrite !Forall_app. split_and!; [done| |].
    + constructor; [by apply visible_temp|constructor].
    + destruct (we_unlink_ok env); [|constructor].
      constructor; [by apply visible_cleanup|constructor].
  - unfold final. destruct (we_unlink_ok env).
    + rewrite last_snoc. cbn. by rewrite delete_insert_id.
    + rewrite app_nil_r, last_snoc. cbn. split; [by rewrite lookup_insert_ne|done].
Qed.

Lemma atomic_write_ok (env : WriteEnv) (p : path) (content : text) (fs : FS) :
  write_contract env p content fs
    (atomic_write env p content fs).1 (atomic_write env p content fs).2.
Proof.
  unfold atomic_write.
  destruct (mode_for (we_stat_fails env) p fs) as [[m dropped] cr] eqn:Hmode.
  pose proof (mode_for_spec _ _ _ _ _ _ Hmode) as [Hsuid Hspec].
  set (tmp := temp_path (we_rand env) p).
  assert (tmp ≠ p) as Hne by apply temp_path_ne.
  assert (∀ e, write_contract env p content fs [fs] (Raise e)) as Hnothing.
  { intros e. split; [|done]. apply Forall_forall.
    constructor; [apply visible_start|constructor]. }
  destruct (bool_decide (we_fail env = Some 0)); [apply Hnothing|]. cbv zeta.
  destruct (bool_decide (we_fail env = Some 1)); [apply Hnothing|].
  destruct (fs !! tmp) as [x|] eqn:Htmp; [apply Hnothing|].
  assert (∀ n, visible p tmp (mode_for (we_stat_fails env) p fs).1.1 content fs (<[tmp:=n]> fs))
    as Hv by (intros; by apply visible_temp).
  pose proof (visible_start p tmp (mode_for (we_stat_fails env) p fs).1.1 content fs) as H0.
  destruct (encode content) as [b|] eqn:Henc.
  2: { apply (write_contract_failed env p content fs [fs]); auto. }
  destruct (bool_decide (we_fail env = Some 2)).
  { apply (write_contract_failed env p content fs [fs; _]); auto. }
  destruct (bool_decide (we_fail env = Some 3)).
  { apply (write_contract_failed env p content fs [fs; _; _]); auto. }
  destruct (bool_decide (we_fail env = Some 4)).
  { apply (write_contract_failed env p content fs [fs; _; _; _]); auto. }
  destruct (bool_decide (we_fail env = Some 5)).
  { apply (write_contract_failed env p content fs [fs; _; _; _]); auto. }
  destruct (bool_decide (_ = Some Directory)).
  { apply (write_contract_failed env p content fs [fs; _; _; _]); auto. }
  assert (delete tmp (<[p:=mkNode Regular m b]> (<[tmp:=mkNode Regular m b]> fs)) =
          <[p:=mkNode Regular m b]> fs) as Hfin.
  { rewrite insert_insert_ne, delete_insert_eq by done. apply delete_id.
    by rewrite lookup_insert_ne. }
  cbn [fst snd]. rewrite Hfin. split.
  - apply Forall_forall. fold tmp. repeat (constructor; [by auto|]). constructor; [|constructor].
    rewrite Hmode. split; [intros q ? ?; by rewrite lookup_insert_ne|].
    right. exists b. by rewrite lookup_insert_eq.
  - exists b. split_and!; done.
Qed.

(** A write at which nothing fails returns. *)
Lemma atomic_write_returns env p content fs n b :
  we_fail env = None → fs !! temp_path (we_rand env) p = None →
  fs !! p = Some n → node_kind n = Regular → encode content = Some b →
  ∃ trace out, atomic_write env p content fs = (trace, Ret out).
Proof.
  intros Hfail Htmp Hn Hreg Hb. unfold atomic_write. rewrite Hfail, Htmp, Hb, Hn.
  destruct (mode_for _ _ _) as [[m dropped] cr]. cbn. rewrite Hreg. cbn. eauto.
Qed.

(** C33: A write is all or nothing, at the mode the file had.  Whatever fails
    and wherever the process dies, the target is at every moment either what
    it was or a regular file with the complete new content; nothing but the
    temporary file next to it changes.  A call that raises leaves the target
    alone (and, if it can unlink, the whole file system); one that returns
    replaced it, a fresh file at 0600, an existing one at its own mode less
    the setuid bit. *)
Theorem atomic_write_all_or_nothing (env : WriteEnv) (p : path) (content : text) (fs : FS) :
  write_contract env p content fs
    (atomic_write env p content fs).1 (atomic_write env p content fs).2.
Proof. apply atomic_write_ok. Qed.

(** ** The interface

    What the editing tools rely on of the function that writes their target:
    its contract, and that it returns when nothing fails. *)
Class TargetWriter := {
  write_target : WriteEnv → path → text → FS → list FS * result WriteError WriteOutcome;
  write_target_ok env p content fs :
    write_contract env p content fs
      (write_target env p content fs).1 (write_target env p content fs).2;
  write_target_returns env p content fs n b :
    we_fail env = None → fs !! temp_path (we_rand env) p = None →
    fs !! p = Some n → node_kind n = Regular → encode content = Some b →
    ∃ trace out, write_target env p content fs = (trace, Ret out)
}.
#[export] Instance atomic_writer : TargetWriter :=
  {| write_target := atomic_write;
     write_target_ok := atomic_write_ok;
     write_target_returns := atomic_write_returns |}.
