(* ===== verification/EditMatch.v ===== *)
(** * Matching cascade of the edit tools (core/tools/builtin/file_edit.py)

    Everything between reading a file and writing it back: the edit distance,
    the line endings, the four replacer strategies, and [_apply_edit], which
    runs them from exact to fuzzy.  Similarity scores are exact rationals where
    the code has floats.  The texts of refusals and notes are constructors
    that carry the numbers the messages show. *)
From Stdlib Require Import QArith Qabs.
From S2P Require Import Prelude PyStr.
#[local] Open Scope nat_scope.

(** ** Edit distance *)
Definition LEV_MAX_LEN : nat := Eval cbv in Pos.to_nat 4096.

(** The inner loop of [_levenshtein]: [left] is [curr[j]] and [prev] the
    previous row from [j] on. *)
Fixpoint lev_row (ca : N) (b : text) (left : nat) (prev : list nat) : list nat :=
  match b, prev with
  | cb :: b, p0 :: ((p1 :: _) as prev) =>
      let cost := if (ca =? cb)%N then 0 else 1 in
      let x := Nat.min (Nat.min (left + 1) (p1 + 1)) (p0 + cost) in
      x :: lev_row ca b x prev
  | _, _ => []
  end.
Fixpoint lev_rows (a b : text) (i : nat) (prev : list nat) : list nat :=
  match a with
  | [] => prev
  | ca :: a => lev_rows a b (S i) (i + 1 :: lev_row ca b (i + 1) prev)
  end.
Definition levenshtein (a b : text) : nat :=
  let '(a, b) := if length a <? length b then (b, a) else (a, b) in
  match b with
  | [] => length a
  | _ =>
      if (LEV_MAX_LEN <? length a) || (LEV_MAX_LEN <? length b)
      then Nat.max (length a) (length b)
      else default 0 (last (lev_rows a b 0 (seq 0 (length b + 1))))
  end.

Definition similarity (a b : text) : Q :=
  match a, b with
  | [], [] => 1
  | _, _ => 1 - inject_Z (Z.of_nat (levenshtein a b))
                / inject_Z (Z.of_nat (Nat.max (length a) (length b)))
  end%Q.

Example lev_kitten : levenshtein (t "kitten") (t "sitting") = 3.
Proof. reflexivity. Qed.

(** ** What an edit distance is: the fewest one-character edits *)
Inductive edit1 : text → text → Prop :=
| edit_sub pre x y post : edit1 (pre ++ x :: post) (pre ++ y :: post)
| edit_del pre x post : edit1 (pre ++ x :: post) (pre ++ post)
| edit_ins pre x post : edit1 (pre ++ post) (pre ++ x :: post).

Inductive align : nat → text → text → Prop :=
| al_nil : align 0 [] []
| al_keep n x a b : align n a b → align n (x :: a) (x :: b)
| al_sub n x y a b : align n a b → align (S n) (x :: a) (y :: b)
| al_del n x a b : align n a b → align (S n) (x :: a) b
| al_ins n y a b : align n a b → align (S n) a (y :: b).
#[local] Hint Constructors align : core.

Lemma edit1_cons z a b : edit1 a b → edit1 (z :: a) (z :: b).
Proof.
  intros []; [apply (edit_sub (z :: pre))|apply (edit_del (z :: pre))|apply (edit_ins (z :: pre))].
Qed.
Lemma nsteps_edit1_cons z n a b : nsteps edit1 n a b → nsteps edit1 n (z :: a) (z :: b).
Proof. induction 1; econstructor; eauto using edit1_cons. Qed.
Lemma edit1_sym a b : edit1 a b → edit1 b a.
Proof. intros []; constructor. Qed.
Lemma nsteps_edit1_sym n a b : nsteps edit1 n a b → nsteps edit1 n b a.
Proof.
  induction 1 as [|n a b c Hab _ IH]; [constructor|].
  eapply nsteps_r; eauto using edit1_sym.
Qed.

Lemma align_nsteps n a b : align n a b → nsteps edit1 n a b.
Proof.
  induction 1 as [|n x a b _ IH|n x y a b _ IH|n x a b _ IH|n y a b _ IH].
  - constructor.
  - by apply nsteps_edit1_cons.
  - eapply nsteps_l; [apply (edit_sub [])|]. by apply nsteps_edit1_cons.
  - eapply nsteps_l; [apply (edit_del [])|done].
  - eapply nsteps_r; [done|]. apply (edit_ins []).
Qed.

Lemma align_refl a : align 0 a a.
Proof. induction a; auto. Qed.

(** Aligned at a cost of at most [k]. *)
Definition align_le (k : nat) (a b : text) : Prop := ∃ m, m ≤ k ∧ align m a b.

Lemma align_le_intro k n a b : n ≤ k → align n a b → align_le k a b.
Proof. by exists n. Qed.
Lemma align_le_refl k a : align_le k a a.
Proof. exists 0. auto using align_refl with lia. Qed.
Lemma align_le_keep k x a b : align_le k a b → align_le k (x :: a) (x :: b).
Proof. intros (m & ? & ?). exists m. auto. Qed.
Lemma align_le_sub k x y a b : align_le k a b → align_le (S k) (x :: a) (y :: b).
Proof. intros (m & ? & ?). exists (S m). auto with lia. Qed.
Lemma align_le_del k x a b : align_le k a b → align_le (S k) (x :: a) b.
Proof. intros (m & ? & ?). exists (S m). auto with lia. Qed.
Lemma align_le_ins k y a b : align_le k a b → align_le (S k) a (y :: b).
Proof. intros (m & ? & ?). exists (S m). auto with lia. Qed.
#[local] Hint Resolve align_le_refl align_le_keep align_le_sub align_le_del align_le_ins : core.
#[local] Hint Extern 1 (align_le _ _ _) =>
  (eapply align_le_intro; [|eassumption]; lia) : core.

(** One more edit in front costs at most one more. *)
Lemma edit1_align a a' n c : edit1 a a' → align n a' c → align_le (S n) a c.
Proof.
  intros He. assert (∀ n c l, align n l c → l = a' → align_le (S n) a c); [|by eauto].
  destruct He as [pre x y post|pre x post|pre x post]; induction pre as [|z pre IHpre]; cbn;
    intros m c' l Hal;
    induction Hal as [|m u a b Hal IH|m u v a b Hal IH|m u a b Hal IH|m v a b Hal IH];
    intros Heq; simplify_eq; eauto 6 using al_keep, al_sub, al_del, al_ins.
Qed.

Lemma nsteps_align n a b : nsteps edit1 n a b → align_le n a b.
Proof.
  induction 1 as [a|n a b c Hab _ (m & Hm & Hal)].
  - eapply align_le_intro; [|apply align_refl]. done.
  - destruct (edit1_align _ _ _ _ Hab Hal) as (m' & ? & ?).
    exists m'. split; [lia|done].
Qed.

(** The distance of two texts, by recursion on both. *)
Fixpoint lev (a : text) : text → nat :=
  match a with
  | [] => length
  | x :: a' =>
      fix lev_b (b : text) : nat :=
        match b with
        | [] => length a
        | y :: b' =>
            Nat.min (Nat.min (lev_b b' + 1) (lev a' b + 1))
                    (lev a' b' + if (x =? y)%N then 0 else 1)
        end
  end.

Lemma lev_nil_r a : lev a [] = length a.
Proof. by destruct a. Qed.
Lemma lev_cons x a y b :
  lev (x :: a) (y :: b) =
  Nat.min (Nat.min (lev (x :: a) b + 1) (lev a (y :: b) + 1))
          (lev a b + if (x =? y)%N then 0 else 1).
Proof. done. Qed.

Lemma align_del_all a : align (length a) a [].
Proof. induction a; cbn; auto. Qed.
Lemma align_ins_all b : align (length b) [] b.
Proof. induction b; cbn; auto. Qed.

Lemma lev_align a b : align (lev a b) a b.
Proof.
  revert b. induction a as [|x a IHa]; [apply align_ins_all|].
  induction b as [|y b IHb]; [apply align_del_all|]. rewrite lev_cons.
  destruct (Nat.min_spec (Nat.min (lev (x :: a) b + 1) (lev a (y :: b) + 1))
      (lev a b + if (x =? y)%N then 0 else 1)) as [[_ ->]|[_ ->]].
  - destruct (Nat.min_spec (lev (x :: a) b + 1) (lev a (y :: b) + 1)) as [[_ ->]|[_ ->]];
      rewrite Nat.add_1_r; auto.
  - destruct (N.eqb_spec x y) as [->|]; [rewrite Nat.add_0_r|rewrite Nat.add_1_r]; auto.
Qed.

Lemma lev_min n a b : align n a b → lev a b ≤ n.
Proof.
  induction 1 as [|n x a b _ IH|n x y a b _ IH|n x a b _ IH|n y a b _ IH]; [done|..].
  - rewrite lev_cons, N.eqb_refl. lia.
  - rewrite lev_cons. destruct (x =? y)%N; lia.
  - destruct b; [rewrite lev_nil_r in *; cbn; lia|]. rewrite lev_cons. lia.
  - destruct a; [cbn in *; lia|]. rewrite lev_cons. lia.
Qed.

Lemma align_snoc_keep n x a b : align n a b → align n (a ++ [x]) (b ++ [x]).
Proof. induction 1; cbn; auto. Qed.
Lemma align_snoc_sub n x y a b : align n a b → align (S n) (a ++ [x]) (b ++ [y]).
Proof. induction 1; cbn; auto. Qed.
Lemma align_snoc_del n x a b : align n a b → align (S n) (a ++ [x]) b.
Proof. induction 1; cbn; auto. Qed.
Lemma align_snoc_ins n y a b : align n a b → align (S n) a (b ++ [y]).
Proof. induction 1; cbn; auto. Qed.

Lemma align_reverse n a b : align n a b → align n (reverse a) (reverse b).
Proof.
  induction 1; rewrite ?reverse_cons;
    auto using align_snoc_keep, align_snoc_sub, align_snoc_del, align_snoc_ins.
Qed.
Lemma lev_reverse a b : lev (reverse a) (reverse b) = lev a b.
Proof.
  apply Nat.le_antisymm; apply lev_min.
  - apply align_reverse, lev_align.
  - rewrite <-(reverse_involutive a), <-(reverse_involutive b) at 2.
    apply align_reverse, lev_align.
Qed.

(** A row of the table: [u] and [v] are the prefixes passed, backwards. *)
Fixpoint row (u v b : text) : list nat :=
  lev u v :: match b with [] => [] | y :: b => row u (y :: v) b end.

Lemma lev_row_spec x u v b :
  lev (x :: u) v :: lev_row x b (lev (x :: u) v) (row u v b) = row (x :: u) v b.
Proof.
  revert v. induction b as [|y b IH]; intros v; [done|].
  cbn [row lev_row]. destruct b as [|z b]; cbn [row].
  - rewrite lev_cons. by destruct (x =? y)%N.
  - rewrite <-lev_cons. f_equal. apply (IH (y :: v)).
Qed.

Lemma lev_rows_spec a u b : lev_rows a b (length u) (row u [] b) = row (reverse a ++ u) [] b.
Proof.
  revert u. induction a as [|x a IH]; intros u; [done|]. cbn [lev_rows].
  pose proof (lev_row_spec x u [] b) as H. rewrite lev_nil_r in H. cbn [length] in H.
  rewrite Nat.add_1_r, H. etrans; [apply (IH (x :: u))|].
  by rewrite reverse_cons, <-app_assoc.
Qed.

Lemma row_last u v b : last (row u v b) = Some (lev u (reverse b ++ v)).
Proof.
  revert v. induction b as [|y b IH]; intros v; [done|].
  cbn [row]. rewrite last_cons, IH, reverse_cons, <-app_assoc. done.
Qed.
Lemma row_nil v b : row [] v b = seq (length v) (length b + 1).
Proof.
  revert v. induction b as [|y b IH]; intros v; [done|]. cbn. f_equal. apply (IH (y :: v)).
Qed.

Lemma lev_sym a b : lev a b = lev b a.
Proof.
  apply Nat.le_antisymm.
  - destruct (nsteps_align (lev b a) a b) as (m & ? & ?%lev_min);
      [apply nsteps_edit1_sym, align_nsteps, lev_align|lia].
  - destruct (nsteps_align (lev a b) b a) as (m & ? & ?%lev_min);
      [apply nsteps_edit1_sym, align_nsteps, lev_align|lia].
Qed.

Lemma levenshtein_lev a b :
  length a ≤ LEV_MAX_LEN → length b ≤ LEV_MAX_LEN → levenshtein a b = lev a b.
Proof.
  assert (∀ a b, length a ≤ LEV_MAX_LEN → length b ≤ LEV_MAX_LEN →
    match b with
    | [] => length a
    | _ => if (LEV_MAX_LEN <? length a) || (LEV_MAX_LEN <? length b)
           then Nat.max (length a) (length b)
           else default 0 (last (lev_rows a b 0 (seq 0 (length b + 1))))
    end = lev a b) as Hcore.
  { clear a b. intros a b Ha Hb.
    rewrite (proj2 (Nat.ltb_ge _ _) Ha), (proj2 (Nat.ltb_ge _ _) Hb). cbn [orb].
    destruct b as [|y b]; [by rewrite lev_nil_r|].
    assert (lev_rows a (y :: b) 0 (seq 0 (length (y :: b) + 1)) = row (reverse a) [] (y :: b))
      as ->.
    { etrans; [|etrans; [apply (lev_rows_spec a [] (y :: b))|by rewrite app_nil_r]].
      by rewrite row_nil. }
    rewrite row_last, app_nil_r. apply lev_reverse. }
  intros Ha Hb. unfold levenshtein. destruct (length a <? length b);
    rewrite Hcore by done; [apply lev_sym|done].
Qed.

Lemma levenshtein_long a b :
  LEV_MAX_LEN < Nat.max (length a) (length b) →
  levenshtein a b = Nat.max (length a) (length b).
Proof.
  intros Hlong. unfold levenshtein.
  assert (∀ a b, length b ≤ length a → LEV_MAX_LEN < length a → match b with
    | [] => length a
    | _ => if (LEV_MAX_LEN <? length a) || (LEV_MAX_LEN <? length b)
           then Nat.max (length a) (length b)
           else default 0 (last (lev_rows a b 0 (seq 0 (length b + 1))))
    end = length a) as Hcore.
  { intros x y ? Hx%Nat.ltb_lt. rewrite Hx. destruct y; [done|]. by apply Nat.max_l. }
  destruct (Nat.ltb_spec (length a) (length b)); rewrite Hcore; lia.
Qed.

(** [_levenshtein] is the edit distance: some sequence of that many
    one-character insertions, deletions and substitutions leads from [a] to
    [b], and no shorter one does.  Above the length cap it reports the longer
    length, which makes the similarity zero. *)
Theorem levenshtein_is_edit_distance (a b : text) :
  if (length a <=? LEV_MAX_LEN) && (length b <=? LEV_MAX_LEN) then
    nsteps edit1 (levenshtein a b) a b ∧
    ∀ n, nsteps edit1 n a b → levenshtein a b ≤ n
  else levenshtein a b = Nat.max (length a) (length b).
Proof.
  destruct (Nat.leb_spec (length a) LEV_MAX_LEN) as [Ha|Ha];
    destruct (Nat.leb_spec (length b) LEV_MAX_LEN) as [Hb|Hb]; cbn [andb].
  1: { rewrite levenshtein_lev by done. split; [apply align_nsteps, lev_align|].
       intros n (m & ? & ?%lev_min)%nsteps_align. lia. }
  all: apply levenshtein_long; lia.
Qed.

(** ** Line endings *)
Definition CRLF : text := [CR; NL].

Definition detect_eol (s : text) : text :=
  if contains CRLF s then CRLF
  else if contains [CR] s && negb (contains [NL] s) then [CR]
  else [NL].
Definition normalize_eol (s eol : text) : text :=
  if decide (eol = [NL]) then s else replace eol [NL] s.
(** The way back, inlined in both tools before the write. *)
Definition restore_eol (s eol : text) : text :=
  if decide (eol = [NL]) then s else replace [NL] eol s.

(** ** Replacer strategies *)
Inductive strategy := Exact | WhitespaceNormalized | IndentationFlexible | BlockAnchorFuzzy.
#[export] Instance strategy_eq_dec : EqDecision strategy.
Proof. solve_decision. Defined.

(** Matches a strategy will not choose between: how many, and the lines shown. *)
Inductive refusal :=
| NearMatches (label : strategy) (n : nat) (shown : list nat)
| TiedBlocks (n : nat) (shown : list nat).
Inductive note :=
| SingleBlock
| NotChanged (n : nat) (shown : list nat)
| InEdit (i : nat) (n : note).

(** [_Attempt]. *)
Record Attempt := mkAttempt {
  a_content : option text;
  a_count : nat;
  a_refusal : option refusal;
  a_note : option note
}.
Definition NO_MATCH : Attempt := mkAttempt None 0 None None.
Definition changed (s : text) (n : nat) : Attempt := mkAttempt (Some s) n None None.
Definition refused (r : refusal) : Attempt := mkAttempt None 0 (Some r) None.

Record EditResult := mkEditResult {
  e_content : option text;
  e_strategy : option strategy;
  e_count : nat;
  e_error : option refusal;
  e_notes : list note
}.

(** [re.sub(r"[ \t]+", " ", s)]; [in_run] is set inside a run. *)
Fixpoint collapse_ws (in_run : bool) (s : text) : text :=
  match s with
  | [] => []
  | c :: s =>
      if decide (c = SP ∨ c = TAB) then
        if in_run then collapse_ws true s else SP :: collapse_ws true s
      else c :: collapse_ws false s
  end.
Definition normalize_ws (s : text) : text := collapse_ws false s.

Abbreviation hit := (nat * nat * list text)%type.

(** [_splice], from [cursor] on. *)
Fixpoint splice_from (cursor : nat) (content_lines : list text) (hits : list hit) : list text :=
  match hits with
  | [] => drop cursor content_lines
  | (start, span, new_lines) :: hits =>
      take (start - cursor) (drop cursor content_lines) ++ new_lines
      ++ splice_from (start + span) content_lines hits
  end.
Definition splice (content_lines : list text) (hits : list hit) : text :=
  join_lines (splice_from 0 content_lines hits).

Definition resolve (content_lines : list text) (hits : list hit)
    (replace_all : bool) (label : strategy) : Attempt :=
  match hits with
  | [] => NO_MATCH
  | _ =>
      if negb replace_all && (1 <? length hits) then
        refused (NearMatches label (length hits) ((λ h : hit, S h.1.1) <$> take 6 hits))
      else changed (splice content_lines hits) (length hits)
  end.

Definition exact_replace (content old new : text) (replace_all : bool) : Attempt :=
  match find old content with
  | None => NO_MATCH
  | Some idx =>
      if replace_all then changed (replace old new content) (count old content)
      else changed (take idx content ++ new ++ drop (idx + length old) content) 1
  end.

(** The walk of both line-based strategies: the first line not yet looked at
    is [i], and a match consumes its own lines.  [fuel] bounds the rounds. *)
Fixpoint walk {A} (m : list text → option A) (span : nat) (content_lines : list text)
    (fuel i : nat) : list (nat * A) :=
  match fuel with
  | O => []
  | S fuel =>
      if i + span <=? length content_lines then
        match m (take span (drop i content_lines)) with
        | Some a => (i, a) :: walk m span content_lines fuel (i + span)
        | None => walk m span content_lines fuel (S i)
        end
      else []
  end.

Definition whitespace_normalized_starts (content_lines old_lines : list text) : list nat :=
  let span := length old_lines in
  if (span =? 0) || (length content_lines <? span) then []
  else
    let norm_old := normalize_ws <$> old_lines in
    fst <$> walk (λ chunk, if decide (normalize_ws <$> chunk = norm_old) then Some () else None)
              span content_lines (S (length content_lines)) 0.

Definition whitespace_normalized_replace (content old new : text) (replace_all : bool) : Attempt :=
  if contains (normalize_ws old) (normalize_ws content) then
    let content_lines := split_lines content in
    let old_lines := split_lines old in
    let new_lines := split_lines new in
    let hits := (λ start, (start, length old_lines, new_lines)) <$>
                whitespace_normalized_starts content_lines old_lines in
    resolve content_lines hits replace_all WhitespaceNormalized
  else NO_MATCH.

Definition blank (line : text) : bool := bool_decide (strip line = []).
Definition indent (line : text) : nat := length line - length (lstrip line).
Definition indents (lines : list text) : list nat := indent <$> filter (λ l, blank l = false) lines.
Definition min_list (x : nat) (l : list nat) : nat := foldr Nat.min x l.

(** A chunk at the depth of its first line that is not blank. *)
Definition chunk_indent (chunk : list text) : nat := default 0 (head (indents chunk)).
Definition dedent_chunk (chunk : list text) : list text :=
  let n := chunk_indent chunk in
  (λ line, if blank line then [] else if n <=? length line then drop n line else line) <$> chunk.

Definition indentation_flexible_starts (content_lines old_lines : list text) : list (nat * nat) :=
  let span := length old_lines in
  if (span =? 0) || (length content_lines <? span) then []
  else
    match indents old_lines with
    | [] => []
    | i :: ns =>
        let min_indent := min_list i ns in
        let stripped_old := (λ line, if blank line then [] else drop min_indent line) <$> old_lines in
        walk (λ chunk, if decide (dedent_chunk chunk = stripped_old)
                       then Some (chunk_indent chunk) else None)
          span content_lines (S (length content_lines)) 0
    end.

Definition reindent (new_lines : list text) (n : nat) : list text :=
  let new_min_indent := match indents new_lines with [] => 0 | i :: ns => min_list i ns end in
  (λ line, if blank line then [] else repeat SP n ++ drop new_min_indent line) <$> new_lines.

Definition indentation_flexible_replace (content old new : text) (replace_all : bool) : Attempt :=
  let old_lines := split_lines old in
  let content_lines := split_lines content in
  let new_lines := split_lines new in
  let hits := (λ '(start, n), (start, length old_lines, reindent new_lines n)) <$>
              indentation_flexible_starts content_lines old_lines in
  resolve content_lines hits replace_all IndentationFlexible.

(** *** Block anchors *)
Definition BLOCK_ANCHOR_MIN_SIMILARITY : Q := 6 # 10.
Definition TIE : Q := 1 # 1000000000.

Definition Q_of_nat (n : nat) : Q := inject_Z (Z.of_nat n).
Definition Q_lt (x y : Q) : bool := negb (Qle_bool y x).

(** The score of the lines between two anchors. *)
Definition middle_score (middle_old middle_content : list text) : Q :=
  (match middle_old with
   | [] => match middle_content with [] => 1 | _ => 1 # 2 end
   | _ =>
       let scores := imap (λ k mol, match middle_content !! k with
                                    | Some l => similarity mol l
                                    | None => 0
                                    end) middle_old in
       let lo := length middle_old in
       let lc := length middle_content in
       let len_penalty := 1 - Q_of_nat (Nat.max lo lc - Nat.min lo lc)
                              / Q_of_nat (Nat.max (Nat.max lo lc) 1) in
       foldr Qplus 0 scores / Q_of_nat (Nat.max (length scores) 1) * len_penalty
   end)%Q.

Abbreviation candidate := (nat * nat * Q)%type.

Definition anchor_candidates (content_lines old_lines : list text) : list candidate :=
  let line_at (ls : list text) i := strip (default [] (ls !! i)) in
  let first_anchor := line_at old_lines 0 in
  let last_anchor := line_at old_lines (length old_lines - 1) in
  let middle_old := strip <$> take (length old_lines - 2) (drop 1 old_lines) in
  i ← seq 0 (length content_lines);
  if decide (line_at content_lines i = first_anchor) then
    let max_end := Nat.min (i + length old_lines * 2) (length content_lines) in
    j ← seq (i + 2) (max_end - (i + 2));
    if decide (line_at content_lines j = last_anchor) then
      let middle_content := strip <$> take (j - (i + 1)) (drop (i + 1) content_lines) in
      [(i, j, middle_score middle_old middle_content)]
    else []
  else [].

(** [viable.sort(key=lambda c: (-c[2], c[0]))], which is stable. *)
Definition better (c d : candidate) : bool :=
  Q_lt d.2 c.2 || Qeq_bool c.2 d.2 && (c.1.1 <=? d.1.1).
Fixpoint insert_candidate (c : candidate) (l : list candidate) : list candidate :=
  match l with
  | [] => [c]
  | d :: l' => if better c d then c :: l else d :: insert_candidate c l'
  end.
Definition sort_candidates (l : list candidate) : list candidate := foldr insert_candidate [] l.

Definition block_anchor_replace (content old new : text) (replace_all : bool) : Attempt :=
  let old_lines := split_lines old in
  if length old_lines <? 3 then NO_MATCH else
  if blank (default [] (head old_lines)) || blank (default [] (last old_lines)) then NO_MATCH else
  let content_lines := split_lines content in
  let viable := filter (λ c : candidate, Qle_bool BLOCK_ANCHOR_MIN_SIMILARITY c.2 = true)
                  (anchor_candidates content_lines old_lines) in
  match sort_candidates viable with
  | [] => NO_MATCH
  | ((best_start, best_end), best_score) as best :: rest =>
      let tied := filter (λ c : candidate,
        c.1.1 ≠ best_start ∧ Q_lt (Qabs (c.2 - best_score)) TIE = true) rest in
      match tied with
      | _ :: _ =>
          refused (TiedBlocks (1 + length tied) ((λ c : candidate, S c.1.1) <$> best :: take 5 tied))
      | [] =>
          let result_lines := take best_start content_lines ++ split_lines new
                              ++ drop (best_end + 1) content_lines in
          mkAttempt (Some (join_lines result_lines)) 1 None
            (if replace_all then Some SingleBlock else None)
      end
  end.

(** ** The cascade *)
Definition REPLACERS : list (strategy * (text → text → text → bool → Attempt)) :=
  [(Exact, exact_replace); (WhitespaceNormalized, whitespace_normalized_replace);
   (IndentationFlexible, indentation_flexible_replace); (BlockAnchorFuzzy, block_anchor_replace)].

(** The set of lines, in order and without duplicates. *)
Fixpoint insert_line (n : nat) (l : list nat) : list nat :=
  match l with
  | [] => [n]
  | m :: l' => if n <? m then n :: l else if n =? m then l else m :: insert_line n l'
  end.
Definition variants_left (content old : text) : list nat :=
  let content_lines := split_lines content in
  let old_lines := split_lines old in
  foldr insert_line []
    (S <$> whitespace_normalized_starts content_lines old_lines
           ++ (fst <$> indentation_flexible_starts content_lines old_lines)).

Fixpoint run_cascade (replacers : list (strategy * (text → text → text → bool → Attempt)))
    (content old new : text) (replace_all : bool) : EditResult :=
  match replacers with
  | [] => mkEditResult None None 0 None []
  | (name, replacer) :: replacers =>
      let attempt := replacer content old new replace_all in
      match a_refusal attempt with
      | Some r => mkEditResult None (Some name) 0 (Some r) []
      | None =>
          match a_content attempt with
          | None => run_cascade replacers content old new replace_all
          | Some result =>
              let leftover :=
                if bool_decide (name = Exact) && replace_all then variants_left result old else [] in
              let notes := option_list (a_note attempt) ++
                match leftover with
                | [] => []
                | _ => [NotChanged (length leftover) (take 6 leftover)]
                end in
              mkEditResult (Some result) (Some name) (a_count attempt) None notes
          end
      end
  end.
Definition apply_edit (content old new : text) (replace_all : bool) : EditResult :=
  run_cascade REPLACERS content old new replace_all.

Definition lines_of (ls : list string) : text := join_lines (t <$> ls).

Example edit_indent :
  apply_edit (lines_of ["if x:"; "    a = 1"; "    b = 2"]%string)
    (lines_of ["a = 1"; "b = 2"]%string) (lines_of ["a = 3"]%string) false =
  mkEditResult (Some (lines_of ["if x:"; "    a = 3"]%string)) (Some IndentationFlexible) 1 None [].
Proof. reflexivity. Qed.
Example edit_ambiguous :
  e_error (apply_edit (lines_of ["a  =  1"; "b"; "a  =  1"]%string)
    (t "a = 1") (t "a = 2") false) = Some (NearMatches WhitespaceNormalized 2 [1; 3]).
Proof. reflexivity. Qed.
Example edit_anchor :
  apply_edit (lines_of ["def f():"; "  x = compute(1)"; "  return x"]%string)
    (lines_of ["def f():"; "  x = compute(2)"; "  return x"]%string) (t "pass") false =
  mkEditResult (Some (t "pass")) (Some BlockAnchorFuzzy) 1 None [].
Proof. vm_compute. reflexivity. Qed.

(** ** What the line-based strategies promise

    The reference for a line-based strategy: walk down the lines, replace a
    block that matches and go on after it, keep a line at which none starts. *)
Section line_rewriting.
Context {A : Type} (m : list text → option A) (repl : A → list text) (span : nat).

Inductive rewrites : list text → nat → list text → Prop :=
| rw_rest l : length l < span → rewrites l 0 l
| rw_block block l a n l' :
    length block = span → m block = Some a → rewrites l n l' →
    rewrites (block ++ l) (S n) (repl a ++ l')
| rw_line x l n l' :
    span ≤ length (x :: l) → m (take span (x :: l)) = None → rewrites l n l' →
    rewrites (x :: l) n (x :: l').

Definition hits_of (found : list (nat * A)) : list hit :=
  (λ '(start, a), (start, span, repl a)) <$> found.

Context (span_pos : 0 < span).

Lemma walk_rewrites lines fuel i cursor :
  cursor ≤ i → i ≤ length lines → length lines - i < fuel →
  ∃ l', rewrites (drop i lines) (length (walk m span lines fuel i)) l' ∧
    splice_from cursor lines (hits_of (walk m span lines fuel i)) =
    take (i - cursor) (drop cursor lines) ++ l'.
Proof.
  revert i cursor. induction fuel as [|fuel IH]; intros i cursor Hci Hi Hfuel; [lia|].
  cbn [walk]. destruct (Nat.leb_spec (i + span) (length lines)) as [Hle|Hgt].
  2: { exists (drop i lines). split; [constructor; rewrite length_drop; lia|]. cbn.
       rewrite <-(take_drop (i - cursor) (drop cursor lines)) at 1.
       rewrite drop_drop. by replace (cursor + (i - cursor)) with i by lia. }
  destruct (m (take span (drop i lines))) as [a|] eqn:Hm; cbn [length].
  - destruct (IH (i + span) (i + span)) as (l' & Hrw & Hsp); [lia..|].
    exists (repl a ++ l'). split.
    + rewrite <-(take_drop span (drop i lines)). constructor; [|done|by rewrite drop_drop].
      rewrite length_take, length_drop. lia.
    + cbn. unfold hits_of in Hsp. rewrite Hsp, Nat.sub_diag. done.
  - destruct (lookup_lt_is_Some_2 lines i) as [x Hx]; [lia|].
    destruct (IH (S i) cursor) as (l' & Hrw & Hsp); [lia..|].
    exists (x :: l'). rewrite (drop_S _ _ _ Hx) in Hm |- *. split.
    + constructor; [|done|done]. cbn. rewrite length_drop. lia.
    + rewrite Hsp. replace (S i - cursor) with (S (i - cursor)) by lia.
      rewrite (take_S_r _ _ x), <-app_assoc; [done|].
      rewrite lookup_drop. by replace (cursor + (i - cursor)) with i by lia.
Qed.

Lemma rewrites_none lines n l' :
  (∀ block, m block = None) → rewrites lines n l' → n = 0.
Proof. intros Hm. induction 1; [done|congruence|done]. Qed.
End line_rewriting.

Lemma rewrites_ext {A B} (m1 : list text → option A) (m2 : list text → option B)
    r1 r2 span l n l' :
  (∀ b, r1 <$> m1 b = r2 <$> m2 b) → rewrites m1 r1 span l n l' → rewrites m2 r2 span l n l'.
Proof.
  intros Heq. induction 1 as [l Hl|b l a n l' Hb Ha _ IH|x l n l' Hl Hx _ IH].
  - by constructor.
  - specialize (Heq b). rewrite Ha in Heq. destruct (m2 b) as [a2|] eqn:H2; [|done].
    cbn in Heq. simplify_eq. rewrite Heq. by constructor.
  - constructor; [done| |done]. specialize (Heq (take span (x :: l))). rewrite Hx in Heq.
    by destruct (m2 _).
Qed.

(** What [resolve] makes of it. *)
Definition resolved_as (m : list text → option (list text)) (span : nat) (label : strategy)
    (content : text) (replace_all : bool) (att : Attempt) : Prop :=
  ∃ n lines', rewrites m id span (split_lines content) n lines' ∧
    if n =? 0 then att = NO_MATCH
    else if negb replace_all && (1 <? n) then
      ∃ shown, att = refused (NearMatches label n shown)
    else att = changed (join_lines lines') n.

Lemma resolve_resolved {A} (m : list text → option A) repl span label content replace_all :
  0 < span →
  let lines := split_lines content in
  resolved_as (λ b, repl <$> m b) span label content replace_all
    (resolve lines (hits_of repl span (walk m span lines (S (length lines)) 0)) replace_all label).
Proof.
  intros Hspan lines.
  destruct (walk_rewrites m repl span Hspan lines (S (length lines)) 0 0) as (l' & Hrw & Hsp);
    [lia..|].
  rewrite drop_0 in Hrw. change (take (0 - 0) (drop 0 lines)) with (@nil text) in Hsp.
  cbn [app] in Hsp.
  exists (length (walk m span lines (S (length lines)) 0)), l'. split.
  { eapply rewrites_ext; [|exact Hrw]. intros b. by destruct (m b). }
  revert Hsp. generalize (walk m span lines (S (length lines)) 0). clear Hrw.
  intros [|f found] Hsp; [done|]. unfold resolve.
  assert (length (hits_of repl span (f :: found)) = length (f :: found)) as Hlen
    by apply length_fmap.
  unfold splice. rewrite Hsp, Hlen. cbn [hits_of fmap list_fmap length Nat.eqb].
  destruct (negb replace_all && (1 <? S (length found))); eauto.
Qed.

Lemma resolved_short m span label content replace_all :
  length (split_lines content) < span → resolved_as m span label content replace_all NO_MATCH.
Proof. intros. exists 0, (split_lines content). split; [by constructor|done]. Qed.

Lemma rewrites_never {A} (repl : A → list text) span l :
  0 < span → rewrites (λ _, None) repl span l 0 l.
Proof.
  intros. induction l as [|x l IH]; [by constructor|].
  destruct (decide (length (x :: l) < span)); [by constructor|]. constructor; [lia|done|done].
Qed.

Lemma rewrites_hit {A} m (repl : A → list text) span l n l' :
  rewrites m repl span l (S n) l' →
  ∃ pre block post, l = pre ++ block ++ post ∧ length block = span ∧ is_Some (m block).
Proof.
  remember (S n) as k eqn:Hk. intros Hrw. revert n Hk.
  induction Hrw as [|block l a n l' Hlen Ha _ _|x l n l' _ _ _ IH]; intros k Hk; [done|..].
  - exists [], block, l. eauto.
  - destruct (IH k Hk) as (pre & block & post & -> & ? & ?). by exists (x :: pre), block, post.
Qed.

Lemma split_lines_pos s : 0 < length (split_lines s).
Proof. destruct (split_lines_cons s) as (l & ls & ->). cbn. lia. Qed.

Lemma find_app_Some p a b : ∃ n, find p (a ++ p ++ b) = Some n.
Proof.
  induction a as [|c a IH]; cbn [app].
  - assert (starts_with p (p ++ b) = true) as Hs by (apply starts_with_spec; eauto).
    destruct (p ++ b) eqn:E; cbn; rewrite Hs; eauto.
  - cbn [find]. destruct (starts_with _ _); [eauto|]. destruct IH as [n ->]. cbn. eauto.
Qed.
Lemma contains_infix p a b : contains p (a ++ p ++ b) = true.
Proof. unfold contains. by destruct (find_app_Some p a b) as [n ->]. Qed.

Lemma join_infix pre block post :
  block ≠ [] → ∃ a b, join_lines (pre ++ block ++ post) = a ++ join_lines block ++ b.
Proof.
  intros Hne. assert (∃ b, join_lines (block ++ post) = join_lines block ++ b) as [b Hb].
  { destruct post as [|l ls]; [exists []; by rewrite !app_nil_r|]. rewrite join_app by done. eauto. }
  assert (block ++ post ≠ []) by (by destruct block).
  destruct pre as [|l ls]; [exists [], b; done|].
  exists (join_lines (l :: ls) ++ [NL]), b. rewrite join_app, Hb by done. by rewrite <-app_assoc.
Qed.

Lemma collapse_ws_line r l s :
  collapse_ws r (l ++ NL :: s) = collapse_ws r l ++ NL :: collapse_ws false s.
Proof.
  revert r. induction l as [|c l IH]; intros r; [done|]. cbn [app collapse_ws].
  rewrite !IH. destruct (decide _), r; done.
Qed.
Lemma normalize_ws_join ls : normalize_ws (join_lines ls) = join_lines (normalize_ws <$> ls).
Proof.
  induction ls as [|l [|l1 ls] IH]; [done|done|].
  rewrite join_cons by done. unfold normalize_ws at 1. rewrite collapse_ws_line.
  fold (normalize_ws (join_lines (l1 :: ls))). by rewrite IH.
Qed.

(** A block that matches up to the width of its spaces. *)
Definition ws_match (old_lines new_lines block : list text) : option (list text) :=
  if decide (normalize_ws <$> block = normalize_ws <$> old_lines) then Some new_lines else None.
(** A block that matches at another depth; its replacement hangs there too. *)
Definition indent_match (old_lines new_lines block : list text) : option (list text) :=
  match indents old_lines with
  | [] => None
  | i :: ns =>
      if decide (dedent_chunk block =
                 ((λ line, if blank line then [] else drop (min_list i ns) line) <$> old_lines))
      then Some (reindent new_lines (chunk_indent block)) else None
  end.

Lemma whitespace_resolved content old new replace_all :
  resolved_as (ws_match (split_lines old) (split_lines new)) (length (split_lines old))
    WhitespaceNormalized content replace_all
    (whitespace_normalized_replace content old new replace_all).
Proof.
  unfold whitespace_normalized_replace, whitespace_normalized_starts.
  set (old_lines := split_lines old). set (new_lines := split_lines new).
  set (span := length old_lines). pose proof (split_lines_pos old : 0 < span) as Hpos.
  destruct (Nat.ltb_spec (length (split_lines content)) span) as [Hshort|Hlong].
  { rewrite orb_true_r. cbn. destruct (contains _ _); by apply resolved_short. }
  rewrite (proj2 (Nat.eqb_neq span 0)) by lia. cbn [orb].
  set (m := λ chunk, if decide (normalize_ws <$> chunk = normalize_ws <$> old_lines)
                     then Some () else None).
  assert (∀ b, (λ _, new_lines) <$> m b = ws_match old_lines new_lines b) as Hm
    by (intros b; unfold m, ws_match; by case_decide).
  pose proof (resolve_resolved m (λ _, new_lines) span WhitespaceNormalized content replace_all Hpos)
    as (n & lines' & Hrw & Hatt).
  assert (rewrites (ws_match old_lines new_lines) id span (split_lines content) n lines') as Hrw'.
  { eapply rewrites_ext; [|exact Hrw]. intros b. by rewrite <-Hm, option_fmap_id. }
  exists n, lines'. split; [done|].
  destruct (contains (normalize_ws old) (normalize_ws content)) eqn:Hc.
  - unfold hits_of in Hatt. rewrite <-list_fmap_compose.
    erewrite list_fmap_ext; [exact Hatt|]. by intros ? [? []].
  - destruct n as [|n]; [done|]. exfalso.
    destruct (rewrites_hit _ _ _ _ _ _ Hrw') as (pre & b & post & Hsplit & Hlen & [x Hx]).
    unfold ws_match in Hx. case_decide as Hb; [|done].
    destruct (join_infix (normalize_ws <$> pre) (normalize_ws <$> b) (normalize_ws <$> post))
      as (u & v & Hj); [intros ->%fmap_nil_inv; cbn in Hlen; lia|].
    rewrite <-(join_split old), <-(join_split content), !normalize_ws_join, Hsplit, !fmap_app,
      Hj, Hb, contains_infix in Hc. done.
Qed.

Lemma indentation_resolved content old new replace_all :
  resolved_as (indent_match (split_lines old) (split_lines new)) (length (split_lines old))
    IndentationFlexible content replace_all
    (indentation_flexible_replace content old new replace_all).
Proof.
  unfold indentation_flexible_replace, indentation_flexible_starts.
  set (old_lines := split_lines old). set (new_lines := split_lines new).
  set (span := length old_lines). pose proof (split_lines_pos old : 0 < span) as Hpos.
  destruct (Nat.ltb_spec (length (split_lines content)) span) as [Hshort|Hlong].
  { rewrite orb_true_r. cbn. by apply resolved_short. }
  rewrite (proj2 (Nat.eqb_neq span 0)) by lia. cbn [orb].
  unfold resolved_as, indent_match. destruct (indents old_lines) as [|i ns] eqn:Hi.
  { exists 0, (split_lines content). split; [by apply rewrites_never|done]. }
  set (stripped := (λ line, _) <$> old_lines).
  set (m := λ chunk, if decide (dedent_chunk chunk = stripped) then Some (chunk_indent chunk) else None).
  pose proof (resolve_resolved m (reindent new_lines) span IndentationFlexible content replace_all Hpos)
    as (n & lines' & Hrw & Hatt).
  exists n, lines'. split; [|exact Hatt].
  eapply rewrites_ext; [|exact Hrw]. intros b. unfold m. by case_decide.
Qed.

(** The two line-based strategies implement the reference rewriting and
    never guess.  Walking down the lines, every block that matches up to
    spaces (or at another depth) is replaced, a line at which no block starts
    is kept, matches do not overlap, and the count is the number of blocks; a
    single edit that finds several is refused, and none is no match. *)
Theorem line_strategies_rewrite (content old new : text) (replace_all : bool) :
  let old_lines := split_lines old in
  let new_lines := split_lines new in
  resolved_as (ws_match old_lines new_lines) (length old_lines) WhitespaceNormalized
    content replace_all (whitespace_normalized_replace content old new replace_all) ∧
  resolved_as (indent_match old_lines new_lines) (length old_lines) IndentationFlexible
    content replace_all (indentation_flexible_replace content old new replace_all).
Proof. split; [apply whitespace_resolved|apply indentation_resolved]. Qed.

(** ** What exact replacement promises *)
Section occurrences.
Context (old new : text).

(** Left to right, without overlap. *)
Inductive occurrences : text → nat → text → Prop :=
| oc_end : occurrences [] 0 []
| oc_hit s n s' : occurrences s n s' → occurrences (old ++ s) (S n) (new ++ s')
| oc_char c s n s' :
    starts_with old (c :: s) = false → occurrences s n s' → occurrences (c :: s) n (c :: s').

Context (old_ne : old ≠ []).

Lemma replace_occurrences s skip :
  skip ≤ length s →
  occurrences (drop skip s) (count_from old skip s) (replace_from old new skip s).
Proof.
  revert skip. induction s as [|c s IH]; intros skip Hskip; cbn in Hskip.
  - destruct skip; [constructor|lia].
  - destruct skip as [|skip]; cbn; [|apply IH; lia].
    destruct (starts_with old (c :: s)) eqn:Hs.
    + apply starts_with_spec in Hs as [r Hr].
      assert (s = drop 1 old ++ r ∧ length (drop 1 old) = length old - 1) as [Hs Hlen].
      { rewrite length_drop. split; [|done]. destruct old; [done|]. by injection Hr. }
      rewrite Hr. constructor. rewrite <-(drop_app_length (drop 1 old) r) at 1.
      rewrite <-Hs, Hlen. apply IH. rewrite Hs, length_app. lia.
    + constructor; [done|]. rewrite <-(drop_0 s) at 1. apply IH. lia.
Qed.
End occurrences.

Lemma find_None p s k : find p s = None → starts_with p (drop k s) = false.
Proof.
  revert k. induction s as [|c s IH]; intros k; cbn.
  - rewrite drop_nil. by destruct (starts_with p []).
  - destruct (starts_with p (c :: s)) eqn:Hs; [done|].
    destruct (find p s) eqn:Hf; [done|]. intros _. destruct k; [done|]. by apply IH.
Qed.
Lemma find_first p s n k : find p s = Some n → k < n → starts_with p (drop k s) = false.
Proof.
  revert n k. induction s as [|c s IH]; intros n k; cbn.
  - destruct (starts_with p []); [|done]. intros [= <-]. lia.
  - destruct (starts_with p (c :: s)) eqn:Hs; [intros [= <-]; lia|].
    destruct (find p s) as [i|] eqn:Hf; [|done]. intros [= <-] Hk.
    destruct k; [done|]. apply (IH i); [done|lia].
Qed.

Lemma find_pos_count old s n : old ≠ [] → find old s = Some n → 0 < count_from old 0 s.
Proof.
  intros Ho. revert n. induction s as [|c s IH]; intros n; cbn.
  - by destruct old.
  - destruct (starts_with old (c :: s)); [lia|]. destruct (find old s); [eauto|done].
Qed.

(** The exact strategy edits what it says.  No occurrence, no match; a
    single edit changes the first one and nothing else; [replace_all] changes
    every occurrence, left to right without overlap, and counts them. *)
Theorem exact_replace_spec (content old new : text) (replace_all : bool) :
  let att := exact_replace content old new replace_all in
  (att = NO_MATCH ∧ ∀ k, starts_with old (drop k content) = false) ∨
  (replace_all = false ∧ ∃ pre post,
     content = pre ++ old ++ post ∧ att = changed (pre ++ new ++ post) 1 ∧
     ∀ k, k < length pre → starts_with old (drop k content) = false) ∨
  (replace_all = true ∧ ∃ n s', att = changed s' n ∧ 0 < n ∧
     (old ≠ [] → occurrences old new content n s')).
Proof.
  intros att. subst att. unfold exact_replace.
  destruct (find old content) as [n|] eqn:Hf; [right|left; eauto using find_None].
  destruct replace_all; [right|left]; (split; [done|]).
  - exists (count old content), (replace old new content). split; [done|].
    destruct old as [|o old']; [split; [cbn; lia|done]|].
    split; [by eapply find_pos_count|]. intros Ho.
    change (occurrences (o :: old') new (drop 0 content)
      (count_from (o :: old') 0 content) (replace_from (o :: old') new 0 content)).
    apply replace_occurrences; [done|lia].
  - exists (take n content), (drop (n + length old) content). split; [by apply find_Some|].
    split; [done|]. intros k Hk. rewrite length_take in Hk. apply (find_first _ _ n); [done|lia].
Qed.

(** ** What happens to line endings *)

(** Line feeds that do not follow a carriage return. *)
Fixpoint bare_lfs (after_cr : bool) (s : text) : nat :=
  match s with
  | [] => 0
  | c :: s => (if (c =? NL)%N && negb after_cr then 1 else 0) + bare_lfs (c =? CR)%N s
  end.

Lemma replace_char_cons x new c s :
  replace [x] new (c :: s) = (if (x =? c)%N then new else [c]) ++ replace [x] new s.
Proof. unfold replace. cbn. rewrite andb_true_r. by destruct (x =? c)%N. Qed.

Lemma crlf_normalize_cons c s :
  replace CRLF [NL] (c :: s) =
  match s with
  | d :: s' => if (c =? CR)%N && (d =? NL)%N then NL :: replace CRLF [NL] s'
               else c :: replace CRLF [NL] s
  | [] => [c]
  end.
Proof.
  unfold replace, CRLF. destruct s as [|d s]; cbn [replace_from starts_with].
  - by rewrite andb_false_r.
  - rewrite andb_true_r, (N.eqb_sym CR c), (N.eqb_sym NL d).
    by destruct ((c =? CR)%N && (d =? NL)%N).
Qed.

Lemma restore_crlf_no_bare s b :
  bare_lfs b (replace [NL] CRLF s) = 0.
Proof.
  revert b. induction s as [|c s IH]; intros b; [done|]. rewrite replace_char_cons.
  destruct (N.eqb_spec NL c) as [<-|Hne]; cbn [app bare_lfs CRLF].
  - rewrite N.eqb_refl, andb_false_r. cbn. apply IH.
  - rewrite (proj2 (N.eqb_neq c NL)) by done. cbn. apply IH.
Qed.

(** Two characters at a time. *)
Lemma text_ind2 (P : text → Prop) :
  P [] → (∀ c, P [c]) → (∀ c d s, P s → P (d :: s) → P (c :: d :: s)) → ∀ s, P s.
Proof.
  intros H0 H1 H2 s. assert (P s ∧ ∀ c, P (c :: s)) as [? _]; [|done].
  induction s as [|d s [IHs IHc]]; split; auto.
Qed.

Lemma crlf_round_trip s :
  length (replace [NL] CRLF (replace CRLF [NL] s)) = length s + bare_lfs false s ∧
  (bare_lfs false s = 0 → replace [NL] CRLF (replace CRLF [NL] s) = s).
Proof.
  induction s as [|c|c d s IH1 IH2] using text_ind2; [done|..]; rewrite crlf_normalize_cons.
  - rewrite replace_char_cons. cbn [bare_lfs]. rewrite (N.eqb_sym NL c).
    destruct (N.eqb_spec c NL); cbn; [split; [done|lia]|done].
  - destruct (N.eqb_spec c CR) as [->|Hc]; [destruct (N.eqb_spec d NL) as [->|Hd]|];
      cbn [andb]; rewrite replace_char_cons.
    + destruct IH1 as [Hl Hid]. rewrite N.eqb_refl, length_app, Hl. split; [cbn; lia|].
      intros H0. rewrite Hid; [done|exact H0].
    + destruct IH2 as [Hl Hid]. change (NL =? CR)%N with false. cbn [app length].
      assert (bare_lfs false (CR :: d :: s) = bare_lfs false (d :: s)) as ->.
      { cbn. by rewrite (proj2 (N.eqb_neq d NL)). }
      rewrite Hl. split; [cbn; lia|]. intros H0. by rewrite Hid.
    + destruct IH2 as [Hl Hid].
      assert (bare_lfs false (c :: d :: s) =
              (if (c =? NL)%N then 1 else 0) + bare_lfs false (d :: s)) as ->.
      { cbn [bare_lfs]. rewrite (proj2 (N.eqb_neq c CR)), andb_true_r by done. done. }
      rewrite (N.eqb_sym NL c), length_app, Hl.
      destruct (N.eqb_spec c NL) as [->|Hne]; (split; [cbn; lia|]); [lia|].
      intros H0. rewrite Hid; [done|lia].
Qed.

Lemma cr_round_trip s : NL ∉ s → replace [NL] [CR] (replace [CR] [NL] s) = s.
Proof.
  induction s as [|c s IH]; [done|]. rewrite not_elem_of_cons. intros [Hc Hs].
  rewrite replace_char_cons. destruct (N.eqb_spec CR c) as [<-|]; cbn [app].
  - rewrite replace_char_cons, IH by done. done.
  - rewrite replace_char_cons, (proj2 (N.eqb_neq NL c)), IH by done. done.
Qed.

Lemma contains_char x s : contains [x] s = true ↔ x ∈ s.
Proof.
  split.
  - unfold contains. destruct (find [x] s) as [n|] eqn:Hf; [intros _|done].
    apply find_Some in Hf. rewrite Hf. set_solver.
  - intros (s1 & s2 & ->)%list_elem_of_split. apply (contains_infix [x]).
Qed.

#[local] Arguments replace : simpl never.

(** Line endings survive an edit exactly when the file does not mix them.
    Normalising a file and restoring its line ending gives the file back,
    except that in a file with a CRLF anywhere every bare LF becomes a CRLF:
    the result is longer by their number, and no bare LF is left whatever
    the edit produced. *)
Theorem eol_round_trip (s : text) :
  let eol := detect_eol s in
  let rewritten := if contains CRLF s then bare_lfs false s else 0 in
  length (restore_eol (normalize_eol s eol) eol) = length s + rewritten ∧
  (rewritten = 0 → restore_eol (normalize_eol s eol) eol = s) ∧
  (contains CRLF s = true → ∀ edited, bare_lfs false (restore_eol edited eol) = 0).
Proof.
  unfold detect_eol, restore_eol, normalize_eol. destruct (contains CRLF s) eqn:Hcrlf.
  - rewrite !decide_False by done. destruct (crlf_round_trip s) as [Hl Hid].
    split_and!; [exact Hl|exact Hid|]. intros _ edited. apply restore_crlf_no_bare.
  - destruct (contains [CR] s && negb (contains [NL] s)) eqn:Hcr; cbn.
    + rewrite !decide_False by done. apply andb_prop in Hcr as [_ Hnl%negb_true_iff].
      assert (NL ∉ s) by (rewrite <-contains_char; congruence).
      rewrite cr_round_trip by done. auto with lia.
    + rewrite !decide_True by done. auto with lia.
Qed.

(** ** What the block-anchor strategy promises *)
Lemma better_le c d : better c d = true → (d.2 <= c.2)%Q.
Proof.
  unfold better, Q_lt. intros [H|[H%Qeq_bool_iff _]%andb_prop]%orb_true_iff.
  - destruct (Qle_bool c.2 d.2) eqn:E; [done|]. apply Qnot_lt_le. intros Hlt.
    assert (Qle_bool c.2 d.2 = true) by (apply Qle_bool_iff; by apply Qlt_le_weak). congruence.
  - rewrite H. apply Qle_refl.
Qed.
Lemma not_better_le c d : better c d = false → (c.2 <= d.2)%Q.
Proof.
  unfold better, Q_lt. intros [H _]%orb_false_iff. apply negb_false_iff in H.
  by apply Qle_bool_iff.
Qed.

Lemma elem_of_insert_candidate c x l : x ∈ insert_candidate c l ↔ x = c ∨ x ∈ l.
Proof.
  induction l as [|d l IH]; cbn; [set_solver|].
  destruct (better c d); [set_solver|]. rewrite !elem_of_cons, IH. set_solver.
Qed.
Lemma elem_of_sort x l : x ∈ sort_candidates l ↔ x ∈ l.
Proof.
  induction l as [|c l IH]; [done|]. cbn. rewrite elem_of_insert_candidate, IH. set_solver.
Qed.
Lemma sort_head c l best rest :
  sort_candidates l = best :: rest → c ∈ l → (c.2 <= best.2)%Q.
Proof.
  revert best rest. induction l as [|d l IH]; intros best rest; [done|].
  change (sort_candidates (d :: l)) with (insert_candidate d (sort_candidates l)).
  destruct (sort_candidates l) as [|e s] eqn:Hs; cbn [insert_candidate].
  - intros [= <- <-]. assert (l = []) as ->.
    { destruct l as [|y l]; [done|]. assert (y ∈ sort_candidates (y :: l)) as Hy
        by (apply elem_of_sort; left). rewrite Hs in Hy. by apply not_elem_of_nil in Hy. }
    intros ->%list_elem_of_singleton. apply Qle_refl.
  - destruct (better d e) eqn:Hb; intros [= <- <-] [->|Hc]%elem_of_cons.
    + apply Qle_refl.
    + eapply Qle_trans; [by eapply IH|by apply better_le].
    + by apply not_better_le.
    + by eapply IH.
Qed.

(** A candidate starts and ends at the anchors, with a line between them. *)
Definition anchored (content_lines old_lines : list text) (c : candidate) : Prop :=
  c.1.1 + 2 ≤ c.1.2 ∧ c.1.2 < length content_lines ∧
  strip (default [] (content_lines !! c.1.1)) = strip (default [] (head old_lines)) ∧
  strip (default [] (content_lines !! c.1.2)) = strip (default [] (last old_lines)).

Lemma candidates_anchored content_lines old_lines c :
  c ∈ anchor_candidates content_lines old_lines → anchored content_lines old_lines c.
Proof.
  unfold anchor_candidates. rewrite list_elem_of_bind. intros (i & Hc & _).
  case_decide as Hfirst; [|by apply not_elem_of_nil in Hc].
  apply list_elem_of_bind in Hc as (j & Hc & Hj%elem_of_seq).
  case_decide as Hlast; [|by apply not_elem_of_nil in Hc].
  apply list_elem_of_singleton in Hc as ->. split_and!; cbn; [lia|lia|..].
  - rewrite Hfirst. by destruct old_lines.
  - rewrite Hlast, last_lookup. by rewrite <-Nat.sub_1_r.
Qed.

Definition viable (c : candidate) : Prop := (BLOCK_ANCHOR_MIN_SIMILARITY <= c.2)%Q.
Definition tie (c d : candidate) : Prop := c.1.1 ≠ d.1.1 ∧ (Qabs (c.2 - d.2) < TIE)%Q.

(** A block-anchor match is the only good one.  The block replaced runs
    between two lines equal to the anchors, scores at least the threshold and
    as much as any candidate, and no viable block elsewhere scores the same;
    everything outside it stays.  A tie is refused, with its best block and a
    rival to show, and no match means no candidate reached the threshold or
    the text cannot anchor. *)
Theorem block_anchor_unambiguous (content old new : text) (replace_all : bool) :
  let lines := split_lines content in
  let old_lines := split_lines old in
  let cands := anchor_candidates lines old_lines in
  let att := block_anchor_replace content old new replace_all in
  (att = NO_MATCH ∧
     (length old_lines < 3 ∨ blank (default [] (head old_lines)) = true ∨
      blank (default [] (last old_lines)) = true ∨ ∀ c, c ∈ cands → ¬ viable c)) ∨
  (∃ best, best ∈ cands ∧ anchored lines old_lines best ∧ viable best ∧
     (∀ c, c ∈ cands → (c.2 <= best.2)%Q) ∧
     ((∃ c n shown, c ∈ cands ∧ viable c ∧ tie c best ∧ att = refused (TiedBlocks n shown)) ∨
      ((∀ c, c ∈ cands → viable c → ¬ tie c best) ∧
       att = mkAttempt (Some (join_lines (take best.1.1 lines ++ split_lines new
                                          ++ drop (best.1.2 + 1) lines))) 1 None
               (if replace_all then Some SingleBlock else None)))).
Proof.
  intros lines old_lines cands att. subst att. unfold block_anchor_replace. fold old_lines.
  destruct (Nat.ltb_spec (length old_lines) 3) as [|_]; [by auto|].
  destruct (blank (default [] (head old_lines))) eqn:H1; [by auto|].
  destruct (blank (default [] (last old_lines))) eqn:H2; [by auto 6|]. cbn [orb].
  fold lines. fold cands. set (good := filter _ cands).
  assert (∀ c, c ∈ good ↔ viable c ∧ c ∈ cands) as Hgood.
  { intros c. unfold good, viable. rewrite list_elem_of_filter, Qle_bool_iff. done. }
  destruct (sort_candidates good) as [|best rest] eqn:Hsort.
  { left. split; [done|]. right; right; right. intros c Hc Hv.
    assert (c ∈ sort_candidates good) as Hin by (apply elem_of_sort, Hgood; done).
    rewrite Hsort in Hin. by apply not_elem_of_nil in Hin. }
  right. exists best.
  assert (best ∈ good) as [Hv Hbest]%Hgood by (apply elem_of_sort; rewrite Hsort; left).
  assert (∀ c : candidate, Q_lt (Qabs (c.2 - best.2)) TIE = true ↔ (Qabs (c.2 - best.2) < TIE)%Q) as Hlt.
  { intros c. unfold Q_lt. rewrite negb_true_iff. split; intros H.
    - apply Qnot_le_lt. intros Hle%Qle_bool_iff. congruence.
    - apply not_true_iff_false. rewrite Qle_bool_iff. by apply Qlt_not_le. }
  split_and!; [done|by apply candidates_anchored|done|..].
  { intros c Hc. destruct (Qlt_le_dec c.2 BLOCK_ANCHOR_MIN_SIMILARITY) as [Hlow|Hhigh].
    - apply Qlt_le_weak. eapply Qlt_le_trans; [done|exact Hv].
    - eapply sort_head; [done|]. by apply Hgood. }
  destruct best as [[best_start best_end] best_score]. cbn [fst snd] in *.
  destruct (filter _ rest) as [|c tied] eqn:Htied; [right|left].
  - split; [|done]. intros c Hc Hcv [Hne Hclose].
    assert (c ∈ sort_candidates good) as Hin by (apply elem_of_sort, Hgood; done).
    rewrite Hsort in Hin. apply elem_of_cons in Hin as [->|Hin]; [done|].
    assert (c ∈ []) as Hno; [|by apply not_elem_of_nil in Hno].
    rewrite <-Htied. apply list_elem_of_filter. split; [|done]. split; [done|by apply Hlt].
  - assert (c ∈ c :: tied) as Hin by left. rewrite <-Htied in Hin.
    apply list_elem_of_filter in Hin as [[Hne Hclose%Hlt] Hin].
    assert (c ∈ good) as [Hcv Hc]%Hgood by (apply elem_of_sort; rewrite Hsort; by right).
    exists c. do 2 eexists. done.
Qed.

(** A verdict: nothing, a refusal, or an edit of at least one place, of
    exactly one where a single edit was asked for. *)
Definition verdict (replace_all : bool) (att : Attempt) : Prop :=
  att = NO_MATCH ∨ (∃ why, att = refused why) ∨
  (∃ s n note, att = mkAttempt (Some s) n None note ∧ 0 < n ∧ (replace_all = false → n = 1)).

Lemma resolved_verdict m span label content replace_all att :
  resolved_as m span label content replace_all att → verdict replace_all att.
Proof.
  intros (n & lines' & _ & H). destruct (Nat.eqb_spec n 0) as [|Hn]; [by left|].
  destruct (negb replace_all && (1 <? n)) eqn:Hra.
  - destruct H as [shown ->]. right; left. eauto.
  - right; right. do 3 eexists. split; [exact H|]. split; [lia|]. intros ->.
    destruct (Nat.ltb_spec 1 n); [done|lia].
Qed.

Lemma replacer_verdict name replacer content old new replace_all :
  (name, replacer) ∈ REPLACERS → verdict replace_all (replacer content old new replace_all).
Proof.
  unfold REPLACERS. rewrite !elem_of_cons.
  intros [[= _ ->]|[[= _ ->]|[[= _ ->]|[[= _ ->]|[]%not_elem_of_nil]]]].
  - unfold exact_replace. destruct (find old content) as [n|] eqn:Hf; [right; right|by left].
    destruct replace_all; do 3 eexists; (split; [done|]); [|by auto].
    split; [|done]. destruct old as [|o old]; [cbn; lia|]. by eapply find_pos_count.
  - eapply resolved_verdict, whitespace_resolved.
  - eapply resolved_verdict, indentation_resolved.
  - unfold block_anchor_replace.
    repeat (destruct (_ <? _) || destruct (blank _ || _); [by left|]).
    destruct (sort_candidates _) as [|[[i j] q] rest]; [by left|].
    destruct (filter _ rest); [right; right|right; left; eauto].
    do 3 eexists. split; [done|]. auto.
Qed.

Lemma apply_edit_no_error content old new replace_all s :
  e_content (apply_edit content old new replace_all) = Some s →
  e_error (apply_edit content old new replace_all) = None.
Proof.
  unfold apply_edit. generalize REPLACERS as rs.
  induction rs as [|[name f] rs IH]; cbn; [done|].
  destruct (a_refusal _); [done|]. by destruct (a_content _).
Qed.

Lemma apply_edit_error content old new replace_all why :
  e_error (apply_edit content old new replace_all) = Some why →
  e_content (apply_edit content old new replace_all) = None.
Proof.
  unfold apply_edit. generalize REPLACERS as rs.
  induction rs as [|[name f] rs IH]; cbn; [done|].
  destruct (a_refusal _); [done|]. by destruct (a_content _).
Qed.

(** The cascade stops at the first strategy that has something to say.
    Its verdict is that of one strategy, all more precise ones having found
    nothing; a refusal ends it without an edit; without [replace_all] an edit
    is a single replacement, and no edit means that no strategy matched. *)
Theorem cascade_first_verdict (content old new : text) (replace_all : bool) :
  let e := apply_edit content old new replace_all in
  let att (r : strategy * (text → text → text → bool → Attempt)) :=
    r.2 content old new replace_all in
  (e = mkEditResult None None 0 None [] ∧ ∀ r, r ∈ REPLACERS → att r = NO_MATCH) ∨
  (∃ k r, REPLACERS !! k = Some r ∧ (∀ q, q ∈ take k REPLACERS → att q = NO_MATCH) ∧
     e_strategy e = Some r.1 ∧
     ((∃ why, a_refusal (att r) = Some why ∧ e_error e = Some why ∧ e_content e = None) ∨
      (∃ s, att r = mkAttempt (Some s) (a_count (att r)) None (a_note (att r)) ∧
         e_error e = None ∧ e_content e = Some s ∧ e_count e = a_count (att r) ∧
         0 < e_count e ∧ (replace_all = false → e_count e = 1)))).
Proof.
  intros e att. subst e. unfold apply_edit.
  assert (∀ r, r ∈ REPLACERS → verdict replace_all (att r)) as Hv.
  { intros [name f]. apply replacer_verdict. }
  revert Hv. generalize REPLACERS as rs. induction rs as [|[name f] rs IH]; intros Hv.
  { left. split; [done|]. intros r []%not_elem_of_nil. }
  cbn [run_cascade]. change (f content old new replace_all) with (att (name, f)).
  destruct (Hv (name, f)) as [Hno|[[why Hwhy]|(s & n & nt & Hs & Hpos & Hone)]]; [by left|..].
  - rewrite Hno. cbn.
    destruct IH as [[-> Hall]|(k & r & Hk & Hbefore & Hr)]; [intros; apply Hv; by right|..].
    + left. split; [done|]. intros r [->|Hr]%elem_of_cons; auto.
    + right. exists (S k), r. split_and!; [done| |by apply Hr..].
      intros q [->|Hq]%elem_of_cons; auto.
  - right. exists 0, (name, f). rewrite Hwhy. cbn. split_and!; [done|by intros q ?%not_elem_of_nil|done|].
    left. eauto.
  - right. exists 0, (name, f). rewrite Hs. cbn.
    split_and!; [done|by intros q ?%not_elem_of_nil|done|].
    right. exists s. auto 10.
Qed.
