(* ===== verification/FileEdit.v ===== *)
(** * Edit tools (core/tools/builtin/file_edit.py)

    [file_edit] and [multiedit] from the call to the reply, over the file
    system of [Atomic], any writer that keeps its contract (instance:
    [atomic_write]) and the matching of [EditMatch].
    The canonical path (or the refusal of [safe_write_path]) is an argument.
    The reply is a constructor per message; the diff and the logging are left
    out.  What happens outside the call between its two reads is the function
    [outside]. *)
From S2P Require Import Prelude PyStr Atomic EditMatch.

(** What a call meets: whether the lock stays taken, which system calls fail,
    what others do to the files before the second read, and the caps. *)
Record EditEnv := mkEditEnv {
  busy : bool;
  sniff_fails : bool;
  size_fails : bool;
  read_fails : bool;
  outside : FS → FS;
  reread_fails : bool;
  write_env : WriteEnv;
  max_write_size : nat;
  max_edit_read_size : nat
}.

Inductive reply :=
| NoChanges
| NoEdits
| NewStringTooLarge
| PathRefused
| TargetBusy
| Created (chars : nat)
| CreateFailed (e : WriteError)
| FileNotFound
| NotAFile
| BinaryFile
| TooLargeForEdit
| ReadFailed
| AmbiguousMatch (st : option strategy) (why : refusal)
| NotFound (hints : list nat)
| ResultTooLarge
| RereadFailed
| Stale
| WriteFailed (e : WriteError)
| Edited (st : option strategy) (count : nat) (notes : list note) (dropped : bool)
| EditRefused (i : nat) (st : option strategy) (why : refusal) (applied : nat)
| EditNotFound (i : nat) (applied : nat)
| AppliedEdits (applied replacements : nat) (sts : list strategy) (notes : list note)
    (dropped : bool).

(** [_is_binary]: a NUL in the first 512 bytes. *)
Definition is_binary (env : EditEnv) (n : Node) : bool :=
  if sniff_fails env then false else bool_decide (0%N ∈ take 512 (data n)).
Definition too_large_for_edit (env : EditEnv) (n : Node) : bool :=
  if size_fails env then false else max_edit_read_size env <? length (data n).

(** [_read_target]: undecodable bytes are replaced, line endings kept. *)
Definition read_target (fails : bool) (p : path) (fs : FS) : option text :=
  match fs !! p with
  | Some n => if fails then None
              else if decide (node_kind n = Regular) then Some (decode (data n)) else None
  | None => None
  end.

(** [_stale_read_error], on the file system as it is by then. *)
Definition stale_read_error (env : EditEnv) (p : path) (original : text) (now : FS)
    : option reply :=
  match read_target (reread_fails env) p now with
  | None => Some RereadFailed
  | Some current => if decide (current = original) then None else Some Stale
  end.

(** The lines shown under "Possible matches". *)
Definition possible_matches (content old : text) : list nat :=
  let old_first_line :=
    match old with [] => [] | _ => strip (default [] (head (split_lines old))) end in
  match old_first_line with
  | [] => []
  | _ => take 5 (omap id (imap (λ i line,
           if Q_lt BLOCK_ANCHOR_MIN_SIMILARITY (similarity (strip line) old_first_line)
           then Some (S i) else None) (split_lines content)))
  end.

Section tools.
Context {writer : TargetWriter}.

(** The re-read and the write, at the end of both tools.  [write_target] is
    [atomic_write], through the interface that states what it promises. *)
Definition replace_target (env : EditEnv) (p : path) (original new : text) (fs : FS)
    (ok : WriteOutcome → reply) : FS * reply :=
  let now := outside env fs in
  match stale_read_error env p original now with
  | Some r => (now, r)
  | None =>
      let '(trace, res) := write_target (write_env env) p new now in
      (final now trace, match res with Raise e => WriteFailed e | Ret written => ok written end)
  end.

Definition file_edit_locked (env : EditEnv) (p : path) (old_string new_string : text)
    (replace_all : bool) (fs : FS) : FS * reply :=
  match fs !! p with
  | None =>
      match old_string with
      | [] =>
          let '(trace, res) := write_target (write_env env) p new_string fs in
          (final fs trace,
           match res with Raise e => CreateFailed e | Ret _ => Created (length new_string) end)
      | _ => (fs, FileNotFound)
      end
  | Some n =>
      if decide (node_kind n ≠ Regular) then (fs, NotAFile) else
      if is_binary env n then (fs, BinaryFile) else
      if too_large_for_edit env n then (fs, TooLargeForEdit) else
      match read_target (read_fails env) p fs with
      | None => (fs, ReadFailed)
      | Some original =>
          let eol := detect_eol original in
          let original_normalized := normalize_eol original eol in
          let old_normalized := normalize_eol old_string eol in
          let new_normalized := normalize_eol new_string eol in
          let edit := apply_edit original_normalized old_normalized new_normalized replace_all in
          match e_error edit with
          | Some why => (fs, AmbiguousMatch (e_strategy edit) why)
          | None =>
              match e_content edit with
              | None => (fs, NotFound (possible_matches original_normalized old_normalized))
              | Some result =>
                  let result := restore_eol result eol in
                  if max_write_size env <? length result then (fs, ResultTooLarge)
                  else replace_target env p original result fs (λ written,
                    Edited (e_strategy edit) (e_count edit) (e_notes edit) (dropped_setuid written))
              end
          end
      end
  end.

Definition file_edit (env : EditEnv) (resolved : option path) (old_string new_string : text)
    (replace_all : bool) (fs : FS) : FS * reply :=
  if decide (old_string = new_string) then (fs, NoChanges) else
  if max_write_size env <? length new_string then (fs, NewStringTooLarge) else
  match resolved with
  | None => (fs, PathRefused)
  | Some p =>
      if busy env then (fs, TargetBusy)
      else file_edit_locked env p old_string new_string replace_all fs
  end.

(** ** Batches *)
Record EditSpec := mkEditSpec {
  old_string : text;
  new_string : text;
  replace_all : bool
}.

(** The locals of the loop. *)
Record Batch := mkBatch {
  content : text;
  applied : nat;
  replacements : nat;
  strategies : list strategy;
  notes : list note
}.

Fixpoint run_edits (eol : text) (i : nat) (edits : list EditSpec) (b : Batch) : result reply Batch :=
  match edits with
  | [] => Ret b
  | spec :: edits =>
      if decide (old_string spec = new_string spec) then run_edits eol (S i) edits b else
      let old_str := normalize_eol (old_string spec) eol in
      let new_str := normalize_eol (new_string spec) eol in
      let edit := apply_edit (content b) old_str new_str (replace_all spec) in
      match e_error edit with
      | Some why => Raise (EditRefused (i + 1) (e_strategy edit) why (applied b))
      | None =>
          match e_content edit with
          | None => Raise (EditNotFound (i + 1) (applied b))
          | Some c =>
              run_edits eol (S i) edits
                (mkBatch c (applied b + 1) (replacements b + e_count edit)
                   (strategies b ++ option_list (e_strategy edit))
                   (notes b ++ (InEdit (i + 1) <$> e_notes edit)))
          end
      end
  end.

Definition multiedit_locked (env : EditEnv) (p : path) (edits : list EditSpec) (fs : FS)
    : FS * reply :=
  match fs !! p with
  | None => (fs, FileNotFound)
  | Some n =>
      if decide (node_kind n ≠ Regular) then (fs, FileNotFound) else
      if is_binary env n then (fs, BinaryFile) else
      if too_large_for_edit env n then (fs, TooLargeForEdit) else
      match read_target (read_fails env) p fs with
      | None => (fs, ReadFailed)
      | Some raw =>
          let eol := detect_eol raw in
          let original := normalize_eol raw eol in
          match run_edits eol 0 edits (mkBatch original 0 0 [] []) with
          | Raise r => (fs, r)
          | Ret b =>
              if decide (content b = original) then (fs, NoChanges) else
              if max_write_size env <? length (content b) then (fs, ResultTooLarge) else
              replace_target env p raw (restore_eol (content b) eol) fs (λ written,
                AppliedEdits (applied b) (replacements b) (strategies b) (notes b)
                  (dropped_setuid written))
          end
      end
  end.

Definition multiedit (env : EditEnv) (resolved : option path) (edits : list EditSpec) (fs : FS)
    : FS * reply :=
  match edits with
  | [] => (fs, NoEdits)
  | _ =>
      match resolved with
      | None => (fs, PathRefused)
      | Some p => if busy env then (fs, TargetBusy) else multiedit_locked env p edits fs
      end
  end.

(** ** What the tools promise *)

(** The file system after a replacement of [p]: new content, same mode. *)
Definition replaced (stat_fails : bool) (p : path) (b : bytes) (before after : FS) (dropped : bool)
    : Prop :=
  ∃ m, after = <[p := mkNode Regular m b]> before ∧ N.testbit m 11 = false ∧
    (stat_fails = false → ∀ n, before !! p = Some n → node_kind n = Regular →
       dropped = N.testbit (mode n) 11 ∧ ∀ i, i ≠ 11%N → N.testbit m i = N.testbit (mode n) i).

(** A write that fails leaves [p]; if the temporary file can go, everything. *)
Definition kept (unlink_ok : bool) (p : path) (before after : FS) : Prop :=
  after !! p = before !! p ∧ (unlink_ok = true → after = before).

Lemma write_replaces env p s fs :
  match write_target env p s fs with
  | (trace, Ret out) =>
      ∃ b, encode s = Some b ∧
        replaced (we_stat_fails env) p b fs (final fs trace) (dropped_setuid out)
  | (trace, Raise _) => kept (we_unlink_ok env) p fs (final fs trace)
  end.
Proof.
  pose proof (write_target_ok env p s fs) as [_ H].
  destruct (write_target env p s fs) as [trace [out|e]]; cbn in H; [|done].
  destruct H as (b & Hb & Hfin & Hsuid & Hmode). exists b. split; [done|].
  exists (out_mode out). split_and!; [done|done|]. intros Hstat n Hn Hreg.
  specialize (Hmode Hstat). rewrite Hn in Hmode. by destruct (Hmode Hreg) as (_ & ? & ?).
Qed.

(** The end of both tools: refused with the other change in place, failed, or
    written over exactly the text that was read. *)
Lemma replace_target_outcome env p original s fs ok :
  let '(fs', r) := replace_target env p original s fs ok in
  let now := outside env fs in
  (fs' = now ∧ (r = RereadFailed ∨ r = Stale ∧
     ∃ other, read_target (reread_fails env) p now = Some other ∧ other ≠ original)) ∨
  (∃ e, r = WriteFailed e ∧ kept (we_unlink_ok (write_env env)) p now fs') ∨
  (∃ b out, r = ok out ∧ encode s = Some b ∧
     read_target (reread_fails env) p now = Some original ∧
     replaced (we_stat_fails (write_env env)) p b now fs' (dropped_setuid out)).
Proof.
  unfold replace_target, stale_read_error. cbv zeta.
  destruct (read_target (reread_fails env) p (outside env fs)) as [cur|] eqn:Hr; [|by auto].
  case_decide as Hcur; [|left; eauto 6].
  pose proof (write_replaces (write_env env) p s (outside env fs)) as H.
  destruct (write_target _ _ _ _) as [trace [out|e]]; right; [right|left; by eauto].
  destruct H as (b & ? & ?). exists b, out. subst. done.
Qed.

Definition edited_text (original old new : text) (replace_all : bool) : option text :=
  let eol := detect_eol original in
  (λ s, restore_eol s eol) <$>
    e_content (apply_edit (normalize_eol original eol) (normalize_eol old eol)
                 (normalize_eol new eol) replace_all).

(** [text] was the content of [p], in a regular file. *)
Definition holds (fs : FS) (p : path) (s : text) : Prop :=
  ∃ n, fs !! p = Some n ∧ node_kind n = Regular ∧ decode (data n) = s.

Lemma read_target_holds fails p fs s : read_target fails p fs = Some s → holds fs p s.
Proof.
  unfold read_target. destruct (fs !! p) as [n|] eqn:Hn; [|done].
  destruct fails; [done|]. case_decide; [|done]. intros [= <-]. by exists n.
Qed.

(** A target was rewritten from [original] to [s], nobody having changed it
    in between. *)
Definition rewrote (env : EditEnv) (p : path) (original s : text) (fs fs' : FS) (dropped : bool)
    : Prop :=
  holds fs p original ∧ holds (outside env fs) p original ∧
  ∃ b, encode s = Some b ∧
    replaced (we_stat_fails (write_env env)) p b (outside env fs) fs' dropped.

(** What both tools do when they do not rewrite. *)
Definition left_alone (env : EditEnv) (p : path) (r : reply) (fs fs' : FS) : Prop :=
  match r with
  | Stale | RereadFailed => fs' = outside env fs
  | WriteFailed _ => kept (we_unlink_ok (write_env env)) p (outside env fs) fs'
  | CreateFailed _ => kept (we_unlink_ok (write_env env)) p fs fs'
  | Created _ | Edited _ _ _ _ | AppliedEdits _ _ _ _ _ => False
  | _ => fs' = fs
  end.

Lemma replace_target_rewrote env p original s fs ok :
  holds fs p original →
  let '(fs', r) := replace_target env p original s fs ok in
  (left_alone env p r fs fs' ∧ (r = Stale ∨ r = RereadFailed ∨ ∃ e, r = WriteFailed e)) ∨
  ∃ out, r = ok out ∧ rewrote env p original s fs fs' (dropped_setuid out).
Proof.
  intros Hold. pose proof (replace_target_outcome env p original s fs ok) as H.
  destruct (replace_target _ _ _ _ _ _) as [fs' r]. cbv zeta in H.
  destruct H as [(-> & [->|[-> _]])|[(e & -> & Hk)|(b & out & -> & Hb & Hr & Hrep)]];
    [by left; split; [|eauto]..|].
  right. exists out. split; [done|]. split_and!; [done|by eapply read_target_holds|eauto].
Qed.

Lemma file_edit_locked_cases env p old new ra fs :
  let '(fs', r) := file_edit_locked env p old new ra fs in
  left_alone env p r fs fs' ∨
  (∃ st n notes dropped original s, r = Edited st n notes dropped ∧
     edited_text original old new ra = Some s ∧ length s ≤ max_write_size env ∧
     rewrote env p original s fs fs' dropped) ∨
  (∃ b, r = Created (length new) ∧ fs !! p = None ∧ old = [] ∧ encode new = Some b ∧
     (we_stat_fails (write_env env) = false → fs' = <[p := mkNode Regular NEW_FILE_MODE b]> fs)).
Proof.
  unfold file_edit_locked. destruct (fs !! p) as [n|] eqn:Hn.
  2: { destruct old as [|c old]; [|by left].
       pose proof (write_target_ok (write_env env) p new fs) as [_ Hw].
       destruct (write_target _ _ _ _) as [trace [out|e]]; cbn [fst snd] in Hw; [|by left].
       destruct Hw as (b & Hb & Hfin & _ & Hout). right; right. exists b. split_and!; try done.
       intros Hst. rewrite Hn in Hout. by rewrite Hfin, (Hout Hst). }
  case_decide; [by left|]. destruct (is_binary env n); [by left|].
  destruct (too_large_for_edit env n); [by left|].
  destruct (read_target (read_fails env) p fs) as [original|] eqn:Hread; [|by left].
  apply read_target_holds in Hread. cbv zeta.
  pose proof (eq_refl (edited_text original old new ra)) as Htext. unfold edited_text in Htext at 2.
  set (edit := apply_edit _ _ _ _) in *. destruct (e_error edit); [by left|].
  destruct (e_content edit) as [result|]; [|by left]. cbn in Htext.
  set (s := restore_eol _ _) in *.
  destruct (Nat.ltb_spec (max_write_size env) (length s)) as [|Hcap]; [by left|].
  set (ok := λ written, _).
  pose proof (replace_target_rewrote env p original s fs ok Hread) as Hrt.
  destruct (replace_target _ _ _ _ _ _) as [fs' r].
  destruct Hrt as [[? _]|(out & -> & Hrw)]; [by left|]. right; left. do 6 eexists. done.
Qed.

(** C11: [file_edit] does what its reply says.  "Edited": the target held a
    text, still held it when it was read again, and now holds the encoding of
    that text with its line ending normalised, the cascade's edit made and the
    line ending put back, within the size cap, at the mode it had.  "Created":
    there was no file and the new one holds [new_string] at 0600.  Any other
    reply left the target alone, an outside change included. *)
Theorem file_edit_outcome (env : EditEnv) (resolved : option path) (old new : text)
    (ra : bool) (fs : FS) :
  let '(fs', r) := file_edit env resolved old new ra fs in
  match r with
  | Edited _ _ _ dropped =>
      ∃ p original s, resolved = Some p ∧ edited_text original old new ra = Some s ∧
        length s ≤ max_write_size env ∧ rewrote env p original s fs fs' dropped
  | Created n =>
      ∃ p b, resolved = Some p ∧ fs !! p = None ∧ old = [] ∧ n = length new ∧
        encode new = Some b ∧
        (we_stat_fails (write_env env) = false →
         fs' = <[p := mkNode Regular NEW_FILE_MODE b]> fs)
  | _ => match resolved with
         | Some p => left_alone env p r fs fs'
         | None => fs' = fs
         end
  end.
Proof.
  unfold file_edit. case_decide; [by destruct resolved|]. destruct (_ <? _); [by destruct resolved|].
  destruct resolved as [p|]; [|done]. destruct (busy env); [done|].
  pose proof (file_edit_locked_cases env p old new ra fs) as Hcases.
  destruct (file_edit_locked _ _ _ _ _ _) as [fs' r].
  destruct Hcases as [Hleft|[(st & n & nts & dr & original & s & -> & Hed)|(b & -> & Hcr)]].
  - by destruct r.
  - by exists p, original, s.
  - exists p, b. naive_solver.
Qed.

(** An edit that can be made is made.  With the lock free, a text file
    within the caps that others leave alone, an edit for which the cascade has
    a result that fits and encodes, and system calls that work, [file_edit]
    replies "Edited" with the cascade's count. *)
Theorem file_edit_succeeds (env : EditEnv) (p : path) (old new : text) (ra : bool) (fs : FS)
    (n : Node) (s : text)
    (calm : busy env = false ∧ read_fails env = false ∧ reread_fails env = false ∧
            outside env fs = fs ∧ we_fail (write_env env) = None ∧
            fs !! temp_path (we_rand (write_env env)) p = None)
    (file : fs !! p = Some n ∧ node_kind n = Regular ∧ (0%N ∉ take 512 (data n)) ∧
            length (data n) ≤ max_edit_read_size env)
    (edit : old ≠ new ∧ length new ≤ max_write_size env ∧
            edited_text (decode (data n)) old new ra = Some s ∧
            length s ≤ max_write_size env ∧ is_Some (encode s)) :
  ∃ st count notes dropped, (file_edit env (Some p) old new ra fs).2 = Edited st count notes dropped.
Proof.
  destruct calm as (Hbusy & Hread & Hreread & Hout & Hfail & Htmp).
  destruct file as (Hn & Hreg & Hnul & Hsize). destruct edit as (Hne & Hnew & Hs & Hcap & [b Hb]).
  unfold file_edit. rewrite decide_False by done.
  rewrite (proj2 (Nat.ltb_ge _ _) Hnew), Hbusy. unfold file_edit_locked. rewrite Hn.
  rewrite decide_False by (intros Hx; by apply Hx).
  assert (is_binary env n = false) as ->.
  { unfold is_binary. destruct (sniff_fails env); [done|]. by apply bool_decide_eq_false. }
  assert (too_large_for_edit env n = false) as ->.
  { unfold too_large_for_edit. destruct (size_fails env); [done|]. by apply Nat.ltb_ge. }
  assert (read_target false p fs = Some (decode (data n))) as Hr.
  { unfold read_target. by rewrite Hn, decide_True. }
  rewrite Hread, Hr. unfold edited_text in Hs. cbv zeta in Hs |- *.
  set (e := apply_edit _ _ _ _) in *.
  destruct (e_content e) as [result|] eqn:Hres; [|done]. cbn in Hs.
  rewrite (apply_edit_no_error _ _ _ _ _ Hres : e_error e = None). injection Hs as Hs. rewrite Hs.
  rewrite (proj2 (Nat.ltb_ge _ _) Hcap). unfold replace_target, stale_read_error.
  rewrite Hout, Hreread, Hr, decide_True by done.
  destruct (write_target_returns (write_env env) p s fs n b) as (trace & out & ->); eauto 6.
Qed.

End tools.

(** A quiet environment with room for small files, and a file [/w/a.py]. *)
Definition quiet : EditEnv :=
  mkEditEnv false false false false id false (mkWriteEnv false "r" 0 None true) 100 100.
Definition a_py : path := ("/w", "a.py")%string.
Definition holding (b : bytes) : FS := {[ a_py := mkNode Regular 493 b ]}.

Lemma file_edit_succeeds_witness :
  ∃ st count notes dropped,
    (file_edit quiet (Some a_py) (t "x") (t "y") false (holding (t "x = 1"))).2
    = Edited st count notes dropped.
Proof.
  apply (file_edit_succeeds quiet a_py (t "x") (t "y") false (holding (t "x = 1"))
           (mkNode Regular 493 (t "x = 1")) (t "y = 1")).
  - by split_and!.
  - split_and!; [done|done| |cbn; lia]. apply (bool_decide_eq_false_1 (0%N ∈ _)). by vm_compute.
  - split_and!; [done|cbn; lia|by vm_compute|cbn; lia|by eexists].
Defined.

(** *** Batches *)
Section batches.
Context {writer : TargetWriter}.

Definition effective (spec : EditSpec) : bool := bool_decide (old_string spec ≠ new_string spec).

(** The reference for the loop: the edits that change something, in order. *)
Definition edit_step (eol : text) (acc : option text) (spec : EditSpec) : option text :=
  s ← acc;
  if effective spec then
    e_content (apply_edit s (normalize_eol (old_string spec) eol)
                 (normalize_eol (new_string spec) eol) (replace_all spec))
  else Some s.
Definition batch_text (raw : text) (edits : list EditSpec) : option text :=
  let eol := detect_eol raw in
  foldl (edit_step eol) (Some (normalize_eol raw eol)) edits.

Lemma edit_step_Some eol s spec :
  edit_step eol (Some s) spec =
  if effective spec then
    e_content (apply_edit s (normalize_eol (old_string spec) eol)
                 (normalize_eol (new_string spec) eol) (replace_all spec))
  else Some s.
Proof. done. Qed.

Lemma foldl_edit_step_None eol edits : foldl (edit_step eol) None edits = None.
Proof. by induction edits. Qed.

Lemma run_edits_spec eol edits i b :
  match run_edits eol i edits b with
  | Ret b' => foldl (edit_step eol) (Some (content b)) edits = Some (content b') ∧
              applied b' = applied b + length (filter (λ s, effective s = true) edits)
  | Raise r => foldl (edit_step eol) (Some (content b)) edits = None ∧
               ∃ j n, j < i + length edits ∧
                 ((∃ st why, r = EditRefused (j + 1) st why n) ∨ r = EditNotFound (j + 1) n)
  end.
Proof.
  revert i b. induction edits as [|spec edits IH]; intros i b; [cbn; auto with lia|].
  cbn [run_edits foldl]. rewrite edit_step_Some.
  destruct (decide (old_string spec = new_string spec)) as [Heq|Hne].
  - assert (effective spec = false) as Heff by (apply bool_decide_eq_false; by intros []).
    rewrite Heff, filter_cons_False by (by rewrite Heff).
    specialize (IH (S i) b). destruct (run_edits _ _ _ _) as [b'|r]; [done|].
    destruct IH as [? (j & n & ? & ?)]. split; [done|]. exists j, n. split; [cbn; lia|done].
  - assert (effective spec = true) as Heff by (by apply bool_decide_eq_true).
    rewrite Heff, filter_cons_True by done.
    set (e := apply_edit _ _ _ _). destruct (e_error e) as [why|] eqn:He.
    { rewrite (apply_edit_error _ _ _ _ _ He : e_content e = None), foldl_edit_step_None.
      split; [done|]. exists i, (applied b). split; [cbn; lia|eauto]. }
    destruct (e_content e) as [c|] eqn:Hc.
    2: { rewrite foldl_edit_step_None. split; [done|]. exists i, (applied b).
         split; [cbn; lia|auto]. }
    match goal with |- context [run_edits eol (S i) edits ?x] => specialize (IH (S i) x) end.
    destruct (run_edits _ _ _ _) as [b'|r]; cbn [content applied] in IH.
    + destruct IH as [? ->]. split; [done|]. cbn. lia.
    + destruct IH as [? (j & n & ? & ?)]. split; [done|]. exists j, n. split; [cbn; lia|done].
Qed.

(** A batch is all or nothing.  "Applied": the target held a text, still
    held it at the second read, and was written once, with the result of
    making every edit that changes something on the result of the one before
    it; their number is reported.  If one of them is refused or not found, or
    anything else goes wrong, nothing was written. *)
Theorem multiedit_outcome (env : EditEnv) (resolved : option path) (edits : list EditSpec)
    (fs : FS) :
  let '(fs', r) := multiedit env resolved edits fs in
  match r with
  | AppliedEdits n _ _ _ dropped =>
      ∃ p raw s, resolved = Some p ∧ batch_text raw edits = Some s ∧
        n = length (filter (λ s, effective s = true) edits) ∧
        s ≠ normalize_eol raw (detect_eol raw) ∧ length s ≤ max_write_size env ∧
        rewrote env p raw (restore_eol s (detect_eol raw)) fs fs' dropped
  | EditRefused i _ _ _ | EditNotFound i _ =>
      fs' = fs ∧ 0 < i ≤ length edits ∧
      ∃ p raw, resolved = Some p ∧ holds fs p raw ∧ batch_text raw edits = None
  | _ => match resolved with
         | Some p => left_alone env p r fs fs'
         | None => fs' = fs
         end
  end.
Proof.
  unfold multiedit. destruct edits as [|spec0 edits0] eqn:Hedits; [by destruct resolved|].
  rewrite <-Hedits. clear Hedits spec0 edits0.
  destruct resolved as [p|]; [|done]. destruct (busy env); [done|].
  unfold multiedit_locked. destruct (fs !! p) as [n|]; [|done].
  case_decide; [done|]. destruct (is_binary env n); [done|].
  destruct (too_large_for_edit env n); [done|].
  destruct (read_target (read_fails env) p fs) as [raw|] eqn:Hread; [|done].
  apply read_target_holds in Hread. cbv zeta.
  pose proof (run_edits_spec (detect_eol raw) edits 0
    (mkBatch (normalize_eol raw (detect_eol raw)) 0 0 [] [])) as Hrun.
  fold (batch_text raw edits) in Hrun. cbn [content applied] in Hrun.
  destruct (run_edits _ _ _ _) as [b|r]; destruct Hrun as [Htext Hrun].
  2: { destruct Hrun as (j & m & Hj & [(st & why & ->)| ->]);
         (split; [done|]; split; [cbn in Hj; lia|]; by exists p, raw). }
  case_decide as Hsame; [done|].
  destruct (Nat.ltb_spec (max_write_size env) (length (content b))) as [|Hcap]; [done|].
  set (ok := λ written, _).
  pose proof (replace_target_rewrote env p raw (restore_eol (content b) (detect_eol raw)) fs ok Hread)
    as Hrt.
  destruct (replace_target _ _ _ _ _ _) as [fs' r].
  destruct Hrt as [[? [->|[->|[e ->]]]]|(out & -> & Hrw)]; [done..|]. by exists p, raw, (content b).
Qed.

End batches.

(** *** What the modelling showed *)

(** An edit rewrites bytes it was not asked to touch.  In a Latin-1 file,
    replacing the [x] of the second line also replaces the byte 0xE9 of the
    first by the three bytes of U+FFFD. *)
Theorem edit_loses_undecodable_bytes :
  file_edit quiet (Some a_py) (t "x") (t "y") false (holding [99; 233; 10; 120; 10]%N) =
  (holding [99; 239; 191; 189; 10; 121; 10]%N, Edited (Some Exact) 1 [] false).
Proof. by vm_compute. Qed.

(** The two tools do not enforce the same cap.  [multiedit] measures the
    text before the line endings are put back: on a CRLF file it writes 4
    characters under a cap of 3, which [file_edit] refuses for the same edit. *)
Theorem multiedit_cap_ignores_eol :
  let env := mkEditEnv false false false false id false (mkWriteEnv false "r" 0 None true) 3 100 in
  let fs := holding (t "x" ++ [CR; NL])%list in
  multiedit env (Some a_py) [mkEditSpec (t "x") (t "yy") false] fs =
  (holding (t "yy" ++ [CR; NL])%list, AppliedEdits 1 1 [Exact] [] false) ∧
  file_edit env (Some a_py) (t "x") (t "yy") false fs = (fs, ResultTooLarge).
Proof. split; by vm_compute. Qed.
