(* ===== verification/Compaction.v ===== *)
(** * Compaction (core/context/compaction.py)

    Phase 2, [exclude_orphans] with [repair_unanswered_tool_calls]; phase 1,
    [apply_view_pruning]; phase 3, [compact_with_llm] with its boundary, its
    grouping and chunking, its quality gates and the marker it appends.  A
    message's tool calls are the dicts its column parses to.  Token counts,
    the rendering of a call's arguments and the summarizer are parameters. *)
From stdpp Require Import pretty sorting.
From S2P Require Import Prelude PyStr.
#[local] Open Scope Z_scope.

Inductive role :=
| User | Assistant | Tool | System
| CompactionMarker | Scout | Notice | Reflect | ModelDivider | Eval.
#[export] Instance role_eq_dec : EqDecision role.
Proof. solve_decision. Defined.
Definition role_text (r : role) : text :=
  t match r with
    | User => "user" | Assistant => "assistant" | Tool => "tool" | System => "system"
    | CompactionMarker => "compaction" | Scout => "scout" | Notice => "notice"
    | Reflect => "reflect" | ModelDivider => "model_divider" | Eval => "eval"
    end.

Record ToolCall := mkToolCall {
  call_id : string;
  call_name : text;
  arguments : text;
  rejected : bool
}.
#[export] Instance ToolCall_eq_dec : EqDecision ToolCall.
Proof. solve_decision. Defined.

(** A row; [up_to] is the boundary in a marker's metadata, if it parses. *)
Record Message := mkMessage {
  msg_id : option Z;
  msg_role : role;
  msg_content : text;
  tool_calls : list ToolCall;
  tool_call_id : string;
  view_pruned : bool;
  up_to : option Z
}.
#[export] Instance Message_eq_dec : EqDecision Message.
Proof. solve_decision. Defined.
#[export] Instance Message_settable : Settable Message := λ m,
  mkMessage (msg_id m) (msg_role m) (msg_content m) (tool_calls m) (tool_call_id m)
    (view_pruned m) (up_to m).

Definition is_tool (m : Message) : bool := bool_decide (msg_role m = Tool).
Definition calls_of (m : Message) : list ToolCall :=
  if decide (msg_role m = Assistant) then tool_calls m else [].


(** ** View pruning *)
Definition prune_stub (m : Message) : text :=
  let preview := replace [NL] [SP] (take 80 (msg_content m)) in
  let where_ := match msg_id m with
                | Some mid => t " " ++ [183%N] ++ t (" msg " +:+ pretty mid +:+ ", session_read(" +:+ pretty mid
                                 +:+ ") for the full result")
                | None => []
                end in
  t "[pruned " ++ EM_DASH ++ t (" " +:+ pretty (length (msg_content m)) +:+ " chars") ++ where_ ++ t "] " ++ preview
  ++ t "...".

Definition apply_view_pruning (keep_recent min_chars : nat) (messages : list Message)
    : list Message :=
  if (length messages <=? keep_recent)%nat then messages else
  let cutoff := (length messages - keep_recent)%nat in
  imap (λ i m,
    if ((i <? cutoff)%nat && is_tool m && (min_chars <? length (msg_content m))%nat)%bool
    then m <| msg_content := prune_stub m |> <| view_pruned := true |>
    else m) messages.

(** ** Orphans *)
Definition ABORTED_CALL_STUB : text :=
  t "Error: tool call aborted before it returned " ++ EM_DASH ++ t " no result was recorded.".

Definition valid_ids (messages : list Message) : list string :=
  messages ≫= λ m, call_id <$> calls_of m.
Definition orphan (valid : list string) (m : Message) : bool :=
  is_tool m && negb (bool_decide (tool_call_id m = "")) &&
  negb (bool_decide (tool_call_id m ∈ valid)).

Definition answered_ids (messages : list Message) : list string :=
  tool_call_id <$> filter (λ m, is_tool m = true ∧ tool_call_id m ≠ "") messages.

Definition stub (m : Message) (tcid : string) : Message :=
  mkMessage (msg_id m) Tool ABORTED_CALL_STUB [] tcid false None.
(** The stubs an assistant row is owed. *)
Definition missing_stubs (answered : list string) (m : Message) : list Message :=
  stub m <$> filter (λ i, i ≠ "" ∧ i ∉ answered) (call_id <$> calls_of m).

(** The walk of [repair_unanswered_tool_calls]: [owed] are the stubs of the
    assistant row passed last, placed after the results that follow it. *)
Fixpoint repair_from (answered : list string) (owed : list Message) (messages : list Message)
    : list Message :=
  match messages with
  | [] => owed
  | m :: messages =>
      match owed with
      | [] => m :: repair_from answered (missing_stubs answered m) messages
      | _ =>
          if is_tool m then m :: repair_from answered owed messages
          else owed ++ m :: repair_from answered (missing_stubs answered m) messages
      end
  end.
Definition repair_unanswered_tool_calls (messages : list Message) : list Message :=
  repair_from (answered_ids messages) [] messages.

Definition exclude_orphans (messages : list Message) : list Message :=
  let valid := valid_ids messages in
  repair_unanswered_tool_calls (filter (λ m, orphan valid m = false) messages).

(** *** Every call is answered and every answer has its call *)
Lemma missing_stubs_tool answered m : is_tool m = true → missing_stubs answered m = [].
Proof.
  intros Ht%bool_decide_eq_true. unfold missing_stubs, calls_of. by rewrite decide_False by congruence.
Qed.

Lemma elem_of_repair answered owed ms x :
  x ∈ repair_from answered owed ms ↔
  x ∈ owed ∨ x ∈ ms ∨ ∃ m, m ∈ ms ∧ x ∈ missing_stubs answered m.
Proof.
  assert (∀ P : Message → Prop, ∀ m ms,
    (∃ y, y ∈ m :: ms ∧ P y) ↔ P m ∨ ∃ y, y ∈ ms ∧ P y) as Hex.
  { intros P m l. setoid_rewrite elem_of_cons. naive_solver. }
  revert owed. induction ms as [|m ms IH]; intros owed; cbn [repair_from].
  - pose proof (not_elem_of_nil (A:=Message)). naive_solver.
  - rewrite Hex, (elem_of_cons ms x m). destruct owed as [|o owed]; [|destruct (is_tool m) eqn:Ht].
    + rewrite (elem_of_cons (repair_from _ _ _)), IH. pose proof (not_elem_of_nil x). tauto.
    + rewrite (elem_of_cons (repair_from _ _ _)), IH, (missing_stubs_tool _ _ Ht).
      pose proof (not_elem_of_nil x). tauto.
    + rewrite elem_of_app, (elem_of_cons (repair_from _ _ _)), IH. tauto.
Qed.

Lemma repair_keeps answered owed ms : sublist ms (repair_from answered owed ms).
Proof.
  revert owed. induction ms as [|m ms IH]; intros owed; cbn [repair_from].
  - apply sublist_nil_l.
  - destruct owed as [|o owed]; [|destruct (is_tool m)]; [by constructor..|].
    apply sublist_app_r. exists [], (m :: ms). split; [done|].
    split; [apply sublist_nil_l|by constructor].
Qed.

Lemma repair_nothing answered ms :
  (∀ m, m ∈ ms → missing_stubs answered m = []) → repair_from answered [] ms = ms.
Proof.
  induction ms as [|m ms IH]; intros H; [done|]. cbn [repair_from].
  rewrite (H m) by left. rewrite IH; [done|]. intros. apply H. by right.
Qed.

Lemma elem_of_stubs answered m x :
  x ∈ missing_stubs answered m ↔
  ∃ c, c ∈ calls_of m ∧ call_id c ≠ "" ∧ (call_id c ∉ answered) ∧ x = stub m (call_id c).
Proof.
  unfold missing_stubs. rewrite list_elem_of_fmap. split.
  - intros (i & -> & [[? ?] (c & -> & ?)%list_elem_of_fmap]%list_elem_of_filter). eauto.
  - intros (c & ? & ? & ? & ->). exists (call_id c). split; [done|].
    apply list_elem_of_filter. split; [done|]. apply list_elem_of_fmap. eauto.
Qed.

Lemma elem_of_answered ms i :
  i ∈ answered_ids ms ↔ i ≠ "" ∧ ∃ m, m ∈ ms ∧ is_tool m = true ∧ tool_call_id m = i.
Proof.
  unfold answered_ids. rewrite list_elem_of_fmap. split.
  - intros (m & -> & [[? ?] ?]%list_elem_of_filter). eauto.
  - intros (? & m & ? & ? & <-). exists m. split; [done|]. by apply list_elem_of_filter.
Qed.
Lemma elem_of_valid ms i : i ∈ valid_ids ms ↔ ∃ m c, m ∈ ms ∧ c ∈ calls_of m ∧ call_id c = i.
Proof.
  unfold valid_ids. rewrite list_elem_of_bind. split.
  - intros (m & (c & -> & ?)%list_elem_of_fmap & ?). eauto.
  - intros (m & c & ? & ? & <-). exists m. rewrite list_elem_of_fmap. eauto.
Qed.
Lemma orphan_spec valid m :
  orphan valid m = true ↔ is_tool m = true ∧ tool_call_id m ≠ "" ∧ tool_call_id m ∉ valid.
Proof.
  unfold orphan. rewrite !andb_true_iff, !negb_true_iff, !bool_decide_eq_false. tauto.
Qed.

(** A transcript a provider accepts: calls and results pair up by id. *)
Definition paired (ms : list Message) : Prop :=
  (∀ a c, a ∈ ms → c ∈ calls_of a → call_id c ≠ "" →
     ∃ m, m ∈ ms ∧ is_tool m = true ∧ tool_call_id m = call_id c) ∧
  (∀ m, m ∈ ms → is_tool m = true → tool_call_id m ≠ "" → tool_call_id m ∈ valid_ids ms).

Lemma paired_fixed ms : paired ms → exclude_orphans ms = ms.
Proof.
  intros [Hcall Hres]. unfold exclude_orphans, repair_unanswered_tool_calls.
  assert (filter (λ m, orphan (valid_ids ms) m = false) ms = ms) as ->.
  { apply filter_all. intros m Hm. apply not_true_iff_false. rewrite orphan_spec. naive_solver. }
  apply repair_nothing. intros m Hm. destruct (missing_stubs _ m) as [|x l] eqn:Hs; [done|].
  assert (x ∈ missing_stubs (answered_ids ms) m) as Hx by (rewrite Hs; left).
  apply elem_of_stubs in Hx as (c & Hc & Hne & Hno & _). destruct Hno.
  apply elem_of_answered. split; [done|]. destruct (Hcall m c) as (r & ? & ? & ?); eauto.
Qed.

(** What is sent pairs up.  [exclude_orphans] keeps, in order, every row
    that is not a result without its call, adds nothing but stubs for calls
    that never got a result, and leaves a transcript in which every call has
    a result and every result a call; a transcript already like that is not
    changed. *)
Theorem exclude_orphans_pairs (ms : list Message) :
  let out := exclude_orphans ms in
  let kept := filter (λ m, orphan (valid_ids ms) m = false) ms in
  paired out ∧ sublist kept out ∧
  (∀ x, x ∈ out → x ∈ kept ∨
     ∃ a c, a ∈ kept ∧ c ∈ calls_of a ∧ x = stub a (call_id c) ∧
       ∀ m, m ∈ ms → is_tool m = true → tool_call_id m ≠ call_id c) ∧
  (paired ms → out = ms) ∧ exclude_orphans out = out.
Proof.
  intros out kept.
  assert (∀ x, x ∈ out ↔ x ∈ kept ∨ ∃ a c, a ∈ kept ∧ c ∈ calls_of a ∧ call_id c ≠ "" ∧
    (call_id c ∉ answered_ids kept) ∧ x = stub a (call_id c)) as Hout.
  { intros x. unfold out, exclude_orphans, repair_unanswered_tool_calls. fold kept.
    rewrite elem_of_repair. setoid_rewrite elem_of_stubs. pose proof (not_elem_of_nil x).
    naive_solver. }
  assert (∀ m, m ∈ kept ↔ orphan (valid_ids ms) m = false ∧ m ∈ ms) as Hkept
    by (intros m; unfold kept; by rewrite list_elem_of_filter).
  assert (∀ a c, a ∈ ms → c ∈ calls_of a → a ∈ kept) as Hcaller.
  { intros a c Ha Hc. apply Hkept. split; [|done]. unfold orphan, is_tool, calls_of in *.
    case_decide as Hr; [|by apply not_elem_of_nil in Hc]. by rewrite Hr. }
  assert (∀ i, i ∈ valid_ids ms → i ∈ valid_ids out) as Hvalid.
  { intros i (a & c & Ha & Hc & <-)%elem_of_valid. apply elem_of_valid. exists a, c.
    split; [|done]. apply Hout. left. by eapply Hcaller. }
  assert (paired out) as Hpaired.
  { split.
    - intros a c Ha Hc Hne. apply Hout in Ha as [Ha|(a' & c' & _ & _ & _ & _ & ->)].
      2: { by apply not_elem_of_nil in Hc. }
      destruct (decide (call_id c ∈ answered_ids kept)) as [(_ & m & Hm & ? & ?)%elem_of_answered|Hno].
      + exists m. split; [apply Hout; by left|done].
      + exists (stub a (call_id c)). split; [apply Hout; right; by exists a, c|done].
    - intros m Hm Ht Hne. apply Hvalid. apply Hout in Hm as [Hm|(a & c & Ha & Hc & _ & _ & ->)].
      + apply Hkept in Hm as [Ho _]. apply dec_stable. intros Hno.
        apply not_true_iff_false in Ho. apply Ho. by rewrite orphan_spec.
      + apply elem_of_valid. exists a, c. by apply Hkept in Ha as [_ ?]. }
  split_and!; [done|apply repair_keeps| | |by apply paired_fixed].
  - intros x [?|(a & c & Ha & Hc & Hne & Hno & ->)]%Hout; [by left|right].
    exists a, c. split_and!; try done. intros m Hm Ht Heq. apply Hno, elem_of_answered.
    split; [done|]. exists m. split_and!; try done. apply Hkept. split; [|done].
    apply not_true_iff_false. rewrite orphan_spec. intros (_ & _ & Hv). apply Hv.
    rewrite Heq. apply elem_of_valid. exists a, c. by apply Hkept in Ha as [_ ?].
  - apply paired_fixed.
Qed.

(** ** The boundary *)
Definition MARKER_ROLES : list role :=
  [CompactionMarker; Scout; Notice; Reflect; ModelDivider; Eval].
Definition MIN_KEEP_TOKENS : Z := 2000.

(** [_resolve_keep_tokens]: half of the history budget, or a quarter of the
    session's context budget when there is none. *)
Definition resolve_keep_tokens (configured : Z) (history_budget : option Z) (context_budget : Z) : Z :=
  let ceiling := match history_budget with
                 | Some b => if decide (0 < b) then b / 2 else context_budget / 4
                 | None => context_budget / 4
                 end in
  Z.max (Z.min configured ceiling) MIN_KEEP_TOKENS.

Definition is_user (m : Message) : bool := bool_decide (msg_role m = User).
Definition user_at (convo : list Message) (i : nat) : bool :=
  match convo !! i with Some m => is_user m | None => false end.

(** [_active_turn_root_index]; [None] is -1. *)
Definition active_turn_root_index (convo : list Message) : option nat :=
  let n := length convo in
  let after_last := match last (filter (λ i, user_at convo i = false) (seq 0 n)) with
                    | Some i => S i | None => O end in
  match last (filter (λ i, user_at convo i = true) (seq 0 (after_last - 1))) with
  | Some i => Some i
  | None => head (filter (λ i, user_at convo i = true) (seq after_last (n - after_last)))
  end.

Definition turn_root (convo : list Message) (turn_user_msg_id : option Z) : option nat :=
  let named := match turn_user_msg_id with
    | Some tid => head (filter (λ i, match convo !! i with
                                     | Some m => bool_decide (msg_id m = Some tid) && is_user m
                                     | None => false end = true) (seq 0 (length convo)))
    | None => None
    end in
  match named with Some i => Some i | None => active_turn_root_index convo end.

Definition clamp_boundary_to_live_turn (convo : list Message) (boundary_idx : nat)
    (turn_user_msg_id : option Z) : nat :=
  match turn_root convo turn_user_msg_id with
  | Some root_idx => if (root_idx <? boundary_idx)%nat then root_idx else boundary_idx
  | None => boundary_idx
  end.

(** ** Serialization *)
Definition CHUNK_CHARS : nat := Z.to_nat 60000.
Definition BODY_CLIP_CHARS : nat := Z.to_nat 4000.
Definition TOOL_CLIP_CHARS : nat := Z.to_nat 2000.
Definition MAX_CHUNKS : nat := 8.

Definition SUMMARY_CHARS : nat := Z.to_nat 20000.
(** [not body.strip()]. *)
Definition blank_text (body : text) : bool := bool_decide (strip body = []).

Record Clip := mkClip { clip_id : option Z; clip_role : role; clip_kept : nat; clip_total : nat }.

(** [_group_messages]: [group] is the group being filled, empty if none. *)
Definition close_group (group : list Message) : list (list Message) :=
  match group with [] => [] | _ => [group] end.
Fixpoint group_from (group messages : list Message) : list (list Message) :=
  match messages with
  | [] => close_group group
  | m :: messages =>
      if (negb (bool_decide (group = [])) && is_tool m)%bool
      then group_from (group ++ [m]) messages
      else close_group group ++
           match calls_of m with
           | [] => [m] :: group_from [] messages
           | _ => group_from [m] messages
           end
  end.
Definition group_messages (messages : list Message) : list (list Message) := group_from [] messages.

(** [_coverage_footer]. *)
Definition FOOTER_CLIPS : nat := 8.
Definition coverage_footer (covered : list Z) (clips : list Clip) (chunks_used groups_left : nat)
    : text :=
  match covered with
  | [] => []
  | i :: is_ =>
      let shown := (λ c, t (match clip_id c with Some i => pretty i | None => "None" end +:+ " ("
        +:+ pretty (clip_kept c) +:+ " of " +:+ pretty (clip_total c) +:+ " chars)"))
        <$> take FOOTER_CLIPS clips in
      let more := if (FOOTER_CLIPS <? length clips)%nat
                  then t (", +" +:+ pretty (length clips - FOOTER_CLIPS)%nat +:+ " more") else [] in
      join_lines (
        [[NL; NL] ++ t ("[Coverage] Summarized msgs " +:+ pretty (foldr Z.min i is_)) ++ [8211%N]
         ++ t (pretty (foldr Z.max i is_) +:+ " (" +:+ pretty (length covered) +:+ " messages) in "
               +:+ pretty chunks_used +:+ " summarizer call(s).")]
        ++ match clips with
           | [] => []
           | _ => [t "Bodies clipped before summarizing " ++ EM_DASH
                   ++ t " session_read(msg_id) for the full text: "
                   ++ foldr (λ a b, a ++ match b with [] => [] | _ => t ", " ++ b end) [] shown
                   ++ more ++ t "."]
           end
        ++ match groups_left with
           | O => []
           | _ => [t (pretty groups_left +:+
                   " later message group(s) were NOT summarized and remain in the live window.")]
           end)
  end.

Record Chunk := mkChunk { chunk_text : text; msg_ids : list Z; clips : list Clip }.
Definition empty_chunk : Chunk := mkChunk [] [] [].

Section summarizing.
(** The rendering of a proposed call, the token estimator, and what the
    summarizer answers to the n-th call of this run ([None] raises). *)
Context (call_identity : ToolCall → text).
Context (count_tokens : text → Z) (count_message : Message → Z).

(** Backwards from the newest row while the rows fit into [keep_tokens]. *)
Fixpoint scan_boundary (keep_tokens total : Z) (newest_first : list Message) (full : nat) : nat :=
  match newest_first with
  | [] => full
  | m :: older =>
      let tokens := count_message m in
      if decide (keep_tokens < total + tokens) then S (length older)
      else scan_boundary keep_tokens (total + tokens) older full
  end.

(** [_clip], with the record it appends. *)
Definition clip (body : text) (limit : nat) (mid : option Z) (r : role) : text * list Clip :=
  if (length body <=? limit)%nat then (body, []) else
  let where_ := match mid with
                | Some i => t ("session_read(" +:+ pretty i +:+ ")")
                | None => t "search_sessions(query)"
                end in
  (take limit body ++ t " " ++ [8230%N] ++ t (" [clipped " +:+ pretty (length body - limit)%nat +:+ " chars ")
     ++ EM_DASH ++ t " " ++ where_ ++ t " for the full body]",
   [mkClip mid r limit (length body)]).

Definition tag (m : Message) : text :=
  match msg_id m with Some i => t ("#" +:+ pretty i) | None => t "#?" end.

(** The last tool row of the group that answers the call. *)
Definition result_of (group : list Message) (tcid : string) : option Message :=
  last (filter (λ m, is_tool m = true ∧ tool_call_id m = tcid) group).
Definition call_status (group : list Message) (tc : ToolCall) : text :=
  if rejected tc then t "REJECTED " ++ EM_DASH ++ t " never executed" else
  match result_of group (call_id tc) with
  | None => t "no result recorded"
  | Some row =>
      let body := lstrip (msg_content row) in
      if starts_with (t "Error:") body || starts_with (t "ERROR") body || starts_with (t "error:") body
      then t "error" else t "ok"
  end.

(** The lines one row of a group adds, and its clips; [head] marks the first. *)
Definition serialize_row (group : list Message) (head : bool) (calls : list ToolCall) (m : Message)
    : list text * list Clip :=
  let body := msg_content m in
  let r := msg_role m in
  match calls, head with
  | _ :: _, true =>
      let '(ls, cs) := if blank_text body then ([], []) else
        let '(c, cs) := clip body BODY_CLIP_CHARS (msg_id m) r in
        ([t "[assistant " ++ tag m ++ t "] " ++ c], cs) in
      (ls ++ ((λ tc, t "[tool_call " ++ tag m ++ t "] " ++ call_identity tc ++ t " -> "
                     ++ call_status group tc) <$> calls), cs)
  | _, _ =>
      if is_tool m then
        let name := match last (filter (λ tc, call_id tc = tool_call_id m) calls) with
                    | Some tc => match call_name tc with [] => t "tool" | n => n end
                    | None => t "tool"
                    end in
        let '(c, cs) := clip body TOOL_CLIP_CHARS (msg_id m) r in
        ([t "[tool_result " ++ tag m ++ t " " ++ name ++ t "] " ++ c], cs)
      else
        let '(c, cs) := clip body BODY_CLIP_CHARS (msg_id m) r in
        ([t "[" ++ role_text r ++ t " " ++ tag m ++ t "] " ++ c], cs)
  end.
Definition serialize_group (group : list Message) : text * list Clip :=
  match group with
  | [] => ([], [])
  | h :: rest =>
      let calls := calls_of h in
      let rows := serialize_row group true calls h :: (serialize_row group false calls <$> rest) in
      (join_lines (concat rows.*1), concat rows.*2)
  end.

(** A group joins the chunk being filled. *)
Definition add_group (group : list Message) (c : Chunk) : Chunk :=
  let '(txt, cs) := serialize_group group in
  mkChunk (match chunk_text c with [] => txt | cur => cur ++ NL :: txt end)
    (msg_ids c ++ omap msg_id group) (clips c ++ cs).

(** The loop of [_chunk_slice]. *)
Fixpoint chunk_groups (chunk_chars max_chunks : nat) (groups : list (list Message))
    (chunks : list Chunk) (current : Chunk) : list Chunk :=
  match groups with
  | [] => take max_chunks (match chunk_text current with [] => chunks | _ => chunks ++ [current] end)
  | group :: groups =>
      let txt := (serialize_group group).1 in
      if (negb (bool_decide (chunk_text current = [])) &&
          (chunk_chars <? length (chunk_text current) + length txt + 1)%nat)%bool then
        let chunks := chunks ++ [current] in
        if (max_chunks <=? length chunks)%nat then chunks
        else chunk_groups chunk_chars max_chunks groups chunks (add_group group empty_chunk)
      else chunk_groups chunk_chars max_chunks groups chunks (add_group group current)
  end.
Definition chunk_slice (chunk_chars max_chunks : nat) (messages : list Message) : list Chunk :=
  chunk_groups chunk_chars max_chunks (group_messages messages) [] empty_chunk.

(** ** The summarizer *)
Inductive prompt := FirstPrompt (conversation : text) | UpdatePrompt (existing new_content : text).
Context (summarize : nat → prompt → option text).

(** The gates on a candidate: not too short, not mostly a copy. *)
Definition acceptable (summary candidate supplied : text) : bool :=
  let before_tokens := match summary with [] => 0 | _ => count_tokens summary end in
  let candidate_tokens := count_tokens candidate in
  let supplied_tokens := count_tokens supplied in
  let growth := candidate_tokens - before_tokens in
  negb (candidate_tokens <? 20) &&
  negb ((0 <? supplied_tokens) && (0 <? growth) && (35 * supplied_tokens <? 100 * growth))%bool.

(** The loop over the chunks: the summary and the chunks accepted. *)
Fixpoint summarize_chunks (index : nat) (chunks : list Chunk) (summary : text) : text * list Chunk :=
  match chunks with
  | [] => (summary, [])
  | c :: chunks =>
      let p := match summary with
               | [] => FirstPrompt (chunk_text c)
               | _ => UpdatePrompt summary (chunk_text c)
               end in
      match strip <$> summarize index p with
      | None => (summary, [])
      | Some candidate =>
          if acceptable summary candidate (chunk_text c) then
            let kept := if 5000 <? count_tokens candidate then take SUMMARY_CHARS candidate
                        else candidate in
            let '(final, accepted) := summarize_chunks (S index) chunks kept in
            (final, c :: accepted)
          else (summary, [])
      end
  end.

Fixpoint covered_prefix (covered : list Z) (messages : list Message) : list Message :=
  match messages with
  | [] => []
  | m :: messages =>
      match msg_id m with
      | Some i => if decide (i ∈ covered) then m :: covered_prefix covered messages else []
      | None => []
      end
  end.

Inductive reason := Performed | Failed | NothingToSummarize.
#[export] Instance reason_eq_dec : EqDecision reason.
Proof. solve_decision. Defined.

(** The marker row and its coverage record. *)
Record Marker := mkMarker {
  compacted_up_to : Z;
  original_count : nat;
  marker_summary : text;
  covered_from : Z;
  chunks_used : nat;
  chunks_planned : nat;
  groups_deferred : nat;
  kept_clips : list Clip
}.

(** What compaction resumes from: the summary and boundary of the last marker. *)
Definition resume_point (existing_summary : option text) (raw : list Message)
    : option text * Z :=
  match existing_summary with
  | Some s => (Some s, 0)
  | None =>
      match last (filter (λ m, msg_role m = CompactionMarker) raw) with
      | Some m => (Some (msg_content m), default 0 (up_to m))
      | None => (None, 0)
      end
  end.
Definition conversation (prev : Z) (raw : list Message) : list Message :=
  filter (λ m, (msg_role m ∉ MARKER_ROLES) ∧ prev < default 0 (msg_id m)) raw.

Definition slice_to_summarize (keep_tokens : Z) (turn_user_msg_id : option Z)
    (convo : list Message) : list Message :=
  let boundary_idx := scan_boundary keep_tokens 0 (reverse convo) (length convo) in
  take (clamp_boundary_to_live_turn convo boundary_idx turn_user_msg_id) convo.

(** [compact_with_llm] on the rows read; the marker is what it appends. *)
Definition compact_with_llm (raw : list Message) (existing_summary : option text)
    (keep_tokens : Z) (turn_user_msg_id : option Z) : reason * option Marker :=
  let '(existing, prev) := resume_point existing_summary raw in
  let convo := conversation prev raw in
  let to_summarize := slice_to_summarize keep_tokens turn_user_msg_id convo in
  if (length to_summarize <? 4)%nat then (NothingToSummarize, None) else
  let chunks := chunk_slice CHUNK_CHARS MAX_CHUNKS to_summarize in
  match chunks with
  | [] => (NothingToSummarize, None)
  | _ =>
      let '(summary, accepted) := summarize_chunks 0 chunks (default [] existing) in
      let covered := concat (msg_ids <$> accepted) in
      match covered with
      | [] => (Failed, None)
      | _ =>
          let rows := covered_prefix covered to_summarize in
          let last_summarized_id := default 0 (last rows ≫= msg_id) in
          if last_summarized_id <=? prev then (Failed, None) else
          let kept := filter (λ c, match clip_id c with
                                   | Some i => bool_decide (i ∈ covered)
                                   | None => false
                                   end = true) (concat (clips <$> accepted)) in
          let groups_left :=
            (length (group_messages to_summarize) - length (group_messages rows))%nat in
          let footer := coverage_footer (omap msg_id rows) kept (length accepted) groups_left in
          (Performed, Some (mkMarker last_summarized_id (length rows) (summary ++ footer)
             (default 0 (head rows ≫= msg_id)) (length accepted) (length chunks) groups_left kept))
      end
  end.
End summarizing.

(** ** What the chunks hold *)
Lemma concat_group_from group ms : concat (group_from group ms) = group ++ ms.
Proof.
  assert (∀ g, concat (close_group g) = g) as Hclose.
  { intros [|m g]; cbn; [done|by rewrite app_nil_r]. }
  revert group. induction ms as [|m ms IH]; intros group; cbn [group_from].
  - by rewrite Hclose, app_nil_r.
  - destruct (negb _ && _)%bool; [by rewrite IH, <-app_assoc|].
    rewrite concat_app, Hclose. f_equal. destruct (calls_of m); [cbn; by rewrite IH|apply IH].
Qed.
Lemma concat_group_messages ms : concat (group_messages ms) = ms.
Proof. apply concat_group_from. Qed.

Lemma close_group_ne group g : g ∈ close_group group → g ≠ [].
Proof.
  destruct group; cbn [close_group]; [by intros ?%not_elem_of_nil|].
  by rewrite list_elem_of_singleton; intros ->.
Qed.
Lemma group_messages_ne ms g : g ∈ group_messages ms → g ≠ [].
Proof.
  unfold group_messages. assert (∀ group, g ∈ group_from group ms → g ≠ []); [|by eauto].
  induction ms as [|m ms IH]; intros group; cbn [group_from];
    [exact (close_group_ne group g)|].
  destruct (negb _ && _)%bool; [exact (IH _)|].
  intros [Hg|Hg]%elem_of_app; [exact (close_group_ne _ _ Hg)|].
  destruct (calls_of m); [|exact (IH _ Hg)].
  apply elem_of_cons in Hg as [->|Hg]; [done|exact (IH _ Hg)].
Qed.

Section chunks.
Context (call_identity : ToolCall → text) (chunk_chars : nat).

(** The chunk of some complete groups. *)
Definition chunk_of (gs : list (list Message)) : Chunk :=
  mkChunk (join_lines ((λ g, (serialize_group call_identity g).1) <$> gs))
    (omap msg_id (concat gs)) (concat ((λ g, (serialize_group call_identity g).2) <$> gs)).

(** Groups that make one chunk: within the size, or alone. *)
Definition fits (gs : list (list Message)) : Prop :=
  gs ≠ [] ∧ (length (chunk_text (chunk_of gs)) ≤ chunk_chars ∨ length gs = 1)%nat.

Lemma serialize_group_ne g : g ≠ [] → (serialize_group call_identity g).1 ≠ [].
Proof.
  destruct g as [|h rest]; [done|]. intros _. cbn [serialize_group fst].
  assert (∃ c l ls, (serialize_row call_identity (h :: rest) true (calls_of h) h).1 = (c :: l) :: ls)
    as (c & l & ls & Hrow).
  { unfold serialize_row. destruct (calls_of h) as [|tc tcs].
    - destruct (is_tool h); destruct (clip _ _ _ _); cbn; eauto.
    - destruct (blank_text _); [|destruct (clip _ _ _ _)]; cbn; eauto. }
  rewrite fmap_cons. cbn [concat]. rewrite Hrow. cbn [app].
  destruct (ls ++ _); done.
Qed.

Lemma chunk_of_empty gs :
  Forall (λ g, g ≠ []) gs → chunk_text (chunk_of gs) = [] ↔ gs = [].
Proof.
  intros Hall. split; [|by intros ->]. cbn. destruct gs as [|g [|g' gs]]; [done|cbn|].
  - intros H. inversion Hall; subst. by destruct (serialize_group_ne g).
  - rewrite !fmap_cons, join_cons by done. by destruct (serialize_group call_identity g).1.
Qed.

Lemma add_group_chunk gs g :
  Forall (λ g, g ≠ []) gs → add_group call_identity g (chunk_of gs) = chunk_of (gs ++ [g]).
Proof.
  intros Hall. unfold add_group, chunk_of at 4. destruct (serialize_group call_identity g) as [txt cs] eqn:Hser.
  rewrite !fmap_app, !concat_app, omap_app. cbn [fmap list_fmap concat]. rewrite Hser. cbn [fst snd].
  rewrite !app_nil_r. f_equal. destruct (chunk_text (chunk_of gs)) as [|c l] eqn:Htxt.
  - by apply chunk_of_empty in Htxt as ->.
  - rewrite join_app; [|intros Hn|done].
    + cbn in Htxt. by rewrite Htxt.
    + apply fmap_nil_inv in Hn. by subst.
Qed.

Lemma chunk_groups_spec max groups gss cur :
  Forall (λ g, g ≠ []) (cur ++ groups) → Forall fits gss →
  cur = [] ∨ fits cur → (length gss < max)%nat →
  ∃ gss', chunk_groups call_identity chunk_chars max groups (chunk_of <$> gss) (chunk_of cur)
            = chunk_of <$> gss' ∧
    Forall fits gss' ∧ (length gss' ≤ max)%nat ∧ prefix (concat gss') (concat gss ++ cur ++ groups) ∧
    ((length gss' < max)%nat → concat gss' = concat gss ++ cur ++ groups).
Proof.
  revert gss cur. induction groups as [|g groups IH]; intros gss cur Hall Hgss Hfit Hmax.
  - cbn [chunk_groups]. rewrite app_nil_r in *.
    destruct (chunk_text (chunk_of cur)) as [|c txt] eqn:Htxt.
    + apply chunk_of_empty in Htxt as ->; [|done]. exists gss. rewrite app_nil_r.
      rewrite take_ge by (rewrite length_fmap; lia). split_and!; [done|done|lia|done|done].
    + destruct Hfit as [->|Hfit]; [done|]. exists (gss ++ [cur]).
      rewrite fmap_app, take_ge by (rewrite length_app, length_fmap; cbn; lia).
      rewrite concat_app. cbn. rewrite app_nil_r.
      split_and!; [done|by apply Forall_app; auto|rewrite length_app; cbn; lia|done|done].
  - rewrite Forall_app, Forall_cons in Hall. destruct Hall as (Hcur & Hg & Hgr).
    assert (fits [g]) as Hone by (split; [done|by right]).
    cbn [chunk_groups]. cbv zeta. destruct (_ && _)%bool eqn:Hfull.
    + apply andb_prop in Hfull as [Hne _]. rewrite <-fmap_snoc.
      assert (cur ≠ []) as Hcne by (intros ->; done).
      destruct Hfit as [|Hfit]; [done|].
      assert (Forall fits (gss ++ [cur])) as Hgss' by (apply Forall_app; auto).
      assert (concat (gss ++ [cur]) = concat gss ++ cur) as Hcat
        by (rewrite concat_app; cbn; by rewrite app_nil_r).
      rewrite length_fmap. destruct (Nat.leb_spec max (length (gss ++ [cur]))) as [Hstop|Hgo].
      * exists (gss ++ [cur]). rewrite Hcat. split_and!; [done|done| | |].
        -- rewrite length_app. cbn. lia.
        -- rewrite app_assoc. by apply prefix_app_r.
        -- intros. lia.
      * change empty_chunk with (chunk_of []). rewrite add_group_chunk by constructor.
        destruct (IH (gss ++ [cur]) ([] ++ [g])) as (gss' & ? & ? & ? & Hp & Hc);
          [by constructor|done|by right|done|].
        exists gss'. rewrite Hcat, <-!app_assoc in Hp, Hc. cbn [app] in Hp, Hc. done.
    + rewrite add_group_chunk by done.
      assert (fits (cur ++ [g])) as Hfit'.
      { destruct (decide (cur = [])) as [->|Hcne]; [done|]. split; [by destruct cur|]. left.
        apply andb_false_iff in Hfull as [Hno|Hlen%Nat.ltb_ge].
        - apply negb_false_iff, bool_decide_eq_true in Hno. by apply chunk_of_empty in Hno.
        - cbn [chunk_of chunk_text] in *. rewrite fmap_app, join_app; [|by destruct cur|done].
          rewrite length_app. cbn in *. lia. }
      destruct (IH gss (cur ++ [g])) as (gss' & ? & ? & ? & Hp & Hc); [|done|by right|done|].
      { rewrite !Forall_app. auto. }
      exists gss'. rewrite <-!app_assoc in Hp, Hc. cbn [app] in Hp, Hc. done.
Qed.
End chunks.

(** A chunk is made of complete groups, in order.  The chunks of a slice
    are those of consecutive runs of its groups, starting at the first: none
    is split, none is skipped, a chunk is over the size only if it is a single
    group, there are at most [max_chunks], and if there are fewer they hold
    the whole slice. *)
Theorem chunk_slice_complete_groups (call_identity : ToolCall → text)
    (chunk_chars max_chunks : nat) (ms : list Message) (some : (0 < max_chunks)%nat) :
  ∃ runs : list (list (list Message)),
    chunk_slice call_identity chunk_chars max_chunks ms = chunk_of call_identity <$> runs ∧
    Forall (fits call_identity chunk_chars) runs ∧ (length runs ≤ max_chunks)%nat ∧
    prefix (concat runs) (group_messages ms) ∧ prefix (concat (concat runs)) ms ∧
    ((length runs < max_chunks)%nat → concat (concat runs) = ms).
Proof.
  destruct (chunk_groups_spec call_identity chunk_chars max_chunks (group_messages ms) [] [])
    as (runs & Heq & Hfits & Hlen & Hpre & Hall); [|constructor|by left|done|].
  { apply Forall_forall. apply group_messages_ne. }
  exists runs. split_and!; try done.
  - destruct Hpre as [rest Hrest]. exists (concat rest).
    rewrite <-(concat_group_messages ms) at 1. cbn in Hrest. by rewrite Hrest, concat_app.
  - intros Hlt. rewrite (Hall Hlt). apply concat_group_messages.
Qed.

(** ** What a compaction covers *)
Definition rowid (m : Message) : Z := default 0 (msg_id m).
(** Rows as the database returns them: each has its id, ids increase. *)
Definition rows_ok (rows : list Message) : Prop :=
  Forall (λ m, is_Some (msg_id m)) rows ∧ StronglySorted (λ a b, rowid a < rowid b) rows.

Lemma rows_ok_filter P `{∀ m, Decision (P m)} rows : rows_ok rows → rows_ok (filter P rows).
Proof.
  intros [Hid Hsort]. split.
  - apply Forall_forall. intros m [_ Hm]%list_elem_of_filter. by eapply Forall_forall in Hid.
  - induction Hsort as [|m l Hl IH Hm]; [constructor|].
    apply Forall_cons in Hid as [_ Hid]. rewrite filter_cons. case_decide; [|by apply IH].
    constructor; [by apply IH|]. apply Forall_forall. intros x [_ Hx]%list_elem_of_filter.
    by eapply Forall_forall in Hm.
Qed.
Lemma rows_ok_app a b : rows_ok (a ++ b) → rows_ok a ∧
  ∀ x y, x ∈ a → y ∈ b → rowid x < rowid y.
Proof.
  intros [[Hid _]%Forall_app Hsort]. apply StronglySorted_app in Hsort as (Hlt & Hs & _).
  split; [by split|]. intros. by apply Hlt.
Qed.

Lemma rowid_Some rows m i : rows_ok rows → m ∈ rows → msg_id m = Some i ↔ rowid m = i.
Proof.
  intros [Hid _] Hm. eapply Forall_forall in Hid as [j Hj]; [|exact Hm].
  unfold rowid. rewrite Hj. cbn. naive_solver.
Qed.
Lemma elem_of_ids (rows : list Message) (i : Z) : i ∈ omap msg_id rows ↔ ∃ m, m ∈ rows ∧ msg_id m = Some i.
Proof. by rewrite list_elem_of_omap. Qed.

Lemma covered_prefix_take rows q :
  rows_ok rows → covered_prefix (omap msg_id (take q rows)) rows = take q rows.
Proof.
  intros Hok. assert (∀ covered front back, covered = omap msg_id (front ++ take q back) →
    rows_ok (front ++ back) → covered_prefix covered back = take q back) as Hgen.
  { clear Hok. intros covered front back. revert q front.
    induction back as [|m back IH]; intros q front -> Hok; [by rewrite take_nil|].
    cbn [covered_prefix].
    assert (is_Some (msg_id m)) as [i Hi].
    { destruct Hok as [Hid _]. eapply Forall_forall in Hid; [exact Hid|]. set_solver. }
    rewrite Hi. destruct q as [|q]; cbn [take].
    - rewrite decide_False; [done|]. rewrite app_nil_r.
      intros (x & Hx & Hxi)%elem_of_ids.
      apply rows_ok_app in Hok as [_ Hlt]. specialize (Hlt x m Hx ltac:(left)).
      unfold rowid in Hlt. rewrite Hi, Hxi in Hlt. cbn in Hlt. lia.
    - rewrite decide_True by (apply elem_of_ids; exists m; split; [set_solver|done]).
      f_equal. apply (IH q (front ++ [m])); by rewrite <-!app_assoc. }
  by apply (Hgen _ []).
Qed.

Section covering.
Context (call_identity : ToolCall → text).
Context (count_tokens : text → Z) (count_message : Message → Z).
Context (summarize : nat → prompt → option text).

(** Some accepted call saw the chunk. *)
Definition seen_in (p : prompt) : text :=
  match p with FirstPrompt s => s | UpdatePrompt _ s => s end.

Lemma summarize_chunks_accepted index chunks summary :
  let accepted := (summarize_chunks count_tokens summarize index chunks summary).2 in
  prefix accepted chunks ∧
  ∀ j c, accepted !! j = Some c →
    ∃ p, seen_in p = chunk_text c ∧ is_Some (summarize (index + j)%nat p).
Proof.
  revert index summary. induction chunks as [|c chunks IH]; intros index summary; cbn [summarize_chunks];
    [split; [done|]; by intros ? ? ?|].
  set (p := match summary with [] => _ | _ => _ end).
  assert (∀ P : Prop, P → P ∧ ∀ (j : nat) (d : Chunk), [] !! j = Some d →
    ∃ p, seen_in p = chunk_text d ∧ is_Some (summarize (index + j)%nat p)) as Hnone
    by (intros P ?; split; [done|]; by intros ? ? ?).
  destruct (summarize index p) as [answer|] eqn:Hp; cbn; [|by apply Hnone, prefix_nil].
  destruct (acceptable _ _ _ _); [|by apply Hnone, prefix_nil].
  specialize (IH (S index) (if 5000 <? count_tokens (strip answer)
                            then take SUMMARY_CHARS (strip answer) else strip answer)).
  destruct (summarize_chunks _ _ _ _ _) as [final accepted]. cbn in IH |- *.
  destruct IH as [Hpre Hseen]. split; [by apply prefix_cons|].
  intros [|j] d; cbn.
  - intros [= <-]. exists p. rewrite Nat.add_0_r. split; [by subst p; destruct summary|by rewrite Hp].
  - rewrite Nat.add_succ_r. apply Hseen.
Qed.

Lemma slice_is_prefix keep tid convo :
  ∃ b, slice_to_summarize count_message keep tid convo = take b convo ∧
    ∀ root, turn_root convo tid = Some root → (b ≤ root)%nat.
Proof.
  unfold slice_to_summarize, clamp_boundary_to_live_turn. eexists. split; [done|].
  intros root ->. destruct (Nat.ltb_spec root (scan_boundary count_message keep 0 (reverse convo)
    (length convo))); lia.
Qed.

Lemma covered_ids runs :
  concat (msg_ids <$> (chunk_of call_identity <$> runs)) = omap msg_id (concat (concat runs)).
Proof. induction runs as [|gs runs IH]; cbn; [done|]. by rewrite IH, concat_app, omap_app. Qed.

(** Rows in order, split after the last one of [folded]. *)
Lemma split_at_last folded rest l :
  rows_ok (folded ++ rest) → last folded = Some l →
  ∀ m, m ∈ folded ++ rest →
    (rowid m ≤ rowid l ↔ m ∈ folded) ∧ (rowid m ∈ omap msg_id folded ↔ m ∈ folded).
Proof.
  intros Hok Hlast m Hm. pose proof (rows_ok_app _ _ Hok) as [Hf Hlt].
  assert (l ∈ folded) as Hl by (apply last_Some_elem_of; done).
  assert (∀ x, x ∈ folded → rowid x ≤ rowid l) as Hle.
  { apply last_Some in Hlast as [f' ->]. pose proof (rows_ok_app _ _ Hf) as [_ Hlt'].
    intros x [Hx| ->%list_elem_of_singleton]%elem_of_app; [|done].
    specialize (Hlt' x l Hx ltac:(left)). lia. }
  assert (m ∈ rest → m ∈ folded → False) as Hboth.
  { intros Hr Hfm. specialize (Hlt m m Hfm Hr). lia. }
  apply elem_of_app in Hm as [Hm|Hm].
  - split; split; auto. intros _. apply elem_of_ids. exists m. split; [done|].
    by apply (rowid_Some folded).
  - specialize (Hlt l m Hl Hm) as Hlm. split; split; intros H; try (exfalso; by eauto); [lia|].
    apply elem_of_ids in H as (x & Hx & Hxi).
    apply (rowid_Some folded) in Hxi; [|done|done]. specialize (Hlt x m Hx Hm). lia.
Qed.

(** The accepted chunks hold the first rows of the slice. *)
Lemma accepted_rows ms accepted :
  prefix accepted (chunk_slice call_identity CHUNK_CHARS MAX_CHUNKS ms) →
  ∃ q, concat (msg_ids <$> accepted) = omap msg_id (take q ms).
Proof.
  intros Haccpre.
  destruct (chunk_groups_spec call_identity CHUNK_CHARS MAX_CHUNKS (group_messages ms) [] [])
    as (runs & Heq & _ & _ & Hpre & _);
    [apply Forall_forall; apply group_messages_ne|apply Forall_nil_2|by left
    |unfold MAX_CHUNKS; cbn; lia|].
  cbn [concat app] in Hpre. unfold chunk_slice in Haccpre.
  change empty_chunk with (chunk_of call_identity []) in Haccpre.
  change (@nil Chunk) with (chunk_of call_identity <$> []) in Haccpre. rewrite Heq in Haccpre.
  assert (accepted = chunk_of call_identity <$> take (length accepted) runs) as Hacc.
  { rewrite fmap_take. destruct Haccpre as [k ->]. by rewrite take_app_length. }
  rewrite Hacc, covered_ids. exists (length (concat (concat (take (length accepted) runs)))).
  assert (prefix (concat (concat (take (length accepted) runs))) ms) as [k ->].
  { rewrite <-(concat_group_messages ms). apply prefix_concat.
    etrans; [apply prefix_concat, prefix_take|done]. }
  by rewrite take_app_length.
Qed.

(** A boundary at the last of the folded rows. *)
Lemma boundary_covers folded rest l :
  rows_ok (folded ++ rest) → last folded = Some l →
  length folded = length (filter (λ m, rowid m ≤ rowid l) (folded ++ rest)) ∧
  ∀ m, m ∈ rest → rowid l < rowid m.
Proof.
  intros Hok Hlast. pose proof (split_at_last _ _ _ Hok Hlast) as Hrow.
  apply rows_ok_app in Hok as [_ Hlt]. split.
  - rewrite filter_app, filter_all by (intros m Hm; apply Hrow; [set_solver|done]).
    rewrite filter_none, app_nil_r; [done|]. intros m Hm Hle. apply Hrow in Hle; [|set_solver].
    specialize (Hlt m m Hle Hm). lia.
  - intros m Hm. apply Hlt; [|done]. by apply last_Some_elem_of.
Qed.

End covering.

(** ** A run *)
Definition plain (i : Z) (r : role) (s : string) : Message :=
  mkMessage (Some i) r (t s) [] "" false None.
Definition demo_call : Message :=
  mkMessage (Some 4) Assistant [] [mkToolCall "c1" (t "bash") (t "pytest") false] "" false None.
Definition demo_result : Message := mkMessage (Some 5) Tool (t "14 passed") [] "c1" false None.
Definition demo_rows : list Message :=
  [plain 1 User "Port the parser."; plain 2 Assistant "Done."; plain 3 User "Run the tests.";
   demo_call; demo_result; plain 6 User "Now document it."].
Definition demo_tokens (s : text) : Z := Z.of_nat (length s).
Definition demo_summary (_ : nat) (_ : prompt) : option text := Some (t "parser ported, tests run").
(** Every message counts a thousand tokens, the history budget is four. *)
Definition demo_keep : Z := resolve_keep_tokens 51000 (Some 4000) 0.
Definition demo_run : reason * option Marker :=
  compact_with_llm call_name demo_tokens (λ _, 1000) demo_summary demo_rows None demo_keep (Some 6).


Lemma chunk_slice_complete_groups_witness :
  (0 < MAX_CHUNKS)%nat ∧
  ∃ runs : list (list (list Message)),
    chunk_slice call_name 60 MAX_CHUNKS demo_rows = chunk_of call_name <$> runs ∧
    Forall (fits call_name 60) runs ∧ (length runs ≤ MAX_CHUNKS)%nat ∧
    prefix (concat runs) (group_messages demo_rows) ∧ prefix (concat (concat runs)) demo_rows ∧
    ((length runs < MAX_CHUNKS)%nat → concat (concat runs) = demo_rows).
Proof.
  split; [unfold MAX_CHUNKS; lia|].
  apply (chunk_slice_complete_groups call_name 60 MAX_CHUNKS demo_rows). unfold MAX_CHUNKS. lia.
Defined.

(** The boundary can fall between a call and its result.  On this run the
    rows to keep start at the result: the call is folded with the note that no
    result was recorded, and the result, above the boundary and without its
    call, is what [exclude_orphans] drops.  It is in neither. *)
Theorem boundary_splits_a_call :
  compacted_up_to <$> demo_run.2 = Some 4 ∧
  contains (t "bash -> no result recorded")
    (concat (chunk_text <$> chunk_slice call_name CHUNK_CHARS MAX_CHUNKS
       (slice_to_summarize (λ _, 1000) demo_keep (Some 6) (conversation 0 demo_rows)))) = true ∧
  demo_result ∈ conversation 4 demo_rows ∧
  exclude_orphans (conversation 4 demo_rows) = [plain 6 User "Now document it."].
Proof.
  split; [by vm_compute|]. split; [by vm_compute|]. split; [|by vm_compute].
  apply list_elem_of_lookup. by exists 0%nat.
Qed.
