(* ===== verification/Paths.v ===== *)
(** * Path policy of the file tools (core/tools/paths.py)

    From the string a tool is called with to the file it may touch: the roots
    of a call, the protected names, and [_resolve_within] behind
    [safe_read_path], [safe_write_path] and [resolve_workspace_path].

    A [Path] is pathlib's: an anchor and the names after it.  The operating
    system ([resolve], [exists], [is_dir], [mkdir]) is a record of functions;
    the tree is taken not to change while one path is being resolved.  The
    two context variables and the settings are a record, read afresh where the
    code reads them. *)
From S2P Require Import Prelude.

(** ** Paths *)
Record Path := mkPath { anchor : string; names : list string }.
#[export] Instance Path_eq_dec : EqDecision Path.
Proof. solve_decision. Defined.

Definition slash : Ascii.ascii := Ascii.ascii_of_nat 47.

Fixpoint split_slash (s : string) : list string :=
  match s with
  | String.EmptyString => [String.EmptyString]
  | String.String c s =>
      match split_slash s with
      | l :: ls => if Ascii.eqb c slash then String.EmptyString :: l :: ls
                   else String.String c l :: ls
      | [] => []
      end
  end.

Fixpoint leading_slashes (s : string) : nat :=
  match s with
  | String.String c s => if Ascii.eqb c slash then S (leading_slashes s) else 0
  | String.EmptyString => 0
  end.

(** [Path(s)]: exactly two leading slashes are an anchor of their own; empty
    names and dots are dropped. *)
Definition to_path (s : string) : Path :=
  mkPath (match leading_slashes s with 0 => "" | 2 => "//" | _ => "/" end)%string
    (filter (λ n, n ≠ "" ∧ n ≠ ".")%string (split_slash s)).

Definition is_absolute (p : Path) : bool := bool_decide (anchor p ≠ "")%string.
Definition parts (p : Path) : list string :=
  (if decide (anchor p = "")%string then [] else [anchor p]) ++ names p.
(** [a / b] *)
Definition join (a b : Path) : Path :=
  if is_absolute b then b else mkPath (anchor a) (names a ++ names b).
Definition path_name (p : Path) : string := default ""%string (last (names p)).
Definition parent (p : Path) : Path := mkPath (anchor p) (take (length (names p) - 1) (names p)).

Fixpoint strip_prefix (p l : list string) : option (list string) :=
  match p, l with
  | [], _ => Some l
  | a :: p, b :: l => if decide (a = b) then strip_prefix p l else None
  | _ :: _, [] => None
  end.
(** [p.relative_to(q)]; [None] is the ValueError. *)
Definition relative_to (p q : Path) : option (list string) :=
  if decide (anchor p = anchor q) then strip_prefix (names q) (names p) else None.
Definition is_relative_to (p q : Path) : bool := bool_decide (is_Some (relative_to p q)).

(** [str(path)] *)
Definition path_string (p : Path) : string :=
  anchor p +:+ String.concat "/" (names p).
(** [str.lower] on code points below 256. *)
Definition lower_char (c : Ascii.ascii) : Ascii.ascii :=
  let n := Ascii.nat_of_ascii c in
  if ((65 <=? n) && (n <=? 90)) || ((192 <=? n) && (n <=? 222) && negb (n =? 215))
  then Ascii.ascii_of_nat (n + 32) else c.
Fixpoint lower (s : string) : string :=
  match s with
  | String.EmptyString => String.EmptyString
  | String.String c s => String.String (lower_char c) (lower s)
  end.

(** ** Surroundings *)
Inductive exn :=
| ProtectedFile (name : string)
| ProtectedDirectory (part : string)
| NotWithinAllowed (path : string)
| OtherValueError
| OSError
| RuntimeError.

Abbreviation fallible := (result exn).

Record OS := mkOS {
  resolve : Path → fallible Path;
  exists_ : Path → bool;
  is_dir : Path → bool;
  mkdir : Path → fallible unit
}.

(** [WORKSPACE_OVERRIDE], [WORKSPACE_HOME], and what the settings name. *)
Record Ctx := mkCtx {
  WORKSPACE_OVERRIDE : option string;
  WORKSPACE_HOME : option string;
  workspace_dir : string;
  skills_dir : string;
  tool_output_dir : string;
  session_kernel_enabled : bool;
  kernel_dir : string;
  data_dir : string
}.

Definition PROTECTED_FILES : list string :=
  ["sessions.md"; "instructions.md"; "soul.md"; "rules.md"; "safety.md"; ".env";
   "settings.json"]%string.
Definition PROTECTED_DIRS : list string := [".git"; "__pycache__"; ".venv"]%string.

Section policy.
Context (os : OS) (ctx : Ctx).

Definition resolve_str (s : string) : fallible Path := resolve os (to_path s).

(** A non-empty string, as in [if override:]. *)
Definition truthy (s : option string) : option string :=
  match s with Some ""%string => None | _ => s end.
(** [home and WORKSPACE_OVERRIDE.get() is None] *)
Definition active_home : option string :=
  match WORKSPACE_OVERRIDE ctx with Some _ => None | None => truthy (WORKSPACE_HOME ctx) end.

Definition workspace : fallible Path :=
  match truthy (WORKSPACE_OVERRIDE ctx) with
  | Some override => resolve_str override
  | None => resolve_str (workspace_dir ctx)
  end.
Definition workspace_home : fallible Path :=
  match active_home with Some home => resolve_str home | None => workspace end.

Definition roots_for_context (workspace_override workspace_home_dir : option string)
    : fallible (Path * Path) :=
  match truthy workspace_override with
  | Some override => let! root := resolve_str override in Ret (root, root)
  | None =>
      let! root := resolve_str (workspace_dir ctx) in
      match truthy workspace_home_dir with
      | Some home => let! home := resolve_str home in Ret (root, home)
      | None => Ret (root, root)
      end
  end.

Definition data_root : fallible Path := resolve_str (data_dir ctx).
(** [None] also when resolving fails: the code catches every exception. *)
Definition kernel_state_root : option Path :=
  if session_kernel_enabled ctx then
    match resolve_str (kernel_dir ctx) with Ret p => Some p | Raise _ => None end
  else None.
Definition tool_output_root : fallible Path := resolve_str (tool_output_dir ctx).

Definition append_new (roots : list Path) (p : Path) : list Path :=
  if decide (p ∈ roots) then roots else roots ++ [p].

Definition _base_roots : fallible (list Path) :=
  let! roots := match active_home with
                | Some home => let! h := resolve_str home in Ret [h]
                | None => Ret []
                end in
  let! ws := workspace in
  let roots := append_new roots ws in
  match WORKSPACE_OVERRIDE ctx with
  | None => let! tmp := resolve_str "/tmp"%string in Ret (roots ++ [tmp])
  | Some _ => Ret roots
  end.

Definition allowed_read_roots : fallible (list Path) :=
  let! roots := _base_roots in
  let! skills := resolve_str (skills_dir ctx) in
  let roots := append_new roots skills in
  let roots := match tool_output_root with Ret p => append_new roots p | Raise _ => roots end in
  Ret match kernel_state_root with Some p => append_new roots p | None => roots end.

Definition allowed_write_roots : fallible (list Path) := _base_roots.

Definition _relative_resolution_roots (roots : list Path) : fallible (list Path) :=
  let! allowed := match active_home with
                  | Some home =>
                      let! h := resolve_str home in
                      Ret (if decide (h ∈ roots) then [h] else [])
                  | None => Ret []
                  end in
  let! ws := workspace in
  let allowed := if decide (ws ∈ roots) then append_new allowed ws else allowed in
  Ret match allowed with [] => roots | _ => allowed end.

Definition relative_path_roots : fallible (list Path) :=
  let! roots := _base_roots in _relative_resolution_roots roots.

Definition owning_root (target : Path) : fallible Path :=
  let! roots := relative_path_roots in
  match list_find (λ root, is_relative_to target root = true) roots with
  | Some (_, root) => Ret root
  | None => match roots with root :: _ => Ret root | [] => workspace end
  end.

(** ** Resolution *)
Definition check_protected (resolved : Path) (roots : list Path) : fallible unit :=
  if decide (lower (path_name resolved) ∈ PROTECTED_FILES ∧ parent resolved ∈ roots)
  then Raise (ProtectedFile (path_name resolved))
  else match list_find (λ part, lower part ∈ PROTECTED_DIRS) (parts resolved) with
       | Some (_, part) => Raise (ProtectedDirectory part)
       | None => Ret tt
       end.

Definition checked (p : Path) (roots : list Path) : fallible Path :=
  let! _ := check_protected p roots in Ret p.

(** The guarded block of the redirect catches ValueError and OSError. *)
Definition caught (e : exn) : bool := match e with RuntimeError => false | _ => true end.

Definition _redirect_doubled_home_path (path : string) : fallible (option Path) :=
  match active_home with
  | None => Ret None
  | Some home =>
      match (let! ws := workspace in
             let! resolved_home := resolve_str home in
             match relative_to resolved_home ws with
             | Some prefix => Ret (ws, prefix)
             | None => Raise OtherValueError
             end) with
      | Raise e => if caught e then Ret None else Raise e
      | Ret (ws, prefix) =>
          if decide (prefix = []) then Ret None else
          let rel := to_path path in
          if decide (take (length prefix) (parts rel) ≠ prefix) then Ret None else
          let! candidate := resolve os (join ws rel) in
          Ret (if is_relative_to candidate ws then Some candidate else None)
      end
  end.

(** The scan over the roots, with [parent_exists] and [first_valid]. *)
Fixpoint scan (path : string) (roots : list Path) (prefer_existing : bool)
    (parent_exists first_valid : option Path) (scan_roots : list Path) : fallible Path :=
  match scan_roots with
  | [] =>
      match parent_exists, first_valid with
      | Some p, _ => checked p roots
      | None, Some p => checked p roots
      | None, None => Raise (NotWithinAllowed path)
      end
  | root :: scan_roots =>
      let! candidate := resolve os (join root (to_path path)) in
      if is_relative_to candidate root then
        if negb prefer_existing || exists_ os candidate then checked candidate roots else
        let parent_exists :=
          match parent_exists with
          | Some _ => parent_exists
          | None => if is_dir os (parent candidate) then Some candidate else None
          end in
        let first_valid :=
          match first_valid with Some _ => first_valid | None => Some candidate end in
        scan path roots prefer_existing parent_exists first_valid scan_roots
      else scan path roots prefer_existing parent_exists first_valid scan_roots
  end.

Fixpoint make_roots (roots : list Path) : fallible unit :=
  match roots with
  | [] => Ret tt
  | root :: roots => let! _ := mkdir os root in make_roots roots
  end.

(** [WORKSPACE_HOME.get() is not None and WORKSPACE_OVERRIDE.get() is None] *)
Definition prefers_existing : bool :=
  match WORKSPACE_HOME ctx, WORKSPACE_OVERRIDE ctx with Some _, None => true | _, _ => false end.

Definition _resolve_within (path : string) (roots : list Path) (create_roots : bool)
    : fallible Path :=
  let! _ := if create_roots then make_roots roots else Ret tt in
  let! resolved := resolve_str path in
  if existsb (is_relative_to resolved) roots
  then checked resolved roots
  else
    let! redirected := _redirect_doubled_home_path path in
    match redirected with
    | Some p => checked p roots
    | None =>
        let! scan_roots := if prefers_existing then _relative_resolution_roots roots
                           else Ret roots in
        scan path roots prefers_existing None None scan_roots
    end.

Definition safe_read_path (path : string) : fallible Path :=
  let! roots := allowed_read_roots in _resolve_within path roots false.
Definition safe_write_path (path : string) : fallible Path :=
  let! roots := allowed_write_roots in _resolve_within path roots true.
Definition resolve_workspace_path (path : string) : fallible Path :=
  let! roots := relative_path_roots in _resolve_within path roots false.

(** ** What resolution guarantees *)

(** [p] is [root] or below it. *)
Definition inside (p root : Path) : Prop :=
  anchor p = anchor root ∧ ∃ below, names p = names root ++ below.

(** What the docstring of [check_protected] calls protected. *)
Definition protected (p : Path) (roots : list Path) : Prop :=
  (lower (path_name p) ∈ PROTECTED_FILES ∧ parent p ∈ roots) ∨
  ∃ part, part ∈ parts p ∧ lower part ∈ PROTECTED_DIRS.

(** A path a tool may be handed: it came out of the system's [resolve], lies
    in one of [roots] and is not protected there. *)
Definition admissible (roots : list Path) (p : Path) : Prop :=
  (∃ q, resolve os q = Ret p) ∧ (∃ root, root ∈ roots ∧ inside p root) ∧ ¬ protected p roots.

Lemma strip_prefix_spec p l r : strip_prefix p l = Some r ↔ l = p ++ r.
Proof.
  revert l. induction p as [|a p IH]; intros [|b l]; cbn; try naive_solver.
  case_decide as Hab; [subst|naive_solver]. rewrite IH. naive_solver.
Qed.
Lemma relative_to_spec p q l :
  relative_to p q = Some l ↔ anchor p = anchor q ∧ names p = names q ++ l.
Proof. unfold relative_to. case_decide; [rewrite strip_prefix_spec|]; naive_solver. Qed.
Lemma is_relative_to_spec p q : is_relative_to p q = true ↔ inside p q.
Proof.
  unfold is_relative_to, inside, is_Some. rewrite bool_decide_eq_true.
  setoid_rewrite relative_to_spec. naive_solver.
Qed.
Lemma inside_refl p : inside p p.
Proof. split; [done|]. exists []. by rewrite app_nil_r. Qed.

Lemma check_protected_spec p roots u : check_protected p roots = Ret u ↔ ¬ protected p roots.
Proof.
  unfold check_protected, protected. case_decide as Hf; [naive_solver|].
  destruct (list_find _ _) as [[i part]|] eqn:E.
  - apply list_find_Some in E as (Hi & Hpart & _). split; [done|].
    intros []. right. exists part. split; [by eapply list_elem_of_lookup_2|done].
  - apply list_find_None in E. rewrite Forall_forall in E. destruct u. naive_solver.
Qed.
Lemma checked_spec p roots q : checked p roots = Ret q ↔ q = p ∧ ¬ protected p roots.
Proof.
  unfold checked. pose proof (check_protected_spec p roots tt) as Hp.
  destruct (check_protected p roots) as [[]|e]; cbn; naive_solver.
Qed.

Lemma elem_of_append_new roots p q : q ∈ append_new roots p ↔ q ∈ roots ∨ q = p.
Proof. unfold append_new. case_decide; [|rewrite elem_of_app, list_elem_of_singleton]; naive_solver. Qed.

Lemma base_roots_spec roots :
  _base_roots = Ret roots →
  ∃ ws, workspace = Ret ws ∧ ws ∈ roots ∧
    match WORKSPACE_OVERRIDE ctx with
    | Some _ => roots = [ws]
    | None => ∃ tmp, resolve_str "/tmp" = Ret tmp ∧ tmp ∈ roots
    end.
Proof.
  unfold _base_roots, active_home. destruct (WORKSPACE_OVERRIDE ctx) as [o|].
  - cbn. destruct workspace as [ws|]; cbn; [|done]. unfold append_new.
    rewrite decide_False by set_solver. intros [= <-]. exists ws. set_solver.
  - destruct (match truthy (WORKSPACE_HOME ctx) with
              | Some home => let! h := resolve_str home in Ret [h] | None => Ret [] end)
      as [pre|]; cbn; [|done].
    destruct workspace as [ws|]; cbn; [|done].
    destruct (resolve_str "/tmp") as [tmp|]; cbn; [|done]. intros [= <-].
    exists ws. split_and!; [done| |].
    + rewrite elem_of_app, elem_of_append_new. auto.
    + exists tmp. split; [done|]. rewrite elem_of_app. right. by left.
Qed.

Lemma read_roots_spec roots :
  allowed_read_roots = Ret roots → ∃ base, _base_roots = Ret base ∧ base ⊆ roots.
Proof.
  unfold allowed_read_roots. destruct _base_roots as [base|]; cbn; [|done].
  destruct (resolve_str (skills_dir ctx)); cbn; [|done]. intros [= <-].
  exists base. split; [done|]. intros q Hq.
  destruct tool_output_root, kernel_state_root; rewrite ?elem_of_append_new; auto.
Qed.

(** The roots a bare name may land in are among the given ones; the workspace
    is one of them, and so is an active home. *)
Lemma relative_roots_spec roots allowed ws :
  workspace = Ret ws → ws ∈ roots → _relative_resolution_roots roots = Ret allowed →
  allowed ⊆ roots ∧ ws ∈ allowed ∧
  ∀ root, root ∈ allowed → root = ws ∨ ∃ home, active_home = Some home ∧ resolve_str home = Ret root.
Proof.
  intros Hws Hin. unfold _relative_resolution_roots.
  assert (∃ pre, match active_home with
    | Some home => let! h := resolve_str home in Ret (if decide (h ∈ roots) then [h] else [])
    | None => Ret [] end = pre ∧ match pre with
    | Ret l => l ⊆ roots ∧ (∀ root, root ∈ l → ∃ home, active_home = Some home ∧ resolve_str home = Ret root)
    | Raise _ => True end) as (pre & -> & Hpre).
  { eexists; split; [done|]. destruct active_home as [home|]; [|set_solver].
    destruct (resolve_str home) as [h|] eqn:Eh; cbn; [|done].
    case_decide; split; set_solver. }
  destruct pre as [l|]; cbn; [|done]. destruct Hpre as [Hsub Hl].
  rewrite Hws. cbn. rewrite decide_True by done.
  assert (∀ x, x ∈ append_new l ws ↔ x ∈ l ∨ x = ws) as Happ by (intros; apply elem_of_append_new).
  destruct (append_new l ws) as [|a k] eqn:E.
  - by assert (ws ∈ @nil Path) as ?%not_elem_of_nil by (apply Happ; auto).
  - intros [= <-]. split_and!.
    + intros x Hx%Happ. destruct Hx as [| ->]; [by apply Hsub|done].
    + apply Happ. auto.
    + intros root Hr%Happ. destruct Hr; eauto.
Qed.

Lemma scan_contained allowed path roots pref pe fv sr p :
  sr ⊆ allowed →
  (∀ q, pe = Some q ∨ fv = Some q →
     (∃ x, resolve os x = Ret q) ∧ ∃ root, root ∈ allowed ∧ inside q root) →
  scan path roots pref pe fv sr = Ret p →
  (∃ x, resolve os x = Ret p) ∧ (∃ root, root ∈ allowed ∧ inside p root) ∧ ¬ protected p roots.
Proof.
  revert pe fv. induction sr as [|root sr IH]; intros pe fv Hsub Hgood; cbn.
  - destruct pe as [q|]; [|destruct fv as [q|]; [|done]];
      intros [-> Hp]%checked_spec; destruct (Hgood q) as [Hr Hi]; try (by auto); by split_and!.
  - destruct (resolve os (join root (to_path path))) as [c|] eqn:Ec; cbn; [|done].
    assert (sr ⊆ allowed) by set_solver.
    destruct (is_relative_to c root) eqn:Erel; [|by apply IH].
    apply is_relative_to_spec in Erel.
    assert ((∃ x, resolve os x = Ret c) ∧ ∃ root, root ∈ allowed ∧ inside c root) as Hc.
    { split; [by eauto|]. exists root. set_solver. }
    destruct (_ || _).
    + intros [-> Hp]%checked_spec. destruct Hc. by split_and!.
    + apply IH; [done|]. intros q Hq. destruct (decide (q = c)) as [->|Hne]; [done|].
      apply Hgood. destruct Hq as [Hq|Hq]; [left|right].
      * destruct pe; [done|]. destruct (is_dir os _); congruence.
      * destruct fv; congruence.
Qed.

Lemma redirect_spec path p :
  _redirect_doubled_home_path path = Ret (Some p) →
  ∃ ws rel, workspace = Ret ws ∧ resolve os rel = Ret p ∧ inside p ws.
Proof.
  unfold _redirect_doubled_home_path. destruct active_home as [home|]; [|done].
  destruct workspace as [ws|]; cbn; [|by destruct (caught e)].
  destruct (resolve_str home) as [h|]; cbn; [|by destruct (caught e)].
  destruct (relative_to h ws) as [prefix|]; cbn; [|done].
  case_decide; [done|]. case_decide; [done|].
  destruct (resolve os (join ws (to_path path))) as [c|] eqn:Ec; cbn; [|done].
  destruct (is_relative_to c ws) eqn:Erel; [|done]. intros [= <-].
  exists ws, (join ws (to_path path)). by rewrite <-is_relative_to_spec.
Qed.

Lemma resolve_within_admissible path roots create ws p :
  workspace = Ret ws → ws ∈ roots →
  _resolve_within path roots create = Ret p → admissible roots p.
Proof.
  intros Hws Hin. unfold _resolve_within.
  destruct (if create then _ else _) as [u|]; cbn; [|done].
  unfold resolve_str at 1. destruct (resolve os (to_path path)) as [q|] eqn:Eq; cbn; [|done].
  destruct (existsb _ _) eqn:Eex.
  - apply existsb_exists in Eex as (root & Hroot%list_elem_of_In & Hrel%is_relative_to_spec).
    intros [-> Hp]%checked_spec. split_and!; eauto.
  - destruct (_redirect_doubled_home_path path) as [[c|]|] eqn:Ered; cbn; [| |done].
    + intros [-> Hp]%checked_spec. apply redirect_spec in Ered as (ws' & rel & Hws' & ? & ?).
      rewrite Hws in Hws'. injection Hws' as <-. split_and!; eauto.
    + destruct prefers_existing.
      * destruct (_relative_resolution_roots roots) as [sr|] eqn:Esr; cbn; [|done].
        eapply relative_roots_spec in Esr as (? & _); [|done..].
        apply scan_contained; [done|naive_solver].
      * cbn. apply scan_contained; [done|naive_solver].
Qed.

(** ** Where a relative name lands *)

(** The candidates of a name: its resolution against each root, where that
    stays inside the root. *)
Definition candidates (path : string) (roots : list Path) : list Path :=
  omap (λ root, match resolve os (join root (to_path path)) with
                | Ret c => if is_relative_to c root then Some c else None
                | Raise _ => None
                end) roots.

(** The preference among candidates: the first file that exists, else the
    first whose directory does, else the first. *)
Definition first_with (test : Path → bool) (l : list Path) : option Path :=
  snd <$> list_find (λ p, test p = true) l.
Definition landing (cands : list Path) : option Path :=
  match first_with (exists_ os) cands with
  | Some p => Some p
  | None => match first_with (λ p, is_dir os (parent p)) cands with
            | Some p => Some p
            | None => head cands
            end
  end.

Lemma first_with_cons test p l :
  first_with test (p :: l) = if test p then Some p else first_with test l.
Proof.
  unfold first_with. cbn. destruct (test p); [by rewrite decide_True|].
  rewrite decide_False by done. by destruct (list_find _ l) as [[]|].
Qed.

Lemma candidates_cons path root roots :
  candidates path (root :: roots) =
    match resolve os (join root (to_path path)) with
    | Ret c => if is_relative_to c root then c :: candidates path roots else candidates path roots
    | Raise _ => candidates path roots
    end.
Proof. unfold candidates. cbn. destruct (resolve os _) as [c|]; [by destruct (is_relative_to c root)|done]. Qed.

(** The loop's two variables hold the best of the candidates passed over. *)
Lemma scan_landing path roots pe fv sr p :
  scan path roots true pe fv sr = Ret p →
  match first_with (exists_ os) (candidates path sr) with
  | Some q => p = q
  | None =>
      match pe with
      | Some q => p = q
      | None =>
          match first_with (λ q, is_dir os (parent q)) (candidates path sr) with
          | Some q => p = q
          | None => match fv with Some q => p = q | None => head (candidates path sr) = Some p end
          end
      end
  end.
Proof.
  revert pe fv. induction sr as [|root sr IH]; intros pe fv; cbn [scan].
  - destruct pe as [q|]; [|destruct fv as [q|]; [|done]]; by intros [-> _]%checked_spec.
  - rewrite candidates_cons. destruct (resolve os (join root (to_path path))) as [c|]; cbn; [|done].
    destruct (is_relative_to c root); [|apply IH]. rewrite !first_with_cons.
    destruct (exists_ os c); cbn; [by intros [-> _]%checked_spec|].
    intros Hs%IH. destruct (first_with (exists_ os) _); [done|].
    destruct pe; [done|]. destruct (is_dir os (parent c)); [done|].
    destruct (first_with _ (candidates path sr)); [done|]. destruct fv; [done|]. by f_equal.
Qed.

(** A relative name that repeats the home's place in the workspace. *)
Definition repeats_prefix (path : string) (home ws : Path) : Prop :=
  ∃ prefix, relative_to home ws = Some prefix ∧ prefix ≠ [] ∧
    take (length prefix) (parts (to_path path)) = prefix.

Lemma redirect_cases path home h ws :
  active_home = Some home → resolve_str home = Ret h → workspace = Ret ws →
  match _redirect_doubled_home_path path with
  | Ret (Some p) => repeats_prefix path h ws ∧ resolve os (join ws (to_path path)) = Ret p
  | Ret None => repeats_prefix path h ws →
      ∃ q, resolve os (join ws (to_path path)) = Ret q ∧ ¬ inside q ws
  | Raise _ => True
  end.
Proof.
  intros Hhome Hh Hws. unfold _redirect_doubled_home_path, repeats_prefix.
  rewrite Hhome, Hws. cbn. rewrite Hh. cbn.
  destruct (relative_to h ws) as [prefix|]; cbn; [|by intros (? & ? & _)].
  case_decide; [naive_solver|]. case_decide as Htake; [naive_solver|].
  destruct (resolve os _) as [c|] eqn:Ec; cbn; [|done].
  destruct (is_relative_to c ws) eqn:Erel; [naive_solver|].
  intros _. exists c. split; [done|]. rewrite <-is_relative_to_spec. congruence.
Qed.

End policy.

(** A write stays in its roots; under an override, in the override. *)
Lemma safe_write_path_contained (os : OS) (ctx : Ctx) (path : string) :
  match safe_write_path os ctx path with
  | Ret p => ∃ roots, allowed_write_roots os ctx = Ret roots ∧ admissible os roots p ∧
      match truthy (WORKSPACE_OVERRIDE ctx) with
      | Some o => ∃ w, resolve_str os o = Ret w ∧ inside p w
      | None => True
      end
  | Raise _ => True
  end.
Proof.
  unfold safe_write_path, allowed_write_roots.
  destruct (_base_roots os ctx) as [roots|] eqn:Hr; cbn [result_bind]; [|done].
  pose proof (base_roots_spec os ctx roots Hr) as (ws & Hws & Hin & Hover).
  destruct (_resolve_within os ctx path roots true) as [p|] eqn:Hp; [|done].
  eapply resolve_within_admissible in Hp as Hadm; [|done..].
  exists roots. split_and!; [done..|].
  destruct (WORKSPACE_OVERRIDE ctx) as [o|] eqn:Ho; [|done]. subst roots.
  destruct Hadm as (_ & (root & ->%list_elem_of_singleton & Hi) & _).
  unfold workspace in Hws. rewrite Ho in Hws. destruct (truthy (Some o)); eauto.
Qed.


(** Where a relative name lands when a space home is active.  If the name
    does not already mean something inside a root to the process itself, it is
    taken against the home and the workspace and against nothing else (not
    /tmp, which is a root too).  A name that repeats the home's own place in
    the workspace is read from the workspace; otherwise the file that exists
    wins, then the directory that exists, then the home. *)
Theorem relative_name_lands (os : OS) (ctx : Ctx) (path home : string) (h ws r p : Path)
    (roots : list Path)
    (Hhome : active_home ctx = Some home) (Hh : resolve_str os home = Ret h)
    (Hws : workspace os ctx = Ret ws) (Hroots : allowed_write_roots os ctx = Ret roots)
    (Hr : resolve_str os path = Ret r) (Hout : ∀ root, root ∈ roots → ¬ inside r root)
    (Hp : safe_write_path os ctx path = Ret p) :
  (inside p h ∨ inside p ws) ∧
  ((repeats_prefix path h ws ∧ resolve os (join ws (to_path path)) = Ret p ∧ inside p ws) ∨
   landing os (candidates os path (if decide (h = ws) then [ws] else [h; ws])) = Some p ∧
   (repeats_prefix path h ws →
      ∃ q, resolve os (join ws (to_path path)) = Ret q ∧ ¬ inside q ws)).
Proof.
  assert (relative_roots : _relative_resolution_roots os ctx roots =
            Ret (if decide (h = ws) then [ws] else [h; ws])).
  { unfold allowed_write_roots, _base_roots in Hroots. rewrite Hhome, Hws in Hroots. cbn in Hroots.
    rewrite Hh in Hroots. cbn in Hroots.
    assert (∀ q, q ∈ append_new [h] ws → q ∈ roots) as Hsub.
    { intros q Hq. destruct (WORKSPACE_OVERRIDE ctx); [by injection Hroots as <-|].
      destruct (resolve_str os "/tmp"); cbn in Hroots; [|done]. injection Hroots as <-. set_solver. }
    unfold _relative_resolution_roots. rewrite Hhome, Hws. cbn. rewrite Hh. cbn.
    rewrite !decide_True by (apply Hsub; rewrite elem_of_append_new; set_solver).
    unfold append_new. destruct (decide (h = ws)) as [->|Hne].
    - by rewrite decide_True by set_solver.
    - by rewrite decide_False by set_solver. }
  assert (prefers_existing ctx = true) as Hpref.
  { unfold active_home, prefers_existing in *. destruct (WORKSPACE_OVERRIDE ctx); [done|].
    by destruct (WORKSPACE_HOME ctx). }
  unfold safe_write_path in Hp. rewrite Hroots in Hp. cbn in Hp. unfold _resolve_within in Hp.
  destruct (make_roots os roots) as [u|]; cbn in Hp; [|done].
  rewrite Hr in Hp. cbn in Hp.
  destruct (existsb _ _) eqn:Eex in Hp.
  { apply existsb_exists in Eex as (root & Hin%list_elem_of_In & Hrel%is_relative_to_spec).
    by apply Hout in Hrel. }
  pose proof (redirect_cases os ctx path home h ws Hhome Hh Hws) as Hred.
  destruct (_redirect_doubled_home_path os ctx path) as [[c|]|] eqn:Ered; cbn in Hp; [| |done].
  - apply checked_spec in Hp as [-> _]. apply redirect_spec in Ered as (ws' & rel & Hws' & _ & Hin).
    rewrite Hws in Hws'. injection Hws' as <-. tauto.
  - rewrite Hpref, relative_roots in Hp. cbn in Hp. split.
    + eapply scan_contained in Hp as (_ & (root & Hroot & Hi) & _); [|done|naive_solver].
      destruct (decide (h = ws)); set_solver.
    + right. split; [|done]. apply scan_landing in Hp. cbn in Hp. unfold landing.
      destruct (first_with _ _); [by f_equal|]. destruct (first_with _ _); [by f_equal|]. done.
Qed.

(** A system without symbolic links whose process runs in [/app]: names are
    resolved by their text, two files and their directories exist. *)
Definition walk_names (l : list string) : list string :=
  foldl (λ acc n, if decide (n = "..")%string then take (length acc - 1) acc else acc ++ [n]) [] l.
Definition plain_os : OS := {|
  resolve := λ p, Ret (mkPath "/" (walk_names
    ((if is_absolute p then [] else ["app"%string]) ++ names p)));
  exists_ := λ p, bool_decide (p ∈ [to_path "/w/notes.md"; to_path "/tmp/scratch.md"]);
  is_dir := λ p, bool_decide (p ∈ [to_path "/w"; to_path "/w/impl"; to_path "/w/spaces/mesh"; to_path "/tmp"]);
  mkdir := λ _, Ret tt
|}.
Definition in_space : Ctx :=
  mkCtx None (Some "/w/spaces/mesh"%string) "/w" "/skills" "/out" false "/k" "/data".
Definition sandboxed : Ctx :=
  mkCtx (Some "/box"%string) (Some "/w/spaces/mesh"%string) "/w" "/skills" "/out" false "/k" "/data".

Example existing_file_wins :
  safe_write_path plain_os in_space "notes.md" = Ret (to_path "/w/notes.md").
Proof. reflexivity. Qed.
Example sibling_directory_wins :
  safe_write_path plain_os in_space "impl/new.py" = Ret (to_path "/w/impl/new.py").
Proof. reflexivity. Qed.
Example tmp_does_not_capture :
  safe_write_path plain_os in_space "scratch.md" = Ret (to_path "/w/spaces/mesh/scratch.md").
Proof. reflexivity. Qed.
Example doubled_prefix :
  safe_write_path plain_os in_space "spaces/mesh/x.py" = Ret (to_path "/w/spaces/mesh/x.py").
Proof. reflexivity. Qed.
Example traversal_refused :
  safe_write_path plain_os sandboxed "../w/notes.md" = Raise (NotWithinAllowed "../w/notes.md").
Proof. reflexivity. Qed.
Example git_refused :
  safe_write_path plain_os sandboxed "a/.GIT/hooks/x" = Raise (ProtectedDirectory ".GIT").
Proof. reflexivity. Qed.

Lemma relative_name_lands_witness :
  landing plain_os (candidates plain_os "notes.md"
    [to_path "/w/spaces/mesh"; to_path "/w"]) = Some (to_path "/w/notes.md").
Proof.
  destruct (relative_name_lands plain_os in_space "notes.md" "/w/spaces/mesh"
    (to_path "/w/spaces/mesh") (to_path "/w") (to_path "/app/notes.md") (to_path "/w/notes.md")
    [to_path "/w/spaces/mesh"; to_path "/w"; to_path "/tmp"]) as [_ [(_ & _ & _)|[Hland _]]];
    [reflexivity|reflexivity|reflexivity|reflexivity|reflexivity| |reflexivity|reflexivity|exact Hland].
  apply Forall_forall. repeat constructor; intros [_ [below [=]]].
Defined.

(** Jobs and gates, which run outside the call, compute the same two roots the
    tools of the call see (an override is never the empty string). *)
Lemma roots_for_context_agrees os ctx :
  WORKSPACE_OVERRIDE ctx ≠ Some ""%string →
  roots_for_context os ctx (WORKSPACE_OVERRIDE ctx) (WORKSPACE_HOME ctx) =
    let! ws := workspace os ctx in let! home := workspace_home os ctx in Ret (ws, home).
Proof.
  intros Hne. unfold roots_for_context, workspace_home, workspace, active_home.
  destruct (WORKSPACE_OVERRIDE ctx) as [[|a o]|]; [done| |]; cbn.
  - by destruct (resolve_str _ _).
  - destruct (resolve_str os (workspace_dir ctx)); cbn; [|done].
    by destruct (truthy (WORKSPACE_HOME ctx)).
Qed.
