(* ===== verification/Truncation.v ===== *)
(** * Previews and acquisition records (core/tools/truncation.py)

    What a tool captured ([acquisition_meta] and the notes it gives rise to)
    and what the model is shown of it ([truncate_output]: a preview cut at a
    line boundary and the cursor to the rest), with the collapse of repeated
    lines from core/tools/builtin/core_tools.py that runs before.  Header
    texts are constructors carrying the numbers they show.  Whether the
    artifact could be written, and where, is an argument. *)
From S2P Require Import Prelude PyStr.

Definition MAX_OUTPUT : nat := Z.to_nat 50000.

(** ** Lines *)

(** [s.splitlines]-like pieces at line feeds, each with its terminator. *)
Fixpoint lines_of (s : text) : list text :=
  match s with
  | [] => []
  | c :: s =>
      if decide (c = NL) then [c] :: lines_of s
      else match lines_of s with
           | [] => [[c]]
           | l :: ls => (c :: l) :: ls
           end
  end.

Definition ends_with_nl (s : text) : bool := bool_decide (last s = Some NL).
Definition line_count (s : text) : nat :=
  match s with
  | [] => 0
  | _ => count [NL] s + (if ends_with_nl s then 0 else 1)
  end.

(** [s.rfind("\n")] *)
Fixpoint rfind_nl (s : text) : option nat :=
  match s with
  | [] => None
  | c :: s =>
      match rfind_nl s with
      | Some n => Some (S n)
      | None => if decide (c = NL) then Some 0 else None
      end
  end.

Definition _head_at_line_boundary (output : text) (max_bytes : nat) : text * nat * bool :=
  let window := take max_bytes output in
  match rfind_nl window with
  | None => (window, 0, true)
  | Some cut => let preview := take (S cut) window in (preview, count [NL] preview, false)
  end.
(** [output[-max_bytes:]]; a zero takes everything. *)
Definition _tail_at_line_boundary (output : text) (max_bytes : nat) : text * nat * bool :=
  let window := match max_bytes with O => output | _ => drop (length output - max_bytes) output end in
  match find [NL] window with
  | None => (window, 0, true)
  | Some nl => let preview := drop (S nl) window in (preview, line_count preview, false)
  end.

(** ** Acquisition *)
Record Meta := mkMeta {
  source : string;
  unit_ : string;
  captured : Z;
  source_total : option Z;
  source_complete : bool;
  truncation_reason : string;
  artifact : string
}.
#[export] Instance Meta_settable : Settable Meta := λ m,
  mkMeta (source m) (unit_ m) (captured m) (source_total m) (source_complete m)
    (truncation_reason m) (artifact m).

Definition acquisition_meta (source : string) (captured : Z) (source_total : option Z)
    (unit_ truncation_reason artifact : string) : Meta :=
  let complete := match source_total with Some n => (n <=? captured)%Z | None => false end in
  mkMeta source unit_ captured source_total complete
    (if complete then ""%string else truncation_reason) artifact.

Inductive AcqNote :=
| Incomplete (source unit : string) (captured : Z) (total : option Z) (reason artifact : string)
| Evidence (source unit : string) (captured : Z) (artifact : string).

Definition acquisition_note (m : Meta) : option AcqNote :=
  if source_complete m then None
  else Some (Incomplete (source m) (unit_ m) (captured m) (source_total m)
               (if decide (truncation_reason m = "")%string then "an acquisition cap"%string
                else truncation_reason m) (artifact m)).
Definition evidence_pointer (m : Meta) : option AcqNote :=
  if decide (artifact m = "")%string then None
  else if source_complete m then Some (Evidence (source m) (unit_ m) (captured m) (artifact m))
  else None.
Definition acquisition_notes (metas : list Meta) : list AcqNote :=
  omap (λ m, match acquisition_note m with Some n => Some n | None => evidence_pointer m end) metas.

(** ** Rendering *)
Inductive Cursor :=
| ReadFrom (path : string) (offset : nat)
| CutFrom (path : string) (char : nat) (step_past : bool).

Inductive Rendered :=
| Whole (output : text)
| Clipped (preview : text) (total_chars : nat)
| Preview (shown total_lines preview_chars total_chars : nat) (cursor : Cursor)
    (notes : list AcqNote) (rlm : bool) (preview : text).

Record RenderMeta := mkRenderMeta {
  truncated : bool;
  total_chars : nat;
  all_complete : bool;
  output_path : option string
}.

(** [written] is [write_artifact]'s path, or [None] when it failed. *)
Definition truncate_output (output : text) (tail : bool) (max_bytes : nat) (sources : list Meta)
    (written : option string) (rlm_available : bool) : Rendered * RenderMeta :=
  let meta := mkRenderMeta false (length output) (forallb source_complete sources) None in
  if decide (length output ≤ max_bytes) then (Whole output, meta) else
  match written with
  | None => (Clipped (take max_bytes output) (length output),
             mkRenderMeta true (length output) (forallb source_complete sources) None)
  | Some rel_path =>
      let total_lines := line_count output in
      let '(preview, shown, mid_line) :=
        if tail then _tail_at_line_boundary output max_bytes
        else _head_at_line_boundary output max_bytes in
      let next_offset := if tail then total_lines - shown else shown in
      let cursor := if mid_line : bool then CutFrom rel_path (length preview + 1) (1 <? total_lines)
                    else ReadFrom rel_path next_offset in
      (Preview shown total_lines (length preview) (length output) cursor
         (acquisition_notes sources) rlm_available preview,
       mkRenderMeta true (length output) (forallb source_complete sources) (Some rel_path))
  end.

(** ** The readability collapse *)
Definition occurrences (line : text) (lines : list text) : nat :=
  length (filter (λ l, l = line) lines).
Definition is_noisy (threshold : nat) (lines : list text) (line : text) : bool :=
  bool_decide (strip line ≠ []) && (threshold <=? occurrences line lines).
(** The loop: [seen] are the lines passed so far, [omitted] an insertion-ordered
    count per line. *)
Fixpoint collapse_loop (noisy : text → bool) (keep : nat) (seen : list text)
    (omitted : list (text * nat)) (lines : list text) : list text * list (text * nat) :=
  match lines with
  | [] => ([], omitted)
  | line :: lines =>
      if noisy line && (keep <=? occurrences line seen) then
        let omitted :=
          if decide (line ∈ omitted.*1)
          then (λ e, if decide (e.1 = line) then (e.1, S e.2) else e) <$> omitted
          else omitted ++ [(line, 1)] in
        collapse_loop noisy keep (line :: seen) omitted lines
      else
        let '(out, omitted) := collapse_loop noisy keep (line :: seen) omitted lines in
        (line :: out, omitted)
  end.
(** The lines kept and, appended after them, how many of which were left out. *)
Definition _collapse_repeated_lines (output : text) (threshold keep : nat)
    : list text * list (text * nat) :=
  let lines := split_lines output in
  if decide (length lines < threshold) then (lines, []) else
  if existsb (is_noisy threshold lines) lines
  then collapse_loop (is_noisy threshold lines) keep [] [] lines
  else (lines, []).

(** ** Lines and counts *)
Lemma count_nl_nil : count [NL] [] = 0.
Proof. done. Qed.
Lemma count_nl_cons c s : count [NL] (c :: s) = (if decide (c = NL) then 1 else 0) + count [NL] s.
Proof.
  unfold count. cbn [count_from starts_with length]. rewrite andb_true_r.
  case_decide as Hc; [subst; by rewrite N.eqb_refl|]. by destruct (N.eqb_spec NL c).
Qed.
Lemma count_nl_app s1 s2 : count [NL] (s1 ++ s2) = count [NL] s1 + count [NL] s2.
Proof.
  induction s1 as [|c s1 IH]; [done|]. cbn [app]. rewrite !count_nl_cons, IH. lia.
Qed.
Lemma count_nl_none s : NL ∉ s → count [NL] s = 0.
Proof.
  induction s as [|c s IH]; [done|]. rewrite not_elem_of_cons, count_nl_cons.
  intros [? ?]. rewrite decide_False by congruence. by rewrite IH.
Qed.

Lemma lines_of_concat s : concat (lines_of s) = s.
Proof.
  induction s as [|c s IH]; cbn; [done|]. case_decide; cbn; [by rewrite IH|].
  destruct (lines_of s) as [|l ls]; cbn in *; by rewrite <-IH.
Qed.
Lemma lines_of_nil s : lines_of s = [] → s = [].
Proof. intros Hs. by rewrite <-(lines_of_concat s), Hs. Qed.
Lemma ends_with_nl_cons c s : s ≠ [] → ends_with_nl (c :: s) = ends_with_nl s.
Proof. by destruct s. Qed.

(** A complete text ends its last line. *)
Lemma lines_of_app s1 s2 :
  s1 = [] ∨ ends_with_nl s1 = true → lines_of (s1 ++ s2) = lines_of s1 ++ lines_of s2.
Proof.
  induction s1 as [|c s1 IH]; [done|]. intros [?|Hnl]; [done|]. cbn [app lines_of].
  destruct (decide (c = NL)) as [->|Hc].
  - cbn. f_equal. apply IH. destruct s1 as [|c' s1]; [auto|right]. by rewrite ends_with_nl_cons in Hnl.
  - destruct s1 as [|c' s1]; [exfalso; apply bool_decide_eq_true in Hnl; cbn in Hnl; congruence|].
    rewrite ends_with_nl_cons in Hnl by done. rewrite IH by auto.
    destruct (lines_of (c' :: s1)) as [|l ls] eqn:E; [by apply lines_of_nil in E|done].
Qed.
Lemma line_count_lines s : line_count s = length (lines_of s).
Proof.
  induction s as [|c s IH]; [done|]. cbn [lines_of]. unfold line_count at 1.
  rewrite count_nl_cons. destruct s as [|c' s].
  - cbn. unfold ends_with_nl. cbn. repeat case_decide; subst; try done;
      case_bool_decide; congruence || done.
  - rewrite ends_with_nl_cons by done. unfold line_count in IH.
    destruct (decide (c = NL)); [cbn [length]; lia|].
    destruct (lines_of (c' :: s)) as [|l ls] eqn:E; [by apply lines_of_nil in E|]. cbn in *. lia.
Qed.
Lemma lines_of_complete s : ends_with_nl s = true → length (lines_of s) = count [NL] s.
Proof.
  intros Hs. rewrite <-line_count_lines. unfold line_count. rewrite Hs.
  destruct s; [done|]. lia.
Qed.

Lemma rfind_nl_spec s :
  match rfind_nl s with
  | Some n => ∃ a b, s = a ++ NL :: b ∧ length a = n ∧ NL ∉ b
  | None => NL ∉ s
  end.
Proof.
  induction s as [|c s IH]; cbn; [apply not_elem_of_nil|]. destruct (rfind_nl s) as [n|].
  - destruct IH as (a & b & -> & <- & Hb). by exists (c :: a), b.
  - case_decide as Hc; [subst; by exists [], s|]. by rewrite not_elem_of_cons.
Qed.

Lemma ends_with_nl_snoc a : ends_with_nl (a ++ [NL]) = true.
Proof. unfold ends_with_nl. rewrite last_snoc. by apply bool_decide_eq_true. Qed.

(** The head cut: a whole number of lines, or a piece of the first. *)
Lemma head_boundary_spec output max :
  let '(preview, shown, mid) := _head_at_line_boundary output max in
  prefix preview output ∧ length preview ≤ max ∧
  if mid : bool then preview = take max output ∧ (NL ∉ preview) ∧ shown = 0
  else ends_with_nl preview = true ∧ shown = length (lines_of preview) ∧ 0 < shown.
Proof.
  unfold _head_at_line_boundary. pose proof (rfind_nl_spec (take max output)) as Hf.
  destruct (rfind_nl (take max output)) as [cut|].
  - destruct Hf as (a & b & Hw & <- & _).
    assert (take (S (length a)) (take max output) = a ++ [NL]) as ->.
    { rewrite Hw. replace (S (length a)) with (length (a ++ [NL])) by (rewrite length_app; cbn; lia).
      change (a ++ NL :: b) with (a ++ [NL] ++ b). by rewrite app_assoc, take_app_length. }
    assert (prefix (a ++ [NL]) (take max output)) as Hp.
    { rewrite Hw. change (a ++ NL :: b) with (a ++ [NL] ++ b). rewrite app_assoc. by apply prefix_app_r. }
    split_and!.
    + etransitivity; [exact Hp|]. by apply prefix_take.
    + apply prefix_length in Hp. rewrite length_take in Hp. lia.
    + apply ends_with_nl_snoc.
    + by rewrite lines_of_complete by apply ends_with_nl_snoc.
    + rewrite count_nl_app. cbn. lia.
  - split_and!; try done; [by apply prefix_take|rewrite length_take; lia].
Qed.

(** A truncated preview and its cursor lose nothing.  What is longer than
    the budget is shown up to a line boundary, and the cursor's offset is the
    number of lines shown, so the preview and the lines from that offset are
    the whole output; only a first line wider than the budget is cut inside,
    and then the cursor names the first character not shown.  Nothing is said
    to be complete that an acquisition cut. *)
Theorem head_preview_and_cursor_cover (output : text) (max_bytes : nat) (sources : list Meta)
    (written : option string) (rlm : bool) :
  let '(r, meta) := truncate_output output false max_bytes sources written rlm in
  total_chars meta = length output ∧
  (truncated meta = false ↔ length output ≤ max_bytes) ∧
  (all_complete meta = true ↔ ∀ m, m ∈ sources → source_complete m = true) ∧
  match r with
  | Whole s => s = output
  | Clipped s n => s = take max_bytes output ∧ n = length output ∧ written = None
  | Preview shown total chars total_chars cursor _ _ preview =>
      written = output_path meta ∧ length preview ≤ max_bytes ∧ chars = length preview ∧
      total_chars = length output ∧ total = length (lines_of output) ∧
      match cursor with
      | ReadFrom p k => Some p = written ∧ 0 < k ∧ shown = k ∧
          preview ++ concat (drop k (lines_of output)) = output
      | CutFrom p c more => Some p = written ∧ shown = 0 ∧ (NL ∉ preview) ∧
          preview ++ drop (c - 1) output = output ∧ (more = true ↔ 1 < total)
      end
  end.
Proof.
  assert (forallb source_complete sources = true ↔
            ∀ x, x ∈ sources → source_complete x = true) as Hall.
  { rewrite forallb_forall. by setoid_rewrite list_elem_of_In. }
  unfold truncate_output. case_decide as Hlen.
  { cbn. split; [done|]. split; [done|]. split; [exact Hall|done]. }
  destruct written as [p|].
  2: { cbn. split; [done|]. split; [split; [done|lia]|]. split; [exact Hall|done]. }
  pose proof (head_boundary_spec output max_bytes) as Hh.
  destruct (_head_at_line_boundary output max_bytes) as [[preview shown] mid].
  destruct Hh as ([rest Hrest] & Hmax & Hmid). cbn -[Nat.ltb]. rewrite line_count_lines.
  split; [done|]. split; [split; [done|lia]|]. split; [exact Hall|].
  do 5 (split; [done|]). destruct mid.
  - destruct Hmid as (-> & Hnl & ->). do 3 (split; [done|]). split; [|apply Nat.ltb_lt].
    set (k := take max_bytes output) in *. replace (length k + 1 - 1) with (length k) by lia.
    by rewrite Hrest, drop_app_length.
  - destruct Hmid as (Hnl & -> & Hpos). do 3 (split; [done|]).
    rewrite Hrest at 1. rewrite lines_of_app by auto. by rewrite drop_app_length, lines_of_concat.
Qed.

(** ** The collapse accounts for every line *)
Definition tally (line : text) (omitted : list (text * nat)) : nat :=
  sum_list_with (λ e, if decide (e.1 = line) then e.2 else 0) omitted.

Lemma occurrences_cons x line lines :
  occurrences x (line :: lines) = (if decide (line = x) then 1 else 0) + occurrences x lines.
Proof.
  unfold occurrences. case_decide; [by rewrite filter_cons_True|by rewrite filter_cons_False].
Qed.

Lemma tally_bump x line omitted :
  NoDup omitted.*1 →
  tally x (if decide (line ∈ omitted.*1)
           then (λ e, if decide (e.1 = line) then (e.1, S e.2) else e) <$> omitted
           else omitted ++ [(line, 1)]) =
    (if decide (line = x) then 1 else 0) + tally x omitted.
Proof.
  intros Hnd. case_decide as Hin.
  - induction omitted as [|[l n] om IH]; [cbn in Hin; by apply not_elem_of_nil in Hin|].
    apply NoDup_cons in Hnd as [Hl Hnd]. apply elem_of_cons in Hin as [Hin|Hin].
    + cbn in Hin. subst l. unfold tally. cbn. rewrite (decide_True (P := line = line)) by done. cbn.
      assert ((λ e, if decide (e.1 = line) then (e.1, S e.2) else e) <$> om = om) as ->.
      { rewrite <-(list_fmap_id om) at 2. apply list_fmap_ext. intros i e He.
        rewrite decide_False; [done|]. intros <-. apply Hl. apply list_elem_of_fmap.
        exists e. split; [done|]. by eapply list_elem_of_lookup_2. }
      case_decide; lia.
    + unfold tally in *. cbn in IH, Hl |- *. rewrite (decide_False (P := l = line)) by congruence.
      cbn. rewrite IH by done. repeat case_decide; lia.
  - unfold tally. rewrite sum_list_with_app. cbn. case_decide; lia.
Qed.

Lemma keys_bump (line : text) (omitted : list (text * nat)) :
  NoDup omitted.*1 →
  NoDup ((if decide (line ∈ omitted.*1)
          then (λ e, if decide (e.1 = line) then (e.1, S e.2) else e) <$> omitted
          else omitted ++ [(line, 1)]).*1).
Proof.
  intros Hnd. case_decide as Hin.
  - rewrite <-list_fmap_compose. erewrite list_fmap_ext; [exact Hnd|].
    intros i e He. cbn. by case_decide.
  - rewrite fmap_app. apply NoDup_app. split_and!; [done| |repeat constructor; apply not_elem_of_nil].
    intros l Hl ->%list_elem_of_singleton. done.
Qed.

Lemma collapse_loop_spec noisy keep seen omitted lines :
  NoDup omitted.*1 →
  let '(out, om) := collapse_loop noisy keep seen omitted lines in
  sublist out lines ∧
  (∀ x, occurrences x out + tally x om = occurrences x lines + tally x omitted) ∧
  (∀ x, noisy x = false → occurrences x out = occurrences x lines) ∧
  (∀ x, noisy x = true → occurrences x out ≤ keep - occurrences x seen).
Proof.
  revert seen omitted. induction lines as [|line lines IH]; intros seen omitted Hnd; cbn [collapse_loop].
  { split_and!; [constructor|done|done|cbn; lia]. }
  destruct (noisy line && (keep <=? occurrences line seen)) eqn:Hskip.
  - set (omitted' := if decide _ then _ else _).
    specialize (IH (line :: seen) omitted' (keys_bump line omitted Hnd)).
    destruct (collapse_loop _ _ _ _ _) as [out om]. destruct IH as (Hsub & Htally & Hquiet & Hkeep).
    apply andb_prop in Hskip as [Hn Hk%Nat.leb_le]. split_and!.
    + by constructor.
    + intros x. rewrite Htally. unfold omitted'. rewrite tally_bump, occurrences_cons by done. lia.
    + intros x Hx. rewrite Hquiet, occurrences_cons by done. case_decide; [congruence|done].
    + intros x Hx. specialize (Hkeep x Hx). rewrite occurrences_cons in Hkeep. lia.
  - specialize (IH (line :: seen) omitted Hnd).
    destruct (collapse_loop _ _ _ _ _) as [out om]. destruct IH as (Hsub & Htally & Hquiet & Hkeep).
    split_and!.
    + by constructor.
    + intros x. rewrite !occurrences_cons. specialize (Htally x). lia.
    + intros x Hx. by rewrite !occurrences_cons, Hquiet.
    + intros x Hx. specialize (Hkeep x Hx). rewrite occurrences_cons in Hkeep |- *.
      case_decide; [subst|lia]. rewrite Hx in Hskip. cbn in Hskip. apply Nat.leb_gt in Hskip. lia.
Qed.

(** Collapsing repeated lines changes no order and loses count of nothing: what
    is kept is a subsequence, every line's occurrences are kept or counted in
    its marker, lines that are not noisy all stay, of a noisy one [keep]. *)
Lemma collapse_accounts_for_every_line (output : text) (threshold keep : nat) :
  let '(out, omitted) := _collapse_repeated_lines output threshold keep in
  sublist out (split_lines output) ∧
  ∀ line, occurrences line out + tally line omitted = occurrences line (split_lines output) ∧
    (is_noisy threshold (split_lines output) line = false →
     occurrences line out = occurrences line (split_lines output)).
Proof.
  unfold _collapse_repeated_lines. case_decide; [split_and!; [done|intros; unfold tally; cbn; lia]|].
  destruct (existsb _ _); [|split_and!; [done|intros; unfold tally; cbn; lia]].
  pose proof (collapse_loop_spec (is_noisy threshold (split_lines output)) keep [] []
    (split_lines output)) as Hspec.
  destruct (collapse_loop _ _ _ _ _) as [out om]. destruct Hspec as (? & Ht & Hq & _); [constructor|].
  split; [done|]. intros line. split; [|by apply Hq]. rewrite Ht. unfold tally. cbn. lia.
Qed.
