(* ===== verification/FileTools.v ===== *)
(** * file_read and file_write (core/tools/builtin/core_tools.py), and what the
    file tools together can touch

    [file_read] over any tree of files, page by page; [file_write] with its
    revision check over the file systems of [Atomic] and any [TargetWriter];
    and the path policy of [Paths] put in front of the editing tools of
    [FileEdit].  A read in text mode replaces undecodable bytes and turns
    every line ending into a line feed. *)
From stdpp Require Import sorting.
From S2P Require Import Prelude PyStr PyText Atomic EditMatch FileEdit Paths Truncation.

(** ** Reading *)
(** The lines [for line in f] yields. *)
Definition file_lines (b : bytes) : list text := lines_of (universal_newlines (decode b)).

Fixpoint lstrip_nl (s : text) : text :=
  match s with
  | c :: s' => if decide (c = NL) then lstrip_nl s' else s
  | [] => []
  end.
(** [line.rstrip("\n")] *)
Definition chomp (line : text) : text := reverse (lstrip_nl (reverse line)).

Inductive Entry :=
| IsDir (entries : list (bool * string))   (** is a directory, name *)
| IsFile (b : bytes)
| IsOther.

Inductive ReadReply :=
| Listing (entries : list (bool * string)) (more : nat)
| ReadNotFound
| ReadNotAFile
| ReadBinary (size : nat)
| ReadPathError (e : exn)
| ReadOSError
| Contents (s : text)
| Page (first last total : Z) (at_cap : bool) (next : option Z) (numbered : list (Z * text))
| LongLine (line total : Z) (chars : nat) (next : Z) (head : text)
| BigFile (size total : nat) (at_least : bool) (shown chars : nat) (numbered : list (Z * text))
| BigFirstLine (size total : nat) (at_least : bool) (chars : nat) (head : text).

Record PageState := mkPage { pg_lines : list text; pg_chars : nat; pg_truncated : bool }.
#[export] Instance PageState_settable : Settable PageState :=
  λ p, mkPage (pg_lines p) (pg_chars p) (pg_truncated p).

(** One line of a page, if it still fits. *)
Definition add_line (cap : nat) (line : text) (p : PageState) : PageState :=
  if cap <? pg_chars p + length line then p <| pg_truncated := true |>
  else p <| pg_lines ::= λ l, l ++ [chomp line] |> <| pg_chars ::= λ n, n + length line |>.
Fixpoint page_loop (cap : nat) (offset limit i : Z) (p : PageState) (lines : list text) : PageState :=
  match lines with
  | [] => p
  | line :: lines =>
      page_loop cap offset limit (i + 1)
        (if (i <? offset)%Z then p
         else if pg_truncated p || ((0 <? limit) && (limit <=? Z.of_nat (length (pg_lines p))))%Z
         then p else add_line cap line p) lines
  end.
(** [_read_one_line_head]: the start of line [index] and its length. *)
Definition _read_one_line_head (cap : nat) (lines : list text) (index : Z) : text * nat :=
  match (if (0 <=? index)%Z then lines !! Z.to_nat index else None) with
  | Some line => (take cap (chomp line), length (chomp line))
  | None => ([], 0)
  end.
Definition number_from (first : Z) (lines : list text) : list (Z * text) :=
  imap (λ i l, (first + Z.of_nat i, l)%Z) lines.

Definition read_page (cap : nat) (lines : list text) (offset limit : Z) : ReadReply :=
  let p := page_loop cap offset limit 0 (mkPage [] 0 false) lines in
  let total := Z.of_nat (length lines) in
  let shown := Z.of_nat (length (pg_lines p)) in
  let end_line := (offset + shown)%Z in
  let remaining := (total - end_line)%Z in
  if pg_truncated p && (shown =? 0)%Z then
    let '(head, line_len) := _read_one_line_head cap lines offset in
    LongLine (offset + 1) total line_len (offset + 1) head
  else Page (offset + 1) end_line total (pg_truncated p)
         (if (0 <? remaining)%Z then Some end_line else None)
         (number_from (offset + 1) (pg_lines p)).

Definition _LINE_COUNT_CEILING : nat := Z.to_nat 1000000.
Definition big_loop (cap : nat) (p : PageState) (lines : list text) : PageState :=
  foldl (λ p line, if pg_truncated p then p else add_line cap line p) p lines.
Definition read_big (cap ceiling size : nat) (lines : list text) : ReadReply :=
  let counted := take ceiling lines in
  let at_least := ceiling <? length lines in
  let total := if at_least then S ceiling else length lines in
  let p := big_loop cap (mkPage [] 0 false) counted in
  match pg_lines p with
  | [] =>
      let '(head, line_len) := _read_one_line_head cap lines 0 in
      BigFirstLine size total at_least line_len head
  | shown => BigFile size total at_least (length shown) (pg_chars p) (number_from 1 shown)
  end.

(** Directories first, then by name; 200 at most. *)
Definition entry_le (a b : bool * string) : Prop :=
  (a.1 = true ∧ b.1 = false) ∨ (a.1 = b.1 ∧ String.leb a.2 b.2 = true).
#[export] Instance entry_le_dec : RelDecision entry_le.
Proof. intros a b. unfold entry_le. apply _. Defined.
Definition listing (entries : list (bool * string)) : ReadReply :=
  Listing (take 200 (merge_sort entry_le entries)) (length entries - 200).

Section reading.
Context (os : OS) (ctx : Ctx) (files : Path → option Entry) (open_fails : bool).

(** A missing path may still name a directory under one of the roots. *)
Fixpoint directory_in (path : string) (roots : list Path) : fallible (option ReadReply) :=
  match roots with
  | [] => Ret None
  | root :: roots =>
      let! candidate := resolve os (join root (to_path path)) in
      match files candidate with
      | Some (IsDir entries) =>
          if is_relative_to candidate root then Ret (Some (listing entries))
          else directory_in path roots
      | _ => directory_in path roots
      end
  end.

Definition file_read_in (path : string) (offset limit : Z) : fallible ReadReply :=
  let! resolved := safe_read_path os ctx path in
  match files resolved with
  | None =>
      let! roots := allowed_read_roots os ctx in
      let! found := directory_in path roots in
      Ret (default ReadNotFound found)
  | Some (IsDir entries) => Ret (listing entries)
  | Some IsOther => Ret ReadNotAFile
  | Some (IsFile b) =>
      if negb open_fails && bool_decide (0%N ∈ take 512 b) then Ret (ReadBinary (length b)) else
      if (0 <? offset)%Z || (0 <? limit)%Z then
        Ret (if open_fails then ReadOSError else read_page MAX_OUTPUT (file_lines b) offset limit)
      else if MAX_OUTPUT <? length b then
        Ret (if open_fails then ReadOSError
             else read_big MAX_OUTPUT _LINE_COUNT_CEILING (length b) (file_lines b))
      else Ret (if open_fails then ReadOSError else Contents (universal_newlines (decode b)))
  end.
Definition file_read (path : string) (offset limit : Z) : ReadReply :=
  match file_read_in path offset limit with
  | Ret r => r
  | Raise (OSError | RuntimeError) => ReadOSError
  | Raise e => ReadPathError e
  end.
End reading.

(** ** Writing *)
Inductive WriteReply :=
| ContentTooLarge
| WritePathError (e : exn)
| WriteBusy
| AlreadyExists (revision : text)
| DoesNotExist
| AtRevision (revision : text)
| WriteError_ (e : WriteError)
| ReadBackError
| Written (chars : nat) (dropped : bool).

Section writing.
Context (os : OS) (ctx : Ctx) {writer : TargetWriter} (sha256 : bytes → text).

(** [str(path)] cut into directory and name. *)
Definition locate (p : Path) : path := (path_string (parent p), path_name p).

(** [file_revision]; [Raise] is an [OSError] other than a missing file. *)
Definition file_revision (fails : bool) (p : path) (fs : FS) : result Datatypes.unit (option text) :=
  match fs !! p with
  | None => Ret None
  | Some n => if fails || negb (bool_decide (node_kind n = Regular)) then Raise tt
              else Ret (Some (sha256 (data n)))
  end.

Definition lower_hex (s : text) : text :=
  (λ c, if (65 <=? c) && (c <=? 90) then c + 32 else c)%N <$> s.

(** [None]: the precondition holds. *)
Definition _revision_mismatch (fails : bool) (p : path) (fs : FS) (expected : text)
    : result Datatypes.unit (option WriteReply) :=
  let! actual := file_revision fails p fs in
  let expected := lower_hex (strip expected) in
  Ret (if decide (expected = t "absent") then AlreadyExists <$> actual
       else match actual with
            | None => Some DoesNotExist
            | Some a => if decide (a = expected) then None else Some (AtRevision a)
            end).

(** [if expected_sha256:] *)
Definition precondition (fails : bool) (p : path) (fs : FS) (expected : option text)
    : result Datatypes.unit (option WriteReply) :=
  match expected with
  | None | Some [] => Ret None
  | Some e => _revision_mismatch fails p fs e
  end.

Definition file_write (cap : nat) (busy revision_fails : bool) (env : WriteEnv) (path : string)
    (content : text) (expected : option text) (fs : FS) : FS * WriteReply :=
  if cap <? length content then (fs, ContentTooLarge) else
  match safe_write_path os ctx path with
  | Raise e => (fs, WritePathError e)
  | Ret resolved =>
      let p := locate resolved in
      if busy then (fs, WriteBusy) else
      match precondition revision_fails p fs expected with
      | Raise _ => (fs, ReadBackError)
      | Ret (Some mismatch) => (fs, mismatch)
      | Ret None =>
          let '(trace, res) := write_target env p content fs in
          (final fs trace,
           match res with
           | Raise e => WriteError_ e
           | Ret out => Written (length content) (dropped_setuid out)
           end)
      end
  end.
End writing.

(** ** Pages *)
Lemma page_loop_skip cap offset limit i p lines :
  (0 ≤ i ≤ offset)%Z →
  page_loop cap offset limit i p lines =
    page_loop cap offset limit offset p (drop (Z.to_nat (offset - i)) lines).
Proof.
  intros Hi. remember (Z.to_nat (offset - i)) as n eqn:Hn. revert i Hi Hn lines.
  induction n as [|n IH]; intros i Hi Hn lines.
  - by replace i with offset by lia.
  - destruct lines as [|line lines]; [done|]. cbn [page_loop drop].
    rewrite (proj2 (Z.ltb_lt i offset)) by lia. apply IH; lia.
Qed.

(** A page that is full takes no more. *)
Definition full (limit : Z) (p : PageState) : bool :=
  pg_truncated p || ((0 <? limit) && (limit <=? Z.of_nat (length (pg_lines p))))%Z.
Lemma page_loop_full cap offset limit i p lines :
  (offset ≤ i)%Z → full limit p = true → page_loop cap offset limit i p lines = p.
Proof.
  intros Hi Hfull. revert i Hi. induction lines as [|line lines IH]; intros i Hi; [done|].
  cbn [page_loop]. rewrite (proj2 (Z.ltb_ge i offset)) by lia. unfold full in Hfull.
  rewrite Hfull. apply IH. lia.
Qed.

(** From the offset on, a page takes a first part of the lines: all of them,
    as many as the limit allows, or up to the first that does not fit. *)
Lemma page_loop_takes cap offset limit i p lines :
  (offset ≤ i)%Z → (0 < limit)%Z → (Z.of_nat (length (pg_lines p)) ≤ limit)%Z →
  ∃ k, k ≤ length lines ∧
    let p' := page_loop cap offset limit i p lines in
    pg_lines p' = pg_lines p ++ (chomp <$> take k lines) ∧
    (∀ l, l ∈ take k lines → length l ≤ cap) ∧
    (k < length lines → full limit p' = true) ∧
    (pg_truncated p = false → pg_truncated p' = true → k < length lines).
Proof.
  intros Hi Hlim. revert i Hi p. induction lines as [|line lines IH]; intros i Hi p Hp.
  { exists 0. cbn. rewrite app_nil_r. split_and!; try done; try lia; [set_solver|congruence]. }
  destruct (full limit p) eqn:Hfull.
  { exists 0. cbv zeta. rewrite page_loop_full by done. cbn. rewrite app_nil_r.
    split_and!; [lia|done|set_solver|done|congruence]. }
  cbn [page_loop]. rewrite (proj2 (Z.ltb_ge i offset)) by lia.
  unfold full in Hfull. rewrite Hfull. apply orb_false_elim in Hfull as [Htr Hroom].
  apply andb_false_iff in Hroom as [?%Z.ltb_ge|Hroom%Z.leb_gt]; [lia|].
  unfold add_line. destruct (cap <? pg_chars p + length line) eqn:Hcap.
  { exists 0. cbv zeta. rewrite page_loop_full by (done || lia). cbn. rewrite app_nil_r.
    split_and!; [lia|done|set_solver|done|lia]. }
  apply Nat.ltb_ge in Hcap.
  set (q := p <| pg_lines ::= _ |> <| pg_chars ::= _ |>).
  destruct (IH (i + 1)%Z ltac:(lia) q) as (k & Hk & Hl & Hfit & Hmore & Hlast).
  { cbn. rewrite length_app. cbn. lia. }
  exists (S k). cbv zeta in *. cbn [take]. rewrite Hl, fmap_cons. split_and!.
  - cbn. lia.
  - subst q. cbn. by rewrite <-app_assoc.
  - intros l [->|?]%elem_of_cons; [lia|auto].
  - cbn. intros. apply Hmore. lia.
  - cbn. intros _ Ht. pose proof (Hlast Htr Ht). lia.
Qed.

(** What a page is, in terms of the lines from its offset on. *)
Definition shown_line (cap : nat) (line : text) : text := take cap (chomp line).

Lemma lstrip_nl_length s : length (lstrip_nl s) ≤ length s.
Proof. induction s as [|c s IH]; cbn; [done|]. case_decide; cbn; lia. Qed.
Lemma chomp_length line : length (chomp line) ≤ length line.
Proof. unfold chomp. rewrite length_reverse, lstrip_nl_length, length_reverse. done. Qed.

Lemma read_page_cases cap lines (o : nat) limit :
  (0 < limit)%Z →
  (∃ k, o + k < length lines ∧ 0 < k ∧
     read_page cap lines (Z.of_nat o) limit =
       Page (Z.of_nat o + 1) (Z.of_nat (o + k)) (Z.of_nat (length lines))
         (pg_truncated (page_loop cap (Z.of_nat o) limit 0 (mkPage [] 0 false) lines))
         (Some (Z.of_nat (o + k)))
         (number_from (Z.of_nat o + 1) (shown_line cap <$> take k (drop o lines)))) ∨
  (∃ last cap', read_page cap lines (Z.of_nat o) limit =
     Page (Z.of_nat o + 1) last (Z.of_nat (length lines)) cap' None
       (number_from (Z.of_nat o + 1) (shown_line cap <$> drop o lines))) ∨
  (∃ line n, lines !! o = Some line ∧
     read_page cap lines (Z.of_nat o) limit =
       LongLine (Z.of_nat o + 1) (Z.of_nat (length lines)) n (Z.of_nat (S o)) (shown_line cap line)).
Proof.
  intros Hlim. unfold read_page.
  set (p := page_loop _ _ _ _ _ _).
  assert (p = page_loop cap (Z.of_nat o) limit (Z.of_nat o) (mkPage [] 0 false) (drop o lines)) as Hp.
  { subst p. rewrite page_loop_skip by lia. do 2 f_equal. lia. }
  destruct (page_loop_takes cap (Z.of_nat o) limit (Z.of_nat o) (mkPage [] 0 false) (drop o lines))
    as (k & Hk & Hl & Hfit & Hmore & Hlast); [cbn; lia..|].
  cbv zeta in Hl, Hmore, Hlast. rewrite <-Hp in Hl, Hmore, Hlast. cbn in Hl.
  rewrite length_drop in *.
  assert (chomp <$> take k (drop o lines) = shown_line cap <$> take k (drop o lines)) as Hshow.
  { apply list_fmap_ext. intros i l Hi. unfold shown_line. rewrite take_ge; [done|].
    etrans; [apply chomp_length|]. apply Hfit. by eapply list_elem_of_lookup_2. }
  assert (length (pg_lines p) = k) as Hlen.
  { rewrite Hl, length_fmap, length_take, length_drop. lia. }
  rewrite Hlen, Hl, Hshow. clear Hp. clearbody p.
  destruct (decide (k < length lines - o)) as [Hlt|Hge].
  - destruct k as [|k].
    + right; right. assert (pg_truncated p = true) as ->.
      { specialize (Hmore Hlt). unfold full in Hmore. rewrite Hlen in Hmore.
        apply orb_true_iff in Hmore as [?|Hm]; [done|]. apply andb_prop in Hm as [_ ?%Z.leb_le]. lia. }
      cbn. unfold _read_one_line_head. rewrite (proj2 (Z.leb_le 0 (Z.of_nat o))) by lia.
      rewrite Nat2Z.id. destruct (lines !! o) as [line|] eqn:Ho.
      * exists line, (length (chomp line)). split; [done|]. f_equal. lia.
      * apply lookup_ge_None in Ho. lia.
    + left. exists (S k). split_and!; [lia|lia|].
      assert (pg_truncated p && (Z.of_nat (S k) =? 0)%Z = false) as ->.
      { destruct (Z.eqb_spec (Z.of_nat (S k)) 0); [lia|apply andb_false_r]. }
      rewrite (proj2 (Z.ltb_lt _ _)) by lia. do 2 f_equal; lia.
  - right; left. assert (pg_truncated p = false) as ->.
    { apply not_true_is_false. intros Ht. specialize (Hlast eq_refl Ht). lia. }
    cbn [andb]. do 2 eexists. rewrite (proj2 (Z.ltb_ge _ _)) by lia.
    rewrite (take_ge (drop o lines)) by (rewrite length_drop; lia). done.
Qed.

(** Calling [file_read] again and again with the offset each page names. *)
Fixpoint follow (fuel cap : nat) (limit : Z) (lines : list text) (offset : Z) : list (Z * text) :=
  match fuel with
  | O => []
  | S fuel =>
      match read_page cap lines offset limit with
      | Page _ _ _ _ next numbered =>
          numbered ++ match next with Some o => follow fuel cap limit lines o | None => [] end
      | LongLine line _ _ next head => (line, head) :: follow fuel cap limit lines next
      | _ => []
      end
  end.

Lemma number_from_app first l1 l2 :
  number_from first (l1 ++ l2) =
    number_from first l1 ++ number_from (first + Z.of_nat (length l1)) l2.
Proof.
  unfold number_from. rewrite imap_app. f_equal. apply imap_ext. intros i x _. cbn. f_equal. lia.
Qed.

Lemma follow_spec (cap : nat) (limit : Z) (lines : list text)
    (offset fuel : nat) (Hlimit : (0 < limit)%Z) (Hfuel : length lines - offset < fuel) :
  follow fuel cap limit lines (Z.of_nat offset) =
    number_from (Z.of_nat offset + 1) (shown_line cap <$> drop offset lines).
Proof.
  revert offset Hfuel. induction fuel as [|fuel IH]; intros o Hfuel; [lia|]. cbn [follow].
  destruct (read_page_cases cap lines o limit Hlimit)
    as [(k & Hk & Hpos & ->)|[(last & at_cap & ->)|(line & n & Hline & ->)]].
  - rewrite IH by lia. rewrite <-(take_drop k (drop o lines)) at 2.
    rewrite fmap_app, number_from_app, drop_drop. do 2 f_equal.
    rewrite length_fmap, length_take, length_drop. lia.
  - by rewrite app_nil_r.
  - pose proof (lookup_lt_Some _ _ _ Hline). rewrite IH by lia.
    rewrite (drop_S lines line o Hline), fmap_cons. change (?a :: ?b) with ([a] ++ b).
    rewrite (number_from_app _ [shown_line cap line]). cbn. f_equal; [f_equal; lia|].
    f_equal. lia.
Qed.

(** C28: The pages of a file add up to the file.  Following the offset each
    page names, from any start, terminates within one call per remaining line
    and one more (more calls show nothing more), and shows every line from there on exactly once, in order
    and under its number; a line wider than the preview budget is the only one
    shown in part, by its beginning. *)
Theorem following_offsets_reads_everything (cap : nat) (limit : Z) (lines : list text)
    (offset fuel : nat) (Hlimit : (0 < limit)%Z) (Hfuel : length lines - offset < fuel) :
  follow fuel cap limit lines (Z.of_nat offset) =
    number_from (Z.of_nat offset + 1) (shown_line cap <$> drop offset lines) ∧
  ∀ more, follow (fuel + more) cap limit lines (Z.of_nat offset) = follow fuel cap limit lines (Z.of_nat offset).
Proof.
  split; [by apply follow_spec|]. intros more. rewrite !follow_spec by lia. done.
Qed.
Lemma following_offsets_reads_everything_witness :
  follow 5 4 2 (lines_of (t "ab" ++ [NL] ++ t "cd" ++ [NL] ++ t "abcdef" ++ [NL] ++ t "z")) 1 =
    [(2%Z, t "cd"); (3%Z, t "abcd"); (4%Z, t "z")].
Proof.
  etransitivity;
    [apply (following_offsets_reads_everything 4 2 _ 1 5); [lia|apply Nat.ltb_lt; reflexivity]|].
  vm_compute. reflexivity.
Defined.

(** ** The artifact a truncation points to *)
Lemma file_lines_encode s b : encode s = Some b → CR ∉ s → file_lines b = lines_of s.
Proof. intros Hb Hs. unfold file_lines. by rewrite (decode_encode s b Hb), universal_newlines_id. Qed.

(** The pointer of a truncated output leads to the rest of it.  For output
    without carriage returns that was written out, reading the artifact page by
    page from the cursor's offset shows exactly the lines after those of the
    preview. *)
Theorem cursor_continues_the_preview (output : text) (b : bytes) (max_bytes k : nat)
    (sources : list Meta) (file : string) (rlm : bool) (limit : Z) (shown total pc tc : nat)
    (notes : list AcqNote) (preview : text) (meta : RenderMeta)
    (Hrender : truncate_output output false max_bytes sources (Some file) rlm =
               (Preview shown total pc tc (ReadFrom file k) notes rlm preview, meta))
    (Hwritten : encode output = Some b) (Hcr : CR ∉ output) (Hlimit : (0 < limit)%Z) :
  ∃ rest, lines_of output = lines_of preview ++ rest ∧
    follow (S (length (file_lines b))) MAX_OUTPUT limit (file_lines b) (Z.of_nat k) =
      number_from (Z.of_nat k + 1) (shown_line MAX_OUTPUT <$> rest).
Proof.
  rewrite (file_lines_encode output b Hwritten Hcr).
  exists (drop k (lines_of output)). split; [|apply follow_spec; lia].
  unfold truncate_output in Hrender. case_decide; [done|].
  pose proof (head_boundary_spec output max_bytes) as Hh.
  destruct (_head_at_line_boundary output max_bytes) as [[p s] mid].
  destruct Hh as ([rest Hrest] & _ & Hmid). destruct mid; [by injection Hrender|].
  destruct Hmid as (Hnl & Hs & _). injection Hrender as -> _ _ _ <- _ -> _. rewrite Hs.
  rewrite Hrest, lines_of_app by auto. by rewrite drop_app_length.
Qed.
Lemma cursor_continues_the_preview_witness :
  ∃ rest, lines_of (t "ab" ++ [NL] ++ t "cd" ++ [NL] ++ t "ef") = lines_of (t "ab" ++ [NL]) ++ rest ∧
    follow 4 MAX_OUTPUT 200 (file_lines (t "ab" ++ [NL] ++ t "cd" ++ [NL] ++ t "ef")) 1 =
      number_from 2 (shown_line MAX_OUTPUT <$> rest).
Proof.
  refine (cursor_continues_the_preview (t "ab" ++ [NL] ++ t "cd" ++ [NL] ++ t "ef") _ 5 1 []
    "data/.tool_output/bash_1.txt" true 200 1 3 3 8 [] (t "ab" ++ [NL]) _ _ eq_refl _ _);
    [vm_compute; reflexivity| |lia].
  apply (bool_decide_unpack _). vm_compute. exact I.
Defined.

(** With carriage returns in the output (any progress bar) the cursor is
    off: the preview counts line feeds, [file_read] counts carriage returns
    too, so the advised offset starts at text already shown. *)
Theorem carriage_returns_shift_the_cursor :
  let output := t "50" ++ [CR] ++ t "100" ++ [NL] ++ t "done" in
  ∃ preview meta b, encode output = Some b ∧
    truncate_output output false 8 [] (Some "out.txt"%string) true =
      (Preview 1 2 7 11 (ReadFrom "out.txt" 1) [] true preview, meta) ∧
    contains (t "100") preview = true ∧
    read_page MAX_OUTPUT (file_lines b) 1 200 = Page 2 3 3 false None [(2%Z, t "100"); (3%Z, t "done")].
Proof.
  intros output.
  exists (t "50" ++ [CR] ++ t "100" ++ [NL]), (mkRenderMeta true 11 true (Some "out.txt"%string)), output.
  split; [vm_compute; reflexivity|]. split; [vm_compute; reflexivity|].
  split; [vm_compute; reflexivity|]. vm_compute. reflexivity.
Qed.

(** ** What a file tool can touch *)
Section sandbox.
Context (os : OS) (ctx : Ctx) {writer : TargetWriter}.

(** Everything but [p] and its temporary neighbour is as before. *)
Definition frame (p tmp : path) (fs fs' : FS) : Prop := ∀ q, q ≠ p → q ≠ tmp → fs' !! q = fs !! q.

Lemma frame_refl p tmp fs : frame p tmp fs fs.
Proof. by intros q. Qed.
#[local] Hint Resolve frame_refl : pernix.

Lemma write_target_frame env p s fs :
  frame p (temp_path (we_rand env) p) fs (final fs (write_target env p s fs).1).
Proof.
  destruct (write_target_ok env p s fs) as [Hvis _]. unfold final.
  destruct (last _) as [s'|] eqn:Hl; [|auto with pernix].
  apply last_Some_elem_of in Hl. by destruct (Hvis s' Hl).
Qed.

Lemma replace_target_frame env p original s fs ok :
  frame p (temp_path (we_rand (write_env env)) p) (outside env fs)
    (replace_target env p original s fs ok).1.
Proof.
  unfold replace_target. destruct (stale_read_error _ _ _ _); [auto with pernix|].
  pose proof (write_target_frame (write_env env) p s (outside env fs)) as Hf.
  by destruct (write_target _ _ _ _).
Qed.

(** An edit of [p] changes nothing else, however it ends. *)
Definition edit_frame (env : EditEnv) (p : path) (fs fs' : FS) : Prop :=
  let tmp := temp_path (we_rand (write_env env)) p in
  frame p tmp fs fs' ∨ frame p tmp (outside env fs) fs'.

Lemma file_edit_frame env p old new ra fs :
  edit_frame env p fs (file_edit env (Some p) old new ra fs).1.
Proof.
  unfold file_edit, file_edit_locked, edit_frame. cbv zeta.
  pose proof (write_target_frame (write_env env) p new fs) as Hw.
  repeat (case_match; cbn [fst]); auto using replace_target_frame with pernix.
  all: try (left; by (match goal with H : write_target _ _ _ _ = _ |- _ => rewrite H in Hw end)).
Qed.

Lemma multiedit_frame env p edits fs : edit_frame env p fs (multiedit env (Some p) edits fs).1.
Proof.
  unfold multiedit, multiedit_locked, edit_frame. cbv zeta.
  repeat (case_match; cbn [fst]); auto using replace_target_frame with pernix.
Qed.

Lemma file_write_frame sha256 cap busy rf env path content expected fs :
  let fs' := (file_write os ctx sha256 cap busy rf env path content expected fs).1 in
  match safe_write_path os ctx path with
  | Ret p => frame (locate p) (temp_path (we_rand env) (locate p)) fs fs'
  | Raise _ => fs' = fs
  end.
Proof.
  cbv zeta. unfold file_write. destruct (_ <? _).
  { cbn [fst]. destruct (safe_write_path _ _ _); auto with pernix. }
  destruct (safe_write_path os ctx path) as [p|]; [|done]. cbv zeta.
  destruct busy; [auto with pernix|]. destruct (precondition _ _ _ _ _) as [[r|]|]; auto with pernix.
  pose proof (write_target_frame env (locate p) content fs) as Hf.
  by destruct (write_target _ _ _ _).
Qed.

(** The target of an editing tool: the path policy first. *)
Definition edit_target (path : string) : option Atomic.path :=
  match safe_write_path os ctx path with Ret p => Some (locate p) | Raise _ => None end.

(** A file that a call given [path] may change: what the policy resolved
    [path] to, inside a write root and unprotected, or the temporary file of
    its replacement next to it. *)
Definition within_reach (path rand : string) (q : Atomic.path) : Prop :=
  ∃ p roots, safe_write_path os ctx path = Ret p ∧ allowed_write_roots os ctx = Ret roots ∧
    admissible os roots p ∧ (q = locate p ∨ q = temp_path rand (locate p)).

Lemma reach_frame path rand p fs fs' :
  safe_write_path os ctx path = Ret p → frame (locate p) (temp_path rand (locate p)) fs fs' →
  ∀ q, fs' !! q = fs !! q ∨ within_reach path rand q.
Proof.
  intros Hp Hf q. pose proof (safe_write_path_contained os ctx path) as Hc. rewrite Hp in Hc.
  destruct Hc as (roots & Hroots & Hadm & _).
  destruct (decide (q = locate p)) as [->|Hne]; [right; exists p, roots; auto|].
  destruct (decide (q = temp_path rand (locate p))) as [->|Hnt]; [right; exists p, roots; auto|].
  left. by apply Hf.
Qed.


(** An overwrite with [expected_sha256] replaces only the revision it
    names.  "Written" means: the content fits the cap, the target was, when
    looked at under the lock, the file with that digest (or missing, for
    "absent"), and it now is a regular file holding exactly the encoding of
    the content, without the setuid bit, at the mode it had (a new file at
    0600).  Every other reply leaves the target as it was. *)
Theorem file_write_outcome (sha256 : bytes → text) (cap : nat) (busy revision_fails : bool)
    (env : WriteEnv) (path : string) (content : text) (expected : option text) (fs : FS) :
  let '(fs', r) :=
    file_write os ctx sha256 cap busy revision_fails env path content expected fs in
  match r with
  | Written n dropped =>
      ∃ p b, safe_write_path os ctx path = Ret p ∧ n = length content ∧ n ≤ cap ∧
        encode content = Some b ∧
        replaced (we_stat_fails env) (locate p) b fs fs' dropped ∧
        match expected with
        | None | Some [] => True
        | Some e =>
            if decide (lower_hex (strip e) = t "absent") then fs !! locate p = None
            else ∃ node, fs !! locate p = Some node ∧ node_kind node = Regular ∧
                   sha256 (data node) = lower_hex (strip e)
        end
  | WriteError_ _ =>
      ∃ p, safe_write_path os ctx path = Ret p ∧ kept (we_unlink_ok env) (locate p) fs fs'
  | _ => fs' = fs
  end.
Proof.
  unfold file_write. destruct (Nat.ltb_spec cap (length content)) as [|Hcap]; [done|].
  destruct (safe_write_path os ctx path) as [p|]; [|done]. cbv zeta.
  destruct busy; [done|].
  destruct (precondition _ _ _ _ _) as [[r|]|] eqn:Hpre; [| |done].
  - assert (r = DoesNotExist ∨ (∃ a, r = AlreadyExists a) ∨ ∃ a, r = AtRevision a) as Hr;
      [|by destruct Hr as [->|[[? ->]|[? ->]]]].
    unfold precondition, _revision_mismatch in Hpre.
    destruct expected as [[|c e]|]; try done.
    destruct (file_revision _ _ _ _) as [[a|]|]; cbn [result_bind] in Hpre; [| |done];
      case_decide; cbn in Hpre; try case_decide; naive_solver.
  - pose proof (write_replaces env (locate p) content fs) as Hw.
    destruct (write_target env (locate p) content fs) as [trace [out|e]]; [|by exists p].
    destruct Hw as (b & Hb & Hrep). exists p, b. split_and!; try done.
    unfold precondition, _revision_mismatch, file_revision in Hpre.
    destruct expected as [[|c e]|]; try done.
    destruct (fs !! locate p) as [node|] eqn:Hn.
    + destruct (_ || _) eqn:Hreg; [done|]. cbn [result_bind] in Hpre.
      apply orb_false_elim in Hreg as [_ Hreg%negb_false_iff%bool_decide_eq_true].
      case_decide; [done|]. case_decide; [|done]. eauto.
    + cbn [result_bind] in Hpre. by case_decide.
Qed.
End sandbox.
