(* ===== verification/Gates.v ===== *)
(** * Acceptance gates (core/gates.py, core/extensions/evaluation/__init__.py)

    A gate is a shell command whose exit code judges a turn: the table of
    gates, the tools that change it, one run of a gate, the runs of a turn with
    the reuse of earlier failures, and [goal_complete]'s use of them.  The
    process a gate starts, the files it watches and SHA-256 are parameters; the
    wording of a refusal is a function of the reason.  Texts are of code points
    below 256, save the dashes in the notices. *)
From stdpp Require Import pretty sorting gmap.
From S2P Require Import Prelude StateMachine Goals PyStr PyText Paths Regex Shell.

(** ** Rows and results *)
Record GateRow := mkGateRow {
  g_session : string;
  g_scope : text;
  g_name : text;
  g_command : text;
  g_watch : list text;
  g_cwd : option text;
  g_enabled : bool
}.
Record GateResult := mkGateResult {
  name : text;
  command : text;
  passed : bool;
  exit_code : option Z;
  output_tail : text;
  reused : bool;
  gate_error : text;
  fingerprint : text;
  scope : text;
  broken : bool;
  cwd : option Path
}.
#[export] Instance GateResult_settable : Settable GateResult := λ r,
  mkGateResult (name r) (command r) (passed r) (exit_code r) (output_tail r) (reused r)
    (gate_error r) (fingerprint r) (scope r) (broken r) (cwd r).

Inductive ResultState := Passed | Failed | Unavailable.
Definition state (r : GateResult) : ResultState :=
  if passed r then Passed else if broken r then Unavailable else Failed.

Definition GATE_OUTPUT_TAIL : nat := 4096.
(** [s[-n:]] *)
Definition last_chars (n : nat) (s : text) : text := drop (length s - n) s.

(** ** Did the command start?

    The launcher's diagnostics, by hand: a word, a colon, and the complaint. *)
Definition COLON : N := 58.
Definition in_word (c : N) : bool := negb (is_space c) && negb (c =? COLON)%N.
Definition launch_word (complaint : text → bool) (s : text) : option text :=
  match span in_word s with
  | (c :: w, d :: rest) => if (d =? COLON)%N && complaint (lower_text (lstrip rest)) then Some (c :: w) else None
  | _ => None
  end.
(** After [^] or [:\s], the leftmost. *)
Fixpoint after_colon (m : text → option text) (s : text) : option text :=
  match s with
  | [] => None
  | c :: s' =>
      match s' with
      | d :: rest =>
          if (c =? COLON)%N && is_space d
          then match m rest with Some w => Some w | None => after_colon m s' end
          else after_colon m s'
      | [] => None
      end
  end.
Definition search_word (complaint : text → bool) (line : text) : option text :=
  match launch_word complaint line with
  | Some w => Some w
  | None => after_colon (launch_word complaint) line
  end.
Definition not_found (s : text) : bool :=
  bool_decide (s ∈ t <$> ["command not found"; "command not found."; "not found"; "not found."]%string).
Definition not_executable (s : text) : bool :=
  existsb (λ p, starts_with (t p) s) ["permission denied"; "is a directory"; "cannot execute"]%string.
Definition cd_complaints : list text := t <$>
  ["can't cd to"; "cant cd to"; "cannot cd to"; "no such file or directory"; "not a directory";
   "permission denied"]%string.
Definition cd_at (s : text) : bool :=
  existsb (λ p, starts_with (t p) (lower_text s) &&
    match drop (String.length p) s with
    | c :: rest => is_space c && existsb (λ q, contains q (lower_text rest)) cd_complaints
    | [] => false
    end) ["cd:"; "chdir:"]%string.
Fixpoint cd_after (s : text) : bool :=
  match s with
  | [] => false
  | c :: s' => ((c =? COLON)%N || is_space c) && cd_at s' || cd_after s'
  end.
Definition cd_error (line : text) : bool := cd_at line || cd_after line.

(** [_SEGMENT_SPLIT_RE.split] *)
Fixpoint segments_from (cur s : text) : list text :=
  match s with
  | 124%N :: 124%N :: s' | 38%N :: 38%N :: s' => reverse cur :: segments_from [] s'
  | 124%N :: s' | 59%N :: s' | 10%N :: s' => reverse cur :: segments_from [] s'
  | c :: s' => segments_from (c :: cur) s'
  | [] => [reverse cur]
  end.
Definition is_leading_assignment (token : text) : bool :=
  bool_decide (EQUALS ∈ token) &&
  negb (existsb (λ p, starts_with (t p) token) ["-"; "/"; "."]%string).
Definition segment_words (segment : text) : list text :=
  match head (filter (λ w, is_leading_assignment w = false) (split_words segment)) with
  | Some w => [w; basename w]
  | None => []
  end.
Definition _command_words (command : text) : list text :=
  filter (λ w, w ≠ []) (concat (segment_words <$> segments_from [] command)).

Definition _names_the_command (m : option text) (words : list text) : bool :=
  match m with
  | None => false
  | Some w => bool_decide (words = []) || bool_decide (w ∈ words) || bool_decide (basename w ∈ words)
  end.
Definition launch_failed (code : Z) (words : list text) (line : text) : bool :=
  cd_error line
  || (bool_decide (code = 127%Z) && _names_the_command (search_word not_found line) words)
  || (bool_decide (code = 126%Z) && _names_the_command (search_word not_executable line) words).
Definition _looks_unrunnable (exit_code : option Z) (output_tail command : text) : bool :=
  match exit_code with
  | None | Some 0%Z => false
  | Some code =>
      match filter (λ l, l ≠ []) (strip <$> splitlines (strip output_tail)) with
      | [] => false
      | first :: rest =>
          let words := _command_words command in
          launch_failed code words first || launch_failed code words (default first (last rest))
      end
  end.

(** ** The watched files *)
(** What a scan finds: [rglob]'s regular files of a directory in order, whether
    a path is a regular file, and [stat]'s mtime and size. *)
Record Tree := mkTree {
  files_under : Path → option (list Path);
  is_file : Path → bool;
  stat : Path → option (Z * Z)
}.

(** The text of an integer. *)
Definition digits (z : Z) : text := t (pretty z).
Definition watched_entry (tree : Tree) (q : Path) : text :=
  match stat tree q with
  | Some (mtime, size) => t (path_string q) ++ [COLON] ++ digits mtime ++ [COLON] ++ digits size
  | None => t "unstat:" ++ t (path_string q)
  end.
Definition watched_path (tree : Tree) (raw : text) (p : Path) : text :=
  match files_under tree p with
  | Some entries => concat (watched_entry tree <$> entries)
  | None => if is_file tree p then watched_entry tree p else t "missing:" ++ raw
  end.

(** ** A process *)

(** How a spawned gate ends: it exits with what it printed, outlives its time,
    cannot be started, or the runner itself fails. *)
Inductive Process :=
| Exited (code : Z) (stdout stderr : text)
| TimedOut
| NotSpawned (e : text)
| RunnerFailed (e : text).

(** What the run of a gate depends on: the files when its turn comes, and the
    process in the directory it is given. *)
Record GateWorld := mkGateWorld {
  tree_at : GateRow → Tree;
  process : GateRow → Path → Process
}.

(** The first results of a fallible function over a list, in order. *)
Fixpoint map_result {A B E} (f : A → result E B) (l : list A) : result E (list B) :=
  match l with
  | [] => Ret []
  | x :: l => let! y := f x in let! ys := map_result f l in Ret (y :: ys)
  end.

Section runner.
Context (os : OS) (ctx : Ctx) (sha256 : text → text).
Context (refusal_text : refusal → text) (exn_text : exn → text).

Fixpoint watched_paths (tree : Tree) (base : Path) (raws : list text) : fallible text :=
  match raws with
  | [] => Ret []
  | raw :: raws =>
      let! p := if starts_with [SLASH] raw then Ret (to_path (to_string raw))
                else resolve os (join base (to_path (to_string raw))) in
      let! rest := watched_paths tree base raws in
      Ret (watched_path tree raw p ++ rest)
  end.
Definition _fingerprint (tree : Tree) (watch_paths : list text) (base : Path) : fallible text :=
  match watch_paths with
  | [] => Ret []
  | _ => let! s := watched_paths tree base (merge_sort text_le watch_paths) in Ret (sha256 s)
  end.

Definition resolve_gate_cwd (cwd : text) (base : Path) (containment : option Path) : fallible Path :=
  let! base := resolve os base in
  let! root := match containment with Some c => resolve os c | None => Ret base end in
  match cwd with
  | [] => Ret base
  | _ =>
      let candidate := to_path (to_string cwd) in
      let! resolved := resolve os (if is_absolute candidate then candidate else join base candidate) in
      if is_relative_to resolved root || is_relative_to resolved base then Ret resolved
      else Raise OtherValueError
  end.
(** [None]: admitted. *)
Definition check_gate_cwd (cwd : text) (base : Path) (containment : option Path) : fallible (option exn) :=
  match resolve_gate_cwd cwd base containment with
  | Ret _ => Ret None
  | Raise e => if caught e then Ret (Some e) else Raise e
  end.

Definition bare_result (g : GateRow) (fp : text) : GateResult :=
  mkGateResult (g_name g) (g_command g) false None [] false [] fp (g_scope g) false None.
Definition _refused (g : GateRow) (fp reason : text) : GateResult :=
  (bare_result g fp) <| gate_error := reason |> <| broken := true |>.

(** What is made of a process in [cwd]. *)
Definition judged (g : GateRow) (fp : text) (dir : Path) (p : Process) : GateResult :=
  match p with
  | Exited code out err =>
      let tail := last_chars GATE_OUTPUT_TAIL (out ++ match err with [] => [] | _ => NL :: err end) in
      (bare_result g fp) <| passed := bool_decide (code = 0%Z) |> <| exit_code := Some code |>
        <| output_tail := strip tail |> <| broken := _looks_unrunnable (Some code) tail (g_command g) |>
        <| cwd := Some dir |>
  | TimedOut => (bare_result g fp) <| gate_error := t "timed out after 120s" |> <| cwd := Some dir |>
  | NotSpawned e => (bare_result g fp) <| gate_error := e |> <| broken := true |>
  | RunnerFailed e => (bare_result g fp) <| gate_error := e |> <| cwd := Some dir |>
  end.
Definition _run_one (w : GateWorld) (workspace base : Path) (fp : text) (g : GateRow) : fallible GateResult :=
  let! blocked := check_gate_command os ctx (g_command g) in
  match blocked with
  | Some reason => Ret (_refused g fp (refusal_text reason))
  | None =>
      match resolve_gate_cwd (default [] (g_cwd g)) base (Some workspace) with
      | Ret dir => Ret (judged g fp dir (process w g dir))
      | Raise e => if caught e then Ret (_refused g fp (exn_text e)) else Raise e
      end
  end.

(** [prior]: the fingerprint and the result of an earlier attempt of this turn. *)
Definition reuse (attempt : nat) (fp : text) (prior : gmap text (text * GateResult)) (g : GateRow)
    : option GateResult :=
  if decide (2 < attempt ∧ fp ≠ []) then
    match prior !! g_name g with
    | Some (fp', r) =>
        if decide (fp' = fp ∧ passed r = false)
        then Some ((bare_result g fp) <| exit_code := exit_code r |> <| output_tail := output_tail r |>
                     <| reused := true |> <| gate_error := gate_error r |> <| broken := broken r |>
                     <| cwd := cwd r |>)
        else None
    | None => None
    end
  else None.
Definition run_gate (w : GateWorld) (workspace base : Path) (attempt : nat)
    (prior : gmap text (text * GateResult)) (g : GateRow) : fallible GateResult :=
  let! fp := _fingerprint (tree_at w g) (g_watch g) base in
  match reuse attempt fp prior g with
  | Some r => Ret r
  | None => _run_one w workspace base fp g
  end.
(** [override] and [home] are the session's. *)
Definition run_gates (w : GateWorld) (override home : option string) (rows : list GateRow)
    (prior : gmap text (text * GateResult)) (attempt : nat) : fallible (list GateResult) :=
  match rows with
  | [] => Ret []
  | _ =>
      let! roots := roots_for_context os ctx override home in
      let! _ := mkdir os roots.2 in
      map_result (run_gate w roots.1 roots.2 attempt prior) rows
  end.

(** ** The history of a turn *)
Record GateHistory := mkGateHistory {
  turn_id : option Z;
  prior : gmap text (text * GateResult)
}.
Definition new_history : GateHistory := mkGateHistory None ∅.
Definition reset_if_new_turn (turn : option Z) (h : GateHistory) : GateHistory :=
  if decide (turn = turn_id h) then h else mkGateHistory turn ∅.
Definition record_one (p : gmap text (text * GateResult)) (r : GateResult) : gmap text (text * GateResult) :=
  match fingerprint r with [] => p | fp => <[name r := (fp, r)]> p end.
Definition record (results : list GateResult) (h : GateHistory) : GateHistory :=
  mkGateHistory (turn_id h) (foldl record_one (prior h) results).

Definition run_gates_for_turn (gates_enabled : bool) (w : GateWorld) (override home : option string)
    (turn : option Z) (rows : list GateRow) (attempt : nat) (h : option GateHistory)
    : option GateHistory * fallible (list GateResult) :=
  if gates_enabled then
    let history := reset_if_new_turn turn (default new_history h) in
    match run_gates w override home rows (prior history) attempt with
    | Ret results => (Some (record results history), Ret results)
    | Raise e => (Some history, Raise e)
    end
  else (h, Ret []).
End runner.

(** ** Reading results *)
Definition is_failing (r : GateResult) : bool := negb (passed r) && negb (broken r).
Definition failing (results : list GateResult) : list GateResult := filter (λ r, is_failing r = true) results.
Definition broken_ones (results : list GateResult) : list GateResult := filter (λ r, broken r = true) results.

Definition detail (otherwise : text) (error : text) (r : GateResult) : text :=
  match error with
  | [] => match exit_code r with Some c => t "exit " ++ digits c | None => otherwise end
  | e => e
  end.
Definition quoted (r : GateResult) (detail : text) (tail : nat) : list text :=
  (t "- `" ++ name r ++ t "` (" ++ detail ++ t "): " ++ command r) ::
  match output_tail r with [] => [] | out => [t "  " ++ last_chars tail out] end.
(** The error first, then the exit code. *)
Definition format_broken_notice (results : list GateResult) : text :=
  match broken_ones results with
  | [] => []
  | bad => join_lines
      ((t "A deterministic gate you registered could NOT RUN " ++ EM_DASH ++ t " it has verified "
        ++ t "nothing. Fix the command or re-register it with remove_gate + add_gate:") ::
       concat ((λ r, quoted r (detail (t "did not start") (gate_error r) r) 300) <$> bad))
  end.
(** The exit code first, then the error. *)
Definition format_retry_guidance (results : list GateResult) : text :=
  match failing results with
  | [] => []
  | bad => join_lines
      ((t "Deterministic gates failed " ++ EM_DASH ++ t " the retry must make these pass:") ::
       concat ((λ r, quoted r (match exit_code r with
                               | Some c => t "exit " ++ digits c
                               | None => match gate_error r with [] => t "failed" | e => e end
                               end) 400) <$> bad))
  end.

(** ** The table of gates (db/models.py)

    A list of rows in the order of their ids. *)
Definition same_key (sid : string) (n : text) (g : GateRow) : bool :=
  bool_decide (g_session g = sid) && bool_decide (g_name g = n).
Definition upserted (new old : GateRow) : GateRow :=
  mkGateRow (g_session old) (g_scope new) (g_name old) (g_command new) (g_watch new) (g_cwd new) true.
Definition db_add_gate (new : GateRow) (table : list GateRow) : list GateRow :=
  if existsb (same_key (g_session new) (g_name new)) table
  then (λ g, if same_key (g_session new) (g_name new) g then upserted new g else g) <$> table
  else table ++ [new].
Definition get_gates (sid : string) (enabled_only : bool) (table : list GateRow) : list GateRow :=
  filter (λ g, g_session g = sid ∧ (enabled_only = true → g_enabled g = true)) table.
Definition db_remove_gate (sid : string) (n : text) (table : list GateRow) : list GateRow * bool :=
  (filter (λ g, same_key sid n g = false) table, existsb (same_key sid n) table).

(** ** The tools *)
Inductive GateReply :=
| GatesDisabled
| NoSessionContext
| NameAndCommandRequired
| BadScope
| CommandRefused (why : refusal)
| CwdRefused (why : exn)
| Registered.

(** The context variables are the tool call's own. *)
Definition add_gate (os : OS) (ctx : Ctx) (gates_enabled : bool) (sid : string)
    (gname gcommand watch gcwd gscope : text) (table : list GateRow) : fallible (list GateRow * GateReply) :=
  if negb gates_enabled then Ret (table, GatesDisabled)
  else if decide (sid = "")%string then Ret (table, NoSessionContext)
  else if decide (gname = [] ∨ gcommand = []) then Ret (table, NameAndCommandRequired)
  else
    let scope := lower_text (strip match gscope with [] => t "session" | s => s end) in
    if decide (scope ∉ t <$> ["session"; "goal"]%string) then Ret (table, BadScope) else
    let command := strip gcommand in
    let! blocked := check_gate_command os ctx command in
    match blocked with
    | Some why => Ret (table, CommandRefused why)
    | None =>
        let cwd := strip gcwd in
        let! home := workspace_home os ctx in
        let! ws := workspace os ctx in
        let! bad := check_gate_cwd os cwd home (Some ws) in
        match bad with
        | Some why => Ret (table, CwdRefused why)
        | None =>
            let paths := match watch with [] => [] | _ => filter (λ p, p ≠ []) (strip <$> split_on 44 watch) end in
            Ret (db_add_gate (mkGateRow sid scope (strip gname) command paths
                                (match cwd with [] => None | _ => Some cwd end) true) table, Registered)
        end
    end.
Definition remove_gate (sid : string) (n : text) (table : list GateRow) : list GateRow * bool :=
  if decide (sid = "")%string then (table, false) else db_remove_gate sid n table.

(** [goal_complete]'s gates: its session's enabled ones, all run afresh. *)
Section completing.
Context (os : OS) (ctx : Ctx) (refusal_text : refusal → text) (exn_text : exn → text).
Definition goal_gates (sid : string) (table : list GateRow) : list GateRow :=
  filter (λ g, g_scope g ∈ t <$> ["goal"; "session"]%string) (get_gates sid true table).
Definition goal_gate_results (w : GateWorld) (override home : option string) (sid : string)
    (table : list GateRow) : fallible (list GateResult) :=
  let! roots := roots_for_context os ctx override home in
  map_result (_run_one os ctx refusal_text exn_text w roots.1 roots.2 []) (goal_gates sid table).
(** The tool around [Goals.goal_complete]; the gates are not asked without a
    goal. *)
Definition goal_complete_tool (gates_enabled db_ok : bool) (w : GateWorld) (override home : option string)
    (sid : string) (table : list GateRow) (d : GoalDB) : fallible (GoalDB * result DbError bool) :=
  match get_active_goal sid d with
  | None => Ret (d, Ret false)
  | Some _ =>
      let! results := if gates_enabled then goal_gate_results w override home sid table else Ret [] in
      Ret (goal_complete db_ok sid (bool_decide (failing results = [])) d)
  end.
End completing.

(** ** The repository's own diagnostics *)
Example cd_into_nothing :
  _looks_unrunnable (Some 2%Z) (t "/bin/sh: 1: cd: can't cd to /nope") (t "cd /nope && pytest") = true.
Proof. reflexivity. Qed.
Example application_misses_a_file :
  _looks_unrunnable (Some 1%Z) (t "expected output file: not found") (t "smoke") = false.
Proof. reflexivity. Qed.
Example another_words_complaint :
  _looks_unrunnable (Some 127%Z) (t "config: not found") (t "A=1 smoke | tee log") = false.
Proof. reflexivity. Qed.

(** ** Runs *)
#[local] Arguments check_gate_command : simpl never.
Lemma map_result_Forall2 {A B E} (f : A → result E B) l ys :
  map_result f l = Ret ys ↔ Forall2 (λ x y, f x = Ret y) l ys.
Proof.
  revert ys. induction l as [|x l IH]; intros ys; cbn.
  - split; [intros [= <-]; constructor|]. by intros ->%Forall2_nil_inv_l.
  - split.
    + destruct (f x) as [y|] eqn:Hx; [|done]. cbn.
      destruct (map_result f l) as [zs|]; [|done]. cbn. intros [= <-].
      constructor; [done|]. by apply IH.
    + intros (y & zs & Hx & Hl & ->)%Forall2_cons_inv_l. rewrite Hx. cbn.
      apply IH in Hl. by rewrite Hl.
Qed.
Lemma result_bind_Ret {E A B} (k : A → result E B) m b :
  result_bind k m = Ret b ↔ ∃ a, m = Ret a ∧ k a = Ret b.
Proof. destruct m; cbn; naive_solver. Qed.

(** A process that exits with 0 was started. *)
Lemma unrunnable_not_zero tail command : _looks_unrunnable (Some 0%Z) tail command = false.
Proof. done. Qed.

Section running.
Context (os : OS) (ctx : Ctx) (sha256 : text → text).
Context (refusal_text : refusal → text) (exn_text : exn → text).
Notation run_one := (_run_one os ctx refusal_text exn_text).
Notation run := (run_gate os ctx sha256 refusal_text exn_text).

(** The policy admits the command, the directory is inside, and there the
    process [p] ran. *)
Definition ran (w : GateWorld) (ws base : Path) (g : GateRow) (p : Process) : Prop :=
  check_gate_command os ctx (g_command g) = Ret None ∧
  ∃ dir, resolve_gate_cwd os (default [] (g_cwd g)) base (Some ws) = Ret dir ∧ process w g dir = p.
(** The result of a gate that was run now. *)
Definition fresh (w : GateWorld) (ws base : Path) (g : GateRow) (r : GateResult) : Prop :=
  name r = g_name g ∧ command r = g_command g ∧ reused r = false ∧
  (passed r = true ↔ ∃ out err, ran w ws base g (Exited 0 out err)) ∧
  (state r = Failed → ∃ p, ran w ws base g p ∧
     (p = TimedOut ∨ (∃ e, p = RunnerFailed e) ∨ ∃ code out err, p = Exited code out err ∧ code ≠ 0%Z)).

Lemma ran_det w ws base g p p' : ran w ws base g p → ran w ws base g p' → p = p'.
Proof. intros [_ (dir & Hd & <-)] [_ (dir' & Hd' & <-)]. rewrite Hd in Hd'. by injection Hd' as <-. Qed.
Lemma not_ran_fresh w ws base g r :
  name r = g_name g → command r = g_command g → reused r = false →
  passed r = false → broken r = true → (∀ p, ¬ ran w ws base g p) → fresh w ws base g r.
Proof.
  intros Hn Hc Hu Hp Hb Hr. unfold fresh, state. rewrite Hp, Hb. split_and!; try done.
  split; [done|]. intros (out & err & H). by apply Hr in H.
Qed.
Lemma judged_fresh w ws base fp g dir :
  check_gate_command os ctx (g_command g) = Ret None →
  resolve_gate_cwd os (default [] (g_cwd g)) base (Some ws) = Ret dir →
  fresh w ws base g (judged g fp dir (process w g dir)).
Proof.
  intros Hc Hd. assert (ran w ws base g (process w g dir)) as Hran by (split; [done|by exists dir]).
  assert (∀ p, ran w ws base g p → p = process w g dir) as Hdet by (intros p Hp; by eapply ran_det).
  destruct (process w g dir) as [code out err| |e|e]; unfold fresh, state; cbn.
  2-4: split_and!; try done; try (split; [done|by intros (? & ? & [=]%Hdet)]); intros; eauto 10.
  split_and!; try done.
  - rewrite bool_decide_eq_true. split; [intros ->; eauto|]. by intros (? & ? & [= <-]%Hdet).
  - case_bool_decide; [done|]. case_match; [done|]. intros _. eauto 10.
Qed.
Lemma run_one_fresh w ws base fp g r :
  run_one w ws base fp g = Ret r → fresh w ws base g r ∧ fingerprint r = fp.
Proof.
  unfold _run_one. rewrite result_bind_Ret. intros (blocked & Hc & Hr).
  destruct blocked as [why|].
  { injection Hr as <-. split; [|done]. apply not_ran_fresh; try done.
    intros p [H _]. by rewrite Hc in H. }
  destruct (resolve_gate_cwd os _ base _) as [dir|e] eqn:Hd.
  - injection Hr as <-. split; [by apply judged_fresh|]. by destruct (process w g dir).
  - destruct (caught e); [|done]. injection Hr as <-. split; [|done].
    apply not_ran_fresh; try done. intros p [_ (dir & H & _)]. by rewrite Hd in H.
Qed.

(** Passed, failed, unavailable: no result is two of them. *)
Lemma run_one_states w ws base fp g r :
  run_one w ws base fp g = Ret r → passed r = true → broken r = false.
Proof.
  unfold _run_one. rewrite result_bind_Ret. intros (blocked & _ & Hr) Hpass.
  repeat case_match; simplify_eq; cbn in *; try done.
  destruct (process w g _); cbn in *; try done. by apply bool_decide_eq_true in Hpass as ->.
Qed.

(** What a reused result repeats. *)
Definition same_outcome (r r' : GateResult) : Prop :=
  passed r = passed r' ∧ broken r = broken r' ∧ exit_code r = exit_code r' ∧
  output_tail r = output_tail r' ∧ gate_error r = gate_error r' ∧ cwd r = cwd r'.
#[local] Instance same_outcome_equiv : Equivalence same_outcome.
Proof. split; repeat intro; unfold same_outcome in *; intuition congruence. Qed.

Lemma reuse_spec attempt fp prior g r :
  reuse attempt fp prior g = Some r ↔
  2 < attempt ∧ fp ≠ [] ∧ ∃ r0, prior !! g_name g = Some (fp, r0) ∧ passed r0 = false ∧
    name r = g_name g ∧ command r = g_command g ∧ fingerprint r = fp ∧ scope r = g_scope g ∧
    reused r = true ∧ same_outcome r r0.
Proof.
  unfold reuse, same_outcome. split.
  - case_decide as H; [|done]. destruct H as [Ha Hfp].
    destruct (prior !! g_name g) as [[fp' r0]|]; [|done].
    case_decide as H; [|done]. destruct H as [-> Hf]. intros [= <-]. cbn. naive_solver.
  - intros (Ha & Hfp & r0 & Hp & Hf & Hn & Hc & Hfp' & Hs & Hu & Ho).
    rewrite decide_True by done. rewrite Hp. rewrite decide_True by done.
    f_equal. destruct r, r0. cbn in *. naive_solver.
Qed.

(** A result taken over from an earlier attempt. *)
Definition carried (w : GateWorld) (base : Path) (attempt : nat) (prior : gmap text (text * GateResult))
    (g : GateRow) (r : GateResult) : Prop :=
  2 < attempt ∧ reused r = true ∧ fingerprint r ≠ [] ∧
  _fingerprint os sha256 (tree_at w g) (g_watch g) base = Ret (fingerprint r) ∧
  ∃ r0, prior !! g_name g = Some (fingerprint r, r0) ∧ passed r0 = false ∧ same_outcome r r0.
Lemma run_gate_spec w ws base attempt prior g r :
  run w ws base attempt prior g = Ret r →
  name r = g_name g ∧ (fresh w ws base g r ∨ carried w base attempt prior g r).
Proof.
  unfold run_gate. rewrite result_bind_Ret. intros (fp & Hfp & Hr).
  destruct (reuse attempt fp prior g) as [r'|] eqn:Hu.
  - injection Hr as ->. apply reuse_spec in Hu as (Ha & Hne & r0 & Hp & Hf & Hn & _ & <- & _ & Hu & Ho).
    split; [done|]. right. unfold carried. eauto 10.
  - apply run_one_fresh in Hr as [Hr _]. split; [apply Hr|by left].
Qed.

Lemma ran_inside w ws base g p :
  ran w ws base g p →
  ∃ dir root home, resolve os ws = Ret root ∧ resolve os base = Ret home ∧
    (inside dir root ∨ inside dir home) ∧ process w g dir = p.
Proof.
  intros [_ (dir & Hd & Hp)]. revert Hd. unfold resolve_gate_cwd.
  rewrite !result_bind_Ret. intros (home & Hb & Hd). apply result_bind_Ret in Hd as (root & Hroot & Hd).
  exists dir, root, home. split_and!; try done.
  destruct (default [] (g_cwd g)) as [|c cs]; [injection Hd as <-; right; apply inside_refl|].
  apply result_bind_Ret in Hd as (q & _ & Hd).
  destruct (is_relative_to q root || is_relative_to q home) eqn:Hin; [|done].
  injection Hd as ->. by rewrite orb_true_iff, !is_relative_to_spec in Hin.
Qed.

(** C24: A gate passes only by running.  The results of an attempt are one per
    gate, in order; a gate that was run now passed exactly if the shell policy
    admits its command and its process, started inside the workspace or the
    session's home, exited with 0, and failed only if its process did; every
    other result is a failure of an earlier attempt, taken over from the third
    attempt on while the watched files look the same, broken or not as it was. *)
Theorem gates_pass_by_running (w : GateWorld) (override home : option string) (rows : list GateRow)
    (prior : gmap text (text * GateResult)) (attempt : nat) (results : list GateResult) (ws base : Path)
    (Hroots : roots_for_context os ctx override home = Ret (ws, base))
    (Hrun : run_gates os ctx sha256 refusal_text exn_text w override home rows prior attempt = Ret results) :
  Forall2 (λ g r, name r = g_name g ∧ (fresh w ws base g r ∨ carried w base attempt prior g r)) rows results ∧
  ∀ g p, ran w ws base g p →
    ∃ dir root home, resolve os ws = Ret root ∧ resolve os base = Ret home ∧
      (inside dir root ∨ inside dir home) ∧ process w g dir = p.
Proof.
  split; [|intros g p; apply ran_inside].
  destruct rows as [|g0 rows]; [injection Hrun as <-; constructor|].
  unfold run_gates in Hrun. rewrite Hroots in Hrun. cbn [result_bind fst snd] in Hrun.
  apply result_bind_Ret in Hrun as (_ & _ & Hrun). apply map_result_Forall2 in Hrun.
  eapply Forall2_impl; [exact Hrun|]. intros g r. apply run_gate_spec.
Qed.

(** ** The calls of a session *)
Record GateCall := mkCall {
  c_world : GateWorld;
  c_enabled : bool;
  c_override : option string;
  c_home : option string;
  c_turn : option Z;
  c_rows : list GateRow;
  c_attempt : nat
}.
Definition one_call (c : GateCall) (h : option GateHistory) : option GateHistory * fallible (list GateResult) :=
  run_gates_for_turn os ctx sha256 refusal_text exn_text (c_enabled c) (c_world c) (c_override c) (c_home c)
    (c_turn c) (c_rows c) (c_attempt c) h.
Fixpoint calls (h : option GateHistory) (cs : list GateCall) : list (GateCall * fallible (list GateResult)) :=
  match cs with
  | [] => []
  | c :: cs => (c, (one_call c h).2) :: calls (one_call c h).1 cs
  end.

(** Among the calls made, one of turn [turn] ran the gate [n] and got the
    outcome of [r] with the fingerprint [fp]. *)
Definition happened (made : list (GateCall * fallible (list GateResult))) (turn : option Z)
    (n fp : text) (r : GateResult) : Prop :=
  ∃ c rs r', (c, Ret rs) ∈ made ∧ c_turn c = turn ∧ r' ∈ rs ∧ reused r' = false ∧
    name r' = n ∧ fingerprint r' = fp ∧ same_outcome r r'.
Definition remembers (made : list (GateCall * fallible (list GateResult))) (h : GateHistory) : Prop :=
  ∀ n fp r, prior h !! n = Some (fp, r) → happened made (turn_id h) n fp r.
Lemma happened_mono made made' turn n fp r :
  made ⊆ made' → happened made turn n fp r → happened made' turn n fp r.
Proof. intros Hsub (c & rs & r' & Hin & ?). exists c, rs, r'. split; [by apply Hsub|done]. Qed.
Lemma happened_same made turn n fp r r' :
  same_outcome r r' → happened made turn n fp r' → happened made turn n fp r.
Proof. intros Ho (c & rs & r0 & ? & ? & ? & ? & ? & ? & ?). exists c, rs, r0. split_and!; try done. by transitivity r'. Qed.
Lemma record_remembers made h rs :
  remembers made h → (∀ r, r ∈ rs → happened made (turn_id h) (name r) (fingerprint r) r) →
  remembers made (record rs h).
Proof.
  unfold remembers, record. cbn. generalize (prior h). induction rs as [|r rs IH]; intros p Hp Hrs; [done|].
  cbn. apply IH; [|intros; apply Hrs; by right]. intros n fp r'. unfold record_one.
  destruct (fingerprint r) as [|x y] eqn:Hfp; [apply Hp|].
  destruct (decide (n = name r)) as [->|Hne].
  - rewrite lookup_insert_eq. intros [= <- <-]. rewrite <- Hfp. apply Hrs. left.
  - rewrite lookup_insert_ne by done. apply Hp.
Qed.

(** What one call does to a history that remembers. *)
Lemma run_gates_spec w ov home rows p a rs :
  run_gates os ctx sha256 refusal_text exn_text w ov home rows p a = Ret rs →
  ∀ r, r ∈ rs → ∃ ws base g, name r = g_name g ∧ (fresh w ws base g r ∨ carried w base a p g r).
Proof.
  unfold run_gates. destruct rows as [|g rows]; [intros [= <-] r ?%not_elem_of_nil; done|].
  rewrite !result_bind_Ret. intros (roots & _ & Hrun). apply result_bind_Ret in Hrun as (_ & _ & Hrun) .
  apply map_result_Forall2 in Hrun. intros r [i Hi]%list_elem_of_lookup.
  destruct (Forall2_lookup_r _ _ _ _ _ Hrun Hi) as (g' & _ & Hg'%run_gate_spec). eauto.
Qed.
Lemma carried_happened w base a made h g r :
  remembers made h → carried w base a (prior h) g r → name r = g_name g →
  2 < a ∧ passed r = false ∧ happened made (turn_id h) (name r) (fingerprint r) r.
Proof.
  intros Hr (Ha & _ & _ & _ & r0 & Hp & Hf & Ho) ->. split_and!; [done|by rewrite (proj1 Ho)|].
  eapply happened_same; [exact Ho|]. by apply Hr in Hp.
Qed.
Lemma reset_remembers made turn h :
  remembers made h → turn_id (reset_if_new_turn turn h) = turn ∧ remembers made (reset_if_new_turn turn h).
Proof. intros Hr. unfold reset_if_new_turn. case_decide as H; [done|]. split; [done|]. intros n fp r. cbn. by rewrite lookup_empty. Qed.

Lemma one_call_spec made c h h' out :
  (∀ h0, h = Some h0 → remembers made h0) → one_call c h = (h', out) →
  (∀ h0, h' = Some h0 → remembers (made ++ [(c, out)]) h0) ∧
  ∀ rs r, out = Ret rs → r ∈ rs → reused r = true →
    2 < c_attempt c ∧ passed r = false ∧ happened made (c_turn c) (name r) (fingerprint r) r.
Proof.
  intros Hh Hcall. unfold one_call, run_gates_for_turn in Hcall.
  assert (∀ h0, remembers made h0 → remembers (made ++ [(c, out)]) h0) as Hmono.
  { intros h0 Hr n fp r Hp. eapply happened_mono; [|by apply Hr in Hp]. set_solver. }
  destruct (c_enabled c).
  2: { injection Hcall as <- <-. split; [naive_solver|]. intros rs r [= <-] ?%not_elem_of_nil. done. }
  assert (remembers made (default new_history h)) as Hr0.
  { destruct h as [h0|]; [by apply Hh|]. intros n fp r. cbn. by rewrite lookup_empty. }
  destruct (reset_remembers made (c_turn c) _ Hr0) as [Hturn Hr].
  remember (reset_if_new_turn (c_turn c) (default new_history h)) as hist eqn:Hhist. clear Hhist Hr0.
  destruct (run_gates _ _ _ _ _ _ _ _ _ _ _) as [rs|e] eqn:Hrun; injection Hcall as <- <-.
  2: { split; [naive_solver|]. done. }
  pose proof (run_gates_spec _ _ _ _ _ _ _ Hrun) as Hspec. split.
  - intros h0 [= <-]. apply record_remembers; [by apply Hmono|]. intros r Hin.
    destruct (Hspec r Hin) as (ws & base & g & Hn & [Hf|Hc]).
    + exists c, rs, r. rewrite Hturn. split_and!; try done; [set_solver|apply Hf].
    + eapply happened_mono; [|by eapply (carried_happened _ _ _ made hist) in Hc as (_ & _ & H)]. set_solver.
  - intros rs' r [= <-] Hin Hu. destruct (Hspec r Hin) as (ws & base & g & Hn & [Hf|Hc]).
    { destruct Hf as (_ & _ & Hf & _). congruence. }
    eapply carried_happened in Hc; [|done..]. by rewrite Hturn in Hc.
Qed.

(** C29: A reused verdict was once reached.  In whatever calls are made for a
    session, in whatever turns and attempts, a result that was reused is a
    failure, is reused on the third attempt or later, and repeats exit code,
    output and classification of a run of that gate that really took place in
    an earlier call of the same turn, when the watched files looked the same. *)
Theorem reused_failures_happened (cs : list GateCall) pre c rs post r
    (Hcalls : calls None cs = pre ++ (c, Ret rs) :: post) (Hin : r ∈ rs) (Hu : reused r = true) :
  2 < c_attempt c ∧ passed r = false ∧ happened pre (c_turn c) (name r) (fingerprint r) r.
Proof.
  change pre with ([] ++ pre). generalize (@nil (GateCall * fallible (list GateResult))) as made.
  assert (∀ made h0, (None : option GateHistory) = Some h0 → remembers made h0) as Hh by done.
  intros made. specialize (Hh made). revert Hcalls Hh. generalize (None : option GateHistory) as h.
  revert made cs. induction pre as [|p pre IH]; intros made [|c0 cs] h Hcalls Hh; try done.
  - injection Hcalls as <- Hout _.
    destruct (one_call c0 h) as [h' out] eqn:Hc. cbn in Hout. subst out. rewrite app_nil_r.
    by eapply one_call_spec in Hc as [_ Hc]; [|done]; eapply Hc.
  - injection Hcalls as <- Hrest. destruct (one_call c0 h) as [h' out] eqn:Hc.
    rewrite cons_middle, (assoc_L app). eapply IH; [exact Hrest|].
    by eapply one_call_spec in Hc as [Hc _].
Qed.
End running.

(** ** Goals *)
Lemma failing_nil rs : failing rs = [] ↔ ∀ r, r ∈ rs → state r ≠ Failed.
Proof.
  unfold failing, state. split.
  - intros Hf r Hin Hs. assert (r ∈ filter (λ r, is_failing r = true) rs) as H.
    { apply list_elem_of_filter. split; [|done]. unfold is_failing. by repeat case_match. }
    rewrite Hf in H. by apply not_elem_of_nil in H.
  - intros H. apply filter_none. intros r Hin Hf. apply (H r Hin). unfold is_failing in Hf. by repeat case_match.
Qed.

(** A goal waits for its gates.  [goal_complete] answers yes only if every
    enabled gate of the session was run anew, and each one's process exited
    with 0 or never started; if one ran and failed, the goal and the table of
    continuations stay as they are and the answer is no. *)
Theorem goal_waits_for_its_gates (os : OS) (ctx : Ctx) (refusal_text : refusal → text) (exn_text : exn → text)
    (db_ok : bool) (w : GateWorld) (override home : option string) (sid : string) (table : list GateRow)
    (d d' : GoalDB) (out : result DbError bool) (ws base : Path)
    (Hroots : roots_for_context os ctx override home = Ret (ws, base))
    (Hrun : goal_complete_tool os ctx refusal_text exn_text true db_ok w override home sid table d = Ret (d', out)) :
  (out = Ret true → ∀ g, g ∈ goal_gates sid table →
     (∃ o e, ran os ctx w ws base g (Exited 0 o e)) ∨
     (∃ r, _run_one os ctx refusal_text exn_text w ws base [] g = Ret r ∧ state r = Unavailable)) ∧
  (∀ g r, g ∈ goal_gates sid table →
     _run_one os ctx refusal_text exn_text w ws base [] g = Ret r → state r = Failed →
     d' = d ∧ out = Ret false).
Proof.
  unfold goal_complete_tool in Hrun.
  destruct (get_active_goal sid d) as [goal|] eqn:Hgoal; [|injection Hrun as <- <-; done].
  apply result_bind_Ret in Hrun as (rs & Hrs & Hrun). unfold goal_gate_results in Hrs.
  rewrite Hroots in Hrs. cbn [result_bind fst snd] in Hrs. apply map_result_Forall2 in Hrs.
  assert (∀ g, g ∈ goal_gates sid table → ∃ r, r ∈ rs ∧ _run_one os ctx refusal_text exn_text w ws base [] g = Ret r)
    as Heach.
  { intros g [i Hi]%list_elem_of_lookup. destruct (Forall2_lookup_l _ _ _ _ _ Hrs Hi) as (r & Hr & Hg).
    exists r. split; [by eapply list_elem_of_lookup_2|done]. }
  injection Hrun as Hrun. split.
  - intros -> g Hg. destruct (Heach g Hg) as (r & Hin & Hr).
    assert (failing rs = []) as Hf.
    { destruct (decide (failing rs = [])) as [|Hne]; [done|]. rewrite bool_decide_false in Hrun by done.
      unfold goal_complete in Hrun. rewrite Hgoal in Hrun. by injection Hrun. }
    pose proof (proj1 (failing_nil rs) Hf r Hin) as Hs.
    destruct (run_one_fresh _ _ _ _ _ _ _ _ _ _ Hr) as [(_ & _ & _ & Hpass & _) _].
    destruct (state r) eqn:Hstate; [left|done|right; by exists r].
    apply Hpass. unfold state in Hstate. by destruct (passed r), (broken r).
  - intros g r Hg Hr Hs. destruct (Heach g Hg) as (r' & Hin & Hr'). rewrite Hr in Hr'. injection Hr' as <-.
    rewrite bool_decide_false in Hrun by (rewrite failing_nil; naive_solver).
    unfold goal_complete in Hrun. rewrite Hgoal in Hrun. by injection Hrun as <- <-.
Qed.

(** ** Registration *)
Definition key (g : GateRow) : string * text := (g_session g, g_name g).
Lemma same_key_spec sid n g : same_key sid n g = true ↔ key g = (sid, n).
Proof. unfold same_key, key. rewrite andb_true_iff, !bool_decide_eq_true. naive_solver. Qed.
Lemma db_add_keys new table :
  key <$> db_add_gate new table =
  if existsb (same_key (g_session new) (g_name new)) table then key <$> table else (key <$> table) ++ [key new].
Proof.
  unfold db_add_gate. case_match; [|by rewrite fmap_app]. rewrite <- list_fmap_compose.
  apply list_fmap_ext. intros i g _. cbn. by case_match.
Qed.
Lemma db_add_gate_spec new table :
  NoDup (key <$> table) →
  NoDup (key <$> db_add_gate new table) ∧
  (∃ g, g ∈ db_add_gate new table ∧ key g = key new ∧ g_command g = g_command new ∧ g_cwd g = g_cwd new ∧
        g_watch g = g_watch new ∧ g_scope g = g_scope new) ∧
  ∀ g, key g ≠ key new → (g ∈ db_add_gate new table ↔ g ∈ table).
Proof.
  intros Hnd. rewrite db_add_keys. unfold db_add_gate. destruct (existsb _ table) eqn:Hex.
  - split; [done|]. apply existsb_exists in Hex as (old & Hin & Hk). apply list_elem_of_In in Hin. split.
    + exists (upserted new old). split; [|by apply same_key_spec in Hk].
      apply list_elem_of_fmap. exists old. by rewrite Hk.
    + intros g Hne. rewrite list_elem_of_fmap. split.
      * intros (g' & -> & Hg'). destruct (same_key _ _ g') eqn:Hs; [|done].
        apply same_key_spec in Hs. by destruct Hne.
      * intros Hg. exists g. split; [|done]. destruct (same_key _ _ g) eqn:Hs; [|done].
        by apply same_key_spec in Hs.
  - split_and!.
    + apply NoDup_app. split_and!; [done| |apply NoDup_singleton].
      intros k (g & -> & Hg)%list_elem_of_fmap Hk%list_elem_of_singleton.
      assert (existsb (same_key (g_session new) (g_name new)) table = true); [|congruence].
      apply existsb_exists. exists g. rewrite <- list_elem_of_In. split; [done|by apply same_key_spec].
    + exists new. split_and!; try done. set_solver.
    + intros g Hne. rewrite elem_of_app, list_elem_of_singleton. naive_solver.
Qed.

(** Registering a gate admits its command and its directory by the rules it is
    run under later, changes the row of its session and name and no other, and
    keeps one row for each session and name. *)
Theorem registered_gates_are_admitted (os : OS) (ctx : Ctx) (enabled : bool) (sid : string)
    (gname gcommand watch gcwd gscope : text) (table table' : list GateRow) (reply : GateReply)
    (Hkeys : NoDup (key <$> table))
    (Hadd : add_gate os ctx enabled sid gname gcommand watch gcwd gscope table = Ret (table', reply)) :
  NoDup (key <$> table') ∧
  (reply ≠ Registered → table' = table) ∧
  (reply = Registered →
   (∃ g, g ∈ table' ∧ key g = (sid, strip gname) ∧ check_gate_command os ctx (g_command g) = Ret None ∧
      (g_scope g = t "session" ∨ g_scope g = t "goal") ∧
      ∃ home ws dir, workspace_home os ctx = Ret home ∧ workspace os ctx = Ret ws ∧
        resolve_gate_cwd os (default [] (g_cwd g)) home (Some ws) = Ret dir) ∧
   ∀ g, key g ≠ (sid, strip gname) → (g ∈ table' ↔ g ∈ table)).
Proof.
  unfold add_gate in Hadd. destruct (negb enabled); [by injection Hadd as <- <-|].
  case_decide; [by injection Hadd as <- <-|]. case_decide; [by injection Hadd as <- <-|].
  case_decide as Hscope; [by injection Hadd as <- <-|].
  apply result_bind_Ret in Hadd as (blocked & Hc & Hadd).
  destruct blocked as [why|]; [by injection Hadd as <- <-|].
  apply result_bind_Ret in Hadd as (home & Hhome & Hadd).
  apply result_bind_Ret in Hadd as (ws & Hws & Hadd).
  apply result_bind_Ret in Hadd as (bad & Hbad & Hadd).
  destruct bad as [why|]; [by injection Hadd as <- <-|]. injection Hadd as <- <-.
  match goal with |- context [db_add_gate ?n table] => destruct (db_add_gate_spec n table Hkeys) as (Hnd & Hnew & Hold) end.
  split_and!; [done|done|]. intros _. split; [|exact Hold].
  destruct Hnew as (g & Hg & Hk & Hcmd & Hcwd & _ & Hs). exists g.
  rewrite Hcmd, Hcwd, Hs. cbn [g_command g_cwd g_scope]. split_and!; try done.
  - apply list_elem_of_fmap in Hscope as (s & Hscope & Hin).
    rewrite elem_of_cons, list_elem_of_singleton in Hin. destruct Hin as [-> | ->]; [by left|by right].
  - exists home, ws. unfold check_gate_cwd in Hbad.
    assert (default [] (match strip gcwd with [] => None | _ => Some (strip gcwd) end) = strip gcwd) as Hd
      by (by destruct (strip gcwd)).
    rewrite Hd. destruct (resolve_gate_cwd os (strip gcwd) home (Some ws)) as [dir|e]; [by exists dir|].
    by destruct (caught e).
Qed.

(** ** Concrete sessions *)
Definition say (w : refusal) : text := t "refused".
Definition complain (e : exn) : text := t "bad path".
Definition digest (s : text) : text := t "sha:" ++ s.
Definition quiet_tree : Tree := mkTree (λ _, None) (λ _, true) (λ _, Some (7%Z, 3%Z)).
Definition exits (code : Z) : GateWorld := mkGateWorld (λ _, quiet_tree) (λ _ _, Exited code (t "2 tests") []).
Definition tests_gate : GateRow := mkGateRow "s" (t "session") (t "tests") (t "pytest -q") [t "src.py"] None true.
Definition at_attempt (n : nat) : GateCall := mkCall (exits 1%Z) true None None (Some 7%Z) [tests_gate] n.

Lemma gates_pass_by_running_witness :
  ∃ r, run_gates plain_os ctx0 digest say complain (exits 0%Z) None None [tests_gate] ∅ 1 = Ret [r] ∧
    passed r = true ∧
    Forall2 (λ g r, name r = g_name g ∧
      (fresh plain_os ctx0 (exits 0%Z) (to_path "/app/data/workspace") (to_path "/app/data/workspace") g r ∨
       carried plain_os digest (exits 0%Z) (to_path "/app/data/workspace") 1 ∅ g r)) [tests_gate] [r].
Proof.
  eexists. split; [vm_compute; reflexivity|]. split; [reflexivity|].
  apply (gates_pass_by_running plain_os ctx0 digest say complain (exits 0%Z) None None [tests_gate] ∅ 1);
    vm_compute; reflexivity.
Defined.

Lemma reused_failures_happened_witness :
  ∃ r pre, reused r = true ∧ calls plain_os ctx0 digest say complain None (at_attempt <$> [1; 2; 3]) =
    pre ++ [(at_attempt 3, Ret [r])] ∧ happened pre (Some 7%Z) (name r) (fingerprint r) r.
Proof.
  eexists _, (take 2 (calls plain_os ctx0 digest say complain None (at_attempt <$> [1; 2; 3]))).
  match goal with |- _ ∧ ?A ∧ _ => assert A as H by (vm_compute; reflexivity) end.
  split; [reflexivity|]. split; [exact H|].
  match type of H with _ = _ ++ [(_, Ret [?r])] =>
    apply (reused_failures_happened plain_os ctx0 digest say complain _ _ (at_attempt 3) [r] [] r H)
  end; [left|reflexivity].
Defined.

Definition one_goal : GoalDB := (create_goal true "s" "ship it" None None 0%Z 0%Z (empty_goal_db {["s"]})).1.
Lemma goal_waits_for_its_gates_witness :
  ∃ d', goal_complete_tool plain_os ctx0 say complain true true (exits 0%Z) None None "s" [tests_gate] one_goal
        = Ret (d', Ret true) ∧
    ∀ g, g ∈ goal_gates "s" [tests_gate] →
     (∃ o e, ran plain_os ctx0 (exits 0%Z) (to_path "/app/data/workspace") (to_path "/app/data/workspace") g
               (Exited 0 o e)) ∨
     (∃ r, _run_one plain_os ctx0 say complain (exits 0%Z) (to_path "/app/data/workspace")
             (to_path "/app/data/workspace") [] g = Ret r ∧ state r = Unavailable).
Proof.
  eexists. match goal with |- ?A ∧ _ => assert A as H by (vm_compute; reflexivity) end. split; [exact H|].
  by apply (goal_waits_for_its_gates plain_os ctx0 say complain true (exits 0%Z) None None "s" [tests_gate]
              one_goal _ (Ret true) _ _ eq_refl H).
Defined.

(** A gate the policy refuses to run has verified nothing, and yet the goal it
    is to guard is completed and no retry is asked for: a refusal is booked as
    a broken gate, which nothing counts as failing. *)
Lemma refused_gate_blocks_nothing :
  let g := mkGateRow "s" (t "goal") (t "disk") (t "mkfs /dev/sda") [] None true in
  (∃ r, _run_one plain_os ctx0 say complain (exits 0%Z) (to_path "/w") (to_path "/w") [] g = Ret r ∧
     passed r = false ∧ state r = Unavailable ∧ failing [r] = [] ∧ format_retry_guidance [r] = []) ∧
  ∃ d', goal_complete_tool plain_os ctx0 say complain true true (exits 0%Z) None None "s" [g] one_goal
        = Ret (d', Ret true).
Proof.
  cbv zeta. split; eexists.
  - split; [vm_compute; reflexivity|]. vm_compute. auto.
  - vm_compute. reflexivity.
Qed.

(** One gate whose watched path cannot be resolved takes the results of all the
    others with it. *)
Lemma one_bad_watch_path_silences_every_gate (os : OS) (ctx : Ctx) (sha256 : text → text)
    (refusal_text : refusal → text) (exn_text : exn → text) w override home rows prior attempt g e :
  g ∈ rows → (∀ base, _fingerprint os sha256 (tree_at w g) (g_watch g) base = Raise e) →
  ∃ e', run_gates os ctx sha256 refusal_text exn_text w override home rows prior attempt = Raise e'.
Proof.
  intros Hin Hbad. destruct (run_gates _ _ _ _ _ _ _ _ _ _ _) as [rs|e'] eqn:Hrun; [|by exists e'].
  exfalso. destruct rows as [|g0 rows]; [by apply not_elem_of_nil in Hin|]. unfold run_gates in Hrun.
  apply result_bind_Ret in Hrun as (roots & _ & Hrun). apply result_bind_Ret in Hrun as (_ & _ & Hrun).
  apply map_result_Forall2 in Hrun. apply list_elem_of_lookup in Hin as [i Hi].
  destruct (Forall2_lookup_l _ _ _ _ _ Hrun Hi) as (r & _ & Hr). unfold run_gate in Hr.
  by rewrite Hbad in Hr.
Qed.
