(* ===== verification/Verify.v ===== *)
(** * The end of a turn (core/reflect.py, sessions/hooks.py, sessions/manager.py)

    What decides whether a turn is run again: the grade a model gives it, as
    [reflect_on_session] bends it by its guards and by the gates; the hooks
    that turn gates and grade into a requested retry; the manager's loop that
    grants retries.  The grader's answers are a parameter, already parsed; an
    answer whose text fields are not texts counts as a failed call.  Two guards
    read the wording of evidence and grade and are parameters.  What the
    harness adds to a grade's reasoning is a list of notes. *)
From Stdlib Require Import QArith_base.
From stdpp Require Import gmap.
From S2P Require Import Prelude PyStr PyText Paths Shell Gates.

(** ** The grade *)
Inductive ReflectVerdict := Pass | Retry | Escalate.
Inductive Verification := Unstated | Verified | Partial | Unknown.
Inductive Cause := NoCause | ByScout | ByAgent | BySkill | ByTask | ByEnv.
#[export] Instance ReflectVerdict_eq_dec : EqDecision ReflectVerdict. Proof. solve_decision. Defined.
#[export] Instance Verification_eq_dec : EqDecision Verification. Proof. solve_decision. Defined.
#[export] Instance Cause_eq_dec : EqDecision Cause. Proof. solve_decision. Defined.

(** The object a grader answers with; [None] is an absent key, and for the
    verdict also a falsy value.  A confidence that is no number is
    [Some None].  The stated verification is stripped and lowered. *)
Record Grade := mkGrade {
  d_verdict : option string;
  d_reasoning : option text;
  d_diagnostic : text;
  d_what_failed : text;
  d_strategy : text;
  d_missing : text;
  d_cause : option string;
  d_confidence : option (option Q);
  d_verification : string;
  d_deliverables : list string;
  d_without_tools : list text
}.

Inductive GradeNote :=
| NoVerdict | CauseWasNone | BelowFloor (from : ReflectVerdict) | NoAnalysis
| PhantomEvidence (from : ReflectVerdict) | GateClamp (names : list text) | CorrectionUnfounded.
(** What a retry misses, as said by the grader or by the harness. *)
Inductive Missing := Said (s : text) | ChangeTheTask | ChangeTheApproach | GatesToPass (names : list text).

Record ReflectResult := mkResult {
  verdict : ReflectVerdict;
  reasoning : text;
  notes : list GradeNote;
  diagnostic : text;
  what_failed : text;
  strategy : text;
  missing : Missing;
  failure_cause : Cause;
  confidence : Q;
  verification : Verification;
  deliverables : list string;
  retry_without_tools : list text
}.
#[export] Instance ReflectResult_settable : Settable ReflectResult := λ r,
  mkResult (verdict r) (reasoning r) (notes r) (diagnostic r) (what_failed r) (strategy r) (missing r)
    (failure_cause r) (confidence r) (verification r) (deliverables r) (retry_without_tools r).
(** [ReflectResult(verdict="pass", ...)] *)
Definition plain_pass : ReflectResult :=
  mkResult Pass [] [] [] [] [] (Said []) NoCause 0%Q Unstated [] [].

Definition nothing_missing (m : Missing) : bool := match m with Said [] => true | _ => false end.
Definition is_nonpass (r : ReflectResult) : bool := bool_decide (verdict r ≠ Pass).

Definition verdict_of (s : string) : option ReflectVerdict :=
  if decide (s = "pass")%string then Some Pass
  else if decide (s = "retry")%string then Some Retry
  else if decide (s = "escalate")%string then Some Escalate else None.
Definition cause_of (s : option string) : Cause :=
  match s with
  | Some "scout" => ByScout | Some "agent" => ByAgent | Some "skill" => BySkill
  | Some "task" => ByTask | Some "env" => ByEnv | _ => NoCause
  end%string.
Definition verification_of (s : string) : option Verification :=
  if decide (s = "verified")%string then Some Verified
  else if decide (s = "partial")%string then Some Partial
  else if decide (s = "unknown")%string then Some Unknown else None.
Definition status_of (s : string) : string :=
  if decide (s ∈ ["met"; "partial"; "unmet"; "unknown"])%string then s else "unknown".
Definition open_statuses : list string := ["unmet"; "partial"; "unknown"]%string.

(** [max(0.0, min(1.0, q))] *)
Definition clamp01 (q : Q) : Q :=
  let q := if Qle_bool q 1 then q else 1%Q in if Qle_bool 0 q then q else 0%Q.
Definition Qltb (a b : Q) : bool := negb (Qle_bool b a).

Definition _settle_verification (stated : string) (coerced : bool) (r : ReflectResult) : ReflectResult :=
  let set v := r <| verification := v |> in
  match verification_of stated with
  | Some v => set v
  | None =>
      if decide (verification r ≠ Unstated) then r
      else if coerced then set Unknown
      else if is_nonpass r then set Unknown
      else if negb (nothing_missing (missing r)) then set Partial
      else if existsb (λ s, bool_decide (s ∈ open_statuses)) (deliverables r) then set Partial
      else set Verified
  end.

(** A verdict the model did not give, or gave in other words, is a retry. *)
Definition coerce_verdict (g : Grade) : ReflectResult * bool :=
  let absent := match d_verdict g with None | Some EmptyString => true | _ => false end in
  let r := mkResult Retry (default [] (d_reasoning g))
             (match d_reasoning g with None => if absent then [NoVerdict] else [] | Some _ => [] end)
             (d_diagnostic g) (d_what_failed g) (d_strategy g) (Said (d_missing g))
             (cause_of (d_cause g)) 0%Q Unstated [] [] in
  match d_verdict g with
  | Some s => match verdict_of s with Some v => (r <| verdict := v |>, false) | None => (r, true) end
  | None => (r, true)
  end.
(** A failure that blames nothing. *)
Definition coerce_contradiction (g : Grade) (r : ReflectResult) : ReflectResult :=
  if decide (verdict r ≠ Pass ∧ d_cause g = Some "none"%string)
  then r <| verdict := Pass |> <| notes ::= λ l, l ++ [CauseWasNone] |> <| verification := Unknown |>
  else r.
Definition apply_floor (floor : Q) (g : Grade) (coerced : bool) (r : ReflectResult) : ReflectResult :=
  let conf := match d_confidence g with Some (Some q) => clamp01 q | _ => 0%Q end in
  let r := r <| confidence := conf |> in
  match d_confidence g with
  | Some (Some _) =>
      if negb coerced && Qltb 0 floor && is_nonpass r && Qltb conf floor
      then r <| notes ::= λ l, l ++ [BelowFloor (verdict r)] |> <| verdict := Pass |>
             <| failure_cause := NoCause |> <| verification := Unknown |>
      else r
  | _ => r
  end.
Definition _result_from_data (floor : Q) (g : Grade) : ReflectResult :=
  let '(r, coerced) := coerce_verdict g in
  let r := apply_floor floor g coerced (coerce_contradiction g r) in
  let r := r <| deliverables := status_of <$> d_deliverables g |> in
  let r := if decide (verdict r = Retry)
           then r <| retry_without_tools := take 5 (take 80 <$> filter (λ s, strip s ≠ []) (d_without_tools g)) |>
           else r in
  _settle_verification (d_verification g) coerced r.

(** ** The guards *)
Definition _forced_cause (current fallback : Cause) : Cause :=
  match current with NoCause => fallback | c => c end.
Definition _has_pass_with_lessons (r : ReflectResult) : bool :=
  bool_decide (verdict r = Pass) &&
  existsb (λ s, bool_decide (strip s ≠ [])) [strategy r; diagnostic r; what_failed r].

Definition LOOP_WALLS : list string := ["round_ceiling"; "stuck_loop"]%string.
(** The same wall twice is not run into again. *)
Definition ceiling_guard (reason : string) (prior_reasons : list string) (r : ReflectResult) : ReflectResult :=
  if decide (reason ∈ LOOP_WALLS ∧ reason ∈ prior_reasons ∧ verdict r = Retry) then
    r <| verdict := Escalate |> <| failure_cause ::= λ c, _forced_cause c ByTask |>
      <| missing ::= λ m, if nothing_missing m
                          then if decide (reason = "round_ceiling")%string then ChangeTheTask else ChangeTheApproach
                          else m |>
  else r.
(** [phantom]: the grade rests on evidence the grader was never shown. *)
Definition phantom_guard (phantom : ReflectResult → bool) (r : ReflectResult) : ReflectResult :=
  if is_nonpass r && phantom r then
    r <| notes ::= λ l, l ++ [PhantomEvidence (verdict r)] |> <| verdict := Pass |>
      <| failure_cause := NoCause |> <| verification := Unknown |>
  else r.
(** [unfounded]: it is a factual correction its citations do not establish. *)
Definition guard_factual_correction (unfounded : ReflectResult → bool) (r : ReflectResult) : ReflectResult :=
  if decide (verdict r = Pass ∧ _has_pass_with_lessons r = false) then r
  else if unfounded r
  then mkResult Pass [] [CorrectionUnfounded] [] [] [] (Said []) NoCause 0%Q Unknown [] []
  else r.
(** An exit code is not overruled. *)
Definition gate_clamp (results : list GateResult) (r : ReflectResult) : ReflectResult :=
  match failing results with
  | [] => r
  | failed =>
      if decide (verdict r = Pass) then
        let names := name <$> failed in
        r <| verdict := Retry |> <| failure_cause ::= λ c, _forced_cause c ByTask |>
          <| notes ::= λ l, GateClamp names :: l |>
          <| missing ::= λ m, if nothing_missing m then GatesToPass names else m |>
      else r
  end.
Definition apply_verification_receipts (results : list GateResult) (r : ReflectResult) : ReflectResult :=
  let ran := filter (λ g, broken g = false) results in
  let some_passed := existsb passed ran in
  if decide (failing results ≠ []) then r <| verification := Unknown |>
  else if decide (broken_ones results ≠ []) then
    if decide (verification r = Verified) then r <| verification := Partial |> else r
  else if some_passed && bool_decide (verification r = Unknown) then r <| verification := Partial |>
  else r.

(** ** [reflect_on_session] *)
Inductive Answer := CallFails | Unparseable | Answered (g : Grade).
(** Whether the evidence could be put together. *)
Inductive Evidence := EvidenceFails | NoRequest | Collected.
Record Grading := mkGrading {
  evidence : Evidence;
  answers : nat → Answer;
  tool_work : nat;                  (** calls of tools in the turn *)
  ended_by : string;
  ended_before : list string;
  phantom : ReflectResult → bool;
  unfounded : ReflectResult → bool
}.
(** A grade, or the pass given in its place. *)
Inductive GradeOutcome := Graded (r : ReflectResult) | SoftPass.
Definition outcome_result (o : GradeOutcome) : ReflectResult := match o with Graded r => r | SoftPass => plain_pass end.

Definition INNER_REPROMPT_LIMIT : nat := 2.
Definition contentless (work : nat) (r : ReflectResult) : bool :=
  bool_decide (verdict r = Pass) && bool_decide (strip (reasoning r) = []) && (5 <=? work)%nat
  && bool_decide (notes r = []).
Definition guarded (w : Grading) (results : list GateResult) (r : ReflectResult) : ReflectResult :=
  apply_verification_receipts results (gate_clamp results (guard_factual_correction (unfounded w)
    (phantom_guard (phantom w) (ceiling_guard (ended_by w) (ended_before w) r)))).
(** The attempts left after the [i]-th. *)
Fixpoint ask (floor : Q) (w : Grading) (results : list GateResult) (more i : nat) : GradeOutcome :=
  match answers w i with
  | CallFails => SoftPass
  | Unparseable => match more with 0 => SoftPass | S more => ask floor w results more (S i) end
  | Answered g =>
      let r := _result_from_data floor g in
      if contentless (tool_work w) r then
        match more with
        | 0 => Graded (guarded w results (r <| notes := [NoAnalysis] |>))
        | S more => ask floor w results more (S i)
        end
      else Graded (guarded w results r)
  end.
(** [None]: it raises. *)
Definition reflect_on_session (floor : Q) (w : Grading) (results : list GateResult) : option GradeOutcome :=
  match evidence w with
  | EvidenceFails => None
  | NoRequest => Some SoftPass
  | Collected => Some (ask floor w results INNER_REPROMPT_LIMIT 0)
  end.

(** ** The hooks of a turn *)
Record ReflectSettings := mkReflectSettings {
  gates_enabled : bool;
  reflect_enabled : bool;
  reflect_deferred_normal : bool;
  reflect_max_retries : nat;
  reflect_max_retries_worker : nat;
  reflect_min_messages : nat;
  reflect_nonpass_confidence_floor : Q;
  scout_timeout : Z;
  reflect_retry_budget_cap_s : Z
}.
(** The fields of [TurnState] the hooks and the loop touch. *)
Record TurnRetries := mkTurnRetries {
  reflect_count : nat;
  reflect_lessons : text;
  reflect_retry_requested : bool;
  retry_excluded_tools : list text;
  gate_history : option GateHistory
}.
#[export] Instance TurnRetries_settable : Settable TurnRetries := λ t,
  mkTurnRetries (reflect_count t) (reflect_lessons t) (reflect_retry_requested t) (retry_excluded_tools t)
    (gate_history t).
(** Installed at every turn boundary. *)
Definition fresh_turn : TurnRetries := mkTurnRetries 0 [] false [] None.

Inductive HookEvent :=
| GatesDone (attempt total failed : nat)
| ReflectExhausted (attempts max : nat)
| ReflectSkipped (count min : nat)
| ReflectScheduled
| ReflectRetry (attempt max : nat)
| ReflectEscalate
| BudgetExhausted
| CircuitBreaker (attempts : nat)
| SentinelRow.

(** What a run of the hooks meets. *)
Record HookWorld := mkHookWorld {
  h_gates : GateWorld;
  h_rows : list GateRow;
  h_awaiting_user : bool;
  h_errored : bool;
  h_substantive : nat;              (** user, assistant and tool rows of the turn *)
  h_synthetic : bool;
  h_grading : Grading;
  h_row_fails : bool;               (** inserting the reflect row *)
  h_seconds_remaining : option Z;   (** [None]: no budget is running *)
  h_same_failure : bool             (** the last two post-mortems of the turn agree *)
}.

Section hooks.
Context (os : OS) (ctx : Ctx) (sha256 : text → text).
Context (refusal_text : refusal → text) (exn_text : exn → text).
Context (retry_context : ReflectResult → nat → nat → text) (tool_exists : text → bool).
Context (settings : ReflectSettings) (session_type : string) (override home : option string) (turn_id : option Z).

Definition max_retries : nat :=
  if decide (session_type = "worker")%string then reflect_max_retries_worker settings
  else reflect_max_retries settings.
Definition append_lessons (lessons more : text) : text := strip (lessons ++ [NL; NL] ++ more).

Definition _run_turn_gates (w : HookWorld) (s : TurnRetries) : TurnRetries * list GateResult * list HookEvent :=
  let attempt := S (reflect_count s) in
  let '(history, out) := run_gates_for_turn os ctx sha256 refusal_text exn_text (gates_enabled settings)
      (h_gates w) override home turn_id (h_rows w) attempt (gate_history s) in
  let s := s <| gate_history := history |> in
  match out with
  | Raise _ | Ret [] => (s, [], [])
  | Ret results =>
      let notice := format_broken_notice results in
      let s := if decide (notice ≠ [] ∧ contains notice (reflect_lessons s) = false)
               then s <| reflect_lessons ::= λ l, append_lessons l notice |> else s in
      (s, results, [GatesDone attempt (length results) (length (filter (λ r, passed r = false) results))])
  end.

Definition _apply_gate_retry_fallback (results : list GateResult) (s : TurnRetries) : TurnRetries * list HookEvent :=
  if decide (failing results = []) then (s, [])
  else if (max_retries <=? reflect_count s)%nat then (s, [])
  else
    let s := s <| reflect_count ::= S |>
               <| reflect_lessons ::= λ l, append_lessons l (format_retry_guidance results) |>
               <| reflect_retry_requested := true |> in
    (s, [ReflectRetry (reflect_count s) max_retries]).

(** [_reflect_is_deferred]; a missing type counts as normal. *)
Definition _reflect_is_deferred : bool :=
  reflect_deferred_normal settings && bool_decide (session_type ∈ [""; "normal"]%string).

(** A verdict of retry, up to the request. *)
Definition on_retry_verdict (w : HookWorld) (results : list GateResult) (r : ReflectResult) (s : TurnRetries)
    : TurnRetries * list HookEvent :=
  let count := S (reflect_count s) in
  let lessons := retry_context r count max_retries in
  let s := s <| reflect_count := count |>
             <| reflect_lessons := if existsb (λ g, negb (passed g)) results
                                   then append_lessons lessons (format_retry_guidance results) else lessons |> in
  let needed := (Z.min (scout_timeout settings * 3 + 30) (reflect_retry_budget_cap_s settings))%Z in
  if match h_seconds_remaining w with Some secs => (secs <? needed)%Z | None => false end
  then (s, [BudgetExhausted])
  else if ((2 <=? count)%nat && h_same_failure w) then (s, [CircuitBreaker count])
  else
    let s := s <| retry_excluded_tools := filter (λ n, tool_exists n = true) (retry_without_tools r) |> in
    if (count <? max_retries)%nat
    then (s <| reflect_retry_requested := true |>, [ReflectRetry count max_retries])
    else (s, [ReflectExhausted count max_retries]).

Definition _maybe_reflect (w : HookWorld) (results : list GateResult) (s : TurnRetries) : TurnRetries * list HookEvent :=
  if h_awaiting_user w || h_errored w then (s, [])
  else if (max_retries <=? reflect_count s)%nat then (s, [ReflectExhausted (reflect_count s) max_retries])
  else if (h_substantive w <? reflect_min_messages settings)%nat then
    let '(s, events) := _apply_gate_retry_fallback results s in
    (s, ReflectSkipped (h_substantive w) (reflect_min_messages settings) :: events)
  else if _reflect_is_deferred then
    let '(s, events) := _apply_gate_retry_fallback results s in
    (s, events ++ if h_synthetic w then [] else [ReflectScheduled])
  else
    match reflect_on_session (reflect_nonpass_confidence_floor settings) (h_grading w) results with
    | None => (s, [SentinelRow])
    | Some outcome =>
        if h_row_fails w then (s, [SentinelRow]) else
        let r := outcome_result outcome in
        match verdict r with
        | Retry => on_retry_verdict w results r s
        | Escalate => (s, [ReflectEscalate])
        | Pass => (s, [])
        end
    end.

Definition run_post_task_hooks (w : HookWorld) (s : TurnRetries) : TurnRetries * list HookEvent :=
  let '(s, results, events) := if gates_enabled settings then _run_turn_gates w s else (s, [], []) in
  let '(s, more) := if reflect_enabled settings then _maybe_reflect w results s
                    else _apply_gate_retry_fallback results s in
  (s, events ++ more).

(** ** The retry loop of [_finalize_turn] *)

(** One iteration: the session before the hooks, the hooks' own world, the
    session after them, and whether a granted retry is cancelled.  Nothing in
    the program requests an eval retry, the other kind the loop knows. *)
Record Round := mkRound {
  finalizing_before : bool;
  pending_before : bool;
  hook_world : HookWorld;
  pending_after : bool;
  finalizing_after : bool;
  retry_cancelled : bool
}.
Definition _run_post_hooks (rd : Round) (s : TurnRetries) : TurnRetries * list HookEvent :=
  if negb (finalizing_before rd) || pending_before rd then (s, []) else run_post_task_hooks (hook_world rd) s.
(** The turn after the hooks, and whether a retry is granted. *)
Definition grant (rd : Round) (s : TurnRetries) : TurnRetries * bool :=
  let s := if reflect_retry_requested s && pending_after rd then s <| reflect_retry_requested := false |> else s in
  if reflect_retry_requested s && (reflect_count s <? max_retries)%nat && negb (pending_after rd) && finalizing_after rd
  then (s <| reflect_retry_requested := false |>, true)
  else (s, false).
(** The turn at the end, the retries run, and what was announced; [None]: out
    of fuel. *)
Fixpoint retry_loop (fuel : nat) (rounds : nat → Round) (i : nat) (s : TurnRetries) (events : list HookEvent)
    : option (TurnRetries * nat * list HookEvent) :=
  match fuel with
  | 0 => None
  | S fuel =>
      let '(s, new) := _run_post_hooks (rounds i) s in
      let events := events ++ new in
      let '(s, granted) := grant (rounds i) s in
      if granted then
        if retry_cancelled (rounds i) then Some (s, S i, events)
        else retry_loop fuel rounds (S i) s events
      else Some (s, i, events)
  end.
(** Every turn starts over; at most [max_retries] rounds are needed
    ([retries_are_bounded]). *)
Definition finalize_turn (rounds : nat → Round) : option (TurnRetries * nat * list HookEvent) :=
  retry_loop (S max_retries) rounds 0 fresh_turn [].
End hooks.

(** ** Gates over grades *)
Lemma gate_clamp_never_passes results r : failing results ≠ [] → verdict (gate_clamp results r) ≠ Pass.
Proof. unfold gate_clamp. destruct (failing results); [done|]. intros _. by case_decide. Qed.
Lemma receipts_verdict results r : verdict (apply_verification_receipts results r) = verdict r.
Proof. unfold apply_verification_receipts. by repeat case_match. Qed.
Lemma receipts_unknown results r :
  failing results ≠ [] → verification (apply_verification_receipts results r) = Unknown.
Proof. intros H. unfold apply_verification_receipts. by rewrite decide_True. Qed.
Lemma receipts_verified results r :
  verification (apply_verification_receipts results r) = Verified → ∀ g, g ∈ results → state g = Passed.
Proof.
  unfold apply_verification_receipts. case_decide as Hf; [done|].
  case_decide as Hb; [by case_decide|]. intros _ g Hin.
  pose proof (proj1 (failing_nil _) Hf g Hin) as Hs.
  assert (broken g = false) as Hg.
  { apply not_true_is_false. intros Hg. assert (g ∈ broken_ones results) as H by (by apply list_elem_of_filter).
    rewrite Hb in H. by apply not_elem_of_nil in H. }
  unfold state in *. rewrite Hg in *. by destruct (passed g).
Qed.

Lemma ask_cases floor w results more i o :
  ask floor w results more i = o →
  (∃ r, o = Graded (guarded w results r)) ∨
  (o = SoftPass ∧ ∃ k, i ≤ k ≤ i + more ∧ (answers w k = CallFails ∨ k = i + more ∧ answers w k = Unparseable)).
Proof.
  intros <-. revert i. induction more as [|more IH]; intros i; cbn; destruct (answers w i) as [| |g] eqn:Ha.
  - right. split; [done|]. exists i. split; [lia|by left].
  - right. split; [done|]. exists i. split; [lia|right; split; [lia|done]].
  - left. case_match; eauto.
  - right. split; [done|]. exists i. split; [lia|by left].
  - destruct (IH (S i)) as [Hr|(Ho & k & Hk & Hw)]; [by left|right; split; [done|]].
    exists k. split; [lia|]. destruct Hw as [|[]]; [by left|right; split; [lia|done]].
  - case_match; [|left; eauto]. destruct (IH (S i)) as [Hr|(Ho & k & Hk & Hw)]; [by left|right; split; [done|]].
    exists k. split; [lia|]. destruct Hw as [|[]]; [by left|right; split; [lia|done]].
Qed.

Lemma guarded_over_failing w results r :
  failing results ≠ [] → verdict (guarded w results r) ≠ Pass ∧ verification (guarded w results r) = Unknown.
Proof.
  intros Hf. unfold guarded. rewrite receipts_verdict. by split; [apply gate_clamp_never_passes|apply receipts_unknown].
Qed.
Lemma graded_guarded floor w results r :
  reflect_on_session floor w results = Some (Graded r) → ∃ r0, r = guarded w results r0.
Proof.
  unfold reflect_on_session. destruct (evidence w); [done|done|]. intros H.
  assert (ask floor w results INNER_REPROMPT_LIMIT 0 = Graded r) as Ho by congruence.
  apply ask_cases in Ho as [(r0 & Hr)|[Hr _]]; [|done]. exists r0. congruence.
Qed.

(** C21: No grade passes a turn over a failing gate.  Whatever the grader answers
    and whatever its guards make of it, a grade given while a gate ran and
    failed is not a pass and verifies nothing; a grade is "verified" only if
    every gate passed; and the only other outcome, a pass in place of a grade,
    comes from a turn without a request, a failed call, or three answers that
    could not be read. *)
Theorem no_grade_passes_a_failing_gate (floor : Q) (w : Grading) (results : list GateResult) (o : GradeOutcome)
    (Hreflect : reflect_on_session floor w results = Some o) :
  (∃ r, o = Graded r ∧
     (failing results ≠ [] → verdict r ≠ Pass ∧ verification r = Unknown) ∧
     (verification r = Verified → ∀ g, g ∈ results → state g = Passed)) ∨
  (o = SoftPass ∧
     (evidence w = NoRequest ∨
      ∃ k, k ≤ INNER_REPROMPT_LIMIT ∧ (answers w k = CallFails ∨ k = INNER_REPROMPT_LIMIT ∧ answers w k = Unparseable))).
Proof.
  unfold reflect_on_session in Hreflect. destruct (evidence w) eqn:He; [done|injection Hreflect as <-; by right; eauto|].
  assert (ask floor w results INNER_REPROMPT_LIMIT 0 = o) as Ho by congruence. apply ask_cases in Ho as [(r & ->)|(-> & k & Hk & Hw)].
  - left. eexists. split; [done|]. split; [apply guarded_over_failing|apply receipts_verified].
  - right. split; [done|]. right. exists k. split; [lia|]. done.
Qed.

(** ** Hooks *)
Section hook_lemmas.
Context (os : OS) (ctx : Ctx) (sha256 : text → text).
Context (refusal_text : refusal → text) (exn_text : exn → text).
Context (retry_context : ReflectResult → nat → nat → text) (tool_exists : text → bool).
Context (settings : ReflectSettings) (session_type : string) (override home : option string) (turn_id : option Z).
Notation max := (max_retries settings session_type).
Notation run_turn_gates := (_run_turn_gates os ctx sha256 refusal_text exn_text settings override home turn_id).
Notation maybe_reflect := (_maybe_reflect retry_context tool_exists settings session_type).
Notation fallback := (_apply_gate_retry_fallback settings session_type).
Notation hooks := (run_post_task_hooks os ctx sha256 refusal_text exn_text retry_context tool_exists settings
  session_type override home turn_id).
Notation loop := (retry_loop os ctx sha256 refusal_text exn_text retry_context tool_exists settings
  session_type override home turn_id).

(** What one step may do to the counters: a request is charged, once, and never
    beyond the cap. *)
Definition charged (s s' : TurnRetries) : Prop :=
  (reflect_retry_requested s = false → reflect_retry_requested s' = true → reflect_count s' = S (reflect_count s)) ∧
  (reflect_count s ≤ max → reflect_count s' ≤ max).
Lemma charged_refl s s' :
  reflect_count s' = reflect_count s → reflect_retry_requested s' = reflect_retry_requested s → charged s s'.
Proof. unfold charged. intros -> ->. split; [congruence|done]. Qed.

Lemma gates_charged w s : let '(s', _, _) := run_turn_gates w s in
  reflect_count s' = reflect_count s ∧ reflect_retry_requested s' = reflect_retry_requested s.
Proof.
  unfold _run_turn_gates. destruct (run_gates_for_turn _ _ _ _ _ _ _ _ _ _ _ _ _) as [h [[|r rs]|e]]; [done| |done].
  by case_decide.
Qed.
Lemma fallback_charged results s : charged s (fallback results s).1.
Proof.
  unfold _apply_gate_retry_fallback. case_decide; [by apply charged_refl|].
  destruct (Nat.leb_spec max (reflect_count s)); [by apply charged_refl|]. split; cbn; [done|lia].
Qed.
Lemma retry_verdict_charged w results r s :
  reflect_count s < max → charged s (on_retry_verdict retry_context tool_exists settings session_type w results r s).1.
Proof.
  intros Hlt. unfold on_retry_verdict.
  repeat first [case_match|progress cbn]; split; cbn; try done; lia.
Qed.
Lemma reflect_charged w results s : charged s (maybe_reflect w results s).1.
Proof.
  unfold _maybe_reflect. destruct (h_awaiting_user w || h_errored w); [by apply charged_refl|].
  destruct (Nat.leb_spec max (reflect_count s)); [by apply charged_refl|].
  pose proof (fallback_charged results s) as Hfb. destruct (fallback results s) as [s1 e1].
  destruct (_ <? _)%nat; [done|]. destruct (_reflect_is_deferred _ _); [done|].
  destruct (reflect_on_session _ _ _) as [o|]; [|by apply charged_refl].
  destruct (h_row_fails w); [by apply charged_refl|].
  destruct (verdict (outcome_result o)); [by apply charged_refl|by apply retry_verdict_charged|by apply charged_refl].
Qed.
Lemma hooks_charged w s : charged s (hooks w s).1.
Proof.
  unfold run_post_task_hooks.
  assert (∃ s1 results ev, (if gates_enabled settings then run_turn_gates w s else (s, [], [])) = (s1, results, ev) ∧
    reflect_count s1 = reflect_count s ∧ reflect_retry_requested s1 = reflect_retry_requested s)
    as (s1 & results & ev & -> & Hc & Hr).
  { destruct (gates_enabled settings); [|eauto 10]. pose proof (gates_charged w s) as H.
    destruct (run_turn_gates w s) as [[s1 results] ev]. eauto 10. }
  pose proof (reflect_charged w results s1) as H1. pose proof (fallback_charged results s1) as H2.
  destruct (reflect_enabled settings).
  - destruct (maybe_reflect w results s1) as [s2 e]. unfold charged in *. by rewrite <- Hc, <- Hr.
  - destruct (fallback results s1) as [s2 e]. unfold charged in *. by rewrite <- Hc, <- Hr.
Qed.

(** A granted retry has been charged and leaves room below the cap. *)
Lemma round_charged rd s s' new :
  reflect_retry_requested s = false → reflect_count s ≤ max →
  _run_post_hooks os ctx sha256 refusal_text exn_text retry_context tool_exists settings session_type override
    home turn_id rd s = (s', new) →
  reflect_count s' ≤ max ∧
  ∀ s2 granted, grant settings session_type rd s' = (s2, granted) →
    reflect_count s2 = reflect_count s' ∧
    (granted = true → reflect_retry_requested s2 = false ∧ reflect_count s2 = S (reflect_count s) ∧ reflect_count s2 < max).
Proof.
  intros Hreq Hle Hrun.
  assert (charged s s') as [Hc Hm].
  { unfold _run_post_hooks in Hrun. destruct (negb _ || _).
    - injection Hrun as <- <-. by apply charged_refl.
    - pose proof (hooks_charged (hook_world rd) s) as H. by rewrite Hrun in H. }
  split; [auto|]. intros s2 granted. unfold grant.
  destruct (reflect_retry_requested s') eqn:Hr'; cbn [andb].
  2: { rewrite Hr'. cbn. intros [= <- <-]. done. }
  destruct (pending_after rd); cbn [andb negb].
  { cbn. intros [= <- <-]. done. }
  rewrite Hr'. cbn [andb]. rewrite andb_true_r. destruct (Nat.ltb_spec (reflect_count s') max); cbn [andb].
  - destruct (finalizing_after rd); intros [= <- <-]; cbn; [|done]. split; [done|]. intros _. auto.
  - intros [= <- <-]. done.
Qed.

Lemma loop_bounded rounds more fuel i s events :
  reflect_retry_requested s = false → reflect_count s ≤ max → max - reflect_count s < fuel →
  ∃ s' n events', loop (fuel + more) rounds i s events = Some (s', n, events') ∧
    loop fuel rounds i s events = Some (s', n, events') ∧ reflect_count s' ≤ max ∧
    i ≤ n ≤ i + (max - 1 - reflect_count s).
Proof.
  revert i s events. induction fuel as [|fuel IH]; intros i s events Hreq Hle Hlt; [lia|]. cbn.
  destruct (_run_post_hooks _ _ _ _ _ _ _ _ _ _ _ _ _ s) as [s1 new] eqn:Hrun.
  destruct (round_charged _ _ _ _ Hreq Hle Hrun) as [Hle1 Hgrant].
  destruct (grant _ _ _ s1) as [s2 granted] eqn:Hg. destruct (Hgrant _ _ eq_refl) as [Hc2 Hgr].
  destruct granted.
  2: { exists s2, i, (events ++ new). split_and!; [done|done|lia..]. }
  destruct (Hgr eq_refl) as (Hr2 & Hs2 & Hb). destruct (retry_cancelled (rounds i)).
  { exists s2, (S i), (events ++ new). split_and!; [done|done|lia..]. }
  destruct (IH (S i) s2 (events ++ new) Hr2) as (s' & n & ev & H1 & H2 & H3 & H4); [lia..|].
  exists s', n, ev. split_and!; [done|done|lia..].
Qed.


Lemma failing_some_not_passed results :
  failing results ≠ [] → existsb (λ g, negb (passed g)) results = true.
Proof.
  intros Hf. destruct (failing results) as [|g l] eqn:E; [done|].
  assert (g ∈ failing results) as Hg by (rewrite E; left).
  unfold failing in Hg. apply list_elem_of_filter in Hg as [Hg Hin].
  apply existsb_exists. exists g. rewrite <- list_elem_of_In. split; [done|].
  unfold is_failing in Hg. by apply andb_true_iff in Hg as [Hg _].
Qed.
Lemma fallback_requests results s :
  failing results ≠ [] → reflect_count s < max →
  ∃ e, fallback results s = (s <| reflect_count ::= S |>
    <| reflect_lessons ::= λ l, append_lessons l (format_retry_guidance results) |>
    <| reflect_retry_requested := true |>, e).
Proof.
  intros Hf Hlt. unfold _apply_gate_retry_fallback. rewrite decide_False by done.
  destruct (Nat.leb_spec max (reflect_count s)); [lia|]. eauto.
Qed.

(** A retry is asked for, and the next attempt is told which gates to make
    pass. *)
Definition asks_to_fix (results : list GateResult) (s s' : TurnRetries) : Prop :=
  reflect_retry_requested s' = true ∧ reflect_count s' = S (reflect_count s) ∧
  ∃ l, reflect_lessons s' = append_lessons l (format_retry_guidance results).
(** A retry is not asked for, and the reason is announced. *)
Definition says_why_not (s s' : TurnRetries) (events : list HookEvent) : Prop :=
  reflect_retry_requested s' = reflect_retry_requested s ∧
  ∃ e, e ∈ events ∧ (e = ReflectEscalate ∨ e = BudgetExhausted ∨
    e = CircuitBreaker (S (reflect_count s)) ∨ e = ReflectExhausted (S (reflect_count s)) max).
(** Nobody grades this turn before it ends. *)
Definition ungraded (w : HookWorld) : bool :=
  negb (reflect_enabled settings) || (h_substantive w <? reflect_min_messages settings)%nat
  || _reflect_is_deferred settings session_type.

Lemma retry_verdict_answers w results r s :
  failing results ≠ [] →
  let '(s', ev) := on_retry_verdict retry_context tool_exists settings session_type w results r s in
  asks_to_fix results s s' ∨ says_why_not s s' ev.
Proof.
  intros Hf. unfold on_retry_verdict. rewrite (failing_some_not_passed _ Hf).
  unfold asks_to_fix, says_why_not.
  destruct (match h_seconds_remaining w with Some secs => _ | None => false end).
  { right. split; [done|]. exists BudgetExhausted. split; [left|auto]. }
  destruct (_ && h_same_failure w).
  { right. split; [done|]. eexists. split; [left|auto]. }
  destruct (Nat.ltb_spec (S (reflect_count s)) max).
  - left. cbn. eauto.
  - right. split; [done|]. eexists. split; [left|auto].
Qed.
End hook_lemmas.

Section answered.
Context (os : OS) (ctx : Ctx) (sha256 : text → text).
Context (refusal_text : refusal → text) (exn_text : exn → text).
Context (retry_context : ReflectResult → nat → nat → text) (tool_exists : text → bool).
Context (settings : ReflectSettings) (session_type : string) (override home : option string) (turn_id : option Z).
Notation hooks := (run_post_task_hooks os ctx sha256 refusal_text exn_text retry_context tool_exists settings
  session_type override home turn_id).
Notation run_turn_gates := (_run_turn_gates os ctx sha256 refusal_text exn_text settings override home turn_id).

End answered.

(** ** Concrete turns *)
Definition defaults (retries : nat) : ReflectSettings := mkReflectSettings true true true retries retries 3 (1 # 2) 90 600.
Definition approving : Grade :=
  mkGrade (Some "pass") (Some (t "all done")) [] [] [] [] (Some "none") (Some (Some (9 # 10)%Q)) "verified" [] [].
Definition grader (a : Answer) : Grading :=
  mkGrading Collected (λ _, a) 6 "complete" [] (λ _, false) (λ _, false).
Definition hook (w : GateWorld) (gates : list GateRow) (a : Answer) : HookWorld :=
  mkHookWorld w gates false false 5 false (grader a) false None false.
Definition steady (h : HookWorld) (i : nat) : Round := mkRound true false h false true false.
Definition ending (retries : nat) (session_type : string) (h : HookWorld) : option (TurnRetries * nat * list HookEvent) :=
  finalize_turn plain_os ctx0 digest say complain (λ _ _ _, t "again") (λ _, true) (defaults retries) session_type
    None None (Some 7%Z) (steady h).
Definition failed_result : GateResult :=
  mkGateResult (t "tests") (t "pytest -q") false (Some 1%Z) [] false [] [] (t "session") false None.

Lemma no_grade_passes_a_failing_gate_witness :
  ∃ r, reflect_on_session (1 # 2) (grader (Answered approving)) [failed_result] = Some (Graded r) ∧
    verdict r ≠ Pass ∧ verification r = Unknown.
Proof.
  eexists. match goal with |- ?A ∧ _ => assert A as H by (vm_compute; reflexivity) end. split; [exact H|].
  destruct (no_grade_passes_a_failing_gate _ _ _ _ H) as [(r & Hr & Hfail & _)|[Hr _]]; [|discriminate Hr].
  injection Hr as <-. apply Hfail. discriminate.
Defined.


(** A cap of two retries, the default, grants one: three attempts of a failing
    turn are announced, two are made. *)
Lemma the_last_retry_is_not_run :
  (∃ s, ending 2 "normal" (hook (exits 1%Z) [tests_gate] (Answered approving)) =
    Some (s, 1, [GatesDone 1 1 1; ReflectRetry 1 2; ReflectScheduled; GatesDone 2 1 1; ReflectRetry 2 2; ReflectScheduled])) ∧
  ∃ s, ending 1 "normal" (hook (exits 1%Z) [tests_gate] (Answered approving)) =
    Some (s, 0, [GatesDone 1 1 1; ReflectRetry 1 1; ReflectScheduled]).
Proof. split; eexists; vm_compute; reflexivity. Qed.
Lemma a_graded_turn_is_retried_once :
  ∃ s, ending 2 "cron" (hook (exits 1%Z) [tests_gate] (Answered approving)) =
    Some (s, 1, [GatesDone 1 1 1; ReflectRetry 1 2; GatesDone 2 1 1; ReflectExhausted 2 2]).
Proof. eexists. vm_compute. reflexivity. Qed.

(** The notice that a gate is broken is kept for a turn that never reads it:
    without a retry it ends with its turn, and the next one starts empty. *)
Lemma broken_notice_ends_with_its_turn :
  let h := hook (mkGateWorld (λ _, quiet_tree) (λ _ _, NotSpawned (t "no such directory"))) [tests_gate] (Answered approving) in
  (∃ s ev, ending 2 "normal" h = Some (s, 0, ev) ∧ reflect_lessons s ≠ []) ∧ reflect_lessons fresh_turn = [].
Proof. cbv zeta. split; [|done]. do 2 eexists. split; [vm_compute; reflexivity|]. vm_compute. discriminate. Qed.

(** A grader that cannot be read lets a failing gate pass: nothing is retried
    and nothing announced. *)
Lemma unread_grade_ignores_failing_gates os ctx sha256 refusal_text exn_text retry_context tool_exists settings
    session_type override home turn_id w s s1 results ev0 :
  gates_enabled settings = true → reflect_enabled settings = true →
  ungraded settings session_type w = false →
  reflect_on_session (reflect_nonpass_confidence_floor settings) (h_grading w) results = Some SoftPass →
  h_row_fails w = false → h_awaiting_user w = false → h_errored w = false →
  reflect_count s1 < max_retries settings session_type →
  _run_turn_gates os ctx sha256 refusal_text exn_text settings override home turn_id w s = (s1, results, ev0) →
  run_post_task_hooks os ctx sha256 refusal_text exn_text retry_context tool_exists settings session_type override
    home turn_id w s = (s1, ev0 ++ []).
Proof.
  intros Hon Hron Hun Hr Hrow Hu He Hlt Hg. unfold run_post_task_hooks. rewrite Hon, Hg, Hron.
  unfold ungraded in Hun. rewrite Hron in Hun. cbn [negb orb] in Hun. apply orb_false_iff in Hun as [Hs Hd].
  unfold _maybe_reflect. rewrite Hu, He, Hs, Hd, Hr, Hrow. cbn [orb].
  destruct (Nat.leb_spec (max_retries settings session_type) (reflect_count s1)); [lia|done].
Qed.
Lemma unparseable_passes results : reflect_on_session (1 # 2) (grader Unparseable) results = Some SoftPass.
Proof. done. Qed.
