(* ===== verification/Wire.v ===== *)
(** * Messages on the wire (core/context/compiler.py, core/llm/types.py)

    What [normalize_for_openrouter] and [attach_cache_breakpoints] turn the
    compiled messages into before an OpenAI-format provider sees them.  A
    message is the dict's fields the code reads, with [extra] for the rest,
    which is passed through. *)
From stdpp Require Import pretty.
From S2P Require Import Prelude PyStr.

(** A part of multimodal content; [TextPart] carries whether it has a
    [cache_control] key, [OtherPart] (an image) has no text. *)
Inductive Part := TextPart (s : text) (cached : bool) | OtherPart (id : nat) (cached : bool).
Inductive Content := CNone | CText (s : text) | CParts (ps : list Part).

(** A tool call as found in a message: flat, or with a [function] dict.  A
    missing or null id or name is the empty string. *)
Record RawCall := mkCall {
  c_id : string;
  c_function : option (string * string);
  c_name : string;
  c_arguments : option string
}.
Record Message := mkMessage {
  role : string;
  content : Content;
  tool_calls : list RawCall;      (** absent and empty are both falsy *)
  tool_call_id : string;
  extra : string
}.
#[export] Instance Message_settable : Settable Message :=
  λ m, mkMessage (role m) (content m) (tool_calls m) (tool_call_id m) (extra m).

(** Python's [a or b] on strings. *)
Definition or_else (a b : string) : string := if decide (a = "")%string then b else a.

Definition extract_tool_call_fields (tc : RawCall) : string * string * string :=
  let '(fname, fargs) := default ("", "")%string (c_function tc) in
  (c_id tc, or_else fname (c_name tc), or_else fargs (default "{}"%string (c_arguments tc))).

Definition fix_call (i : nat) (tc : RawCall) : RawCall :=
  let '(tc_id, name, arguments) := extract_tool_call_fields tc in
  mkCall (or_else tc_id ("call_" +:+ pretty i +:+ "_" +:+ pretty i))
    (Some (name, or_else arguments "{}")) "" None.

Definition _OPENAI_ROLES : list string := ["system"; "user"; "assistant"; "tool"]%string.

(** The loop body: content is never null; a system message after the first
    becomes a user message; an assistant's calls are framed. *)
Definition fill_content (m : Message) : Message :=
  match content m with CNone => m <| content := CText [] |> | _ => m end.
Definition carry_as_user (seen_system : bool) (m : Message) : Message :=
  if decide (role m = "system"%string ∧ seen_system = true) then m <| role := "user"%string |> else m.
Definition frame_calls (m : Message) : Message :=
  if decide (role m = "assistant"%string) then m <| tool_calls ::= imap fix_call |> else m.
Definition treated (seen_system : bool) (m : Message) : Message :=
  frame_calls (carry_as_user seen_system (fill_content m)).
Definition call_ids (m : Message) : list string :=
  if decide (role m = "assistant"%string) then c_id <$> tool_calls m else [].

(** [seen_system], and the ids of the calls so far. *)
Fixpoint normalize_from (seen_system : bool) (valid : list string) (messages : list Message)
    : list Message :=
  match messages with
  | [] => []
  | msg :: messages =>
      if decide (role msg ∉ _OPENAI_ROLES) then normalize_from seen_system valid messages else
      let m := treated seen_system msg in
      let seen_system := seen_system || bool_decide (role msg = "system"%string) in
      let valid := call_ids m ++ valid in
      if decide (role m = "tool"%string ∧ tool_call_id m ≠ ""%string ∧ tool_call_id m ∉ valid)
      then normalize_from seen_system valid messages
      else m :: normalize_from seen_system valid messages
  end.
Definition normalize_for_openrouter (messages : list Message) : list Message :=
  normalize_from false [] messages.

(** ** Cache breakpoints *)
Definition cached_part (p : Part) : bool :=
  match p with TextPart _ b | OtherPart _ b => b end.
Definition part_text (p : Part) : text := match p with TextPart s _ => s | OtherPart _ _ => [] end.
Definition starts_with_string (p s : string) : bool := starts_with (t p) (t s).

#[global] Arguments starts_with_string : simpl never.

Definition attach_cache_breakpoints (cache_control : bool) (messages : list Message)
    (model provider : string) (static_prefix_chars : nat) : list Message :=
  match messages with
  | [] => []
  | head :: rest =>
      let eligible := cache_control && bool_decide (provider = "openrouter")%string &&
        starts_with_string "anthropic/" model && bool_decide (role head = "system")%string in
      match content head with
      | CParts ps =>
          if existsb cached_part ps then
            if eligible then messages
            else head <| content := CText (concat (part_text <$> ps)) |> :: rest
          else messages
      | CText s =>
          if negb eligible || (static_prefix_chars =? 0) || (length s <? static_prefix_chars)
          then messages
          else
            let static_part := take static_prefix_chars s in
            let turn_part := drop static_prefix_chars s in
            head <| content := CParts (TextPart static_part true ::
              match strip turn_part with [] => [] | _ => [TextPart turn_part true] end) |> :: rest
      | CNone => messages
      end
  end.

(** ** What a provider may rely on *)
Definition has_content (m : Message) : Prop := content m ≠ CNone.
Definition framed (tc : RawCall) : Prop :=
  c_id tc ≠ ""%string ∧ c_name tc = ""%string ∧ c_arguments tc = None ∧
  ∃ name args, c_function tc = Some (name, args) ∧ args ≠ ""%string.
Definition calls_framed (m : Message) : Prop :=
  role m = "assistant"%string → Forall framed (tool_calls m).
(** Well-formed after some system message (or not) and the calls in [valid]:
    the OpenAI roles, contents, framed calls, one system message, and every
    result answering an earlier call. *)
Fixpoint well_formed (seen_system : bool) (valid : list string) (messages : list Message) : Prop :=
  match messages with
  | [] => True
  | m :: messages =>
      role m ∈ _OPENAI_ROLES ∧ has_content m ∧ calls_framed m ∧
      (role m = "system"%string → seen_system = false) ∧
      (role m = "tool"%string → tool_call_id m ≠ ""%string → tool_call_id m ∈ valid) ∧
      well_formed (seen_system || bool_decide (role m = "system"%string))
        (call_ids m ++ valid) messages
  end.

Lemma or_else_nonempty a b : b ≠ ""%string → or_else a b ≠ ""%string.
Proof. unfold or_else. by case_decide. Qed.
Lemma fix_call_framed i tc : framed (fix_call i tc).
Proof.
  unfold fix_call, framed. destruct (extract_tool_call_fields tc) as [[id name] args]. cbn.
  split; [by apply or_else_nonempty|]. split_and!; [done..|]. do 2 eexists. split; [done|].
  by apply or_else_nonempty.
Qed.


Lemma treated_role seen m :
  role (treated seen m) =
    if decide (role m = "system"%string ∧ seen = true) then "user"%string else role m.
Proof.
  unfold treated, frame_calls, carry_as_user, fill_content.
  destruct m as [r [] tcs tid ex]; cbn; repeat (case_decide; cbn in *); try done.
Qed.
Lemma treated_tool_call_id seen m : tool_call_id (treated seen m) = tool_call_id m.
Proof.
  unfold treated, frame_calls, carry_as_user, fill_content.
  destruct m as [r [] tcs tid ex]; cbn; by repeat (case_decide; cbn in *).
Qed.
Lemma treated_content seen m : has_content (treated seen m).
Proof.
  unfold treated, frame_calls, carry_as_user, fill_content, has_content.
  destruct m as [r [] tcs tid ex]; cbn; by repeat (case_decide; cbn in *).
Qed.
Lemma treated_calls seen m : calls_framed (treated seen m).
Proof.
  unfold calls_framed, treated, frame_calls. case_decide as Hr; [|done].
  intros _. cbn. apply Forall_forall. intros tc (i & x & -> & _)%elem_of_lookup_imap_1.
  apply fix_call_framed.
Qed.

Lemma normalize_well_formed seen valid ms : well_formed seen valid (normalize_from seen valid ms).
Proof.
  revert seen valid. induction ms as [|m ms IH]; intros seen valid; cbn [normalize_from]; [done|].
  destruct (decide (role m ∉ _OPENAI_ROLES)) as [|Hrole]; [apply IH|]. cbv zeta.
  assert (call_ids (treated seen m) = [] ∨ role m = "assistant"%string) as Hids.
  { unfold call_ids. rewrite treated_role. repeat case_decide; auto; naive_solver. }
  assert (seen || bool_decide (role (treated seen m) = "system"%string) =
          seen || bool_decide (role m = "system"%string)) as Hseen.
  { rewrite treated_role. destruct seen; [done|]. by rewrite decide_False by (by intros []). }
  match goal with |- context [decide ?P] => destruct (decide P) as [Hdrop|Hdrop] end.
  - assert (role m = "tool"%string) as Hm.
    { destruct Hdrop as [Hm _]. rewrite treated_role in Hm. by case_decide. }
    assert (call_ids (treated seen m) = []) as -> by (destruct Hids; [done|congruence]).
    rewrite Hm, bool_decide_eq_false_2, orb_false_r by done. apply IH.
  - cbn [well_formed]. rewrite Hseen. split_and!.
    + rewrite treated_role. destruct (decide _) as [_|_]; [by apply (bool_decide_unpack _)|by apply dec_stable].
    + apply treated_content.
    + apply treated_calls.
    + rewrite treated_role. destruct (decide _) as [|Hsys]; [by intros|]. intros Hr. destruct seen; [by destruct Hsys|done].
    + intros Htool Hid. destruct (decide (tool_call_id (treated seen m) ∈
        call_ids (treated seen m) ++ valid)) as [Hin|]; [|naive_solver].
      apply elem_of_app in Hin as [Hin|]; [|done]. unfold call_ids in Hin.
      rewrite Htool in Hin. by apply not_elem_of_nil in Hin.
    + apply IH.
Qed.

(** Framed calls are not framed again. *)
Lemma fix_call_fixed i tc : framed tc → fix_call i tc = tc.
Proof.
  destruct tc as [id f n a]. intros (Hid & Hn & Ha & name & args & Hf & Hargs). cbn in *. subst.
  unfold fix_call, extract_tool_call_fields, or_else. cbn.
  rewrite (decide_False (P := id = ""%string)) by done.
  rewrite !(decide_False (P := args = ""%string)) by done. do 3 f_equal. by case_decide.
Qed.
Lemma treated_fixed seen m :
  has_content m → calls_framed m → (role m = "system"%string → seen = false) → treated seen m = m.
Proof.
  intros Hc Hcalls Hsys. unfold treated.
  assert (fill_content m = m) as -> by (unfold fill_content, has_content in *; by destruct (content m)).
  assert (carry_as_user seen m = m) as ->.
  { unfold carry_as_user. case_decide as Hs; [|done]. destruct Hs as [?%Hsys ?]. congruence. }
  unfold frame_calls. case_decide as Hr; [|done]. specialize (Hcalls Hr).
  destruct m as [r c tcs tid ex]. cbn in *. unfold modify. cbn. f_equal.
  rewrite <-(list_fmap_id tcs) at 2. apply list_eq. intros i.
  rewrite list_lookup_imap, list_lookup_fmap. destruct (tcs !! i) as [tc|] eqn:Hi; [|done].
  cbn. f_equal. apply fix_call_fixed. by eapply Forall_lookup_1.
Qed.
Lemma normalize_id seen valid ms : well_formed seen valid ms → normalize_from seen valid ms = ms.
Proof.
  revert seen valid. induction ms as [|m ms IH]; intros seen valid; [done|].
  intros (Hrole & Hc & Hcalls & Hsys & Htool & Hms). cbn [normalize_from].
  rewrite decide_False by (intros Hn; by apply Hn). cbv zeta. rewrite treated_fixed by done.
  rewrite decide_False, IH; [done|done|]. intros (Ht & Hid & Hnin). apply Hnin, elem_of_app. auto.
Qed.

(** C36: What [normalize_for_openrouter] produces is a well-formed request
    body: only OpenAI roles, no null content, at most one system message,
    every assistant call framed with an id and arguments, and every tool
    result that names a call answering an earlier one.  On such messages it
    changes nothing, so normalising twice is normalising once. *)
Theorem normalized_messages_well_formed (messages : list Message) :
  well_formed false [] (normalize_for_openrouter messages) ∧
  (well_formed false [] messages → normalize_for_openrouter messages = messages) ∧
  normalize_for_openrouter (normalize_for_openrouter messages) = normalize_for_openrouter messages.
Proof.
  split_and!; [apply normalize_well_formed|apply normalize_id|].
  apply normalize_id, normalize_well_formed.
Qed.

(** ** Breakpoints can be taken out again *)
(** Attaching breakpoints for an eligible model and flattening for any other
    gives the messages back, unless what follows the static prefix is blank
    (then that white space is gone). *)
Lemma breakpoints_flatten (cc1 cc2 : bool) (head : Message) (rest : list Message) (s : text)
    (m1 p1 m2 p2 : string) (n : nat) :
  content head = CText s →
  cc2 && bool_decide (p2 = "openrouter"%string) && starts_with_string "anthropic/" m2 = false →
  attach_cache_breakpoints cc2 (attach_cache_breakpoints cc1 (head :: rest) m1 p1 n) m2 p2 n =
    match attach_cache_breakpoints cc1 (head :: rest) m1 p1 n with
    | h :: _ => match content h, strip (drop n s) with
                | CParts _, [] => head <| content := CText (take n s) |> :: rest
                | _, _ => head :: rest
                end
    | [] => []
    end.
Proof.
  intros Hs Hno. destruct head as [r c tcs tid ex]. cbn in Hs. subst c.
  unfold attach_cache_breakpoints at 2 3. cbn [content].
  destruct (negb _ || _ || _).
  - cbn [content]. unfold attach_cache_breakpoints. cbn. rewrite Hno. done.
  - unfold attach_cache_breakpoints. destruct (strip (drop n s)); cbn; rewrite Hno; cbn;
      rewrite ?app_nil_r, ?take_drop; done.
Qed.
