(* ===== verification/Ladder.v ===== *)
(** * The retry and failover ladder (core/llm/stream_ladder.py, core/llm/errors.py)

    [stream_with_failover] with the classification of errors, the quota
    circuit breaker and the merging of tool-call fragments.

    One attempt is what [client.chat_stream] does: the events it yields and how
    it ends; it is a parameter, asked with the number of the attempt and the
    request.  Time is in seconds; an attempt says how long it took.  What the
    ladder does on the way (events to the user interface, ledger rows, sleeps,
    requests) is a log. *)
From Stdlib Require Import QArith_base.
From S2P Require Import Prelude PyStr Regex Wire.

(** ** Errors *)
Inductive FailoverReason :=
| RATE_LIMIT | OVERLOADED | TIMEOUT | CONTEXT_OVERFLOW | AUTH | MODEL_NOT_FOUND | FORMAT_ERROR
| UNKNOWN.
#[export] Instance FailoverReason_eq_dec : EqDecision FailoverReason.
Proof. solve_decision. Defined.

Definition FALLBACK_REASONS : list FailoverReason := [RATE_LIMIT; OVERLOADED; TIMEOUT; UNKNOWN].
Definition reason_value (r : FailoverReason) : string :=
  match r with
  | RATE_LIMIT => "rate_limit" | OVERLOADED => "overloaded" | TIMEOUT => "timeout"
  | CONTEXT_OVERFLOW => "context_overflow" | AUTH => "auth"
  | MODEL_NOT_FOUND => "model_not_found" | FORMAT_ERROR => "format_error" | UNKNOWN => "unknown"
  end.

Definition _CONTEXT_OVERFLOW_PHRASES : list string :=
  ["context length"; "maximum context"; "context window"; "context size"; "prompt is too long";
   "input is too long"; "too many tokens"; "context_length_exceeded"].
Definition _CONTEXT_OVERFLOW_CODES : list string :=
  ["context_length_exceeded"; "context_window_exceeded"].

(** [k in s] and, for [any(k in s for k in ks)], [mentions_any]. *)
Definition mentions (s : text) (k : string) : bool := contains (t k) s.
Definition mentions_any (s : text) (ks : list string) : bool := existsb (mentions s) ks.

Definition is_context_overflow_code (code : string) : bool :=
  mentions_any (lower_text (t code)) _CONTEXT_OVERFLOW_CODES.

Definition classify_http_error (status_code : Z) (body code : string) : FailoverReason :=
  let is_in l := bool_decide (status_code ∈ l) in
  if is_context_overflow_code code then CONTEXT_OVERFLOW
  else if is_in [429; 402]%Z then RATE_LIMIT
  else if is_in [401; 403]%Z then AUTH
  else if is_in [404]%Z then MODEL_NOT_FOUND
  else if is_in [502; 503]%Z then OVERLOADED
  else if is_in [408]%Z then TIMEOUT
  else if is_in [400]%Z then
    if mentions_any (lower_text (t body)) _CONTEXT_OVERFLOW_PHRASES then CONTEXT_OVERFLOW
    else FORMAT_ERROR
  else UNKNOWN.

Definition _RETRYABLE_MARKERS : list string :=
  ["500"; "502"; "503"; "504"; "ConnectError"; "ReadTimeout"; "ConnectTimeout";
   "Connection refused"; "empty response"].
Definition is_stream_retryable (error : string) : bool := mentions_any (t error) _RETRYABLE_MARKERS.

(** The leftmost match of [\b(400|...|504)\b]. *)
Definition STATUSES : list (string * Z) :=
  [("400", 400); ("401", 401); ("402", 402); ("403", 403); ("404", 404); ("408", 408);
   ("429", 429); ("500", 500); ("502", 502); ("503", 503); ("504", 504)]%Z.
Definition boundary_after (s : text) : bool :=
  match s with c :: _ => negb (is_word c) | [] => true end.
Fixpoint find_status (after_word : bool) (s : text) : option Z :=
  match s with
  | [] => None
  | c :: s' =>
      match (if after_word then None
             else list_find (λ e, starts_with (t e.1) s = true ∧ boundary_after (drop 3 s) = true)
                    STATUSES) with
      | Some (_, e) => Some e.2
      | None => find_status (is_word c) s'
      end
  end.

Definition stream_failure_category (error : string) : string :=
  let lowered := lower_text (t error) in
  if mentions lowered "timeout" || mentions lowered "timed out" then "timeout"
  else if mentions lowered "connecterror" || mentions lowered "connection refused"
  then "connection_error"
  else if mentions lowered "empty response" then "empty_response"
  else match find_status false (t error) with
       | Some status => reason_value (classify_http_error status "" "")
       | None => "provider_stream_error"
       end.

Definition _is_budget_exhaustion (err : string) : bool :=
  mentions (t err) "exceeded the" && mentions (t err) "LLM time limit".
Definition _is_quota_error (err : string) : bool :=
  mentions_any (lower_text (t err))
    ["key limit exceeded"; "quota exceeded"; "insufficient_quota"; "insufficient quota";
     "billing hard limit"].

Example categories :
  stream_failure_category "openrouter 503: upstream" = "overloaded"%string ∧
  stream_failure_category "openrouter 1503: x" = "provider_stream_error"%string ∧
  stream_failure_category "ReadTimeout " = "timeout"%string.
Proof. vm_compute. auto. Qed.

(** ** Tool-call fragments *)
Record Fragment := mkFragment { f_id : string; f_name : string; f_arguments : string }.
#[export] Instance Fragment_settable : Settable Fragment :=
  λ f, mkFragment (f_id f) (f_name f) (f_arguments f).

(** Change the first call with the fragment's (non-empty) id. *)
Definition merge_one (collected : list Fragment) (tc : Fragment) : list Fragment :=
  match list_find (λ c, f_id c = f_id tc ∧ f_id tc ≠ ""%string) collected with
  | Some (i, existing) =>
      if decide (f_name tc = ""%string) then
        <[i := existing <| f_arguments ::= λ a, a +:+ f_arguments tc |>]> collected
      else if decide (f_name existing = ""%string) then
        <[i := existing <| f_name := f_name tc |> <| f_arguments ::= λ a, a +:+ f_arguments tc |>]>
          collected
      else collected ++ [tc]
  | None => collected ++ [tc]
  end.
Definition _merge_tool_call_deltas (collected deltas : list Fragment) : list Fragment :=
  foldl merge_one collected deltas.

(** ** Attempts *)
Record Usage := mkUsage {
  prompt_tokens : Z;
  completion_tokens : Z;
  total_tokens : Z;
  cache_read_tokens : Z;
  cache_write_tokens : Z
}.
(** [Some (cls, msg)] of a USAGE event: the ledger insert raised. *)
Inductive StreamEvent :=
| TOKEN (s : string)
| TOOL_CALL (tcs : list Fragment)
| USAGE (u : option Usage) (insert_raises : option (string * string))
| ERROR (s : string)
| DONE (finish_reason : option string).
Inductive Ending :=
| Finished
| RaisedFailover (reason : FailoverReason) (message : string)
| RaisedOther (cls message : string)
| Cancelled.
Record Attempt := mkAttempt { at_events : list StreamEvent; at_ending : Ending; at_took : Z }.

Record Request := mkRequest {
  rq_model : string;
  rq_messages : list Message;
  rq_max_tokens : Z
}.

Record LedgerRow := mkRow {
  row_model : string;
  row_usage : Usage;
  row_cost : option Q;
  row_provider : string;
  row_requested : string;
  row_reason : string;
  row_failure : option string
}.

Inductive ResetReason := ByRetry | ByFallback.
Inductive Effect :=
| WaitingLLM
| Requested (r : Request)
| Token (s : string)
| Booked (row : LedgerRow)
| StreamReset (why : ResetReason)
| StreamRetry (attempt wait : nat) (error : string)
| Slept (wait : nat)
| StreamFallback (model : string).

(** ** Prices *)

(** [settings.model_prices]: USD per million tokens, in and out. *)
Definition estimate_cost (prices : gmap string (Q * Q)) (model : string)
    (prompt_tokens completion_tokens : Z) : option Q :=
  match prices !! model with
  | None => None
  | Some (rate_in, rate_out) =>
      if Qle_bool rate_in 0 && Qle_bool rate_out 0 then None
      else Some ((inject_Z prompt_tokens * rate_in + inject_Z completion_tokens * rate_out)
                 / 1000000)%Q
  end.

(** [derive_max_output]: the registry's completion cap under the setting. *)
Definition derive_max_output (context_auto : bool) (max_tokens : Z)
    (registry_cap : string → option Z) (model : string) : Z :=
  if context_auto then
    match registry_cap model with
    | Some cap => if (0 <? cap)%Z then Z.min max_tokens cap else max_tokens
    | None => max_tokens
    end
  else max_tokens.

(** ** The ladder *)
Record Settings := mkSettings {
  fallback_model : string;
  provider_quota_cooldown_s : Z;
  model_prices : gmap string (Q * Q);
  context_auto : bool;
  max_tokens : Z;
  openrouter_cache_control : bool
}.

(** The client, and what it is asked to do. *)
Record Client := mkClient {
  chat_stream : nat → Request → Attempt;
  has_capacity : nat → string → bool;
  resolve_provider : string → string;
  effective_provider : string → option string;  (** [None]: absent or raised *)
  registry_cap : string → option Z;
  sleep_cancelled : nat → bool
}.
Definition serving_provider (client : Client) (model : string) : string :=
  match effective_provider client model with Some p => p | None => resolve_provider client model end.

Record Call := mkLadderCall {
  messages : list Message;
  base_messages : list Message;
  static_prefix_chars : nat;
  model : string;
  max_output_cap : Z;
  tried_fallback_before : bool;
  requested_model_before : string;
  failure_reason_before : option string;
  surface_context_overflow : bool
}.

Record StreamOutcome := mkOutcome {
  o_content : string;
  o_tool_calls : list Fragment;
  o_error : option string;
  o_finish_reason : option string;
  o_model : string;
  o_usage : option Usage;
  o_started_at : Z;
  o_tried_fallback : bool;
  o_requested_model : string;
  o_failure_reason : option string;
  o_context_overflow : option string
}.

(** The locals that live across attempts, the breaker and the log. *)
Record Run := mkRun {
  r_attempt : nat;                     (** attempts made *)
  r_now : Z;                           (** [time.monotonic()] *)
  r_retries : nat;
  r_model : string;
  r_messages : list Message;
  r_usage : option Usage;
  r_tried_fallback : bool;
  r_failure_reason : option string;
  r_blocks : gmap string Z;            (** [_quota_block_until] *)
  r_log : list Effect
}.
#[export] Instance Run_settable : Settable Run := λ r,
  mkRun (r_attempt r) (r_now r) (r_retries r) (r_model r) (r_messages r) (r_usage r)
    (r_tried_fallback r) (r_failure_reason r) (r_blocks r) (r_log r).
Definition say (e : Effect) (r : Run) : Run := r <| r_log ::= λ l, l ++ [e] |>.

(** The locals of one attempt. *)
Record Local := mkLocal {
  l_content : string;
  l_tool_calls : list Fragment;
  l_err : option string;
  l_finish_reason : option string;
  l_category : string;
  l_overflow : option string
}.
#[export] Instance Local_settable : Settable Local := λ l,
  mkLocal (l_content l) (l_tool_calls l) (l_err l) (l_finish_reason l) (l_category l)
    (l_overflow l).
Definition fresh_local : Local := mkLocal "" [] None None "provider_stream_error" None.

Definition STREAM_BACKOFFS : list nat := [5; 10; 15].
Definition NO_DETAIL : string := "provider stream ended with an error and no detail".
Definition OPENAI_FORMAT_PROVIDERS : list string := ["openrouter"; "openai"].

Section ladder.
Context (settings : Settings) (client : Client) (call : Call).

Definition requested_model : string := or_else (requested_model_before call) (model call).

Definition ledger_row (r : Run) (u : Usage) : LedgerRow :=
  mkRow (r_model r) u
    (estimate_cost (model_prices settings) (r_model r) (prompt_tokens u) (completion_tokens u))
    (serving_provider client (r_model r)) requested_model
    (if r_tried_fallback r then "automatic_failover" else "selected")
    (r_failure_reason r).

Definition fail_with (cls msg : string) (l : Local) : Local :=
  l <| l_err := Some msg |> <| l_category := stream_failure_category (cls +:+ " " +:+ msg) |>.

(** The [async for]; the flag is false when it was left before the end. *)
Fixpoint consume (events : list StreamEvent) (l : Local) (r : Run) : Local * Run * bool :=
  match events with
  | [] => (l, r, true)
  | TOKEN s :: events =>
      if decide (s = "")%string then consume events l r
      else consume events (l <| l_content ::= λ c, c +:+ s |>) (say (Token s) r)
  | TOOL_CALL tcs :: events =>
      consume events (l <| l_tool_calls ::= λ c, _merge_tool_call_deltas c tcs |>) r
  | USAGE None _ :: events => consume events l r
  | USAGE (Some u) insert_raises :: events =>
      let r := r <| r_usage := Some u |> in
      match insert_raises with
      | Some (cls, msg) => (fail_with cls msg l, r, false)
      | None => consume events l (say (Booked (ledger_row r u)) r)
      end
  | ERROR s :: _ =>
      let err := or_else s NO_DETAIL in
      (l <| l_err := Some err |> <| l_category := stream_failure_category err |>, r, false)
  | DONE fr :: events => consume events (l <| l_finish_reason := fr |>) r
  end.

(** The two [except] clauses; a cancellation is not caught. *)
Definition end_attempt (e : Ending) (l : Local) : option Local :=
  match e with
  | Finished => Some l
  | RaisedFailover reason message =>
      let l := l <| l_category := reason_value reason |> in
      Some (if surface_context_overflow call && bool_decide (reason = CONTEXT_OVERFLOW)
            then l <| l_overflow := Some message |> else l <| l_err := Some message |>)
  | RaisedOther cls msg => Some (fail_with cls msg l)
  | Cancelled => None
  end.

Definition request_of (r : Run) : Request :=
  let cap := derive_max_output (context_auto settings) (max_tokens settings) (registry_cap client)
               (r_model r) in
  mkRequest (r_model r) (r_messages r)
    (if (0 <? max_output_cap call)%Z then Z.min cap (max_output_cap call) else cap).

(** One attempt: [None] is a cancellation. *)
Definition attempt (r : Run) : option (Local * Run) :=
  let r := if has_capacity client (r_attempt r) (r_model r) then r else say WaitingLLM r in
  let a := chat_stream client (r_attempt r) (request_of r) in
  let r := say (Requested (request_of r)) r in
  let '(l, r, to_the_end) := consume (at_events a) fresh_local r in
  let r := r <| r_attempt ::= S |> <| r_now ::= Z.add (at_took a) |> in
  if to_the_end : bool then (λ l, (l, r)) <$> end_attempt (at_ending a) l else Some (l, r).

Definition outcome (started_at : Z) (l : Local) (r : Run) : StreamOutcome :=
  mkOutcome (l_content l) (l_tool_calls l) (l_err l) (l_finish_reason l) (r_model r) (r_usage r)
    started_at (r_tried_fallback r) requested_model (r_failure_reason r) (l_overflow l).

Definition _note_quota_block (m : string) (r : Run) : Run :=
  if (0 <? provider_quota_cooldown_s settings)%Z
  then r <| r_blocks ::= insert m (r_now r + provider_quota_cooldown_s settings)%Z |> else r.
(** [_quota_block_remaining(m) > 0]; an entry that has run out is dropped. *)
Definition quota_blocked (m : string) (r : Run) : bool :=
  match r_blocks r !! m with Some until => (0 <? until - r_now r)%Z | None => false end.
Definition drop_expired (m : string) (r : Run) : Run :=
  if quota_blocked m r then r else r <| r_blocks ::= delete m |>.

(** What is sent to the fallback model. *)
Definition fallback_messages : list Message :=
  let fallback := fallback_model settings in
  if decide (resolve_provider client fallback ∈ OPENAI_FORMAT_PROVIDERS) then
    attach_cache_breakpoints (openrouter_cache_control settings)
      (normalize_for_openrouter (base_messages call)) fallback (resolve_provider client fallback)
      (static_prefix_chars call)
  else base_messages call.

Definition retry (err : string) (wait : nat) (r : Run) : Run :=
  let r := r <| r_retries ::= S |> in
  say (Slept wait) (say (StreamRetry (r_retries r) wait err) (say (StreamReset ByRetry) r))
    <| r_now ::= Z.add (Z.of_nat wait) |>.
Definition fail_over (category : string) (r : Run) : Run :=
  say (StreamFallback (fallback_model settings)) (say (StreamReset ByFallback)
    (r <| r_tried_fallback := true |> <| r_failure_reason := Some category |> <| r_retries := 0 |>
       <| r_model := fallback_model settings |>)) <| r_messages := fallback_messages |>.

Inductive Decision := Return (r : Run) | Again (r : Run) | CancelledAsleep.

(** After an attempt that failed with [err]. *)
Definition decide_next (err category : string) (r : Run) : Decision :=
  let r := if _is_quota_error err then _note_quota_block (r_model r) r else r in
  if _is_budget_exhaustion err then Return r else
  match (if is_stream_retryable err then STREAM_BACKOFFS !! r_retries r else None) with
  | Some wait =>
      if sleep_cancelled client (r_attempt r) then CancelledAsleep else Again (retry err wait r)
  | None =>
      let fallback := fallback_model settings in
      if bool_decide (fallback ≠ ""%string) && negb (r_tried_fallback r) &&
         bool_decide (fallback ≠ r_model r) then
        if quota_blocked fallback r then Return r
        else Again (fail_over category (drop_expired fallback r))
      else Return r
  end.

(** The [while True]: [None] is out of fuel, [Raise] a cancellation. *)
Fixpoint ladder (fuel : nat) (r : Run) : option (result Datatypes.unit (StreamOutcome * Run)) :=
  match fuel with
  | O => None
  | S fuel =>
      let started_at := r_now r in
      match attempt r with
      | None => Some (Raise tt)
      | Some (l, r) =>
          match l_err l with
          | None => Some (Ret (outcome started_at l r, r))
          | Some err =>
              let o := outcome started_at l r in
              match decide_next err (l_category l) r with
              | Return r => Some (Ret (o, r))
              | Again r => ladder fuel r
              | CancelledAsleep => Some (Raise tt)
              end
          end
      end
  end.

Definition start (now : Z) (blocks : gmap string Z) : Run :=
  mkRun 0 now 0 (model call) (messages call) None (tried_fallback_before call)
    (failure_reason_before call) blocks [].

(** Four requests to each of two models are enough ([ladder_terminates]). *)
Definition FUEL : nat := 8.
Definition stream_with_failover (now : Z) (blocks : gmap string Z)
    : option (result Datatypes.unit (StreamOutcome * Run)) :=
  ladder FUEL (start now blocks).

(** ** What an attempt adds to the log *)

(** What the viewer of the stream has on screen. *)
Definition view_step (shown : string) (e : Effect) : string :=
  match e with Token s => shown +:+ s | StreamReset _ => "" | _ => shown end.
Definition view (log : list Effect) : string := foldl view_step "" log.
Lemma view_snoc log e : view (log ++ [e]) = view_step (view log) e.
Proof. unfold view. by rewrite foldl_app. Qed.

(** The effects of consuming events: tokens and bookings of the model served. *)
Definition consumed_effect (r : Run) (e : Effect) : Prop :=
  (∃ s, e = Token s) ∨ ∃ u, e = Booked (ledger_row r u).
Definition tokens (es : list Effect) : string :=
  foldr (λ e acc, match e with Token s => s +:+ acc | _ => acc end) "" es.

Lemma append_assoc (a b c : string) : (a +:+ b) +:+ c = a +:+ (b +:+ c).
Proof.
  induction a as [|x a IH]; [done|].
  change (String.String x ((a +:+ b) +:+ c) = String.String x (a +:+ (b +:+ c))). by rewrite IH.
Qed.
Lemma append_empty (a : string) : a +:+ "" = a.
Proof.
  induction a as [|x a IH]; [done|].
  change (String.String x (a +:+ "") = String.String x a). by rewrite IH.
Qed.

Lemma view_consumed r log es :
  Forall (consumed_effect r) es → view (log ++ es) = view log +:+ tokens es.
Proof.
  intros Hes. revert log. induction Hes as [|e es He _ IH]; intros log.
  { by rewrite app_nil_r, append_empty. }
  change (e :: es) with ([e] ++ es). rewrite app_assoc, IH, view_snoc.
  destruct He as [[s ->]|[u ->]]; cbn; [by rewrite append_assoc|done].
Qed.

(** A run that differs in usage and log only. *)
Definition extends (es : list Effect) (r r' : Run) : Prop :=
  ∃ u, r' = r <| r_usage := u |> <| r_log := r_log r ++ es |>.
Lemma extends_nil r : extends [] r r.
Proof. exists (r_usage r). destruct r. cbn. unfold modify. cbn. by rewrite app_nil_r. Qed.
Lemma extends_say e es r r' : extends es (say e r) r' → extends (e :: es) r r'.
Proof. intros [u ->]. exists u. unfold say, modify. cbn. by rewrite <-app_assoc. Qed.
Lemma extends_usage u es r r' : extends es (r <| r_usage := u |>) r' → extends es r r'.
Proof. intros [v ->]. by exists v. Qed.
Lemma consumed_same r r' es :
  ledger_row r = ledger_row r' → Forall (consumed_effect r) es → Forall (consumed_effect r') es.
Proof.
  intros Hr Hes. eapply Forall_impl; [exact Hes|]. unfold consumed_effect. by rewrite Hr.
Qed.

Lemma consume_extends events l r l' r' b :
  consume events l r = (l', r', b) →
  ∃ es, extends es r r' ∧ Forall (consumed_effect r) es ∧
    l_content l' = l_content l +:+ tokens es ∧ l_overflow l' = l_overflow l ∧
    (b = true → l_err l' = l_err l) ∧ (b = false → is_Some (l_err l')).
Proof.
  revert l r. induction events as [|e events IH]; intros l r; cbn [consume].
  { intros [= <- <- <-]. exists []. cbn. rewrite append_empty.
    split_and!; try done. apply extends_nil. }
  destruct e as [s|tcs|[u|] insert|s|fr].
  - case_decide; [apply IH|]. intros (es & Hx & Hall & Hv & Hrest)%IH.
    exists (Token s :: es). split_and!; [by apply extends_say| | |apply Hrest..].
    + constructor; [left; eauto|exact Hall].
    + rewrite Hv. cbn. by rewrite append_assoc.
  - intros (es & ? & ? & Hv & Hrest)%IH. exists es. split_and!; [done|done|done|apply Hrest..].
  - destruct insert as [[cls msg]|].
    + intros [= <- <- <-]. exists []. cbn. rewrite append_empty.
      split_and!; try done. apply extends_usage with (Some u), extends_nil.
    + intros (es & Hx & Hall & Hv & Hrest)%IH. exists (Booked (ledger_row r u) :: es).
      split_and!; [by eapply extends_usage, extends_say| | |apply Hrest..].
      * constructor; [right; eauto|exact Hall].
      * exact Hv.
  - apply IH.
  - intros [= <- <- <-]. exists []. cbn. rewrite append_empty.
    split_and!; try done. apply extends_nil.
  - intros (es & ? & ? & Hv & Hrest)%IH. exists es. split_and!; [done|done|done|apply Hrest..].
Qed.

(** What one attempt does to the run: it adds a request and what came of it. *)
Lemma attempt_extends r l r' :
  attempt r = Some (l, r') →
  ∃ pre es u, pre ∈ [[]; [WaitingLLM]] ∧ Forall (consumed_effect r) es ∧
    r' = r <| r_usage := u |> <| r_log := r_log r ++ pre ++ Requested (request_of r) :: es |>
       <| r_attempt ::= S |> <| r_now := r_now r' |> ∧
    l_content l = tokens es.
Proof.
  unfold attempt.
  set (r0 := if has_capacity _ _ _ then r else say WaitingLLM r).
  assert (∃ pre, pre ∈ [[]; [WaitingLLM]] ∧ r0 = r <| r_log := r_log r ++ pre |>) as (pre & Hpre & Hr0).
  { subst r0. destruct (has_capacity _ _ _); [exists []|exists [WaitingLLM]].
    - split; [left|]. destruct r. cbn. unfold modify. cbn. by rewrite app_nil_r.
    - split; [right; left|done]. }
  assert (request_of r0 = request_of r) as -> by (by rewrite Hr0).
  destruct (consume _ _ _) as [[l0 r1] b] eqn:Hc.
  apply consume_extends in Hc as (es & [u Hu] & Hall & Hv & _).
  assert (∀ l1, l_content l1 = l_content l0 → l = l1 → l_content l = tokens es) as Hl.
  { intros l1 Hl1 ->. by rewrite Hl1, Hv. }
  intros Hres.
  assert (r' = r1 <| r_attempt ::= S |> <| r_now ::= Z.add (at_took (chat_stream client (r_attempt r0) (request_of r))) |>
          ∧ ∃ l1, l_content l1 = l_content l0 ∧ l = l1) as (-> & l1 & Hl1 & Hll).
  { destruct b; [|injection Hres as <- <-; eauto].
    destruct (end_attempt _ l0) as [l1|] eqn:He; cbn in Hres; [|done]. injection Hres as <- <-.
    split; [done|]. exists l1. split; [|done]. unfold end_attempt, fail_with in He.
    destruct (at_ending _); [by injection He as <-| |by injection He as <-|done].
    destruct (_ && _); by injection He as <-. }
  exists pre, es, u. split_and!; [done| | |by eapply Hl].
  - eapply consumed_same; [|exact Hall]. by rewrite Hr0.
  - rewrite Hu, Hr0. unfold say, modify. cbn. by rewrite <-!app_assoc.
Qed.

(** ** The story of a ladder

    What may happen, told without the loop: requests, tokens and bookings of
    one model, pauses between them, and at most once a change to the fallback
    model with its own messages. *)
Record Rung := mkRung {
  g_model : string;
  g_messages : list Message;
  g_tried : bool;
  g_failure : option string
}.
Definition first_rung : Rung :=
  mkRung (model call) (messages call) (tried_fallback_before call) (failure_reason_before call).
Definition rung_of (r : Run) : Rung :=
  mkRung (r_model r) (r_messages r) (r_tried_fallback r) (r_failure_reason r).

(** The request a rung makes, and the row that books its usage. *)
Definition rung_request (g : Rung) : Request :=
  let cap := derive_max_output (context_auto settings) (max_tokens settings) (registry_cap client)
               (g_model g) in
  mkRequest (g_model g) (g_messages g)
    (if (0 <? max_output_cap call)%Z then Z.min cap (max_output_cap call) else cap).
Definition rung_row (g : Rung) (u : Usage) : LedgerRow :=
  mkRow (g_model g) u
    (estimate_cost (model_prices settings) (g_model g) (prompt_tokens u) (completion_tokens u))
    (serving_provider client (g_model g)) requested_model
    (if g_tried g then "automatic_failover" else "selected") (g_failure g).

Definition quiet_effect (e : Effect) : Prop :=
  match e with
  | WaitingLLM | Token _ | StreamReset _ | Slept _ => True
  | StreamRetry _ _ err => is_stream_retryable err = true ∧ _is_budget_exhaustion err = false
  | Requested _ | Booked _ | StreamFallback _ => False
  end.

Inductive story : list Effect → Rung → Prop :=
| story_begins : story [] first_rung
| story_quiet log g e : story log g → quiet_effect e → story (log ++ [e]) g
| story_request log g : story log g → story (log ++ [Requested (rung_request g)]) g
| story_booked log g u : story log g → story (log ++ [Booked (rung_row g u)]) g
| story_fallback log g category :
    story log g → g_tried g = false → fallback_model settings ≠ ""%string →
    fallback_model settings ≠ g_model g →
    story (log ++ [StreamFallback (fallback_model settings)])
      (mkRung (fallback_model settings) fallback_messages true (Some category)).

Lemma story_consumed log g es r :
  story log g → rung_of r = g → Forall (consumed_effect r) es → story (log ++ es) g.
Proof.
  intros Hs Hg Hes. revert log Hs. induction Hes as [|e es He _ IH]; intros log Hs.
  { by rewrite app_nil_r. }
  change (e :: es) with ([e] ++ es). rewrite app_assoc. apply IH.
  destruct He as [[s ->]|[u ->]]; [by constructor|].
  assert (ledger_row r u = rung_row g u) as -> by (by rewrite <-Hg). by constructor.
Qed.

Lemma attempt_story r l r' :
  story (r_log r) (rung_of r) → attempt r = Some (l, r') →
  story (r_log r') (rung_of r') ∧ rung_of r' = rung_of r ∧ r_retries r' = r_retries r ∧
  r_blocks r' = r_blocks r ∧ r_attempt r' = S (r_attempt r) ∧
  (view (r_log r) = "" → view (r_log r') = l_content l).
Proof.
  intros Hs Ha. apply attempt_extends in Ha as (pre & es & u & Hpre & Hes & Hr' & Hl).
  assert (r_log r' = (r_log r ++ pre ++ [Requested (rung_request (rung_of r))]) ++ es) as Hlog.
  { rewrite Hr'. cbn. by rewrite <-!app_assoc. }
  assert (rung_of r' = rung_of r) as Hg by (by rewrite Hr').
  assert (story (r_log r ++ pre ++ [Requested (rung_request (rung_of r))]) (rung_of r)) as Hs1.
  { rewrite app_assoc. apply story_request. destruct pre as [|e pre]; [by rewrite app_nil_r|].
    assert (e :: pre = [WaitingLLM]) as -> by set_solver. by constructor. }
  split_and!; try (rewrite Hr'; done).
  - rewrite Hlog, Hg. by apply (story_consumed _ _ _ r).
  - intros Hv. rewrite Hlog, (view_consumed r) by done.
    assert (view (r_log r ++ pre ++ [Requested (rung_request (rung_of r))]) = "") as ->.
    { rewrite app_assoc, view_snoc. cbn. destruct pre as [|e pre]; [by rewrite app_nil_r|].
      assert (e :: pre = [WaitingLLM]) as -> by set_solver. by rewrite view_snoc. }
    by rewrite Hl.
Qed.

(** No rung is left: time is up, or neither a retry nor the fallback applies. *)
Definition no_rung_left (err : string) (r : Run) : Prop :=
  _is_budget_exhaustion err = true ∨
  ((is_stream_retryable err = false ∨ 3 ≤ r_retries r) ∧
   (fallback_model settings = ""%string ∨ r_tried_fallback r = true ∨
    fallback_model settings = r_model r ∨
    quota_blocked (fallback_model settings) r = true)).

(** Attempts still possible. *)
Definition rungs (r : Run) : nat := 4 - r_retries r + (if r_tried_fallback r then 0 else 4).

Lemma note_quota_block_frame err m r :
  let r1 := if _is_quota_error err then _note_quota_block m r else r in
  ∃ b, r1 = r <| r_blocks := b |>.
Proof.
  cbv zeta. unfold _note_quota_block. assert (∃ b, r = r <| r_blocks := b |>) as Hid.
  { exists (r_blocks r). by destruct r. }
  destruct (_is_quota_error err); [|done]. destruct (_ <? _)%Z; [|done]. by eexists.
Qed.

Lemma decide_next_spec err category r :
  r_retries r ≤ 3 → story (r_log r) (rung_of r) →
  match decide_next err category r with
  | Return r' => no_rung_left err r' ∧ story (r_log r') (rung_of r') ∧
      rung_of r' = rung_of r ∧ r_log r' = r_log r ∧ r_attempt r' = r_attempt r
  | Again r' => r_retries r' ≤ 3 ∧ story (r_log r') (rung_of r') ∧ view (r_log r') = "" ∧
      rungs r' < rungs r ∧ r_attempt r' = r_attempt r
  | CancelledAsleep => True
  end.
Proof.
  intros Hret Hs. unfold decide_next.
  destruct (note_quota_block_frame err (r_model r) r) as [b ->].
  set (r1 := r <| r_blocks := b |>).
  assert (story (r_log r1) (rung_of r1)) as Hs1 by done.
  destruct (_is_budget_exhaustion err) eqn:Hbudget.
  { split_and!; try done. by left. }
  destruct (if is_stream_retryable err then STREAM_BACKOFFS !! r_retries r1 else None) as [wait|] eqn:Hw.
  - destruct (is_stream_retryable err) eqn:Hretry; [|done].
    apply lookup_lt_Some in Hw as Hlt. cbn in Hlt.
    destruct (sleep_cancelled _ _); [done|]. unfold retry. cbv zeta. split_and!.
    + cbn. lia.
    + cbn. repeat (apply story_quiet; [|done]). exact Hs1.
    + cbn. by rewrite !view_snoc.
    + unfold rungs. cbn. lia.
    + done.
  - assert (is_stream_retryable err = false ∨ 3 ≤ r_retries r1) as Hexh.
    { destruct (is_stream_retryable err); [right|by left]. apply lookup_ge_None in Hw. cbn in Hw. cbn. lia. }
    cbv zeta. destruct (bool_decide _ && _ && _) eqn:Hfb.
    + breflect. destruct (quota_blocked _ r1) eqn:Hq.
      { split_and!; try done. right. tauto. }
      assert (drop_expired (fallback_model settings) r1 =
              r1 <| r_blocks ::= delete (fallback_model settings) |>) as ->.
      { unfold drop_expired. by rewrite Hq. }
      assert (r_tried_fallback r = false) as Htried by done.
      unfold fail_over. split_and!.
      * cbn. lia.
      * cbn. apply story_fallback with (g := rung_of r); [|done|done|done].
        by apply story_quiet.
      * cbn. by rewrite !view_snoc.
      * unfold rungs. cbn. rewrite Htried. lia.
      * done.
    + split_and!; try done. right. split; [done|].
      apply andb_false_iff in Hfb as [Hfb|Hfb%bool_decide_eq_false].
      * apply andb_false_iff in Hfb as [Hfb%bool_decide_eq_false|Hfb%negb_false_iff]; [|tauto].
        left. by apply dec_stable.
      * right; right; left. by apply dec_stable.
Qed.

Lemma ladder_runs fuel r :
  r_retries r ≤ 3 → story (r_log r) (rung_of r) → view (r_log r) = "" → rungs r ≤ fuel →
  match ladder fuel r with
  | None => False
  | Some (Raise _) => True
  | Some (Ret (o, r')) =>
      story (r_log r') (rung_of r') ∧ view (r_log r') = o_content o ∧
      o_model o = r_model r' ∧ o_tried_fallback o = r_tried_fallback r' ∧
      r_attempt r' ≤ r_attempt r + rungs r ∧
      ∀ err, o_error o = Some err → no_rung_left err r'
  end.
Proof.
  revert r. induction fuel as [|fuel IH]; intros r Hret Hs Hv Hf; cbn [ladder].
  { unfold rungs in Hf. destruct (r_tried_fallback r); lia. }
  destruct (attempt r) as [[l r1]|] eqn:Ha; [|done].
  apply attempt_story in Ha as (Hs1 & Hg & Hr1 & _ & Hn & Hv1); [|done].
  specialize (Hv1 Hv). assert (rungs r1 = rungs r) as Hrungs.
  { unfold rungs. rewrite Hr1. by injection Hg as _ _ -> _. }
  assert (1 ≤ rungs r) by (unfold rungs; lia).
  destruct (l_err l) as [err|] eqn:Herr.
  - pose proof (decide_next_spec err (l_category l) r1 ltac:(by rewrite Hr1) Hs1) as Hd.
    destruct (decide_next err (l_category l) r1) as [r2|r2|]; [| |done].
    + destruct Hd as (Hno & Hs2 & Hg2 & Hl2 & Hn2). injection Hg2 as Hm _ Ht _. cbn.
      rewrite Hl2, Hn2, Hn. split_and!; [by rewrite <-Hl2|done|done|done|lia|].
      intros e He. rewrite Herr in He. by injection He as <-.
    + destruct Hd as (Hret2 & Hs2 & Hv2 & Hlt & Hn2).
      specialize (IH r2 Hret2 Hs2 Hv2 ltac:(lia)).
      destruct (ladder fuel r2) as [[[o r3]|]|]; [|done|done].
      destruct IH as (? & ? & ? & ? & ? & ?). split_and!; [done..|lia|done].
  - cbn. split_and!; [done..|lia|]. intros err. by rewrite Herr.
Qed.

Lemma start_runs now blocks :
  match stream_with_failover now blocks with
  | None => False
  | Some (Raise _) => True
  | Some (Ret (o, r')) =>
      story (r_log r') (rung_of r') ∧ view (r_log r') = o_content o ∧
      o_model o = r_model r' ∧ o_tried_fallback o = r_tried_fallback r' ∧
      r_attempt r' ≤ 4 + (if tried_fallback_before call then 0 else 4) ∧
      ∀ err, o_error o = Some err → no_rung_left err r'
  end.
Proof.
  assert (rungs (start now blocks) = 4 + (if tried_fallback_before call then 0 else 4)) as Hr by done.
  rewrite <-Hr. change (rungs (start now blocks)) with (r_attempt (start now blocks) + rungs (start now blocks)).
  apply ladder_runs; [cbn; lia|apply story_begins|done|].
  rewrite Hr. unfold FUEL. destruct (tried_fallback_before call); lia.
Qed.

Definition is_failover (e : Effect) : bool := match e with StreamFallback _ => true | _ => false end.
Definition is_request (e : Effect) : bool := match e with Requested _ => true | _ => false end.

Lemma story_failovers log g :
  story log g →
  cnt is_failover log = (if g_tried g && negb (tried_fallback_before call) then 1 else 0)%Z ∧
  (tried_fallback_before call = true → g_tried g = true).
Proof.
  induction 1 as [|log g e _ [IH ?] He|log g _ [IH ?]|log g u _ [IH ?]|log g c _ [IH Hb] Ht ? ?].
  - split; [|done]. cbn. by destruct (tried_fallback_before call).
  - split; [|done]. rewrite cnt_snoc, IH. destruct e; try done; cbn; lia.
  - split; [|done]. rewrite cnt_snoc, IH. cbn. lia.
  - split; [|done]. rewrite cnt_snoc, IH. cbn. lia.
  - split; [|done]. rewrite cnt_snoc, IH, Ht. cbn.
    destruct (tried_fallback_before call); [|done]. by rewrite Hb in Ht.
Qed.

(** An overflow is only handed back to a caller that asked for it, and a turn
    that had failed over stays failed over. *)
Lemma consume_overflow events l r l' r' b :
  consume events l r = (l', r', b) → l_overflow l' = l_overflow l.
Proof.
  revert l r. induction events as [|e events IH]; intros l r; cbn; [by intros [= <- <- <-]|].
  destruct e as [s|tcs|[u|] [[cls msg]|]|s|fr]; try (by intros [= <- <- <-]); try (by intros ->%IH).
  case_decide; by intros ->%IH.
Qed.
Lemma attempt_overflow r l r' :
  attempt r = Some (l, r') → l_overflow l ≠ None → surface_context_overflow call = true.
Proof.
  unfold attempt. cbv zeta.
  destruct (consume _ fresh_local _) as [[l0 r0] b] eqn:Hc. apply consume_overflow in Hc. cbn in Hc.
  destruct b; [|intros [= <- <-]; by rewrite Hc].
  intros (l1 & He & [= -> ->])%fmap_Some. revert He. unfold end_attempt.
  destruct (at_ending _) as [|reason msg|cls msg|]; [intros [= <-]; by rewrite Hc| |intros [= <-]; cbn; by rewrite Hc|done].
  destruct (surface_context_overflow call); [done|]. cbn. intros [= <-]. cbn. by rewrite Hc.
Qed.
Lemma ladder_overflow fuel r o r' :
  ladder fuel r = Some (Ret (o, r')) → o_context_overflow o ≠ None → surface_context_overflow call = true.
Proof.
  revert r. induction fuel as [|fuel IH]; intros r; cbn; [done|].
  destruct (attempt r) as [[l r1]|] eqn:Ha; [|done].
  destruct (l_err l); [destruct (decide_next _ _ r1) as [r2|r2|]; [|apply IH|done]|];
    intros [= <- <-]; by eapply attempt_overflow.
Qed.
Lemma start_outcome now blocks o r :
  stream_with_failover now blocks = Some (Ret (o, r)) →
  (o_context_overflow o ≠ None → surface_context_overflow call = true) ∧
  (tried_fallback_before call = true → o_tried_fallback o = true).
Proof.
  intros H. split; [by eapply ladder_overflow|]. pose proof (start_runs now blocks) as Hr. rewrite H in Hr.
  destruct Hr as (Hs & _ & _ & -> & _). apply story_failovers in Hs as [_ Hs]. exact Hs.
Qed.
End ladder.

(** A ladder ends.  Whatever the provider does, [stream_with_failover]
    returns (or is cancelled) after at most four requests to the model it was
    asked for and four to the fallback, four in all when the turn had failed
    over before; and an error is only returned when no rung was left: the
    session's time is up, or the error is not retryable or has been retried
    three times while the fallback is missing, spent, already serving, or
    blocked by its quota. *)
Theorem ladder_terminates (settings : Settings) (client : Client) (call : Call) (now : Z)
    (blocks : gmap string Z) :
  ∃ res, stream_with_failover settings client call now blocks = Some res ∧
    match res with
    | Ret (o, r) =>
        r_attempt r ≤ 4 + (if tried_fallback_before call then 0 else 4) ∧
        ∀ err, o_error o = Some err → no_rung_left settings err r
    | Raise _ => True
    end.
Proof.
  pose proof (start_runs settings client call now blocks) as H.
  destruct (stream_with_failover settings client call now blocks) as [res|]; [|done].
  exists res. split; [done|]. destruct res as [[o r]|]; [|done]. tauto.
Qed.


(** The viewer sees what is stored.  However many attempts streamed part
    of an answer, the text on screen when the ladder returns (every
    [stream.reset] clears it) is the content of the outcome. *)
Theorem viewer_sees_the_outcome (settings : Settings) (client : Client) (call : Call) (now : Z)
    (blocks : gmap string Z) :
  match stream_with_failover settings client call now blocks with
  | Some (Ret (o, r)) => view (r_log r) = o_content o
  | _ => True
  end.
Proof.
  pose proof (start_runs settings client call now blocks) as H.
  destruct (stream_with_failover settings client call now blocks) as [[[o r]|]|]; try done. tauto.
Qed.

(** ** Concrete runs *)
Definition config (fallback : string) : Settings := mkSettings fallback 600 ∅ false 4096 true.
(** A provider that answers each model in its own way, every time. *)
Definition client_of (answers : string → Attempt) : Client :=
  mkClient (λ _ rq, answers (rq_model rq)) (λ _ _, true) (λ _, "openrouter") (λ _, None)
    (λ _, None) (λ _, false).
Definition call_of (m : string) : Call := mkLadderCall [] [] 0 m 0 false "" None false.
Definition run_with (fallback : string) (answers : string → Attempt) : option (StreamOutcome * nat) :=
  match stream_with_failover (config fallback) (client_of answers) (call_of "primary") 0 ∅ with
  | Some (Ret (o, r)) => Some (o, r_attempt r)
  | _ => None
  end.

(** Errors are not treated by their class.  A rejected key or an unknown
    model, which [FALLBACK_REASONS] excludes so that they "surface loudly
    rather than be masked by a silent fallback", fail over like any other
    error; and a malformed request is sent four times over when the number
    500 occurs anywhere in its text. *)
Theorem errors_not_treated_by_class :
  (∀ reason, reason ∈ [AUTH; MODEL_NOT_FOUND; FORMAT_ERROR] →
     reason ∉ FALLBACK_REASONS ∧
     ∃ o, run_with "backup" (λ m, if String.eqb m "primary"
                                  then mkAttempt [] (RaisedFailover reason "refused") 1
                                  else mkAttempt [TOKEN "ok"] Finished 1) = Some (o, 2) ∧
          o_error o = None ∧ o_model o = "backup"%string) ∧
  let too_large := "openai 400: max_tokens 15000 is too large"%string in
  stream_failure_category too_large = "format_error"%string ∧
  ∃ o, run_with "" (λ _, mkAttempt [] (RaisedFailover FORMAT_ERROR too_large) 1) = Some (o, 4) ∧
       o_error o = Some too_large.
Proof.
  split.
  - intros reason. rewrite !elem_of_cons.
    intros [->|[->|[->|[]%not_elem_of_nil]]];
      (split; [by apply (bool_decide_unpack _)|]; eexists; split; [vm_compute; reflexivity|done]).
  - split; [vm_compute; reflexivity|]. eexists. split; [vm_compute; reflexivity|reflexivity].
Qed.

(** A late fragment goes to the first call with its id, so when two calls share
    an id (the collision the code means to survive) the second call's
    arguments are glued to the first. *)
Lemma fragment_goes_to_the_first_call :
  _merge_tool_call_deltas []
    [mkFragment "0" "read" "{}"; mkFragment "0" "grep" ""; mkFragment "0" "" "{1}"] =
    [mkFragment "0" "read" "{}{1}"; mkFragment "0" "grep" ""].
Proof. reflexivity. Qed.
