(* ===== verification/Executor.v ===== *)
(** * Tool admission and execution (core/tools/executor.py,
    core/tools/builtin/dialog_tools.py)

    Whether a call may run ([_execute_single] up to the dispatch, with the
    approvals [approve_dangerous_tool] records), how long it may take, how its
    outcome is classified, and how a round of calls is put together.  What
    happens between the dispatcher and the pool thread is in [Dispatch]. *)
From stdpp Require Import gmap sets strings.
From S2P Require Import Prelude PyStr.

(** ** Data *)

(** An argument as [json.loads] gives it: a string, a number (by its integer
    part), an infinite float, or anything else. *)
Inductive Arg := AStr (s : string) | ANum (n : Z) | AInf | AOther.
Abbreviation Arguments_ := (list (string * Arg)).

Record ToolDef := mkTool {
  timeout : Z;
  max_timeout : Z;
  parallel_safe : bool;
  denied_session_types : gset string;
  safety_level : string
}.
Record Registry := mkRegistry { tools : gmap string ToolDef; disabled : gset string }.

Record Approval := mkApproval { scope : string; persistent : bool }.
Record Session := mkSession {
  session_type : string;
  parent_session_id : string;
  tool_allowlist : list string;          (** absent and empty are both falsy *)
  retry_excluded_tools : list string;
  approvals : gmap string Approval       (** [_approved_dangerous_tools] *)
}.
#[export] Instance Session_settable : Settable Session := λ s,
  mkSession (session_type s) (parent_session_id s) (tool_allowlist s) (retry_excluded_tools s)
    (approvals s).
Abbreviation Manager := (gmap string Session).

(** ** Admission *)
Inductive Verdict :=
| UnknownTool
| Disabled
| RetryExcluded
| NotPermitted (allowed : list string)
| DeniedSessionType (session_type : string)
| ScopeUncovered (args : list string)
| NeedsApproval
| Allowed.
#[export] Instance Verdict_eq_dec : EqDecision Verdict.
Proof. solve_decision. Defined.

(** [manager.get(sid)], not asked for an empty id. *)
Definition session_of (mgr : Manager) (sid : string) : option Session :=
  if decide (sid = "")%string then None else mgr !! sid.

Definition _is_unattended_session (mgr : Manager) (sid : string) : bool :=
  match session_of mgr sid with
  | None => false
  | Some s =>
      let unwatched ty := bool_decide (ty ∈ ["cron"; "canary"]%string) in
      unwatched (session_type s) ||
      (bool_decide (session_type s = "worker"%string) && bool_decide (parent_session_id s ≠ ""%string) &&
       match mgr !! parent_session_id s with
       | Some parent => unwatched (session_type parent)
       | None => false
       end) ||
      (bool_decide (tool_allowlist s ≠ []) && bool_decide ("ask_user"%string ∉ tool_allowlist s))
  end.

(** [" ".join(v.lower().split())] *)
Definition squeeze (s : string) : text := join_with (t " ") (split_words (lower_text (t s))).
Definition uncovered (scope : string) (arguments : Arguments_) : list string :=
  omap (λ e, match e.2 with
             | AStr v => if (4 <=? length (strip (t v))) && negb (contains (squeeze v) (squeeze scope))
                         then Some e.1 else None
             | _ => None
             end) arguments.

(** The dangerous gate: the verdict, and whether the approval is used up. *)
Definition gate (s : option Session) (name : string) (arguments : Arguments_) : Verdict * bool :=
  match s ≫= λ s, approvals s !! name with
  | None => (NeedsApproval, false)
  | Some entry =>
      if persistent entry then (Allowed, false)
      else match uncovered (scope entry) arguments with
           | [] => (Allowed, true)
           | args => (ScopeUncovered args, false)
           end
  end.

Definition consume_approval (name sid : string) (mgr : Manager) : Manager :=
  alter (λ s, s <| approvals ::= delete name |>) sid mgr.

Section admission.
Context (registry : Registry) (auto_approve_dangerous : bool).

(** [_execute_single] up to the dispatch. *)
Definition admit_call (mgr : Manager) (sid name : string) (arguments : Arguments_) : Verdict * Manager :=
  match tools registry !! name with
  | None => (UnknownTool, mgr)
  | Some tool =>
      if decide (name ∈ disabled registry) then (Disabled, mgr) else
      let s := session_of mgr sid in
      let ty := match s with Some s => session_type s | None => ""%string end in
      let excluded := match s with Some s => retry_excluded_tools s | None => [] end in
      let allowlist := match s with Some s => tool_allowlist s | None => [] end in
      if decide (name ∈ excluded) then (RetryExcluded, mgr) else
      if decide (allowlist ≠ [] ∧ name ∉ allowlist) then (NotPermitted allowlist, mgr) else
      if decide (ty ≠ ""%string ∧ ty ∈ denied_session_types tool) then (DeniedSessionType ty, mgr) else
      if decide (safety_level tool = "dangerous"%string) then
        if auto_approve_dangerous || _is_unattended_session mgr sid then (Allowed, mgr)
        else match gate s name arguments with
             | (v, true) => (v, consume_approval name sid mgr)
             | (v, false) => (v, mgr)
             end
      else (Allowed, mgr)
  end.
End admission.

(** [REFUSAL_MARKER] in the result's metadata: refusals by policy. *)
Definition marked_refused (v : Verdict) : bool :=
  match v with
  | Disabled | RetryExcluded | NotPermitted _ | DeniedSessionType _ => true
  | UnknownTool | ScopeUncovered _ | NeedsApproval | Allowed => false
  end.

(** ** Approvals *)

(** A row of the transcript: the calls of an assistant row ([None] when the
    column is empty or no list; the flag says the admission gate refused the
    call), and the names of dict parts when the content is a JSON list. *)
Record Row := mkRow {
  row_role : string;
  row_calls : option (list (string * bool));
  row_part_names : list string;
  row_content : string
}.
Definition asks_user (m : Row) : bool :=
  existsb (λ c, bool_decide (c.1 = "ask_user"%string) && negb c.2) (default [] (row_calls m)) ||
  bool_decide ("ask_user"%string ∈ row_part_names m).
Definition is_answer (m : Row) : bool :=
  starts_with (t "[User answered your question]") (t (row_content m)).

(** [ask_user_idx] and [answer_idx] after the loop; -1 is [None]. *)
Definition last_index (test : Row → bool) (rows : list Row) : option nat :=
  foldl (λ acc e, if test e.2 then Some e.1 else acc) None (imap pair rows).
Definition ask_user_idx (rows : list Row) : option nat :=
  last_index (λ m, bool_decide (row_role m = "assistant"%string) && asks_user m) rows.
Definition answer_idx (rows : list Row) : option nat :=
  last_index (λ m, bool_decide (row_role m = "user"%string) && is_answer m) rows.

Abbreviation Store := (gmap string (list string)).
Definition _scope_key (scope : string) : text := lower_text (strip (t scope)).
Definition previously_approved (stored : Store) (tool_name scope : string) : bool :=
  existsb (λ s, bool_decide (_scope_key s = _scope_key scope)) (default [] (stored !! tool_name)).
Definition remember (stored : Store) (tool_name scope : string) : Store :=
  let scopes := default [] (stored !! tool_name) in
  <[tool_name := if decide (scope ∈ scopes) then scopes else scopes ++ [scope]]> stored.

Inductive ApproveReply :=
| ToolNameRequired | ScopeRequired | NoSessionContext | NotAsked | NotAnswered | SessionNotFound
| Approved (recalled : bool).

(** [messages] is what [get_messages(session_id, last=40)] returned. *)
Definition approve_dangerous_tool (messages : list Row) (sid tool_name scope : string)
    (persistent : bool) (stored : Store) (mgr : Manager) : ApproveReply * Store * Manager :=
  if decide (tool_name = "")%string then (ToolNameRequired, stored, mgr) else
  if decide (scope = "")%string then (ScopeRequired, stored, mgr) else
  if decide (sid = "")%string then (NoSessionContext, stored, mgr) else
  let recalled := previously_approved stored tool_name scope in
  let recent := drop (length messages - 40) messages in
  match (if recalled then Ret stored
         else match ask_user_idx recent with
              | None => Raise NotAsked
              | Some q =>
                  match answer_idx recent with
                  | Some a => if a <? q then Raise NotAnswered else Ret (remember stored tool_name scope)
                  | None => Raise NotAnswered
                  end
              end) with
  | Raise e => (e, stored, mgr)
  | Ret stored =>
      match mgr !! sid with
      | None => (SessionNotFound, stored, mgr)
      | Some s =>
          (Approved recalled, stored,
           <[sid := s <| approvals ::= insert tool_name (mkApproval scope persistent) |>]> mgr)
      end
  end.

(** ** Timeouts *)
Definition _DISPATCH_TIMEOUT_GRACE_S : Z := 5.
Definition _QUEUE_WAIT_CEILING_S : Z := 300.

(** [int(arguments.get("timeout") or 0)]: ValueError and TypeError count as 0,
    OverflowError ([None]) is not caught. *)
Definition requested_timeout (arguments : Arguments_) : option Z :=
  match list_find (λ e, e.1 = "timeout"%string) arguments with
  | None => Some 0%Z
  | Some (_, (_, a)) =>
      match a with
      | AStr s => Some (if decide (s = "")%string then 0%Z else default 0%Z (py_int (t s)))
      | ANum n => Some n
      | AInf => None
      | AOther => Some 0%Z
      end
  end.
Definition _resolve_timeout (tool : ToolDef) (arguments : Arguments_) : option Z :=
  let base := timeout tool in
  let ceiling := max_timeout tool in
  if (ceiling <=? 0)%Z then Some (base + _DISPATCH_TIMEOUT_GRACE_S)%Z else
  match requested_timeout arguments with
  | None => None
  | Some requested =>
      if (requested <=? 0)%Z then Some (base + _DISPATCH_TIMEOUT_GRACE_S)%Z
      else Some (Z.min (Z.max requested base) ceiling + _DISPATCH_TIMEOUT_GRACE_S)%Z
  end.

Record ToolCall := mkToolCall { call_name : string; call_arguments : Arguments_ }.

(** The [max] over the batch; calls of unknown tools are skipped. *)
Fixpoint slowest_timeout (registry : Registry) (calls : list ToolCall) : option Z :=
  match calls with
  | [] => Some 0%Z
  | tc :: calls =>
      match tools registry !! call_name tc with
      | None => slowest_timeout registry calls
      | Some tool =>
          match _resolve_timeout tool (call_arguments tc), slowest_timeout registry calls with
          | Some n, Some m => Some (Z.max n m)
          | _, _ => None
          end
      end
  end.
Definition _batch_timeout (registry : Registry) (tool_timeout : Z) (calls : list ToolCall) : option Z :=
  (λ slowest, (_QUEUE_WAIT_CEILING_S + Z.max tool_timeout slowest + _DISPATCH_TIMEOUT_GRACE_S)%Z)
    <$> slowest_timeout registry calls.

(** ** Outcomes *)

(** What [execute_sync] returned: a string, or one with metadata, of which
    the declared verdict and the [command_failed] mark matter here. *)
Record Raw := mkRaw {
  raw_result : string;
  raw_declared : option bool;
  raw_command_failed : bool
}.
Inductive Health := RecordSuccess | RecordFailure | RecordTimeout | RecordNothing.
Record Outcome := mkOutcome {
  was_error : bool;
  unavailable : bool;
  miss : bool;
  command_failed : bool;
  health : Health
}.
Definition begins (p : string) (s : string) : bool := starts_with (t p) (t s).
Definition _is_failure_verdict (result : string) : bool :=
  (begins "NOT SAVED" result || begins "NOT UPDATED" result || begins "NOT DELETED" result) &&
  negb (contains (t "duplicate of") (take 200 (t result))).
Definition classify (raw : Raw) : Outcome :=
  let result := raw_result raw in
  let unavailable := begins "[unavailable]" result in
  let miss := begins "[miss]" result in
  let was_error := miss ||
    match raw_declared raw with
    | Some declared => declared
    | None => negb unavailable &&
        (bool_decide (result = ""%string) || begins "Error:" result || _is_failure_verdict result)
    end in
  mkOutcome was_error unavailable (negb unavailable && miss) (raw_command_failed raw)
    (if unavailable then RecordNothing
     else if miss then RecordNothing
     else if was_error && negb (raw_command_failed raw) then RecordFailure
     else RecordSuccess).

(** *** [ToolRegistry.execute_sync] *)

(** How the tool's function ended: a string or nothing, the same with
    metadata, a TypeError, or another exception. *)
Inductive FunctionEnd :=
| Plain (content : option string)
| Structured (content : option string) (declared : option bool) (command_failed : bool)
| TypeError (e : string)
| OtherError (e : string).
(** [expected] renders the parameters without a default. *)
Definition execute_sync (registry : Registry) (name expected : string) (ended : FunctionEnd) : Raw :=
  match tools registry !! name with
  | None => mkRaw ("Error: Unknown tool '" ++ name ++ "'. Use lookup to find available tools.") None false
  | Some _ =>
      if decide (name ∈ disabled registry) then
        mkRaw ("Error: Tool '" ++ name ++ "' is currently disabled.") None false
      else
        let no_output := ("Error: Tool '" ++ name ++ "' returned no output")%string in
        match ended with
        | Plain content => mkRaw (default no_output content) None false
        | Structured content declared failed => mkRaw (default no_output content) declared failed
        | TypeError e => mkRaw ("Error calling '" ++ name ++ "': " ++ e ++ ". Required parameters: "
                                ++ expected ++ ".") None false
        | OtherError e => mkRaw ("Error: " ++ e) None false
        end
  end.

(** ** A round *)

(** How one dispatched call ends for the round. *)
Inductive Ended (R : Type) := Result (r : R) | Exception (message : string) | WasCancelled.
Arguments Result {R} r.
Arguments Exception {R} message.
Arguments WasCancelled {R}.
Inductive RoundError := RoundCancelled | RoundTimeout | RoundException (message : string).

Section round.
Context {R : Type} (registry : Registry) (tool_timeout : Z).
(** The error result the round makes of an exception of a gathered call. *)
Variable error_result : ToolCall → string → R.
(** How call [i] ends when it is dispatched, whether a stop has been requested
    by the time call [i] would start, and whether the gather outlives its
    backstop. *)
Variable dispatch : nat → ToolCall → Ended R.
Variable stop_requested : nat → bool.
Variable gather_timed_out : bool.

Definition is_parallel (tc : ToolCall) : bool :=
  match tools registry !! call_name tc with Some tool => parallel_safe tool | None => false end.
Definition indices (want : bool) (calls : list ToolCall) : list (nat * ToolCall) :=
  filter (λ e, is_parallel e.2 = want) (imap pair calls).

(** [zip(parallel_idx, parallel_results)], written into the slots. *)
Fixpoint collect_parallel (idx : list (nat * ToolCall)) (results : list (option R))
    : result RoundError (list (option R)) :=
  match idx with
  | [] => Ret results
  | (i, tc) :: idx =>
      match dispatch i tc with
      | WasCancelled => Raise RoundCancelled
      | Exception m => collect_parallel idx (<[i := Some (error_result tc m)]> results)
      | Result r => collect_parallel idx (<[i := Some r]> results)
      end
  end.
(** The sequential loop; [ran] collects the calls that were dispatched. *)
Fixpoint run_sequential (idx : list (nat * ToolCall)) (results : list (option R)) (ran : list nat)
    : result RoundError (list (option R)) * list nat :=
  match idx with
  | [] => (Ret results, ran)
  | (i, tc) :: idx =>
      if stop_requested i then (Raise RoundCancelled, ran) else
      match dispatch i tc with
      | WasCancelled => (Raise RoundCancelled, ran ++ [i])
      | Exception m => (Raise (RoundException m), ran ++ [i])
      | Result r => run_sequential idx (<[i := Some r]> results) (ran ++ [i])
      end
  end.

(** The gather under its backstop; [OverflowError] while sizing it escapes. *)
Definition gather (parallel : list (nat * ToolCall)) (slots : list (option R))
    : result RoundError (list (option R)) :=
  match parallel with
  | [] => Ret slots
  | _ => match _batch_timeout registry tool_timeout (parallel.*2) with
         | None => Raise (RoundException "cannot convert float infinity to integer")
         | Some _ => if gather_timed_out then Raise RoundTimeout else collect_parallel parallel slots
         end
  end.
Definition execute_tool_round (calls : list ToolCall) : result RoundError (list R) * list nat :=
  let parallel := indices true calls in
  match gather parallel (replicate (length calls) None) with
  | Raise (RoundException m) => (Raise (RoundException m), [])
  | Raise e => (Raise e, parallel.*1)
  | Ret slots =>
      match run_sequential (indices false calls) slots [] with
      | (Raise e, ran) => (Raise e, parallel.*1 ++ ran)
      | (Ret slots, ran) => (Ret (omap id slots), parallel.*1 ++ ran)
      end
  end.
End round.

(** ** What admission guarantees *)

(** Each string argument of four characters or more occurs in the scope the
    user was shown, up to case and white space. *)
Definition covers (scope : string) (arguments : Arguments_) : Prop :=
  ∀ k v, (k, AStr v) ∈ arguments → 4 ≤ length (strip (t v)) →
    contains (squeeze v) (squeeze scope) = true.

Lemma uncovered_nil scope arguments : uncovered scope arguments = [] → covers scope arguments.
Proof.
  intros Hu k v Hin Hlen. apply not_false_is_true. intros Hc.
  assert (k ∈ uncovered scope arguments) as Hk; [|by rewrite Hu in Hk; apply not_elem_of_nil in Hk].
  unfold uncovered. apply list_elem_of_omap. exists (k, AStr v). split; [done|]. cbn -[strip squeeze Nat.leb contains].
  by rewrite (proj2 (Nat.leb_le _ _) Hlen), Hc.
Qed.

Lemma gate_admits s name arguments used :
  gate s name arguments = (Allowed, used) →
  ∃ s' entry, s = Some s' ∧ approvals s' !! name = Some entry ∧
    (persistent entry = true ∨ covers (scope entry) arguments ∧ used = true).
Proof.
  unfold gate. destruct s as [s|]; cbn; [|done].
  destruct (approvals s !! name) as [entry|] eqn:He; [|done].
  destruct (persistent entry) eqn:Hp; [intros [= <-]; eauto 6|].
  destruct (uncovered _ _) eqn:Hu; [|done]. intros [= <-].
  exists s, entry. split_and!; [done..|]. right. split; [by apply uncovered_nil|done].
Qed.

(** C2: A call is only dispatched when every rule allows it: the tool is
    registered and enabled, not excluded from this retry, on the session's
    allow-list if it has one, not denied to the session's type; and a
    dangerous tool only under the global switch, in a session without a user,
    or on an approval that is persistent or covers the call's arguments.  The
    latter is gone afterwards; nothing else is ever changed. *)
Theorem admitted_calls_are_allowed (registry : Registry) (auto : bool) (mgr : Manager)
    (sid name : string) (arguments : Arguments_) :
  let '(v, mgr') := admit_call registry auto mgr sid name arguments in
  match v with
  | Allowed =>
      ∃ tool, tools registry !! name = Some tool ∧ name ∉ disabled registry ∧
        (∀ s, session_of mgr sid = Some s →
           name ∉ retry_excluded_tools s ∧ (tool_allowlist s = [] ∨ name ∈ tool_allowlist s) ∧
           (session_type s = ""%string ∨ session_type s ∉ denied_session_types tool)) ∧
        ((safety_level tool ≠ "dangerous"%string ∨ auto = true ∨
          _is_unattended_session mgr sid = true) ∧ mgr' = mgr ∨
         ∃ s entry, session_of mgr sid = Some s ∧ approvals s !! name = Some entry ∧
           (persistent entry = true ∧ mgr' = mgr ∨
            covers (scope entry) arguments ∧ mgr' = consume_approval name sid mgr))
  | _ => mgr' = mgr
  end.
Proof.
  unfold admit_call. destruct (tools registry !! name) as [tool|] eqn:Htool; [|done].
  case_decide as Hdis; [done|]. cbv zeta. case_decide as Hex; [done|].
  case_decide as Hallow; [done|]. case_decide as Hden; [done|].
  assert (∀ s, session_of mgr sid = Some s →
    name ∉ retry_excluded_tools s ∧ (tool_allowlist s = [] ∨ name ∈ tool_allowlist s) ∧
    (session_type s = ""%string ∨ session_type s ∉ denied_session_types tool)) as Hs.
  { intros s Hsess. rewrite Hsess in *. split_and!; [done| |].
    - destruct (decide (tool_allowlist s = [])); [by left|right]. apply dec_stable. naive_solver.
    - destruct (decide (session_type s = ""%string)); [by left|right]. naive_solver. }
  case_decide as Hdang.
  - destruct (auto || _) eqn:Hopen.
    { exists tool. split_and!; try done. left. apply orb_true_iff in Hopen. tauto. }
    destruct (gate _ name arguments) as [v used] eqn:Hg.
    assert (v = Allowed ∨ v ≠ Allowed ∧ used = false) as [->|[Hv ->]].
    { unfold gate in Hg. destruct (_ ≫= _) as [entry|]; [|naive_solver].
      destruct (persistent entry); [naive_solver|]. destruct (uncovered _ _); naive_solver. }
    + pose proof (gate_admits _ _ _ _ Hg) as (s & entry & Hsess & He & Hcov).
      destruct used; exists tool; split_and!; try done; right; exists s, entry; split_and!; try done.
      * destruct Hcov as [Hp|[? _]]; [|by right]. unfold gate in Hg. rewrite Hsess in Hg. cbn in Hg.
        rewrite He, Hp in Hg. done.
      * destruct Hcov as [Hp|[_ ?]]; [by left|done].
    + by destruct v.
  - exists tool. split_and!; try done. left. auto.
Qed.

(** ** The backstop *)
Lemma slowest_bounds registry calls m tc tool n :
  slowest_timeout registry calls = Some m → tc ∈ calls →
  tools registry !! call_name tc = Some tool → _resolve_timeout tool (call_arguments tc) = Some n →
  (n ≤ m)%Z.
Proof.
  revert m. induction calls as [|x calls IH]; intros m; cbn; [set_solver|].
  intros Hm [<-|Hin]%elem_of_cons Htool Hn.
  - rewrite Htool, Hn in Hm. destruct (slowest_timeout registry calls); [|done].
    injection Hm as <-. lia.
  - destruct (tools registry !! call_name x) as [tool'|]; [|by eapply IH].
    destruct (_resolve_timeout tool' _) as [k|]; [|done].
    destruct (slowest_timeout registry calls) as [m'|]; [|done]. injection Hm as <-.
    specialize (IH m' eq_refl Hin Htool Hn). lia.
Qed.

(** The batch backstop never fires first.  Every gathered call of a known
    tool, even after the longest wait in the queue and its longest allowed
    run, ends five seconds before the gather is given up; and an allowed run
    is the tool's own timeout plus the grace, or what the caller asked for
    between that and the tool's ceiling. *)
Theorem backstop_outlasts_every_call (registry : Registry) (tool_timeout backstop n : Z)
    (calls : list ToolCall) (tc : ToolCall) (tool : ToolDef)
    (Hbackstop : _batch_timeout registry tool_timeout calls = Some backstop)
    (Hcall : tc ∈ calls) (Htool : tools registry !! call_name tc = Some tool)
    (Hn : _resolve_timeout tool (call_arguments tc) = Some n) :
  (_QUEUE_WAIT_CEILING_S + n + _DISPATCH_TIMEOUT_GRACE_S ≤ backstop)%Z ∧
  ((max_timeout tool ≤ 0 ∨ timeout tool ≤ max_timeout tool)%Z →
   (timeout tool + _DISPATCH_TIMEOUT_GRACE_S ≤ n ≤
    Z.max (timeout tool) (max_timeout tool) + _DISPATCH_TIMEOUT_GRACE_S)%Z).
Proof.
  split.
  - unfold _batch_timeout in Hbackstop.
    destruct (slowest_timeout registry calls) as [m|] eqn:Hm; cbn in Hbackstop; [|done].
    injection Hbackstop as <-. pose proof (slowest_bounds registry calls m tc tool n Hm Hcall Htool Hn).
    unfold _DISPATCH_TIMEOUT_GRACE_S. lia.
  - intros Hceil. unfold _resolve_timeout in Hn.
    destruct (Z.leb_spec (max_timeout tool) 0); [injection Hn as <-; lia|].
    destruct (requested_timeout _) as [requested|]; [|done].
    destruct (Z.leb_spec requested 0); injection Hn as <-; lia.
Qed.

Definition bash_tool : ToolDef := mkTool 30 1800 false ∅ "caution".
Definition two_tools : Registry :=
  mkRegistry {[ "bash"%string := bash_tool; "grep"%string := mkTool 60 0 true ∅ "safe" ]} ∅.
Lemma backstop_outlasts_every_call_witness :
  (300 + 605 + 5 ≤ 910)%Z.
Proof.
  refine (proj1 (backstop_outlasts_every_call two_tools 300 910 605
    [mkToolCall "bash" [("timeout"%string, AStr "600")]; mkToolCall "grep" []]
    (mkToolCall "bash" [("timeout"%string, AStr "600")]) bash_tool _ _ _ _)); try (vm_compute; reflexivity).
  left.
Defined.

(** ** Outcomes of calls *)

(** How a call's outcome is booked.  A tool that raises, or returns
    nothing, is an error and counts against the tool; a returned string is an
    error when it says so, and is its tool's failure unless it is a miss, an
    unavailability or a command that failed; a declared verdict overrides what
    the text looks like, except that a miss is always an error. *)
Theorem outcome_follows_the_function (registry : Registry) (name expected : string) (ended : FunctionEnd) :
  let out := classify (execute_sync registry name expected ended) in
  (health out = RecordFailure ↔ was_error out = true ∧ miss out = false ∧ unavailable out = false ∧
     command_failed out = false) ∧
  (name ∈ dom (tools registry) → name ∉ disabled registry →
   match ended with
   | OtherError _ | Plain None => was_error out = true ∧ health out = RecordFailure
   | Plain (Some r) =>
       (was_error out = true ↔ begins "[miss]" r = true ∨ begins "[unavailable]" r = false ∧
          (r = ""%string ∨ begins "Error:" r = true ∨ _is_failure_verdict r = true))
   | Structured (Some r) (Some declared) failed =>
       was_error out = declared || begins "[miss]" r ∧ command_failed out = failed
   | _ => True
   end).
Proof.
  cbv zeta. split.
  - unfold classify. cbn [health was_error miss unavailable command_failed].
    set (r := raw_result _). destruct (begins "[unavailable]" r) eqn:Hu.
    { split; [done|naive_solver]. }
    destruct (begins "[miss]" r); [split; [done|naive_solver]|]. cbn [orb andb negb].
    destruct (match raw_declared _ with Some _ => _ | None => _ end), (raw_command_failed _); naive_solver.
  - intros [tool Htool]%elem_of_dom Hen. unfold execute_sync. rewrite Htool, decide_False by done.
    destruct ended as [[r|]|[r|] [d|] f|e|e]; try done.
    + unfold classify. cbn [was_error raw_result raw_declared default].
      rewrite orb_true_iff, andb_true_iff, negb_true_iff, !orb_true_iff, bool_decide_eq_true. tauto.
    + unfold classify. cbn. split; [by rewrite orb_comm|done].
Qed.

(** An argument mismatch is booked as a success.  When a tool's function
    raises TypeError, the message it is turned into opens "Error calling",
    which the test for "Error:" does not match: the call is no error to the
    round, and a success in the tool's health. *)
Theorem type_errors_count_as_success (registry : Registry) (name expected e : string) (tool : ToolDef)
    (Htool : tools registry !! name = Some tool) (Henabled : name ∉ disabled registry) :
  let out := classify (execute_sync registry name expected (TypeError e)) in
  was_error out = false ∧ health out = RecordSuccess.
Proof.
  cbv zeta. unfold execute_sync. rewrite Htool, decide_False by done.
  split; reflexivity.
Qed.
Lemma type_errors_count_as_success_witness :
  was_error (classify (execute_sync two_tools "bash" "['command']" (TypeError "bad operand"))) = false.
Proof.
  apply (type_errors_count_as_success two_tools "bash" "['command']" "bad operand" bash_tool); [reflexivity|set_solver].
Defined.

(** ** Order of results *)
Definition filled {R : Type} (slots : list (option R)) (i : nat) : Prop := ∃ r, slots !! i = Some (Some r).

Lemma omap_filled {R : Type} (slots : list (option R)) :
  (∀ i, i < length slots → filled slots i) → Some <$> omap id slots = slots.
Proof.
  induction slots as [|s slots IH]; intros Hf; [done|].
  destruct (Hf 0 ltac:(cbn; lia)) as [r [= ->]]. cbn. f_equal. apply IH.
  intros i Hi. destruct (Hf (S i) ltac:(cbn; lia)) as [r' ?]. by exists r'.
Qed.

Section round_facts.
Context {R : Type} (registry : Registry) (tool_timeout : Z).
Variable error_result : ToolCall → string → R.
Variable dispatch : nat → ToolCall → Ended R.
Variable stop_requested : nat → bool.

(** The result a dispatched call contributes. *)
Definition contributes (i : nat) (tc : ToolCall) (r : R) : Prop :=
  dispatch i tc = Result r ∨
  ∃ m, dispatch i tc = Exception m ∧ is_parallel registry tc = true ∧ r = error_result tc m.
Definition slots_ok (calls : list ToolCall) (slots : list (option R)) : Prop :=
  length slots = length calls ∧
  ∀ i tc r, calls !! i = Some tc → slots !! i = Some (Some r) → contributes i tc r.

Lemma slots_insert calls slots i tc r :
  slots_ok calls slots → calls !! i = Some tc → contributes i tc r →
  slots_ok calls (<[i := Some r]> slots) ∧ filled (<[i := Some r]> slots) i ∧
  ∀ j, filled slots j → filled (<[i := Some r]> slots) j.
Proof.
  intros [Hlen Hok] Hi Hr. assert (i < length slots) by (rewrite Hlen; by eapply lookup_lt_Some).
  split_and!.
  - split; [by rewrite length_insert|]. intros j tcj rj Hj Hs.
    destruct (decide (j = i)) as [->|Hne].
    + rewrite list_lookup_insert_eq in Hs by done. naive_solver.
    + rewrite list_lookup_insert_ne in Hs by done. by eapply Hok.
  - exists r. by rewrite list_lookup_insert_eq.
  - intros j [rj Hj]. destruct (decide (j = i)) as [->|Hne].
    + exists r. by rewrite list_lookup_insert_eq.
    + exists rj. by rewrite list_lookup_insert_ne.
Qed.

Lemma indices_spec want calls i tc :
  (i, tc) ∈ indices registry want calls ↔ calls !! i = Some tc ∧ is_parallel registry tc = want.
Proof.
  unfold indices. rewrite list_elem_of_filter. split.
  - intros [Hp Hin]. apply elem_of_lookup_imap in Hin as (j & x & [= -> ->] & ?). done.
  - intros [Hi Hp]. split; [done|]. apply elem_of_lookup_imap. eauto.
Qed.

Lemma collect_parallel_ok calls idx slots slots' :
  (∀ i tc, (i, tc) ∈ idx → calls !! i = Some tc ∧ is_parallel registry tc = true) →
  slots_ok calls slots → collect_parallel error_result dispatch idx slots = Ret slots' →
  slots_ok calls slots' ∧ (∀ i tc, (i, tc) ∈ idx → filled slots' i) ∧
  ∀ j, filled slots j → filled slots' j.
Proof.
  revert slots. induction idx as [|[i tc] idx IH]; intros slots Hidx Hok; cbn.
  { intros [= <-]. split_and!; [done|set_solver|done]. }
  destruct (Hidx i tc ltac:(left)) as [Hi Hp].
  assert (∀ i tc, (i, tc) ∈ idx → calls !! i = Some tc ∧ is_parallel registry tc = true) as Hrest
    by (intros; apply Hidx; by right).
  intros Hrun.
  assert (∃ r, contributes i tc r ∧ collect_parallel error_result dispatch idx (<[i := Some r]> slots) = Ret slots')
    as (r & Hr & Hrun').
  { destruct (dispatch i tc) as [r|m|] eqn:Hd; [| |done].
    - exists r. split; [by left|done].
    - exists (error_result tc m). split; [right; eauto|done]. }
  destruct (slots_insert calls slots i tc r Hok Hi Hr) as (Hok' & Hfill & Hkeep).
  destruct (IH _ Hrest Hok' Hrun') as (? & ? & Hkeep'). split_and!; [done| |auto].
  intros j tcj [[= -> ->]|?]%elem_of_cons; eauto.
Qed.

Lemma run_sequential_ok calls idx slots ran slots' ran' :
  (∀ i tc, (i, tc) ∈ idx → calls !! i = Some tc) →
  slots_ok calls slots →
  run_sequential dispatch stop_requested idx slots ran = (Ret slots', ran') →
  slots_ok calls slots' ∧ (∀ i tc, (i, tc) ∈ idx → filled slots' i) ∧
  (∀ j, filled slots j → filled slots' j) ∧ ran' = ran ++ idx.*1.
Proof.
  revert slots ran. induction idx as [|[i tc] idx IH]; intros slots ran Hidx Hok; cbn.
  { intros [= <- <-]. rewrite app_nil_r. split_and!; [done|set_solver|done|done]. }
  destruct (stop_requested i); [done|].
  destruct (dispatch i tc) as [r|m|] eqn:Hd; [|done|done]. intros Hrun.
  assert (calls !! i = Some tc) as Hi by (apply Hidx; left).
  destruct (slots_insert calls slots i tc r Hok Hi ltac:(by left)) as (Hok' & Hfill & Hkeep).
  destruct (IH _ _ ltac:(intros; apply Hidx; by right) Hok' Hrun) as (? & ? & Hkeep' & ->).
  split_and!; [done| |auto|by rewrite <-app_assoc].
  intros j tcj [[= -> ->]|?]%elem_of_cons; eauto.
Qed.

(** The calls dispatched before a sequential run ended are its first ones. *)
Lemma run_sequential_prefix idx slots ran res ran' :
  run_sequential dispatch stop_requested idx slots ran = (res, ran') →
  ∃ done_, ran' = ran ++ done_ ∧ prefix done_ idx.*1 ∧
    ∀ i, i ∈ done_ → stop_requested i = false.
Proof.
  revert slots ran. induction idx as [|[i tc] idx IH]; intros slots ran; cbn.
  { intros [= <- <-]. exists []. rewrite app_nil_r. split_and!; [done|done|set_solver]. }
  destruct (stop_requested i) eqn:Hs.
  { intros [= <- <-]. exists []. rewrite app_nil_r. split_and!; [done|apply prefix_nil|set_solver]. }
  destruct (dispatch i tc) as [r|m|]; intros Hrun.
  - apply IH in Hrun as (d & -> & Hp & Hd). exists (i :: d). rewrite <-app_assoc.
    split_and!; [done|by apply prefix_cons|]. intros j [->|?]%elem_of_cons; auto.
  - injection Hrun as <- <-. exists [i]. split_and!; [done|by apply prefix_cons, prefix_nil|].
    by intros j ->%list_elem_of_singleton.
  - injection Hrun as <- <-. exists [i]. split_and!; [done|by apply prefix_cons, prefix_nil|].
    by intros j ->%list_elem_of_singleton.
Qed.

End round_facts.

(** C30: The results of a round are in the order of its calls.  A round that
    returns has one result per call, in the call's own place, although the
    parallel-safe calls ran before the others; and whether it returns or is
    cut short, the sequential calls that were dispatched are the first ones,
    in order, none of them after a stop was requested. *)
Theorem round_results_in_call_order {R : Type} (registry : Registry) (tool_timeout : Z)
    (error_result : ToolCall → string → R) (dispatch : nat → ToolCall → Ended R)
    (stop_requested : nat → bool) (gather_timed_out : bool) (calls : list ToolCall) :
  let '(res, ran) := execute_tool_round registry tool_timeout error_result dispatch stop_requested
                       gather_timed_out calls in
  (∃ par seq, ran = par ++ seq ∧ par ⊆ (indices registry true calls).*1 ∧
     prefix seq (indices registry false calls).*1 ∧ ∀ i, i ∈ seq → stop_requested i = false) ∧
  match res with
  | Ret results =>
      length results = length calls ∧
      ∀ i tc r, calls !! i = Some tc → results !! i = Some r →
        contributes registry error_result dispatch i tc r
  | Raise _ => True
  end.
Proof.
  unfold execute_tool_round. set (par := indices registry true calls).
  destruct (gather _ _ _ _ _ par _) as [slots|e] eqn:Hg.
  2: { destruct e as [| |m]; (split; [|done]).
       - exists par.*1, []. rewrite app_nil_r. split_and!; [done|set_solver|apply prefix_nil|set_solver].
       - exists par.*1, []. rewrite app_nil_r. split_and!; [done|set_solver|apply prefix_nil|set_solver].
       - exists [], []. split_and!; [done|set_solver|apply prefix_nil|set_solver]. }
  assert (slots_ok registry error_result dispatch calls (replicate (length calls) None)) as H0.
  { split; [apply length_replicate|]. intros i tc r _ Hr.
    by apply lookup_replicate_1 in Hr as [? _]. }
  assert (slots_ok registry error_result dispatch calls slots ∧
          ∀ i tc, (i, tc) ∈ par → filled slots i) as [Hok Hpar].
  { unfold gather in Hg. destruct par as [|x idx] eqn:Hpar; [injection Hg as <-; split; [done|set_solver]|].
    destruct (_batch_timeout _ _ _); [|done]. destruct gather_timed_out; [done|].
    rewrite <-Hpar in Hg |- *.
    refine (let H := collect_parallel_ok registry error_result dispatch stop_requested calls par _ slots _ H0 Hg in
            conj (proj1 H) (proj1 (proj2 H))).
    intros i tc. unfold par. by rewrite indices_spec. }
  destruct (run_sequential _ _ _ slots []) as [res ran] eqn:Hs.
  pose proof (run_sequential_prefix _ _ _ _ _ _ _ Hs) as (d & Hd & Hpre & Hstop). cbn in Hd. subst d.
  destruct res as [slots'|e]; cbn.
  2: { split; [|done]. exists par.*1, ran. split_and!; [done|set_solver|done|done]. }
  eapply run_sequential_ok in Hs as ([Hlen Hok'] & Hseq & Hkeep & _); [| |done].
  2: { intros i tc [? _]%indices_spec. done. }
  split; [exists par.*1, ran; split_and!; [done|set_solver|done|done]|].
  assert (Some <$> omap id slots' = slots') as Hmap.
  { apply omap_filled. rewrite Hlen. intros i [tc Hi]%lookup_lt_is_Some.
    destruct (is_parallel registry tc) eqn:Hp.
    - apply Hkeep, (Hpar i tc), indices_spec. auto.
    - apply (Hseq i tc), indices_spec. auto. }
  split.
  - rewrite <-Hlen. rewrite <-Hmap at 2. by rewrite length_fmap.
  - intros i tc r Hi Hr. apply (Hok' i tc r Hi). rewrite <-Hmap, list_lookup_fmap, Hr. done.
Qed.

(** ** Approvals are used once *)

(** What the agent can do about a gated tool: call it, or ask for its
    approval (with the transcript as it then is). *)
Inductive Act :=
| Call (sid name : string) (arguments : Arguments_)
| Approve (messages : list Row) (sid tool_name scope : string) (persistent : bool).

(** One act, and whether it was admitted, respectively approved. *)
Definition act (registry : Registry) (e : Act) (stored : Store) (mgr : Manager) : bool * Store * Manager :=
  match e with
  | Call sid name arguments =>
      let '(v, mgr) := admit_call registry false mgr sid name arguments in (bool_decide (v = Allowed), stored, mgr)
  | Approve messages sid tool_name scope persistent =>
      let '(reply, stored, mgr) := approve_dangerous_tool messages sid tool_name scope persistent stored mgr in
      (match reply with Approved _ => true | _ => false end, stored, mgr)
  end.
Fixpoint acts (registry : Registry) (es : list Act) (stored : Store) (mgr : Manager) : list (Act * bool) :=
  match es with
  | [] => []
  | e :: es =>
      let '(ok, stored, mgr) := act registry e stored mgr in (e, ok) :: acts registry es stored mgr
  end.

Definition admitted_call (sid name : string) (e : Act * bool) : bool :=
  match e with (Call s n _, ok) => bool_decide (s = sid) && bool_decide (n = name) && ok | _ => false end.
Definition approved_for (sid name : string) (e : Act * bool) : bool :=
  match e with
  | (Approve _ s n _ _, ok) => bool_decide (s = sid) && bool_decide (n = name) && ok
  | _ => false
  end.
Definition single_use (sid name : string) (e : Act) : Prop :=
  match e with Approve _ s n _ p => s = sid → n = name → p = false | _ => True end.

(** The sessions without their approvals: what the gate's exemptions read. *)
Definition strip_approvals (mgr : Manager) : Manager := (λ s, s <| approvals ::= λ _, ∅ |>) <$> mgr.
Definition entry (mgr : Manager) (sid name : string) : option Approval :=
  mgr !! sid ≫= λ s, approvals s !! name.

Lemma unattended_strip mgr mgr' sid :
  strip_approvals mgr = strip_approvals mgr' → _is_unattended_session mgr sid = _is_unattended_session mgr' sid.
Proof.
  intros Hm. assert (∀ i, (λ s, s <| approvals ::= λ _, ∅ |>) <$> mgr !! i =
                          (λ s, s <| approvals ::= λ _, ∅ |>) <$> mgr' !! i) as Hi.
  { intros i. by rewrite <-!lookup_fmap; change (strip_approvals mgr !! i = strip_approvals mgr' !! i); rewrite Hm. }
  unfold _is_unattended_session, session_of. case_decide; [done|]. pose proof (Hi sid) as Hs.
  destruct (mgr !! sid) as [s|], (mgr' !! sid) as [s'|]; try done.
  destruct s as [ty par al rx ap], s' as [ty' par' al' rx' ap']. injection Hs as <- <- <- <-. cbn.
  do 2 f_equal. f_equal. pose proof (Hi par) as Hp.
  destruct (mgr !! par) as [s|], (mgr' !! par) as [s'|]; try done.
  destruct s, s'. by injection Hp as <- <- <- <-.
Qed.

Lemma strip_consume name sid mgr : strip_approvals (consume_approval name sid mgr) = strip_approvals mgr.
Proof.
  apply map_eq. intros i. unfold strip_approvals, consume_approval. rewrite !lookup_fmap.
  destruct (decide (i = sid)) as [->|].
  - rewrite lookup_alter_eq. by destruct (mgr !! sid) as [[]|].
  - by rewrite lookup_alter_ne.
Qed.
Lemma entry_consume name sid mgr sid' name' :
  entry (consume_approval name sid mgr) sid' name' =
  if decide (sid' = sid ∧ name' = name) then None else entry mgr sid' name'.
Proof.
  unfold entry, consume_approval. destruct (decide (sid' = sid)) as [->|].
  - rewrite lookup_alter_eq. destruct (mgr !! sid) as [[]|]; cbn; [|by case_decide].
    case_decide as Hd.
    + destruct Hd as [_ ->]. by rewrite lookup_delete_eq.
    + rewrite lookup_delete_ne; [done|naive_solver].
  - rewrite lookup_alter_ne by done. rewrite decide_False; [done|naive_solver].
Qed.

(** A call either leaves the sessions alone or was admitted and uses an
    approval up. *)
Lemma admit_effect registry auto mgr sid name arguments v mgr' :
  admit_call registry auto mgr sid name arguments = (v, mgr') →
  mgr' = mgr ∨ v = Allowed ∧ mgr' = consume_approval name sid mgr.
Proof.
  unfold admit_call. destruct (tools registry !! name) as [tool|]; [|intros [= <- <-]; by left]. cbv zeta.
  repeat (case_decide; [intros [= <- <-]; by left|]).
  case_decide; [|intros [= <- <-]; by left].
  destruct (auto || _); [intros [= <- <-]; by left|]. unfold gate.
  destruct (_ ≫= _) as [e|]; [|intros [= <- <-]; by left].
  destruct (persistent e); [intros [= <- <-]; by left|].
  destruct (uncovered _ _); intros [= <- <-]; [by right|by left].
Qed.

(** Admitting a dangerous tool in an attended session finds an approval, and
    uses it up unless it is persistent. *)
Lemma admitted_uses_entry registry mgr sid name arguments tool mgr' :
  tools registry !! name = Some tool → safety_level tool = "dangerous"%string →
  _is_unattended_session mgr sid = false →
  admit_call registry false mgr sid name arguments = (Allowed, mgr') →
  ∃ e, entry mgr sid name = Some e ∧
    (persistent e = false → mgr' = consume_approval name sid mgr).
Proof.
  unfold admit_call. intros -> Hd Hun. cbv zeta. repeat (case_decide; [done|]).
  rewrite decide_True by done. rewrite Hun. cbn [orb].
  destruct (gate _ name arguments) as [v used] eqn:Hg. intros Hadm.
  assert (v = Allowed) as -> by (destruct used; congruence).
  unfold gate in Hg. unfold entry, session_of in *.
  case_decide; [done|]. destruct (mgr !! sid) as [s|]; cbn in *; [|done].
  destruct (approvals s !! name) as [e|]; cbn in *; [|done]. exists e. split; [done|]. intros Hp.
  rewrite Hp in Hg. destruct (uncovered _ _); [|done]. injection Hg as <-. by injection Hadm as <-.
Qed.

Lemma approve_effect messages sid tool_name scope persistent stored mgr reply stored' mgr' :
  approve_dangerous_tool messages sid tool_name scope persistent stored mgr = (reply, stored', mgr') →
  match reply with
  | Approved _ => strip_approvals mgr' = strip_approvals mgr ∧
      ∀ sid' name', entry mgr' sid' name' =
        if decide (sid' = sid ∧ name' = tool_name) then Some (mkApproval scope persistent)
        else entry mgr sid' name'
  | _ => mgr' = mgr
  end.
Proof.
  unfold approve_dangerous_tool. repeat (case_decide; [by intros [= <- _ <-]|]). cbv zeta.
  match goal with |- context [match ?m with Ret _ => _ | Raise _ => _ end] => destruct m as [st|e] eqn:Hm end.
  2: { intros [= <- _ <-]. destruct (previously_approved _ _ _); [done|].
       destruct (ask_user_idx _); [|by injection Hm as <-].
       destruct (answer_idx _); [|by injection Hm as <-].
       destruct (_ <? _); [by injection Hm as <-|done]. }
  destruct (mgr !! sid) as [s|] eqn:Hs; intros [= <- _ <-]; [|done]. split.
  - apply map_eq. intros i. unfold strip_approvals. rewrite !lookup_fmap.
    destruct (decide (i = sid)) as [->|].
    + rewrite lookup_insert_eq, Hs. by destruct s.
    + by rewrite lookup_insert_ne.
  - intros sid' name'. unfold entry. destruct (decide (sid' = sid)) as [->|].
    + rewrite lookup_insert_eq, Hs. destruct s as [ty par al rx ap]. cbn. case_decide as Hd.
      * destruct Hd as [_ ->]. by rewrite lookup_insert_eq.
      * rewrite lookup_insert_ne; [done|naive_solver].
    + rewrite lookup_insert_ne by done. rewrite decide_False; [done|naive_solver].
Qed.

Section single_use.
Context (registry : Registry) (sid name : string) (tool : ToolDef).
Context (Htool : tools registry !! name = Some tool).
Context (Hdangerous : safety_level tool = "dangerous"%string).

(** The approval that stands for [name] is single-use. *)
Definition standing (mgr : Manager) : Z := if entry mgr sid name then 1 else 0.
Definition usable_once (mgr : Manager) : Prop := ∀ e, entry mgr sid name = Some e → persistent e = false.

Lemma act_accounts e stored mgr ok stored' mgr' :
  _is_unattended_session mgr sid = false → usable_once mgr → single_use sid name e →
  act registry e stored mgr = (ok, stored', mgr') →
  strip_approvals mgr' = strip_approvals mgr ∧ usable_once mgr' ∧
  ((if admitted_call sid name (e, ok) then 1 else 0) + standing mgr' ≤
   (if approved_for sid name (e, ok) then 1 else 0) + standing mgr)%Z.
Proof using Htool Hdangerous.
  intros Hun Honce Hsingle. unfold standing. destruct e as [s n arguments|messages s n scope p]; cbn.
  - destruct (admit_call registry false mgr s n arguments) as [v m'] eqn:Hadm. intros [= <- <- <-].
    assert (strip_approvals m' = strip_approvals mgr) as Hstrip.
    { destruct (admit_effect _ _ _ _ _ _ _ _ Hadm) as [->|[_ ->]]; [done|apply strip_consume]. }
    assert (entry m' sid name = entry mgr sid name ∨ entry m' sid name = None) as Hentry.
    { destruct (admit_effect _ _ _ _ _ _ _ _ Hadm) as [->|[_ ->]]; [by left|].
      rewrite entry_consume. case_decide; auto. }
    split_and!; [done| |].
    { intros e He. apply Honce. destruct Hentry as [<-|]; congruence. }
    destruct (bool_decide (s = sid) && bool_decide (n = name) && bool_decide (v = Allowed)) eqn:Hmine.
    2: { destruct Hentry as [He|He]; rewrite He; [lia|]. destruct (entry mgr sid name); lia. }
    apply andb_true_iff in Hmine as [[Hs Hn]%andb_true_iff Hv].
    apply bool_decide_eq_true in Hs, Hn, Hv. subst s n v.
    destruct (admitted_uses_entry _ _ _ _ _ _ _ Htool Hdangerous Hun Hadm) as (e & He & Hused).
    rewrite (Hused (Honce e He)), entry_consume, decide_True, He by done. lia.
  - destruct (approve_dangerous_tool messages s n scope p stored mgr) as [[reply st'] m'] eqn:Happ.
    intros [= <- <- <-]. pose proof (approve_effect _ _ _ _ _ _ _ _ _ _ Happ) as Heff.
    destruct reply; try (subst m'; split_and!; [done|done|];
      rewrite andb_false_r; lia).
    destruct Heff as [Hstrip Hentry]. split_and!; [done| |].
    + intros e. rewrite Hentry. case_decide as Hd; [|apply Honce].
      destruct Hd as [-> ->]. intros [= <-]. cbn. by apply Hsingle.
    + rewrite Hentry. case_decide as Hd.
      * destruct Hd as [<- <-]. rewrite !bool_decide_true by done. cbn. destruct (entry mgr sid name); lia.
      * destruct (_ && _ && _); destruct (entry mgr sid name); lia.
Qed.

(** A single-use approval unlocks one call.  In an attended session that
    starts without an approval for a dangerous tool and is never given a
    persistent one, no sequence of calls and approvals, of this tool and
    others, in this session and others, admits the tool more often than it was
    approved. *)
Theorem single_use_approvals (es : list Act) (stored : Store) (mgr : Manager)
    (Hattended : _is_unattended_session mgr sid = false)
    (Hnone : entry mgr sid name = None) (Hsingle : Forall (single_use sid name) es) :
  (cnt (admitted_call sid name) (acts registry es stored mgr) ≤
   cnt (approved_for sid name) (acts registry es stored mgr))%Z.
Proof using Htool Hdangerous.
  assert (usable_once mgr) as Honce by (intros e He; congruence).
  enough (cnt (admitted_call sid name) (acts registry es stored mgr) ≤
          cnt (approved_for sid name) (acts registry es stored mgr) + standing mgr)%Z as H.
  { unfold standing in H. rewrite Hnone in H. lia. }
  clear Hnone. revert stored mgr Hattended Honce.
  induction Hsingle as [|e es He _ IH]; intros stored mgr Hatt Honce; cbn [acts].
  { change (0 ≤ 0 + standing mgr)%Z. unfold standing. destruct (entry mgr sid name); lia. }
  destruct (act registry e stored mgr) as [[ok stored'] mgr'] eqn:Hact.
  destruct (act_accounts _ _ _ _ _ _ Hatt Honce He Hact) as (Hstrip & Honce' & Hcount).
  rewrite !cnt_cons. specialize (IH stored' mgr'). rewrite (unattended_strip _ _ sid Hstrip) in IH.
  specialize (IH Hatt Honce'). lia.
Qed.
End single_use.

(** A registry with two gated tools, and a user's session. *)
Definition remove_server : ToolDef := mkTool 60 0 false ∅ "dangerous".
Definition gated_tools : Registry :=
  mkRegistry {[ "mcp_remove_server"%string := remove_server; "browse_web"%string := remove_server ]} ∅.
Definition chat : Session := mkSession "chat" "" [] [] ∅.
Definition asked : Row := mkRow "assistant" (Some [("ask_user"%string, false)]) [] "".
Definition answer (s : string) : Row := mkRow "user" None [] ("[User answered your question] " ++ s).
Definition sessions : Manager := {[ "s"%string := chat ]}.

Lemma single_use_approvals_witness :
  let es := [Approve [asked; answer "yes"] "s" "mcp_remove_server" "remove server foobar" false;
             Call "s" "mcp_remove_server" [("name"%string, AStr "foobar")];
             Call "s" "mcp_remove_server" [("name"%string, AStr "foobar")]] in
  map snd (acts gated_tools es ∅ sessions) = [true; true; false] ∧
  (cnt (admitted_call "s" "mcp_remove_server") (acts gated_tools es ∅ sessions) ≤
   cnt (approved_for "s" "mcp_remove_server") (acts gated_tools es ∅ sessions))%Z.
Proof.
  split; [vm_compute; reflexivity|].
  apply (single_use_approvals gated_tools "s" "mcp_remove_server" remove_server); try (vm_compute; reflexivity).
  apply Forall_cons. split; [done|]. apply Forall_cons. split; [done|]. apply Forall_cons. done.
Defined.

(** What the gate does not check.  One answered question approves any
    number of tools and scopes, whatever it asked; the answer may be no; a
    value of three characters need not be in the scope (the executor's own
    example of a call to refuse is admitted); a remembered single-use scope
    recalled as persistent admits any arguments without asking; and a worker
    whose allow-list lacks ask_user runs dangerous tools below an interactive
    parent. *)
Theorem approval_gate_gaps :
  (** one answered question, two tools *)
  map snd (acts gated_tools
    [Approve [asked; answer "yes, remove foobar"] "s" "mcp_remove_server" "remove server foobar" false;
     Approve [asked; answer "yes, remove foobar"] "s" "browse_web" "https://evil.example" false;
     Call "s" "browse_web" [("url"%string, AStr "https://evil.example")]] ∅ sessions) = [true; true; true] ∧
  (** an answer of no *)
  map snd (acts gated_tools
    [Approve [asked; answer "no"] "s" "mcp_remove_server" "remove server foobar" false;
     Call "s" "mcp_remove_server" [("name"%string, AStr "foobar")]] ∅ sessions) = [true; true] ∧
  (** approved for foo, called for bar *)
  map snd (acts gated_tools
    [Approve [asked; answer "yes"] "s" "mcp_remove_server" "remove server foo" false;
     Call "s" "mcp_remove_server" [("name"%string, AStr "bar")]] ∅ sessions) = [true; true] ∧
  (** approved once; in a new session recalled, without asking, for good and for anything *)
  map snd (acts gated_tools
    [Approve [] "s" "browse_web" "open example.org" true;
     Call "s" "browse_web" [("url"%string, AStr "https://evil.example")];
     Call "s" "browse_web" [("url"%string, AStr "https://evil.example")]]
    {[ "browse_web"%string := ["open example.org"%string] ]} sessions) = [true; true; true] ∧
  (** a worker of an interactive session, no approval at all *)
  map snd (acts gated_tools [Call "w" "browse_web" [("url"%string, AStr "https://evil.example")]] ∅
    (<["w"%string := mkSession "worker" "s" ["browse_web"%string] [] ∅]> sessions)) = [true].
Proof. vm_compute. done. Qed.

(** An infinite [timeout] argument is not a number to [int()]:
    [_resolve_timeout] raises before [_execute_single]'s [try], and an exception
    of a sequential call ends the round without the results it has.  The
    agent's admission gate refuses the argument for the two tools that have
    one, whose schemas say integer. *)
Lemma infinite_timeout_destroys_the_round {R : Type} (error_result : ToolCall → string → R) (r : R) stop :
  let calls := [mkToolCall "file_write" []; mkToolCall "bash" [("timeout"%string, AInf)]] in
  let dispatch (i : nat) (tc : ToolCall) : Ended R :=
    match _resolve_timeout bash_tool (call_arguments tc) with
    | None => Exception "cannot convert float infinity to integer"
    | Some _ => Result r
    end in
  stop 0 = false → stop 1 = false →
  execute_tool_round two_tools 300 error_result dispatch stop false calls =
  (Raise (RoundException "cannot convert float infinity to integer"), [0; 1]).
Proof.
  intros calls dispatch H0 H1. unfold execute_tool_round. cbn [gather]. 
  change (indices two_tools true calls) with (@nil (nat * ToolCall)).
  change (indices two_tools false calls) with (imap pair calls). cbn. by rewrite H0, H1.
Qed.
