(* ===== verification/Dispatch.v ===== *)
(** * One dispatch of a tool (core/tools/executor.py)

    From the moment [_execute_single] has admitted a call: the event loop task
    that waits for it, the pool thread that may or may not come to run it, the
    gate they settle that by, and the scope that ties the operations a tool
    starts on the loop to the dispatch.  Threads and the loop interleave at
    every call that takes a lock or hands something over; each is a step. *)
From stdpp Require Import gmap sets.
From S2P Require Import Prelude.

(** ** The gate *)
Record Gate := mkGate { g_cancelled : bool; g_running : bool }.
Definition claim_for_run (g : Gate) : bool * Gate :=
  if g_cancelled g then (false, g) else (true, mkGate (g_cancelled g) true).
Definition gate_cancel (g : Gate) : bool * Gate := (g_running g, mkGate true (g_running g)).

(** ** The scope *)

(** [event] is the flag tools poll. *)
Record Scope := mkScope { s_cancelled : bool; s_futures : list nat; event : bool }.

(** Registering: refused, with the future cancelled on the spot, once the
    scope is closed. *)
Definition register (fut : nat) (sc : Scope) : bool * Scope :=
  if s_cancelled sc then (false, sc)
  else (true, mkScope (s_cancelled sc) (s_futures sc ++ [fut]) (event sc)).
Definition unregister (fut : nat) (sc : Scope) : Scope :=
  mkScope (s_cancelled sc) (remove_first fut (s_futures sc)) (event sc).
(** [AsyncOpScope.cancel] under its lock: the futures are taken out. *)
Definition scope_close (sc : Scope) : list nat * Scope := (s_futures sc, mkScope true [] (event sc)).

(** ** The dispatch *)

(** What the pool thread's callable ended with: [_DISPATCH_CANCELLED], the
    tool's own return, or [DispatchCancelled] raised by the tool. *)
Inductive Raw := Declined | Ran | Quit.
Inductive Thread :=
| TQueued                          (** no thread yet *)
| TChecked                         (** [_session_cancel_requested] was false *)
| TClaimed                         (** [claim_for_run] returned True *)
| TInTool (submitted : option nat) (** in the tool; an operation not yet registered *)
| TReturned (r : Raw)
| TDropped.                        (** the queued item was cancelled *)

(** The ways the dispatcher ends a call without its result, and what it
    does then, in order. *)
Inductive Why := Saturated | Stopped | TimedOut.
Inductive Todo := CancelGate | CloseScope | SetEvent | CancelTaken | CancelFut | Kill.
#[export] Instance Todo_eq_dec : EqDecision Todo.
Proof. solve_decision. Defined.
Definition plan (why : Why) : list Todo :=
  match why with
  | Saturated => [CancelGate; CloseScope; SetEvent; CancelTaken; CancelFut]
  | Stopped => [CancelGate; CloseScope; SetEvent; CancelTaken; CancelFut; Kill]
  | TimedOut => [CancelFut; CloseScope; SetEvent; CancelTaken; Kill]
  end.
Inductive Phase :=
| Starting                          (** [asyncio.wait({fut, waiter})] *)
| Awaiting                          (** [asyncio.wait_for(fut, timeout)] *)
| Unwinding (why : Why) (todo : list Todo)
| Completed
| Over (why : Why).

Record Dispatch := mkDispatch {
  gate : Gate;
  scope : Scope;
  taken : list nat;                 (** futures [cancel] took and has yet to cancel *)
  live : gset nat;                  (** operations running on the loop *)
  next : nat;
  thread : Thread;
  started_soon : bool;              (** [call_soon_threadsafe(started.set)] is queued *)
  started : bool;
  fut_done : bool;                  (** the wrapper future has its result *)
  fut_cancelled : bool;
  was_running : option bool;        (** what [gate.cancel()] returned *)
  killed : bool;                    (** [_kill_tool_subprocess] ran *)
  phase : Phase;
  stop : bool                       (** the session's [cancel_requested] *)
}.
#[export] Instance Dispatch_settable : Settable Dispatch := λ d,
  mkDispatch (gate d) (scope d) (taken d) (live d) (next d) (thread d) (started_soon d) (started d)
    (fut_done d) (fut_cancelled d) (was_running d) (killed d) (phase d) (stop d).

Definition submitted_call (stop : bool) : Dispatch :=
  mkDispatch (mkGate false false) (mkScope false [] false) [] ∅ 0 TQueued false false false false None
    false Starting stop.

(** *** The pool thread: [_runner] and the tool *)
Definition thread_check (d : Dispatch) : Dispatch :=
  d <| thread := if stop d then TReturned Declined else TChecked |>.
Definition thread_claim (d : Dispatch) : Dispatch :=
  let '(ok, g) := claim_for_run (gate d) in
  d <| gate := g |> <| thread := if ok then TClaimed else TReturned Declined |>.
Definition thread_enter (d : Dispatch) : Dispatch :=
  d <| started_soon := true |> <| thread := TInTool None |>.
(** [run_coroutine_threadsafe], then [scope.register]. *)
Definition tool_submit (d : Dispatch) : Dispatch :=
  d <| live ::= λ l, l ∪ {[next d]} |> <| next ::= S |> <| thread := TInTool (Some (next d)) |>.
Definition tool_register (fut : nat) (d : Dispatch) : Dispatch :=
  let '(ok, sc) := register fut (scope d) in
  let d := d <| scope := sc |> in
  if ok then d <| thread := TInTool None |>
  else d <| live ::= λ l, l ∖ {[fut]} |> <| thread := TReturned Quit |>.
(** The operation ended, or the tool's own wait ran out and it cancelled it. *)
Definition tool_release (fut : nat) (d : Dispatch) : Dispatch :=
  d <| live ::= λ l, l ∖ {[fut]} |> <| scope ::= unregister fut |>.

(** *** The loop *)
Definition do_todo (a : Todo) (d : Dispatch) : Dispatch :=
  match a with
  | CancelGate => let '(was, g) := gate_cancel (gate d) in
                  d <| gate := g |> <| was_running := Some was |>
  | CloseScope => let '(futs, sc) := scope_close (scope d) in
                  d <| scope := sc |> <| taken ::= λ l, l ++ futs |>
  | SetEvent => d <| scope ::= λ sc, mkScope (s_cancelled sc) (s_futures sc) true |>
  | CancelTaken => d <| live ::= λ l, l ∖ list_to_set (taken d) |> <| taken := [] |>
  | CancelFut => d <| fut_cancelled := true |>
  | Kill => if decide (was_running d = Some false) then d else d <| killed := true |>
  end.

Inductive step (d : Dispatch) : Dispatch → Prop :=
| SessionStop : step d (d <| stop := true |>)
| ThreadCheck : thread d = TQueued → step d (thread_check d)
| ThreadClaim : thread d = TChecked → step d (thread_claim d)
| ThreadEnter : thread d = TClaimed → step d (thread_enter d)
| ToolSubmit : thread d = TInTool None → step d (tool_submit d)
| ToolRegister fut : thread d = TInTool (Some fut) → step d (tool_register fut d)
| ToolRelease fut : thread d = TInTool None → step d (tool_release fut d)
| ToolReturn : thread d = TInTool None → s_futures (scope d) = [] →
    step d (d <| thread := TReturned Ran |>)
| ToolQuit : thread d = TInTool None → s_futures (scope d) = [] → s_cancelled (scope d) = true →
    step d (d <| thread := TReturned Quit |>)
| OpEnds fut : step d (d <| live ::= λ l, l ∖ {[fut]} |>)
| LoopStarted : started_soon d = true → step d (d <| started := true |>)
| LoopDone r : thread d = TReturned r → step d (d <| fut_done := true |>)
| LoopDrop : fut_cancelled d = true → thread d = TQueued → step d (d <| thread := TDropped |>)
| Begun : phase d = Starting → started d = true ∨ fut_done d = true →
    step d (d <| phase := Awaiting |>)
| QueueCeiling : phase d = Starting → started d = false → fut_done d = false →
    step d (d <| phase := Unwinding Saturated (plan Saturated) |>)
| TaskCancelled : phase d = Starting ∨ phase d = Awaiting →
    step d (d <| phase := Unwinding Stopped (plan Stopped) |>)
| ToolTimeout : phase d = Awaiting → fut_done d = false →
    step d (d <| phase := Unwinding TimedOut (plan TimedOut) |>)
| Finished : phase d = Awaiting → fut_done d = true → thread d = TReturned Ran →
    step d (d <| phase := Completed |>)
| Unfinished r : phase d = Awaiting → fut_done d = true → thread d = TReturned r → r ≠ Ran →
    step d (d <| phase := Unwinding Stopped (plan Stopped) |>)
| Unwind why a todo : phase d = Unwinding why (a :: todo) →
    step d ((do_todo a d) <| phase := Unwinding why todo |>)
| Unwound why : phase d = Unwinding why [] → step d (d <| phase := Over why |>).

Definition run := reachable (λ d, ∃ stop, d = submitted_call stop) step.

(** ** Invariant *)

(** The thread has been told it may run the tool. *)
Definition entered (th : Thread) : bool :=
  match th with
  | TClaimed | TInTool _ | TReturned Ran | TReturned Quit => true
  | TQueued | TChecked | TReturned Declined | TDropped => false
  end.

(** The futures are taken before they are cancelled. *)
Fixpoint ordered (todo : list Todo) : Prop :=
  match todo with
  | [] => True
  | CloseScope :: todo => CancelTaken ∈ todo ∧ ordered todo
  | _ :: todo => ordered todo
  end.
(** What has been done when [todo] is left of the plan for [why]. *)
Record remaining (why : Why) (todo : list Todo) (d : Dispatch) : Prop := {
  r_gate : CancelGate ∈ todo ∨ why = TimedOut ∨ was_running d ≠ None;
  r_scope : CloseScope ∈ todo ∨ s_cancelled (scope d) = true;
  r_event : SetEvent ∈ todo ∨ event (scope d) = true;
  r_taken : CancelTaken ∈ todo ∨ taken d = [];
  r_kill : Kill ∈ todo ∨ why = Saturated ∨ was_running d = Some false ∨ killed d = true;
  r_ordered : ordered todo;
  r_timeout : why = TimedOut → entered (thread d) = true
}.
Record inv (d : Dispatch) : Prop := {
  i_gate : g_running (gate d) = entered (thread d);
  i_was : match was_running d with
          | Some true => entered (thread d) = true
          | Some false => g_cancelled (gate d) = true ∧ entered (thread d) = false
          | None => True
          end;
  i_closed : s_cancelled (scope d) = true → s_futures (scope d) = [];
  i_live : ∀ op, op ∈ live d → op ∈ s_futures (scope d) ∨ op ∈ taken d ∨ thread d = TInTool (Some op);
  i_soon : started_soon d = true → entered (thread d) = true;
  i_started : started d = true → entered (thread d) = true;
  i_done : fut_done d = true → ∃ r, thread d = TReturned r;
  i_phase : match phase d with
            | Unwinding why todo => remaining why todo d
            | Over why => remaining why [] d
            | Awaiting => taken d = [] ∧ (entered (thread d) = true ∨ fut_done d = true)
            | Starting | Completed => taken d = []
            end
}.

(** Nothing the phase's obligations read changes but, perhaps, the thread,
    which stays entered. *)
Lemma i_phase_frame d d' :
  phase d' = phase d → taken d' = taken d → was_running d' = was_running d → killed d' = killed d →
  (s_cancelled (scope d) = true → s_cancelled (scope d') = true) →
  (event (scope d) = true → event (scope d') = true) →
  (fut_done d = true → fut_done d' = true) →
  (entered (thread d) = true → entered (thread d') = true) →
  inv d →
  match phase d' with
  | Unwinding why todo => remaining why todo d'
  | Over why => remaining why [] d'
  | Awaiting => taken d' = [] ∧ (entered (thread d') = true ∨ fut_done d' = true)
  | Starting | Completed => taken d' = []
  end.
Proof.
  intros -> Ht Hw Hk Hs He Hf Hth Hinv. pose proof (i_phase d Hinv) as Hp.
  destruct (phase d) as [| |why todo| |why]; rewrite ?Ht; [done|tauto| |done|].
  - destruct Hp. split; rewrite ?Ht, ?Hw, ?Hk; clear Hinv; try done; intuition.
  - destruct Hp. split; rewrite ?Ht, ?Hw, ?Hk; clear Hinv; try done; intuition.
Qed.

Lemma inv_init stop : inv (submitted_call stop).
Proof. by split. Qed.

(** Split the invariant of a step that leaves the dispatcher's phase alone;
    the two clauses about the thread's state are kept from the old ones. *)
Ltac keep_thread Hl Hd :=
  first [ let op := fresh in let H := fresh in intros op H; destruct (Hl op H) as [?|[?|?]]; auto; done
        | let H := fresh in intros H; destruct (Hd H) as [? ?]; done ].
Ltac same_phase d := split; [..|apply (i_phase_frame d)]; cbn; try done.

Lemma inv_thread d th :
  inv d → (∀ op, thread d = TInTool (Some op) → th = TInTool (Some op)) →
  (∀ r, thread d ≠ TReturned r) → entered th = entered (thread d) →
  inv (d <| thread := th |>).
Proof.
  intros Hinv Hop Hr Hen. pose proof Hinv as [Hg Hw Hc Hl Hso Hst Hd _].
  same_phase d; rewrite ?Hen; try done.
  - intros op Hin. destruct (Hl op Hin) as [?|[?|?]]; auto.
  - intros Hdone. destruct (Hd Hdone) as [r ?]. by destruct (Hr r).
Qed.

Lemma inv_check d : inv d → thread d = TQueued → inv (thread_check d).
Proof.
  intros Hinv Hth. unfold thread_check.
  destruct (stop d); apply inv_thread; try done; by rewrite Hth.
Qed.
Lemma inv_claim d : inv d → thread d = TChecked → inv (thread_claim d).
Proof.
  intros Hinv Hth. unfold thread_claim, claim_for_run.
  destruct (g_cancelled (gate d)) eqn:Hcan.
  - pose proof Hinv as [Hg Hw Hc Hl Hso Hst Hd _]. rewrite Hth in *. cbn in *.
    same_phase d; rewrite ?Hth; try done; keep_thread Hl Hd.
  - pose proof Hinv as [Hg Hw Hc Hl Hso Hst Hd _]. rewrite Hth in *. cbn in *.
    same_phase d.
    + destruct (was_running d) as [[]|]; [done|destruct Hw; congruence|done].
    + keep_thread Hl Hd.
    + keep_thread Hl Hd.
Qed.
Lemma inv_enter d : inv d → thread d = TClaimed → inv (thread_enter d).
Proof.
  intros Hinv Hth. pose proof Hinv as [Hg Hw Hc Hl Hso Hst Hd _]. rewrite Hth in *. cbn in *.
  same_phase d; keep_thread Hl Hd.
Qed.
Lemma inv_submit d : inv d → thread d = TInTool None → inv (tool_submit d).
Proof.
  intros Hinv Hth. pose proof Hinv as [Hg Hw Hc Hl Hso Hst Hd _]. rewrite Hth in *. cbn in *.
  same_phase d.
  - intros op [Hop%Hl| ->%elem_of_singleton]%elem_of_union; [|auto].
    destruct Hop as [?|[?|?]]; auto; done.
  - keep_thread Hl Hd.
Qed.
Lemma inv_register d fut : inv d → thread d = TInTool (Some fut) → inv (tool_register fut d).
Proof.
  intros Hinv Hth. pose proof Hinv as [Hg Hw Hc Hl Hso Hst Hd _]. rewrite Hth in *. cbn in *.
  unfold tool_register, register. destruct (s_cancelled (scope d)) eqn:Hclosed.
  - same_phase d; [auto| |keep_thread Hl Hd].
    intros op [Hop Hne]%elem_of_difference. destruct (Hl op Hop) as [?|[?|[= ->]]]; [auto..|].
    by destruct Hne; apply elem_of_singleton.
  - same_phase d.
    + intros op Hop. destruct (Hl op Hop) as [?|[?|[= ->]]]; set_solver.
    + keep_thread Hl Hd.
    + by rewrite Hclosed.
Qed.
Lemma inv_release d fut : inv d → thread d = TInTool None → inv (tool_release fut d).
Proof.
  intros Hinv Hth. pose proof Hinv as [Hg Hw Hc Hl Hso Hst Hd _]. rewrite Hth in *. cbn in *.
  same_phase d; rewrite ?Hth; try done.
  - intros Hs. by rewrite (Hc Hs).
  - intros op [Hop Hne]%elem_of_difference. destruct (Hl op Hop) as [?|[?|?]]; [|auto|done].
    left. apply remove_first_ne; set_solver.
Qed.
Lemma inv_return d r :
  inv d → thread d = TInTool None → r ≠ Declined → inv (d <| thread := TReturned r |>).
Proof.
  intros Hinv Hth Hr. apply inv_thread; try done; rewrite Hth; [done|done|]. by destruct r.
Qed.

(** The steps of the loop. *)
Lemma drop_head (x a : Todo) todo (P Q : Prop) :
  x ∈ a :: todo ∨ P → (x ≠ a → P → Q) → (x = a → x ∈ todo ∨ Q) → x ∈ todo ∨ Q.
Proof. rewrite elem_of_cons. destruct (decide (x = a)); tauto. Qed.
Lemma remaining_todo d why a todo :
  (was_running d = Some false → g_running (gate d) = false) →
  remaining why (a :: todo) d → remaining why todo (do_todo a d).
Proof.
  intros Hfalse [Rg Rs Re Rt Rk Ro Rto].
  split.
  - apply (drop_head _ _ _ _ _ Rg); [|by intros <-; right; right].
    intros Hne [?|?]; [by left|right]. destruct a; cbn; try done. by case_decide.
  - apply (drop_head _ _ _ _ _ Rs); [|by intros <-; right].
    intros Hne ?. destruct a; cbn; try done. by case_decide.
  - apply (drop_head _ _ _ _ _ Re); [|by intros <-; right].
    intros Hne ?. destruct a; cbn; try done. by case_decide.
  - destruct (decide (a = CloseScope)) as [->|]; [left; apply Ro|].
    apply (drop_head _ _ _ _ _ Rt); [|by intros <-; right].
    intros Hne ?. destruct a; cbn; try done. by case_decide.
  - apply (drop_head _ _ _ _ _ Rk).
    + intros Hne [?|[Hf|?]]; [by left|right; left|right; right].
      * destruct a; cbn; try done. by rewrite (Hfalse Hf).
      * destruct a; cbn; try done.
    + intros <-. right. cbn. case_decide; auto.
  - destruct a; apply Ro.
  - intros H. rewrite <-(Rto H). destruct a; cbn; try done. by case_decide.
Qed.
Lemma remaining_phase why todo d p : remaining why todo d → remaining why todo (d <| phase := p |>).
Proof. intros [? ? ? ? ? ? ?]. by split. Qed.
Lemma inv_todo d why a todo :
  inv d → phase d = Unwinding why (a :: todo) → inv ((do_todo a d) <| phase := Unwinding why todo |>).
Proof.
  intros Hinv Hph. pose proof Hinv as [Hg Hw Hc Hl Hso Hst Hd Hp]. rewrite Hph in Hp.
  assert (remaining why todo (do_todo a d)) as Hr.
  { apply remaining_todo; [|done]. intros Hf. rewrite Hf in Hw. rewrite Hg. tauto. }
  pose proof (remaining_phase _ _ _ (Unwinding why todo) Hr) as Hr'.
  split; [| | | | | | |exact Hr']; clear Hr Hr'; destruct a; cbn; try done; try (case_decide; done).
  - rewrite Hg. destruct (entered (thread d)); [done|]. auto.
  - intros op [?|[?|?]]%Hl; rewrite elem_of_app; auto.
  - intros op [Hop Hn]%elem_of_difference. rewrite elem_of_list_to_set in Hn.
    destruct (Hl op Hop) as [?|[?|?]]; auto; done.
Qed.

(** A new phase whose obligations are met. *)
Lemma inv_phase d p :
  inv d →
  match p with
  | Unwinding why todo => remaining why todo d
  | Over why => remaining why [] d
  | Awaiting => taken d = [] ∧ (entered (thread d) = true ∨ fut_done d = true)
  | Starting | Completed => taken d = []
  end → inv (d <| phase := p |>).
Proof.
  intros [Hg Hw Hc Hl Hso Hst Hd _] Hp. split; try done. cbn.
  destruct p; try done; by apply remaining_phase.
Qed.

(** Nothing of a plan is done when it starts. *)
Lemma remaining_plan d why :
  taken d = [] → (why = TimedOut → entered (thread d) = true) → remaining why (plan why) d.
Proof.
  intros Ht Hto. split; [| | | | | |done]; destruct why; cbn; try (by left; set_solver); auto.
  all: try (split; [set_solver|done]).
Qed.

Lemma inv_step d d' : inv d → step d d' → inv d'.
Proof.
  intros Hinv Hstep. pose proof Hinv as [Hg Hw Hc Hl Hso Hst Hd Hp]. destruct Hstep as
    [|Hth|Hth|Hth|Hth|fut Hth|fut Hth|Hth ?|Hth ? ?|fut|Hs|r Hth|Hc' Hth|Hph H|Hph ? ?|Hph|Hph Hnd|Hph ? Hth
    |r Hph ? ? ?|why a todo Hph|why Hph].
  - same_phase d.
  - by apply inv_check.
  - by apply inv_claim.
  - by apply inv_enter.
  - by apply inv_submit.
  - by apply inv_register.
  - by apply inv_release.
  - by apply inv_return.
  - by apply inv_return.
  - same_phase d. intros op [Hop _]%elem_of_difference. auto.
  - same_phase d. auto.
  - same_phase d. eauto.
  - apply inv_thread; try done; by rewrite Hth.
  - rewrite Hph in Hp. apply inv_phase; [done|]. split; [done|]. destruct H; auto.
  - rewrite Hph in Hp. by apply inv_phase, remaining_plan.
  - apply inv_phase, remaining_plan; try done. destruct Hph as [Hph|Hph]; rewrite Hph in Hp; [done|apply Hp].
  - rewrite Hph in Hp. destruct Hp as [? [?|?]]; [|congruence]. by apply inv_phase, remaining_plan.
  - rewrite Hph in Hp. apply inv_phase; [done|apply Hp].
  - rewrite Hph in Hp. apply inv_phase, remaining_plan; [done|apply Hp|done].
  - by apply inv_todo.
  - rewrite Hph in Hp. by apply inv_phase.
Qed.

Lemma dispatch_inv d : run d → inv d.
Proof.
  apply stable_invariant; [|apply inv_step]. intros s [stop ->]. apply inv_init.
Qed.

(** Once the gate is cancelled before the thread claimed it, it stays shut. *)
Lemma gate_shut_step d d' :
  g_cancelled (gate d) = true ∧ g_running (gate d) = false → step d d' →
  g_cancelled (gate d') = true ∧ g_running (gate d') = false.
Proof.
  intros [Hc Hr] []; cbn; try done.
  - unfold thread_claim, claim_for_run. by rewrite Hc.
  - unfold tool_register. by destruct (register fut (scope d)) as [[] ?].
  - destruct a; cbn; try done. by case_decide.
Qed.
Lemma gate_shut d d' :
  rtc step d d' → inv d → g_cancelled (gate d) = true → entered (thread d) = false →
  entered (thread d') = false.
Proof.
  intros Hrtc Hinv Hc He.
  assert (inv d' ∧ g_cancelled (gate d') = true ∧ g_running (gate d') = false) as (Hinv' & _ & Hr).
  { assert (g_running (gate d) = false) as Hr by (rewrite (i_gate _ Hinv); done). clear He.
    induction Hrtc as [|d d1 d2 Hs _ IH]; [done|].
    destruct (gate_shut_step _ _ (conj Hc Hr) Hs). apply IH; try done. by eapply inv_step. }
  by rewrite <-(i_gate _ Hinv').
Qed.

(** A call whose thread finds the session stopped is dropped. *)
Lemma stopped_step d d' :
  stop d = true ∧ thread d ∈ [TQueued; TReturned Declined; TDropped] → step d d' →
  stop d' = true ∧ thread d' ∈ [TQueued; TReturned Declined; TDropped].
Proof.
  intros [Hs Hth] Hstep. destruct Hstep as
    [|H|H|H|H|fut H|fut H|H ?|H ? ?|fut|?|r ?|Hc' H|?|?|?|?|?|?|why a todo ?|?]; try done;
    try (rewrite H in Hth; set_solver); try (cbn; set_solver).
  - unfold thread_check. rewrite Hs. cbn. set_solver.
  - destruct a; cbn; try done. by case_decide.
Qed.

(** ** Theorems *)


(** No operation outlives its dispatch.  Once the dispatcher has ended the
    call in any way but its result, the scope is closed and its flag is set,
    and the only operation that can still run is one the tool has submitted
    and not yet registered; registering it is refused, cancels it, and ends
    the tool. *)
Theorem no_operation_outlives_its_dispatch (d : Dispatch) (why : Why) (Hrun : run d)
    (Hover : phase d = Over why) :
  s_cancelled (scope d) = true ∧ event (scope d) = true ∧ s_futures (scope d) = [] ∧
  ∀ op, op ∈ live d →
    thread d = TInTool (Some op) ∧ live (tool_register op d) = live d ∖ {[op]} ∧
    thread (tool_register op d) = TReturned Quit.
Proof.
  pose proof (dispatch_inv d Hrun) as [_ _ Hc Hl _ _ _ Hp]. rewrite Hover in Hp.
  destruct Hp as [_ [?|Hs] [?|He] [?|Ht] _ _ _]; try set_solver.
  split_and!; try done; [auto|]. intros op Hop.
  unfold tool_register, register. rewrite Hs. split_and!; try done.
  destruct (Hl op Hop) as [H|[H|?]]; [rewrite (Hc Hs) in H|rewrite Ht in H|done]; set_solver.
Qed.

(** Runs are built by naming their steps. *)
Ltac reduce_state :=
  match goal with |- rtc step ?d ?e => let d' := eval vm_compute in d in change (rtc step d' e) end.
Ltac go c := eapply rtc_l; [eapply c; cbn; eauto; fail|reduce_state].
Ltac unwind := repeat (eapply rtc_l; [eapply Unwind; cbn; reflexivity|reduce_state]); go Unwound.

Lemma stopped_while_submitting :
  ∃ d, run d ∧ phase d = Over Stopped ∧ 0 ∈ live d.
Proof.
  eexists. split; [exists (submitted_call false); split; [by eexists|]; reduce_state|].
  - go ThreadCheck. go ThreadClaim. go ThreadEnter. go ToolSubmit. go TaskCancelled. unwind.
    apply rtc_refl.
  - cbn. set_solver.
Qed.
Lemma no_operation_outlives_its_dispatch_witness :
  ∃ d op, op ∈ live d ∧ thread (tool_register op d) = TReturned Quit.
Proof.
  destruct stopped_while_submitting as (d & Hrun & Hover & Hop). exists d, 0. split; [done|].
  by apply (no_operation_outlives_its_dispatch d Stopped Hrun Hover).
Defined.

(** A running call can be reported as never started.  The dispatcher gives
    a call up as queued when the loop has not yet heard that it started; what
    [gate.cancel()] then returns is not looked at.  In this run the thread
    claims the call just before the ceiling: the model is told the tool never
    started while it runs, and nothing kills its subprocesses. *)
Theorem saturation_misreports_a_running_call :
  ∃ d, run d ∧ phase d = Over Saturated ∧ was_running d = Some true ∧ thread d = TInTool None ∧
    killed d = false.
Proof.
  eexists. split; [exists (submitted_call false); split; [by eexists|]; reduce_state|].
  - go ThreadCheck. go ThreadClaim. go ThreadEnter. go QueueCeiling. unwind. apply rtc_refl.
  - done.
Qed.
