(* ===== verification/ToolGate.v ===== *)
(** * The agent's tool-call gate (core/agent.py)

    [_ToolCallGate]: what stands between the calls a model proposes and the
    executor.  Calls are Python dicts that the filters change in place and that
    the assistant row is written from afterwards, so they live in a store and
    the filters pass references.  JSON text, hashing and the rendering of
    numbers are parameters. *)
From stdpp Require Import gmap sets strings pretty.
From S2P Require Import Prelude PyStr.

(** ** JSON values and schemas *)

(** [json.loads]: a float is its text and, when it is integral, its value. *)
Inductive Json :=
| JNull
| JBool (b : bool)
| JInt (n : Z)
| JFloat (repr : string) (integral : option Z)
| JStr (s : string)
| JArr (items : list Json)
| JObj (entries : list (string * Json)).
Abbreviation Args := (list (string * Json)).

Inductive JType := TString | TInteger | TNumber | TBoolean | TArray | TObject.
#[export] Instance JType_eq_dec : EqDecision JType.
Proof. solve_decision. Defined.

(** A property's schema; [sp_type] is [None] for unions and typeless ones. *)
Record Spec := mkSpec { sp_type : option JType; sp_enum : list Json; sp_items : option JType }.
Record ToolInfo := mkInfo {
  properties : gmap string Spec;
  required : list string;
  additional : bool;                (** [additionalProperties] is True *)
  idempotent : bool
}.

Definition lookup_arg (k : string) (args : Args) : option Json :=
  snd <$> (snd <$> list_find (λ e, e.1 = k) args).

(** [isinstance(value, _JSON_TYPE_CHECKS[ty])]; bool subclasses int. *)
Definition isinstance (ty : JType) (v : Json) : bool :=
  match ty, v with
  | TString, JStr _ | TBoolean, JBool _ | TArray, JArr _ | TObject, JObj _ => true
  | TInteger, (JInt _ | JBool _) => true
  | TNumber, (JInt _ | JFloat _ _ | JBool _) => true
  | _, _ => false
  end.
Definition is_null (v : Json) : bool := match v with JNull => true | _ => false end.
Definition is_bool (v : Json) : bool := match v with JBool _ => true | _ => false end.
(** The bool exception of the gate. *)
Definition accepts (ty : JType) (v : Json) : bool :=
  if is_bool v && negb (bool_decide (ty ∈ [TBoolean; TString])) then false else isinstance ty v.

Definition falsy (v : Json) : bool :=
  match v with
  | JNull | JBool false | JStr "" | JArr [] | JObj [] => true
  | JInt n | JFloat _ (Some n) => bool_decide (n = 0%Z)
  | _ => false
  end.

(** ** Validation *)
Inductive ArgError :=
| WrongType (key : string) (expected : JType)
| NotInEnum (key : string)
| WrongItem (key : string) (index : nat).

Definition all_digits (s : text) : bool :=
  bool_decide (s ≠ []) && forallb (λ c, (48 <=? c)%N && (c <=? 57)%N) s.
Fixpoint lstrip_signs (s : text) : text :=
  match s with
  | c :: s' => if bool_decide (c = 43%N ∨ c = 45%N) then lstrip_signs s' else s
  | [] => []
  end.

Section validation.
(** [float(s)], [str(number)] and Python's [in] on decoded values. *)
Variable to_float : string → option (string * option Z).
Variable py_str : Json → string.
Variable py_in : Json → list Json → bool.

Definition _coerce_json_type (v : Json) (ty : JType) : option Json :=
  match ty, v with
  | TInteger, JStr s =>
      if all_digits (lstrip_signs (strip (t s))) then JInt <$> py_int (t s) else None
  | TInteger, JFloat _ (Some n) => Some (JInt n)
  | TNumber, JStr s => (λ f, JFloat f.1 f.2) <$> to_float s
  | TBoolean, JStr s =>
      let s := lower_text (strip (t s)) in
      if decide (s = t "true") then Some (JBool true)
      else if decide (s = t "false") then Some (JBool false) else None
  | TString, JBool b => Some (JStr (if b then "true" else "false"))
  | TString, (JInt _ | JFloat _ _) => Some (JStr (py_str v))
  | _, _ => None
  end.

(** A value for a type, and whether it was coerced. *)
Definition fit (ty : JType) (v : Json) : option (Json * bool) :=
  if is_bool v && negb (bool_decide (ty ∈ [TBoolean; TString])) then None
  else if isinstance ty v then Some (v, false)
  else (λ v, (v, true)) <$> _coerce_json_type v ty.
Fixpoint fit_items (ty : JType) (i : nat) (items : list Json) : nat + (list Json * bool) :=
  match items with
  | [] => inr ([], false)
  | v :: items =>
      match fit ty v with
      | None => inl i
      | Some (v, c) =>
          match fit_items ty (S i) items with
          | inl i => inl i
          | inr (vs, cs) => inr (v :: vs, c || cs)
          end
      end
  end.

Definition check_value (key : string) (spec : Spec) (v : Json) : result ArgError (Json * bool) :=
  match sp_type spec with
  | None => Ret (v, false)
  | Some ty =>
      if is_null v then Ret (v, false) else
      match fit ty v with
      | None => Raise (WrongType key ty)
      | Some (v, c) =>
          if bool_decide (sp_enum spec ≠ []) && negb (py_in v (sp_enum spec))
          then Raise (NotInEnum key)
          else match ty, sp_items spec, v with
               | TArray, Some item, JArr items =>
                   match fit_items item 0 items with
                   | inl i => Raise (WrongItem key i)
                   | inr (items, cs) => Ret (JArr items, c || cs)
                   end
               | _, _, _ => Ret (v, c)
               end
      end
  end.
Fixpoint check_entries (props : gmap string Spec) (args : Args)
    : result ArgError (Args * list string) :=
  match args with
  | [] => Ret ([], [])
  | (k, v) :: args =>
      match check_value k (default (mkSpec None [] None) (props !! k)) v with
      | Raise e => Raise e
      | Ret (v, c) =>
          match check_entries props args with
          | Raise e => Raise e
          | Ret (rest, cs) => Ret ((k, v) :: rest, if c : bool then k :: cs else cs)
          end
      end
  end.

Inductive Note := Aliased (from to : string) | IgnoredUnknown (keys : list string) | Coerced (keys : list string).
(** The notes, and the arguments or the error. *)
Definition _validate_arg_types (tool : ToolInfo) (args : Args) : list Note * result ArgError Args :=
  if decide (properties tool = ∅) then ([], Ret args) else
  let unknown := filter (λ k, properties tool !! k = None) args.*1 in
  let strip_them := bool_decide (unknown ≠ []) && negb (additional tool) in
  let args := if strip_them then filter (λ e, properties tool !! e.1 ≠ None) args else args in
  let noted := if strip_them then [IgnoredUnknown unknown] else [] in
  match check_entries (properties tool) args with
  | Raise e => (noted, Raise e)
  | Ret (args, []) => (noted, Ret args)
  | Ret (args, coerced) => (noted ++ [Coerced coerced], Ret args)
  end.
End validation.

(** ** The gate *)

(** [arguments] as the provider sent it: text, or a decoded value. *)
Inductive RawArgs := Text (s : string) | Parsed (v : Json).
Record TCall := mkTCall { c_id : string; c_name : string; c_args : RawArgs; c_rejected : bool }.
#[export] Instance TCall_settable : Settable TCall := λ c,
  mkTCall (c_id c) (c_name c) (c_args c) (c_rejected c).
#[export] Instance TCall_inhabited : Inhabited TCall := populate (mkTCall "" "" (Text "") false).

Inductive Refusal :=
| DuplicateCall
| AlreadyExecuted (round : nat) (prior : string)
| NearDuplicate
| UseToolNeedsName
| UseToolNotObject
| NoSuchTool (name : string)
| BadJson
| NotAnObject
| MissingParams (names : list string)
| TypeMismatch (e : ArgError).
Inductive GateEvent :=
| Intercepted (name action : string)     (** [tool.call.intercepted] *)
| CallError (name : string).             (** [tool.call] with [was_error] *)

Record GateState := mkGateState {
  objs : list TCall;                     (** every call object, by reference *)
  proposed : list nat;
  notes : list (string * Note);          (** keyed by call id *)
  rejected : list (nat * Refusal);
  wrapped : gmap string nat;             (** call id to the use_tool call *)
  cross_round : gmap string (nat * string);
  failures : list (string * string);     (** [tool_failures], one entry each *)
  log : list GateEvent
}.
#[export] Instance GateState_settable : Settable GateState := λ g,
  mkGateState (objs g) (proposed g) (notes g) (rejected g) (wrapped g) (cross_round g) (failures g)
    (log g).

Definition obj (g : GateState) (r : nat) : TCall := objs g !!! r.
Definition set_obj (r : nat) (f : TCall → TCall) (g : GateState) : GateState :=
  g <| objs ::= alter f r |>.

Definition _SEMANTIC_DEDUP_TOOLS : list string := ["call_model"].
Definition _CROSS_ROUND_DEDUP_EXCLUDED : list string := ["file_read"; "glob"].
Definition _STATE_MUTATING_TOOLS : list string := ["file_write"; "file_edit"; "multiedit"].
Definition _TOOL_ALIASES : list (string * string) :=
  [("get_worker_output", "get_worker_result"); ("worker_get", "get_worker_result");
   ("wait_for_workers", "await_workers")].
Definition stripped (s : string) : text := strip (t s).
Definition text_string (s : text) : string := foldr (λ c acc, String (Ascii.ascii_of_N c) acc) "" s.

Section gate.
Context (tools : gmap string ToolInfo) (disabled : gset string).
(** JSON and hashing: [json.loads] ([None] is an error), [json.dumps],
    [_hash_args], [str(args)], [==] on decoded values, [casefold]. *)
Context (loads : string → option Json) (dumps : Json → string) (hash : RawArgs → string)
  (py_str : Json → string) (py_eq : Json → Json → bool) (casefold : text → text)
  (to_float : string → option (string * option Z)) (py_in : Json → list Json → bool).

Definition key_of (c : TCall) : string := c_name c +:+ ":" +:+ hash (c_args c).

(** *** Refusing *)
Definition _rejected_call_args (raw : RawArgs) : string :=
  let wrap (s : string) :=
    dumps (JObj [("_raw_arguments"%string, JStr (String.substring 0 1000 s))]) in
  match raw with
  | Parsed (JObj entries) => dumps (JObj entries)
  | Parsed JNull => wrap ""
  | Parsed v => wrap (py_str v)
  | Text s =>
      if decide (stripped s = []) then "{}"
      else match loads s with Some (JObj _) => s | _ => wrap s end
  end.

Definition _refuse (r : nat) (message : Refusal) (g : GateState) : GateState :=
  let c := obj g r in
  let id := if decide (c_id c = "")%string
            then "rejected_" +:+ pretty (length (rejected g)) +:+ "_" +:+ hash (c_args c)
            else c_id c in
  let g := set_obj r (λ c, mkTCall id (c_name c) (Text (_rejected_call_args (c_args c))) true) g in
  let g := match wrapped g !! id with
           | Some w => set_obj w (λ c, c <| c_rejected := true |>) g
           | None => g
           end in
  g <| rejected ::= λ l, l ++ [(r, message)] |>.
Definition _reject (r : nat) (message : Refusal) (g : GateState) : GateState :=
  let c := obj g r in
  _refuse r message
    (g <| failures ::= λ l, l ++ [(c_name c, hash (c_args c))] |> <| log ::= λ l, l ++ [CallError (c_name c)] |>).
Definition _note (r : nat) (n : Note) (g : GateState) : GateState :=
  g <| notes ::= λ l, l ++ [(c_id (obj g r), n)] |>.
Definition _emit_intercepted (name action : string) (g : GateState) : GateState :=
  g <| log ::= λ l, l ++ [Intercepted name action] |>.

(** *** use_tool *)

(** The outer object and the inner arguments; ({}, None) when decoding fails. *)
Definition unpack (raw : RawArgs) : Args * option Json :=
  let outer := match raw with
               | Text s => if decide (s = "")%string then Some (JObj []) else loads s
               | Parsed v => Some (if falsy v then JObj [] else v)
               end in
  match outer with
  | Some (JObj entries) =>
      match default (JObj []) (lookup_arg "arguments" entries) with
      | JStr s => if decide (stripped s = []) then (entries, Some (JObj []))
                  else match loads s with Some v => (entries, Some v) | None => ([], None) end
      | v => (entries, Some v)
      end
  | _ => ([], None)
  end.
(** The named tool and its arguments. *)
Definition inner_call (raw : RawArgs) : Refusal + (string * Args) :=
  let '(outer, inner) := unpack raw in
  match lookup_arg "name" outer with
  | Some (JStr n) =>
      let n := text_string (stripped n) in
      if bool_decide (n = ""%string ∨ n = "use_tool"%string) then inl UseToolNeedsName else
      match inner with
      | None => inr (n, [])
      | Some v => if falsy v then inr (n, [])
                  else match v with JObj entries => inr (n, entries) | _ => inl UseToolNotObject end
      end
  | _ => inl UseToolNeedsName
  end.
Fixpoint _unwrap_use_tool (calls : list nat) (g : GateState) : list nat * GateState :=
  match calls with
  | [] => ([], g)
  | r :: calls =>
      let c := obj g r in
      if decide (stripped (c_name c) ≠ t "use_tool") then
        let '(out, g) := _unwrap_use_tool calls g in (r :: out, g)
      else
        let id := if decide (c_id c = "")%string
                  then "use_tool_" +:+ pretty (size (wrapped g)) +:+ "_" +:+ hash (c_args c)
                  else c_id c in
        let g := set_obj r (λ c, c <| c_id := id |>) g in
        match inner_call (c_args c) with
        | inl problem => _unwrap_use_tool calls (_reject r problem g)
        | inr (name, args) =>
            let copy := mkTCall id name (Text (dumps (JObj args))) (c_rejected c) in
            let r' := length (objs g) in
            let g := g <| objs ::= λ l, l ++ [copy] |> <| wrapped ::= insert id r |> in
            let '(out, g) := _unwrap_use_tool calls g in (r' :: out, g)
        end
  end.

(** *** Deduplication *)
Fixpoint _dedup (seen : gset string) (calls : list nat) (g : GateState) : list nat * GateState :=
  match calls with
  | [] => ([], g)
  | r :: calls =>
      let c := obj g r in
      let key := key_of c in
      if decide (key ∈ seen) then _dedup seen calls (_refuse r DuplicateCall g) else
      let seen := {[ key ]} ∪ seen in
      let reusable := match tools !! c_name c with Some tool => idempotent tool | None => true end in
      match cross_round g !! key with
      | Some (round, prior) =>
          if bool_decide (c_name c ∉ _CROSS_ROUND_DEDUP_EXCLUDED) && reusable
          then _dedup seen calls (_refuse r (AlreadyExecuted round prior) g)
          else let '(out, g) := _dedup seen calls g in (r :: out, g)
      | None => let '(out, g) := _dedup seen calls g in (r :: out, g)
      end
  end.

(** [_parse_args_dict]: whatever the JSON root is; {} when it does not parse. *)
Definition _parse_args_dict (c : TCall) : Json :=
  match c_args c with
  | Parsed (JObj e) => JObj e
  | Text s => if decide (stripped s = []) then JObj [] else default (JObj []) (loads s)
  | Parsed _ => JObj []
  end.
Definition _normalized_prompt (args : Args) : text :=
  let prompt := default JNull (lookup_arg "prompt" args) in
  let s := if falsy prompt then "" else match prompt with JStr s => s | v => py_str v end in
  casefold (join_with (t " ") (split_words (t s))).
(** [None]: one of the roots has no [get]. *)
Definition _is_near_duplicate_call (a b : TCall) : option bool :=
  match _parse_args_dict a, _parse_args_dict b with
  | JObj a, JObj b =>
      let same k := py_eq (default (JStr "") (lookup_arg k a)) (default (JStr "") (lookup_arg k b)) in
      Some (same "model"%string && same "image_path"%string && same "system"%string &&
            bool_decide (_normalized_prompt a = _normalized_prompt b))
  | _, _ => None
  end.
Fixpoint any_near (c : TCall) (kept : list TCall) : option bool :=
  match kept with
  | [] => Some false
  | k :: kept =>
      match _is_near_duplicate_call c k with
      | None => None
      | Some true => Some true
      | Some false => any_near c kept
      end
  end.
Fixpoint keep_distinct (kept : list nat) (group : list nat) (g : GateState)
    : option (list nat * GateState) :=
  match group with
  | [] => Some (kept, g)
  | r :: group =>
      match any_near (obj g r) (obj g <$> kept) with
      | None => None
      | Some true => keep_distinct kept group (_refuse r NearDuplicate g)
      | Some false => keep_distinct (kept ++ [r]) group g
      end
  end.
(** [by_name.setdefault(name, []).append(tc)] *)
Fixpoint add_to_group (name : string) (r : nat) (groups : list (string * list nat)) : list (string * list nat) :=
  match groups with
  | [] => [(name, [r])]
  | (n, rs) :: groups => if decide (n = name) then (n, rs ++ [r]) :: groups
                         else (n, rs) :: add_to_group name r groups
  end.
Definition by_name (g : GateState) (calls : list nat) : list (string * list nat) :=
  foldl (λ groups r, add_to_group (c_name (obj g r)) r groups) [] calls.
Fixpoint dedup_groups (groups : list (string * list nat)) (g : GateState)
    : option (list nat * GateState) :=
  match groups with
  | [] => Some ([], g)
  | (name, rs) :: groups =>
      match (match rs with
             | first :: second :: others =>
                 if decide (name ∈ _SEMANTIC_DEDUP_TOOLS) then keep_distinct [first] (second :: others) g
                 else Some (rs, g)
             | _ => Some (rs, g)
             end) with
      | None => None
      | Some (kept, g) =>
          match dedup_groups groups g with
          | None => None
          | Some (out, g) => Some (kept ++ out, g)
          end
      end
  end.
(** [None]: an AttributeError escapes. *)
Definition _semantic_dedup (calls : list nat) (g : GateState) : option (list nat * GateState) :=
  if length calls <=? 1 then Some (calls, g) else dedup_groups (by_name g calls) g.

(** *** Names *)
Definition correct_name (active_tools : list string) (r : nat) (g : GateState) : GateState :=
  let name := text_string (stripped (c_name (obj g r))) in
  let g := set_obj r (λ c, c <| c_name := name |>) g in
  match snd <$> (snd <$> list_find (λ e, e.1 = name) _TOOL_ALIASES) with
  | Some aliased =>
      if bool_decide (is_Some (tools !! aliased) ∧ aliased ∉ disabled ∧ aliased ∈ active_tools) then
        _emit_intercepted aliased "aliased"
          (_note r (Aliased name aliased) (set_obj r (λ c, c <| c_name := aliased |>) g))
      else g
  | None => g
  end.
Fixpoint _correct_names (active_tools : list string) (calls : list nat) (g : GateState)
    : list nat * GateState :=
  match calls with
  | [] => ([], g)
  | r :: calls =>
      let g := correct_name active_tools r g in
      let name := c_name (obj g r) in
      match tools !! name with
      | None => _correct_names active_tools calls
                  (_reject r (NoSuchTool name) (_emit_intercepted name "rejected" g))
      | Some _ => let '(out, g) := _correct_names active_tools calls g in (r :: out, g)
      end
  end.

(** *** Arguments *)
Definition parse_args (raw : RawArgs) : Refusal + Args :=
  let parsed := match raw with
                | Text s => if decide (s = "")%string then Some (JObj []) else loads s
                | Parsed v => Some (if falsy v then JObj [] else v)
                end in
  match parsed with
  | None => inl BadJson
  | Some (JObj args) => inr args
  | Some _ => inl NotAnObject
  end.
Definition missing_params (tool : ToolInfo) (args : Args) : list string :=
  filter (λ p, lookup_arg p args = None) (required tool).
Definition note_action (n : Note) : string :=
  match n with IgnoredUnknown _ => "stripped_params" | _ => "coerced" end.
(** One call of a tool that has a schema. *)
Definition validate_call (r : nat) (tool : ToolInfo) (args : Args) (g : GateState)
    : option Args * GateState :=
  match missing_params tool args with
  | p :: ps => (None, _reject r (MissingParams (p :: ps)) g)
  | [] =>
      let '(new_notes, res) := _validate_arg_types to_float py_str py_in tool args in
      let g := foldl (λ g n, _note r n g) g new_notes in
      let name := c_name (obj g r) in
      match res with
      | Raise e => (None, _reject r (TypeMismatch e) (_emit_intercepted name "rejected" g))
      | Ret args => (Some args, foldl (λ g n, _emit_intercepted name (note_action n) g) g new_notes)
      end
  end.
Fixpoint _parse_and_validate (calls : list nat) (g : GateState) : list (nat * Args) * GateState :=
  match calls with
  | [] => ([], g)
  | r :: calls =>
      match parse_args (c_args (obj g r)) with
      | inl problem => _parse_and_validate calls (_reject r problem g)
      | inr args =>
          match (match tools !! c_name (obj g r) with
                 | Some tool => validate_call r tool args g
                 | None => (Some args, g)
                 end) with
          | (None, g) => _parse_and_validate calls g
          | (Some args, g) => let '(out, g) := _parse_and_validate calls g in ((r, args) :: out, g)
          end
      end
  end.

(** *** One round *)
Definition new_round (calls : list TCall) (g : GateState) : GateState :=
  mkGateState calls (seq 0 (length calls)) [] [] ∅ (cross_round g) (failures g) (log g).
Definition gate_admit (calls : list TCall) (active_tools : list string) (g : GateState)
    : option (list (nat * Args) * GateState) :=
  let g := new_round calls g in
  let '(cs, g) := _unwrap_use_tool (proposed g) g in
  let '(cs, g) := _dedup ∅ cs g in
  match _semantic_dedup cs g with
  | None => None
  | Some (cs, g) =>
      let '(cs, g) := _correct_names active_tools cs g in
      Some (_parse_and_validate cs g)
  end.

(** What the caller writes: the assistant row's calls, and after it one
    tool row per refusal, under the refused call's id. *)
Definition proposed_calls (g : GateState) : list TCall := obj g <$> proposed g.
Definition flush_rejections (g : GateState) : list (string * Refusal) :=
  (λ e, (c_id (obj g e.1), e.2)) <$> rejected g.

(** *** The cache of answered calls *)
Definition is_bash_key (k : string) : bool := starts_with (t "bash:") (t k).
Definition remember_success (name : string) (raw : RawArgs) (round : nat) (content : string)
    (g : GateState) : GateState :=
  let key := name +:+ ":" +:+ hash raw in
  let g := if bool_decide (name ∉ _CROSS_ROUND_DEDUP_EXCLUDED)
           then g <| cross_round ::= insert key (round, String.substring 0 200 content) |> else g in
  if bool_decide (name ∈ _STATE_MUTATING_TOOLS)
  then g <| cross_round ::= filter (λ e, is_bash_key e.1 = false) |>
  else if bool_decide (name = "bash"%string)
  then g <| cross_round ::= filter (λ e, is_bash_key e.1 = false ∨ e.1 = "bash:" +:+ hash raw) |>
  else g.
End gate.

(** ** Every proposed call is settled once *)
Lemma obj_set r f g r' :
  r < length (objs g) → obj (set_obj r f g) r' = if decide (r' = r) then f (obj g r) else obj g r'.
Proof.
  intros Hr. unfold obj, set_obj. cbn. rewrite !list_lookup_total_alt.
  destruct (decide (r' = r)) as [->|Hne].
  - rewrite list_lookup_alter_eq. destruct (lookup_lt_is_Some_2 _ _ Hr) as [c ->]. done.
  - by rewrite list_lookup_alter_ne.
Qed.
Lemma length_set_obj r f g : length (objs (set_obj r f g)) = length (objs g).
Proof. apply length_alter. Qed.
Lemma obj_append r c g :
  obj (g <| objs ::= λ l, l ++ [c] |>) r = if decide (r = length (objs g)) then c else obj g r.
Proof.
  unfold obj. cbn. rewrite !list_lookup_total_alt. case_decide as Hr; [subst|].
  - by rewrite list_lookup_middle.
  - destruct (decide (r < length (objs g))); [by rewrite lookup_app_l|].
    rewrite !lookup_ge_None_2; [done|lia|rewrite length_app; cbn; lia].
Qed.

Section settled.
Context (tools : gmap string ToolInfo) (disabled : gset string).
Context (loads : string → option Json) (dumps : Json → string) (hash : RawArgs → string)
  (py_str : Json → string) (py_eq : Json → Json → bool) (casefold : text → text)
  (to_float : string → option (string * option Z)) (py_in : Json → list Json → bool).
(** A dumped object loads as an object. *)
Context (dumps_object : ∀ entries, ∃ entries', loads (dumps (JObj entries)) = Some (JObj entries'))
  (loads_empty : loads "{}" = Some (JObj [])).

Definition object_args (raw : RawArgs) : Prop :=
  match raw with
  | Text s => ∃ entries, loads s = Some (JObj entries)
  | Parsed v => ∃ entries, v = JObj entries
  end.
Lemma rejected_args_object raw : object_args (Text (_rejected_call_args loads dumps py_str raw)).
Proof.
  unfold _rejected_call_args. destruct raw as [s|v]; [|destruct v; apply dumps_object].
  case_decide; [by exists []|].
  destruct (loads s) as [v|] eqn:Hl; [|apply dumps_object].
  destruct v; try apply dumps_object. by eexists.
Qed.
Lemma inner_call_object raw call : inner_call loads raw = inr call → object_args raw.
Proof.
  unfold inner_call, unpack. intros H.
  destruct raw as [s|v]; cbn.
  - case_decide; [done|]. destruct (loads s) as [[]|]; try done. by eexists.
  - destruct (falsy v) eqn:Hf; [done|]. destruct v; try done. by eexists.
Qed.

(** The calls still under way are [cur]; [own] maps each call settled or
    under way to the proposal it stands for, itself or the use_tool call it was
    unwrapped from. *)
Record inv (n : nat) (own : nat → nat) (cur : list nat) (g : GateState) : Prop := {
  i_proposed : proposed g = seq 0 n;
  i_length : n ≤ length (objs g);
  i_bound : ∀ r, r ∈ cur ++ (rejected g).*1 → r < length (objs g);
  i_perm : own <$> (cur ++ (rejected g).*1) ≡ₚ seq 0 n;
  i_own : ∀ r, r ∈ cur ++ (rejected g).*1 → own r = r ∨
    c_id (obj g (own r)) = c_id (obj g r) ∧ c_id (obj g r) ≠ ""%string ∧
    is_Some (wrapped g !! c_id (obj g r));
  i_wrapped : ∀ id w, wrapped g !! id = Some w →
    w < n ∧ w ∉ cur ++ (rejected g).*1 ∧ c_id (obj g w) = id ∧ object_args (c_args (obj g w));
  i_cur : ∀ r, r ∈ cur → c_rejected (obj g r) = false;
  i_rejected : ∀ r, r ∈ (rejected g).*1 → c_id (obj g r) ≠ ""%string ∧
    ∃ p, p < n ∧ c_id (obj g p) = c_id (obj g r) ∧ c_rejected (obj g p) = true ∧
         object_args (c_args (obj g p))
}.

Lemma inv_NoDup n own cur g : inv n own cur g → NoDup (cur ++ (rejected g).*1).
Proof. intros Hi. eapply (NoDup_fmap_1 own). rewrite (i_perm _ _ _ _ Hi). apply NoDup_seq. Qed.
Lemma inv_own_lt n own cur g r : inv n own cur g → r ∈ cur ++ (rejected g).*1 → own r < n.
Proof.
  intros Hi Hr. assert (own r ∈ seq 0 n) as H%elem_of_seq; [|lia].
  rewrite <-(i_perm _ _ _ _ Hi). by apply list_elem_of_fmap_2.
Qed.
Lemma inv_own_inj n own cur g r r' :
  inv n own cur g → r ∈ cur ++ (rejected g).*1 → r' ∈ cur ++ (rejected g).*1 → own r = own r' → r = r'.
Proof.
  intros Hi Hr Hr' Heq. pose proof (NoDup_seq 0 n) as Hnd. rewrite <-(i_perm _ _ _ _ Hi) in Hnd.
  apply list_elem_of_lookup in Hr as [i Hi1]. apply list_elem_of_lookup in Hr' as [j Hj].
  assert (i = j) as ->; [|congruence].
  eapply NoDup_lookup; [exact Hnd|by rewrite list_lookup_fmap, Hi1|by rewrite list_lookup_fmap, Hj, Heq].
Qed.

(** Only the objects, the proposals, the refusals and the wrappers matter, and
    of an object not its name. *)
Lemma inv_frame n own cur g g' :
  (∀ r, c_id (obj g' r) = c_id (obj g r) ∧ c_args (obj g' r) = c_args (obj g r) ∧
        c_rejected (obj g' r) = c_rejected (obj g r)) →
  length (objs g') = length (objs g) → proposed g' = proposed g → rejected g' = rejected g →
  wrapped g' = wrapped g → inv n own cur g → inv n own cur g'.
Proof.
  intros Ho Hl Hp Hr Hw Hi. destruct Hi as [H1 H2 H3 H4 H5 H6 H7 H8].
  split; rewrite ?Hp, ?Hl, ?Hr, ?Hw; try done.
  - intros r Hin. destruct (Ho r) as (-> & _ & _). destruct (Ho (own r)) as (-> & _ & _). auto.
  - intros id w Hin. destruct (Ho w) as (-> & -> & _). auto.
  - intros r Hin. destruct (Ho r) as (_ & _ & ->). auto.
  - intros r Hin. destruct (H8 r Hin) as (? & p & ?). destruct (Ho r) as (-> & _ & _). split; [done|].
    exists p. destruct (Ho p) as (-> & -> & ->). done.
Qed.

Lemma inv_perm n own cur cur' g : cur ≡ₚ cur' → inv n own cur g → inv n own cur' g.
Proof.
  intros Hp [H1 H2 H3 H4 H5 H6 H7 H8]. split; try done.
  - intros r. rewrite <-Hp. auto.
  - by rewrite <-Hp.
  - intros r. rewrite <-Hp. auto.
  - intros id w. rewrite <-Hp. auto.
  - intros r. rewrite <-Hp. auto.
Qed.

Lemma pretty_prefix_nonempty (p s : string) : p ≠ ""%string → p +:+ s ≠ ""%string.
Proof. destruct p; [done|]. intros _. by change (String a (p +:+ s) ≠ ""%string). Qed.

(** What refusing the call [r] does to the objects. *)
Record refusal (r : nat) (cur : list nat) (g g' : GateState) : Prop := {
  f_length : length (objs g') = length (objs g);
  f_proposed : proposed g' = proposed g;
  f_rejected : rejected g' = rejected g;
  f_wrapped : wrapped g' = wrapped g;
  f_other : ∀ x, x ≠ r → c_id (obj g' x) = c_id (obj g x) ∧ c_args (obj g' x) = c_args (obj g x);
  f_cur : ∀ x, x ∈ cur → c_rejected (obj g' x) = c_rejected (obj g x);
  f_stay : ∀ x, c_rejected (obj g x) = true → c_rejected (obj g' x) = true;
  f_id : c_id (obj g' r) ≠ ""%string;
  f_same : c_id (obj g r) ≠ ""%string → c_id (obj g' r) = c_id (obj g r);
  f_args : object_args (c_args (obj g' r));
  f_stamp : c_rejected (obj g' r) = true;
  f_wrapper : ∀ w, wrapped g !! c_id (obj g' r) = Some w → c_rejected (obj g' w) = true
}.

Lemma refusal_settles n own r m cur g g' :
  inv n own (r :: cur) g → refusal r cur g g' →
  inv n own cur (g' <| rejected ::= λ l, l ++ [(r, m)] |>).
Proof.
  intros Hi [L1 L4 L2 L3 Hother Hcur Hstay Hid Hsame Hargs Hstamp Hwrap].
  pose proof (inv_NoDup _ _ _ _ Hi) as Hnd. pose proof Hi as [H1 H2 H3 H4 H5 H6 H7 H8].
  assert (∀ x, x ∈ cur ++ (rejected g ++ [(r, m)]).*1 ↔ x ∈ (r :: cur) ++ (rejected g).*1) as Hmem.
  { intros x. rewrite fmap_app. cbn. rewrite !elem_of_app, !elem_of_cons. rewrite elem_of_nil, elem_of_app. tauto. }
  assert (∀ x, x ∈ cur ++ (rejected g).*1 → x ≠ r) as Hxr.
  { intros x Hx ->. by apply NoDup_cons in Hnd as [? _]. }
  assert (∀ id' w, wrapped g !! id' = Some w → w ≠ r) as Hwr.
  { intros id' w Hw ->. destruct (H6 _ _ Hw) as (_ & Hn & _). apply Hn. left. }
  assert (∀ x, c_id (obj g x) ≠ ""%string → c_id (obj g' x) = c_id (obj g x)) as Hids.
  { intros x Hx. destruct (decide (x = r)) as [->|]; [auto|by apply Hother]. }
  split.
  - cbn. congruence.
  - cbn. lia.
  - cbn. rewrite L1, L2. intros x Hx%Hmem. auto.
  - cbn. rewrite L2, <-H4. cbn. rewrite !fmap_app. cbn. solve_Permutation.
  - change (∀ x, x ∈ cur ++ (rejected g' ++ [(r, m)]).*1 → own x = x ∨
      c_id (obj g' (own x)) = c_id (obj g' x) ∧ c_id (obj g' x) ≠ ""%string ∧
      is_Some (wrapped g' !! c_id (obj g' x))).
    rewrite L2, L3. intros x Hx%Hmem. destruct (H5 x Hx) as [?|(Heq & Hne & Hsome)]; [by left|].
    right. rewrite (Hids x Hne). split_and!; try done. rewrite Hids; congruence.
  - cbn. rewrite L2, L3. intros id' w Hw. destruct (H6 _ _ Hw) as (? & Hn & ? & ?).
    destruct (Hother w (Hwr _ _ Hw)) as [Hwi Hwa]. rewrite Hmem.
    change (w < n ∧ w ∉ (r :: cur) ++ (rejected g).*1 ∧ c_id (obj g' w) = id' ∧ object_args (c_args (obj g' w))).
    by rewrite Hwi, Hwa.
  - intros x Hx. change (c_rejected (obj g' x) = false). rewrite Hcur by done. apply H7. by right.
  - cbn. rewrite L2, fmap_app. intros x [Hx| ->%list_elem_of_singleton]%elem_of_app.
    + destruct (H8 x Hx) as (Hne & p & Hp & Hpi & Hpr & Hpa).
      assert (p ≠ r) as Hpne by (intros ->; rewrite H7 in Hpr; [done|left]).
      destruct (Hother p Hpne) as [Hoi Hoa]. pose proof (Hids x Hne) as Hx'.
      change (c_id (obj g' x) ≠ ""%string ∧ ∃ p, p < n ∧ c_id (obj g' p) = c_id (obj g' x) ∧
        c_rejected (obj g' p) = true ∧ object_args (c_args (obj g' p))).
      rewrite Hx'. split; [done|]. exists p. rewrite Hoi, Hoa. auto.
    + change (c_id (obj g' r) ≠ ""%string ∧ ∃ p, p < n ∧ c_id (obj g' p) = c_id (obj g' r) ∧
        c_rejected (obj g' p) = true ∧ object_args (c_args (obj g' p))).
      split; [done|]. destruct (H5 r ltac:(left)) as [Hown|(_ & Hne & w & Hw)].
      * exists r. split_and!; try done. rewrite <-Hown. eapply inv_own_lt; [done|left].
      * exists w. destruct (H6 _ _ Hw) as (? & _ & Hwi & Hwa). destruct (Hother w (Hwr _ _ Hw)) as [Hoi Hoa].
        rewrite Hoi, Hoa, (Hsame Hne). split_and!; try done. apply Hwrap. by rewrite Hsame.
Qed.

Lemma refuse_is_refusal n own r m cur g :
  inv n own (r :: cur) g →
  ∃ g', refusal r cur g g' ∧
    _refuse loads dumps hash py_str r m g = g' <| rejected ::= λ l, l ++ [(r, m)] |>.
Proof.
  intros Hi. pose proof (inv_NoDup _ _ _ _ Hi) as Hnd. pose proof Hi as [_ _ H3 _ _ H6 H7 _].
  unfold _refuse. set (id := if decide (c_id (obj g r) = "")%string then _ else _).
  assert (id ≠ ""%string) as Hid.
  { unfold id. case_decide; [|done]. by apply pretty_prefix_nonempty. }
  assert (r < length (objs g)) as Hr by (apply H3; left).
  set (f := λ c, mkTCall id (c_name c) (Text (_rejected_call_args loads dumps py_str (c_args c))) true).
  set (g1 := set_obj r f g).
  assert (∀ x, obj g1 x = if decide (x = r) then f (obj g r) else obj g x) as Hg1
    by (intros; by apply obj_set).
  eexists. split; [|reflexivity].
  assert (∀ id' w, wrapped g !! id' = Some w → w ≠ r ∧ w ∉ cur ∧ w < length (objs g1)) as Hwr.
  { intros id' w Hw. destruct (H6 _ _ Hw) as (? & Hn & _). unfold g1. rewrite length_set_obj.
    pose proof (i_length _ _ _ _ Hi). split_and!; [set_solver|set_solver|lia]. }
  set (g2 := match wrapped g1 !! id with Some w => _ | None => _ end).
  assert (∀ x, obj g2 x = if decide (wrapped g !! id = Some x) then (obj g1 x) <| c_rejected := true |> else obj g1 x) as Hg2.
  { intros x. unfold g2. change (wrapped g1) with (wrapped g).
    destruct (wrapped g !! id) as [w|] eqn:Hw; [|by rewrite decide_False].
    rewrite obj_set by (apply (Hwr _ _ Hw)). repeat case_decide; naive_solver. }
  assert (length (objs g2) = length (objs g) ∧ proposed g2 = proposed g ∧ rejected g2 = rejected g ∧
          wrapped g2 = wrapped g) as (? & ? & ? & ?).
  { unfold g2. destruct (wrapped g1 !! id); unfold g1; cbn; rewrite ?length_alter; done. }
  assert (obj g2 r = f (obj g r)) as Hobr.
  { rewrite Hg2, decide_False by (intros Hw; by destruct (Hwr _ _ Hw) as (? & ? & _)). by rewrite Hg1, decide_True. }
  clearbody g2. split; try done; rewrite ?Hobr; try done.
  - intros x Hx. rewrite Hg2, Hg1, (decide_False (P := x = r)) by done. by case_decide.
  - intros x Hx. rewrite Hg2, decide_False by (intros Hw; by destruct (Hwr _ _ Hw) as (? & ? & _)).
    rewrite Hg1. case_decide as Hxr; [|done]. subst x. apply NoDup_cons in Hnd as [Hn _]. destruct Hn. apply elem_of_app. by left.
  - intros x Hx. rewrite Hg2, Hg1. repeat case_decide; done.
  - cbn. unfold id. intros. by rewrite decide_False.
  - apply rejected_args_object.
  - cbn. intros w Hw. by rewrite Hg2, decide_True.
Qed.

(** Refusing a call under way settles it. *)
Lemma refuse_inv n own r m cur g :
  inv n own (r :: cur) g → inv n own cur (_refuse loads dumps hash py_str r m g).
Proof.
  intros Hi. destruct (refuse_is_refusal n own r m cur g Hi) as (g' & Hr & ->).
  by eapply refusal_settles.
Qed.
Lemma call_reject_inv n own r m cur g :
  inv n own (r :: cur) g → inv n own cur (_reject loads dumps hash py_str r m g).
Proof. intros Hi. unfold _reject. apply refuse_inv. by eapply inv_frame; [..|exact Hi]. Qed.
Lemma refuse_mid n own r m pre cur g :
  inv n own (pre ++ r :: cur) g → inv n own (pre ++ cur) (_refuse loads dumps hash py_str r m g).
Proof. intros Hi. apply refuse_inv. by eapply inv_perm; [symmetry; apply Permutation_middle|]. Qed.
Lemma reject_mid n own r m pre cur g :
  inv n own (pre ++ r :: cur) g → inv n own (pre ++ cur) (_reject loads dumps hash py_str r m g).
Proof. intros Hi. apply call_reject_inv. by eapply inv_perm; [symmetry; apply Permutation_middle|]. Qed.

(** Each filter settles what it does not pass on. *)
Lemma dedup_inv n own pre calls seen g :
  inv n own (pre ++ calls) g →
  let '(out, g') := _dedup tools loads dumps hash py_str seen calls g in inv n own (pre ++ out) g'.
Proof.
  revert pre seen g. induction calls as [|r calls IH]; intros pre seen g Hi; cbn [_dedup]; [done|].
  case_decide; [by apply IH, refuse_mid|].
  assert (∀ seen, let '(out, g') := (let '(out, g) := _dedup tools loads dumps hash py_str seen calls g in
      (r :: out, g)) in inv n own (pre ++ out) g') as Hkeep.
  { intros seen'. specialize (IH (pre ++ [r]) seen' g). rewrite <-app_assoc in IH. specialize (IH Hi).
    destruct (_dedup _ _ _ _ _ _ _ _) as [out g']. by rewrite <-app_assoc in IH. }
  destruct (cross_round g !! _) as [[round prior]|]; [|apply Hkeep].
  destruct (_ && _); [by apply IH, refuse_mid|apply Hkeep].
Qed.

Lemma keep_distinct_inv n own pre kept group post g out g' :
  inv n own (pre ++ kept ++ group ++ post) g →
  keep_distinct loads dumps hash py_str py_eq casefold kept group g = Some (out, g') →
  inv n own (pre ++ out ++ post) g'.
Proof.
  revert kept g. induction group as [|r group IH]; intros kept g Hi; cbn [keep_distinct].
  { by intros [= <- <-]. }
  destruct (any_near _ _ _ _ _ _) as [[]|]; [| |done]; intros Hk.
  - eapply IH; [|exact Hk]. rewrite app_assoc. apply refuse_mid. by rewrite <-app_assoc.
  - eapply IH; [|exact Hk]. by rewrite <-app_assoc.
Qed.
Lemma dedup_groups_inv n own pre groups g out g' :
  inv n own (pre ++ concat groups.*2) g →
  dedup_groups loads dumps hash py_str py_eq casefold groups g = Some (out, g') →
  inv n own (pre ++ out) g'.
Proof.
  revert pre g out. induction groups as [|[name rs] groups IH]; intros pre g out Hi; cbn [dedup_groups].
  { by intros [= <- <-]. }
  cbn in Hi. match goal with |- match ?m with _ => _ end = _ → _ => destruct m as [[kept g1]|] eqn:Hm end; [|done].
  assert (inv n own (pre ++ kept ++ concat groups.*2) g1) as Hi1.
  { destruct rs as [|first [|second others]]; [by injection Hm as <- <-..|].
    case_decide; [|by injection Hm as <- <-].
    eapply (keep_distinct_inv _ _ _ [first] (second :: others)); [|exact Hm]. done. }
  rewrite app_assoc in Hi1.
  destruct (dedup_groups _ _ _ _ _ _ groups g1) as [[out' g2]|] eqn:Hg; [|done]. intros [= <- <-].
  rewrite app_assoc. by eapply IH.
Qed.
Lemma add_to_group_concat name r groups :
  concat (add_to_group name r groups).*2 ≡ₚ concat groups.*2 ++ [r].
Proof.
  induction groups as [|[n rs] groups IH]; cbn; [done|].
  case_decide; cbn; [solve_Permutation|]. rewrite IH. solve_Permutation.
Qed.
Lemma by_name_concat g calls : concat (by_name g calls).*2 ≡ₚ calls.
Proof.
  unfold by_name. induction calls as [|r calls IH] using rev_ind; [done|].
  rewrite foldl_app. cbn. by rewrite add_to_group_concat, IH.
Qed.
Lemma semantic_inv n own calls g out g' :
  inv n own calls g → _semantic_dedup loads dumps hash py_str py_eq casefold calls g = Some (out, g') →
  inv n own out g'.
Proof.
  intros Hi. unfold _semantic_dedup. destruct (length calls <=? 1); [by intros [= <- <-]|].
  apply (dedup_groups_inv n own []). eapply inv_perm; [|exact Hi]. symmetry. apply by_name_concat.
Qed.

(** Correcting names changes nothing but names. *)
Lemma correct_name_inv n own active_tools r cur g :
  r < length (objs g) → inv n own cur g → inv n own cur (correct_name tools disabled active_tools r g).
Proof.
  intros Hr Hi. unfold correct_name. set (g1 := set_obj r _ g).
  assert (inv n own cur g1) as Hi1.
  { eapply inv_frame; [..|exact Hi]; try done; [|apply length_set_obj].
    intros x. unfold g1. rewrite obj_set by done. case_decide; by subst. }
  destruct (snd <$> _) as [aliased|]; [|done]. destruct (bool_decide _); [|done].
  eapply inv_frame; [..|exact Hi1]; try done.
  - intros x. change (obj (_emit_intercepted _ _ _) x) with (obj (set_obj r (λ c, c <| c_name := aliased |>) g1) x).
    rewrite obj_set by (unfold g1; by rewrite length_set_obj). case_decide; by subst.
  - cbn. apply length_alter.
Qed.
Lemma correct_name_other active_tools r x g :
  r < length (objs g) → x ≠ r → c_name (obj (correct_name tools disabled active_tools r g) x) = c_name (obj g x).
Proof.
  intros Hr Hx. unfold correct_name. set (g1 := set_obj r _ g).
  assert (obj g1 x = obj g x) as Hg1 by (unfold g1; by rewrite obj_set, decide_False).
  destruct (snd <$> _) as [aliased|]; [|by rewrite Hg1]. destruct (bool_decide _); [|by rewrite Hg1].
  change (obj (_emit_intercepted _ _ _) x) with (obj (set_obj r (λ c, c <| c_name := aliased |>) g1) x).
  rewrite obj_set, decide_False, Hg1; [done..|]. unfold g1. by rewrite length_set_obj.
Qed.
(** Refusing keeps every name. *)
Lemma refuse_name n own r m cur g x :
  inv n own (r :: cur) g → c_name (obj (_refuse loads dumps hash py_str r m g) x) = c_name (obj g x).
Proof.
  intros Hi. pose proof Hi as [_ Hlen H3 _ _ H6 _ _]. assert (r < length (objs g)) as Hr by (apply H3; left).
  unfold _refuse. set (id := if decide _ then _ else _). set (g1 := set_obj r _ g).
  assert (c_name (obj g1 x) = c_name (obj g x)) as Hg1.
  { unfold g1. rewrite obj_set by done. case_decide; by subst. }
  change (wrapped g1) with (wrapped g). destruct (wrapped g !! id) as [w|] eqn:Hw; [|done].
  change (c_name (obj (set_obj w (λ c, c <| c_rejected := true |>) g1) x) = c_name (obj g x)).
  rewrite obj_set; [case_decide; [subst|]; done|].
  unfold g1. rewrite length_set_obj. destruct (H6 _ _ Hw); lia.
Qed.

Lemma correct_names_inv n own active_tools pre calls g :
  inv n own (pre ++ calls) g → (∀ r, r ∈ pre → is_Some (tools !! c_name (obj g r))) →
  let '(out, g') := _correct_names tools disabled loads dumps hash py_str active_tools calls g in
  inv n own (pre ++ out) g' ∧ ∀ r, r ∈ pre ++ out → is_Some (tools !! c_name (obj g' r)).
Proof.
  revert pre g. induction calls as [|r calls IH]; intros pre g Hi Hpre; cbn [_correct_names].
  { split; [done|]. by rewrite app_nil_r. }
  assert (r < length (objs g)) as Hr by (apply (i_bound _ _ _ _ Hi); set_solver).
  pose proof (correct_name_inv n own active_tools r _ g Hr Hi) as Hi1.
  assert (∀ x, x ∈ pre → c_name (obj (correct_name tools disabled active_tools r g) x) = c_name (obj g x)) as Hother.
  { intros x Hx. apply correct_name_other; [done|]. intros ->.
    pose proof (inv_NoDup _ _ _ _ Hi) as Hnd. rewrite <-app_assoc in Hnd.
    apply NoDup_app in Hnd as (_ & Hd & _). apply (Hd r Hx). left. }
  set (g1 := correct_name tools disabled active_tools r g) in *.
  destruct (tools !! c_name (obj g1 r)) as [tool|] eqn:Htool.
  - specialize (IH (pre ++ [r]) g1). rewrite <-app_assoc in IH. specialize (IH Hi1).
    destruct (_correct_names _ _ _ _ _ _ _ calls g1) as [out g'].
    rewrite <-app_assoc in IH. apply IH. intros x [Hx| ->%list_elem_of_singleton]%elem_of_app.
    + rewrite (Hother x Hx). auto.
    + rewrite Htool. by eexists.
  - apply IH; [apply reject_mid; by eapply inv_frame; [..|exact Hi1]|]. intros x Hx.
    unfold _reject. erewrite refuse_name; [|eapply inv_frame; [..|eapply inv_perm; [symmetry; apply Permutation_middle|exact Hi1]]; done].
    change (is_Some (tools !! c_name (obj g1 x))). rewrite Hother by done. auto.
Qed.

(** Arguments that conform to a tool's schema. *)
Definition item_fits (item : option JType) (v : Json) : Prop :=
  match item, v with Some ty, JArr items => Forall (λ x, accepts ty x = true) items | _, _ => True end.
Definition conforms (spec : Spec) (v : Json) : Prop :=
  match sp_type spec with
  | None => True
  | Some ty => v = JNull ∨ accepts ty v = true ∧
      (sp_enum spec = [] ∨ ty = TArray ∨ py_in v (sp_enum spec) = true) ∧
      (ty = TArray → item_fits (sp_items spec) v)
  end.
Definition typed (tool : ToolInfo) (args : Args) : Prop :=
  (∀ p, p ∈ required tool → is_Some (properties tool !! p) ∨ additional tool = true → p ∈ args.*1) ∧
  ∀ k v, (k, v) ∈ args →
    match properties tool !! k with
    | Some spec => conforms spec v
    | None => additional tool = true ∨ properties tool = ∅
    end.

Lemma coerced_fits ty v v' : _coerce_json_type to_float py_str v ty = Some v' → accepts ty v' = true.
Proof.
  destruct ty, v as [|b|z|repr [z|]|s|items|entries]; try done; cbn; try (by intros [= <-]).
  - case_match; [|done]. destruct (py_int (t s)); [by intros [= <-]|done].
  - destruct (to_float s); [by intros [= <-]|done].
  - repeat case_decide; try done; by intros [= <-].
Qed.
Lemma fit_accepts ty v v' c : fit to_float py_str ty v = Some (v', c) → accepts ty v' = true.
Proof.
  unfold fit. destruct (is_bool v && _) eqn:Hb; [done|].
  destruct (isinstance ty v) eqn:Hi; [intros [= <- <-]; unfold accepts; by rewrite Hb|].
  destruct (_coerce_json_type _ _ v ty) eqn:Hc; [|done]. intros [= <- <-]. by eapply coerced_fits.
Qed.
Lemma fit_items_accept ty i items items' c :
  fit_items to_float py_str ty i items = inr (items', c) → Forall (λ x, accepts ty x = true) items'.
Proof.
  revert i items' c. induction items as [|v items IH]; intros i items' c; cbn; [by intros [= <- <-]|].
  destruct (fit _ _ ty v) as [[v' c']|] eqn:Hf; [|done].
  destruct (fit_items _ _ ty (S i) items) as [|[vs cs]] eqn:Hfs; [done|]. intros [= <- <-].
  constructor; [by eapply fit_accepts|by eapply IH].
Qed.
Lemma check_value_conforms k spec v v' c :
  check_value to_float py_str py_in k spec v = Ret (v', c) → conforms spec v'.
Proof.
  unfold check_value, conforms. destruct (sp_type spec) as [ty|]; [|done].
  destruct (is_null v) eqn:Hnull; [intros [= <- <-]; left; by destruct v|].
  destruct (fit _ _ ty v) as [[w cw]|] eqn:Hf; [|done]. apply fit_accepts in Hf.
  destruct (bool_decide (sp_enum spec ≠ []) && negb (py_in w (sp_enum spec))) eqn:He; [done|].
  assert (sp_enum spec = [] ∨ py_in w (sp_enum spec) = true) as Henum.
  { apply andb_false_iff in He as [He|He]; [left|right; by apply negb_false_iff].
    apply bool_decide_eq_false in He. by destruct (sp_enum spec); [|destruct He]. }
  destruct ty; try (intros [= <- <-]; right; split_and!; [done|tauto|done]).
  destruct (sp_items spec) as [item|]; [|intros [= <- <-]; right; split_and!; [done|tauto|done]].
  destruct w; try (intros [= <- <-]; right; split_and!; [done|tauto|done]).
  destruct (fit_items _ _ _ _ _) as [|[items' cs]] eqn:Hi; [done|]. intros [= <- <-].
  right. split_and!; [done|tauto|]. intros _. by eapply fit_items_accept.
Qed.
Lemma check_entries_conform props args args' cs :
  check_entries to_float py_str py_in props args = Ret (args', cs) →
  args'.*1 = args.*1 ∧ ∀ k v, (k, v) ∈ args' → conforms (default (mkSpec None [] None) (props !! k)) v.
Proof.
  revert args' cs. induction args as [|[k v] args IH]; intros args' cs; cbn; [intros [= <- <-]; set_solver|].
  destruct (check_value _ _ _ k _ v) as [[v' c]|] eqn:Hv; [|done].
  destruct (check_entries _ _ _ props args) as [[rest cs']|] eqn:Hrest; [|done]. intros [= <- <-].
  destruct (IH _ _ eq_refl) as [Hk Hc]. cbn. split; [by rewrite Hk|].
  intros k0 v0 [[= -> ->]|?]%elem_of_cons; [by eapply check_value_conforms|auto].
Qed.
Lemma lookup_arg_None k args : lookup_arg k args = None ↔ k ∉ args.*1.
Proof.
  unfold lookup_arg. rewrite !fmap_None, list_find_None, Forall_forall, list_elem_of_fmap.
  split; [intros H ([k' v] & -> & Hin); by apply (H _ Hin)|intros H [k' v] Hin <-; apply H; by eexists].
Qed.
Lemma missing_nil tool args p :
  missing_params tool args = [] → p ∈ required tool → p ∈ args.*1.
Proof.
  intros Hm Hp. apply dec_stable. intros Hn.
  assert (p ∈ missing_params tool args) as H by (apply list_elem_of_filter; by rewrite lookup_arg_None).
  rewrite Hm in H. by apply not_elem_of_nil in H.
Qed.
Lemma validated_typed tool args notes args' :
  missing_params tool args = [] →
  _validate_arg_types to_float py_str py_in tool args = (notes, Ret args') → typed tool args'.
Proof.
  intros Hm. unfold _validate_arg_types. case_decide as Hprops.
  { intros [= _ <-]. split; [intros p Hp _; by eapply missing_nil|].
    intros k v _. rewrite Hprops, lookup_empty. by right. }
  cbv zeta. set (unknown := filter _ args.*1). set (strip := bool_decide _ && _).
  set (args1 := if strip then _ else args).
  destruct (check_entries _ _ _ _ args1) as [[args2 cs]|] eqn:Hc; [|by intros [=]].
  intros Hret. assert (args' = args2) as -> by (destruct cs; congruence). clear Hret.
  apply check_entries_conform in Hc as [Hkeys Hconf].
  assert (∀ k, k ∈ args1.*1 → properties tool !! k = None → additional tool = true) as Hknown.
  { intros k Hk Hnone. unfold args1, strip in Hk. destruct (additional tool); [done|].
    rewrite andb_true_r in Hk. case_bool_decide as Hun.
    - apply list_elem_of_fmap in Hk as ([k' v] & -> & Hin). apply list_elem_of_filter in Hin as [? _]. done.
    - assert (k ∈ unknown) as Hin by by apply list_elem_of_filter.
      rewrite Hun in Hin. by apply not_elem_of_nil in Hin. }
  split.
  - intros p Hp Hkept. rewrite Hkeys. pose proof (missing_nil tool args p Hm Hp) as Hin.
    unfold args1, strip. destruct (additional tool); [by rewrite andb_false_r|].
    rewrite andb_true_r. case_bool_decide; [|done]. destruct Hkept as [Hsome|?]; [|done].
    apply list_elem_of_fmap in Hin as ([k v] & -> & Hin). apply list_elem_of_fmap. exists (k, v). split; [done|].
    apply list_elem_of_filter. split; [|done]. cbn. by apply not_eq_None_Some.
  - intros k v Hin. pose proof (Hconf k v Hin) as Hkv.
    destruct (properties tool !! k) as [spec|] eqn:Hk; [done|]. left. eapply Hknown; [|done].
    rewrite <-Hkeys. apply list_elem_of_fmap. by exists (k, v).
Qed.

(** Notes and events leave the calls alone. *)
Definition same_calls (g g' : GateState) : Prop :=
  objs g' = objs g ∧ proposed g' = proposed g ∧ rejected g' = rejected g ∧ wrapped g' = wrapped g.
Lemma same_calls_inv n own cur g g' : same_calls g g' → inv n own cur g → inv n own cur g'.
Proof.
  intros (Ho & ? & ? & ?). apply inv_frame; try done; [|by rewrite Ho].
  intros r. unfold obj. by rewrite Ho.
Qed.
Lemma fold_same {A} (f : GateState → A → GateState) l g :
  (∀ g a, same_calls g (f g a)) → same_calls g (foldl f g l).
Proof.
  intros Hf. revert g. induction l as [|a l IH]; intros g; cbn; [done|].
  unfold same_calls in *. destruct (IH (f g a)) as (-> & -> & -> & ->). apply Hf.
Qed.
Lemma validate_call_spec r tool args g res g' :
  validate_call loads dumps hash py_str to_float py_in r tool args g = (res, g') →
  match res with
  | Some args' => same_calls g g' ∧ typed tool args'
  | None => ∃ g1 m, same_calls g g1 ∧ g' = _reject loads dumps hash py_str r m g1
  end.
Proof.
  unfold validate_call. destruct (missing_params tool args) as [|p ps] eqn:Hm.
  2: { intros [= <- <-]. exists g, (MissingParams (p :: ps)). by repeat split. }
  destruct (_validate_arg_types _ _ _ tool args) as [new_notes vres] eqn:Hv.
  assert (same_calls g (foldl (λ g n, _note r n g) g new_notes)) as Hn by (apply fold_same; by repeat split).
  set (g1 := foldl (λ g n, _note r n g) g new_notes) in *. destruct vres as [args'|e]; intros [= <- <-].
  - split; [|by eapply validated_typed].
    unfold same_calls in *.
    pose proof (fold_same (λ g n, _emit_intercepted (c_name (obj g1 r)) (note_action n) g) new_notes g1 ltac:(by repeat split))
      as (-> & -> & -> & ->). exact Hn.
  - eexists _, _. split; [|done]. exact Hn.
Qed.

Lemma parse_inv n own pre calls g :
  inv n own (pre ++ calls) g → (∀ r, r ∈ calls → is_Some (tools !! c_name (obj g r))) →
  let '(out, g') := _parse_and_validate tools loads dumps hash py_str to_float py_in calls g in
  inv n own (pre ++ out.*1) g' ∧ (∀ x, c_name (obj g' x) = c_name (obj g x)) ∧
  ∀ r args, (r, args) ∈ out → ∃ tool, tools !! c_name (obj g r) = Some tool ∧ typed tool args.
Proof.
  revert pre g. induction calls as [|r calls IH]; intros pre g Hi Hnames; cbn [_parse_and_validate].
  { split_and!; [done|done|set_solver]. }
  destruct (Hnames r ltac:(left)) as [tool Htool].
  assert (∀ g1 m, same_calls g g1 →
    let '(out, g') := _parse_and_validate tools loads dumps hash py_str to_float py_in calls
                        (_reject loads dumps hash py_str r m g1) in
    inv n own (pre ++ out.*1) g' ∧ (∀ x, c_name (obj g' x) = c_name (obj g x)) ∧
    ∀ r args, (r, args) ∈ out → ∃ tool, tools !! c_name (obj g r) = Some tool ∧ typed tool args) as Hrej.
  { intros g1 m Hsame. pose proof (same_calls_inv _ _ _ _ _ Hsame Hi) as Hi1.
    assert (∀ x, c_name (obj (_reject loads dumps hash py_str r m g1) x) = c_name (obj g x)) as Hname.
    { intros x. unfold _reject. erewrite refuse_name.
      2: { eapply inv_frame; [..|eapply inv_perm; [symmetry; apply Permutation_middle|exact Hi1]]; done. }
      destruct Hsame as (Ho & _). unfold obj. cbn. by rewrite Ho. }
    specialize (IH pre (_reject loads dumps hash py_str r m g1) (reject_mid _ _ _ _ _ _ _ Hi1)).
    destruct (_parse_and_validate _ _ _ _ _ _ _ calls _) as [out g'].
    destruct IH as (? & Hn & Ht). { intros x Hx. rewrite Hname. apply Hnames. by right. }
    split_and!; [done|intros x; by rewrite Hn|]. intros x a Hxa. rewrite <-(Hname x). eauto. }
  destruct (parse_args _ _) as [problem|args]; [by apply Hrej|]. rewrite Htool.
  destruct (validate_call _ _ _ _ _ _ r tool args g) as [res g1] eqn:Hv.
  apply validate_call_spec in Hv. destruct res as [args'|].
  - destruct Hv as [Hsame Htyped]. pose proof (same_calls_inv _ _ _ _ _ Hsame Hi) as Hi1.
    assert (∀ x, obj g1 x = obj g x) as Hobj by (intros x; unfold obj; by destruct Hsame as (-> & _)).
    specialize (IH (pre ++ [r]) g1). rewrite <-app_assoc in IH. specialize (IH Hi1).
    destruct (_parse_and_validate _ _ _ _ _ _ _ calls g1) as [out g'].
    destruct IH as (Hi' & Hn & Ht). { intros x Hx. rewrite Hobj. apply Hnames. by right. }
    rewrite <-app_assoc in Hi'. split_and!; [done|intros x; by rewrite Hn, Hobj|].
    intros x a [[= -> ->]|Hxa]%elem_of_cons; [by exists tool|]. rewrite <-(Hobj x). eauto.
  - destruct Hv as (g2 & m & Hsame & ->). by apply Hrej.
Qed.

(** Unwrapping replaces a use_tool call by its copy. *)
Lemma unwrap_id_inv n own cur r id g :
  inv n own cur g → r ∈ cur → own r = r → (c_id (obj g r) ≠ ""%string → id = c_id (obj g r)) →
  inv n own cur (set_obj r (λ c, c <| c_id := id |>) g).
Proof.
  intros Hi Hr Hown Hid. pose proof Hi as [H1 H2 H3 H4 H5 H6 H7 H8].
  assert (r < length (objs g)) as Hlt by (apply H3; set_solver).
  set (g' := set_obj r _ g).
  assert (∀ x, x ≠ r → obj g' x = obj g x) as Hother by (intros; unfold g'; by rewrite obj_set, decide_False).
  assert (∀ x, c_rejected (obj g' x) = c_rejected (obj g x)) as Hrej.
  { intros x. unfold g'. rewrite obj_set by done. case_decide; by subst. }
  assert (∀ x, c_id (obj g x) ≠ ""%string → c_id (obj g' x) = c_id (obj g x)) as Hids.
  { intros x Hx. destruct (decide (x = r)) as [->|]; [|by rewrite Hother].
    unfold g'. rewrite obj_set, decide_True by done. by apply Hid. }
  assert (∀ x, x ∈ cur ++ (rejected g).*1 → own x = r → x = r) as Hinj.
  { intros x Hx Heq. eapply inv_own_inj; [done|done|set_solver|congruence]. }
  split; try done.
  - unfold g'. by rewrite length_set_obj.
  - unfold g'. by rewrite length_set_obj.
  - intros x Hx. destruct (H5 x Hx) as [?|(Heq & Hne & Hs)]; [by left|].
    destruct (decide (x = r)) as [->|Hxr]; [by left|].
    right. rewrite (Hother x Hxr). rewrite Hother; [done|]. intros Ho. by destruct Hxr; apply Hinj.
  - intros id' w Hw. destruct (H6 _ _ Hw) as (? & Hn & ? & ?). rewrite Hother; [done|]. set_solver.
  - intros x Hx. rewrite Hrej. auto.
  - intros x Hx. destruct (H8 x Hx) as (Hne & p & Hp & Hpi & Hpr & Hpa). rewrite (Hids x Hne).
    split; [done|]. exists p.
    assert (p ≠ r) as Hpr' by (intros ->; rewrite H7 in Hpr; done).
    by rewrite (Hother p Hpr').
Qed.

Lemma unwrap_copy_inv n own pre cur r name args id g :
  inv n own (pre ++ r :: cur) g → own r = r → r < n → c_id (obj g r) = id → id ≠ ""%string →
  object_args (c_args (obj g r)) →
  ∃ own', (∀ x, x ∈ cur → x < n → own' x = own x) ∧
  inv n own' (pre ++ length (objs g) :: cur)
    (g <| objs ::= λ l, l ++ [mkTCall id name args (c_rejected (obj g r))] |> <| wrapped ::= insert id r |>).
Proof.
  intros Hi Hown Hrn Hid Hne Hargs. pose proof (inv_NoDup _ _ _ _ Hi) as Hnd.
  pose proof Hi as [H1 H2 H3 H4 H5 H6 H7 H8].
  set (r' := length (objs g)). set (copy := mkTCall id name args (c_rejected (obj g r))).
  set (g' := g <| objs ::= λ l, l ++ [copy] |> <| wrapped ::= insert id r |>).
  exists (λ x, if decide (x = r') then r else own x).
  assert (∀ x, x ≠ r' → obj g' x = obj g x) as Hother.
  { intros x Hx. change (obj g' x) with (obj (g <| objs ::= λ l, l ++ [copy] |>) x). by rewrite obj_append, decide_False. }
  assert (obj g' r' = copy) as Hcopy.
  { change (obj g' r') with (obj (g <| objs ::= λ l, l ++ [copy] |>) r'). by rewrite obj_append, decide_True. }
  assert (∀ x, x ∈ (pre ++ r :: cur) ++ (rejected g).*1 → x < r') as Hold by exact H3.
  assert (∀ x, x ∈ (pre ++ r' :: cur) ++ (rejected g).*1 ↔ x = r' ∨ x ∈ pre ++ cur ++ (rejected g).*1) as Hmem.
  { intros x. rewrite !elem_of_app, !elem_of_cons. tauto. }
  assert (r ∉ pre ++ cur ++ (rejected g).*1) as Hrout.
  { rewrite <-app_assoc in Hnd. cbn in Hnd. rewrite <-Permutation_middle in Hnd. by apply NoDup_cons in Hnd as [? _]. }
  assert (∀ x, x ∈ pre ++ cur ++ (rejected g).*1 → x ∈ (pre ++ r :: cur) ++ (rejected g).*1) as Hsub.
  { intros x. rewrite !elem_of_app, !elem_of_cons. tauto. }
  split.
  { intros x Hx Hxn. rewrite decide_False; [done|]. unfold r'. lia. }
  split; change (objs g') with (objs g ++ [copy]); change (proposed g') with (proposed g);
    change (rejected g') with (rejected g); change (wrapped g') with (<[id := r]> (wrapped g)); try done.
  - rewrite length_app. lia.
  - rewrite length_app. cbn. intros x [->|Hx]%Hmem; [lia|]. specialize (Hold x (Hsub x Hx)). unfold r' in Hold. lia.
  - rewrite <-H4, <-!app_assoc. cbn. rewrite <-!Permutation_middle. cbn. rewrite decide_True, Hown by done.
    constructor. erewrite list_fmap_ext; [reflexivity|]. intros i x Hx%list_elem_of_lookup_2. cbn.
    rewrite decide_False; [done|]. specialize (Hold x (Hsub x Hx)). lia.
  - intros x [->|Hx]%Hmem.
    + right. rewrite decide_True, Hcopy, Hother by (done || unfold r'; lia). cbn.
      split_and!; [done|done|]. rewrite lookup_insert_eq. by eexists.
    + pose proof (Hold x (Hsub x Hx)). rewrite decide_False by lia.
      destruct (H5 x (Hsub x Hx)) as [?|(Heq & Hxne & Hs)]; [by left|right].
      pose proof (inv_own_lt _ _ _ _ x Hi (Hsub x Hx)). rewrite !Hother by (unfold r' in *; lia).
      split_and!; [done|done|]. destruct (decide (id = c_id (obj g x))) as [->|].
      * rewrite lookup_insert_eq. by eexists.
      * by rewrite lookup_insert_ne.
  - intros id' w. destruct (decide (id = id')) as [<-|Hidne].
    + rewrite lookup_insert_eq. intros [= <-]. rewrite Hother by (unfold r'; lia).
      split_and!; try done. rewrite Hmem. intros [?|?]; [unfold r' in *; lia|done].
    + rewrite lookup_insert_ne by done. intros Hw. destruct (H6 _ _ Hw) as (? & Hn & ? & ?).
      rewrite Hother by (unfold r'; lia). split_and!; try done. rewrite Hmem.
      intros [?|Hx]; [unfold r' in *; lia|by apply Hn, Hsub].
  - intros x Hx. destruct (decide (x = r')) as [->|].
    + rewrite Hcopy. cbn. apply H7. set_solver.
    + rewrite Hother by done. apply H7. set_solver.
  - intros x Hx. pose proof (Hold x ltac:(set_solver)).
    destruct (H8 x Hx) as (? & p & ? & ? & ? & ?). rewrite Hother by lia. split; [done|].
    exists p. rewrite Hother by (unfold r'; lia). done.
Qed.

Lemma unwrap_inv n own pre calls g :
  inv n own (pre ++ calls) g → (∀ r, r ∈ calls → r < n ∧ own r = r) →
  let '(out, g') := _unwrap_use_tool loads dumps hash py_str calls g in
  ∃ own', inv n own' (pre ++ out) g'.
Proof.
  revert pre own g. induction calls as [|r calls IH]; intros pre own g Hi Hcalls; cbn [_unwrap_use_tool].
  { by exists own. }
  destruct (Hcalls r ltac:(left)) as [Hrn Hown].
  assert (∀ x, x ∈ calls → x < n ∧ own x = x) as Hrest by (intros; apply Hcalls; by right).
  case_decide as Hname.
  { specialize (IH (pre ++ [r]) own g). rewrite <-app_assoc in IH. specialize (IH Hi Hrest).
    destruct (_unwrap_use_tool _ _ _ _ calls g) as [out g']. by setoid_rewrite <-app_assoc in IH. }
  set (id := if decide (c_id (obj g r) = "")%string then _ else _).
  assert (id ≠ ""%string) as Hid by (unfold id; case_decide; [by apply pretty_prefix_nonempty|done]).
  assert (inv n own (pre ++ r :: calls) (set_obj r (λ c, c <| c_id := id |>) g)) as Hi1.
  { apply unwrap_id_inv; [done|set_solver|done|]. intros. unfold id. by rewrite decide_False. }
  assert (r < length (objs g)) as Hlt by (apply (i_bound _ _ _ _ Hi); set_solver).
  set (g1 := set_obj r (λ c, c <| c_id := id |>) g) in *.
  assert (obj g1 r = (obj g r) <| c_id := id |>) as Hob by (unfold g1; by rewrite obj_set, decide_True).
  destruct (inner_call loads (c_args (obj g r))) as [problem|[name args]] eqn:Hinner.
  { apply (IH pre own); [by apply reject_mid|done]. }
  destruct (unwrap_copy_inv n own pre calls r name (Text (dumps (JObj args))) id g1 Hi1 Hown Hrn)
    as (own' & Hsame & Hi2).
  - by rewrite Hob.
  - done.
  - rewrite Hob. by eapply inner_call_object.
  - rewrite Hob in Hi2. cbn [c_rejected] in Hi2.
    match goal with |- let '(_, _) := (let '(_, _) := _unwrap_use_tool _ _ _ _ calls ?s in _) in _ =>
      specialize (IH (pre ++ [length (objs g1)]) own' s) end.
    rewrite <-app_assoc in IH. specialize (IH Hi2).
    destruct (_unwrap_use_tool _ _ _ _ calls _) as [out g'].
    setoid_rewrite <-app_assoc in IH. apply IH. intros x Hx. destruct (Hrest x Hx). split; [done|].
    by rewrite Hsame.
Qed.

Lemma inv_start calls g :
  Forall (λ c, c_rejected c = false) calls →
  inv (length calls) id (seq 0 (length calls)) (new_round calls g).
Proof.
  intros Hfresh. split; cbn; rewrite ?app_nil_r; try done.
  - intros r [_ ?]%elem_of_seq. lia.
  - by rewrite list_fmap_id.
  - intros r _. by left.
  - intros r [_ Hr]%elem_of_seq. unfold obj. cbn.
    destruct (lookup_lt_is_Some_2 calls r ltac:(lia)) as [c Hc].
    rewrite (list_lookup_total_correct _ _ _ Hc). exact (Forall_lookup_1 _ _ _ _ Hfresh Hc).
  - set_solver.
Qed.

Lemma gate_admit_inv calls active_tools g out g' :
  Forall (λ c, c_rejected c = false) calls →
  gate_admit tools disabled loads dumps hash py_str py_eq casefold to_float py_in calls active_tools g
    = Some (out, g') →
  ∃ own, inv (length calls) own out.*1 g' ∧
    ∀ r args, (r, args) ∈ out → ∃ tool, tools !! c_name (obj g' r) = Some tool ∧ typed tool args.
Proof.
  intros Hfresh. unfold gate_admit. pose proof (inv_start calls g Hfresh) as Hi.
  pose proof (unwrap_inv (length calls) id [] (seq 0 (length calls)) _ Hi) as H1.
  change (proposed (new_round calls g)) with (seq 0 (length calls)).
  destruct (_unwrap_use_tool _ _ _ _ _ _) as [cs1 g1].
  destruct H1 as (own & Hi1). { intros r [_ ?]%elem_of_seq. by split; [lia|]. }
  pose proof (dedup_inv _ own [] cs1 ∅ g1 Hi1) as Hi2.
  destruct (_dedup _ _ _ _ _ _ cs1 g1) as [cs2 g2].
  destruct (_semantic_dedup _ _ _ _ _ _ cs2 g2) as [[cs3 g3]|] eqn:H3; [|done].
  pose proof (semantic_inv _ _ _ _ _ _ Hi2 H3) as Hi3.
  pose proof (correct_names_inv _ own active_tools [] cs3 g3 Hi3 ltac:(set_solver)) as H4.
  destruct (_correct_names _ _ _ _ _ _ _ cs3 g3) as [cs4 g4]. destruct H4 as [Hi4 Hnames].
  pose proof (parse_inv _ own [] cs4 g4 Hi4 Hnames) as H5.
  destruct (_parse_and_validate _ _ _ _ _ _ _ cs4 g4) as [out' g5]. intros [= <- <-].
  destruct H5 as (Hi5 & Hn & Ht). exists own. split; [done|].
  intros r args Hin. rewrite Hn. auto.
Qed.


(** C12: Only well-typed calls reach the executor.  An admitted call names a
    registered tool and carries arguments that conform to its schema: every
    required parameter the schema knows is there; every other parameter is
    known or the schema allows more; and a value whose type the schema names is
    null, or of that type (a bool is no number), among the enumerated values,
    with items of the type the schema gives them. *)
Theorem admitted_calls_are_typed (calls : list TCall) (active_tools : list string)
    (g g' : GateState) (out : list (nat * Args))
    (Hfresh : Forall (λ c, c_rejected c = false) calls)
    (Hadmit : gate_admit tools disabled loads dumps hash py_str py_eq casefold to_float py_in calls
                active_tools g = Some (out, g')) :
  ∀ r args, (r, args) ∈ out → ∃ tool, tools !! c_name (obj g' r) = Some tool ∧ typed tool args.
Proof. destruct (gate_admit_inv _ _ _ _ _ Hfresh Hadmit) as (own & _ & ?). done. Qed.
End settled.

(** ** Examples *)
Section examples.
(** A table of decoded texts for [json.loads], and [json.dumps] by shape. *)
Definition toy_loads (s : string) : option Json :=
  snd <$> (snd <$> list_find (λ e, e.1 = s)
    [("{}", JObj []); ("{'command':'mkdir d'}", JObj [("command", JStr "mkdir d")]);
     ("{'command':'ls d'}", JObj [("command", JStr "ls d")]);
     ("{'path':'d/x'}", JObj [("path", JStr "d/x")]);
     ("{'name':'bash','arguments':{'command':'ls d'}}",
      JObj [("name", JStr "bash"); ("arguments", JObj [("command", JStr "ls d")])]);
     ("{'code':'next(pages)'}", JObj [("code", JStr "next(pages)")]);
     ("42", JInt 42); ("{'prompt':'hi'}", JObj [("prompt", JStr "hi")])]%string).
Definition toy_dumps (v : Json) : string :=
  match v with JObj [("command"%string, JStr "ls d")] => "{'command':'ls d'}" | _ => "{}" end.
Definition toy_hash (raw : RawArgs) : string := match raw with Text s => s | Parsed _ => "" end.
Definition string_spec : Spec := mkSpec (Some TString) [] None.
Definition toy_tools : gmap string ToolInfo :=
  {[ "bash"%string := mkInfo {[ "command"%string := string_spec ]} ["command"%string] false false;
     "repl"%string := mkInfo {[ "code"%string := string_spec ]} ["code"%string] false false;
     "file_write"%string := mkInfo {[ "path"%string := string_spec ]} ["path"%string] false true;
     "call_model"%string := mkInfo {[ "prompt"%string := string_spec ]} [] false true ]}.
Definition toy_admit (calls : list TCall) : option (list (nat * Args) * GateState) :=
  gate_admit toy_tools ∅ toy_loads toy_dumps toy_hash (λ _, "") (λ _ _, true) id (λ _, None) (λ _ _, true)
    calls [] (mkGateState [] [] [] [] ∅ ∅ [] []).
Definition toy_call (id name args : string) : TCall := mkTCall id name (Text args) false.
Definition names_admitted (res : option (list (nat * Args) * GateState)) : option (list (string * Args)) :=
  match res with
  | Some (out, g) => Some (map (λ e, (c_name (obj g e.1), e.2)) out)
  | None => None
  end.

Lemma toy_dumps_object entries : ∃ entries', toy_loads (toy_dumps (JObj entries)) = Some (JObj entries').
Proof.
  unfold toy_dumps. repeat case_match; by eexists.
Qed.

Definition toy_round : list TCall :=
  [toy_call "1" "use_tool" "{'name':'bash','arguments':{'command':'ls d'}}"; toy_call "2" "bash" "{'command':'ls d'}";
   toy_call "" "bash" "42"; toy_call "4" "file_write" "{'path':'d/x'}"].
Ltac run_toy out g H :=
  let v := eval vm_compute in (toy_admit toy_round) in
  let t := eval unfold toy_admit in (toy_admit toy_round) in
  match v with
  | Some (?o, ?s) =>
      set (out := o); set (g := s);
      assert (t = Some (out, g)) as H by (vm_compute; reflexivity);
      exists out, g; split; [vm_compute; reflexivity|]
  end.
Lemma admitted_calls_are_typed_witness :
  ∃ out g', toy_admit toy_round = Some (out, g') ∧
    ∀ r args, (r, args) ∈ out → ∃ tool, toy_tools !! c_name (obj g' r) = Some tool ∧ typed (λ _ _, true) tool args.
Proof.
  run_toy out g' H.
  eapply (admitted_calls_are_typed toy_tools ∅ toy_loads toy_dumps toy_hash);
    [apply toy_dumps_object|reflexivity| |exact H]. by repeat constructor.
Defined.

(** Where the gate falls short of what it says.  A round whose calls
    recur by name is executed in another order than it was proposed: here the
    directory is listed before the file is written into it.  The same repl call
    twice in one response runs once, although non-idempotent tools are meant to
    always run.  And a second call_model call whose arguments decode to a
    number ends the turn instead of being refused. *)
Theorem gate_reorders_and_raises :
  names_admitted (toy_admit
    [toy_call "1" "bash" "{'command':'mkdir d'}"; toy_call "2" "file_write" "{'path':'d/x'}";
     toy_call "3" "bash" "{'command':'ls d'}"]) =
  Some [("bash", [("command", JStr "mkdir d")]); ("bash", [("command", JStr "ls d")]);
        ("file_write", [("path", JStr "d/x")])]%string ∧
  option_map (λ r, flush_rejections r.2) (toy_admit
    [toy_call "1" "repl" "{'code':'next(pages)'}"; toy_call "2" "repl" "{'code':'next(pages)'}"]) =
  Some [("2"%string, DuplicateCall)] ∧
  toy_admit [toy_call "1" "call_model" "{'prompt':'hi'}"; toy_call "2" "call_model" "42"] = None.
Proof. vm_compute. done. Qed.
End examples.
