(* ===== verification/Stuck.v ===== *)
(** * Stuck detection (core/agent.py)

    [StuckDetector] with its signals, what the turn does about them
    ([_handle_stuck_signals], [_is_recovery_move]), and how one result is
    booked in the turn's tool summaries ([record_tool_outcome]).  Scores are
    multiples of 0.1 and are kept in tenths: 3 is the threshold 0.3, and no
    sum of the signals' weights other than 0.3 itself equals it.  Hashing, JSON,
    [str] of a decoded value and the host of a URL are parameters. *)
From stdpp Require Import gmap gmultiset sets strings.
From S2P Require Import Prelude PyStr PyText Regex ToolGate.

(** ** Constants *)
Definition _FILE_TOOLS : gset string := {["file_edit"; "file_write"; "file_read"; "file_append"]}.
Definition _MUTATING_TOOLS : gset string := {["file_write"; "file_edit"; "multiedit"; "repl"; "bash"]}.
Definition _WEB_TOOLS : gset string := {["browse_web"; "http_get"; "search_web"]}.
Definition LOOP_BREAK_AT : nat := 3.

(** ** Text classification *)

(** [\b(?:w|...)\b] of plain words is one of the runs of [\w]. *)
Definition has_word (ws : list string) (s : text) : bool :=
  existsb (λ u, bool_decide (u ∈ t <$> ws)) (runs_from is_word [] s).
Definition _BASH_WAIT_RE : string → bool := λ s, has_word ["sleep"; "wait"; "watch"; "timeout"] (t s).
Definition reads_files : string → bool := λ s,
  has_word ["cat"; "sed"; "grep"; "head"; "tail"; "less"; "awk"] (t s).

Definition words_end (s : text) : bool :=
  match s with [] => true | c :: _ => negb (is_word c) end.
(** [\.(?:py|md|json|txt|log|csv)\b] at the head of [u]: its length. *)
Definition extension (u : text) : option nat :=
  head (omap (λ e, if starts_with (t e) u && words_end (drop (String.length e) u)
                   then Some (String.length e) else None)
    [".py"; ".md"; ".json"; ".txt"; ".log"; ".csv"]).
(** The last place in [u] where an extension follows at least one character. *)
Fixpoint last_extension (at_ : nat) (u : text) : option nat :=
  match u with
  | [] => None
  | _ :: u' =>
      match last_extension (S at_) u' with
      | Some e => Some e
      | None => if at_ =? 0 then None else option_map (Nat.add at_) (extension u)
      end
  end.
(** [[\w./-]+\.(?:py|...)\b], searched: a match starts a run of its class and
    the greedy run gives back as little as it can. *)
Definition path_in_command (s : text) : text :=
  default [] (head (omap (λ u, (λ n, take n u) <$> last_extension 0 u)
    (runs_from (λ c, is_word c || bool_decide (c ∈ t "./-")) [] s))).

(** [_LOW_INFO_RESULT_RE], case-insensitive and multi-line. *)
Definition line_start : re := opt (Cat any (Chr (N.eqb NL))).
Definition line_end : re := opt (Cat (Chr (N.eqb NL)) any).
Definition _LOW_INFO_RESULT_RE (body : string) : bool :=
  let s := lower_text (t body) in
  Regex.accepts (Regex.seq [line_start; Star space; lit "(no output)"; Star space; line_end]) s ||
  Regex.accepts (Regex.seq [line_start; lit "no results found"; any]) s ||
  Regex.accepts (Regex.seq [line_start; Star space; lit "404:"; Star space; lit "not found"; any]) s ||
  search (lit "page not found") s ||
  search (Regex.seq [lit "blocked: "; plus nonspace; lit " resolves to a private/internal address"]) s.

(** [_FALSIFIED_FIT_RE]: the bodies of its alternatives, between boundaries.
    No match can start inside another, so the matches [findall] returns are
    the places where one starts. *)
Definition falsified_fit : re := one_of (lit <$>
  ["no match"; "no formula"; "no fit"; "no clean pattern"; "no linear formula"; "no linear pattern";
   "no linear fit"; "does not fit"; "does not match"; "does not reproduce"; "inconsistent"; "fail";
   "failed"; "0 solutions"; "none fit"; "none match"; "none matched"; "unsolved"]).
Definition matches_here (s : text) : bool :=
  Regex.accepts (Cat falsified_fit (opt (Cat (Chr (λ c, negb (is_word c))) any))) s.
Fixpoint count_matches (after_word : bool) (s : text) : nat :=
  match s with
  | [] => 0
  | c :: s' => (if negb after_word && matches_here s then 1 else 0) + count_matches (is_word c) s'
  end.
Definition falsified_fits (body : string) : nat := count_matches false (lower_text (t body)).

Definition stalling : list string :=
  ["i'll now"; "let me try"; "i need to"; "i should"; "i will"; "let me "; "i'm going to"; "next i"].
Definition _is_meta_commentary (content : string) : bool :=
  let lower := strip (lower_text (t content)) in
  existsb (λ s, starts_with (t s) lower) stalling && (length lower <? 200).

(** ** The detector *)

(** A dictionary key: a string, or a number (True is 1, 1.0 is 1). *)
Abbreviation Key := (string + (Z + string))%type.
(** [None]: lists and objects are unhashable. *)
Definition hashable (v : Json) : option Key :=
  match v with
  | JStr s => Some (inl s)
  | JInt n | JFloat _ (Some n) => Some (inr (inl n))
  | JBool b => Some (inr (inl (if b then 1 else 0)%Z))
  | JFloat r None => Some (inr (inr r))
  | JNull => Some (inr (inr "None"))
  | JArr _ | JObj _ => None
  end.

Inductive Hint := RlmHint (path : Key) | GrindHint.
Record WebResult := mkWeb { w_tool : string; w_host : string; w_low_info : bool; w_size : nat }.
(** A round's calls up to order: Python compares sorted tuples of them. *)
Abbreviation Signature := (gmultiset string).

Record Detector := mkDetector {
  content_history : list string;                     (** at most 5 *)
  tool_call_history : list (Signature * nat);        (** at most 10 *)
  mutation_epoch : nat;
  bash_outputs : gmap string string;
  web_result_history : list WebResult;               (** at most 12 *)
  domain_hits : gmap string nat;
  repeat_count : nat;
  behavioral_flags : gset string;
  has_unresolved_failure : bool;
  unresolved_failure_rounds : nat;
  file_failure_counts : gmap (string * string) nat;
  tool_failure_counts : gmap string nat;
  file_read_counts : gmap Key nat;
  falsified_fit_streak : nat;
  pending_hints : list Hint;
  recovery_passes : nat;
  cycle_counts : gmap (Signature * nat) nat;
  identical_calls : nat;
  force_text : bool;
  loop_break_used : bool
}.
#[export] Instance Detector_settable : Settable Detector := λ d,
  mkDetector (content_history d) (tool_call_history d) (mutation_epoch d) (bash_outputs d)
    (web_result_history d) (domain_hits d) (repeat_count d) (behavioral_flags d)
    (has_unresolved_failure d) (unresolved_failure_rounds d) (file_failure_counts d)
    (tool_failure_counts d) (file_read_counts d) (falsified_fit_streak d) (pending_hints d)
    (recovery_passes d) (cycle_counts d) (identical_calls d) (force_text d) (loop_break_used d).
Definition new_detector : Detector :=
  mkDetector [] [] 0 ∅ [] ∅ 0 ∅ false 0 ∅ ∅ ∅ 0 [] 0 ∅ 0 false false.

Definition flag (f : string) (d : Detector) : Detector := d <| behavioral_flags ::= λ s, {[ f ]} ∪ s |>.
(** [score += w] with its flag, when the signal fires. *)
Definition signal (fires : bool) (w : Z) (f : string) (s : Detector * Z) : Detector * Z :=
  if fires then (flag f s.1, (s.2 + w)%Z) else s.

(** [a or b] on decoded values. *)
Definition py_or (a b : Json) : Json := if falsy a then b else a.
Definition get (k : string) (args : Args) : Json := default JNull (lookup_arg k args).

Section detector.
Context (tools : gmap string ToolInfo) (rlm_enabled : bool).
Context (loads : string → option Json) (hash : RawArgs → string) (py_str : Json → string)
  (dump_hash : Args → string) (digest : string → string) (url_host : string → string).

(** [json.loads(tc.get("arguments") or "{}")]; [None]: ValueError, TypeError. *)
Definition loads_arguments (raw : RawArgs) : option Json :=
  match raw with
  | Text s => loads (if decide (s = "") then "{}" else s)
  | Parsed v => if falsy v then loads "{}" else None
  end.

(** [None]: a TypeError escapes, the command is no text. *)
Definition command_text (args : Json) : option string :=
  match args with
  | JObj entries =>
      match py_or (get "command" entries) (JStr "") with JStr s => Some s | _ => None end
  | _ => Some ""
  end.
Definition _is_poll_call (tc : TCall) : option bool :=
  if decide (c_name tc = "bash") then
    match loads_arguments (c_args tc) with
    | None => Some false
    | Some args => _BASH_WAIT_RE <$> command_text args
    end
  else Some (match tools !! c_name tc with Some tool => negb (idempotent tool) | None => false end).
(** [any(...)] over the calls, up to the first that polls or raises. *)
Fixpoint any_poll (calls : list TCall) : option bool :=
  match calls with
  | [] => Some false
  | tc :: calls => b ← _is_poll_call tc; if (b : bool) then Some true else any_poll calls
  end.

Definition path_str (v : Json) : string := match v with JStr s => s | v => py_str v end.
(** [args.get("path") or args.get("file_path") or args.get("file", "")] *)
Definition file_argument (args : Args) : option string :=
  let v := py_or (get "path" args) (py_or (get "file_path" args) (get "file" args)) in
  if falsy v then None else Some (path_str v).
Definition _call_file_target (tc : TCall) : option (string * string) :=
  if decide (c_name tc ∈ _FILE_TOOLS) then
    match (match c_args tc with
           | Text s => loads (if decide (s = "") then "{}" else s)
           | Parsed v => Some v
           end) with
    | Some (JObj args) => pair (c_name tc) <$> file_argument args
    | _ => None
    end
  else None.

(** *** Signals *)
Definition signature (calls : list TCall) : Signature := list_to_set_disj (key_of hash <$> calls).

(** Signal 2; [None]: the poll test raises. *)
Definition tool_cycle (calls : list TCall) (s : Detector * Z) : option (Detector * Z) :=
  match calls with
  | [] => Some s
  | _ =>
      let key := (signature calls, mutation_epoch s.1) in
      let '(d, score) := signal (bool_decide (key ∈ tool_call_history s.1)) 4 "tool_cycle" s in
      let d := d <| tool_call_history ::= λ h, deque_append 10 h key |> <| identical_calls := 0 |> in
      poll ← any_poll calls;
      Some (if (poll : bool) then d else
        let n := S (default 0 (cycle_counts d !! key)) in
        d <| cycle_counts ::= insert key n |> <| identical_calls := n |>, score)
  end.

(** Signal 3: the hash is sought inside each recorded one. *)
Definition failed_before (failures : list (string * string)) (tc : TCall) : bool :=
  existsb (λ f, bool_decide (f.1 = c_name tc) && contains (t (hash (c_args tc))) (t f.2)) failures.
Definition error_loop (failures : list (string * string)) (calls : list TCall)
    (s : Detector * Z) : Detector * Z :=
  foldl (λ s tc, signal (failed_before failures tc) 4 "error_loop" s) s calls.

(** Signal 5 *)
Definition hallucinated_tool (calls : list TCall) (s : Detector * Z) : Detector * Z :=
  foldl (λ s tc, signal (bool_decide (tools !! c_name tc = None)) 3 "hallucinated_tool" s) s calls.

(** Signal 6 *)
Definition failure_drift (calls : list TCall) (s : Detector * Z) : Detector * Z :=
  if has_unresolved_failure s.1 && negb (bool_decide (calls = [])) then
    let d := s.1 <| unresolved_failure_rounds ::= S |> in
    signal (3 <=? unresolved_failure_rounds d) 3 "failure_drift" (d, s.2)
  else s.

(** Signals 7 and 11: the first counter at three or more that this response
    touches. *)
Definition file_edit_loop (calls : list TCall) (s : Detector * Z) : Detector * Z :=
  let targets := omap _call_file_target calls in
  signal (existsb (λ e, (3 <=? e.2) && (bool_decide (calls = []) || bool_decide (e.1 ∈ targets)))
            (map_to_list (file_failure_counts s.1))) 4 "file_edit_loop" s.
Definition tool_failure_loop (calls : list TCall) (s : Detector * Z) : Detector * Z :=
  signal (existsb (λ e, bool_decide (e.1 ∉ _FILE_TOOLS) && (3 <=? e.2) &&
                        (bool_decide (calls = []) || bool_decide (e.1 ∈ c_name <$> calls)))
            (map_to_list (tool_failure_counts s.1))) 4 "tool_failure_loop" s.

(** Signal 12: the path one call reads; [None]: a TypeError escapes, the inner
    [None] is no path. *)
Definition read_target (tc : TCall) : option (option Key) :=
  if decide (c_name tc ∈ ["file_read"; "grep"; "bash"]) then
    match loads_arguments (c_args tc) with
    | Some (JObj args) =>
        if decide (c_name tc = "bash") then
          cmd ← command_text (JObj args);
          let path := if reads_files cmd then path_in_command (t cmd) else [] in
          Some (if decide (path = []) then None else Some (inl (text_string path)))
        else
          let path := py_or (get "path" args) (py_or (get "file" args) (JStr "")) in
          if falsy path then Some None else Some <$> hashable path
    | _ => Some None
    end
  else Some None.
Definition count_read (path : Key) (d : Detector) : Detector :=
  let n := S (default 0 (file_read_counts d !! path)) in
  let d := d <| file_read_counts ::= insert path n |> in
  if (n =? 5) && bool_decide ("rlm_hint" ∉ behavioral_flags d) && rlm_enabled
  then (flag "rlm_hint" d) <| pending_hints ::= λ l, l ++ [RlmHint path] |> else d.
Fixpoint big_file_grind (calls : list TCall) (d : Detector) : option Detector :=
  match calls with
  | [] => Some d
  | tc :: calls =>
      target ← read_target tc;
      big_file_grind calls (match target with Some path => count_read path d | None => d end)
  end.

(** Signal 13 *)
Definition hypothesis_grind (d : Detector) : Detector :=
  if (8 <=? falsified_fit_streak d) && bool_decide ("hypothesis_grind_hint" ∉ behavioral_flags d)
  then (flag "hypothesis_grind_hint" d) <| pending_hints ::= λ l, l ++ [GrindHint] |> else d.

Definition last_three {A} (l : list A) : list A := drop (length l - 3) l.
(** Signals 8, 9 and 10 *)
Definition empty_result_streak (s : Detector * Z) : Detector * Z :=
  let l := web_result_history s.1 in
  signal ((3 <=? length l) && forallb w_low_info (last_three l)) 3 "empty_result_streak" s.
Definition bot_wall_streak (s : Detector * Z) : Detector * Z :=
  let l := filter (λ e, w_tool e ∈ ["browse_web"; "http_get"]) (web_result_history s.1) in
  signal ((3 <=? length l) && forallb (λ e, w_size e <? 800) (last_three l)) 3 "bot_wall_streak" s.
Definition same_domain_repetition (s : Detector * Z) : Detector * Z :=
  signal (existsb (λ e, 5 <? e.2) (map_to_list (domain_hits s.1))) 2 "same_domain_repetition" s.

(** Signals 3 to 7; 8 to 11; and the update after them. *)
Definition first_signals (content : string) (calls : list TCall) (failures : list (string * string))
    (s : Detector * Z) : Detector * Z :=
  let s := error_loop failures calls s in
  let s := signal (bool_decide (calls = []) && bool_decide (content ≠ "") && _is_meta_commentary content)
             2 "noop_loop" s in
  file_edit_loop calls (failure_drift calls (hallucinated_tool calls s)).
Definition last_signals (calls : list TCall) (s : Detector * Z) : Detector * Z :=
  same_domain_repetition (bot_wall_streak (empty_result_streak (tool_failure_loop calls s))).
Definition update (content : string) (s : Detector * Z) : Detector * Z :=
  let d := if decide (content = "") then s.1
           else s.1 <| content_history ::= λ h, deque_append 5 h content |> in
  let d := if (3 <? s.2)%Z then d <| repeat_count ::= S |>
           else if has_unresolved_failure d then d else d <| repeat_count ::= Nat.pred |> in
  (d, s.2).

(** [None]: an exception escapes. *)
Definition evaluate (content : string) (calls : list TCall) (failures : list (string * string))
    (d : Detector) : option (Detector * Z) :=
  let s := signal (bool_decide (content ≠ "") && bool_decide (content ∈ content_history d)) 5
             "content_repeat" (d, 0%Z) in
  s ← tool_cycle calls s;
  let s := first_signals content calls failures s in
  d ← big_file_grind calls s.1;
  Some (update content (last_signals calls (hypothesis_grind d, s.2))).

(** *** Results *)
Definition observe_result (tool_name : string) (args : Args) (content : string) (was_error : bool)
    (d : Detector) : Detector :=
  let d := if bool_decide (tool_name ∈ ["repl"; "bash"]) && negb was_error
           then d <| falsified_fit_streak ::= λ n, if 2 <=? falsified_fits content then S n else 0 |>
           else d in
  if decide (tool_name ∈ _WEB_TOOLS) then
    let low_info := was_error || bool_decide (strip (t content) = []) || _LOW_INFO_RESULT_RE content in
    let host := match py_or (get "url" args) (py_or (get "href" args) (JStr "")) with
                | JStr url => if contains (t "://") (t url) then url_host url else ""
                | _ => ""
                end in
    let d := if decide (host = "") then d
             else d <| domain_hits ::= λ m, <[host := S (default 0 (m !! host))]> m |> in
    d <| web_result_history ::= λ h, deque_append 12 h
           (mkWeb tool_name host low_info (String.length content)) |>
  else d.

(** The counter of the file a call targets. *)
Definition file_key (tool_name : string) (args : Args) : option (string * string) :=
  if decide (tool_name ∈ _FILE_TOOLS) then pair tool_name <$> file_argument args else None.
(** The gate's call has no name, a result's has. *)
Definition mark_failure (tool_name : string) (args : Args) (d : Detector) : Detector :=
  let d := d <| has_unresolved_failure := true |> <| unresolved_failure_rounds := 0 |> in
  let d := if decide (tool_name = "") then d
           else d <| tool_failure_counts ::= λ m, <[tool_name := S (default 0 (m !! tool_name))]> m |> in
  match file_key tool_name args with
  | Some k => d <| file_failure_counts ::= λ m, <[k := S (default 0 (m !! k))]> m |>
  | None => d
  end.
Definition mark_success (tool_name : string) (args : Args) (content : string) (d : Detector) : Detector :=
  let d := d <| has_unresolved_failure := false |> <| unresolved_failure_rounds := 0 |> in
  let d := if decide (tool_name = "bash") then
             let key := dump_hash args in
             let out := digest content in
             let d := if decide (bash_outputs d !! key = Some out) then d
                      else d <| mutation_epoch ::= S |> in
             d <| bash_outputs ::= insert key out |>
           else if decide (tool_name ∈ _MUTATING_TOOLS) then d <| mutation_epoch ::= S |> else d in
  let d := if decide (tool_name = "") then d else d <| tool_failure_counts ::= delete tool_name |> in
  match file_key tool_name args with
  | Some k => d <| file_failure_counts ::= delete k |>
  | None => d
  end.

(** ** What a stuck score means *)
Inductive Action := Proceed | NudgeAndRetry | Stop.
#[export] Instance Action_eq_dec : EqDecision Action.
Proof. solve_decision. Defined.
(** The system rows written. *)
Inductive Notice :=
| ToolsOff (names : gset string) (times : nat)
| Repeating (names : gset string)
| CallAskUser (names : gset string)
| ChangeApproach (names : gset string)
| CapReached (nudges : nat) (ask_user : bool).

Definition history_of (d : Detector) (tc : TCall) : nat :=
  match _call_file_target tc with
  | Some target => default 0 (file_failure_counts d !! target)
  | None => default 0 (tool_failure_counts d !! c_name tc)
  end.
Definition _is_recovery_move (score : Z) (calls : list TCall) (active_tools : list string)
    (d : Detector) : bool :=
  if bool_decide (calls = []) || (3 <? score)%Z then false else
  if existsb (λ tc, bool_decide (c_name tc ∉ active_tools)) calls then false else
  if bool_decide ("ask_user" ∈ c_name <$> calls) then true else
  forallb (λ tc, history_of d tc =? 0) calls.

Definition _handle_stuck_signals (score : Z) (repeats : nat) (calls : list TCall)
    (active_tools : list string) (nudges_used nudge_limit recovery_limit : nat) (d : Detector)
    : Action * nat * Detector * list Notice :=
  let names : gset string := list_to_set (c_name <$> calls) in
  let ask_user := bool_decide ("ask_user" ∈ active_tools) in
  if negb (loop_break_used d) && (LOOP_BREAK_AT <=? identical_calls d) && ask_user then
    (NudgeAndRetry, nudges_used, d <| loop_break_used := true |> <| force_text := true |>,
     [ToolsOff names (identical_calls d)])
  else if repeats <? 3 then
    (Proceed, 0, d, if (1 <=? repeats) && (3 <? score)%Z then [Repeating names] else [])
  else if (recovery_passes d <? recovery_limit) && _is_recovery_move score calls active_tools d then
    (Proceed, nudges_used, d <| recovery_passes ::= S |>, [])
  else if nudges_used <? nudge_limit then
    (NudgeAndRetry, S nudges_used, d, [if ask_user then CallAskUser names else ChangeApproach names])
  else (Stop, nudges_used, d, [CapReached nudges_used ask_user]).
End detector.

(** ** Booking results *)

(** [ToolExecutionResult]: the flags are keys of its metadata. *)
Record ToolResult := mkResult {
  r_tool : string; r_content : string; r_error : bool; r_latency : Z;
  m_refused : bool; m_unavailable : bool; m_miss : bool; m_command_failed : bool
}.
Definition _REFUSAL_CONTENT_HINTS : list string :=
  ["is not permitted in this scheduled run"; "is disabled for this retry attempt";
   "cannot be used in"; "requires explicit user approval"; "The approved scope (";
   "is disabled. Enable it in Explorer"].
Definition opens (p s : string) : bool := starts_with (t p) (t s).
Definition is_command_failure (r : ToolResult) : bool := m_command_failed r.
Definition is_miss (r : ToolResult) : bool := m_miss r || opens "[miss]" (r_content r).
Definition is_unavailable (r : ToolResult) : bool := m_unavailable r || opens "[unavailable]" (r_content r).
Definition is_policy_refusal (r : ToolResult) : bool :=
  r_error r && (m_refused r ||
    opens "Error:" (r_content r) && existsb (λ h, contains (t h) (t (r_content r))) _REFUSAL_CONTENT_HINTS).

(** The branch a result takes: the first test that holds. *)
Inductive Outcome := Refused | Unavailable | Missed | CommandFailed | Failed | Fine.
#[export] Instance Outcome_eq_dec : EqDecision Outcome.
Proof. solve_decision. Defined.
Definition outcome_of (r : ToolResult) : Outcome :=
  if is_policy_refusal r then Refused
  else if is_unavailable r then Unavailable
  else if is_miss r then Missed
  else if is_command_failure r then CommandFailed
  else if r_error r then Failed else Fine.

Record Entry := mkEntry {
  calls : Z; failures : Z; refusals : Z; unavailable : Z; misses : Z; command_failures : Z;
  total_latency_ms : Z;
  errors : list string; refusal_errors : list string; miss_errors : list string;
  command_errors : list string
}.
#[export] Instance Entry_settable : Settable Entry := λ e,
  mkEntry (calls e) (failures e) (refusals e) (unavailable e) (misses e) (command_failures e)
    (total_latency_ms e) (errors e) (refusal_errors e) (miss_errors e) (command_errors e).
Record AttemptEntry := mkAttempt {
  a_calls : Z; a_failures : Z; a_refusals : Z; a_unavailable : Z; a_command_failures : Z
}.
#[export] Instance AttemptEntry_settable : Settable AttemptEntry := λ a,
  mkAttempt (a_calls a) (a_failures a) (a_refusals a) (a_unavailable a) (a_command_failures a).
Record Summary := mkSummary {
  tool_summary : gmap string Entry;
  tool_summary_attempts : list (gmap string AttemptEntry)
}.
#[export] Instance Summary_settable : Settable Summary := λ s,
  mkSummary (tool_summary s) (tool_summary_attempts s).

Definition append_new (x : string) (l : list string) : list string :=
  if decide (x ∈ l) then l else l ++ [x].
(** [content[:n] if content else default] *)
Definition preview (n : nat) (content fallback : string) : string :=
  if decide (content = "")%string then fallback else String.substring 0 n content.
Definition book (r : ToolResult) (e : Entry) : Entry :=
  let e := e <| calls ::= Z.succ |> <| total_latency_ms ::= Z.add (r_latency r) |> in
  match outcome_of r with
  | Refused => e <| refusals ::= Z.succ |>
      <| refusal_errors ::= append_new (preview 300 (r_content r) "refused") |>
  | Unavailable => e <| unavailable ::= Z.succ |>
  | Missed => e <| misses ::= Z.succ |>
      <| miss_errors ::= append_new (preview 300 (r_content r) "miss") |>
  | CommandFailed => e <| command_failures ::= Z.succ |>
      <| command_errors ::= append_new (preview 300 (r_content r) "non-zero exit") |>
  | Failed => e <| failures ::= Z.succ |>
      <| errors ::= append_new (preview 500 (r_content r) "unknown") |>
  | Fine => e
  end.
(** The per-attempt view has no branch for misses. *)
Definition book_attempt (r : ToolResult) (a : AttemptEntry) : AttemptEntry :=
  let a := a <| a_calls ::= Z.succ |> in
  if is_policy_refusal r then a <| a_refusals ::= Z.succ |>
  else if is_unavailable r then a <| a_unavailable ::= Z.succ |>
  else if bool_decide (outcome_of r = CommandFailed) then a <| a_command_failures ::= Z.succ |>
  else if r_error r then a <| a_failures ::= Z.succ |> else a.
Definition new_entry : Entry := mkEntry 0 0 0 0 0 0 0 [] [] [] [].
Definition new_attempt : AttemptEntry := mkAttempt 0 0 0 0 0.
Definition grow {A} (n : nat) (x : A) (l : list A) : list A := l ++ replicate (n - length l) x.
#[global] Arguments grow : simpl never.
Definition record_tool_outcome (reflect_count : nat) (r : ToolResult) (s : Summary) : Summary :=
  let name := r_tool r in
  let s := s <| tool_summary ::= λ m, <[name := book r (default new_entry (m !! name))]> m |> in
  s <| tool_summary_attempts ::= λ l,
    alter (λ m, <[name := book_attempt r (default new_attempt (m !! name))]> m) reflect_count
      (grow (S reflect_count) ∅ l) |>.

(** ** What the summaries say *)
Definition entry_of (name : string) (s : Summary) : Entry := default new_entry (tool_summary s !! name).
Definition attempt_of (i : nat) (name : string) (s : Summary) : AttemptEntry :=
  default new_attempt (tool_summary_attempts s !! i ≫= (.!! name)).
Definition record_all (rs : list (nat * ToolResult)) : Summary :=
  foldl (λ s e, record_tool_outcome e.1 e.2 s) (mkSummary ∅ []) rs.
(** How many results of the tool pass the test. *)
Definition results_of (name : string) (test : nat * ToolResult → bool) (rs : list (nat * ToolResult)) : Z :=
  cnt (λ e, bool_decide (r_tool e.2 = name) && test e) rs.
Definition ended (o : Outcome) (e : nat * ToolResult) : bool := bool_decide (outcome_of e.2 = o).

Lemma entry_of_record i r s name :
  entry_of name (record_tool_outcome i r s) =
  if decide (r_tool r = name) then book r (entry_of name s) else entry_of name s.
Proof.
  unfold entry_of, record_tool_outcome. cbn. case_decide as Hn; [subst|].
  - by rewrite lookup_insert_eq.
  - by rewrite lookup_insert_ne.
Qed.
Lemma lookup_grow {A} n (x : A) l i :
  grow n x l !! i = if decide (i < length l) then l !! i else if decide (i < n) then Some x else None.
Proof.
  unfold grow. case_decide; [by rewrite lookup_app_l|]. rewrite lookup_app_r by lia.
  case_decide; [rewrite lookup_replicate_2; [done|lia]|].
  apply lookup_ge_None_2. rewrite length_replicate. lia.
Qed.
Lemma attempt_of_record i r s j name :
  attempt_of j name (record_tool_outcome i r s) =
  if decide (i = j ∧ r_tool r = name) then book_attempt r (attempt_of j name s) else attempt_of j name s.
Proof.
  unfold attempt_of, record_tool_outcome. cbn. set (l := tool_summary_attempts s).
  destruct (decide (i = j)) as [<-|Hij].
  - rewrite list_lookup_alter_eq, lookup_grow. case_decide as Hlen.
    + destruct (lookup_lt_is_Some_2 l i Hlen) as [m ->]. cbn. case_decide as Hn.
      * destruct Hn as [_ ->]. by rewrite lookup_insert_eq.
      * rewrite lookup_insert_ne by naive_solver. done.
    + rewrite decide_True by lia. rewrite (lookup_ge_None_2 l i) by lia. cbn. case_decide as Hn.
      * destruct Hn as [_ ->]. by rewrite lookup_insert_eq.
      * rewrite lookup_insert_ne by naive_solver. done.
  - rewrite decide_False by naive_solver. rewrite list_lookup_alter_ne by done. rewrite lookup_grow.
    case_decide; [done|]. rewrite (lookup_ge_None_2 l j) by lia. by case_decide.
Qed.

Lemma results_of_snoc name test rs e :
  results_of name test (rs ++ [e]) =
  (results_of name test rs + if decide (r_tool e.2 = name) then if test e then 1 else 0 else 0)%Z.
Proof. unfold results_of. rewrite cnt_snoc. by case_decide; [rewrite bool_decide_true|rewrite bool_decide_false]. Qed.

(** The turn's summaries are an exact tally.  Whatever results were
    recorded, in whatever attempts, a tool's entry counts its calls and files
    each under the one outcome it has, refusals, by-design unavailability,
    misses and failed commands apart from failures; and the entry of an attempt
    counts that attempt's.  The two views disagree on misses only: there the
    per-attempt one counts a failure. *)
Theorem summaries_tally_outcomes (rs : list (nat * ToolResult)) (name : string) :
  let s := record_all rs in
  calls (entry_of name s) = results_of name (λ _, true) rs ∧
  failures (entry_of name s) = results_of name (ended Failed) rs ∧
  refusals (entry_of name s) = results_of name (ended Refused) rs ∧
  unavailable (entry_of name s) = results_of name (ended Unavailable) rs ∧
  misses (entry_of name s) = results_of name (ended Missed) rs ∧
  command_failures (entry_of name s) = results_of name (ended CommandFailed) rs ∧
  ∀ i, let at_ test := results_of name (λ e, bool_decide (e.1 = i) && test e) rs in
    a_calls (attempt_of i name s) = at_ (λ _, true) ∧
    a_refusals (attempt_of i name s) = at_ (ended Refused) ∧
    a_unavailable (attempt_of i name s) = at_ (ended Unavailable) ∧
    a_command_failures (attempt_of i name s) = at_ (ended CommandFailed) ∧
    a_failures (attempt_of i name s) = at_ (λ e, ended Failed e || ended Missed e && r_error e.2).
Proof.
  unfold record_all. cbv zeta. induction rs as [|[j r] rs IH] using rev_ind; [done|].
  destruct IH as (H1 & H2 & H3 & H4 & H5 & H6 & IH).
  rewrite foldl_app. cbn [foldl fst snd]. rewrite entry_of_record, !results_of_snoc. cbn [fst snd].
  rewrite <-H1, <-H2, <-H3, <-H4, <-H5, <-H6. clear H1 H2 H3 H4 H5 H6.
  set (s := foldl _ _ rs) in *. set (e := entry_of name s). split_and!.
  1: case_decide; [unfold book; destruct (outcome_of r)|]; cbn; lia.
  1-5: case_decide; [|lia]; unfold book, ended; cbn [snd];
       destruct (outcome_of r); case_bool_decide; simplify_eq; cbn; lia.
  intros i. specialize (IH i). rewrite attempt_of_record, !results_of_snoc. cbn [fst snd].
  destruct IH as (<- & <- & <- & <- & <-). set (a := attempt_of i name s).
  destruct (decide (r_tool r = name)) as [->|Hn].
  2: { rewrite decide_False by naive_solver. split_and!; lia. }
  destruct (decide (j = i)) as [->|Hj].
  2: { rewrite decide_False by naive_solver. rewrite !bool_decide_false by done. cbn. split_and!; lia. }
  rewrite decide_True by done. rewrite !bool_decide_true by done. unfold book_attempt, ended, outcome_of.
  cbn [snd]. destruct (is_policy_refusal r), (is_unavailable r), (is_miss r), (is_command_failure r), (r_error r);
    repeat first [rewrite bool_decide_true by done | rewrite bool_decide_false by done];
    cbn; split_and!; lia.
Qed.

(** ** What the signals guarantee *)
Section signals.
Context (tools : gmap string ToolInfo) (rlm_enabled : bool).
Context (loads : string → option Json) (hash : RawArgs → string) (py_str : Json → string).
Abbreviation evaluation := (evaluate tools rlm_enabled loads hash py_str).

(** What the turn reads of a detector: no signal but the cycle's moves it. *)
Definition books (d : Detector) :=
  (mutation_epoch d, cycle_counts d, identical_calls d, recovery_passes d, force_text d,
   loop_break_used d, tool_call_history d, file_failure_counts d, tool_failure_counts d,
   (has_unresolved_failure d, repeat_count d)).
(** The score only grows, the books stay. *)
Definition grows (s s' : Detector * Z) : Prop := books s'.1 = books s.1 ∧ (s.2 ≤ s'.2)%Z.
Lemma grows_refl s : grows s s.
Proof. done. Qed.
Lemma grows_trans s1 s2 s3 : grows s1 s2 → grows s2 s3 → grows s1 s3.
Proof. intros [H1 ?] [H2 ?]. split; [by rewrite H2|lia]. Qed.
Lemma grows_signal b w f s : (0 ≤ w)%Z → grows s (signal b w f s).
Proof. intros Hw. unfold signal. destruct b; [|done]. split; [done|cbn; lia]. Qed.
Lemma signal_fires w f s : (signal true w f s).2 = (s.2 + w)%Z.
Proof. done. Qed.

Lemma error_loop_grows failures calls s : grows s (error_loop hash failures calls s).
Proof.
  unfold error_loop. revert s. induction calls as [|tc calls IH]; intros s; [apply grows_refl|].
  eapply grows_trans; [|apply IH]. by apply grows_signal.
Qed.
Lemma error_loop_fires failures calls s tc :
  tc ∈ calls → failed_before hash failures tc = true →
  (s.2 + 4 ≤ (error_loop hash failures calls s).2)%Z.
Proof.
  unfold error_loop. intros Hin Hf. revert s. induction Hin as [tc calls|tc tc' calls _ IH]; intros s; cbn [foldl].
  - rewrite Hf. pose proof (error_loop_grows failures calls (signal true 4 "error_loop" s)) as [_ H].
    unfold error_loop in H. rewrite signal_fires in H. done.
  - specialize (IH Hf (signal (failed_before hash failures tc') 4 "error_loop" s)).
    pose proof (grows_signal (failed_before hash failures tc') 4 "error_loop" s ltac:(lia)) as [_ ?]. lia.
Qed.
Lemma hallucinated_grows calls s : grows s (hallucinated_tool tools calls s).
Proof.
  unfold hallucinated_tool. revert s. induction calls as [|tc calls IH]; intros s; [apply grows_refl|].
  eapply grows_trans; [|apply IH]. by apply grows_signal.
Qed.
Lemma failure_drift_grows calls s : grows s (failure_drift calls s).
Proof.
  unfold failure_drift. destruct (_ && _); [|apply grows_refl].
  eapply grows_trans; [|by apply grows_signal]. split; [done|cbn; lia].
Qed.
Lemma count_read_books path d : books (count_read rlm_enabled path d) = books d.
Proof. unfold count_read. cbv zeta. by destruct (_ && _ && _). Qed.
Lemma big_file_grind_books calls d d' :
  big_file_grind rlm_enabled loads calls d = Some d' → books d' = books d.
Proof.
  revert d. induction calls as [|tc calls IH]; intros d; cbn; [congruence|].
  intros ([path|] & _ & H)%bind_Some; rewrite (IH _ H); [apply count_read_books|done].
Qed.
Lemma hypothesis_grind_books d : books (hypothesis_grind d) = books d.
Proof. unfold hypothesis_grind. by destruct (_ && _). Qed.
Lemma tool_cycle_spec calls s s' :
  tool_cycle tools loads hash calls s = Some s' → calls ≠ [] →
  let key := (signature hash calls, mutation_epoch s.1) in
  let n := S (default 0 (cycle_counts s.1 !! key)) in
  ∃ poll, any_poll tools loads calls = Some poll ∧
    books s'.1 = (mutation_epoch s.1, (if poll then cycle_counts s.1 else <[key := n]> (cycle_counts s.1)),
      (if poll then 0 else n), recovery_passes s.1, force_text s.1, loop_break_used s.1,
      deque_append 10 (tool_call_history s.1) key, file_failure_counts s.1, tool_failure_counts s.1,
      (has_unresolved_failure s.1, repeat_count s.1)) ∧
    (s'.2 = s.2 + if bool_decide (key ∈ tool_call_history s.1) then 4 else 0)%Z.
Proof.
  destruct s as [d z]. intros H Hne. cbv zeta. unfold tool_cycle in H. cbn [fst snd] in *. destruct calls as [|tc calls]; [done|]. revert H. cbv zeta.
  set (key := (signature hash (tc :: calls), mutation_epoch d)).
  unfold signal. destruct (bool_decide (key ∈ _)); cbn [fst snd];
    intros (poll & Hpoll & [= <-])%bind_Some; exists poll;
    (split; [exact Hpoll|]); (split; [by destruct poll|cbn; lia]).
Qed.

Definition evaluated (content : string) (calls : list TCall) (failures : list (string * string))
    (d d' : Detector) (score : Z) : Prop :=
  let key := (signature hash calls, mutation_epoch d) in
  let n := S (default 0 (cycle_counts d !! key)) in
  (0 ≤ score)%Z ∧
  ((∃ tc, tc ∈ calls ∧ failed_before hash failures tc = true) ∨
   (calls ≠ [] ∧ key ∈ tool_call_history d) → (4 ≤ score)%Z) ∧
  mutation_epoch d' = mutation_epoch d ∧ recovery_passes d' = recovery_passes d ∧
  force_text d' = force_text d ∧ loop_break_used d' = loop_break_used d ∧
  file_failure_counts d' = file_failure_counts d ∧ tool_failure_counts d' = tool_failure_counts d ∧
  repeat_count d' = (if (3 <? score)%Z then S (repeat_count d)
                     else if has_unresolved_failure d then repeat_count d else pred (repeat_count d)) ∧
  (calls ≠ [] → ∃ poll, any_poll tools loads calls = Some poll ∧
     cycle_counts d' = (if poll then cycle_counts d else <[key := n]> (cycle_counts d)) ∧
     identical_calls d' = if poll then 0 else n).

Lemma first_grows content calls failures s :
  let s' := first_signals tools loads hash py_str content calls failures s in
  grows s s' ∧ ((∃ tc, tc ∈ calls ∧ failed_before hash failures tc = true) → s.2 + 4 ≤ s'.2)%Z.
Proof.
  cbv zeta. unfold first_signals. set (s2 := signal _ 2 _ _).
  assert (grows s2 (file_edit_loop loads py_str calls (failure_drift calls (hallucinated_tool tools calls s2)))) as H.
  { eapply grows_trans; [apply hallucinated_grows|]. eapply grows_trans; [apply failure_drift_grows|].
    by apply grows_signal. }
  assert (grows (error_loop hash failures calls s) s2) as H2 by by apply grows_signal. split.
  - eapply grows_trans; [apply error_loop_grows|]. by eapply grows_trans.
  - intros (tc & Hin & Hf). pose proof (error_loop_fires failures calls s tc Hin Hf).
    destruct H as [_ H], H2 as [_ H2]. lia.
Qed.
Lemma last_grows calls s : grows s (last_signals calls s).
Proof. repeat (eapply grows_trans; [|by apply grows_signal]). apply grows_refl. Qed.
Lemma update_spec content s :
  let d := (update content s).1 in
  (update content s).2 = s.2 ∧
  repeat_count d = (if (3 <? s.2)%Z then S (repeat_count s.1)
                    else if has_unresolved_failure s.1 then repeat_count s.1 else pred (repeat_count s.1)) ∧
  books (d <| repeat_count := repeat_count s.1 |>) = books s.1.
Proof.
  cbv zeta. unfold update. cbv zeta. cbn [fst snd]. split; [done|].
  destruct (decide (content = "")); destruct (3 <? s.2)%Z; cbn; destruct (has_unresolved_failure s.1) eqn:H;
    cbn; (split; [done|]); unfold books; cbn; by rewrite ?H.
Qed.

Lemma evaluate_spec content calls failures d d' score :
  evaluation content calls failures d = Some (d', score) → evaluated content calls failures d d' score.
Proof.
  unfold evaluate. cbv zeta.
  set (s0 := signal _ 5 _ (d, 0%Z)). assert (grows (d, 0%Z) s0) as [Hb0 Hs0] by by apply grows_signal.
  intros (s1 & Hcycle & H)%bind_Some. apply bind_Some in H as (d2 & Hgrind & H).
  destruct (first_grows content calls failures s1) as [[Hb2 Hs2] Hfail].
  set (s2 := first_signals _ _ _ _ _ _ _ _) in *. apply big_file_grind_books in Hgrind.
  destruct (last_grows calls (hypothesis_grind d2, s2.2)) as [Hb3 Hs3].
  set (s3 := last_signals _ _) in *. cbn [fst snd] in Hb3, Hs3. rewrite hypothesis_grind_books, Hgrind, Hb2 in Hb3.
  destruct (update_spec content s3) as (Hs4 & Hr4 & Hb4). rewrite Hb3 in Hb4.
  set (s4 := update content s3) in *. assert (s4 = (d', score)) as Heq by congruence. rewrite Heq in *.
  cbn [fst snd] in *. clearbody s0 s2 s3 s4. clear H Heq.
  unfold books in Hb0. injection Hb0 as He0 Hc0 _ Hp0 Hf0 Hl0 Hh0 Hff0 Ht0 Hu0 Hr0.
  unfold evaluated. cbv zeta. destruct (decide (calls = [])) as [->|Hne].
  - assert (s1 = s0) as -> by (cbn in Hcycle; congruence).
    unfold books in Hb3, Hb4. injection Hb3 as He3 Hc3 _ Hp3 Hf3 Hl3 Hh3 Hff3 Ht3 Hu3 Hr3.
    cbn in Hb4. injection Hb4 as He4 Hc4 _ Hp4 Hf4 Hl4 Hh4 Hff4 Ht4 Hu4 _. subst score.
    split_and!; try congruence; [lia|intros [(tc & Hin & _)|[? _]]; [set_solver|done]|].
    rewrite Hr4. by rewrite Hr3, Hu3, Hr0, Hu0.
  - destruct (tool_cycle_spec _ _ _ Hcycle Hne) as (poll & Hpoll & Hb1 & Hs1). cbv zeta in Hb1, Hs1.
    rewrite He0, Hc0 in Hb1. rewrite He0, Hh0 in Hs1. rewrite Hb1 in Hb3, Hb4.
    unfold books in Hb3, Hb4. injection Hb3 as He3 Hc3 _ Hp3 Hf3 Hl3 Hh3 Hff3 Ht3 Hu3 Hr3.
    cbn in Hb4. injection Hb4 as He4 Hc4 Hi4 Hp4 Hf4 Hl4 Hh4 Hff4 Ht4 Hu4 _. subst score.
    split_and!; try congruence.
    + case_bool_decide; lia.
    + intros [Hin|[_ Hin]]; [|rewrite bool_decide_true in Hs1 by done; lia].
      specialize (Hfail Hin). case_bool_decide; lia.
    + rewrite Hr4. by rewrite Hr3, Hu3, Hr0, Hu0.
    + intros _. by exists poll.
Qed.
(** A stuck turn runs nothing but a change of approach.  After three
    repeats a round is executed only as one of a bounded number of recovery
    moves: its tools are all active, none of its calls failed before with the
    same arguments, the same round was not sent recently with nothing changed
    since, and it asks the user or touches only tools and files that are not
    failing; and where the user can be asked, the third identical round of a
    turn is not executed before the tools have been taken away once. *)
Theorem stuck_rounds_only_recover (content : string) (calls : list TCall)
    (failures : list (string * string)) (d d1 d2 : Detector) (score : Z) (active_tools : list string)
    (nudges limit recoveries nudges' : nat) (notices : list Notice)
    (Heval : evaluation content calls failures d = Some (d1, score))
    (Hproceed : _handle_stuck_signals loads py_str score (repeat_count d1) calls active_tools nudges limit
                  recoveries d1 = (Proceed, nudges', d2, notices)) :
  ("ask_user"%string ∈ active_tools → loop_break_used d = false → identical_calls d1 < LOOP_BREAK_AT) ∧
  (repeat_count d1 < 3 ∨
   recovery_passes d < recoveries ∧ recovery_passes d2 = S (recovery_passes d) ∧ calls ≠ [] ∧
   (∀ tc, tc ∈ calls → c_name tc ∈ active_tools ∧ failed_before hash failures tc = false) ∧
   (signature hash calls, mutation_epoch d) ∉ tool_call_history d ∧
   ((∃ tc, tc ∈ calls ∧ c_name tc = "ask_user"%string) ∨
    ∀ tc, tc ∈ calls → history_of loads py_str d tc = 0)).
Proof.
  apply evaluate_spec in Heval as (_ & Hloud & _ & Hpass & _ & Hloop & Hff & Htf & _).
  unfold _handle_stuck_signals in Hproceed. cbv zeta in Hproceed. rewrite Hloop, Hpass in Hproceed.
  destruct (negb (loop_break_used d) && _ && _) eqn:Hbreak; [done|]. split.
  { intros Hask Hl. rewrite Hl, (bool_decide_true _ Hask), andb_true_r in Hbreak. cbn in Hbreak.
    unfold LOOP_BREAK_AT. destruct (identical_calls d1) as [|[|[|n]]]; [lia..|done]. }
  destruct (repeat_count d1 <? 3) eqn:Hrep; [left; by apply Nat.ltb_lt|right].
  destruct ((recovery_passes d <? recoveries) && _) eqn:Hrec; [|destruct (nudges <? limit); done].
  apply andb_true_iff in Hrec as [Hlt%Nat.ltb_lt Hmove]. injection Hproceed as <- <- <-.
  unfold _is_recovery_move in Hmove. destruct (bool_decide (calls = []) || _) eqn:Hquiet; [done|].
  apply orb_false_iff in Hquiet as [Hne%bool_decide_eq_false Hscore%Z.ltb_ge].
  destruct (existsb _ calls) eqn:Hactive; [done|].
  assert (¬ ((∃ tc, tc ∈ calls ∧ failed_before hash failures tc = true) ∨
             (calls ≠ [] ∧ (signature hash calls, mutation_epoch d) ∈ tool_call_history d))) as Hnew.
  { intros H%Hloud. lia. }
  split_and!; [done|cbn; by rewrite Hpass|done| |tauto|].
  - intros tc Hin. split.
    + apply dec_stable. intros Hno. assert (existsb (λ tc, bool_decide (c_name tc ∉ active_tools)) calls = true) as H.
      { apply existsb_exists. exists tc. rewrite <-list_elem_of_In. by rewrite bool_decide_true. }
      congruence.
    + destruct (failed_before hash failures tc) eqn:H; [|done]. naive_solver.
  - destruct (decide ("ask_user"%string ∈ c_name <$> calls)) as [Hask|Hask].
    + left. by apply list_elem_of_fmap in Hask as (tc & -> & ?); exists tc.
    + right. intros tc Hin. rewrite bool_decide_false in Hmove by done. rewrite forallb_forall in Hmove.
      specialize (Hmove tc ltac:(by apply list_elem_of_In)). apply Nat.eqb_eq in Hmove.
      unfold history_of in *. by rewrite Hff, Htf in Hmove.
Qed.

(** Arguments the detector can read: a command is a text or nothing, a path is
    no list and no object. *)
Definition readable (tc : TCall) : Prop :=
  match loads_arguments loads (c_args tc) with
  | Some (JObj args) =>
      if decide (c_name tc = "bash"%string) then is_Some (command_text (JObj args))
      else is_Some (hashable (py_or (get "path" args) (py_or (get "file" args) (JStr ""))))
  | _ => True
  end.
Lemma readable_poll tc : readable tc → is_Some (_is_poll_call tools loads tc).
Proof.
  unfold readable, _is_poll_call. intros Hr. case_decide; [|by eexists].
  destruct (loads_arguments _ _) as [[]|]; try (by eexists); by rewrite fmap_is_Some.
Qed.
Lemma readable_any_poll calls : Forall readable calls → is_Some (any_poll tools loads calls).
Proof.
  induction 1 as [|tc calls H _ IH]; cbn; [by eexists|].
  apply readable_poll in H as [[] ->]; [by eexists|done].
Qed.
Lemma readable_target tc : readable tc → is_Some (read_target loads tc).
Proof.
  unfold readable, read_target. intros Hr. destruct (decide (c_name tc ∈ _)); [|by eexists].
  destruct (loads_arguments _ _) as [[]|]; try (by eexists). destruct (decide (c_name tc = _)).
  - destruct Hr as [cmd ->]. by eexists.
  - case_match; [by eexists|]. by rewrite fmap_is_Some.
Qed.
Lemma readable_grind calls d : Forall readable calls → is_Some (big_file_grind rlm_enabled loads calls d).
Proof.
  intros H. revert d. induction H as [|tc calls H _ IH]; intros d; cbn; [by eexists|].
  apply readable_target in H as [target ->]. apply IH.
Qed.

(** The detector gets through every round whose arguments it can read: a
    command that is a text or missing, a path that is no list and no object. *)
Theorem detector_total (content : string) (calls : list TCall) (failures : list (string * string))
    (d : Detector) (Hreadable : Forall readable calls) :
  is_Some (evaluation content calls failures d).
Proof.
  unfold evaluate. cbv zeta. set (s := signal _ 5 _ _).
  assert (is_Some (tool_cycle tools loads hash calls s)) as [s1 ->].
  { destruct calls as [|tc calls]; [by eexists|]. unfold tool_cycle. cbv zeta.
    destruct (signal _ 4 _ _) as [d' z]. destruct (readable_any_poll _ Hreadable) as [b ->]. by eexists. }
  cbn. destruct (readable_grind calls (first_signals tools loads hash py_str content calls failures s1).1 Hreadable)
    as [d' ->]. by eexists.
Qed.
End signals.

(** Results leave the turn's own counters alone. *)
Definition kept (d : Detector) :=
  (recovery_passes d, loop_break_used d, cycle_counts d, repeat_count d, force_text d).
Lemma mark_failure_kept py_str name args d : kept (mark_failure py_str name args d) = kept d.
Proof. unfold mark_failure. cbv zeta. case_decide; by destruct (file_key _ _ _). Qed.
Lemma mark_success_kept py_str dump_hash digest name args content d :
  kept (mark_success py_str dump_hash digest name args content d) = kept d.
Proof.
  unfold mark_success. cbv zeta. destruct (decide (name = "bash"%string)); [destruct (decide (bash_outputs _ !! _ = _))|
    destruct (decide (name ∈ _MUTATING_TOOLS))]; case_decide; by destruct (file_key _ _ _).
Qed.
Lemma observe_result_kept url_host name args content err d :
  kept (observe_result url_host name args content err d) = kept d.
Proof.
  unfold observe_result. cbv zeta. destruct (bool_decide _ && negb err); case_decide; try done; by case_decide.
Qed.

(** What handling a score costs. *)
Lemma handle_cost loads py_str score repeats calls active nudges limit recoveries d a n d' notices :
  _handle_stuck_signals loads py_str score repeats calls active nudges limit recoveries d = (a, n, d', notices) →
  match a with
  | Stop => True
  | NudgeAndRetry => recovery_passes d' = recovery_passes d ∧
      (loop_break_used d' = true ∧ loop_break_used d = false ∧ n = nudges ∨
       loop_break_used d' = loop_break_used d ∧ n = S nudges ∧ nudges < limit)
  | Proceed => loop_break_used d' = loop_break_used d ∧ (n = 0 ∨ n = nudges) ∧
      (recovery_passes d' = recovery_passes d ∨
       recovery_passes d' = S (recovery_passes d) ∧ recovery_passes d < recoveries)
  end.
Proof.
  unfold _handle_stuck_signals. cbv zeta. destruct (negb (loop_break_used d) && _ && _) eqn:Hb.
  { intros [= <- <- <- <-]. split; [done|left]. by destruct (loop_break_used d). }
  destruct (repeats <? 3); [intros [= <- <- <- <-]; auto|].
  destruct ((recovery_passes d <? recoveries) && _) eqn:Hr.
  { apply andb_true_iff in Hr as [?%Nat.ltb_lt _]. intros [= <- <- <- <-]. auto. }
  destruct (nudges <? limit) eqn:Hn; [|by intros [= <- <- <- <-]].
  apply Nat.ltb_lt in Hn. intros [= <- <- <- <-]. auto.
Qed.

(** ** Examples *)
Section examples.
(** A table of decoded texts for [json.loads]; texts are their own hashes. *)
Definition demo_loads (s : string) : option Json :=
  snd <$> (snd <$> list_find (λ e, e.1 = s)
    [("{}", JObj []); ("{'command':42}", JObj [("command", JInt 42)]);
     ("{'path':['a']}", JObj [("path", JArr [JStr "a"])]);
     ("{'command':'cat src/a.py'}", JObj [("command", JStr "cat src/a.py")]);
     ("{'command':'sleep 5'}", JObj [("command", JStr "sleep 5")]); ("42", JInt 42)])%string.
Definition demo_hash (raw : RawArgs) : string := match raw with Text s => s | Parsed _ => "" end.
Definition demo_tools : gmap string ToolInfo :=
  {[ "bash"%string := mkInfo ∅ [] true false; "file_read"%string := mkInfo ∅ [] true true ]}.
Definition demo_call (name args : string) : TCall := mkTCall "" name (Text args) false.
Abbreviation demo_evaluate calls d :=
  (evaluate demo_tools true demo_loads demo_hash (λ _, ""%string) ""%string calls [] d).
Abbreviation demo_handle calls active nudges d score :=
  (_handle_stuck_signals demo_loads (λ _, ""%string) score (repeat_count d) calls active nudges 3 2 d).
(** The detector, score and action after each of [n] rounds of the same calls
    with no results in between. *)
Fixpoint repeat_round (n : nat) (calls : list TCall) (active : list string) (nudges : nat) (d : Detector)
    : list (Z * Action) :=
  match n with
  | 0 => []
  | S n =>
      match demo_evaluate calls d with
      | Some (d, score) =>
          let '(a, nudges, d, _) := demo_handle calls active nudges d score in
          (score, a) :: repeat_round n calls active nudges d
      | None => []
      end
  end.

Example commands_read : path_in_command (t "grep -n def src/core/agent.py | head") = t "src/core/agent.py".
Proof. vm_compute. reflexivity. Qed.
Example dotted_run : path_in_command (t ".py a.json.bak b.txt-") = t "a.json".
Proof. vm_compute. reflexivity. Qed.
Example fits : falsified_fits "no match; FAILED: does not fit. unfailing" = 3.
Proof. vm_compute. reflexivity. Qed.
Example low_info : _LOW_INFO_RESULT_RE (String (Ascii.ascii_of_nat 10) "  (No Output)") = true.
Proof. vm_compute. reflexivity. Qed.
Example third_is_cut :
  repeat_round 7 [demo_call "file_read" "{}"] ["file_read"; "ask_user"] 0 new_detector =
  [(0, Proceed); (4, Proceed); (4, NudgeAndRetry); (4, NudgeAndRetry); (4, NudgeAndRetry);
   (4, NudgeAndRetry); (4, Stop)]%Z.
Proof. vm_compute. reflexivity. Qed.

Definition demo_round : list TCall := [demo_call "file_read" "{}"].
Definition demo_stuck : Detector :=
  new_detector <| repeat_count := 4 |> <| tool_failure_counts := {[ "bash"%string := 2 ]} |>.
Definition demo_action : option Action :=
  match demo_evaluate demo_round demo_stuck with
  | Some (d, score) => Some (demo_handle demo_round ["file_read"; "ask_user"] 1 d score).1.1.1
  | None => None
  end.
Lemma stuck_rounds_only_recover_witness :
  ∃ d1 d2 score, demo_evaluate demo_round demo_stuck = Some (d1, score) ∧
    (repeat_count d1 < 3 ∨ recovery_passes demo_stuck < 2 ∧ recovery_passes d2 = 1).
Proof.
  assert (demo_action = Some Proceed) as Ha by (vm_compute; reflexivity). unfold demo_action in Ha.
  destruct (demo_evaluate demo_round demo_stuck) as [[d1 score]|] eqn:He; [|discriminate Ha].
  destruct (demo_handle demo_round ["file_read"%string; "ask_user"%string] 1 d1 score)
    as [[[a n] d2] notices] eqn:Hp. injection Ha as Ha. cbn in Ha. subst a.
  exists d1, d2, score. split; [reflexivity|].
  destruct (stuck_rounds_only_recover _ _ _ _ _ _ _ _ _ _ _ _ _ _ _ _ _ _ He Hp) as [_ [H|(H1 & H2 & _)]];
    [left; exact H|right; split; [exact H1|exact H2]].
Defined.
Lemma detector_total_witness :
  is_Some (demo_evaluate [demo_call "bash" "{'command':'cat src/a.py'}"; demo_call "file_read" "42"] new_detector).
Proof.
  apply detector_total. repeat constructor; vm_compute; eauto.
Defined.

(** Arguments the gate would refuse end the turn first.  The detector runs
    before the gate and does not catch a command that is a number or a path that
    is a list: the TypeError escapes it. *)
Theorem unreadable_arguments_escape :
  demo_evaluate [demo_call "bash" "{'command':42}"] new_detector = None ∧
  demo_evaluate [demo_call "file_read" "{'path':['a']}"] new_detector = None ∧
  option_map snd (demo_evaluate [demo_call "bash" "42"] new_detector) = Some 0%Z.
Proof. split_and!; vm_compute; reflexivity. Qed.
End examples.
