(* ===== verification/Turn.v ===== *)
(** * The agent's turn (core/agent.py)

    The loop of [run_agent]: the gates before and after a round, the renewal of
    the round window, the compaction budget, the streamed response, the replies
    that earn another round, stuck handling, the tool-call gate and the booking
    of results; then the final answer.  One iteration is a function of the
    turn's locals and of the [World] it meets: what the compiler, the compactor,
    the provider, the tools, the user and the clock do while it runs.  The
    response is the ladder's own ([Ladder.stream_with_failover]), the calls go
    through [ToolGate.gate_admit], the signals are those of [Stuck].  Three text
    classifiers, the salvage of calls written as text and the model registry
    are parameters. *)
From Stdlib Require Import QArith_base.
From stdpp Require Import gmap sets strings sorting.
From S2P Require Import Prelude PyStr PyText Wire Ladder ToolGate Stuck.

(** ** The compaction budget *)
Record Compaction := mkCompaction {
  attempts : nat;
  tokens_before_last : option N;
  awaiting_measure : bool;
  stalled : bool;
  refused : bool;
  floor_announced : bool
}.
#[export] Instance Compaction_settable : Settable Compaction := λ c,
  mkCompaction (attempts c) (tokens_before_last c) (awaiting_measure c) (stalled c) (refused c)
    (floor_announced c).
Definition new_compaction : Compaction := mkCompaction 0 None false false false false.
Definition ATTEMPT_LIMIT : nat := 3.
Definition exhausted (c : Compaction) : bool := ATTEMPT_LIMIT <=? attempts c.
Definition cannot_help (c : Compaction) : bool := refused c.
Definition can_help_with_overflow (c : Compaction) : bool := negb (exhausted c || stalled c).
(** [token_count >= tokens_before_last * 0.95], exactly for counts below 2^50. *)
Definition observe (token_count : N) (c : Compaction) : Compaction :=
  match awaiting_measure c, tokens_before_last c with
  | true, Some before =>
      c <| awaiting_measure := false |> <| stalled := (19 * before <=? 20 * token_count)%N |>
  | _, _ => c
  end.
(** [compact_with_llm]'s answer: [Declined] is NOTHING_TO_SUMMARIZE. *)
Inductive CompactResult := Compacted | CompactionFailed | Declined.
#[export] Instance CompactResult_eq_dec : EqDecision CompactResult.
Proof. solve_decision. Defined.
Definition run_compaction (token_count : N) (res : CompactResult) (c : Compaction) : Compaction :=
  let declined := bool_decide (res = Declined) in
  mkCompaction (if declined then attempts c else S (attempts c)) (Some token_count) true false
    declined (floor_announced c).

(** ** The turn *)
Record Config := mkConfig {
  max_tool_rounds : nat;
  authorized_renewals : nat;               (** [round_cap_auto_continue] *)
  goals_enabled : bool;
  context_critical_threshold : Q;
  forced_followup_enabled : bool;
  followup_cap : nat;
  scout_first_turn_only : bool;
  rlm_enabled : bool;
  llm_model : string;
  ladder_settings : Settings
}.
Definition LENGTH_CONTINUATION_LIMIT : nat := 2.
Definition STUCK_ASK_USER_LIMIT : nat := 3.
Definition FINAL_ANSWER_REREAD_LIMIT : nat := 1.
Definition RECOVERY_LIMIT : nat := 2.

Record Payload := mkPayload {
  p_token_count : N;
  p_budget : Z;                            (** the effective budget it was compiled for *)
  p_needs_compaction : bool;
  p_messages : list Message;
  p_static_prefix_chars : nat;
  p_has_tools : bool;
  p_max_output : Z
}.

(** What one iteration meets.  Flags another task may set between two reads
    are functions of the read: [cancelled 0] is the first read. *)
Record World := mkWorld {
  cancelled : nat → bool;
  goal_exceeded : nat → bool;
  paused : bool;
  goal_active : bool;
  pending_messages : bool;
  errored : bool;
  model_override : string;                 (** empty: none *)
  compiles : bool;                         (** false: [compile_context] raised *)
  payload : Payload;
  compactor : nat → CompactResult;
  client : Client;
  now : Z;
  blocks : gmap string Z;
  user_row_changed : bool;
  execute : list (string * Args) → option (list ToolResult);   (** [None]: it raised *)
  waiting_for_input : bool;
  waiting_for_workers : bool
}.

Inductive SystemNote :=
| LengthContinuation | UnbackedClaim | UnsourcedRefs (refs : list string) | ForcedFollowup (attempt : nat)
| LateCorrection | RoundsRenewed (granted authorized : nat) | HintNote (h : Hint)
| StuckNote (n : Notice) | TimeBudgetExhausted.
Inductive ToolBody := RefusedBody (m : Refusal) | Answered (r : ToolResult) | Aborted.
(** The rows the loop writes, in order. *)
Inductive Row :=
| AssistantRow (content : string) (proposed : list TCall)
| PartialRow (content : string)
| ToolRow (call_id : string) (body : ToolBody)
| SystemRow (n : SystemNote).

Record Turn := mkTurn {
  tool_round : nat;
  rounds_spent : nat;
  renewals : nat;                          (** [_round_cap_continues] *)
  window_did_tool_calls : bool;
  did_tool_calls : bool;
  action_claim_checked : bool;
  sources_checked : bool;
  tried_fallback : bool;
  routing_requested : string;
  routing_failure : option string;
  ask_user_continues : nat;
  length_continuations : nat;
  forced_followups : nat;
  followup_pending : bool;
  rereads : nat;
  compaction : Compaction;
  stuck : Detector;
  gate : GateState;
  active_tools : list string;
  summary : Summary;
  termination_reason : option string;
  session_error : option string;
  rows : list Row
}.
#[export] Instance Turn_settable : Settable Turn := λ t,
  mkTurn (tool_round t) (rounds_spent t) (renewals t) (window_did_tool_calls t) (did_tool_calls t)
    (action_claim_checked t) (sources_checked t) (tried_fallback t) (routing_requested t)
    (routing_failure t) (ask_user_continues t) (length_continuations t) (forced_followups t)
    (followup_pending t) (rereads t) (compaction t) (stuck t) (gate t) (active_tools t) (summary t)
    (termination_reason t) (session_error t) (rows t).

(** How an iteration leaves the loop's body: [continue], [return], [break], or
    with an exception. *)
Inductive Next := Continue (t : Turn) | Return (t : Turn) | Break (t : Turn) | Escape (t : Turn).

Definition write (r : Row) (t : Turn) : Turn := t <| rows ::= λ l, l ++ [r] |>.
Definition say_system (n : SystemNote) (t : Turn) : Turn := write (SystemRow n) t.
(** [tool_round += 1; _rounds_spent += 1] *)
Definition consume_round (t : Turn) : Turn := t <| tool_round ::= S |> <| rounds_spent ::= S |>.
Definition end_with (reason : string) (t : Turn) : Turn := t <| termination_reason := Some reason |>.

(** [re.finditer(r"\*\*(\w+)\*\*", text)] *)
Fixpoint bold_names (fuel : nat) (s : text) : list text :=
  match fuel, s with
  | S fuel, 42%N :: 42%N :: s' =>
      let w := head (PyText.runs_from Regex.is_word [] s') in
      match w with
      | Some w =>
          if starts_with (w ++ t "**") s' then w :: bold_names fuel (drop (length w + 2) s')
          else bold_names fuel (42%N :: s')
      | None => bold_names fuel (42%N :: s')
      end
  | S fuel, _ :: s' => bold_names fuel s'
  | _, _ => []
  end.
(** [bisect.insort] into a sorted list. *)
Fixpoint insort (x : string) (l : list string) : list string :=
  match l with
  | [] => [x]
  | y :: l' => if String.leb y x then y :: insort x l' else x :: l
  end.

(** ** Gates before and after a round *)
Section turn.
Context (cfg : Config) (tools : gmap string ToolInfo) (disabled : gset string).
Context (resolve_model_id : string → string) (salvage : string → option (string * list Fragment)).
Context (claims_action announces_work : string → bool) (unsourced : string → list Message → list string).
Context (loads : string → option Json) (dumps : Json → string) (hash : RawArgs → string)
  (py_str : Json → string) (py_eq : Json → Json → bool) (casefold : text → text)
  (to_float : string → option (string * option Z)) (py_in : Json → list Json → bool)
  (dump_hash : Args → string) (digest url_host : string → string).

Inductive GateAction := RunRound | LeaveLoop | Abandon.

(** [_pre_round_gate]; the pause's transitions are the state machine's. *)
Definition _pre_round_gate (w : World) (t : Turn) : GateAction * Turn :=
  if cancelled w 0 then (Abandon, end_with "cancelled" t) else
  if goals_enabled cfg && goal_active w && (0 <? rounds_spent t) && (rounds_spent t mod 3 =? 0) &&
     goal_exceeded w 0
  then (LeaveLoop, end_with "budget_exhausted" t) else
  if paused w && cancelled w 1 then (Abandon, end_with "cancelled" t) else (RunRound, t).

(** [_round_renewal_refusal]: is there a reason against it? *)
Definition _round_renewal_refusal (w : World) (t : Turn) : bool :=
  cancelled w 2 || (errored w || bool_decide (session_error t ≠ None)) || (3 <=? repeat_count (stuck t)) ||
  pending_messages w || (goals_enabled cfg && goal_active w && goal_exceeded w 1).

(** The renewal, decided before the terminal round of a window that worked. *)
Definition renews (w : World) (t : Turn) : bool :=
  (max_tool_rounds cfg <=? S (tool_round t)) && window_did_tool_calls t &&
  (renewals t <? authorized_renewals cfg) && negb (_round_renewal_refusal w t).
Definition _grant_round_renewal (t : Turn) : Turn :=
  let t := t <| renewals ::= S |> in
  say_system (RoundsRenewed (renewals t) (authorized_renewals cfg))
    (t <| tool_round := 0 |> <| window_did_tool_calls := false |>).

Definition _post_round_gate (w : World) (t : Turn) : option Turn :=
  if cancelled w 3 then Some (end_with "cancelled" t)
  else if waiting_for_input w then
    Some (end_with "complete"
      (write (AssistantRow "I've asked you a question and am waiting for your response." []) t))
  else if waiting_for_workers w then Some (end_with "complete" t)
  else None.

(** ** The request *)
Definition fallback : string := fallback_model (ladder_settings cfg).
Definition _resolve_effective_model (w : World) (on_fallback : bool) : string :=
  let raw := or_else (model_override w) (llm_model cfg) in
  resolve_model_id (if on_fallback && bool_decide (fallback ≠ "")%string then fallback else raw).

(** [utilization > settings.context_critical_threshold] *)
Definition critical (p : Payload) : bool :=
  negb (Qle_bool (inject_Z (Z.of_N (p_token_count p)))
                 (context_critical_threshold cfg * inject_Z (Z.max (p_budget p) 1))).

(** The context health check: go on, [continue], or [break]. *)
Inductive Health := Healthy (t : Turn) | Recompile (t : Turn) | Full (t : Turn).
Definition context_health (w : World) (t : Turn) : Health :=
  let p := payload w in
  if critical p then
    let c := compaction t in
    let tries := negb (exhausted c) && negb (stalled c) && negb (cannot_help c) in
    let t := if tries then t <| compaction ::= run_compaction (p_token_count p) (compactor w 0) |> else t in
    if tries && bool_decide (compactor w 0 = Compacted) then Recompile t
    else if cannot_help (compaction t) then Healthy (t <| compaction ::= λ c, c <| floor_announced := true |> |>)
    else Full (end_with "compaction_failed" t)
  else Healthy t.

(** The compactor runs once ahead of trouble. *)
Definition proactive (w : World) (t : Turn) : Turn :=
  let p := payload w in
  if p_needs_compaction p && (attempts (compaction t) =? 0) && negb (cannot_help (compaction t))
  then t <| compaction ::= run_compaction (p_token_count p) (compactor w 1) |> else t.

Definition provider_messages (w : World) (p : Payload) (m : string) : list Message :=
  let provider := resolve_provider (client w) m in
  if decide (provider ∈ OPENAI_FORMAT_PROVIDERS) then
    attach_cache_breakpoints (openrouter_cache_control (ladder_settings cfg))
      (normalize_for_openrouter (p_messages p)) m provider (p_static_prefix_chars p)
  else p_messages p.
(** What the loop asks the ladder for. *)
Definition round_call (w : World) (effective : string) (t : Turn) : Call :=
  let p := payload w in
  mkLadderCall (provider_messages w p effective) (p_messages p) (p_static_prefix_chars p)
    (if tried_fallback t then fallback else effective) (p_max_output p) (tried_fallback t)
    (if tried_fallback t then routing_requested t else effective) (routing_failure t)
    (can_help_with_overflow (compaction t)).
Definition take_outcome (o : StreamOutcome) (t : Turn) : Turn :=
  t <| routing_requested := o_requested_model o |> <| routing_failure := o_failure_reason o |>
    <| tried_fallback := o_tried_fallback o |>.

(** The provider said the request was too long. *)
Definition on_overflow (w : World) (effective : string) (t : Turn) : Turn :=
  if decide (_resolve_effective_model w (tried_fallback t) ≠ effective) then t
  else t <| compaction ::= run_compaction (p_token_count (payload w)) (compactor w 2) |>.

Definition _end_turn_on_stream_error (err partial : string) (t : Turn) : Turn :=
  let t := if decide (partial = "")%string then t else write (PartialRow partial) t in
  if _is_budget_exhaustion err
  then end_with "budget_exhausted" (say_system TimeBudgetExhausted t)
  else end_with "error" (t <| session_error := Some err |>).

(** ** Replies without calls *)
(** [tool_round < settings.max_tool_rounds - 2] *)
Definition rounds_to_spare (t : Turn) : bool := tool_round t + 2 <? max_tool_rounds cfg.
Definition has_text (content : string) : bool := bool_decide (content ≠ "")%string.

Definition finish (loop_break forced : bool) (t : Turn) : Turn :=
  end_with (if loop_break then "stuck_loop" else if forced then "round_ceiling" else "complete") t.
Definition on_text (w : World) (content : string) (tools_offered loop_break forced : bool) (t : Turn) : Next :=
  let t := t <| followup_pending := false |> in
  if negb (action_claim_checked t) && has_text content && rounds_to_spare t && negb (cancelled w 4) &&
     (negb (did_tool_calls t) && claims_action content)
  then Continue (consume_round (say_system UnbackedClaim
         (write (AssistantRow content []) (t <| action_claim_checked := true |>))))
  else
  let bad_refs :=
    if negb (sources_checked t) && has_text content && tools_offered && rounds_to_spare t &&
       negb (cancelled w 5)
    then unsourced content (p_messages (payload w)) else [] in
  if bool_decide (bad_refs ≠ [])
  then Continue (consume_round (say_system (UnsourcedRefs bad_refs)
         (write (AssistantRow content []) (t <| sources_checked := true |>))))
  else if forced_followup_enabled cfg && (forced_followups t <? followup_cap cfg) && rounds_to_spare t &&
          negb (cancelled w 6) && has_text content && announces_work content
  then
    let t := t <| forced_followups ::= S |> in
    Continue (consume_round (say_system (ForcedFollowup (forced_followups t))
      (write (AssistantRow content []) t) <| followup_pending := true |>))
  else
  let t := if has_text content then write (AssistantRow content []) t else t in
  if user_row_changed w && (rereads t <? FINAL_ANSWER_REREAD_LIMIT) && negb (cancelled w 7)
  then Continue (say_system LateCorrection (t <| rereads ::= S |>))
  else Return (finish loop_break forced t).

(** ** Rounds of calls *)
Definition as_call (f : Fragment) : TCall := mkTCall (Ladder.f_id f) (f_name f) (Text (f_arguments f)) false.

(** Refusals count as failures of no tool. *)
Definition note_rejections (before after : GateState) (d : Detector) : Detector :=
  if length (ToolGate.failures before) <? length (ToolGate.failures after)
  then mark_failure py_str "" [] d else d.

(** A failed command is no failure of its tool, and is not cached. *)
Definition book_result (tc : TCall) (args : Args) (res : ToolResult) (t : Turn) : Turn :=
  if r_error res && negb (is_command_failure res) then
    t <| gate ::= λ g, g <| ToolGate.failures ::= λ l, l ++ [(r_tool res, hash (c_args tc))] |> |>
      <| stuck ::= mark_failure py_str (r_tool res) args |>
  else
    let t := t <| stuck ::= mark_success py_str dump_hash digest (r_tool res) args (r_content res) |> in
    if r_error res then t
    else t <| gate ::= remember_success hash (r_tool res) (c_args tc) (tool_round t) (r_content res) |>.
Definition _expand_tools_from_discovery (found : string) (active : list string) : list string :=
  foldl (λ l n, if bool_decide (is_Some (tools !! n)) && bool_decide (n ∉ disabled) && bool_decide (n ∉ l)
                then insort n l else l)
    active (text_string <$> bold_names (String.length found) (PyStr.t found)).
(** [_record_round_results], for one admitted call and its result. *)
Definition record_result (reflect_count : nat) (t : Turn) (e : nat * Args * ToolResult) : Turn :=
  let '(r, args, res) := e in
  let tc := obj (gate t) r in
  let t := book_result tc args res (write (ToolRow (c_id tc) (Answered res)) t) in
  let t := t <| stuck ::= observe_result url_host (r_tool res) args (r_content res) (r_error res) |>
             <| summary ::= record_tool_outcome reflect_count res |> in
  if bool_decide (r_tool res = "discover_tools"%string) && negb (r_error res) && negb (scout_first_turn_only cfg)
  then t <| active_tools ::= _expand_tools_from_discovery (r_content res) |> else t.

(** The rows of a round that died before its results were recorded. *)
Definition _stub_unanswered_calls (g : GateState) (parsed : list (nat * Args)) (t : Turn) : Turn :=
  foldl (λ t e, let id := c_id (obj g e.1) in
                if decide (id = "")%string then t else write (ToolRow id Aborted) t) t parsed.

(** From admission to the end of the round. *)
Definition run_round (w : World) (reflect_count : nat) (content : string) (calls : list TCall) (t : Turn) : Next :=
  match gate_admit tools disabled loads dumps hash py_str py_eq casefold to_float py_in calls
          (active_tools t) (gate t) with
  | None => Escape t
  | Some (parsed, g) =>
      let t := t <| stuck ::= note_rejections (gate t) g |> <| gate := g |> in
      let t := write (AssistantRow content (proposed_calls g)) t in
      let t := foldl (λ t e, write (ToolRow e.1 (RefusedBody e.2)) t) t (flush_rejections g) in
      match (if decide (parsed = []) then Some []
             else execute w ((λ e, (c_name (obj g e.1), e.2)) <$> parsed)) with
      | None => Escape (_stub_unanswered_calls g parsed t)
      | Some results =>
          let t := foldl (record_result reflect_count) t (zip parsed results) in
          match _post_round_gate w t with
          | Some t => Return t
          | None => Continue (consume_round t)
          end
      end
  end.
Definition on_calls (w : World) (reflect_count : nat) (content : string) (fragments : list Fragment)
    (t : Turn) : Next :=
  let calls := as_call <$> fragments in
  let t := t <| did_tool_calls := true |> <| window_did_tool_calls := true |> <| followup_pending := false |> in
  match evaluate tools (rlm_enabled cfg) loads hash py_str content calls (ToolGate.failures (gate t)) (stuck t) with
  | None => Escape t
  | Some (d, score) =>
      let t := foldl (λ t h, write (SystemRow (HintNote h)) t) t (pending_hints d) in
      let d := d <| pending_hints := [] |> in
      let '(action, nudges, d, notices) :=
        _handle_stuck_signals loads py_str score (repeat_count d) calls (active_tools t)
          (ask_user_continues t) STUCK_ASK_USER_LIMIT RECOVERY_LIMIT d in
      let t := foldl (λ t n, write (SystemRow (StuckNote n)) t) t notices in
      let t := t <| stuck := d |> <| ask_user_continues := nudges |> in
      match action with
      | NudgeAndRetry => Continue t
      | Stop => Break (end_with "stuck_loop" t)
      | Proceed => run_round w reflect_count content calls t
      end
  end.

(** ** One iteration *)
Definition on_response (w : World) (reflect_count : nat) (o : StreamOutcome)
    (effective : string) (loop_break forced : bool) (t : Turn) : Next :=
  let tools_on := negb (loop_break || forced) in
  match o_context_overflow o with
  | Some _ => Continue (on_overflow w effective t)
  | None =>
  match o_error o with
  | Some err => Return (_end_turn_on_stream_error err (o_content o) t)
  | None =>
      if bool_decide (o_finish_reason o = Some "length"%string) && bool_decide (o_tool_calls o = []) &&
         has_text (o_content o) && (length_continuations t <? LENGTH_CONTINUATION_LIMIT)
      then Continue (consume_round (say_system LengthContinuation
             (write (AssistantRow (o_content o) []) (t <| length_continuations ::= S |>))))
      else
      let '(content, fragments) :=
        if bool_decide (o_tool_calls o = []) && has_text (o_content o) && tools_on
        then default (o_content o, []) (salvage (o_content o)) else (o_content o, o_tool_calls o) in
      match fragments with
      | [] => on_text w content (tools_on && p_has_tools (payload w)) loop_break forced t
      | _ => on_calls w reflect_count content fragments t
      end
  end
  end.

Definition iterate (reflect_count : nat) (w : World) (t : Turn) : Next :=
  match _pre_round_gate w t with
  | (Abandon, t) => Return t
  | (LeaveLoop, t) => Break t
  | (RunRound, t) =>
      if renews w t then Continue (_grant_round_renewal t) else
      if negb (compiles w) then Escape t else
      let effective := _resolve_effective_model w (tried_fallback t) in
      let t := t <| compaction ::= observe (p_token_count (payload w)) |> in
      match context_health w t with
      | Recompile t => Continue t
      | Full t => Break t
      | Healthy t =>
          let t := proactive w t in
          let forced := S (tool_round t) =? max_tool_rounds cfg in
          let loop_break := force_text (stuck t) in
          let t := t <| stuck ::= λ d, d <| force_text := false |> |> in
          match stream_with_failover (ladder_settings cfg) (client w) (round_call w effective t) (now w)
                  (blocks w) with
          | Some (Ret (o, _)) =>
              on_response w reflect_count o effective loop_break forced (take_outcome o t)
          | _ => Escape t
          end
      end
  end.

(** ** The loop and the final answer *)
Inductive Exit := Returned (t : Turn) | LoopLeft (t : Turn) | Escaped (t : Turn).
Definition exit_turn (e : Exit) : Turn := match e with Returned t | LoopLeft t | Escaped t => t end.

(** [while tool_round < settings.max_tool_rounds] over the worlds met, from the
    [i]-th; [None]: out of fuel. *)
Fixpoint turn_loop (fuel : nat) (reflect_count : nat) (worlds : nat → World) (i : nat) (t : Turn)
    : option Exit :=
  if max_tool_rounds cfg <=? tool_round t then Some (LoopLeft t) else
  match fuel with
  | 0 => None
  | S fuel =>
      match iterate reflect_count (worlds i) t with
      | Continue t => turn_loop fuel reflect_count worlds (S i) t
      | Return t => Some (Returned t)
      | Break t => Some (LoopLeft t)
      | Escape t => Some (Escaped t)
      end
  end.

Definition _stream_final_answer (w : World) (t : Turn) : Exit :=
  let effective := _resolve_effective_model w (tried_fallback t) in
  if negb (compiles w) then Escaped t else
  let p := payload w in
  let on_fallback := tried_fallback t && bool_decide (fallback ≠ "")%string in
  let call := mkLadderCall (provider_messages w p effective) (p_messages p) (p_static_prefix_chars p)
    (if on_fallback then fallback else effective) (p_max_output p) on_fallback
    (if tried_fallback t then routing_requested t else effective) (routing_failure t) false in
  match stream_with_failover (ladder_settings cfg) (client w) call (now w) (blocks w) with
  | Some (Ret (o, _)) =>
      let t := if has_text (o_content o) then write (AssistantRow (o_content o) []) t else t in
      match o_error o with
      | Some err => Returned (end_with "error" (t <| session_error := Some err |>))
      | None => Returned t
      end
  | _ => Escaped t
  end.
Definition after_loop (w : World) (t : Turn) : Exit :=
  let t := match termination_reason t with None => end_with "round_ceiling" t | Some _ => t end in
  if did_tool_calls t && bool_decide (termination_reason t ≠ Some "compaction_failed"%string)
  then _stream_final_answer w t else Returned t.

Definition new_turn (active : list string) (requested : string) (s : Summary) : Turn :=
  mkTurn 0 0 0 false false false false false requested None 0 0 0 false 0 new_compaction new_detector
    (mkGateState [] [] [] [] ∅ ∅ [] []) active s None None [].
(** [run_agent] from the loop on: the last world is the final answer's. *)
Definition run_agent (fuel reflect_count : nat) (worlds : nat → World) (last : World) (t : Turn)
    : option Exit :=
  match turn_loop fuel reflect_count worlds 0 t with
  | Some (LoopLeft t) => Some (after_loop last t)
  | e => e
  end.
End turn.

(** ** What a turn spends *)

(** The counters that bound a turn. *)
Record Account := mkAccount {
  a_round : nat; a_total : nat; a_renewals : nat; a_nudges : nat; a_rereads : nat;
  a_lengths : nat; a_followups : nat; a_recoveries : nat;
  a_fallback : bool; a_loop_break : bool; a_compaction : Compaction
}.
#[export] Instance Account_settable : Settable Account := λ a,
  mkAccount (a_round a) (a_total a) (a_renewals a) (a_nudges a) (a_rereads a) (a_lengths a)
    (a_followups a) (a_recoveries a) (a_fallback a) (a_loop_break a) (a_compaction a).
Definition account (t : Turn) : Account :=
  mkAccount (tool_round t) (rounds_spent t) (renewals t) (ask_user_continues t) (rereads t)
    (length_continuations t) (forced_followups t) (recovery_passes (stuck t)) (tried_fallback t)
    (loop_break_used (stuck t)) (compaction t).
Definition spend_round (a : Account) : Account := a <| a_round ::= S |> <| a_total ::= S |>.

(** A compaction that was counted, or declined, left a measure behind. *)
Definition measured (c : Compaction) : Prop :=
  tokens_before_last c ≠ None → refused c = true ∨ 1 ≤ attempts c.
(** The size the next compile is measured against. *)
Definition awaited (c : Compaction) : option N :=
  if awaiting_measure c then tokens_before_last c else None.
(** From the loop's head to the request: attempts only grow within their limit,
    and where none was counted an overflow can only be handed back when this
    compile is 5% below the one awaited. *)
Definition prepared (tc : N) (c c' : Compaction) : Prop :=
  measured c' ∧ attempts c ≤ attempts c' ∧ (attempts c' ≤ attempts c ∨ attempts c' ≤ 3) ∧
  (attempts c' = attempts c → stalled c' = false →
   ∀ before, awaited c = Some before → (20 * tc < 19 * before)%N).

Lemma observe_frame tc c :
  attempts (observe tc c) = attempts c ∧ refused (observe tc c) = refused c ∧
  tokens_before_last (observe tc c) = tokens_before_last c.
Proof. unfold observe. destruct (awaiting_measure c); [destruct (tokens_before_last c) eqn:H; cbn; by rewrite ?H|done]. Qed.
Lemma observe_stalled tc c before :
  awaited c = Some before → stalled (observe tc c) = false → (20 * tc < 19 * before)%N.
Proof.
  unfold awaited, observe. destruct (awaiting_measure c); [|done]. intros ->. cbn. by intros ?%N.leb_gt.
Qed.
Lemma run_measured tc res c : measured (run_compaction tc res c).
Proof. unfold measured, run_compaction. cbn. intros _. case_bool_decide; [by left|right; lia]. Qed.
Lemma run_attempts tc res c :
  attempts (run_compaction tc res c) = if decide (res = Declined) then attempts c else S (attempts c).
Proof. unfold run_compaction. cbn. rewrite bool_decide_decide. by destruct (decide _). Qed.

Section spending.
Context (cfg : Config) (tools : gmap string ToolInfo) (disabled : gset string).
Context (resolve_model_id : string → string) (salvage : string → option (string * list Fragment)).
Context (claims_action announces_work : string → bool) (unsourced : string → list Message → list string).
Context (loads : string → option Json) (dumps : Json → string) (hash : RawArgs → string)
  (py_str : Json → string) (py_eq : Json → Json → bool) (casefold : text → text)
  (to_float : string → option (string * option Z)) (py_in : Json → list Json → bool)
  (dump_hash : Args → string) (digest url_host : string → string).

(** What one iteration that goes on has paid: it renewed the window, counted a
    compaction, was handed an overflow it could act on, had its calls discarded,
    re-read an edited message, or consumed a round. *)
Inductive pays (tc : N) (res : CompactResult) (a : Account) : Account → Prop :=
| pays_renewal : max_tool_rounds cfg ≤ S (a_round a) → a_renewals a < authorized_renewals cfg →
    pays tc res a (a <| a_renewals ::= S |> <| a_round := 0 |>)
| pays_compaction c : prepared tc (a_compaction a) c → attempts (a_compaction a) < attempts c →
    pays tc res a (a <| a_compaction := c |>)
| pays_failover c : prepared tc (a_compaction a) c → a_fallback a = false →
    pays tc res a (a <| a_fallback := true |> <| a_compaction := c |>)
| pays_overflow c f : prepared tc (a_compaction a) c → (a_fallback a = true → f = true) →
    can_help_with_overflow c = true →
    pays tc res a (a <| a_fallback := f |> <| a_compaction := run_compaction tc res c |>)
| pays_discard c f n b : prepared tc (a_compaction a) c → (a_fallback a = true → f = true) →
    (b = true ∧ a_loop_break a = false ∧ n = a_nudges a ∨
     b = a_loop_break a ∧ n = S (a_nudges a) ∧ a_nudges a < STUCK_ASK_USER_LIMIT) →
    pays tc res a (a <| a_fallback := f |> <| a_compaction := c |> <| a_nudges := n |> <| a_loop_break := b |>)
| pays_reread c f : prepared tc (a_compaction a) c → (a_fallback a = true → f = true) →
    a_rereads a < FINAL_ANSWER_REREAD_LIMIT →
    pays tc res a (a <| a_fallback := f |> <| a_compaction := c |> <| a_rereads ::= S |>)
| pays_round c f l u n r : prepared tc (a_compaction a) c → (a_fallback a = true → f = true) →
    (l = a_lengths a ∨ l = S (a_lengths a) ∧ a_lengths a < LENGTH_CONTINUATION_LIMIT) →
    (u = a_followups a ∨ u = S (a_followups a) ∧ a_followups a < followup_cap cfg) →
    (n = 0 ∨ n = a_nudges a) →
    (r = a_recoveries a ∨ r = S (a_recoveries a) ∧ a_recoveries a < RECOVERY_LIMIT) →
    pays tc res a (spend_round (a <| a_fallback := f |> <| a_compaction := c |> <| a_lengths := l |>
                 <| a_followups := u |> <| a_nudges := n |> <| a_recoveries := r |>)).

Abbreviation iteration := (iterate cfg tools disabled resolve_model_id salvage claims_action announces_work
  unsourced loads dumps hash py_str py_eq casefold to_float py_in dump_hash digest url_host).

Lemma observed_prepared tc c : measured c → prepared tc c (observe tc c).
Proof.
  intros Hm. destruct (observe_frame tc c) as (Ha & Hr & Ht). split_and!; try lia.
  - unfold measured. by rewrite Ha, Hr, Ht.
  - intros _ Hs before Hb. by apply (observe_stalled _ c).
Qed.
(** Running the compactor when it may still help. *)
Lemma run_prepared tc res c c' :
  prepared tc c c' → attempts c' < 3 → stalled c' = false →
  prepared tc c (run_compaction tc res c').
Proof.
  intros (Hm & Hle & Hor & Hs) Hlt Hst. split_and!; [apply run_measured|..]; rewrite ?run_attempts;
    try (destruct (decide _); lia).
  destruct (decide (res = Declined)); intros Heq _; [by apply Hs|lia].
Qed.
Lemma floor_prepared tc c c' :
  prepared tc c c' → prepared tc c (c' <| floor_announced := true |>).
Proof. done. Qed.

Lemma health_prepared w t :
  measured (compaction t) →
  let tc := p_token_count (payload w) in
  let t0 := t <| compaction ::= observe tc |> in
  match context_health cfg w t0 with
  | Healthy t1 => ∃ c, t1 = t0 <| compaction := c |> ∧ prepared tc (compaction t) c ∧
      (refused c = true ∨ c = observe tc (compaction t))
  | Recompile t1 => ∃ c, t1 = t0 <| compaction := c |> ∧ prepared tc (compaction t) c ∧
      attempts (compaction t) < attempts c
  | Full _ => True
  end.
Proof.
  intros Hm. cbv zeta. set (tc := p_token_count (payload w)).
  pose proof (observed_prepared tc _ Hm) as Hp. set (t0 := t <| compaction ::= observe tc |>).
  assert (t0 = t0 <| compaction := observe tc (compaction t) |>) as Hid by done.
  unfold context_health. cbv zeta. destruct (critical cfg (payload w)); [|exists (observe tc (compaction t)); auto].
  change (compaction t0) with (observe tc (compaction t)). set (c0 := observe tc (compaction t)) in *.
  destruct (negb (exhausted c0) && negb (stalled c0) && negb (cannot_help c0)) eqn:Htry; cbn [andb].
  - apply andb_true_iff in Htry as [[Hex Hst]%andb_true_iff _].
    apply negb_true_iff in Hex, Hst. unfold exhausted, ATTEMPT_LIMIT in Hex. apply Nat.leb_gt in Hex.
    pose proof (run_prepared tc (compactor w 0) _ _ Hp Hex Hst) as Hrun.
    case_bool_decide as Hc.
    + exists (run_compaction tc (compactor w 0) c0). split_and!; [done..|]. rewrite run_attempts, Hc.
      destruct Hp as (_ & ? & _). rewrite decide_False by done. lia.
    + destruct (cannot_help _) eqn:Hcan; [|done]. eexists. split_and!; [reflexivity|by apply floor_prepared|].
      left. exact Hcan.
  - change (compaction t0) with c0. destruct (cannot_help c0) eqn:Hcan; [|done].
    exists (c0 <| floor_announced := true |>). split_and!; [done|by apply floor_prepared|by left].
Qed.
Lemma proactive_prepared w t c1 :
  measured (compaction t) → let tc := p_token_count (payload w) in
  let t1 := t <| compaction := c1 |> in
  prepared tc (compaction t) c1 → (refused c1 = true ∨ c1 = observe tc (compaction t)) →
  ∃ c, proactive w t1 = t <| compaction := c |> ∧ prepared tc (compaction t) c.
Proof.
  intros Hm. cbv zeta. set (tc := p_token_count (payload w)). intros Hp Hor. unfold proactive. cbv zeta.
  destruct (_ && _ && _) eqn:Hrun; [|by exists c1].
  apply andb_true_iff in Hrun as [[_ H0%Nat.eqb_eq]%andb_true_iff Hr%negb_true_iff].
  change (attempts c1 = 0) in H0. change (refused c1 = false) in Hr.
  destruct Hor as [Hor|Heq]; [congruence|]. destruct (observe_frame tc (compaction t)) as (Ha & Hf & _).
  exists (run_compaction tc (compactor w 1) c1). split; [done|].
  assert (tokens_before_last (compaction t) = None) as Hnone.
  { apply dec_stable. intros [H|H]%Hm; [rewrite <-Hf, <-Heq in H; congruence|rewrite <-Ha, <-Heq in H; lia]. }
  rewrite Heq in H0. split_and!; [apply run_measured|..]; rewrite ?run_attempts, ?Heq;
    try (destruct (decide _); lia).
  intros _ _ before. unfold awaited. rewrite Hnone. by destruct (awaiting_measure _).
Qed.

Lemma on_text_pays w content offered loop_break forced t t' :
  on_text cfg claims_action announces_work unsourced w content offered loop_break forced t = Continue t' →
  (∃ u, (u = forced_followups t ∨ u = S (forced_followups t) ∧ forced_followups t < followup_cap cfg) ∧
        account t' = spend_round ((account t) <| a_followups := u |>)) ∨
  account t' = (account t) <| a_rereads ::= S |> ∧ rereads t < FINAL_ANSWER_REREAD_LIMIT.
Proof.
  unfold on_text. cbv zeta.
  destruct (negb _ && _ && _ && _ && _).
  { intros [= <-]. left. exists (forced_followups t). auto. }
  destruct (bool_decide _). { intros [= <-]. left. exists (forced_followups t). auto. }
  destruct (_ && _ && _ && _ && _ && _) eqn:Hf.
  { intros [= <-]. left. exists (S (forced_followups t)). split; [right; split; [done|]|done].
    do 4 apply andb_true_iff in Hf as [Hf _]. apply andb_true_iff in Hf as [_ Hf%Nat.ltb_lt]. done. }
  clear Hf. destruct (_ && _ && _) eqn:Hr; [|done]. intros [= <-]. right.
  apply andb_true_iff in Hr as [[_ Hr%Nat.ltb_lt]%andb_true_iff _].
  by destruct (has_text content).
Qed.
Lemma marked_kept before after d : kept (note_rejections py_str before after d) = kept d.
Proof. unfold note_rejections. destruct (_ <? _); [apply mark_failure_kept|done]. Qed.
Lemma account_kept t d : kept d = kept (stuck t) → account (t <| stuck := d |>) = account t.
Proof. unfold kept, account. cbn. by intros [= -> -> _ _ _]. Qed.
(** What the bookkeeping of results leaves alone. *)
Definition loop_state (t : Turn) := (account t, kept (stuck t), objs (gate t), termination_reason t).
Lemma remember_objs name raw round content g :
  objs (remember_success hash name raw round content g) = objs g.
Proof. unfold remember_success. cbv zeta. by repeat case_bool_decide. Qed.
Lemma loop_state_stuck t d : kept d = kept (stuck t) → loop_state (t <| stuck := d |>) = loop_state t.
Proof.
  intros H. unfold loop_state. rewrite account_kept by done. cbn. by rewrite H.
Qed.
Lemma book_result_state tc args res t :
  loop_state (book_result hash py_str dump_hash digest tc args res t) = loop_state t ∧
  rows (book_result hash py_str dump_hash digest tc args res t) = rows t.
Proof.
  unfold book_result. cbv zeta. destruct (_ && _); [|destruct (r_error res)]; (split; [|done]).
  - etrans; [apply (loop_state_stuck (t <| gate ::= _ |>)), mark_failure_kept|done].
  - apply loop_state_stuck, mark_success_kept.
  - etrans; [|apply (loop_state_stuck t), (mark_success_kept py_str dump_hash digest)].
    unfold loop_state. cbn. by rewrite remember_objs.
Qed.
Lemma record_result_state rc t e :
  loop_state (record_result cfg tools disabled hash py_str dump_hash digest url_host rc t e) = loop_state t ∧
  rows (record_result cfg tools disabled hash py_str dump_hash digest url_host rc t e) =
    rows t ++ [ToolRow (c_id (obj (gate t) e.1.1)) (Answered e.2)].
Proof.
  destruct e as [[r args] res]. unfold record_result. cbv zeta. cbn [fst snd].
  set (t1 := book_result _ _ _ _ _ _ _ _).
  destruct (book_result_state (obj (gate t) r) args res
    (write (ToolRow (c_id (obj (gate t) r)) (Answered res)) t)) as [Hs Hr].
  change (loop_state t1 = loop_state t) in Hs. fold t1 in Hr.
  assert (loop_state (t1 <| stuck ::= observe_result url_host (r_tool res) args (r_content res) (r_error res) |>)
          = loop_state t) as Ho.
  { rewrite <-Hs. apply loop_state_stuck, observe_result_kept. }
  destruct (_ && _ && _); (split; [rewrite <-Ho; done|exact Hr]).
Qed.

Lemma foldl_write {A} (f : A → Row) (l : list A) t :
  foldl (λ t x, write (f x) t) t l = t <| rows ::= λ rs, rs ++ (f <$> l) |>.
Proof.
  revert t. induction l as [|x l IH]; intros t; cbn.
  - destruct t. unfold modify. cbn. by rewrite app_nil_r.
  - rewrite IH. destruct t. unfold write, modify. cbn. by rewrite <-app_assoc.
Qed.
Lemma record_results_state rc t l :
  let t' := foldl (record_result cfg tools disabled hash py_str dump_hash digest url_host rc) t l in
  loop_state t' = loop_state t ∧
  rows t' = rows t ++ ((λ e, ToolRow (c_id (obj (gate t) e.1.1)) (Answered e.2)) <$> l).
Proof.
  cbv zeta. revert t. induction l as [|e l IH]; intros t; [by rewrite app_nil_r|]. cbn [foldl].
  destruct (record_result_state rc t e) as [Hs Hr].
  destruct (IH (record_result cfg tools disabled hash py_str dump_hash digest url_host rc t e)) as [H1 H2].
  split; [by etrans|]. rewrite H2, Hr, <-app_assoc. cbn. do 2 f_equal. apply list_fmap_ext. intros _ e' _.
  assert (objs (gate (record_result cfg tools disabled hash py_str dump_hash digest url_host rc t e)) = objs (gate t))
    as Ho by (by injection Hs).
  unfold obj. by rewrite Ho.
Qed.

Abbreviation round_of_calls := (on_calls cfg tools disabled loads dumps hash py_str py_eq casefold to_float py_in
  dump_hash digest url_host).
Abbreviation round_run := (run_round cfg tools disabled loads dumps hash py_str py_eq casefold to_float py_in
  dump_hash digest url_host).
Lemma run_round_pays w rc content calls t t' :
  round_run w rc content calls t = Continue t' → account t' = spend_round (account t).
Proof.
  unfold run_round. destruct (gate_admit _ _ _ _ _ _ _ _ _ _ _ _ _) as [[parsed g]|]; [|done]. cbv zeta.
  rewrite foldl_write.
  set (t1 := (write _ _) <| rows ::= _ |>).
  assert (account t1 = account t) as Ht1.
  { pose proof (account_kept t (note_rejections py_str (gate t) g (stuck t)) (marked_kept _ _ _)) as <-. done. }
  destruct (if decide _ then _ else _) as [results|]; [|done].
  destruct (record_results_state rc t1 (zip parsed results)) as [Hs _].
  set (t2 := foldl _ t1 _) in *.
  assert (account t2 = account t1) as Ha by exact (f_equal (λ p, p.1.1.1) Hs).
  unfold _post_round_gate. destruct (cancelled w 3), (waiting_for_input w), (waiting_for_workers w); try done.
  intros [= <-]. rewrite <-Ht1, <-Ha. done.
Qed.
Lemma on_calls_pays w rc content fragments t t' :
  round_of_calls w rc content fragments t = Continue t' →
  (∃ n b, (b = true ∧ loop_break_used (stuck t) = false ∧ n = ask_user_continues t ∨
           b = loop_break_used (stuck t) ∧ n = S (ask_user_continues t) ∧
             ask_user_continues t < STUCK_ASK_USER_LIMIT) ∧
          account t' = (account t) <| a_nudges := n |> <| a_loop_break := b |>) ∨
  ∃ n r, (n = 0 ∨ n = ask_user_continues t) ∧
         (r = recovery_passes (stuck t) ∨ r = S (recovery_passes (stuck t)) ∧ recovery_passes (stuck t) < RECOVERY_LIMIT) ∧
         account t' = spend_round ((account t) <| a_nudges := n |> <| a_recoveries := r |>).
Proof.
  unfold on_calls. cbv zeta.
  destruct (evaluate _ _ _ _ _ _ _ _ _) as [[d score]|] eqn:He; [|done].
  apply evaluate_spec in He as (_ & _ & _ & Hrec & _ & Hloop & _). cbn in Hrec, Hloop.
  rewrite foldl_write.
  destruct (_handle_stuck_signals _ _ _ _ _ _ _ _ _ _) as [[[a n] d'] notices] eqn:Hh.
  apply handle_cost in Hh. cbn in Hh. rewrite Hrec, Hloop in Hh. rewrite foldl_write. destruct a; [| |done].
  - intros ->%run_round_pays. right. destruct Hh as (Hb & Hn & Hr). exists n, (recovery_passes d').
    split_and!; [done..|]. unfold account. cbn. by rewrite Hb.
  - intros [= <-]. left. destruct Hh as (Hr & Hh). exists n, (loop_break_used d').
    split; [naive_solver|]. unfold account. cbn. by rewrite Hr.
Qed.

(** An iteration that goes on has paid for it. *)
Lemma on_response_pays tc a w rc o effective lb forced t t' c f :
  tc = p_token_count (payload w) → prepared tc (a_compaction a) c → (a_fallback a = true → f = true) →
  account t = a <| a_fallback := f |> <| a_compaction := c |> →
  (o_context_overflow o ≠ None → can_help_with_overflow c = true) →
  effective = _resolve_effective_model cfg resolve_model_id w (a_fallback a) →
  on_response cfg tools disabled resolve_model_id salvage claims_action announces_work unsourced loads dumps
    hash py_str py_eq casefold to_float py_in dump_hash digest url_host w rc o effective lb forced t = Continue t' →
  pays tc (compactor w 2) a (account t').
Proof.
  intros -> Hp Hf Ha Hover Heff. unfold on_response. cbv zeta.
  assert (a_fallback (account t) = f) as Hfb by by rewrite Ha. change (tried_fallback t = f) in Hfb.
  assert (a_compaction (account t) = c) as Hc by by rewrite Ha. change (compaction t = c) in Hc.
  destruct (o_context_overflow o) as [msg|].
  { intros [= <-]. unfold on_overflow. rewrite Hfb. case_decide as Hne.
    - rewrite Ha. assert (f = true ∧ a_fallback a = false) as [-> Hfalse].
      { rewrite Heff in Hne. destruct (a_fallback a), f; [done|by specialize (Hf eq_refl)|done|done]. }
      by apply pays_failover.
    - assert (account (t <| compaction ::= run_compaction (p_token_count (payload w)) (compactor w 2) |>) =
              a <| a_fallback := f |> <| a_compaction := run_compaction (p_token_count (payload w)) (compactor w 2) c |>) as ->.
      { rewrite <-Hc. change (account (t <| compaction ::= run_compaction (p_token_count (payload w)) (compactor w 2) |>))
          with ((account t) <| a_compaction := run_compaction (p_token_count (payload w)) (compactor w 2) (compaction t) |>).
        by rewrite Ha. }
      apply pays_overflow; auto. }
  clear Hover. destruct (o_error o); [done|].
  assert (length_continuations t = a_lengths a) as Hl by exact (f_equal a_lengths Ha).
  assert (forced_followups t = a_followups a) as Hu by exact (f_equal a_followups Ha).
  assert (ask_user_continues t = a_nudges a) as Hn by exact (f_equal a_nudges Ha).
  assert (recovery_passes (stuck t) = a_recoveries a) as Hr by exact (f_equal a_recoveries Ha).
  assert (loop_break_used (stuck t) = a_loop_break a) as Hb by exact (f_equal a_loop_break Ha).
  assert (rereads t = a_rereads a) as Hrr by exact (f_equal a_rereads Ha).
  destruct (_ && _ && _ && _) eqn:Hlen.
  { intros [= <-]. apply andb_true_iff in Hlen as [_ Hlen%Nat.ltb_lt].
    change (pays (p_token_count (payload w)) (compactor w 2) a (spend_round ((account t) <| a_lengths := S (length_continuations t) |>))).
    rewrite Ha, Hl. rewrite Hl in Hlen.
    apply (pays_round _ _ a c f (S (a_lengths a)) (a_followups a) (a_nudges a) (a_recoveries a)); auto. }
  match goal with |- context [if ?b then default ?x ?y else ?z] =>
    destruct (if b then default x y else z) as [content [|fr frs]] end.
  - intros [(u & Hcu & ->)|[-> Hlt]]%on_text_pays; rewrite Ha.
    + apply (pays_round _ _ a c f (a_lengths a) u (a_nudges a) (a_recoveries a)); auto. by rewrite <-Hu.
    + apply (pays_reread _ _ a c f); auto. by rewrite <-Hrr.
  - intros [(n & b & Hcb & ->)|(n & r & Hcn & Hcr & ->)]%on_calls_pays; rewrite Ha.
    + apply (pays_discard _ _ a c f n b); auto. by rewrite <-Hb, <-Hn.
    + apply (pays_round _ _ a c f (a_lengths a) (a_followups a) n r); auto; by rewrite <-?Hn, <-?Hr.
Qed.

Lemma iterate_pays w rc t t' :
  measured (compaction t) → iteration rc w t = Continue t' →
  pays (p_token_count (payload w)) (compactor w 2) (account t) (account t').
Proof.
  intros Hm. unfold iterate.
  assert (∀ x, _pre_round_gate cfg w t = (RunRound, x) → x = t) as Hgate.
  { intros x. unfold _pre_round_gate. repeat case_match; congruence. }
  destruct (_pre_round_gate cfg w t) as [[] t0] eqn:Hg; [|done..].
  rewrite (Hgate _ eq_refl) in *. clear Hg t0 Hgate.
  destruct (renews cfg w t) eqn:Hren.
  { intros [= <-]. unfold renews in Hren.
    apply andb_true_iff in Hren as [[[H1%Nat.leb_le _]%andb_true_iff H2%Nat.ltb_lt]%andb_true_iff _].
    by apply pays_renewal. }
  destruct (negb (compiles w)); [done|]. cbv zeta.
  pose proof (health_prepared w t Hm) as Hh. cbv zeta in Hh.
  destruct (context_health cfg w _) as [t1|t1|t1]; [| |done].
  - destruct Hh as (c1 & -> & Hp1 & Hor).
    destruct (proactive_prepared w t c1 Hm Hp1 Hor) as (c & Hc & Hp).
    set (t2 := proactive w _). assert (t2 = t <| compaction := c |>) as -> by exact Hc. clear Hc.
    destruct (stream_with_failover _ _ _ _ _) as [[[o run]|]|] eqn:Hs; [|done..].
    apply start_outcome in Hs as [Hover Hfb]. intros H.
    eapply (on_response_pays _ (account t) w rc o _ _ _ _ _ c (o_tried_fallback o)); [..|exact H];
      [done|done|exact Hfb|done|exact Hover|done].
  - destruct Hh as (c & -> & Hp & Hlt). intros [= <-]. by apply pays_compaction.
Qed.

(** ** The turn ends *)
Definition weight (a : Account) : nat :=
  4 * ((max_tool_rounds cfg - a_round a) + (authorized_renewals cfg - a_renewals a) * max_tool_rounds cfg) +
  (3 - a_nudges a) + (if a_loop_break a then 0 else 1) + (1 - a_rereads a) +
  (3 - attempts (a_compaction a)) + (if a_fallback a then 0 else 1).
#[local] Arguments Nat.mul : simpl never.

Lemma pays_decreases tc res a a' :
  measured (a_compaction a) → a_round a < max_tool_rounds cfg → pays tc res a a' →
  measured (a_compaction a') ∧
  (weight a' < weight a ∨
   res = Declined ∧ weight a' ≤ weight a ∧ awaited (a_compaction a') = Some tc ∧
   ∀ before, awaited (a_compaction a) = Some before → (tc < before)%N).
Proof.
  intros Hm Hround H. unfold weight.
  destruct H as [Hr Hlt|c Hp Hlt|c Hp Hf|c f Hp Hf Hcan|c f n b Hp Hf Hcost|c f Hp Hf Hlt|
                 c f l u n r Hp Hf _ _ Hn _]; cbn;
    try (destruct Hp as (Hm' & Hle & Hcap & Hst)).
  - split; [done|left].
    replace (authorized_renewals cfg - a_renewals a) with (S (authorized_renewals cfg - S (a_renewals a))) by lia.
    rewrite Nat.mul_succ_l. lia.
  - split; [done|left]. lia.
  - split; [done|left]. rewrite Hf. lia.
  - split; [apply run_measured|]. rewrite bool_decide_decide.
    unfold can_help_with_overflow in Hcan. apply negb_true_iff, orb_false_iff in Hcan as [Hex Hst'].
    unfold exhausted, ATTEMPT_LIMIT in Hex. apply Nat.leb_gt in Hex.
    assert ((if f then 0 else 1) ≤ (if a_fallback a then 0 else 1)) as Hfb.
    { destruct (a_fallback a); [by rewrite Hf|destruct f; lia]. }
    destruct (decide (res = Declined)) as [Hd|]; [|left; lia].
    destruct (decide (attempts c = attempts (a_compaction a))) as [Heq|]; [right|left; lia].
    split_and!; [done|lia|done|]. intros before Hb. specialize (Hst Heq Hst' before Hb). lia.
  - split; [done|left]. assert ((if f then 0 else 1) ≤ (if a_fallback a then 0 else 1)) as Hfb.
    { destruct (a_fallback a); [by rewrite Hf|destruct f; lia]. }
    unfold STUCK_ASK_USER_LIMIT in Hcost. destruct Hcost as [(-> & -> & ->)|(-> & -> & ?)]; lia.
  - split; [done|left]. assert ((if f then 0 else 1) ≤ (if a_fallback a then 0 else 1)) as Hfb.
    { destruct (a_fallback a); [by rewrite Hf|destruct f; lia]. }
    unfold FINAL_ANSWER_REREAD_LIMIT in Hlt. lia.
  - split; [done|left]. assert ((if f then 0 else 1) ≤ (if a_fallback a then 0 else 1)) as Hfb.
    { destruct (a_fallback a); [by rewrite Hf|destruct f; lia]. }
    destruct Hn as [->| ->]; lia.
Qed.

Abbreviation loop := (turn_loop cfg tools disabled resolve_model_id salvage claims_action announces_work
  unsourced loads dumps hash py_str py_eq casefold to_float py_in dump_hash digest url_host).
Definition ends (rc : nat) (worlds : nat → World) (i : nat) (t : Turn) : Prop :=
  ∃ n e, ∀ more, loop (n + more) rc worlds i t = Some e.
Lemma ends_step rc worlds i t :
  (∀ t', iteration rc (worlds i) t = Continue t' → tool_round t < max_tool_rounds cfg → ends rc worlds (S i) t') →
  ends rc worlds i t.
Proof.
  intros H. destruct (max_tool_rounds cfg <=? tool_round t) eqn:Hmax.
  { exists 0, (LoopLeft t). intros more. destruct more; cbn; by rewrite Hmax. }
  destruct (iteration rc (worlds i) t) as [t'|t'|t'|t'] eqn:Hit.
  - apply Nat.leb_gt in Hmax as Hlt. destruct (H t' eq_refl Hlt) as (n & e & Hn).
    exists (S n), e. intros more. cbn. by rewrite Hmax, Hit.
  - exists 1, (Returned t'). intros more. cbn. by rewrite Hmax, Hit.
  - exists 1, (LoopLeft t'). intros more. cbn. by rewrite Hmax, Hit.
  - exists 1, (Escaped t'). intros more. cbn. by rewrite Hmax, Hit.
Qed.
Lemma turn_ends_from rc worlds n i t :
  measured (compaction t) → weight (account t) ≤ n → ends rc worlds i t.
Proof.
  revert i t. induction n as [n IH] using lt_wf_ind. intros i t Hm Hw.
  assert (∀ before i t, measured (compaction t) → weight (account t) ≤ n → awaited (compaction t) = Some before →
    ends rc worlds i t) as Hchain.
  { intros before. induction before as [before IHb] using (well_founded_induction N.lt_wf_0).
    clear i t Hm Hw. intros i t Hm Hw Haw. apply ends_step. intros t' Hit Hlt.
    apply iterate_pays in Hit; [|done]. apply pays_decreases in Hit as [Hm' Hor]; [|done..].
    destruct Hor as [Hdec|(_ & Hle & Haw' & Hb)]; [by eapply (IH (weight (account t'))); [lia|..]|].
    eapply IHb; [by apply Hb|done|cbn in *; lia|exact Haw']. }
  apply ends_step. intros t' Hit Hlt.
  apply iterate_pays in Hit; [|done]. apply pays_decreases in Hit as [Hm' Hor]; [|done..].
  destruct Hor as [Hdec|(_ & Hle & Haw' & _)]; [by eapply (IH (weight (account t'))); [lia|..]|].
  eapply Hchain; [done| |exact Haw']. lia.
Qed.
Lemma turn_ends_within rc worlds n i t :
  (∀ i, compactor (worlds i) 2 ≠ Declined) → measured (compaction t) → weight (account t) ≤ n →
  is_Some (loop (S n) rc worlds i t).
Proof.
  intros Hnever. revert i t. induction n as [|n IH]; intros i t Hm Hw; cbn [turn_loop];
    destruct (max_tool_rounds cfg <=? tool_round t) eqn:Hmax; try (by eexists);
    apply Nat.leb_gt in Hmax; destruct (iteration rc (worlds i) t) as [t'|t'|t'|t'] eqn:Hit; try (by eexists);
    apply iterate_pays in Hit; try done; apply pays_decreases in Hit as [Hm' [Hdec|(Hd & _)]]; try done;
    try (by specialize (Hnever i)); try (by apply Hnever in Hd).
  - lia.
  - apply IH; [done|lia].
Qed.

(** ** Budgets *)
Inductive loop_reaches (rc : nat) (worlds : nat → World) (t0 : Turn) : nat → Turn → Prop :=
| reaches_start : loop_reaches rc worlds t0 0 t0
| reaches_step i t t' : loop_reaches rc worlds t0 i t → tool_round t < max_tool_rounds cfg →
    iteration rc (worlds i) t = Continue t' → loop_reaches rc worlds t0 (S i) t'.
Definition within (a : Account) : Prop :=
  a_round a ≤ max_tool_rounds cfg ∧
  a_total a ≤ a_renewals a * max_tool_rounds cfg + a_round a ∧
  a_renewals a ≤ authorized_renewals cfg ∧ a_nudges a ≤ STUCK_ASK_USER_LIMIT ∧
  a_rereads a ≤ FINAL_ANSWER_REREAD_LIMIT ∧ a_lengths a ≤ LENGTH_CONTINUATION_LIMIT ∧
  a_followups a ≤ followup_cap cfg ∧ a_recoveries a ≤ RECOVERY_LIMIT ∧
  attempts (a_compaction a) ≤ ATTEMPT_LIMIT.
Lemma prepared_capped tc c c' : prepared tc c c' → attempts c ≤ 3 → attempts c' ≤ 3.
Proof. intros (_ & _ & ? & _). lia. Qed.
Lemma pays_within tc res a a' :
  a_round a < max_tool_rounds cfg → pays tc res a a' → within a → within a'.
Proof.
  unfold within, STUCK_ASK_USER_LIMIT, FINAL_ANSWER_REREAD_LIMIT, LENGTH_CONTINUATION_LIMIT, RECOVERY_LIMIT, ATTEMPT_LIMIT.
  intros Hround H (H1 & H2 & H3 & H4 & H5 & H6 & H7 & H8 & H9).
  destruct H as [Hr Hlt|c Hp Hlt|c Hp Hf|c f Hp Hf Hcan|c f n b Hp Hf Hcost|c f Hp Hf Hlt|
                 c f l u n r Hp Hf Hl Hu Hn Hrec]; cbn;
    try (pose proof (prepared_capped _ _ _ Hp H9)).
  - rewrite Nat.mul_succ_l. split_and!; lia.
  - split_and!; lia.
  - split_and!; lia.
  - unfold can_help_with_overflow in Hcan. apply negb_true_iff, orb_false_iff in Hcan as [Hex _].
    unfold exhausted, ATTEMPT_LIMIT in Hex. apply Nat.leb_gt in Hex. case_bool_decide; split_and!; lia.
  - unfold STUCK_ASK_USER_LIMIT in Hcost. split_and!; lia.
  - unfold FINAL_ANSWER_REREAD_LIMIT in Hlt. split_and!; lia.
  - unfold LENGTH_CONTINUATION_LIMIT in Hl. unfold RECOVERY_LIMIT in Hrec. split_and!; lia.
Qed.
Lemma reaches_within rc worlds t0 i t :
  measured (compaction t0) → within (account t0) → loop_reaches rc worlds t0 i t →
  measured (compaction t) ∧ within (account t).
Proof.
  intros Hm Hw. induction 1 as [|i t t' _ [Hmt Hwt] Hlt Hit]; [done|].
  apply iterate_pays in Hit; [|done]. split.
  - exact (proj1 (pays_decreases _ _ (account t) _ Hmt Hlt Hit)).
  - exact (pays_within _ _ (account t) _ Hlt Hit Hwt).
Qed.
Lemma new_measured : measured new_compaction.
Proof. by intros []. Qed.
Lemma new_turn_within active requested s : within (account (new_turn active requested s)).
Proof. unfold within. cbn. split_and!; lia. Qed.


(** C25: A turn stays within its budgets.  At every head of the loop the rounds
    spent are those of the windows granted, no more windows than authorized,
    and no more nudges, re-readings, length continuations, forced follow-ups,
    recovery passes and compactions have been used than their limits allow. *)
Theorem turn_stays_in_budget (rc : nat) (worlds : nat → World) (active : list string) (requested : string)
    (s : Summary) (i : nat) (t : Turn)
    (Hreach : loop_reaches rc worlds (new_turn active requested s) i t) :
  rounds_spent t ≤ max_tool_rounds cfg * S (authorized_renewals cfg) ∧
  renewals t ≤ authorized_renewals cfg ∧ ask_user_continues t ≤ STUCK_ASK_USER_LIMIT ∧
  rereads t ≤ FINAL_ANSWER_REREAD_LIMIT ∧ length_continuations t ≤ LENGTH_CONTINUATION_LIMIT ∧
  forced_followups t ≤ followup_cap cfg ∧ recovery_passes (stuck t) ≤ RECOVERY_LIMIT ∧
  attempts (compaction t) ≤ ATTEMPT_LIMIT.
Proof.
  apply reaches_within in Hreach as [_ (H1 & H2 & H3 & H)]; [|apply new_measured|apply new_turn_within].
  change (tool_round t ≤ max_tool_rounds cfg) in H1. cbn in H2, H3.
  split_and!; try apply H; [|exact H3].
  assert (renewals t * max_tool_rounds cfg ≤ authorized_renewals cfg * max_tool_rounds cfg)
    by by apply Nat.mul_le_mono_r.
  rewrite Nat.mul_succ_r, (Nat.mul_comm (max_tool_rounds cfg)). lia.
Qed.
End spending.

(** ** Every call row is answered *)

(** The tool rows' ids. *)
Definition plain (r : Row) : Prop :=
  match r with AssistantRow _ [] | PartialRow _ | SystemRow _ => True | _ => False end.
Definition named (ids : list string) : list string := filter (λ id, id ≠ ""%string) ids.
(** An assistant row with calls is directly followed by one tool row for each
    of them, in some order; calls with no id may go without. *)
Inductive answered : list Row → Prop :=
| answered_nil : answered []
| answered_row rs r : answered rs → plain r → answered (rs ++ [r])
| answered_calls rs content (calls : list TCall) (replies : list (string * ToolBody)) :
    answered rs → named replies.*1 ≡ₚ named (c_id <$> calls) →
    answered (rs ++ AssistantRow content calls :: ((λ e, ToolRow e.1 e.2) <$> replies)).
Lemma answered_rows rs rs' : answered rs → Forall plain rs' → answered (rs ++ rs').
Proof.
  intros H Hp. revert rs H. induction Hp as [|r rs' Hr _ IH]; intros rs H; [by rewrite app_nil_r|].
  rewrite cons_middle, app_assoc. apply IH. by constructor.
Qed.
Definition next_turn (n : Next) : Turn :=
  match n with Continue t | Return t | Break t | Escape t => t end.

Section transcript.
Context (cfg : Config) (tools : gmap string ToolInfo) (disabled : gset string).
Context (resolve_model_id : string → string) (salvage : string → option (string * list Fragment)).
Context (claims_action announces_work : string → bool) (unsourced : string → list Message → list string).
Context (loads : string → option Json) (dumps : Json → string) (hash : RawArgs → string)
  (py_str : Json → string) (py_eq : Json → Json → bool) (casefold : text → text)
  (to_float : string → option (string * option Z)) (py_in : Json → list Json → bool)
  (dump_hash : Args → string) (digest url_host : string → string).
(** A dumped object loads as an object; a round has a result per call
    ([execute_tool_round]). *)
Context (dumps_object : ∀ entries, ∃ entries', loads (dumps (JObj entries)) = Some (JObj entries'))
  (loads_empty : loads "{}" = Some (JObj [])).
Definition results_per_call (w : World) : Prop :=
  ∀ calls results, execute w calls = Some results → length results = length calls.

Abbreviation round_run := (run_round cfg tools disabled loads dumps hash py_str py_eq casefold to_float py_in
  dump_hash digest url_host).
Abbreviation iteration := (iterate cfg tools disabled resolve_model_id salvage claims_action announces_work
  unsourced loads dumps hash py_str py_eq casefold to_float py_in dump_hash digest url_host).

(** The ids of the admitted and the refused calls are those proposed. *)
Lemma settled_ids calls active g g' out :
  Forall (λ c, c_rejected c = false) calls →
  gate_admit tools disabled loads dumps hash py_str py_eq casefold to_float py_in calls active g = Some (out, g') →
  (λ r, c_id (obj g' r)) <$> (out.*1 ++ (rejected g').*1) ≡ₚ c_id <$> proposed_calls g'.
Proof.
  intros Hfresh Hadmit.
  destruct (gate_admit_inv tools disabled loads dumps hash py_str py_eq casefold to_float py_in
    dumps_object loads_empty _ _ _ _ _ Hfresh Hadmit) as (own & Hi & _).
  unfold proposed_calls. rewrite (i_proposed _ _ _ _ _ Hi), <-list_fmap_compose.
  rewrite <-(i_perm _ _ _ _ _ Hi), <-list_fmap_compose.
  assert (∀ r, r ∈ out.*1 ++ (rejected g').*1 → c_id (obj g' r) = c_id (obj g' (own r))) as Hid.
  { intros r Hr. destruct (i_own _ _ _ _ _ Hi r Hr) as [->|[-> _]]; done. }
  apply reflexive_eq, list_fmap_ext. intros i r Hr. apply Hid. by eapply list_elem_of_lookup_2.
Qed.
Lemma as_calls_fresh fragments : Forall (λ c, c_rejected c = false) (as_call <$> fragments).
Proof. by apply Forall_fmap, Forall_true. Qed.

Lemma stub_rows g parsed t :
  rows (_stub_unanswered_calls g parsed t) =
  rows t ++ ((λ id, ToolRow id Aborted) <$> named ((λ r, c_id (obj g r)) <$> parsed.*1)).
Proof.
  unfold _stub_unanswered_calls. revert t. induction parsed as [|[r args] parsed IH]; intros t.
  - by rewrite app_nil_r.
  - cbn [foldl fst]. rewrite IH. unfold named. rewrite !fmap_cons. cbn [fst]. destruct (decide (c_id (obj g r) = "")%string) as [He|Hne].
    + by rewrite filter_cons_False by naive_solver.
    + rewrite filter_cons_True by done. rewrite fmap_cons. by rewrite (cons_middle (ToolRow _ _)), app_assoc.
Qed.
Lemma named_named ids : named (named ids) = named ids.
Proof. apply filter_all. intros id Hid. by apply list_elem_of_filter in Hid as [? _]. Qed.

Lemma run_round_answered w rc content fragments t :
  results_per_call w → answered (rows t) →
  answered (rows (next_turn (round_run w rc content (as_call <$> fragments) t))).
Proof.
  intros Hexec Hans. unfold run_round.
  destruct (gate_admit _ _ _ _ _ _ _ _ _ _ _ _ _) as [[parsed g]|] eqn:Hadmit; [|done]. cbv zeta.
  apply settled_ids in Hadmit; [|apply as_calls_fresh]. rewrite fmap_app in Hadmit.
  rewrite foldl_write. set (t1 := (write _ _) <| rows ::= _ |>).
  set (refusals := (λ e : string * Refusal, (e.1, RefusedBody e.2)) <$> flush_rejections g).
  assert (rows t1 = rows t ++ AssistantRow content (proposed_calls g) :: ((λ e, ToolRow e.1 e.2) <$> refusals)) as Hrows.
  { unfold t1, refusals. cbn. rewrite <-app_assoc, <-list_fmap_compose. done. }
  assert (refusals.*1 = (λ r, c_id (obj g r)) <$> (rejected g).*1) as Hrefused.
  { unfold refusals, flush_rejections. by rewrite <-!list_fmap_compose. }
  assert (∀ replies : list (string * ToolBody), named replies.*1 = named ((λ r, c_id (obj g r)) <$> parsed.*1) →
    answered (rows t ++ AssistantRow content (proposed_calls g) ::
      ((λ e, ToolRow e.1 e.2) <$> (refusals ++ replies)))) as Hdone.
  { intros replies Hr. apply answered_calls; [done|]. unfold named in *. rewrite <-Hadmit.
    rewrite fmap_app, !filter_app, Hrefused, Hr. apply Permutation_app_comm. }
  destruct (if decide _ then _ else _) as [results|] eqn:Hres.
  - assert (length results = length parsed) as Hlen.
    { destruct (decide (parsed = [])) as [->|]; [by injection Hres as <-|].
      apply Hexec in Hres. by rewrite length_fmap in Hres. }
    destruct (record_results_state cfg tools disabled hash py_str dump_hash digest url_host rc t1
      (zip parsed results)) as [_ Hr].
    set (t2 := foldl _ t1 _) in *.
    set (replies := (λ e : nat * Args * ToolResult, (c_id (obj g e.1.1), Answered e.2)) <$> zip parsed results).
    assert (answered (rows t2)) as Ht2.
    { rewrite Hr, Hrows, <-app_assoc. cbn [app].
      assert ((λ e : nat * Args * ToolResult, ToolRow (c_id (obj (gate t1) e.1.1)) (Answered e.2)) <$> zip parsed results =
              (λ e, ToolRow e.1 e.2) <$> replies) as -> by (unfold replies; by rewrite <-list_fmap_compose).
      rewrite <-fmap_app. apply Hdone. f_equal. unfold replies. rewrite <-list_fmap_compose.
      rewrite <-list_fmap_compose.
      transitivity (((λ e : nat * Args, c_id (obj g e.1)) <$> (zip parsed results).*1)).
      - by rewrite <-list_fmap_compose.
      - by rewrite fst_zip by lia. }
    unfold _post_round_gate. destruct (cancelled w 3); [done|].
    destruct (waiting_for_input w); [|by destruct (waiting_for_workers w)].
    by apply (answered_row (rows t2)).
  - cbn [next_turn]. rewrite stub_rows, Hrows, <-app_assoc. cbn [app].
    set (ids := named _). specialize (Hdone ((λ id, (id, Aborted)) <$> ids)).
    rewrite fmap_app, <-!(list_fmap_compose (λ id, (id, Aborted))) in Hdone. apply Hdone.
    assert (fst ∘ (λ id : string, (id, Aborted)) <$> ids = ids) as -> by exact (list_fmap_id ids).
    apply named_named.
Qed.

Ltac plain_rows := cbn; repeat (apply answered_row; [|exact I]); assumption.
Lemma on_text_answered w content offered lb forced t :
  answered (rows t) →
  answered (rows (next_turn (on_text cfg claims_action announces_work unsourced w content offered lb forced t))).
Proof.
  intros H. unfold on_text. cbv zeta. destruct (negb _ && _ && _ && _ && _); [plain_rows|].
  destruct (bool_decide _); [plain_rows|]. destruct (_ && _ && _ && _ && _ && _); [plain_rows|].
  assert (answered (rows (if has_text content then write (AssistantRow content []) (t <| followup_pending := false |>)
                          else t <| followup_pending := false |>))) as H'.
  { destruct (has_text content); plain_rows. }
  destruct (_ && _ && _); [|exact H']. by apply (answered_row _ (SystemRow LateCorrection)).
Qed.
Lemma stream_error_answered err partial t :
  answered (rows t) → answered (rows (_end_turn_on_stream_error err partial t)).
Proof.
  intros H. unfold _end_turn_on_stream_error. cbv zeta. case_decide; destruct (_is_budget_exhaustion err); plain_rows.
Qed.
Lemma on_calls_answered w rc content fragments t :
  results_per_call w → answered (rows t) →
  answered (rows (next_turn (on_calls cfg tools disabled loads dumps hash py_str py_eq casefold to_float py_in
    dump_hash digest url_host w rc content fragments t))).
Proof.
  intros Hexec H. unfold on_calls. cbv zeta. destruct (evaluate _ _ _ _ _ _ _ _ _) as [[d score]|]; [|exact H].
  rewrite foldl_write.
  destruct (_handle_stuck_signals _ _ _ _ _ _ _ _ _ _) as [[[a n] d'] notices]. rewrite foldl_write.
  set (t1 := _ <| ask_user_continues := n |>). assert (answered (rows t1)) as Ht1.
  { unfold t1. cbn. apply answered_rows; [apply answered_rows; [exact H|]|];
      apply Forall_fmap, Forall_true; done. }
  clearbody t1. destruct a; [by apply run_round_answered|exact Ht1|exact Ht1].
Qed.
Lemma on_response_answered w rc o effective lb forced t :
  results_per_call w → answered (rows t) →
  answered (rows (next_turn (on_response cfg tools disabled resolve_model_id salvage claims_action announces_work
    unsourced loads dumps hash py_str py_eq casefold to_float py_in dump_hash digest url_host w rc o effective
    lb forced t))).
Proof.
  intros Hexec H. unfold on_response. cbv zeta. destruct (o_context_overflow o).
  { unfold on_overflow. by case_decide. }
  destruct (o_error o); [by apply stream_error_answered|].
  destruct (_ && _ && _ && _); [plain_rows|].
  match goal with |- context [if ?b then default ?x ?y else ?z] =>
    destruct (if b then default x y else z) as [content [|fr frs]] end;
    [by apply on_text_answered|by apply on_calls_answered].
Qed.
Lemma iterate_answered w rc t :
  results_per_call w → answered (rows t) → answered (rows (next_turn (iteration rc w t))).
Proof.
  intros Hexec H. unfold iterate.
  assert (rows (_pre_round_gate cfg w t).2 = rows t) as Hg.
  { unfold _pre_round_gate. by repeat case_match. }
  destruct (_pre_round_gate cfg w t) as [[] t0]; cbn in Hg; [|by cbn; rewrite Hg..].
  assert (answered (rows t0)) as H0 by by rewrite Hg. clear Hg H.
  destruct (renews cfg w t0); [plain_rows|]. destruct (negb (compiles w)); [exact H0|]. cbv zeta.
  assert (∀ x, rows (match context_health cfg w x with Healthy y | Recompile y | Full y => y end) = rows x) as Hh.
  { intros x. unfold context_health. cbv zeta. destruct (critical cfg (payload w)); [|done].
    destruct (negb _ && negb _ && negb _); cbn [andb]; [destruct (bool_decide _); [done|]|]; by destruct (cannot_help _). }
  set (t1 := t0 <| compaction ::= _ |>). specialize (Hh t1).
  assert (answered (rows t1)) as H1 by exact H0.
  destruct (context_health cfg w t1) as [t2|t2|t2]; [|by cbn; rewrite Hh..].
  assert (answered (rows (proactive w t2))) as H2.
  { unfold proactive. cbv zeta. rewrite <-Hh in H1. by destruct (_ && _ && _). }
  destruct (stream_with_failover _ _ _ _ _) as [[[o run]|]|]; [|exact H2..].
  by apply on_response_answered.
Qed.

Abbreviation agent := (run_agent cfg tools disabled resolve_model_id salvage claims_action announces_work
  unsourced loads dumps hash py_str py_eq casefold to_float py_in dump_hash digest url_host).
Lemma loop_answered fuel rc worlds i t e :
  (∀ i, results_per_call (worlds i)) → answered (rows t) →
  turn_loop cfg tools disabled resolve_model_id salvage claims_action announces_work
    unsourced loads dumps hash py_str py_eq casefold to_float py_in dump_hash digest url_host fuel rc worlds i t = Some e →
  answered (rows (exit_turn e)).
Proof.
  intros Hexec. revert i t. induction fuel as [|fuel IH]; intros i t H; cbn;
    (destruct (max_tool_rounds cfg <=? tool_round t); [by intros [= <-]|]); [done|].
  pose proof (iterate_answered (worlds i) rc t (Hexec i) H) as Hn.
  destruct (iteration rc (worlds i) t) as [t'|t'|t'|t']; [by apply IH|by intros [= <-]..].
Qed.
Lemma final_answered w t : answered (rows t) →
  answered (rows (exit_turn (after_loop cfg resolve_model_id w t))).
Proof.
  intros H. unfold after_loop. cbv zeta.
  set (t1 := match termination_reason t with None => _ | Some _ => t end).
  assert (answered (rows t1)) as H1 by (unfold t1; by destruct (termination_reason t)).
  destruct (_ && _); [|exact H1]. unfold _stream_final_answer. cbv zeta.
  destruct (negb (compiles w)); [exact H1|].
  destruct (stream_with_failover _ _ _ _ _) as [[[o run]|]|]; [|exact H1..].
  assert (answered (rows (if has_text (o_content o) then write (AssistantRow (o_content o) []) t1 else t1))) as H2.
  { destruct (has_text (o_content o)); [|exact H1]. exact (answered_row _ (AssistantRow _ []) H1 I). }
  by destruct (o_error o).
Qed.

End transcript.

(** ** Where the loop falls short *)
Section gaps.
Context (cfg : Config) (claims_action announces_work : string → bool) (unsourced : string → list Message → list string).

(** A loop break can undo itself.  The round that takes a repeating model's
    tools away asks it to say what it would try next; a reply that ends with
    such a plan is nudged to do it "NOW with concrete tool calls", with the
    tools back on. *)
Theorem loop_break_rearms (w : World) (content : string) (forced : bool) (t : Turn)
    (Hplan : forced_followup_enabled cfg = true ∧ forced_followups t < followup_cap cfg ∧
             tool_round t + 2 < max_tool_rounds cfg ∧ cancelled w 6 = false ∧
             content ≠ "" ∧ announces_work content = true)
    (Hworked : did_tool_calls t = true) (Hoff : force_text (stuck t) = false) :
  ∃ t', on_text cfg claims_action announces_work unsourced w content false true forced t = Continue t' ∧
    force_text (stuck t') = false ∧ tool_round t' = S (tool_round t) ∧
    rows t' = rows t ++ [AssistantRow content []; SystemRow (ForcedFollowup (S (forced_followups t)))].
Proof.
  destruct Hplan as (He & Hn & Hr & Hc & Hne & Ha). unfold on_text. cbv zeta. cbn [did_tool_calls].
  change (did_tool_calls (t <| followup_pending := false |>)) with (did_tool_calls t). rewrite Hworked.
  cbn [negb andb]. rewrite andb_false_r. rewrite (andb_false_r (_ && _)). cbn [andb].
  rewrite bool_decide_false by naive_solver.
  assert (rounds_to_spare cfg (t <| followup_pending := false |>) = true) as -> by by apply Nat.ltb_lt.
  change (forced_followups (t <| followup_pending := false |>)) with (forced_followups t).
  apply Nat.ltb_lt in Hn. unfold has_text. rewrite He, Hn, Hc, Ha, bool_decide_true by done. cbn [andb negb].
  eexists. split; [reflexivity|]. cbn. by rewrite <-app_assoc.
Qed.

End gaps.

(** Time running out in the final answer is an error.  In the loop a spent
    time budget ends the turn softly, as [budget_exhausted]; in the final
    answer the same error replaces whatever reason the turn had by [error] and
    sets the session's, so that the turn is not graded. *)
Theorem final_answer_hardens_timeouts (cfg : Config) (resolve_model_id : string → string) (w : World) (t : Turn) (err : string)
    (Hworked : did_tool_calls t = true) (Hreason : termination_reason t ≠ Some "compaction_failed"%string)
    (Hcompiles : compiles w = true) (Htime : _is_budget_exhaustion err = true)
    (Hladder : ∀ call, ∃ o r, stream_with_failover (ladder_settings cfg) (client w) call (now w) (blocks w) =
                              Some (Ret (o, r)) ∧ o_error o = Some err) :
  ∃ t', after_loop cfg resolve_model_id w t = Returned t' ∧ termination_reason t' = Some "error"%string ∧
    session_error t' = Some err ∧
    termination_reason (_end_turn_on_stream_error err "" t) = Some "budget_exhausted"%string.
Proof.
  unfold after_loop. cbv zeta.
  set (t1 := match termination_reason t with None => _ | Some _ => t end).
  assert (did_tool_calls t1 = true ∧ termination_reason t1 ≠ Some "compaction_failed"%string) as [H1 H2].
  { unfold t1. by destruct (termination_reason t) eqn:E; rewrite ?E. }
  rewrite H1, bool_decide_true by done. cbn [andb]. unfold _stream_final_answer. rewrite Hcompiles. cbv zeta. cbn [negb].
  match goal with |- context [stream_with_failover _ _ ?call _ _] => destruct (Hladder call) as (o & r & -> & ->) end.
  eexists. split_and!; [reflexivity|done|done|]. unfold _end_turn_on_stream_error. by rewrite Htime.
Qed.

(** ** Examples *)
Section examples.
Definition calm_config : Config := mkConfig 6 1 false (9 # 10) true 1 true false "primary" (config "").
Definition answer (events : list StreamEvent) : Client := client_of (λ _, Ladder.mkAttempt events Finished 1).
(** A world in which nothing happens but the provider's answer. *)
Definition calm (c : Client) : World :=
  mkWorld (λ _, false) (λ _, false) false false false false "" true (mkPayload 10 100 false [] 0 true 0)
    (λ _, Compacted) c 0 ∅ false (λ calls, Some ((λ c, mkResult c.1 "ok" false 1 false false false false) <$> calls))
    false false.
Definition asks : Client :=
  answer [TOOL_CALL [mkFragment "1" "bash" "{'command':'ls d'}"; mkFragment "2" "bash" "42"]; DONE None].
Definition replies : Client := answer [TOKEN "all done"; DONE (Some "stop")].
Definition spent_client : Client :=
  client_of (λ _, Ladder.mkAttempt [] (RaisedOther "LLMSessionTimeoutError" "exceeded the 1800s LLM time limit") 1).
Definition two_rounds (i : nat) : World := calm (if i <? 2 then asks else replies).
Definition fresh : Turn := new_turn ["bash"; "ask_user"] "primary" (mkSummary ∅ []).

Abbreviation calm_agent fuel worlds last t :=
  (run_agent calm_config toy_tools ∅ id (λ _, None) (λ _, false) (λ _, true) (λ _ _, []) toy_loads toy_dumps toy_hash
    (λ _, ""%string) (λ _ _, true) id (λ _, None) (λ _ _, true) (λ _, ""%string) id (λ _, ""%string)
    fuel 0 worlds last t).
Abbreviation calm_iterate w t :=
  (iterate calm_config toy_tools ∅ id (λ _, None) (λ _, false) (λ _, true) (λ _ _, []) toy_loads toy_dumps toy_hash
    (λ _, ""%string) (λ _ _, true) id (λ _, None) (λ _ _, true) (λ _, ""%string) id (λ _, ""%string) 0 w t).
Definition calm_rows : option (list Row * option string) :=
  (λ e, (rows (exit_turn e), termination_reason (exit_turn e))) <$> calm_agent 9 two_rounds (calm replies) fresh.

Example calm_reason : option_map snd calm_rows = Some (Some "complete"%string).
Proof. vm_compute. reflexivity. Qed.

Definition goes_on (n : Next) : bool := match n with Continue _ => true | _ => false end.
Lemma turn_stays_in_budget_witness :
  ∃ t, calm_iterate (two_rounds 0) fresh = Continue t ∧ rounds_spent t ≤ 6 * 2.
Proof.
  assert (goes_on (calm_iterate (two_rounds 0) fresh) = true) as Hon by (vm_compute; reflexivity).
  destruct (calm_iterate (two_rounds 0) fresh) as [t|t|t|t] eqn:Hit; try discriminate Hon.
  exists t. split; [reflexivity|].
  apply (turn_stays_in_budget calm_config toy_tools ∅ id (λ _, None) (λ _, false) (λ _, true) (λ _ _, [])
    toy_loads toy_dumps toy_hash (λ _, ""%string) (λ _ _, true) id (λ _, None) (λ _ _, true) (λ _, ""%string)
    id (λ _, ""%string) 0 two_rounds ["bash"%string; "ask_user"%string] "primary" (mkSummary ∅ []) 1 t).
  eapply reaches_step; [apply reaches_start|cbn; lia|exact Hit].
Defined.

Definition is_done (e : option Exit) : bool := match e with Some _ => true | None => false end.

Lemma loop_break_rearms_witness :
  ∃ t', on_text calm_config (λ _, false) (λ _, true) (λ _ _, []) (calm replies) "next I would grep" false true false
          (fresh <| did_tool_calls := true |>) = Continue t' ∧ force_text (stuck t') = false.
Proof.
  destruct (loop_break_rearms calm_config (λ _, false) (λ _, true) (λ _ _, []) (calm replies) "next I would grep"
    false (fresh <| did_tool_calls := true |>)) as (t' & H1 & H2 & _).
  - split_and!; try reflexivity; cbn; lia || discriminate.
  - reflexivity.
  - reflexivity.
  - exists t'. split; [exact H1|exact H2].
Defined.

Definition spent_error : string := "exceeded the 1800s LLM time limit".
Lemma spent_client_times_out call : ∃ o r,
  stream_with_failover (config "") spent_client call 0 ∅ = Some (Ret (o, r)) ∧ o_error o = Some spent_error.
Proof. unfold stream_with_failover, start. eexists _, _. split; [lazy; reflexivity|reflexivity]. Qed.
Lemma final_answer_hardens_timeouts_witness :
  ∃ t', after_loop calm_config id (calm spent_client) (fresh <| did_tool_calls := true |>) = Returned t' ∧
    termination_reason t' = Some "error"%string.
Proof.
  destruct (final_answer_hardens_timeouts calm_config id (calm spent_client) (fresh <| did_tool_calls := true |>)
    spent_error) as (t' & H1 & H2 & _).
  - reflexivity.
  - discriminate.
  - reflexivity.
  - reflexivity.
  - exact spent_client_times_out.
  - exists t'. split; [exact H1|exact H2].
Defined.
End examples.
