(* ===== verification/MemFormat.v ===== *)
(** * Memory entries as markdown (core/memory/format.py)

    A memory file is a header and sections separated by lines of three dashes;
    a section is comment lines that carry the metadata, then the entry's text.
    The markdown is the source of truth: [parse_entries_from_markdown] decides
    what the index may hold.  The comment patterns are matched by hand, since
    their parts do not overlap: blanks, a run of digits or word characters,
    blanks, the closing mark.  Texts are of code points below 256. *)
From Stdlib Require Import ZifyBool.
From stdpp Require Import gmap sets strings.
From S2P Require Import Prelude PyStr PyText Regex.

(** ** Data *)
Definition SEP : text := NL :: t "---" ++ [NL].
Definition CLOSE : text := t "-->".
Definition _ARCHIVED_MARK : text := t "<!-- @archived: true -->".

Record MemoryEntry := mkEntry {
  file_name : text;
  content : text;
  epoch : N;
  entry_type : text;
  tags : list text;
  weight : text;
  source : text;
  updated : N;
  origin : text
}.
#[export] Instance MemoryEntry_eq_dec : EqDecision MemoryEntry.
Proof. solve_decision. Defined.

(** ** Rendering *)

(** [re.sub(r"(?m)^---$", "- - -", content)] *)
Definition sanitize_entry_content (s : text) : text :=
  join_lines ((λ l, if decide (l = t "---") then t "- - -" else l) <$> split_lines s).

Definition comment (key value : text) : text := t "<!-- @" ++ key ++ t ": " ++ value ++ t " -->".
Definition optional (key value : text) : list text :=
  if decide (value = []) then [] else [comment key value].
(** [format_entry]; [now] is the clock of its two bookkeeping stamps, the
    epoch is given. *)
Definition format_entry (content entry_type tags weight source : text) (epoch : N) (merged_from : text)
    (fused_epochs : list N) (updated : N) (origin : text) (now : N) : text :=
  join_lines (
    [ []; t "---"; comment (t "epoch") (decimal epoch); comment (t "type") entry_type ] ++
    optional (t "tags") tags ++
    (if bool_decide (weight = []) || bool_decide (weight = t "normal") then [] else [comment (t "weight") weight]) ++
    optional (t "source") source ++ optional (t "origin") origin ++
    (if (updated =? 0)%N then [] else [comment (t "updated") (decimal updated)]) ++
    (if decide (merged_from = []) then []
     else [comment (t "merged_from") merged_from; comment (t "merged_at") (decimal now)]) ++
    (if decide (fused_epochs = []) then []
     else [comment (t "fused_epochs") (join_with (t ",") (decimal <$> fused_epochs));
           comment (t "fused_at") (decimal now)]) ++
    [ sanitize_entry_content content; [] ]).
Definition format_file_header (name description : text) (keywords : list text) (now : N) : text :=
  join_lines [ comment (t "file") name; comment (t "description") description;
               comment (t "keywords") (join_with (t ", ") keywords); comment (t "created") (decimal now); [] ].

(** ** Parsing *)

(** The first place where [pre] is followed by what [m] accepts. *)
Fixpoint search_at {A} (m : text → option A) (pre s : text) : option A :=
  match (if starts_with pre s then m (drop (length pre) s) else None) with
  | Some a => Some a
  | None => match s with [] => None | _ :: s' => search_at m pre s' end
  end.
(** [\s*(P+)\s*-->]: the group and what follows the match. *)
Definition run_field (P : N → bool) (s : text) : option (text * text) :=
  let '(u, r) := span P (lstrip s) in
  if bool_decide (u ≠ []) && starts_with CLOSE (lstrip r) then Some (u, drop (length CLOSE) (lstrip r)) else None.
(** [(.*?)\s*-->] *)
Fixpoint lazy_field (s : text) : option text :=
  if starts_with CLOSE (lstrip s) then Some []
  else match s with
       | [] => None
       | c :: s' => if decide (c = NL) then None else cons c <$> lazy_field s'
       end.
Definition opening (key : string) : text := t "<!-- @" ++ t key ++ t ":".
Definition digits_field (key : string) (s : text) : option N :=
  (λ m, int_of m.1) <$> search_at (run_field is_digit) (opening key) s.
Definition word_field (key : string) (default_ s : text) : text :=
  from_option fst default_ (search_at (run_field is_word) (opening key) s).
Definition tags_field (s : text) : list text :=
  match search_at (λ r, lazy_field (lstrip r)) (opening "tags") s with
  | Some v => filter (λ x, x ≠ []) (strip <$> split_on 44 v)
  | None => []
  end.

Definition is_comment (line : text) : bool := starts_with (t "<!--") (strip line).
Definition _section_body (section : text) : text :=
  strip (join_lines (filter (λ l, is_comment l = false) (split_lines section))).

Definition is_file_archived (text_ : text) : bool :=
  let header := default [] (head (split SEP text_)) in
  contains (t "<!-- @file:") header && contains _ARCHIVED_MARK header.

(** The body of the loop over the sections. *)
Definition parse_section (name section : text) : option MemoryEntry :=
  let section := strip section in
  if bool_decide (section = []) || starts_with (t "<!-- @file:") section then None
  else if contains _ARCHIVED_MARK section then None
  else match digits_field "epoch" section with
  | None => None
  | Some e =>
      let body := _section_body section in
      if decide (body = []) then None
      else Some (mkEntry name body e (word_field "type" (t "note") section) (tags_field section)
             (word_field "weight" (t "normal") section) (word_field "source" [] section)
             (default 0%N (digits_field "updated" section)) (word_field "origin" [] section))
  end.
Definition parse_entries_from_markdown (name text_ : text) : list MemoryEntry :=
  if is_file_archived text_ then [] else omap (parse_section name) (split SEP text_).

(** ** Archiving and links *)

(** One section of [reopen_archived_file]: its own marker goes right after its
    epoch, unless it has one or is to be kept live. *)
Definition reopen_section (keep_live : gmap N text) (section : text) : text :=
  match search_at (run_field is_digit) (opening "epoch") section with
  | None => section
  | Some (digits, rest) =>
      let kept := match keep_live !! int_of digits with
                  | Some c => bool_decide (strip c = _section_body section)
                  | None => false
                  end in
      if contains _ARCHIVED_MARK section || kept then section
      else take (length section - length rest) section ++ NL :: _ARCHIVED_MARK ++ rest
  end.
Definition reopen_archived_file (text_ : text) (keep_live : gmap N text) : text :=
  if negb (is_file_archived text_) then text_ else
  match split SEP text_ with
  | header :: sections =>
      join_with SEP (replace_first (NL :: _ARCHIVED_MARK) [] header :: (reopen_section keep_live <$> sections))
  | [] => text_
  end.

(** [WIKILINK_RE] at the start of a text: the reference and what follows it.
    [[a-zA-Z0-9._-]{1,64}] leaves no choice, for the next character is neither. *)
Definition is_name_char (c : N) : bool :=
  (is_digit c || (65 <=? c) && (c <=? 90) || (97 <=? c) && (c <=? 122) || (c =? 46) || (c =? 95) || (c =? 45))%N.
Definition link_at (s : text) : option (text * text) :=
  if starts_with (t "[[") s then
    let '(name, r) := span is_name_char (drop 2 s) in
    if (1 <=? length name) && (length name <=? 64) then
      if starts_with (t "]]") r then Some (name, drop 2 r)
      else match r with
           | 64%N :: r' =>
               let '(digits, r) := span is_digit r' in
               if (1 <=? length digits) && (length digits <=? 12) && starts_with (t "]]") r
               then Some (name ++ 64%N :: digits, drop 2 r) else None
           | _ => None
           end
    else None
  else None.
Fixpoint links_from (fuel : nat) (seen : list text) (s : text) : list text :=
  match fuel with
  | 0 => seen
  | S fuel =>
      match link_at s with
      | Some (ref, r) => links_from fuel (if decide (ref ∈ seen) then seen else seen ++ [ref]) r
      | None => match s with [] => seen | _ :: s' => links_from fuel seen s' end
      end
  end.
(** A match is never empty, so one step per character is enough. *)
Definition extract_links (content : text) : list text := links_from (S (length content)) [] content.

Definition demo_text : text :=
  format_file_header (t "pernix.notes") (t "Pernix Notes") [t "pernix"; t "notes"] 7 ++
  format_entry (t "A fact." ++ [NL] ++ t "---" ++ [NL] ++ t "See [[user.profile@12]].") (t "note") (t "a,b") (t "high")
    (t "user") 41 [] [] 0 [] 7 ++
  format_entry (t "Another.") (t "finding") [] (t "normal") [] 42 (t "old") [] 43 (t "external") 7.
Example demo_parses : parse_entries_from_markdown (t "n") demo_text =
  [ mkEntry (t "n") (t "A fact." ++ [NL] ++ t "- - -" ++ [NL] ++ t "See [[user.profile@12]].") 41 (t "note")
      [t "a"; t "b"] (t "high") (t "user") 0 [];
    mkEntry (t "n") (t "Another.") 42 (t "finding") [] (t "normal") [] 43 (t "external") ].
Proof. vm_compute. reflexivity. Qed.
Example demo_links : extract_links (t "[[[a]] [[b@1]] [[a]] [[]] [[b@]]") = [t "a"; t "b@1"].
Proof. vm_compute. reflexivity. Qed.

(** ** Structured sections

    A section as the store writes it: comments, each key once, then a body
    without comments or separators. *)
Definition LT : N := 60.
Definition GT : N := 62.
Definition KEYS : list string :=
  ["epoch"; "type"; "tags"; "weight"; "source"; "origin"; "updated"; "merged_from"; "merged_at";
   "fused_epochs"; "fused_at"; "archived"].
Definition DIGIT_KEYS : list string := ["epoch"; "updated"].
Definition WORD_KEYS : list string := ["type"; "weight"; "source"; "origin"].
Definition words (v : text) : Prop := v ≠ [] ∧ Forall (λ c, is_word c = true) v.
Definition tag_ok (x : text) : Prop :=
  x ≠ [] ∧ strip x = x ∧ 44%N ∉ x ∧ LT ∉ x ∧ GT ∉ x ∧ NL ∉ x ∧ contains (t "@updated:") x = false.
Record meta_ok (k : string) (v : text) : Prop := {
  ok_key : k ∈ KEYS;
  ok_lt : LT ∉ v;
  ok_line : NL ∉ v;
  ok_not_updated : contains (t "@updated:") v = false;
  ok_digits : k ∈ DIGIT_KEYS → ∃ n, v = decimal n;
  ok_words : k ∈ WORD_KEYS → words v;
  ok_tags : k = "tags" → ∃ ls, ls ≠ [] ∧ Forall tag_ok ls ∧ v = join_with [44%N] ls;
  ok_archived : k = "archived" → v = t "true"
}.
Record Sec := mkSec { metas : list (string * text); body : text }.
Definition comments (ms : list (string * text)) : list text := (λ m, comment (t m.1) m.2) <$> ms.
Definition render_section (s : Sec) : text := join_lines (comments (metas s) ++ [body s; []]).
Definition meta (k : string) (ms : list (string * text)) : option text :=
  snd <$> head (filter (λ m, m.1 = k) ms).
Record sec_ok (s : Sec) : Prop := {
  ok_epoch : ∃ e ms, metas s = ("epoch", decimal e) :: ms;
  ok_metas : Forall (λ m, meta_ok m.1 m.2) (metas s);
  ok_keys : NoDup (metas s).*1;
  ok_no_comment : contains (t "<!--") (body s) = false;
  ok_text : ¬ blank (body s);
  ok_no_rule : Forall (λ l, l ≠ t "---") (split_lines (body s))
}.
Definition entry_of (name : text) (s : Sec) : option MemoryEntry :=
  let value k := meta k (metas s) in
  match value "archived", value "epoch" with
  | None, Some e =>
      Some (mkEntry name (strip (body s)) (int_of e) (default (t "note") (value "type"))
        (from_option (split_on 44) [] (value "tags")) (default (t "normal") (value "weight"))
        (default [] (value "source")) (from_option int_of 0%N (value "updated")) (default [] (value "origin")))
  | _, _ => None
  end.

(** ** Searching a section *)
Section search.
Context {A : Type} (m : text → option A) (pre : text).

Lemma search_none s : contains pre s = false → search_at m pre s = None.
Proof.
  unfold contains. induction s as [|c s IH]; cbn.
  - by destruct pre.
  - destruct (starts_with pre (c :: s)); [done|]. intros H. apply IH. by destruct (find pre s).
Qed.
Context (Hline : NL ∉ pre) (Hne : pre ≠ []).
Lemma search_skip a b : contains pre a = false → search_at m pre (a ++ NL :: b) = search_at m pre b.
Proof.
  unfold contains. induction a as [|c a IH]; intros H.
  - cbn. change (NL :: b) with ([] ++ NL :: b) at 1. rewrite starts_with_line by done. by destruct pre.
  - cbn [search_at app]. change (c :: a ++ NL :: b) with ((c :: a) ++ NL :: b). rewrite starts_with_line by done.
    cbn in H. destruct (starts_with pre (c :: a)); [done|]. apply IH. by destruct (find pre a).
Qed.
Lemma search_skip_lines ls b :
  Forall (λ l, contains pre l = false) ls → search_at m pre (join_lines (ls ++ [b])) = search_at m pre b.
Proof.
  induction 1 as [|l ls Hl _ IH]; [done|]. cbn [app]. rewrite join_cons by by destruct ls.
  by rewrite search_skip.
Qed.
End search.

Lemma t_app_key k s : t "<!-- @" ++ t k ++ t ": " ++ s = opening k ++ SP :: s.
Proof. unfold opening. by rewrite <-!app_assoc. Qed.
Lemma colon_prefix u w x :
  58%N ∉ u → 58%N ∉ w → starts_with (u ++ [58%N]) (w ++ 58%N :: x) = bool_decide (u = w).
Proof.
  revert w. induction u as [|c u IH]; intros [|d w]; cbn -[N.eqb]; rewrite ?not_elem_of_cons; intros Hu Hw.
  - done.
  - destruct (N.eqb_spec 58 d); [naive_solver|done].
  - destruct (N.eqb_spec c 58); [naive_solver|done].
  - rewrite IH by naive_solver. destruct (N.eqb_spec c d) as [->|Hn]; cbn.
    + apply bool_decide_ext. naive_solver.
    + by rewrite bool_decide_false by naive_solver.
Qed.
Definition key_text (k : string) : Prop := 58%N ∉ t k ∧ LT ∉ t k ∧ NL ∉ t k.
Lemma keys_ok k : k ∈ KEYS → key_text k.
Proof.
  assert (Forall key_text KEYS) as H by (repeat constructor; vm_compute; set_solver).
  intros Hk. by eapply Forall_forall in H.
Qed.
Lemma opening_key k k' v :
  key_text k → key_text k' → starts_with (opening k) (comment (t k') v) = bool_decide (k = k').
Proof.
  intros [Hk _] [Hk' _]. unfold opening, comment. rewrite starts_with_both.
  change (t ": " ++ v ++ t " -->") with (58%N :: 32%N :: v ++ t " -->").
  change (t ":") with [58%N]. rewrite colon_prefix by done. apply bool_decide_ext. split; [apply t_inj|by intros ->].
Qed.
(** The only angle bracket of a comment is its first character. *)
Lemma contains_comment p k v :
  LT ∉ t k → LT ∉ v → contains (LT :: p) (comment (t k) v) = starts_with (LT :: p) (comment (t k) v).
Proof.
  intros Hk Hv. unfold contains, comment. cbn -[t starts_with].
  change (t "<!-- @" ++ t k ++ t ": " ++ v ++ t " -->") with (LT :: t "!-- @" ++ t k ++ t ": " ++ v ++ t " -->").
  cbn [find]. destruct (starts_with _ _) eqn:E; [done|].
  assert (contains (LT :: p) (t "!-- @" ++ t k ++ t ": " ++ v ++ t " -->") = false) as H.
  { apply contains_absent. rewrite !elem_of_app. vm_compute (t "!-- @"). vm_compute (t ": "). vm_compute (t " -->").
    set_solver. }
  unfold contains in H. by destruct (find _ _).
Qed.

(** ** Fields *)
Lemma opening_cons k : opening k = LT :: drop 1 (opening k).
Proof. done. Qed.
Lemma opening_other k k' v :
  k ∈ KEYS → meta_ok k' v → contains (opening k) (comment (t k') v) = bool_decide (k = k').
Proof.
  intros Hk%keys_ok Hm. pose proof (keys_ok _ (ok_key _ _ Hm)) as Hk'.
  rewrite opening_cons, contains_comment, <-opening_cons, opening_key; try done; [apply Hk'|by destruct Hm].
Qed.
Lemma opening_line k : k ∈ KEYS → NL ∉ opening k.
Proof.
  intros (_ & _ & Hk)%keys_ok. unfold opening. rewrite !elem_of_app.
  vm_compute (t "<!-- @"). vm_compute (t ":"). set_solver.
Qed.
Lemma opening_body k b : contains (t "<!--") b = false → contains (opening k) b = false.
Proof. intros H. unfold opening. change (t "<!-- @") with (t "<!--" ++ t " @"). rewrite <-app_assoc. by apply contains_longer. Qed.
Lemma meta_cons k k' v ms : meta k ((k', v) :: ms) = if decide (k' = k) then Some v else meta k ms.
Proof. unfold meta. rewrite filter_cons. cbn. by case_decide. Qed.
Lemma comments_cons k v ms : comments ((k, v) :: ms) = comment (t k) v :: comments ms.
Proof. done. Qed.
Lemma metas_ok_cons k v ms :
  Forall (λ m, meta_ok m.1 m.2) ((k, v) :: ms) ↔ meta_ok k v ∧ Forall (λ m, meta_ok m.1 m.2) ms.
Proof. by rewrite Forall_cons. Qed.

(** The search for a key finds the comment of that key, or nothing. *)
Lemma search_field {A} (m : text → option A) (g : text → A) k v ms b :
  k ∈ KEYS → Forall (λ m, meta_ok m.1 m.2) ms → meta k ms = Some v →
  (∀ r, m (SP :: v ++ t " -->" ++ r) = Some (g r)) →
  ∃ r, search_at m (opening k) (join_lines (comments ms ++ [b])) = Some (g r).
Proof.
  intros Hk Hms. induction ms as [|[k' v'] ms IH]; [done|].
  rewrite meta_cons. apply metas_ok_cons in Hms as [Hm Hms]. rewrite comments_cons. cbn [app].
  rewrite join_cons by by destruct (comments ms). case_decide as He.
  - subst k'. intros [= ->] Hg. exists (NL :: join_lines (comments ms ++ [b])).
    assert (comment (t k) v ++ NL :: join_lines (comments ms ++ [b]) =
            opening k ++ SP :: v ++ t " -->" ++ NL :: join_lines (comments ms ++ [b])) as ->.
    { unfold comment. rewrite <-!app_assoc. by rewrite t_app_key. }
    rewrite (opening_cons k) at 2. cbn [app search_at]. rewrite app_comm_cons, <-opening_cons.
    rewrite starts_with_app, drop_app_length, Hg. done.
  - intros Hv Hg. rewrite search_skip; [by apply IH|by apply opening_line|done|].
    rewrite opening_other by done. by rewrite bool_decide_false.
Qed.
Lemma search_no_field {A} (m : text → option A) k ms b :
  k ∈ KEYS → Forall (λ m, meta_ok m.1 m.2) ms → meta k ms = None → contains (t "<!--") b = false →
  search_at m (opening k) (join_lines (comments ms ++ [b])) = None.
Proof.
  intros Hk Hms Hv Hb. rewrite search_skip_lines; [by apply search_none, opening_body|by apply opening_line|done|].
  induction ms as [|[k' v'] ms IH]; [constructor|]. rewrite meta_cons in Hv. apply metas_ok_cons in Hms as [Hm Hms].
  case_decide as He; [done|]. rewrite comments_cons. constructor; [|by apply IH]. rewrite opening_other by done.
  by rewrite bool_decide_false.
Qed.

Lemma span_app P u c r : Forall (λ x, P x = true) u → P c = false → span P (u ++ c :: r) = (u, c :: r).
Proof. intros Hu Hc. induction Hu as [|x u Hx _ IH]; cbn; [by rewrite Hc|]. by rewrite Hx, IH. Qed.
Lemma word_not_space c : is_word c = true → is_space c = false.
Proof. unfold is_word, is_alnum, is_alpha, is_digit, is_space. lia. Qed.

Lemma close_arrow r : starts_with CLOSE (lstrip (t " -->" ++ r)) = true.
Proof. done. Qed.
Lemma run_field_value P v r :
  (∀ c, P c = true → is_space c = false) → v ≠ [] → Forall (λ x, P x = true) v →
  run_field P (SP :: v ++ t " -->" ++ r) = Some (v, r).
Proof.
  intros HP Hne Hv. unfold run_field. assert (lstrip (SP :: v ++ t " -->" ++ r) = v ++ SP :: t "-->" ++ r) as ->.
  { destruct Hv as [|c v Hc Hv]; [done|]. cbn -[t]. by rewrite (HP c). }
  rewrite span_app; [|done|]; [|by destruct (P SP) eqn:E; [apply HP in E|]].
  rewrite bool_decide_true by done. done.
Qed.
Lemma lazy_field_value v r :
  GT ∉ v → NL ∉ v → (∀ c u, v = u ++ [c] → is_space c = false) →
  lazy_field (v ++ t " -->" ++ r) = Some v.
Proof.
  induction v as [|c v IH]; intros Hgt Hnl Hlast; [done|].
  apply not_elem_of_cons in Hgt as [Hcgt Hgt]. apply not_elem_of_cons in Hnl as [Hcnl Hnl].
  cbn [app lazy_field]. rewrite decide_False by done.
  rewrite IH by (try done; intros d u ->; by apply (Hlast d (c :: u))).
  assert (starts_with CLOSE (lstrip (c :: v ++ t " -->" ++ r)) = false) as ->; [|done].
  rewrite app_comm_cons, lstrip_app.
  - destruct (lstrip_spec (c :: v)) as (w & Hw & _). assert (GT ∉ lstrip (c :: v)) as Hl.
    { intros Hl. assert (GT ∈ c :: v) as Hin by (rewrite Hw; set_solver). set_solver. }
    assert (lstrip (c :: v) ≠ []) as Hne.
    { rewrite lstrip_nil. destruct v as [|d v _] using rev_ind.
      - intros [Hc _]%Forall_cons. by rewrite (Hlast c []) in Hc.
      - rewrite app_comm_cons. intros [_ Hd]%Forall_app. apply Forall_cons in Hd as [Hd _].
        by rewrite (Hlast d (c :: v)) in Hd. }
    change CLOSE with [45; 45; GT]%N. change (t " -->" ++ r) with (32 :: 45 :: 45 :: GT :: r)%N.
    destruct (lstrip (c :: v)) as [|a [|a' [|a'' l]]]; [done| | |]; cbn -[N.eqb].
    + by destruct (45 =? a)%N.
    + by destruct (45 =? a)%N, (45 =? a')%N.
    + destruct (N.eqb_spec GT a''); [|by rewrite !andb_false_r]. subst a''. set_solver.
  - rewrite lstrip_nil. destruct v as [|d v _] using rev_ind.
    + intros [Hc _]%Forall_cons. by rewrite (Hlast c []) in Hc.
    + rewrite app_comm_cons. intros [_ Hd]%Forall_app. apply Forall_cons in Hd as [Hd _].
      by rewrite (Hlast d (c :: v)) in Hd.
Qed.
Lemma tags_value ls r :
  ls ≠ [] → Forall tag_ok ls →
  lazy_field (lstrip (SP :: join_with [44%N] ls ++ t " -->" ++ r)) = Some (join_with [44%N] ls).
Proof.
  intros Hne Hls. assert (snug (join_with [44%N] ls)) as Hs.
  { apply snug_join; [done|]. eapply Forall_impl; [exact Hls|]. intros x (? & ? & _). by apply snug_strip. }
  cbn [lstrip]. change (is_space SP) with true. cbn match. rewrite snug_lstrip by done.
  assert (∀ c, c ≠ 44%N → Forall (λ x, c ∉ x) ls → c ∉ join_with [44%N] ls) as Hin.
  { intros c Hc. clear -Hc. induction 1 as [|x l Hx Hl IH]; [apply not_elem_of_nil|].
    destruct l; [done|]. rewrite join_with_cons by done. rewrite !elem_of_app, list_elem_of_singleton. tauto. }
  apply lazy_field_value; [| |apply Hs].
  - apply Hin; [done|]. eapply Forall_impl; [exact Hls|]. by intros x (? & ? & ? & ? & ? & ?).
  - apply Hin; [done|]. eapply Forall_impl; [exact Hls|]. by intros x (? & ? & ? & ? & ? & ? & ?).
Qed.

Lemma meta_meta_ok ms k v : Forall (λ m, meta_ok m.1 m.2) ms → meta k ms = Some v → meta_ok k v.
Proof.
  intros Hms. induction Hms as [|[k' v'] ms Hm Hms IH]; [done|]. rewrite meta_cons. case_decide; [|apply IH].
  subst k'. by intros [= ->].
Qed.
Section fields.
Context (ms : list (string * text)) (b : text).
Context (Hms : Forall (λ m, meta_ok m.1 m.2) ms) (Hb : contains (t "<!--") b = false).
Notation S := (join_lines (comments ms ++ [b])).

Lemma digits_field_spec k : k ∈ DIGIT_KEYS → digits_field k S = int_of <$> meta k ms.
Proof.
  intros Hk. assert (k ∈ KEYS) as HK by (unfold DIGIT_KEYS, KEYS in *; set_solver). unfold digits_field.
  destruct (meta k ms) as [v|] eqn:Hv; [|by rewrite search_no_field].
  destruct (ok_digits _ _ (meta_meta_ok _ _ _ Hms Hv) Hk) as [n ->].
  destruct (search_field (run_field is_digit) (λ r, (decimal n, r)) k _ ms b HK Hms Hv) as (r & ->); [|done].
  intros r. apply run_field_value; [|apply decimal_nonempty|apply decimal_digits].
  intros c Hc. apply word_not_space. unfold is_word, is_alnum. by rewrite Hc, !orb_true_r.
Qed.
Lemma word_field_spec k d : k ∈ WORD_KEYS → word_field k d S = default d (meta k ms).
Proof.
  intros Hk. assert (k ∈ KEYS) as HK by (unfold WORD_KEYS, KEYS in *; set_solver). unfold word_field.
  destruct (meta k ms) as [v|] eqn:Hv; [|by rewrite search_no_field].
  destruct (ok_words _ _ (meta_meta_ok _ _ _ Hms Hv) Hk) as [Hne Hw].
  destruct (search_field (run_field is_word) (λ r, (v, r)) k _ ms b HK Hms Hv) as (r & ->); [|done].
  intros r. apply run_field_value; [apply word_not_space|done|done].
Qed.
Lemma tags_field_spec : tags_field S = from_option (split_on 44) [] (meta "tags" ms).
Proof.
  assert ("tags" ∈ KEYS) as HK by (unfold KEYS; set_solver). unfold tags_field.
  destruct (meta "tags" ms) as [v|] eqn:Hv; [|by rewrite search_no_field].
  destruct (ok_tags _ _ (meta_meta_ok _ _ _ Hms Hv) eq_refl) as (ls & Hne & Hls & ->).
  destruct (search_field (λ r, lazy_field (lstrip r)) (λ _, join_with [44%N] ls) "tags" _ ms b HK Hms Hv) as (r & ->).
  { intros r. by apply tags_value. }
  assert (split_on 44 (join_with [44%N] ls) = ls) as Hsplit.
  { apply split_on_join; [done|]. eapply Forall_impl; [exact Hls|]. by intros x (? & ? & ? & _). }
  cbn [from_option]. rewrite Hsplit.
  assert (strip <$> ls = ls) as ->.
  { clear Hne Hv Hsplit. induction Hls as [|x l (? & Hx & _) _ IH]; [done|]. cbn. by rewrite Hx, IH. }
  apply filter_all. intros x Hx. eapply Forall_forall in Hls as (? & _); done.
Qed.
End fields.

(** ** A section parses to its entry *)
Lemma comment_line k v : meta_ok k v → one_line (comment (t k) v).
Proof.
  intros Hm. destruct (keys_ok _ (ok_key _ _ Hm)) as (_ & _ & Hk). destruct Hm. unfold one_line, comment.
  rewrite !elem_of_app. vm_compute (t "<!-- @"). vm_compute (t ": "). vm_compute (t " -->"). set_solver.
Qed.
Lemma comment_is_comment k v : is_comment (comment k v) = true.
Proof.
  unfold is_comment, comment. change (t " -->") with (t " --" ++ [GT]). rewrite !app_assoc.
  set (s := ((t "<!-- @" ++ k) ++ t ": ") ++ v). 
  assert (strip (s ++ t " --" ++ [GT]) = s ++ t " --" ++ [GT]) as E.
  { unfold s. rewrite <-!app_assoc. change (t "<!-- @" ++ ?x) with (LT :: t "!-- @" ++ x).
    rewrite strip_first by done. rewrite !app_assoc, app_comm_cons. by apply rstrip_last. }
  rewrite <-app_assoc, E. unfold s. rewrite <-!app_assoc. change (t "<!-- @") with (t "<!--" ++ t " @").
  rewrite <-app_assoc. apply starts_with_app.
Qed.
Lemma body_line l b : contains (t "<!--") b = false → l ∈ split_lines b → is_comment l = false.
Proof.
  intros Hb (x & y & ->)%line_infix. apply contains_within in Hb. unfold is_comment.
  destruct (strip_within l) as (u & w & Hl). rewrite Hl in Hb. apply contains_within in Hb.
  apply not_true_iff_false. intros [r Hr]%starts_with_spec. apply not_true_iff_false in Hb. apply Hb.
  apply contains_spec. by exists [], r.
Qed.
Lemma split_section ms b :
  Forall (λ m, meta_ok m.1 m.2) ms → split_lines (join_lines (comments ms ++ [b])) = comments ms ++ split_lines b.
Proof.
  induction 1 as [|[k v] ms Hm _ IH]; [done|]. rewrite comments_cons. cbn [app].
  rewrite join_cons by by destruct (comments ms). rewrite split_app_line, IH; [done|]. by apply comment_line.
Qed.
Lemma filter_comments ms : filter (λ l, is_comment l = false) (comments ms) = [].
Proof.
  induction ms as [|[k v] ms IH]; [done|]. rewrite comments_cons, filter_cons.
  rewrite decide_False; [done|]. by rewrite comment_is_comment.
Qed.
Lemma section_body ms b :
  Forall (λ m, meta_ok m.1 m.2) ms → contains (t "<!--") b = false →
  _section_body (join_lines (comments ms ++ [b])) = strip b.
Proof.
  intros Hms Hb. unfold _section_body. rewrite split_section, filter_app, filter_comments by done. cbn [app].
  rewrite filter_all; [by rewrite join_split|]. intros l Hl. by eapply body_line.
Qed.

Definition stripped (s : Sec) : text := join_lines (comments (metas s) ++ [rstrip (body s)]).
Lemma comment_first k v : comment k v = LT :: drop 1 (comment k v).
Proof. done. Qed.
Lemma strip_section s : sec_ok s → strip (render_section s) = stripped s.
Proof.
  intros [ (e & ms & Hms) _ _ _ Htext _]. unfold render_section, stripped. rewrite Hms, comments_cons.
  set (c := comment _ _). set (cs := c :: comments ms).
  rewrite (join_app cs [body s; []]), (join_app cs [_]) by done. cbn [join_lines].
  assert (∃ l, join_lines cs = LT :: l) as [l ->].
  { unfold cs, c. rewrite comment_first. destruct (comments ms); cbn; eauto. }
  assert (∀ y, (LT :: l) ++ NL :: y = (LT :: l ++ [NL]) ++ y) as Hy by (intros y; by rewrite app_comm_cons, <-app_assoc).
  rewrite !Hy, <-app_comm_cons, strip_first, app_comm_cons, app_assoc by done.
  rewrite rstrip_blank by by repeat constructor.
  apply rstrip_app. by rewrite rstrip_nil.
Qed.

Lemma meta_None k ms : k ∉ ms.*1 → meta k ms = None.
Proof.
  induction ms as [|[k' v] ms IH]; [done|]. rewrite fmap_cons, meta_cons. cbn [fst].
  rewrite not_elem_of_cons. intros [? ?]. rewrite decide_False by done. by apply IH.
Qed.
Lemma archived_comment k v : meta_ok k v → contains _ARCHIVED_MARK (comment (t k) v) = bool_decide (k = "archived").
Proof.
  intros Hm. destruct (keys_ok _ (ok_key _ _ Hm)) as (_ & Hlt & _).
  change _ARCHIVED_MARK with (opening "archived" ++ SP :: t "true -->"). case_bool_decide as Hk.
  - subst k. rewrite (ok_archived _ _ Hm eq_refl). by vm_compute.
  - rewrite opening_cons. cbn [app]. rewrite contains_comment by (done || by destruct Hm).
    rewrite app_comm_cons, <-opening_cons. apply not_true_iff_false. intros [r Hr]%starts_with_spec.
    assert (starts_with (opening "archived") (comment (t k) v) = true) as H.
    { rewrite Hr, <-app_assoc. apply starts_with_app. }
    rewrite opening_key in H; [|by apply keys_ok; unfold KEYS; set_solver|by apply keys_ok, Hm].
    apply bool_decide_eq_true in H. by subst k.
Qed.
Lemma archived_section ms b :
  Forall (λ m, meta_ok m.1 m.2) ms → contains (t "<!--") b = false →
  contains _ARCHIVED_MARK (join_lines (comments ms ++ [b])) = bool_decide (is_Some (meta "archived" ms)).
Proof.
  intros Hms Hb. rewrite contains_lines; [|by vm_compute; set_solver|done].
  induction Hms as [|[k v] ms Hm _ IH].
  - change (contains _ARCHIVED_MARK b || false = false). rewrite orb_false_r. change _ARCHIVED_MARK with (t "<!--" ++ t " @archived: true -->").
    by apply contains_longer.
  - rewrite comments_cons, meta_cons. cbn [app existsb]. rewrite IH, archived_comment by done.
    destruct (decide (k = "archived")) as [->|Hk]; [by rewrite !bool_decide_true by eauto|].
    by rewrite bool_decide_false.
Qed.
Lemma header_prefix k v : k ∈ KEYS → starts_with (t "<!-- @file:") (comment (t k) v) = false.
Proof.
  intros Hk. change (t "<!-- @file:") with (opening "file").
  rewrite opening_key; [|by vm_compute; set_solver|by apply keys_ok].
  apply bool_decide_eq_false. intros <-. unfold KEYS in Hk. set_solver.
Qed.

Lemma parse_render name s : sec_ok s → parse_section name (render_section s) = entry_of name s.
Proof.
  intros Hs. unfold parse_section. rewrite strip_section by done.
  destruct Hs as [(e & ms & Hms) Hmetas Hkeys Hb Htext _]. unfold entry_of, stripped.
  assert (contains (t "<!--") (rstrip (body s)) = false) as Hb'.
  { destruct (rstrip_spec (body s)) as (w & Hw & _). rewrite Hw in Hb.
    by apply (contains_within _ _ [] w). }
  rewrite archived_section, section_body, digits_field_spec, !word_field_spec, tags_field_spec, digits_field_spec
    by (done || unfold WORD_KEYS, DIGIT_KEYS; set_solver).
  rewrite strip_rstrip.
  assert (strip (body s) ≠ []) as Hne by by rewrite strip_nil.
  assert (meta "epoch" (metas s) = Some (decimal e)) as Hme by by rewrite Hms, meta_cons.
  rewrite Hme. cbn [fmap option_fmap option_map]. rewrite (decide_False (P := strip (body s) = [])) by done.
  assert (bool_decide (join_lines (comments (metas s) ++ [rstrip (body s)]) = []) ||
    starts_with (t "<!-- @file:") (join_lines (comments (metas s) ++ [rstrip (body s)])) = false) as ->.
  { rewrite Hms, comments_cons. cbn [app]. rewrite join_cons by by destruct (comments ms).
    apply orb_false_iff. split; [by apply bool_decide_eq_false; rewrite comment_first|].
    rewrite starts_with_line by (vm_compute; set_solver). apply header_prefix. unfold KEYS. set_solver. }
  destruct (meta "archived" (metas s)); [by rewrite bool_decide_true by eauto|].
  rewrite bool_decide_false by by intros [??]. by destruct (meta "updated" (metas s)).
Qed.

(** ** Files *)

(** No line of the text but the first is a separator. *)
Definition unruled (s : text) : Prop := Forall (λ l, l ≠ t "---") (tail (split_lines s)).
Lemma unruled_cons c s : unruled (c :: s) → unruled s ∧ (c = NL → Forall (λ l, l ≠ t "---") (split_lines s)).
Proof.
  unfold unruled. cbn. destruct (split_lines_cons s) as (l & ls & Hs). rewrite Hs. case_decide as Hc; cbn.
  - intros H. split; [by inversion H|done].
  - done.
Qed.
Lemma sep_inside c s r : unruled (c :: s) → starts_with SEP (c :: s ++ SEP ++ r) = false.
Proof.
  intros [_ Hc]%unruled_cons. apply not_true_iff_false. intros [x Hx]%starts_with_spec.
  injection Hx as -> Hx. specialize (Hc eq_refl).
  assert (split_lines (s ++ SEP ++ r) = split_lines s ++ split_lines (t "---" ++ NL :: r)) as H1 by apply split_lines_app.
  change (s ++ NL :: t "---" ++ NL :: r = t "---" ++ NL :: x) in Hx. change (SEP ++ r) with (NL :: t "---" ++ NL :: r) in H1.
  rewrite Hx, !split_app_line in H1 by (vm_compute; set_solver).
  destruct (split_lines_cons s) as (l & ls & Hs). rewrite Hs in H1, Hc. injection H1 as <- _.
  by apply Forall_cons in Hc as [Hc _].
Qed.
Lemma split_sep_app s r : unruled s → split SEP (s ++ SEP ++ r) = s :: split SEP r.
Proof.
  unfold split. induction s as [|c s IH]; intros Hs.
  - change (SEP ++ r) with (NL :: t "---" ++ NL :: r). cbn [app split_from].
    change (NL :: t "---" ++ NL :: r) with (SEP ++ r) at 1. by rewrite starts_with_app.
  - cbn [app split_from]. rewrite sep_inside by done. apply unruled_cons in Hs as [Hs _]. by rewrite IH.
Qed.
Lemma split_sep_one s : unruled s → split SEP s = [s].
Proof.
  unfold split. induction s as [|c s IH]; intros Hs; [done|]. cbn [split_from].
  assert (starts_with SEP (c :: s) = false) as ->.
  { apply not_true_iff_false. intros [x Hx]%starts_with_spec. pose proof (sep_inside c s [] Hs) as H.
    rewrite app_comm_cons, Hx, <-app_assoc, starts_with_app in H. done. }
  apply unruled_cons in Hs as [Hs _]. by rewrite IH.
Qed.

Lemma unruled_section s : sec_ok s → unruled (render_section s).
Proof.
  intros [(e & ms & Hms) Hmetas _ _ _ Hrule]. unfold unruled, render_section.
  assert (split_lines (join_lines (comments (metas s) ++ [body s; []])) =
          comments (metas s) ++ split_lines (body s) ++ [[]]) as ->.
  { rewrite join_app; [|by rewrite Hms|done]. cbn [join_lines]. rewrite split_lines_app.
    rewrite <-(app_nil_r (body s)) at 1. rewrite <-app_assoc. cbn [app]. rewrite split_lines_app.
    assert (split_lines (join_lines (comments (metas s))) = comments (metas s)) as ->; [|done].
    apply split_join; [by rewrite Hms|]. apply Forall_fmap. eapply Forall_impl; [exact Hmetas|].
    intros [k v] Hm. by apply comment_line. }
  apply Forall_tail, Forall_app. split.
  - apply Forall_fmap. apply Forall_forall. intros [k v] _. change (comment (t k) v ≠ t "---").
    by rewrite comment_first.
  - apply Forall_app. split; [done|]. by repeat constructor.
Qed.

(** A document: the header's marker and other lines, then the sections. *)
Record Doc := mkDoc { d_archived : bool; d_rest : text; d_sections : list Sec }.
Definition header_of (name : text) (d : Doc) : text :=
  comment (t "file") name ++ (if d_archived d then NL :: _ARCHIVED_MARK else []) ++ NL :: d_rest d.
Definition render_doc (name : text) (d : Doc) : text :=
  header_of name d ++ (d_sections d ≫= λ s, SEP ++ render_section s).
Record doc_ok (name : text) (d : Doc) : Prop := {
  ok_name : LT ∉ name ∧ NL ∉ name;
  ok_rest : contains _ARCHIVED_MARK (d_rest d) = false ∧ Forall (λ l, l ≠ t "---") (split_lines (d_rest d));
  ok_no_epoch : contains (opening "epoch") (d_rest d) = false;
  ok_sections : Forall sec_ok (d_sections d)
}.
Definition entries_of (name : text) (d : Doc) : list MemoryEntry :=
  if d_archived d then [] else omap (entry_of name) (d_sections d).

Lemma unruled_header name d : doc_ok name d → unruled (header_of name d).
Proof.
  intros [[Hlt Hnl] [_ Hr] _ _]. unfold unruled, header_of.
  assert (one_line (comment (t "file") name)) as Hf.
  { unfold one_line, comment. rewrite !elem_of_app. vm_compute (t "<!-- @"). vm_compute (t "file").
    vm_compute (t ": "). vm_compute (t " -->"). set_solver. }
  destruct (d_archived d); cbn [app].
  - rewrite split_app_line by done. cbn [tail]. rewrite split_app_line by (vm_compute; set_solver). by constructor.
  - by rewrite split_app_line.
Qed.
Lemma split_doc name d :
  doc_ok name d → split SEP (render_doc name d) = header_of name d :: (render_section <$> d_sections d).
Proof.
  intros Hd. pose proof (unruled_header _ _ Hd) as Hh. destruct Hd as [_ _ _ Hs]. unfold render_doc.
  revert Hh. generalize (header_of name d). induction Hs as [|s ss Hs _ IH]; intros h Hh.
  - cbn. by rewrite app_nil_r, split_sep_one.
  - rewrite bind_cons, <-app_assoc, split_sep_app by done. rewrite fmap_cons. f_equal. by apply IH, unruled_section.
Qed.
Lemma archived_doc name d : doc_ok name d → is_file_archived (render_doc name d) = d_archived d.
Proof.
  intros Hd. unfold is_file_archived. rewrite split_doc by done. cbn [head default from_option id].
  destruct Hd as [[Hlt Hnl] [Hr _] _ _]. unfold header_of.
  assert (contains (t "<!-- @file:") (comment (t "file") name ++ (if d_archived d then NL :: _ARCHIVED_MARK else [])
            ++ NL :: d_rest d) = true) as ->.
  { apply contains_spec. exists [], (SP :: name ++ t " -->" ++ (if d_archived d then NL :: _ARCHIVED_MARK else [])
            ++ NL :: d_rest d). unfold comment. by rewrite <-!app_assoc. }
  assert (contains _ARCHIVED_MARK (comment (t "file") name) = false) as Hf.
  { change _ARCHIVED_MARK with (LT :: drop 1 _ARCHIVED_MARK). rewrite contains_comment by (done || vm_compute; set_solver).
    by vm_compute. }
  rewrite andb_true_l. destruct (d_archived d); cbn [app].
  - rewrite contains_line, contains_line by (done || vm_compute; set_solver). rewrite orb_true_iff. right.
    apply orb_true_iff. left. by vm_compute.
  - rewrite contains_line by (done || vm_compute; set_solver). by rewrite Hf, Hr.
Qed.
(** Parsing a document gives the entries of its sections. *)
Lemma parse_doc name d : doc_ok name d → parse_entries_from_markdown name (render_doc name d) = entries_of name d.
Proof.
  intros Hd. unfold parse_entries_from_markdown, entries_of. rewrite archived_doc, split_doc by done.
  destruct (d_archived d); [done|]. cbn [omap list_omap].
  assert (parse_section name (header_of name d) = None) as ->.
  { unfold parse_section, header_of. rewrite comment_first. cbn [app]. rewrite strip_first by done.
    set (tl := (if d_archived d then NL :: _ARCHIVED_MARK else []) ++ NL :: d_rest d).
    change (LT :: drop 1 (comment (t "file") name) ++ tl) with (comment (t "file") name ++ tl).
    assert (comment (t "file") name = (t "<!-- @file:" ++ SP :: name ++ t " --") ++ [GT]) as Hc.
    { unfold comment. change (t "<!-- @file:") with (t "<!-- @" ++ t "file" ++ t ":").
      change (t " -->") with (t " --" ++ [GT]). rewrite <-!app_assoc, <-app_comm_cons. by rewrite <-app_assoc. }
    rewrite Hc. destruct (rstrip_keeps (t "<!-- @file:" ++ SP :: name ++ t " --") GT tl eq_refl) as [y ->].
    rewrite <-!app_assoc.
    by rewrite starts_with_app, orb_true_r. }
  destruct Hd as [_ _ _ Hs]. induction Hs as [|s ss Hs _ IH]; [done|]. cbn. rewrite parse_render by done.
  by rewrite IH.
Qed.

(** ** What [format_entry] writes *)
#[export] Instance MemoryEntry_settable : Settable MemoryEntry := λ e,
  mkEntry (file_name e) (content e) (epoch e) (entry_type e) (tags e) (weight e) (source e) (updated e) (origin e).
Definition plain (v : text) : Prop := LT ∉ v ∧ NL ∉ v ∧ contains (t "@updated:") v = false.
Definition optional_words (v : text) : Prop := v = [] ∨ words v.
Definition opt_meta (k : string) (v : text) : list (string * text) := if decide (v = []) then [] else [(k, v)].
Definition made_section (content entry_type tags weight source : text) (epoch : N) (merged_from : text)
    (fused_epochs : list N) (updated : N) (origin : text) (now : N) : Sec :=
  mkSec ([("epoch", decimal epoch); ("type", entry_type)] ++ opt_meta "tags" tags ++
    (if bool_decide (weight = []) || bool_decide (weight = t "normal") then [] else [("weight", weight)]) ++
    opt_meta "source" source ++ opt_meta "origin" origin ++
    (if (updated =? 0)%N then [] else [("updated", decimal updated)]) ++
    (if decide (merged_from = []) then [] else [("merged_from", merged_from); ("merged_at", decimal now)]) ++
    (if decide (fused_epochs = []) then []
     else [("fused_epochs", join_with (t ",") (decimal <$> fused_epochs)); ("fused_at", decimal now)]))
    (sanitize_entry_content content).

Lemma comments_app a b : comments (a ++ b) = comments a ++ comments b.
Proof. apply fmap_app. Qed.
Lemma format_made content ty tags weight source epoch merged fused updated origin now :
  format_entry content ty tags weight source epoch merged fused updated origin now =
  SEP ++ render_section (made_section content ty tags weight source epoch merged fused updated origin now).
Proof.
  unfold format_entry, render_section, made_section. cbn [metas body]. rewrite !comments_app, !comments_cons.
  assert (∀ k v, comments (opt_meta k v) = optional (t k) v) as Hopt.
  { intros k v. unfold opt_meta, optional. by case_decide. }
  rewrite !Hopt.
  assert (∀ x l, join_lines ([] :: t "---" :: x :: l) = SEP ++ join_lines (x :: l)) as Hj.
  { intros x l. unfold SEP. rewrite !join_cons by done. cbn [app]. by rewrite <-app_assoc. }
  cbn [app]. rewrite Hj. do 2 f_equal.
  rewrite <-!app_assoc.
  by destruct (bool_decide (weight = []) || bool_decide (weight = t "normal")), (updated =? 0)%N,
    (decide (merged = [])), (decide (fused = [])).
Qed.

Lemma decimal_absent c n : is_digit c = false → c ∉ decimal n.
Proof.
  intros Hc Hin. pose proof (decimal_digits n) as H. rewrite Forall_forall in H. by rewrite H in Hc.
Qed.
Lemma word_absent c v : is_word c = false → words v → c ∉ v.
Proof. intros Hc [_ Hv] Hin. rewrite Forall_forall in Hv. by rewrite Hv in Hc. Qed.
Lemma at_absent v : 64%N ∉ v → contains (t "@updated:") v = false.
Proof. apply (contains_absent 64). Qed.
Lemma digits_meta k n : k ∈ KEYS → k ∉ "tags" :: "archived" :: WORD_KEYS → meta_ok k (decimal n).
Proof.
  intros Hk Hn. split; try done; try (by apply decimal_absent).
  - by apply at_absent, decimal_absent.
  - eauto.
  - unfold WORD_KEYS in *. set_solver.
  - intros ->. set_solver.
  - intros ->. set_solver.
Qed.
Lemma words_meta k v : k ∈ WORD_KEYS → words v → meta_ok k v.
Proof.
  intros Hk Hv. unfold WORD_KEYS in Hk. split; try done; try (by apply word_absent).
  - unfold KEYS. set_solver.
  - by apply at_absent, word_absent.
  - unfold DIGIT_KEYS. set_solver.
  - intros ->. set_solver.
  - intros ->. set_solver.
Qed.
Lemma plain_meta k v : k ∈ ["merged_from"; "merged_at"; "fused_epochs"; "fused_at"] → plain v → meta_ok k v.
Proof.
  intros Hk (Hlt & Hnl & Hup).
  assert (k ∈ KEYS ∧ k ∉ DIGIT_KEYS ∧ k ∉ WORD_KEYS ∧ k ≠ "tags" ∧ k ≠ "archived") as (? & ? & ? & ? & ?).
  { unfold KEYS, DIGIT_KEYS, WORD_KEYS. set_solver. }
  by split.
Qed.
Lemma join_absent c sep ls : c ∉ sep → Forall (λ l, c ∉ l) ls → c ∉ join_with sep ls.
Proof.
  intros Hc. induction 1 as [|x l Hx Hl IH]; [apply not_elem_of_nil|].
  destruct l; [done|]. rewrite join_with_cons by done. rewrite !elem_of_app. tauto.
Qed.

(** Sanitizing leaves no separator and adds no comment. *)
Lemma sanitize_lines c :
  split_lines (sanitize_entry_content c) =
  (λ l, if decide (l = t "---") then t "- - -" else l) <$> split_lines c.
Proof.
  unfold sanitize_entry_content. destruct (split_lines_cons c) as (l & ls & Hs).
  apply split_join; [by rewrite Hs|]. apply Forall_fmap.
  eapply Forall_impl; [apply split_lines_one_line|]. intros x Hx. cbn. case_decide; [vm_compute; set_solver|done].
Qed.
Lemma sanitize_no_rule c : Forall (λ l, l ≠ t "---") (split_lines (sanitize_entry_content c)).
Proof.
  rewrite sanitize_lines. apply Forall_fmap, Forall_forall. intros l _. cbn. by case_decide.
Qed.
Lemma sanitize_no_comment c :
  contains (t "<!--") c = false → contains (t "<!--") (sanitize_entry_content c) = false.
Proof.
  rewrite <-(join_split c) at 1. unfold sanitize_entry_content.
  rewrite !contains_lines by (done || vm_compute; set_solver). generalize (split_lines c) as ls.
  induction ls as [|l ls IH]; [done|]. rewrite fmap_cons. cbn [existsb].
  intros [H1 H2]%orb_false_iff. rewrite IH by done. rewrite orb_false_r. by case_decide.
Qed.
Lemma blank_join ls : blank (join_lines ls) ↔ Forall blank ls.
Proof.
  induction ls as [|l ls IH]; [by split; constructor|]. destruct ls as [|l' ls].
  - cbn. rewrite Forall_singleton. done.
  - rewrite join_cons by done. rewrite Forall_cons, <-IH. unfold blank. rewrite Forall_app, Forall_cons. naive_solver.
Qed.
Lemma sanitize_text c : ¬ blank c → ¬ blank (sanitize_entry_content c).
Proof.
  intros Hc Hb. apply Hc. rewrite <-(join_split c). unfold sanitize_entry_content in Hb.
  rewrite blank_join in Hb |- *. rewrite Forall_fmap in Hb. eapply Forall_impl; [exact Hb|].
  intros l. cbn. case_decide; [|done]. intros [? _]%Forall_cons. done.
Qed.
Lemma sanitize_id c : Forall (λ l, l ≠ t "---") (split_lines c) → sanitize_entry_content c = c.
Proof.
  intros H. unfold sanitize_entry_content. rewrite <-(join_split c) at 2. f_equal.
  induction H as [|l ls Hl _ IH]; [done|]. rewrite fmap_cons, IH. by rewrite decide_False.
Qed.

(** What a writer may put in an entry. *)
Record args_ok (content entry_type tags weight source merged_from origin : text) : Prop := {
  args_content : ¬ blank content ∧ contains (t "<!--") content = false;
  args_type : words entry_type;
  args_tags : ∃ ls, Forall tag_ok ls ∧ tags = join_with [44%N] ls;
  args_weight : optional_words weight;
  args_source : optional_words source;
  args_merged : plain merged_from;
  args_origin : optional_words origin
}.
Lemma opt_meta_ok k v : (v ≠ [] → meta_ok k v) → Forall (λ m, meta_ok m.1 m.2) (opt_meta k v).
Proof. intros H. unfold opt_meta. case_decide; [constructor|]. by apply Forall_singleton, H. Qed.
Lemma tags_meta ls : ls ≠ [] → Forall tag_ok ls → meta_ok "tags" (join_with [44%N] ls).
Proof.
  intros Hne Hls. split.
  - unfold KEYS. set_solver.
  - apply join_absent; [vm_compute; set_solver|]. eapply Forall_impl; [exact Hls|]. by intros x (? & ? & ? & ? & _).
  - apply join_absent; [vm_compute; set_solver|]. eapply Forall_impl; [exact Hls|]. by intros x (? & ? & ? & ? & ? & ? & _).
  - clear Hne. induction Hls as [|x l (_ & _ & _ & _ & _ & _ & Hx) Hl IH]; [done|]. destruct l; [done|].
    rewrite join_with_cons by done. cbn [app]. rewrite contains_sep by (done || vm_compute; set_solver).
    by rewrite Hx, IH.
  - unfold DIGIT_KEYS. set_solver.
  - unfold WORD_KEYS. set_solver.
  - eauto.
  - done.
Qed.

Lemma made_section_ok content ty tags weight source epoch merged fused updated origin now :
  args_ok content ty tags weight source merged origin →
  sec_ok (made_section content ty tags weight source epoch merged fused updated origin now).
Proof.
  intros [[Htext Hno] Hty (ls & Hls & ->) Hw Hs Hm Ho]. unfold made_section. split; cbn [metas body].
  - eexists _, _. reflexivity.
  - rewrite !Forall_app. split_and!.
    + rewrite Forall_cons, Forall_singleton. split; [by apply digits_meta; unfold KEYS, WORD_KEYS; set_solver|].
      by apply words_meta; [unfold WORD_KEYS; set_solver|].
    + apply opt_meta_ok. intros Hne. apply tags_meta; [by intros ->|done].
    + destruct Hw as [->|Hw]; [constructor|]. case_match; [constructor|]. apply Forall_singleton.
      by apply words_meta; [unfold WORD_KEYS; set_solver|].
    + apply opt_meta_ok. intros Hne. destruct Hs as [->|Hs]; [done|]. by apply words_meta; [unfold WORD_KEYS; set_solver|].
    + apply opt_meta_ok. intros Hne. destruct Ho as [->|Ho]; [done|]. by apply words_meta; [unfold WORD_KEYS; set_solver|].
    + case_match; [constructor|]. apply Forall_singleton. by apply digits_meta; unfold KEYS, WORD_KEYS; set_solver.
    + case_decide; [constructor|]. rewrite Forall_cons, Forall_singleton. split; [by apply plain_meta; [set_solver|]|].
      by apply digits_meta; unfold KEYS, WORD_KEYS; set_solver.
    + case_decide; [constructor|]. rewrite Forall_cons, Forall_singleton. split; [|by apply digits_meta; unfold KEYS, WORD_KEYS; set_solver].
      apply plain_meta; [set_solver|].
      assert (∀ c, c ≠ 44%N → is_digit c = false → c ∉ join_with (t ",") (decimal <$> fused)) as Habs.
      { intros c Hc Hd. apply join_absent; [vm_compute; set_solver|]. apply Forall_fmap, Forall_forall.
        intros n _. by apply decimal_absent. }
      split_and!; [by apply Habs|by apply Habs|by apply at_absent, Habs].
  - unfold opt_meta. repeat case_match; cbn [fmap list_fmap app fst]; apply (bool_decide_unpack _); by vm_compute.
  - by apply sanitize_no_comment.
  - by apply sanitize_text.
  - apply sanitize_no_rule.
Qed.

Lemma meta_app k a b : meta k (a ++ b) = match meta k a with Some v => Some v | None => meta k b end.
Proof.
  induction a as [|[k' v] a IH]; [done|]. cbn [app]. rewrite !meta_cons, IH. by case_decide.
Qed.
Definition some_text (v : text) : option text := if decide (v = []) then None else Some v.
Lemma meta_opt k k' v : meta k (opt_meta k' v) = if decide (k' = k) then some_text v else None.
Proof. unfold opt_meta, some_text. destruct (decide (v = [])); [by case_decide|]. apply meta_cons. Qed.
(** Decide the equalities between literal keys. *)
Ltac literal_keys :=
  repeat match goal with
  | |- context [decide (@eq string ?a ?b)] =>
      first [rewrite (decide_True (P := a = b)) by reflexivity | rewrite (decide_False (P := a = b)) by discriminate]
  end.
(** The entry a written section holds. *)
Lemma made_entry name content ty ls weight source epoch merged fused updated origin now :
  Forall tag_ok ls →
  entry_of name (made_section content ty (join_with [44%N] ls) weight source epoch merged fused updated origin now) =
  Some (mkEntry name (strip (sanitize_entry_content content)) epoch ty ls
    (if decide (weight = []) then t "normal" else weight) source updated origin).
Proof.
  intros Hls. unfold entry_of, made_section. cbn [metas body].
  set (M := (if decide (merged = []) then [] else _) ++ _).
  assert (∀ k, k ∉ ["merged_from"; "merged_at"; "fused_epochs"; "fused_at"] → meta k M = None) as HM.
  { intros k Hk. apply meta_None. unfold M. rewrite fmap_app. do 2 case_decide; cbn; set_solver. }
  assert ((if bool_decide (weight = []) || bool_decide (weight = t "normal") then [] else [("weight", weight)]) =
          opt_meta "weight" (if decide (weight = t "normal") then [] else weight)) as ->.
  { unfold opt_meta. repeat case_bool_decide; repeat case_decide; done. }
  assert ((if (updated =? 0)%N then [] else [("updated", decimal updated)]) =
          opt_meta "updated" (if decide (updated = 0%N) then [] else decimal updated)) as ->.
  { unfold opt_meta. destruct (N.eqb_spec updated 0); [by rewrite !(decide_True (P := updated = 0%N))|].
    rewrite (decide_False (P := updated = 0%N)) by done. by rewrite decide_False by apply decimal_nonempty. }
  rewrite !meta_app, !meta_opt, !meta_cons, !HM by set_solver.
  literal_keys. cbn [default from_option id]. rewrite int_of_decimal. unfold some_text.
  f_equal. f_equal.
  - case_decide as Hne; cbn.
    + destruct ls as [|l ls]; [done|]. inversion Hls as [|?? (Hl & _)]; subst.
      destruct ls; [done|]. rewrite join_with_cons in Hne by done. by destruct l.
    + apply split_on_join; [by intros ->|]. eapply Forall_impl; [exact Hls|]. by intros x (? & ? & ? & _).
  - by repeat case_decide; subst.
  - by case_decide.
  - destruct (decide (updated = 0%N)) as [->|Hu]; [done|]. rewrite decide_False by apply decimal_nonempty.
    apply int_of_decimal.
  - by case_decide.
Qed.

(** ** The round trip *)
Definition entry_ok (e : MemoryEntry) : Prop :=
  args_ok (content e) (entry_type e) (join_with [44%N] (tags e)) (weight e) (source e) [] (origin e) ∧
  Forall tag_ok (tags e).
(** An entry as [move_entries] and the consolidator format it. *)
Definition format_of (now : N) (e : MemoryEntry) : text :=
  format_entry (content e) (entry_type e) (join_with [44%N] (tags e)) (weight e) (source e) (epoch e) [] []
    (updated e) (origin e) now.
Definition section_of (now : N) (e : MemoryEntry) : Sec :=
  made_section (content e) (entry_type e) (join_with [44%N] (tags e)) (weight e) (source e) (epoch e) [] []
    (updated e) (origin e) now.
(** What comes back: the file's name, the sanitized and stripped text, a weight. *)
Definition read_back (name : text) (e : MemoryEntry) : MemoryEntry :=
  e <| file_name := name |> <| content := strip (sanitize_entry_content (content e)) |>
    <| weight := if decide (weight e = []) then t "normal" else weight e |>.

Definition header_doc (description : text) (keywords : list text) (now : N) (ss : list Sec) : Doc :=
  mkDoc false (join_lines [comment (t "description") description;
    comment (t "keywords") (join_with (t ", ") keywords); comment (t "created") (decimal now); []]) ss.
Lemma format_header name description keywords now ss :
  format_file_header name description keywords now ++ (ss ≫= λ s, SEP ++ render_section s) =
  render_doc name (header_doc description keywords now ss).
Proof. done. Qed.
Definition line_ok (v : text) : Prop := LT ∉ v ∧ NL ∉ v.
Lemma header_doc_ok name description keywords now ss :
  line_ok name → line_ok description → Forall line_ok keywords → Forall sec_ok ss →
  doc_ok name (header_doc description keywords now ss).
Proof.
  intros Hn Hd Hk Hss.
  assert (∀ q k v, q ∈ [_ARCHIVED_MARK; opening "epoch"] → k ∈ ["description"; "keywords"; "created"] → LT ∉ v →
            contains q (comment (t k) v) = false) as Hc.
  { intros q k v Hq Hin Hv. rewrite !elem_of_cons in Hq. rewrite !elem_of_cons in Hin.
    destruct Hq as [->|[->|Hq]]; [| |by apply elem_of_nil in Hq];
      [change _ARCHIVED_MARK with (LT :: drop 1 _ARCHIVED_MARK)|rewrite opening_cons];
      (destruct Hin as [->|[->|[->|Hin]]]; [| | |by apply elem_of_nil in Hin]);
      rewrite contains_comment by (done || vm_compute; set_solver); done. }
  assert (line_ok (join_with (t ", ") keywords)) as [Hk1 Hk2].
  { split; (apply join_absent; [vm_compute; set_solver|]); (eapply Forall_impl; [exact Hk|]); by intros x []. }
  destruct Hd as [Hd1 Hd2].
  assert (∀ q, q ∈ [_ARCHIVED_MARK; opening "epoch"] → contains q (d_rest (header_doc description keywords now ss)) = false)
    as Hrest.
  { intros q Hq. cbn [d_rest header_doc]. assert (NL ∉ q ∧ q ≠ [] ∧ contains q [] = false) as (? & ? & Hnil).
    { rewrite !elem_of_cons in Hq. destruct Hq as [->|[->|Hq]]; [| |by apply elem_of_nil in Hq];
        (split; [vm_compute; set_solver|done]). }
    rewrite contains_lines by done. cbn [existsb].
    rewrite (Hc _ "description"), (Hc _ "keywords"), (Hc _ "created"), Hnil; [done|done|set_solver|by apply decimal_absent
      |done|set_solver|done|done|set_solver|done]. }
  split; [done| |apply Hrest; set_solver|done]. split; [apply Hrest; set_solver|]. cbn [d_rest header_doc].
  rewrite split_join; [|done|].
    + assert (∀ k v, comment k v ≠ t "---") as Hne by (intros k v; by rewrite comment_first).
      rewrite !Forall_cons, Forall_nil. split_and!; [apply Hne|apply Hne|apply Hne|done|done].
    + assert (∀ k v, k ∈ ["description"; "keywords"; "created"] → NL ∉ v → one_line (comment (t k) v)) as Hl.
      { intros k v Hin Hv. unfold one_line, comment. rewrite !elem_of_app. vm_compute (t "<!-- @"). vm_compute (t ": ").
        vm_compute (t " -->"). rewrite !elem_of_cons in Hin.
        destruct Hin as [->|[->|[->|Hin]]]; [| | |by apply elem_of_nil in Hin]; vm_compute (t _); set_solver. }
      rewrite !Forall_cons, Forall_nil. split_and!; [apply Hl; [set_solver|done]|apply Hl; [set_solver|done]| | |done].
      * apply Hl; [set_solver|by apply decimal_absent].
      * apply not_elem_of_nil.
Qed.


Definition demo_entry : MemoryEntry :=
  mkEntry (t "elsewhere") (t "Deploys run at nine." ++ [NL] ++ t "---" ++ [NL] ++ t "Not on Fridays.") 41 (t "note")
    [t "ops"; t "prod"] (t "high") (t "user") 43 [].

(** Comments in an entry's text are read as its metadata.  An entry that
    mentions the archived marker is not there when its file is parsed; one that
    mentions a weight gets it; a line that is a comment is dropped.  Sanitizing
    only looks at separators. *)
Theorem comments_in_content_are_metadata :
  let file c := format_file_header (t "n") (t "N") [] 7 ++
                format_entry (t c) (t "note") [] (t "normal") (t "user") 41 [] [] 0 [] 7 in
  parse_entries_from_markdown (t "n") (file "Files carry <!-- @archived: true --> when archived.") = [] ∧
  (weight <$> parse_entries_from_markdown (t "n") (file "Raise it with <!-- @weight: high --> by hand.")) = [t "high"] ∧
  (content <$> parse_entries_from_markdown (t "n")
     (format_file_header (t "n") (t "N") [] 7 ++ format_entry (t "<!-- keep -->" ++ [NL] ++ t "A fact.") (t "note") []
        (t "normal") (t "user") 41 [] [] 0 [] 7)) = [t "A fact."].
Proof. vm_compute. done. Qed.
