(* ===== verification/Difflib.v ===== *)
(** * difflib's similarity, as the memory code uses it

    [SequenceMatcher(None, a, b).ratio()] of the standard library: the longest
    matching block, found again on both sides, twice the matched length over
    the total.  In a second text of two hundred characters or more, characters
    that are more frequent than one in a hundred do not start a match; a match
    still grows over them. *)
From Stdlib Require Import QArith_base.
From stdpp Require Import gmap.
From S2P Require Import Prelude PyStr.

Section matcher.
Context (a b : text).

(** [__chain_b]: where each character of [b] is, without the popular ones. *)
Definition positions : gmap N (list nat) :=
  foldl (λ m jc, <[jc.2 := default [] (m !! jc.2) ++ [jc.1]]> m) ∅ (zip (seq 0 (length b)) b).
Definition b2j : gmap N (list nat) :=
  if 200 <=? length b then filter (λ e, length e.2 ≤ length b / 100 + 1) positions else positions.

Record Match := mkMatch { m_i : nat; m_j : nat; m_size : nat }.

(** One row of the table of match lengths: [j2len] for the character of [a]
    at [i], from that of the character before it. *)
Definition row_step (i blo bhi : nat) (j2len : gmap nat nat) (st : gmap nat nat * Match) (j : nat)
    : gmap nat nat * Match :=
  if (j <? blo) || (bhi <=? j) then st else
  let k := S (match j with 0 => 0 | S j' => default 0 (j2len !! j') end) in
  (<[j := k]> st.1, if m_size st.2 <? k then mkMatch (i + 1 - k) (j + 1 - k) k else st.2).
Fixpoint rows (n i blo bhi : nat) (j2len : gmap nat nat) (best : Match) : Match :=
  match n with
  | 0 => best
  | S n =>
      let '(new, best) := foldl (row_step i blo bhi j2len) (∅, best)
        (match a !! i with Some c => default [] (b2j !! c) | None => [] end) in
      rows n (S i) blo bhi new best
  end.
(** The block grows to the left, then to the right. *)
Fixpoint grow_left (fuel alo blo : nat) (m : Match) : Match :=
  match fuel, m_i m, m_j m with
  | S fuel, S i, S j =>
      if (alo <=? i) && (blo <=? j) && bool_decide (a !! i = b !! j)
      then grow_left fuel alo blo (mkMatch i j (S (m_size m))) else m
  | _, _, _ => m
  end.
Fixpoint grow_right (fuel ahi bhi : nat) (m : Match) : Match :=
  match fuel with
  | 0 => m
  | S fuel =>
      let i := m_i m + m_size m in
      let j := m_j m + m_size m in
      if (i <? ahi) && (j <? bhi) && bool_decide (a !! i = b !! j)
      then grow_right fuel ahi bhi (mkMatch (m_i m) (m_j m) (S (m_size m))) else m
  end.
Definition find_longest_match (alo ahi blo bhi : nat) : Match :=
  let best := rows (ahi - alo) alo blo bhi ∅ (mkMatch alo blo 0) in
  grow_right (ahi - alo) ahi bhi (grow_left (m_i best) alo blo best).

(** The sizes of the matching blocks, added up. *)
Fixpoint matched (fuel alo ahi blo bhi : nat) : nat :=
  match fuel with
  | 0 => 0
  | S fuel =>
      let m := find_longest_match alo ahi blo bhi in
      if m_size m =? 0 then 0 else
      m_size m + (if (alo <? m_i m) && (blo <? m_j m) then matched fuel alo (m_i m) blo (m_j m) else 0)
      + (if (m_i m + m_size m <? ahi) && (m_j m + m_size m <? bhi)
         then matched fuel (m_i m + m_size m) ahi (m_j m + m_size m) bhi else 0)
  end.
End matcher.
(** The range of [a] shrinks with every block, so its length is fuel enough. *)
Definition matches (a b : text) : nat := matched a b (S (length a)) 0 (length a) 0 (length b).
Definition ratio (a b : text) : Q :=
  if (length a + length b =? 0)%nat then 1
  else Z.of_nat (2 * matches a b) # Pos.of_nat (length a + length b).

Example ratio_abcd : ratio (t "abcd") (t "bcde") = (6 # 8)%Q.
Proof. vm_compute. reflexivity. Qed.
Example ratio_swap : ratio (t "tide") (t "diet") = (2 # 8)%Q.
Proof. vm_compute. reflexivity. Qed.
Example ratio_swapped : ratio (t "diet") (t "tide") = (4 # 8)%Q.
Proof. vm_compute. reflexivity. Qed.

(** ** Bounds *)
Section bounds.
Context (a b : text) (alo ahi blo bhi : nat).

Definition within (m : Match) : Prop :=
  alo ≤ m_i m ∧ m_i m + m_size m ≤ ahi ∧ blo ≤ m_j m ∧ m_j m + m_size m ≤ bhi.
(** A table of lengths of matches that end before [i]. *)
Definition lengths_ok (i : nat) (j2len : gmap nat nat) : Prop :=
  ∀ j k, j2len !! j = Some k → j < bhi ∧ alo + k ≤ i ∧ blo + k ≤ S j.

Lemma row_step_within i j2len st j :
  i < ahi → alo ≤ i → lengths_ok i j2len → lengths_ok (S i) st.1 ∧ within st.2 →
  let st' := row_step i blo bhi j2len st j in lengths_ok (S i) st'.1 ∧ within st'.2.
Proof.
  intros Hi Hlo Hold [Hnew Hbest]. unfold row_step.
  destruct (Nat.ltb_spec j blo), (Nat.leb_spec bhi j); cbn [orb]; [done|done|done|].
  match goal with |- context [<[j := ?x]> _] => set (k := x) end. assert (alo + k ≤ S i ∧ blo + k ≤ S j) as [Hk1 Hk2].
  { unfold k. destruct j as [|j]; cbn; [lia|]. destruct (j2len !! j) as [k'|] eqn:Hj; cbn; [|lia].
    apply Hold in Hj. lia. }
  cbn. split.
  - intros j' k'. rewrite lookup_insert. case_decide; [|apply Hnew]. intros [= <-]. subst. lia.
  - case_match; [|done]. unfold within. cbn. lia.
Qed.
Lemma rows_within n i j2len best :
  i + n = ahi → alo ≤ i → lengths_ok i j2len → within best → within (rows a b n i blo bhi j2len best).
Proof.
  revert i j2len best. induction n as [|n IH]; intros i j2len best Hn Hi Hold Hbest; [done|]. cbn.
  set (js := match a !! i with Some c => _ | None => _ end).
  assert (lengths_ok (S i) (foldl (row_step i blo bhi j2len) (∅, best) js).1 ∧
          within (foldl (row_step i blo bhi j2len) (∅, best) js).2) as [Hnew Hb].
  { assert (lengths_ok (S i) (∅ : gmap nat nat, best).1 ∧ within (∅ : gmap nat nat, best).2) as H.
    { split; [|done]. intros j k. cbn. by rewrite lookup_empty. }
    revert H. generalize (∅ : gmap nat nat, best) as st. induction js as [|j js IHj]; intros st H; [done|].
    cbn [foldl]. apply IHj. apply row_step_within; [lia|lia|done|done]. }
  destruct (foldl _ _ _) as [new best']. apply IH; [lia|lia|done|done].
Qed.
Lemma grow_left_within fuel m : within m → within (grow_left a b fuel alo blo m).
Proof.
  revert m. induction fuel as [|fuel IH]; intros m Hm; [done|]. cbn.
  destruct (m_i m) as [|i] eqn:Hi; [done|]. destruct (m_j m) as [|j] eqn:Hj; [done|].
  destruct (Nat.leb_spec alo i), (Nat.leb_spec blo j); cbn [andb]; try done. case_bool_decide; [|done].
  apply IH. unfold within in *. cbn. lia.
Qed.
Lemma grow_right_within fuel m : within m → within (grow_right a b fuel ahi bhi m).
Proof.
  revert m. induction fuel as [|fuel IH]; intros m Hm; [done|]. cbn -[Nat.ltb].
  destruct (Nat.ltb_spec (m_i m + m_size m) ahi), (Nat.ltb_spec (m_j m + m_size m) bhi); cbn [andb]; try done.
  case_bool_decide; [|done]. apply IH. unfold within in *. cbn. lia.
Qed.
Lemma find_longest_within : alo ≤ ahi → blo ≤ bhi → within (find_longest_match a b alo ahi blo bhi).
Proof.
  intros Ha Hb. unfold find_longest_match. apply grow_right_within, grow_left_within, rows_within; [lia|lia| |].
  - intros j k. by rewrite lookup_empty.
  - unfold within. cbn. lia.
Qed.
End bounds.

Lemma matched_bounds a b fuel alo ahi blo bhi :
  alo ≤ ahi → blo ≤ bhi →
  matched a b fuel alo ahi blo bhi ≤ ahi - alo ∧ matched a b fuel alo ahi blo bhi ≤ bhi - blo.
Proof.
  revert alo ahi blo bhi. induction fuel as [|fuel IH]; intros alo ahi blo bhi Ha Hb; cbn -[Nat.ltb find_longest_match]; [lia|].
  destruct (find_longest_within a b alo ahi blo bhi Ha Hb) as (H1 & H2 & H3 & H4).
  set (m := find_longest_match a b alo ahi blo bhi) in *.
  destruct (m_size m =? 0); [lia|].
  pose proof (IH alo (m_i m) blo (m_j m)). pose proof (IH (m_i m + m_size m) ahi (m_j m + m_size m) bhi).
  destruct ((alo <? m_i m) && (blo <? m_j m)), ((m_i m + m_size m <? ahi) && (m_j m + m_size m <? bhi)); lia.
Qed.

(** Similarity is a ratio: what matches fits in both texts. *)
Lemma ratio_bounds (a b : text) : (0 <= ratio a b <= 1)%Q.
Proof.
  unfold ratio. destruct (Nat.eqb_spec (length a + length b) 0) as [|Hn]; [by split|].
  destruct (matched_bounds a b (S (length a)) 0 (length a) 0 (length b)) as [H1 H2]; [lia|lia|].
  fold (matches a b) in H1, H2. set (p := Pos.of_nat (length a + length b)).
  assert (Z.pos p = Z.of_nat (length a + length b)) as Hp by (unfold p; rewrite <-positive_nat_Z; f_equal; by apply Nat2Pos.id).
  unfold Qle. cbn [Qnum Qden]. rewrite Hp. lia.
Qed.

(** A change at the start of two long texts whose characters are all frequent
    makes them wholly dissimilar: no character starts a match, and the block
    that begins both texts ends at once. *)
Definition refrain : text := concat (replicate 10 (t "the cat sat on the mat ")).
Lemma popular_texts_do_not_match :
  length refrain = 230 ∧ ratio (t "a" ++ refrain) (t "o" ++ refrain) = (0 # 462)%Q ∧
  ratio (t "a" ++ refrain) (t "a" ++ refrain) = (462 # 462)%Q.
Proof. vm_compute. done. Qed.
