(* ===== verification/MemRouting.v ===== *)
(** * Which memory file an entry goes to (core/memory/routing.py, store.py)

    Name validation and canonical names, space buckets, the resolution of a
    suggested name and the routing of entries without one.  Scores are
    rationals where the code has floats; the ranking of the full-text index
    and the order in which Python goes through a set are parameters. *)
From Stdlib Require Import QArith_base.
From stdpp Require Import gmap sets strings.
From S2P Require Import Prelude PyStr PyText Regex MemFormat.

(** ** Names *)
Definition is_ascii_alnum (c : N) : bool :=
  (is_digit c || (65 <=? c) && (c <=? 90) || (97 <=? c) && (c <=? 122))%N.
(** [re.match(r"^[a-zA-Z0-9][a-zA-Z0-9._-]*$", name)]: the dollar also matches
    before a final line feed. *)
Definition _NAME_RE (name : text) : bool :=
  match name with
  | c :: r => is_ascii_alnum c && (forallb is_name_char r || match reverse r with
                                                             | l :: r' => (l =? NL)%N && forallb is_name_char r'
                                                             | [] => false
                                                             end)
  | [] => false
  end.
Definition ends_with (suffix s : text) : bool := starts_with (reverse suffix) (reverse s).
Definition cut (n : nat) (s : text) : text := take (length s - n) s.
(** [None] is [ValueError].  A name without slashes stays in its directory. *)
Definition _validate_name (name : text) : option text :=
  let name := if ends_with (t ".md") name then cut 3 name else name in
  if _NAME_RE name then Some name else None.

Definition SPACE_PREFIX : text := t "pernix.space.".
Definition space_prefix_of (slug : text) : text := SPACE_PREFIX ++ slug ++ t ".".
Definition is_slug_start (c : N) : bool := (is_digit c || (97 <=? c) && (c <=? 122))%N.
Definition is_slug_char (c : N) : bool := (is_slug_start c || (c =? 95) || (c =? 45))%N.
(** [pernix.space.], a slug of lower-case letters, digits, [_] and [-], a dot. *)
Definition space_bucket (name : text) : option text :=
  if starts_with SPACE_PREFIX name then
    match span is_slug_char (drop (length SPACE_PREFIX) name) with
    | (c :: u, 46%N :: _) => if is_slug_start c then Some (c :: u) else None
    | _ => None
    end
  else None.

Definition FORMAT_SUFFIXES : list text := t <$> ["_txt"; "_json"; "_py"; "_html"; "_log"; "_csv"].
Definition NOISE_SUFFIXES : list text := t <$>
  ["_notes"; "_log"; "_summary"; "_overview"; "_report"; "_analysis"; "_strategy"; "_guide"; "_spec"; "_template"].
Definition strip_suffix (name suffix : text) : text :=
  if ends_with suffix name then cut (length suffix) name else name.
Fixpoint collapse_underscores (fuel : nat) (name : text) : text :=
  match fuel with
  | S fuel => if contains (t "__") name then collapse_underscores fuel (replace (t "__") (t "_") name) else name
  | 0 => name
  end.
Definition strip_char (ch : N) (s : text) : text := reverse (lstrip_char ch (reverse (lstrip_char ch s))).
(** Every round of the loop shortens the name. *)
Definition normalize_file_name (name : text) : text :=
  let name := foldl strip_suffix (lower_text name) FORMAT_SUFFIXES in
  let name := (λ c, if (c =? 45)%N || (c =? 46)%N then 95%N else c) <$> name in
  let name := collapse_underscores (length name) name in
  strip_char 95 (foldl strip_suffix name NOISE_SUFFIXES).
(** [re.split(r"[._-]", name.lower())], the pieces longer than two. *)
Definition name_tokens (name : text) : gset text :=
  list_to_set (filter (λ x, 2 < length x)
    (split_on 95 ((λ c, if (c =? 45)%N || (c =? 46)%N then 95%N else c) <$> lower_text name))).
Definition jaccard (x y : gset text) : Q := Z.of_nat (size (x ∩ y)) # Pos.of_nat (size (x ∪ y)).

Record FileRow := mkFileRow {
  fr_name : text;
  fr_description : text;
  fr_keywords : text;
  fr_count : Z;
  fr_created : N;
  fr_updated : N
}.
#[export] Instance FileRow_settable : Settable FileRow := λ f,
  mkFileRow (fr_name f) (fr_description f) (fr_keywords f) (fr_count f) (fr_created f) (fr_updated f).

(** ** Routing without a name *)
Definition NAMESPACE_KEYWORDS : list (text * list text) := (λ e : string * list string, (t e.1, t <$> e.2)) <$>
  [("user.profile", ["user"; "profile"; "age"; "location"; "name"; "preference"; "likes"; "dislikes"]);
   ("pernix.decisions", ["decided"; "decision"; "chose"; "rationale"; "why we"]);
   ("pernix.preferences", ["prefer"; "preference"; "style"; "convention"; "always"; "never"]);
   ("pernix.research", ["found"; "research"; "discovered"; "learned"; "source"]);
   ("pernix.debugging", ["debug"; "fix"; "bug"; "error"; "workaround"; "solved"]);
   ("pernix.config", ["config"; "setting"; "environment"; "variable"; "parameter"]);
   ("pernix.tools", ["tool"; "function"; "utility"; "command"; "usage pattern"]);
   ("pernix.tasks", ["task"; "todo"; "milestone"; "goal"; "objective"]);
   ("pernix.notes", [])].

Definition Candidates := list (text * Q).
(** [candidates[name] = candidates.get(name, 0) + score] *)
Fixpoint credit (name : text) (score : Q) (cs : Candidates) : Candidates :=
  match cs with
  | [] => [(name, score)]
  | (n, q) :: cs => if decide (n = name) then (n, q + score)%Q :: cs else (n, q) :: credit name score cs
  end.
(** [max(candidates, key=candidates.get)]: the first of the best. *)
Definition best_candidate (cs : Candidates) : option text :=
  fst <$> foldl (λ best c, match best with
                           | Some b => if Qle_bool c.2 b.2 then Some b else Some c
                           | None => Some c
                           end) None cs.
Definition _bucket_matches (name : text) (space_prefix : option text) : bool :=
  match space_prefix with
  | Some p => starts_with p name
  | None => bool_decide (space_bucket name = None)
  end.
(** [name.rsplit(".", 1)[-1]] *)
Definition last_part (name : text) : text := List.last (split_on 46 name) [].
Definition scoped (space_prefix : option text) (name : text) : text :=
  match space_prefix with Some p => p ++ last_part name | None => name end.

Section routing.
(** [search_bm25(conn, content[:200], limit=10, file_prefix=...)]: files and
    scores; and the order of a set of names. *)
Context (bm25 : text → option text → list (text * Q)) (set_order : list text → list text).

Definition namespace_signal (content_lower : text) (p : option text) (cs : Candidates) : Candidates :=
  foldl (λ cs ns, let n := length (filter (λ kw, contains kw content_lower = true) ns.2) in
                  if (0 <? n)%nat then credit (scoped p ns.1) (Z.of_nat (2 * n) # 1) cs else cs)
    cs NAMESPACE_KEYWORDS.
Definition keyword_overlap (content_lower : text) (f : FileRow) : nat :=
  size ((list_to_set (split_on 44 (lower_text (fr_keywords f))) : gset text) ∩
        list_to_set (split_words content_lower)).
Definition keyword_signal (content_lower : text) (p : option text) (populated : list FileRow) (cs : Candidates) : Candidates :=
  foldl (λ cs f, let n := keyword_overlap content_lower f in
                 if _bucket_matches (fr_name f) p && (0 <? n)%nat then credit (fr_name f) (Z.of_nat n # 1) cs else cs)
    cs populated.
Definition index_signal (content : text) (p : option text) (cs : Candidates) : Candidates :=
  let scores := foldl (λ fs r, if _bucket_matches r.1 p then credit r.1 r.2 fs else fs) []
                  (bm25 (take 200 content) p) in
  foldl (λ cs f, if Qle_bool 3 f.2 then credit f.1 f.2 cs else cs) cs scores.
Definition populated_of (fs : list FileRow) : list FileRow := filter (λ f, (0 < fr_count f)%Z) fs.

Definition _auto_route (fs : list FileRow) (content : text) (space_slug : option text) : text :=
  let p := match space_slug with Some [] | None => None | Some slug => Some (space_prefix_of slug) end in
  let lower := lower_text content in
  let cs := keyword_signal lower p (populated_of fs) (namespace_signal lower p []) in
  let cs := if 5 <=? length (populated_of fs) then index_signal content p cs else cs in
  match best_candidate cs with
  | Some name => name
  | None => match p with Some p => p ++ t "notes" | None => t "pernix.notes" end
  end.

(** ** Routing of a suggested name *)
Definition similar_file (fs : list FileRow) (suggested : text) : option text :=
  let step best actual :=
    if negb (bool_decide (space_bucket actual = space_bucket suggested)) then best
    else if bool_decide (name_tokens suggested = ∅) || bool_decide (name_tokens actual = ∅) then best
    else let j := jaccard (name_tokens suggested) (name_tokens actual) in
         if Qle_bool j best.1 then best else (j, Some actual) in
  let best := foldl step (0%Q, None) (set_order (fr_name <$> populated_of fs)) in
  if Qle_bool (6 # 10) best.1 then best.2 else None.
Definition _resolve_file_name (fs : list FileRow) (suggested : option text) (content : text)
    (space_slug : option text) : text :=
  match suggested ≫= (λ n, if decide (n = []) then None else _validate_name n) with
  | None => _auto_route fs content space_slug
  | Some suggested =>
      match head (filter (λ f, normalize_file_name (fr_name f) = normalize_file_name suggested) fs) with
      | Some f => fr_name f
      | None => default suggested (similar_file fs suggested)
      end
  end.
End routing.

Example normalized : normalize_file_name ∘ t <$> ["My-Notes.md_txt"; "a__b..c_report"; "pernix.log"] =
  t <$> ["my_notes_md"; "a_b_c"; "pernix"].
Proof. vm_compute. reflexivity. Qed.

(** ** Buckets *)
Lemma credit_names name q cs n : n ∈ (credit name q cs).*1 → n = name ∨ n ∈ cs.*1.
Proof.
  induction cs as [|[n' q'] cs IH]; cbn.
  - intros ->%list_elem_of_singleton. by left.
  - case_decide; cbn; rewrite !elem_of_cons; [naive_solver|]. intros [->|Hin]; [naive_solver|].
    destruct (IH Hin); naive_solver.
Qed.
Lemma best_candidate_in cs name : best_candidate cs = Some name → name ∈ cs.*1.
Proof.
  unfold best_candidate. set (f := λ (best : option (text * Q)) c, _).
  assert (∀ best, (∀ b, best = Some b → b ∈ cs) → ∀ l, l ⊆ cs → ∀ b, foldl f best l = Some b → b ∈ cs) as H.
  { intros best Hbest l. revert best Hbest. induction l as [|c l IH]; intros best Hbest Hl; [done|].
    cbn [foldl]. apply IH; [|set_solver]. intros b. unfold f. destruct best as [b'|].
    - destruct (Qle_bool c.2 b'.2); [by apply Hbest|]. intros [= <-]. set_solver.
    - intros [= <-]. set_solver. }
  destruct (foldl f None cs) as [b|] eqn:Hb; [|done]. intros [= <-]. apply list_elem_of_fmap. exists b.
  split; [done|]. eapply (H None); [done| |exact Hb]. set_solver.
Qed.
(** A signal credits files of the bucket only. *)
Lemma signal_names {A} (P : text → Prop) (step : Candidates → A → Candidates) l cs :
  (∀ cs x n, x ∈ l → n ∈ (step cs x).*1 → n ∈ cs.*1 ∨ P n) →
  (∀ n, n ∈ cs.*1 → P n) → ∀ n, n ∈ (foldl step cs l).*1 → P n.
Proof.
  revert cs. induction l as [|x l IH]; intros cs Hstep Hcs; [done|]. cbn [foldl]. apply IH.
  - intros cs' x' n Hx. apply Hstep. by apply elem_of_cons; right.
  - intros n Hn. destruct (Hstep cs x n) as [H|H]; [by apply elem_of_cons; left|done|by apply Hcs|done].
Qed.
Lemma namespaces_global : Forall (λ ns, space_bucket ns.1 = None) NAMESPACE_KEYWORDS.
Proof. by repeat constructor. Qed.
Lemma scoped_matches p ns : ns ∈ NAMESPACE_KEYWORDS → _bucket_matches (scoped p ns.1) p = true.
Proof.
  intros Hns. destruct p as [p|]; cbn; [apply starts_with_app|]. apply bool_decide_eq_true.
  pose proof namespaces_global as H. rewrite Forall_forall in H. by apply H.
Qed.

Definition slug_prefix (space_slug : option text) : option text :=
  match space_slug with Some [] | None => None | Some slug => Some (space_prefix_of slug) end.

(** Entries routed by content never cross a space's border.  Whatever the
    index ranks first and whatever files exist, an entry written from a space
    goes to a file under the space's prefix, and an entry written outside any
    space goes to a file of no space. *)
Theorem auto_route_stays_in_bucket (bm25 : text → option text → list (text * Q)) (fs : list FileRow)
    (content : text) (space_slug : option text) :
  _bucket_matches (_auto_route bm25 fs content space_slug) (slug_prefix space_slug) = true.
Proof.
  unfold _auto_route. change (match space_slug with Some [] | None => None | Some slug => Some (space_prefix_of slug) end)
    with (slug_prefix space_slug). set (p := slug_prefix space_slug). cbv zeta.
  set (lower := lower_text content).
  assert (∀ n, n ∈ (namespace_signal lower p []).*1 → _bucket_matches n p = true) as H1.
  { unfold namespace_signal. apply (signal_names (λ n, _bucket_matches n p = true)); [|by intros n ?%elem_of_nil].
    intros cs ns n Hns. case_match; [|by left]. intros [->|?]%credit_names; [right; by apply scoped_matches|by left]. }
  assert (∀ n, n ∈ (keyword_signal lower p (populated_of fs) (namespace_signal lower p [])).*1 →
               _bucket_matches n p = true) as H2.
  { unfold keyword_signal. apply (signal_names (λ n, _bucket_matches n p = true)); [|done].
    intros cs f n _. destruct (_bucket_matches (fr_name f) p) eqn:Hf; [|by left]. case_match; [|by left].
    intros [->|?]%credit_names; [by right|by left]. }
  set (cs := keyword_signal _ _ _ _) in *.
  assert (∀ n, n ∈ (if 5 <=? length (populated_of fs) then index_signal bm25 content p cs else cs).*1 →
               _bucket_matches n p = true) as H3.
  { case_match; [|done]. unfold index_signal. apply (signal_names (λ n, _bucket_matches n p = true)); [|done].
    set (scores := foldl _ _ (bm25 _ _)).
    assert (∀ n, n ∈ scores.*1 → _bucket_matches n p = true) as Hs.
    { unfold scores. apply (signal_names (λ n, _bucket_matches n p = true)); [|by intros n ?%elem_of_nil].
      intros fs' r n _. destruct (_bucket_matches r.1 p) eqn:Hr; [|by left].
      intros [->|?]%credit_names; [by right|by left]. }
    intros cs' f n Hf. case_match; [|by left]. intros [->|?]%credit_names; [right|by left].
    apply Hs, list_elem_of_fmap. eauto. }
  destruct (best_candidate _) as [name|] eqn:Hb; [by apply H3, best_candidate_in|].
  destruct p as [p'|]; [apply starts_with_app|done].
Qed.

(** A file named by the caller may not be the file written.  Two existing
    files whose canonical names agree share their writes: the first listed gets
    them, though the second was named and exists; the borders of spaces are not
    looked at here. *)
Theorem named_file_may_be_passed_over (bm25 : text → option text → list (text * Q)) (set_order : list text → list text) :
  let file name := mkFileRow (t name) [] [] 3 1 1 in
  _resolve_file_name bm25 set_order [file "pernix.notes"; file "pernix.log"] (Some (t "pernix.log")) [] None = t "pernix.notes" ∧
  (let fs := [file "pernix.space.team.a-plan"; file "pernix.space.team-a.plan"] in
   let named := t "pernix.space.team-a.plan" in
   space_bucket named = Some (t "team-a") ∧
   space_bucket (_resolve_file_name bm25 set_order fs (Some named) [] (Some (t "team-a"))) = Some (t "team")).
Proof. vm_compute. done. Qed.
