(* ===== verification/MemStore.v ===== *)
(** * The memory store (core/memory/store.py)

    Markdown files and the full-text index derived from them.  A store is the
    files by name, the rows of the index in insertion order, the registry of
    files and the hit counters.  An operation is a function of the store, the
    clock and what the rest of the program supplies; the store's lock makes it
    one step.  [None] is [ValueError] for an unusable name, raised before
    anything is written.  Writes that fail, embeddings and logging are left out. *)
From Stdlib Require Import QArith_base Qabs.
From stdpp Require Import gmap sets strings sorting.
From S2P Require Import Prelude PyStr PyText Regex MemFormat Difflib MemRouting.

Record Row := mkRow {
  r_file : text;
  r_content : text;
  r_tags : text;
  r_type : text;
  r_weight : text;
  r_epoch : N;
  r_source : text;
  r_updated : N
}.
Record Store := mkStore {
  files : gmap text text;             (** name.md, what was written *)
  fts : list Row;
  mfiles : list FileRow;
  hits : gmap (text * N) (N * N)      (** count, last hit *)
}.
#[export] Instance Store_settable : Settable Store := λ s, mkStore (files s) (fts s) (mfiles s) (hits s).
Definition empty_store : Store := mkStore ∅ [] [] ∅.

Inductive Reason := Enrichment | Correction.
(** The confirmation and error strings. *)
Inductive Reply :=
| EmptyContent
| Duplicate (dup : Row)
| Saved (name : text) (epoch : N)
| Superseded (name : text) (epoch : N) (why : Reason)
| FileNotFound (name : text)
| NewContentEmpty
| EpochCollision (matches : nat) (name : text) (epoch : N)
| NoEntry (name : text) (epoch : N)
| Updated (name : text) (epoch : N)
| Deleted (name : text) (epoch : N)
| Missing (name : text).              (** [FileNotFoundError] *)
Definition is_error (r : Reply) : bool :=
  match r with
  | EmptyContent | FileNotFound _ | NewContentEmpty | EpochCollision _ _ _ | NoEntry _ _ | Missing _ => true
  | _ => false
  end.

(** [md_path.read_text()] *)
Definition read_path (name : text) (s : Store) : option text := universal_newlines <$> files s !! name.
(** [read_file]; what it is given is valid. *)
Definition read_file (name : text) (s : Store) : option text := name ← _validate_name name; read_path name s.
Definition rows_of (name : text) (s : Store) : list Row := filter (λ r, r_file r = name) (fts s).
Definition row_of (name : text) (e : MemoryEntry) : Row :=
  mkRow name (content e) (join_with (t ",") (tags e)) (entry_type e) (weight e) (epoch e) (source e) (updated e).
Definition set_file_row (name : text) (f : FileRow → FileRow) (s : Store) : Store :=
  s <| mfiles ::= fmap (λ fr, if decide (fr_name fr = name) then f fr else fr) |>.

Definition _reindex_file (name new_raw : text) (now : N) (s : Store) : Store :=
  let entries := parse_entries_from_markdown name new_raw in
  set_file_row name (λ fr, fr <| fr_count := Z.of_nat (length entries) |> <| fr_updated := now |>)
    (s <| fts ::= λ rs, filter (λ r, r_file r ≠ name) rs ++ (row_of name <$> entries) |>).
(** [_write_locked] with the index commit riding on it. *)
Definition write_and_index (name new_raw : text) (now : N) (s : Store) : Store :=
  _reindex_file name new_raw now (s <| files ::= insert name new_raw |>).

(** ** Adding *)

(** [str.title()] of an ASCII text. *)
Fixpoint title_from (after_letter : bool) (s : text) : text :=
  match s with
  | [] => []
  | c :: s =>
      let upper := ((65 <=? c) && (c <=? 90))%N in
      let lower := ((97 <=? c) && (c <=? 122))%N in
      (if after_letter then (if upper then c + 32 else c) else (if lower then c - 32 else c))%N
      :: title_from (upper || lower) s
  end.
Definition title : text → text := title_from false.
(** It validates the name once more, which takes another suffix off. *)
Definition _ensure_file (name : text) (now : N) (s : Store) : Store :=
  let name := default name (_validate_name name) in
  match files s !! name with
  | Some _ => s
  | None =>
      let parts := split_words ((λ c, if bool_decide (c ∈ [46; 45; 95]%N) then SP else c) <$> name) in
      let description := title (join_with [SP] parts) in
      let keywords := lower_text <$> filter (λ p, 2 < length p) parts in
      s <| files ::= insert name (format_file_header name description keywords now) |>
        <| mfiles ::= λ fs, if bool_decide (name ∈ fr_name <$> fs) then fs
                            else fs ++ [mkFileRow name description (join_with (t ",") keywords) 0 now now] |>
  end.

(** Count up until the epoch is free. *)
Fixpoint bump (fuel : nat) (taken : list N) (e : N) : N :=
  match fuel with
  | S fuel => if decide (e ∈ taken) then bump fuel taken (e + 1)%N else e
  | 0 => e
  end.
(** More epochs than are taken need not be tried. *)
Definition free_epoch (taken : list N) (e : N) : N := bump (S (length taken)) taken e.
Definition indexed_epochs (name : text) (s : Store) : list N := r_epoch <$> rows_of name s.

Section writes.
(** [search(content, limit=3)] over the index; [search_bm25] for routing; the
    order of Python sets of texts. *)
Context (search : list Row → text → list Row) (bm25 : list Row → text → option text → list (text * Q))
  (set_order : list text → list text).

Definition words_of (s : text) : gset text := list_to_set (split_words (lower_text s)).
(** [a > b] *)
Definition above (a b : Q) : bool := negb (Qle_bool a b).
Definition near_duplicate (threshold : Q) (content : text) (r : Row) : bool :=
  above (ratio content (r_content r)) threshold ||
  ((3 <? size (words_of content)) && (3 <? size (words_of (r_content r))) &&
   above (jaccard (words_of content) (words_of (r_content r))) (55 # 100)).
Definition _find_exact (content : text) (s : Store) : option Row :=
  head (filter (λ r, r_content r = content) (fts s)).
Definition find_duplicate (content : text) (s : Store) : option Row :=
  match _find_exact content s with
  | Some r => Some r
  | None => head (filter (λ r, near_duplicate (70 # 100) content r = true) (search (fts s) content))
  end.

(** [list(tags)[:10]] of a set. *)
Definition _infer_tags (today name : text) : list text :=
  let parts := filter (λ p, 2 < length p) (split_words ((λ c, if (c =? 46)%N then SP else c) <$> name)) in
  take 10 (set_order (elements (list_to_set (today :: (lower_text <$> parts)) : gset text))).

Record Write := mkWrite {
  w_file : option text;
  w_type : text;
  w_tags : text;
  w_weight : text;
  w_epoch : N;                         (** 0 is none *)
  w_source : text;
  w_origin : text;
  w_space : option text;
  w_now : N;
  w_today : text
}.

(** From the routing of the name on. *)
Definition append_entry (content : text) (w : Write) (s : Store) : option (Reply * Store) :=
  match _validate_name (_resolve_file_name (bm25 (fts s)) set_order (mfiles s) (w_file w) content (w_space w)) with
  | None => None
  | Some name =>
      let s := _ensure_file name (w_now w) s in
      Some match read_path name s with
           | None => (Missing name, s)
           | Some read =>
               let revived := is_file_archived read in
               let raw := if revived then replace_first (NL :: _ARCHIVED_MARK) [] read else read in
               let tag_list := if decide (w_tags w = []) then join_with (t ",") (_infer_tags (w_today w) name)
                               else w_tags w in
               let epoch := free_epoch (indexed_epochs name s) (if (w_epoch w =? 0)%N then w_now w else w_epoch w) in
               let formatted := format_entry content (w_type w) tag_list (w_weight w) (w_source w) epoch [] [] 0
                                  (w_origin w) (w_now w) in
               let s := s <| files ::= insert name ((if revived then raw else default [] (files s !! name)) ++ formatted) |> in
               (Saved name epoch,
                 if revived then _reindex_file name (raw ++ formatted) (w_now w) s
                 else set_file_row name (λ fr, fr <| fr_count ::= Z.succ |> <| fr_updated := epoch |>)
                   (s <| fts ::= λ rs, rs ++ [mkRow name content tag_list (w_type w) (w_weight w) epoch (w_source w) 0] |>))
           end
  end.
Definition add_entry (content : text) (skip_dedup : bool) (w : Write) (s : Store) : option (Reply * Store) :=
  if decide (strip content = []) then Some (EmptyContent, s) else
  let content := sanitize_entry_content content in
  match (if skip_dedup || (length content <? 60) then None else find_duplicate content s) with
  | Some dup => Some (Duplicate dup, s)
  | None => append_entry content w s
  end.

(** ** Updating and deleting *)
Definition epoch_marker (e : N) : text := comment (t "epoch") (decimal e).
Definition holds (e : N) (section : text) : bool := contains (epoch_marker e) section.
Definition rewritten (new_content : text) (now : N) (section : text) : text :=
  let meta_lines := filter (λ l, is_comment l = true ∧ contains (t "@updated:") l = false) (split_lines section) in
  join_lines (meta_lines ++ [comment (t "updated") (decimal now)]) ++ NL :: new_content ++ [NL].
(** What [update_entry] and [delete_entry] share. *)
Definition edit_sections (name : text) (e : N) (edit : text → list text) (done : Reply) (now : N) (raw : text) (s : Store)
    : Reply * Store :=
  let sections := split SEP raw in
  match length (filter (λ x, holds e x = true) sections) with
  | 0 => (NoEntry name e, s)
  | 1 =>
      let new_raw := join_with SEP (sections ≫= λ x, if holds e x then edit x else [x]) in
      (done, write_and_index name new_raw now s)
  | n => (EpochCollision n name e, s)
  end.
Definition update_entry (name : text) (e : N) (new_content : text) (now : N) (s : Store) : option (Reply * Store) :=
  name ← _validate_name name;
  Some match read_path name s with
       | None => (FileNotFound name, s)
       | Some raw =>
           if decide (strip new_content = []) then (NewContentEmpty, s) else
           let new_content := sanitize_entry_content new_content in
           edit_sections name e (λ x, [rewritten new_content now x]) (Updated name e) now raw s
       end.
Definition delete_entry (name : text) (e : N) (now : N) (s : Store) : option (Reply * Store) :=
  name ← _validate_name name;
  Some match read_path name s with
       | None => (FileNotFound name, s)
       | Some raw => edit_sections name e (λ _, []) (Deleted name e) now raw s
       end.

(** ** Superseding *)
Definition _SUPERSEDE_RATIO : Q := 82 # 100.
Definition _SUPERSEDE_MAX_DROPPED_TOKENS : nat := 2.
Definition content_tokens (s : text) : gset text := list_to_set (runs_from is_word [] (lower_text s)).
Definition _supersede_reason (new_content old_content : text) : option Reason :=
  if above _SUPERSEDE_RATIO (ratio new_content old_content) then None else
  let new_tokens := content_tokens new_content in
  let old_tokens := content_tokens old_content in
  if bool_decide (new_tokens ∖ old_tokens = ∅) then None
  else if bool_decide (old_tokens ∖ new_tokens = ∅) then Some Enrichment
  else if size (old_tokens ∖ new_tokens) <=? _SUPERSEDE_MAX_DROPPED_TOKENS then Some Correction
  else None.
Definition add_or_supersede_entry (content : text) (w : Write) (s : Store) : option (Reply * Store) :=
  if decide (strip content = []) then Some (EmptyContent, s) else
  let content := sanitize_entry_content content in
  match (if length content <? 60 then None else find_duplicate content s) with
  | None => add_entry content true w s
  | Some dup =>
      match _supersede_reason content (r_content dup) with
      | None => Some (Duplicate dup, s)
      | Some why =>
          '(r, s') ← update_entry (r_file dup) (r_epoch dup) content (w_now w) s;
          Some (if is_error r then (Duplicate dup, s') else (Superseded (r_file dup) (r_epoch dup) why, s'))
      end
  end.
End writes.

(** ** Whole files *)
Definition archive_file (name : text) (s : Store) : option Store :=
  name ← _validate_name name;
  Some match read_path name s with
       | None => s
       | Some text_ =>
           let file_line := comment (t "file") name in
           let s := if is_file_archived text_ then s
                    else s <| files ::= insert name (replace_first file_line (file_line ++ NL :: _ARCHIVED_MARK) text_) |> in
           set_file_row name (λ fr, fr <| fr_count := 0%Z |>) (s <| fts ::= filter (λ r, r_file r ≠ name) |>)
       end.
(** Returns whether there was a file. *)
Definition delete_file (name : text) (s : Store) : option (bool * Store) :=
  name ← _validate_name name;
  Some (bool_decide (is_Some (files s !! name)),
    mkStore (delete name (files s)) (filter (λ r, r_file r ≠ name) (fts s))
      (filter (λ fr, fr_name fr ≠ name) (mfiles s)) (filter (λ h, h.1.1 ≠ name) (hits s))).
(** [rewrite_file], with what it returns. *)
Definition rewrite_file (name : text) (transform : text → option text) (s : Store) : option (bool * Store) :=
  name ← _validate_name name;
  Some match read_path name s with
       | None => (false, s)
       | Some raw =>
           match transform raw with
           | None => (false, s)
           | Some new_raw => if decide (new_raw = raw) then (false, s) else (true, s <| files ::= insert name new_raw |>)
           end
       end.
(** [get_entry]: reads the markdown; a bad name is no entry. *)
Definition get_entry (name : text) (e : N) (s : Store) : option MemoryEntry :=
  name ← _validate_name name;
  raw ← read_path name s;
  head (filter (λ x, epoch x = e) (parse_entries_from_markdown name raw)).

(** The editor's save.  A version is the digest of the bytes and the
    modification time; a caller with the digest is held to it alone. *)
Record Version := mkVersion { v_revision : text; v_mtime : Q; v_size : nat }.
Inductive WriteResult := Committed (v : Version) | VersionConflict (current : Version).
Definition MTIME_TOLERANCE_S : Q := 1 # 1000.
Definition _version_matches (current : Version) (expected_revision : option text) (expected_mtime : option Q) : bool :=
  match expected_revision, expected_mtime with
  | Some r, _ => bool_decide (v_revision current = r)
  | None, Some m => Qle_bool (Qabs (v_mtime current - m)) MTIME_TOLERANCE_S
  | None, None => true
  end.
Section whole_file.
Context (_revision_of : text → text) (mtime : text → Q) (size_of : text → nat).
Definition version_of (data : text) : Version := mkVersion (_revision_of data) (mtime data) (size_of data).
Definition file_version (name : text) (s : Store) : option Version := version_of <$> files s !! name.
Definition write_file (name content_ : text) (expected_revision : option text) (expected_mtime : option Q) (now : N)
    (s : Store) : option (WriteResult * Store) :=
  name ← _validate_name name;
  let s := _ensure_file name now s in
  let current := default (mkVersion (_revision_of []) 0 0) (file_version name s) in
  Some (if _version_matches current expected_revision expected_mtime
        then (Committed (version_of content_), write_and_index name content_ now s)
        else (VersionConflict current, s)).
End whole_file.

(** ** Moving *)

(** [re.findall(r"<!-- @epoch:\s*(\d+)\s*-->", text)] *)
Fixpoint all_epochs (fuel : nat) (s : text) : list N :=
  match fuel with
  | 0 => []
  | S fuel =>
      match search_at (run_field is_digit) (opening "epoch") s with
      | Some (digits, rest) => int_of digits :: all_epochs fuel rest
      | None => []
      end
  end.
Definition epochs_in (s : text) : list N := all_epochs (S (length s)) s.
Definition migrate_hits (from to : text * N) (h : gmap (text * N) (N * N)) : gmap (text * N) (N * N) :=
  match h !! from with
  | None => h
  | Some (n, last) =>
      let h := <[to := match h !! to with
                       | Some (m, l) => (m + n, N.max l last)%N
                       | None => (n, last)
                       end]> h in
      delete from h
  end.
Definition move_one (source target : text) (now : N) (st : list N * Store) (e : MemoryEntry) : list N * Store :=
  let '(taken, s) := st in
  let e' := free_epoch (taken ++ indexed_epochs target s) (epoch e) in
  let formatted := format_entry (content e) (entry_type e) (join_with (t ",") (tags e)) (weight e) (MemFormat.source e) e'
                     source [] (updated e) (origin e) now in
  (e' :: taken,
   s <| files ::= insert target (default [] (files s !! target) ++ formatted) |>
     <| fts ::= λ rs, rs ++ [row_of target (e <| epoch := e' |>)] |>
     <| hits ::= migrate_hits (source, epoch e) (target, e') |>).
Definition move_entries (source target : text) (epochs : list N) (now : N) (s : Store) : option (nat * Store) :=
  source ← _validate_name source;
  target ← _validate_name target;
  Some match read_file source s with
       | None | Some [] => (0, s)
       | Some md =>
           match filter (λ e, epoch e ∈ epochs) (parse_entries_from_markdown source md) with
           | [] => (0, s)
           | to_move =>
               let s := _ensure_file target now s in
               let s := match rewrite_file target (λ raw, if is_file_archived raw
                                                         then Some (reopen_archived_file raw ∅) else None) s with
                        | Some (_, s) => s
                        | None => s
                        end in
               let taken := epochs_in (default [] (read_file target s)) in
               let '(_, s) := foldl (move_one source target now) (taken, s) to_move in
               let n := length to_move in
               (n, set_file_row source (λ fr, fr <| fr_count ::= λ c, Z.max 0 (c - Z.of_nat n) |> <| fr_updated := now |>)
                     (set_file_row target (λ fr, fr <| fr_count ::= λ c, (c + Z.of_nat n)%Z |> <| fr_updated := now |>) s))
           end
       end.

(** ** Maintenance *)
Definition path_le (a b : text) : Prop := text_le (a ++ t ".md") (b ++ t ".md").
#[export] Instance path_le_dec : RelDecision path_le.
Proof. intros a b. unfold path_le. apply _. Defined.
(** [sorted(self._dir.glob("*.md"))] *)
Definition file_names (s : Store) : list text := merge_sort path_le ((map_to_list (files s)).*1).
Definition SIZE_CAP : N := 52428800.
Definition oversized (data : text) : bool :=
  match encode data with Some b => (SIZE_CAP <? N.of_nat (length b))%N | None => false end.
Definition indexable (name : text) (s : Store) : option text :=
  match files s !! name with
  | Some data => if _NAME_RE name && negb (oversized data) then Some (universal_newlines data) else None
  | None => None
  end.

Definition index_file (now : N) (st : nat * Store) (name : text) : nat * Store :=
  let '(total, s) := st in
  match indexable name s with
  | None => (total, s)
  | Some text_ =>
      let entries := parse_entries_from_markdown name text_ in
      (total + length entries,
       s <| fts ::= λ rs, rs ++ (row_of name <$> entries) |>
         <| mfiles ::= λ fs, fs ++ [mkFileRow name (title ((λ c, if (c =? 46)%N then SP else c) <$> name))
                                      (join_with (t ",") (split_on 46 name)) (Z.of_nat (length entries)) now now] |>)
  end.
Definition reindex (now : N) (s : Store) : nat * Store :=
  foldl (index_file now) (0, s <| fts := [] |> <| mfiles := [] |>) (file_names s).

Definition _entry_body (section : text) : text :=
  strip (join_lines (filter (λ l, starts_with (t "<!-- @merged_") l = false) (splitlines_from false [] section))).
(** [epoch_re.search(section)]: the match and its number. *)
Fixpoint first_epoch (s : text) : option (text * N) :=
  match (if starts_with (opening "epoch") s then run_field is_digit (drop (length (opening "epoch")) s) else None) with
  | Some (digits, rest) => Some (take (length s - length rest) s, int_of digits)
  | None => match s with [] => None | _ :: s' => first_epoch s' end
  end.
Record Repair := mkRepair {
  rp_all : list N; rp_seen : list N; rp_bodies : gmap N text; rp_out : list text; rp_changed : nat
}.
Definition repair_section (st : Repair) (section : text) : Repair :=
  match first_epoch section with
  | None => mkRepair (rp_all st) (rp_seen st) (rp_bodies st) (rp_out st ++ [section]) (rp_changed st)
  | Some (found, e) =>
      let body := _entry_body section in
      if bool_decide (e ∈ rp_seen st) && bool_decide (rp_bodies st !! e = Some body)
      then mkRepair (rp_all st) (rp_seen st) (rp_bodies st) (rp_out st) (S (rp_changed st))
      else if bool_decide (e ∈ rp_seen st) then
        let e' := free_epoch (rp_seen st ++ rp_all st) e in
        let section := replace_first found (epoch_marker e') section in
        mkRepair (e' :: rp_all st) (e' :: rp_seen st) (<[e' := _entry_body section]> (rp_bodies st))
          (rp_out st ++ [section]) (S (rp_changed st))
      else mkRepair (rp_all st) (e :: rp_seen st) (<[e := body]> (rp_bodies st)) (rp_out st ++ [section])
             (rp_changed st)
  end.
Definition repair_file (now : N) (st : nat * Store) (name : text) : nat * Store :=
  let '(repaired, s) := st in
  match read_path name s with
  | None => st
  | Some raw =>
      if is_file_archived raw then st else
      let r := foldl repair_section (mkRepair (epochs_in raw) [] ∅ [] 0) (split SEP raw) in
      if rp_changed r =? 0 then st
      else (repaired + rp_changed r, write_and_index name (join_with SEP (rp_out r)) now s)
  end.
Definition repair_epoch_collisions (now : N) (s : Store) : nat * Store :=
  foldl (repair_file now) (0, s) (file_names s).

Record Survey := mkSurvey { indexed_entries : nat; markdown_entries : nat; epoch_collisions : nat }.
Definition in_sync (v : Survey) : bool := indexed_entries v =? markdown_entries v.
Definition _survey (s : Store) : Survey :=
  let entries name := match indexable name s with
                      | Some text_ => parse_entries_from_markdown name text_
                      | None => []
                      end in
  let all := entries <$> file_names s in
  mkSurvey (length (fts s)) (sum_list (length <$> all))
    (sum_list ((λ es, length es - size (list_to_set (epoch <$> es) : gset N)) <$> all)).

(** The epochs and contents the index holds of a file. *)
Definition live_rows (name : text) (s : Store) : gmap N text :=
  foldl (λ m r, <[r_epoch r := r_content r]> m) ∅ (rows_of name s).
Definition reopen_file (st : nat * Store) (name : text) : nat * Store :=
  let '(reopened, s) := st in
  match read_path name s with
  | Some raw =>
      if _NAME_RE name && is_file_archived raw then
        match rewrite_file name (λ raw, if is_file_archived raw then Some (reopen_archived_file raw (live_rows name s))
                                        else None) s with
        | Some (true, s) =>
            let kept := parse_entries_from_markdown name (default [] (read_file name s)) in
            (S reopened, set_file_row name (λ fr, fr <| fr_count := Z.of_nat (length kept) |>) s)
        | _ => st
        end
      else st
  | None => st
  end.
(** The names of the index, sorted; each file's rows are those read first. *)
Definition repair_archived_with_live_rows (s : Store) : nat * Store :=
  foldl reopen_file (0, s) (merge_sort text_le (elements (list_to_set (r_file <$> fts s) : gset text))).

Record Health := mkHealth { h_survey : Survey; h_repaired : option nat; h_reindexed : option nat }.
Definition health_check (fix_ : bool) (now : N) (s : Store) : Health * Store :=
  let s := if fix_ then snd (repair_archived_with_live_rows s) else s in
  let v := _survey s in
  let '(repaired, v, s) :=
    if negb (epoch_collisions v =? 0) && fix_
    then let '(n, s) := repair_epoch_collisions now s in (Some n, _survey s, s) else (None, v, s) in
  if negb (in_sync v) && fix_
  then let '(n, s) := reindex now s in (mkHealth v repaired (Some n), s)
  else (mkHealth v repaired None, s).

(** ** Search results *)
Definition _record_hits (now : N) (results : list (text * N)) (s : Store) : Store :=
  s <| hits ::= λ h, foldl (λ h k, <[k := ((default (0, 0) (h !! k)).1 + 1, now)]> h)%N h results |>.
Record Scored := mkScored { s_row : Row; s_score : Q }.
Definition scores_higher (a b : Scored) : Prop := Qle_bool (s_score b) (s_score a) = true.
#[export] Instance scores_higher_dec : RelDecision scores_higher.
Proof. intros a b. unfold scores_higher. apply _. Defined.
Definition key_of_result (x : Scored) : text * N := (r_file (s_row x), r_epoch (s_row x)).
Fixpoint merge_unseen (limit : nat) (seen : list (text * N)) (rs : list Scored) : list Scored :=
  match rs with
  | [] => []
  | x :: rs =>
      if bool_decide (key_of_result x ∈ seen)
      then if limit <=? length seen then [] else merge_unseen limit seen rs
      else x :: (if limit <=? S (length seen) then [] else merge_unseen limit (key_of_result x :: seen) rs)
  end.
(** [_merge_space_first]: [sorted] is by falling score and stable. *)
Definition _merge_space_first (limit : nat) (space global : list Scored) : list Scored :=
  let space := merge_sort scores_higher space in
  let real x := Qle_bool 1 (s_score x) in
  let '(leading, noise) := if existsb real global then (filter (λ x, real x = true) space, filter (λ x, real x = false) space)
                           else (space, []) in
  merge_unseen limit [] (leading ++ global ++ noise).
