(* ===== verification/MemIndex.v ===== *)
(** * The index follows the markdown

    The store of MemStore seen as documents: every file is a rendered [Doc] of
    MemFormat, and the index holds exactly the rows of its live sections.  The
    operations of the store are edits of documents, proved one by one. *)
From Stdlib Require Import QArith_base ZifyBool.
From stdpp Require Import gmap sets strings sorting.
From S2P Require Import Prelude PyStr PyText Regex MemFormat MemRouting MemStore.

(** ** Edits of a document *)
#[export] Instance Doc_settable : Settable Doc := λ d, mkDoc (d_archived d) (d_rest d) (d_sections d).
Definition add_section (x : Sec) (d : Doc) : Doc := d <| d_sections ::= λ ss, ss ++ [x] |>.
Definition epoch_is (e : N) (x : Sec) : Prop := meta "epoch" (metas x) = Some (decimal e).
#[export] Instance epoch_is_dec e x : Decision (epoch_is e x).
Proof. unfold epoch_is. apply _. Defined.
Definition update_sec (c : text) (now : N) (x : Sec) : Sec :=
  mkSec (filter (λ m, m.1 ≠ "updated") (metas x) ++ [("updated", decimal now)]) c.
Definition edit_doc (e : N) (f : Sec → list Sec) (d : Doc) : Doc :=
  d <| d_sections ::= λ ss, ss ≫= λ x, if decide (epoch_is e x) then f x else [x] |>.

Lemma render_add name x d : render_doc name (add_section x d) = render_doc name d ++ SEP ++ render_section x.
Proof.
  unfold render_doc, add_section. cbn [modify d_sections]. unfold header_of. cbn [d_archived d_rest].
  rewrite bind_app. cbn [mbind list_bind]. by rewrite app_nil_r, !app_assoc.
Qed.

(** ** Markers in text *)
Lemma find_past p c a b : c ∉ a → find (c :: p) (a ++ (c :: p) ++ b) = Some (length a).
Proof.
  induction a as [|x a IH]; intros Hc.
  - cbn [app]. change (c :: p ++ b) with ((c :: p) ++ b). unfold find. destruct ((c :: p) ++ b) eqn:E; [done|].
    by rewrite <-E, starts_with_app.
  - apply not_elem_of_cons in Hc as [Hx Ha]. cbn [app find]. rewrite <-app_comm_cons in IH. rewrite IH by done.
    cbn -[N.eqb]. by destruct (N.eqb_spec c x).
Qed.
Lemma replace_past p c new a b : c ∉ a → replace_first (c :: p) new (a ++ (c :: p) ++ b) = a ++ new ++ b.
Proof.
  intros Hc. unfold replace_first. rewrite find_past, take_app_length by done. do 2 f_equal.
  by rewrite <-drop_drop, drop_app_length, drop_app_length.
Qed.
Lemma file_line_one name : NL ∉ name → NL ∉ comment (t "file") name.
Proof.
  intros H. unfold comment. rewrite !elem_of_app. vm_compute (t "<!-- @"). vm_compute (t "file").
  vm_compute (t ": "). vm_compute (t " -->"). set_solver.
Qed.
Lemma revive_doc name d :
  NL ∉ name → d_archived d = true →
  replace_first (NL :: _ARCHIVED_MARK) [] (render_doc name d) = render_doc name (d <| d_archived := false |>).
Proof.
  intros Hn Hd. unfold render_doc, header_of. cbn [modify d_archived d_rest d_sections]. rewrite Hd, <-!app_assoc.
  by rewrite replace_past by by apply file_line_one.
Qed.
Lemma replace_head p new b : p ≠ [] → replace_first p new (p ++ b) = new ++ b.
Proof.
  intros Hp. unfold replace_first. assert (find p (p ++ b) = Some 0) as ->.
  { destruct p as [|c p]; [done|]. by apply (find_past p c []), not_elem_of_nil. }
  cbn [take Nat.add app]. by rewrite drop_app_length.
Qed.
Lemma archive_doc name d :
  d_archived d = false →
  let file_line := comment (t "file") name in
  replace_first file_line (file_line ++ NL :: _ARCHIVED_MARK) (render_doc name d) =
  render_doc name (d <| d_archived := true |>).
Proof.
  intros Hd file_line. unfold render_doc, header_of. cbn [modify d_archived d_rest d_sections]. rewrite Hd, <-!app_assoc.
  unfold file_line. rewrite replace_head by done. by rewrite <-!app_assoc.
Qed.

(** Two runs without [x] that agree up to [x] are the same. *)
Lemma sep_prefix x u w a b : x ∉ u → x ∉ w → starts_with (u ++ x :: a) (w ++ x :: b) = true → u = w.
Proof.
  intros Hu Hw [r Hr]%starts_with_spec. rewrite <-app_assoc in Hr. cbn in Hr.
  revert w Hw Hr. induction u as [|c u IH]; intros [|d w] Hw; cbn; intros Hr; simplify_eq; [done|set_solver|set_solver|].
  f_equal. apply IH; set_solver.
Qed.
Lemma decimal_inj a b : decimal a = decimal b → a = b.
Proof. intros H%(f_equal int_of). by rewrite !int_of_decimal in H. Qed.
Lemma holds_comment e k v : meta_ok k v → contains (epoch_marker e) (comment (t k) v) = bool_decide (k = "epoch" ∧ v = decimal e).
Proof.
  intros Hm. destruct (keys_ok _ (ok_key _ _ Hm)) as (_ & Hlt & _).
  change (epoch_marker e) with (LT :: drop 1 (epoch_marker e)). rewrite contains_comment by (done || by destruct Hm).
  change (LT :: drop 1 (epoch_marker e)) with (epoch_marker e). apply eq_true_iff_eq. rewrite bool_decide_eq_true. split.
  - intros Hs. assert (starts_with (opening "epoch") (comment (t k) v) = true) as Hk.
    { apply starts_with_spec in Hs as [r ->]. unfold epoch_marker, comment. rewrite <-!app_assoc.
      change (t "<!-- @" ++ t "epoch" ++ t ": " ++ decimal e ++ t " -->" ++ r)
        with (opening "epoch" ++ SP :: decimal e ++ t " -->" ++ r). apply starts_with_app. }
    rewrite opening_key in Hk; [|by apply keys_ok; unfold KEYS; set_solver|by apply keys_ok, Hm].
    apply bool_decide_eq_true in Hk. subst k. split; [done|].
    unfold epoch_marker, comment in Hs. rewrite !starts_with_both in Hs.
    destruct (ok_digits _ _ Hm) as [n ->]; [by left|].
    symmetry. eapply (sep_prefix SP); [by apply decimal_absent|by apply decimal_absent|exact Hs].
  - intros [-> ->]. unfold epoch_marker. rewrite <-(app_nil_r (comment _ _)) at 2. apply starts_with_app.
Qed.
Lemma marker_line e : NL ∉ epoch_marker e.
Proof.
  unfold epoch_marker, comment. rewrite !elem_of_app. vm_compute (t "<!-- @"). vm_compute (t "epoch").
  vm_compute (t ": "). vm_compute (t " -->"). pose proof (decimal_absent NL e eq_refl). set_solver.
Qed.
Lemma marker_longer e : epoch_marker e = opening "epoch" ++ SP :: decimal e ++ t " -->".
Proof. done. Qed.
Lemma render_lines x : render_section x = join_lines (comments (metas x) ++ [body x; []]).
Proof. done. Qed.
Lemma metas_epoch x : sec_ok x → ∃ e, meta "epoch" (metas x) = Some (decimal e).
Proof. intros Hx. destruct (ok_epoch _ Hx) as (e & ms & ->). exists e. by rewrite meta_cons. Qed.
Lemma holds_section e x : sec_ok x → holds e (render_section x) = bool_decide (epoch_is e x).
Proof.
  intros Hx. destruct (ok_epoch _ Hx) as (e' & ms & Hms). unfold holds. rewrite render_lines.
  rewrite contains_lines; [|apply marker_line|done].
  rewrite existsb_app. cbn [existsb].
  assert (contains (epoch_marker e) (body x) = false) as ->.
  { rewrite marker_longer. apply contains_longer, opening_body, Hx. }
  assert (contains (epoch_marker e) [] = false) as -> by done. rewrite !orb_false_r.
  assert (epoch_is e x ↔ e' = e) as Hiff.
  { unfold epoch_is. rewrite Hms, meta_cons, decide_True by done. split; [by intros [= ?%decimal_inj]|by intros ->]. }
  rewrite (bool_decide_ext _ _ Hiff), Hms, comments_cons. cbn [existsb].
  pose proof (ok_metas _ Hx) as Hok. pose proof (ok_keys _ Hx) as Hnd. rewrite Hms in Hok, Hnd.
  apply metas_ok_cons in Hok as [Hm Hok]. rewrite holds_comment by done.
  assert (existsb (contains (epoch_marker e)) (comments ms) = false) as ->.
  { apply NoDup_cons in Hnd as [Hnot _]. clear -Hok Hnot. induction Hok as [|[k v] ms Hm _ IH]; [done|].
    cbn in Hnot. apply not_elem_of_cons in Hnot as [Hk Hnot].
    rewrite comments_cons. cbn [existsb]. rewrite IH, holds_comment by done. by rewrite bool_decide_false by naive_solver. }
  rewrite orb_false_r. apply bool_decide_ext. split; [by intros [_ ?%decimal_inj]|by intros ->].
Qed.
Lemma holds_header e name d : doc_ok name d → holds e (header_of name d) = false.
Proof.
  intros [[Hlt Hnl] _ Hno _]. unfold holds, header_of.
  assert (contains (epoch_marker e) (d_rest d) = false) as Hr by (rewrite marker_longer; by apply contains_longer).
  assert (contains (epoch_marker e) (comment (t "file") name) = false) as Hf.
  { rewrite marker_longer. apply contains_longer. rewrite opening_cons, contains_comment, <-opening_cons by (done || vm_compute; set_solver).
    done. }
  pose proof (marker_line e) as Hl. destruct (d_archived d); cbn [app].
  - rewrite !contains_line, Hr, Hf by done. by rewrite orb_false_r.
  - by rewrite contains_line, Hr, Hf by done.
Qed.

(** ** The rewritten section *)
Definition content_ok (c : text) : Prop :=
  ¬ blank c ∧ contains (t "<!--") c = false ∧ Forall (λ l, l ≠ t "---") (split_lines c).
Lemma mentions_updated k v : meta_ok k v → contains (t "@updated:") (comment (t k) v) = bool_decide (k = "updated").
Proof.
  intros Hm. assert (comment (t k) v = t "<!--" ++ SP :: (64%N :: t k ++ [58%N]) ++ SP :: v ++ SP :: t "-->") as ->.
  { unfold comment. change (t "<!-- @") with (t "<!--" ++ SP :: [64%N]). change (t ": ") with [58; SP]%N.
    by rewrite <-!app_assoc, <-!app_comm_cons, <-!app_assoc. }
  rewrite !contains_sep by (done || vm_compute; set_solver). rewrite (ok_not_updated _ _ Hm).
  assert (contains (t "@updated:") (64%N :: t k ++ [58%N]) = bool_decide (k = "updated")) as ->.
  { pose proof (ok_key _ _ Hm) as Hk. unfold KEYS in Hk. rewrite !elem_of_cons in Hk.
    repeat destruct Hk as [->|Hk]; try reflexivity. by apply elem_of_nil in Hk. }
  by rewrite orb_false_r.
Qed.
Lemma render_body x : sec_ok x → render_section x = join_lines (comments (metas x) ++ [body x ++ [NL]]).
Proof.
  intros Hx. destruct (ok_epoch _ Hx) as (e & ms & Hms). unfold render_section.
  by rewrite !join_app by (done || by rewrite Hms).
Qed.
Lemma section_lines x :
  sec_ok x → split_lines (render_section x) = comments (metas x) ++ split_lines (body x) ++ [[]].
Proof.
  intros Hx. rewrite render_body, split_section by (done || by destruct Hx).
  by rewrite (split_lines_app (body x) []).
Qed.
Lemma kept_lines ms :
  Forall (λ m, meta_ok m.1 m.2) ms →
  filter (λ l, is_comment l = true ∧ contains (t "@updated:") l = false) (comments ms) =
  comments (filter (λ m, m.1 ≠ "updated") ms).
Proof.
  induction 1 as [|[k v] ms Hm _ IH]; [done|]. rewrite comments_cons, !filter_cons, IH. cbn [fst].
  destruct (decide (k = "updated")) as [->|Hk].
  - rewrite (decide_False (P := _ ≠ _)) by tauto. rewrite decide_False; [done|].
    rewrite mentions_updated by done. by intros [_ ?].
  - rewrite (decide_True (P := _ ≠ _)) by done. rewrite decide_True; [done|].
    rewrite mentions_updated, comment_is_comment by done. split; [done|]. by apply bool_decide_eq_false.
Qed.
Lemma rewritten_section c now x :
  sec_ok x → rewritten c now (render_section x) = render_section (update_sec c now x).
Proof.
  intros Hx. unfold rewritten. rewrite section_lines by done.
  rewrite !filter_app, kept_lines by by destruct Hx.
  assert (filter (λ l, is_comment l = true ∧ contains (t "@updated:") l = false) (split_lines (body x)) = []) as ->.
  { apply filter_none. intros l Hl [Hc _]. rewrite (body_line _ (body x)) in Hc; [done|by destruct Hx|done]. }
  unfold render_section, update_sec. cbn [metas body].
  rewrite comments_app. rewrite (join_app _ [c; []]) by (done || by destruct (comments _)).
  cbn [app]. by rewrite app_nil_r.
Qed.
Lemma keys_filter ms : NoDup ms.*1 → NoDup (filter (λ m : string * text, m.1 ≠ "updated") ms ++ [("updated", [])]).*1.
Proof.
  intros H. rewrite fmap_app. apply NoDup_app. split_and!.
  - induction ms as [|[k v] ms IH]; [constructor|]. apply NoDup_cons in H as [Hk H]. rewrite filter_cons.
    case_decide; [|by apply IH]. cbn. constructor; [|by apply IH]. intros ([k' v'] & -> & [_ Hin]%list_elem_of_filter)%list_elem_of_fmap.
    apply Hk. apply list_elem_of_fmap. by exists (k', v').
  - intros k ([k' v'] & -> & [Hn _]%list_elem_of_filter)%list_elem_of_fmap. cbn. set_solver.
  - apply NoDup_singleton.
Qed.
Lemma update_sec_ok c now x : sec_ok x → content_ok c → sec_ok (update_sec c now x).
Proof.
  intros Hx (Hb & Hno & Hrule). destruct (ok_epoch _ Hx) as (e & ms & Hms).
  split; cbn [metas body update_sec]; try done.
  - rewrite Hms, filter_cons, decide_True by done. by eexists e, _.
  - apply Forall_app. split; [apply Forall_forall; intros m [_ Hm]%list_elem_of_filter; by apply (proj1 (Forall_forall _ _) (ok_metas _ Hx))|]. apply Forall_singleton, digits_meta.
    + unfold KEYS. set_solver.
    + unfold WORD_KEYS. set_solver.
  - pose proof (keys_filter _ (ok_keys _ Hx)) as H. rewrite fmap_app in *. done.
Qed.
Lemma meta_filter k ms : k ≠ "updated" → meta k (filter (λ m, m.1 ≠ "updated") ms) = meta k ms.
Proof.
  intros Hk. induction ms as [|[k' v] ms IH]; [done|]. rewrite filter_cons, meta_cons. cbn [fst].
  destruct (decide (k' = "updated")) as [->|Hn].
  - rewrite decide_False by tauto. by rewrite IH, decide_False.
  - by rewrite decide_True, meta_cons, IH.
Qed.
Lemma meta_no_updated ms : meta "updated" (filter (λ m, m.1 ≠ "updated") ms) = None.
Proof. apply meta_None. intros ([k v] & Hk & [Hn _]%list_elem_of_filter)%list_elem_of_fmap. by destruct Hn. Qed.
Lemma meta_update k c now x :
  meta k (metas (update_sec c now x)) = if decide (k = "updated") then Some (decimal now) else meta k (metas x).
Proof.
  cbn [metas update_sec]. rewrite meta_app, meta_cons. case_decide as Hk.
  - subst k. by rewrite meta_no_updated, decide_True.
  - rewrite meta_filter by done. rewrite decide_False by done. by destruct (meta k (metas x)).
Qed.
Lemma entry_of_update name c now x :
  entry_of name (update_sec c now x) = (λ e, e <| content := strip c |> <| updated := now |>) <$> entry_of name x.
Proof.
  unfold entry_of. rewrite !meta_update. literal_keys. cbn [body update_sec].
  destruct (meta "archived" (metas x)); [done|]. destruct (meta "epoch" (metas x)); [|done]. cbn.
  by rewrite int_of_decimal.
Qed.

(** ** Editing the section of an epoch *)
Lemma join_sections h ss :
  join_with SEP (h :: (render_section <$> ss)) = h ++ (ss ≫= λ x, SEP ++ render_section x).
Proof.
  revert h. induction ss as [|x ss IH]; intros h; [by rewrite app_nil_r|].
  rewrite fmap_cons, join_with_cons, IH by done. rewrite bind_cons. by rewrite <-app_assoc.
Qed.
Lemma sections_ok name d x : doc_ok name d → x ∈ d_sections d → sec_ok x.
Proof. intros Hd Hx. by apply (proj1 (Forall_forall _ _) (ok_sections _ _ Hd)). Qed.
Lemma count_holding e name d :
  doc_ok name d →
  length (filter (λ x, holds e x = true) (split SEP (render_doc name d))) = length (filter (epoch_is e) (d_sections d)).
Proof.
  intros Hd. rewrite split_doc, filter_cons by done. rewrite decide_False by by rewrite holds_header.
  destruct Hd as [_ _ _ Hs]. induction Hs as [|x ss Hx _ IH]; [done|].
  rewrite fmap_cons, !filter_cons, holds_section by done. case_bool_decide as He.
  - rewrite !decide_True by done. cbn [length]. by rewrite IH.
  - by rewrite !decide_False by done.
Qed.
Lemma edited_text e (edit : text → list text) f name d :
  doc_ok name d → (∀ x, sec_ok x → edit (render_section x) = render_section <$> f x) →
  join_with SEP (split SEP (render_doc name d) ≫= λ x, if holds e x then edit x else [x]) = render_doc name (edit_doc e f d).
Proof.
  intros Hd Hf. rewrite split_doc, bind_cons, holds_header by done. cbn [app].
  assert (((render_section <$> d_sections d) ≫= λ x, if holds e x then edit x else [x]) =
          render_section <$> (d_sections d ≫= λ x, if decide (epoch_is e x) then f x else [x])) as ->.
  { destruct Hd as [_ _ _ Hs]. induction Hs as [|x ss Hx _ IH]; [done|].
    rewrite fmap_cons, !bind_cons, fmap_app, IH, holds_section by done. f_equal.
    case_bool_decide; [rewrite decide_True by done; by apply Hf|by rewrite decide_False]. }
  by rewrite join_sections.
Qed.
Lemma entry_epoch name x y e : sec_ok x → entry_of name x = Some y → epoch y = e ↔ epoch_is e x.
Proof.
  intros (e' & He)%metas_epoch. unfold entry_of, epoch_is. rewrite He.
  destruct (meta "archived" (metas x)); [done|]. intros [= <-]. cbn [epoch]. rewrite int_of_decimal.
  split; [by intros ->|by intros [= ?%decimal_inj]].
Qed.
Lemma edit_doc_ok e f name d :
  doc_ok name d → (∀ x, sec_ok x → Forall sec_ok (f x)) → doc_ok name (edit_doc e f d).
Proof.
  intros [Hn Hr Hno Hs] Hf. split; try done. cbn. induction Hs as [|x ss Hx _ IH]; [done|].
  rewrite bind_cons. apply Forall_app. split; [|done]. case_decide; [by apply Hf|by apply Forall_singleton].
Qed.
Lemma entries_deleted e name d :
  doc_ok name d → entries_of name (edit_doc e (λ _, []) d) = filter (λ y, epoch y ≠ e) (entries_of name d).
Proof.
  intros [_ _ _ Hs]. unfold entries_of. cbn. destruct (d_archived d); [done|].
  induction Hs as [|x ss Hx _ IH]; [done|]. rewrite bind_cons, omap_app, IH. cbn [omap list_omap].
  destruct (entry_of name x) as [y|] eqn:Hy.
  - pose proof (entry_epoch name x y e Hx Hy) as Hiff. rewrite filter_cons.
    destruct (decide (epoch_is e x)).
    + rewrite decide_False by tauto. done.
    + rewrite decide_True by tauto. cbn [omap list_omap]. by rewrite Hy.
  - case_decide; [done|]. cbn [omap list_omap]. by rewrite Hy.
Qed.
(** What an update does to the entries of a file. *)
Definition with_content (e : N) (c : text) (now : N) (y : MemoryEntry) : MemoryEntry :=
  if decide (epoch y = e) then y <| content := strip c |> <| updated := now |> else y.
Lemma entries_updated e c now name d :
  doc_ok name d →
  entries_of name (edit_doc e (λ x, [update_sec c now x]) d) = with_content e c now <$> entries_of name d.
Proof.
  intros [_ _ _ Hs]. unfold entries_of. cbn. destruct (d_archived d); [done|].
  induction Hs as [|x ss Hx _ IH]; [done|]. rewrite bind_cons, omap_app, IH. cbn [omap list_omap].
  destruct (entry_of name x) as [y|] eqn:Hy.
  - pose proof (entry_epoch name x y e Hx Hy) as Hiff. rewrite fmap_cons. unfold with_content at 2.
    destruct (decide (epoch_is e x)).
    + rewrite decide_True by tauto. cbn [omap list_omap]. by rewrite entry_of_update, Hy.
    + rewrite decide_False by tauto. cbn [omap list_omap]. by rewrite Hy.
  - case_decide; cbn [omap list_omap]; [by rewrite entry_of_update, Hy|by rewrite Hy].
Qed.

(** ** Documents without carriage returns *)
Record doc_clean (name : text) (d : Doc) : Prop := {
  clean_ok : doc_ok name d;
  clean_cr : CR ∉ render_doc name d
}.
Lemma cr_sections h ss : CR ∉ h ++ (ss ≫= λ x, SEP ++ render_section x) ↔ CR ∉ h ∧ Forall (λ x, CR ∉ render_section x) ss.
Proof.
  rewrite elem_of_app. induction ss as [|x ss IH].
  - cbn. split; [intros H; split; [tauto|constructor]|]. intros [H _] [?|?%elem_of_nil]; tauto.
  - rewrite bind_cons, Forall_cons, !elem_of_app. assert (CR ∉ SEP) by (vm_compute; set_solver). tauto.
Qed.
Lemma cr_join ls : CR ∉ join_lines ls ↔ Forall (λ l, CR ∉ l) ls.
Proof.
  induction ls as [|l ls IH]; [split; [by constructor|intros _; apply not_elem_of_nil]|]. destruct ls as [|l' ls].
  - cbn. by rewrite Forall_singleton.
  - rewrite join_cons, Forall_cons, <-IH by done. rewrite elem_of_app, elem_of_cons. assert (CR ≠ NL) by done. tauto.
Qed.
Lemma cr_comment k v : CR ∉ comment (t k) v ↔ CR ∉ t k ∧ CR ∉ v.
Proof.
  unfold comment. rewrite !elem_of_app. vm_compute (t "<!-- @"). vm_compute (t ": "). vm_compute (t " -->").
  assert (∀ l : text, forallb (λ x, negb (x =? CR)%N) l = true → CR ∉ l) as H.
  { intros l Hl Hin. rewrite forallb_forall in Hl. by apply list_elem_of_In, Hl in Hin. }
  pose proof (H [60; 33; 45; 45; 32; 64]%N eq_refl). pose proof (H [58; 32]%N eq_refl).
  pose proof (H [32; 45; 45; 62]%N eq_refl). tauto.
Qed.
Lemma cr_section x : CR ∉ render_section x ↔ Forall (λ m, CR ∉ t m.1 ∧ CR ∉ m.2) (metas x) ∧ CR ∉ body x.
Proof.
  unfold render_section. rewrite cr_join, Forall_app, !Forall_cons, Forall_nil. unfold comments. rewrite Forall_fmap.
  assert (Forall ((λ l, CR ∉ l) ∘ (λ m : string * text, comment (t m.1) m.2)) (metas x) ↔
          Forall (λ m, CR ∉ t m.1 ∧ CR ∉ m.2) (metas x)) as ->.
  { apply Forall_iff. intros m. apply cr_comment. }
  assert (CR ∉ ([] : text)) by apply not_elem_of_nil. tauto.
Qed.
Lemma edit_doc_clean e f name d :
  doc_clean name d → (∀ x, sec_ok x → CR ∉ render_section x → Forall (λ y, sec_ok y ∧ CR ∉ render_section y) (f x)) →
  doc_clean name (edit_doc e f d).
Proof.
  intros [Hd Hcr] Hf. apply cr_sections in Hcr as [Hh Hss]. split.
  - destruct Hd as [Hn Hr Hno Hs]. split; try done. cbn.
    induction Hs as [|x ss Hx _ IH]; [done|]. apply Forall_cons in Hss as [Hc Hss]. rewrite bind_cons. apply Forall_app.
    split; [|by apply IH]. case_decide; [|by apply Forall_singleton].
    eapply Forall_impl; [by apply Hf|]. by intros y [??].
  - apply cr_sections. split; [done|]. cbn. destruct Hd as [_ _ _ Hs].
    induction Hs as [|x ss Hx _ IH]; [done|]. apply Forall_cons in Hss as [Hc Hss]. rewrite bind_cons. apply Forall_app.
    split; [|by apply IH]. case_decide; [|by apply Forall_singleton].
    eapply Forall_impl; [by apply Hf|]. by intros y [??].
Qed.
Lemma cr_update c now x : CR ∉ c → CR ∉ render_section x → CR ∉ render_section (update_sec c now x).
Proof.
  rewrite !cr_section. cbn [metas body update_sec]. intros Hc [Hm _]. split; [|done]. apply Forall_app. split.
  - apply Forall_forall. intros m [_ Hin]%list_elem_of_filter. by apply (proj1 (Forall_forall _ _) Hm).
  - apply Forall_singleton. split; [vm_compute; set_solver|by apply decimal_absent].
Qed.
Lemma revived_clean name d b : doc_clean name d → doc_clean name (d <| d_archived := b |>).
Proof.
  intros [[Hn Hr Hno Hs] Hcr]. split; [by split|]. apply cr_sections in Hcr as [Hh Hss]. apply cr_sections. split; [|done].
  unfold header_of in *. cbn [modify d_archived d_rest] in *. apply not_elem_of_app in Hh as [Hf Hh].
  apply not_elem_of_app in Hh as [_ Hh]. apply not_elem_of_app. split; [done|]. apply not_elem_of_app. split; [|done].
  destruct b; [|apply not_elem_of_nil]. vm_compute. set_solver.
Qed.
Lemma added_clean name d x : doc_clean name d → sec_ok x → CR ∉ render_section x → doc_clean name (add_section x d).
Proof.
  intros [[Hn Hr Hno Hs] Hcr] Hx Hcx. split.
  - split; try done. cbn. apply Forall_app. split; [done|]. by apply Forall_singleton.
  - apply cr_sections in Hcr as [Hh Hss]. apply cr_sections. split; [done|]. cbn. apply Forall_app.
    split; [done|]. by apply Forall_singleton.
Qed.

(** ** The representation *)
Record shows (m : gmap text Doc) (s : Store) : Prop := {
  shows_clean : map_Forall doc_clean m;
  shows_files : ∀ name, files s !! name = render_doc name <$> m !! name;
  shows_rows : ∀ name, rows_of name s = row_of name <$> from_option (entries_of name) [] (m !! name)
}.
Lemma shows_empty : shows ∅ empty_store.
Proof. split; [apply map_Forall_empty|intros name; cbn; rewrite !lookup_empty; reflexivity|intros name; rewrite lookup_empty; reflexivity]. Qed.
Lemma read_shown m s name : shows m s → read_path name s = render_doc name <$> m !! name.
Proof.
  intros [Hc Hf _]. unfold read_path. rewrite Hf. destruct (m !! name) as [d|] eqn:Hd; [|reflexivity].
  cbn [fmap option_fmap option_map]. f_equal. apply universal_newlines_id, (Hc _ _ Hd).
Qed.
(** The rows of a file are the entries parsed from it. *)
Definition in_step (s : Store) : Prop :=
  ∀ name, rows_of name s = row_of name <$> from_option (parse_entries_from_markdown name) [] (read_path name s).
Lemma shown_in_step m s : shows m s → in_step s.
Proof.
  intros H name. rewrite (read_shown m) by done. rewrite (shows_rows m s H). destruct (m !! name) as [d|] eqn:Hd; [|reflexivity].
  cbn [fmap option_fmap option_map from_option]. by rewrite parse_doc by apply (shows_clean _ _ H _ _ Hd).
Qed.

Lemma rows_files f name s : rows_of name (s <| files ::= f |>) = rows_of name s.
Proof. done. Qed.
Lemma rows_registry name n f s : rows_of name (set_file_row n f s) = rows_of name s.
Proof. done. Qed.
Lemma files_registry n f s : files (set_file_row n f s) = files s.
Proof. done. Qed.
Lemma rows_only name name' (g : MemoryEntry → Row) es :
  (∀ e, r_file (g e) = name) → filter (λ r, r_file r = name') (g <$> es) = if decide (name = name') then g <$> es else [].
Proof.
  intros Hg. case_decide as Hn.
  - apply filter_all. by intros r (e & -> & _)%list_elem_of_fmap; rewrite Hg.
  - apply filter_none. intros r (e & -> & _)%list_elem_of_fmap. by rewrite Hg.
Qed.
Lemma rows_reindexed name raw now s name' :
  rows_of name' (_reindex_file name raw now s) =
  if decide (name = name') then row_of name <$> parse_entries_from_markdown name raw else rows_of name' s.
Proof.
  unfold _reindex_file. rewrite rows_registry. unfold rows_of. cbn [modify fts]. rewrite filter_app, (rows_only name) by done.
  rewrite list_filter_filter. case_decide as Hn.
  - subst name'. rewrite filter_none; [done|]. intros r _ [??]. done.
  - rewrite app_nil_r. apply list_filter_iff. intros r. naive_solver.
Qed.
Lemma shows_write m s name d now :
  shows m s → doc_clean name d → shows (<[name := d]> m) (write_and_index name (render_doc name d) now s).
Proof.
  intros [Hc Hf Hr] Hd. split.
  - by apply map_Forall_insert_2.
  - intros name'. unfold write_and_index, _reindex_file. rewrite files_registry. cbn.
    destruct (decide (name = name')) as [->|Hn]; [by rewrite !lookup_insert_eq|]. by rewrite !lookup_insert_ne by done.
  - intros name'. unfold write_and_index. rewrite rows_reindexed, rows_files, parse_doc by apply Hd.
    case_decide as Hn; [subst name'; by rewrite lookup_insert_eq|]. by rewrite lookup_insert_ne.
Qed.
(** A document given new text without a change of its entries. *)
Lemma shows_text m s name d :
  shows m s → doc_clean name d → from_option (entries_of name) [] (m !! name) = entries_of name d →
  shows (<[name := d]> m) (s <| files ::= insert name (render_doc name d) |>).
Proof.
  intros [Hc Hf Hr] Hd He. split.
  - by apply map_Forall_insert_2.
  - intros name'. cbn. destruct (decide (name = name')) as [->|Hn]; [by rewrite !lookup_insert_eq|].
    by rewrite !lookup_insert_ne by done.
  - intros name'. rewrite rows_files, Hr. destruct (decide (name = name')) as [->|Hn]; [by rewrite lookup_insert_eq, He|].
    by rewrite lookup_insert_ne.
Qed.
Lemma shows_registry m s n f : shows m s → shows m (set_file_row n f s).
Proof. by intros [Hc Hf Hr]. Qed.

(** ** Updating and deleting entries *)
Definition clean_text (c : text) : Prop := contains (t "<!--") c = false ∧ CR ∉ c.
Lemma cr_sanitize c : CR ∉ c → CR ∉ sanitize_entry_content c.
Proof.
  intros Hc. unfold sanitize_entry_content. apply cr_join, Forall_fmap, Forall_forall. intros l Hl. cbn.
  case_decide; [vm_compute; set_solver|]. destruct (line_infix _ _ Hl) as (a & b & ->). set_solver.
Qed.
Lemma sanitized_ok c : ¬ blank c → clean_text c → content_ok (sanitize_entry_content c) ∧ CR ∉ sanitize_entry_content c.
Proof.
  intros Hb [Hc Hcr]. split; [|by apply cr_sanitize].
  split_and!; [by apply sanitize_text|by apply sanitize_no_comment|apply sanitize_no_rule].
Qed.
Lemma edit_sections_doc name e edit f done_ now d s :
  doc_ok name d → (∀ x, sec_ok x → edit (render_section x) = render_section <$> f x) →
  edit_sections name e edit done_ now (render_doc name d) s =
  match length (filter (epoch_is e) (d_sections d)) with
  | 0 => (NoEntry name e, s)
  | 1 => (done_, write_and_index name (render_doc name (edit_doc e f d)) now s)
  | n => (EpochCollision n name e, s)
  end.
Proof. intros Hd Hf. unfold edit_sections. by rewrite count_holding, (edited_text _ _ f) by done. Qed.
Definition one_section (e : N) (d : Doc) : Prop := length (filter (epoch_is e) (d_sections d)) = 1.

(** An edit either fails and changes nothing, or edits the one section. *)
Lemma edit_shown m s name d e edit f done_ now r s' :
  shows m s → m !! name = Some d → (∀ x, sec_ok x → edit (render_section x) = render_section <$> f x) →
  doc_clean name (edit_doc e f d) →
  edit_sections name e edit done_ now (render_doc name d) s = (r, s') →
  (is_error r = true ∧ s' = s ∧ ¬ one_section e d) ∨
  (r = done_ ∧ one_section e d ∧ shows (<[name := edit_doc e f d]> m) s').
Proof.
  intros Hs Hd Hf Hclean. rewrite (edit_sections_doc _ _ _ f) by (done || by apply (shows_clean _ _ Hs)). unfold one_section.
  destruct (length _) as [|[|n]]; intros [= <- <-].
  - left. done.
  - right. split_and!; [done|done|by apply shows_write].
  - left. done.
Qed.
Lemma validated_name name n : _validate_name name = Some n → _NAME_RE n = true.
Proof. unfold _validate_name. destruct (_NAME_RE _) eqn:E; [|done]. by intros [= <-]. Qed.

Lemma update_shown m s name n e c now r s' :
  shows m s → clean_text c → _validate_name name = Some n → update_entry name e c now s = Some (r, s') →
  (is_error r = true ∧ s' = s) ∨
  (∃ d, m !! n = Some d ∧ one_section e d ∧ r = Updated n e ∧ ¬ blank c ∧
     shows (<[n := edit_doc e (λ x, [update_sec (sanitize_entry_content c) now x]) d]> m) s').
Proof.
  intros Hs Hc Hn. unfold update_entry. rewrite Hn. cbn [mbind option_bind]. rewrite (read_shown m) by done.
  destruct (m !! n) as [d|] eqn:Hd; cbn [fmap option_fmap option_map]; [|intros [= <- <-]; by left].
  case_decide as Hb; [intros [= <- <-]; by left|]. rewrite strip_nil in Hb.
  destruct (sanitized_ok c Hb Hc) as [Hok Hcr]. injection 1. clear H. intros H.
  eapply (edit_shown m s n d e _ (λ x, [update_sec (sanitize_entry_content c) now x])) in H; [| done|done| |].
  - destruct H as [(? & ? & _)|(? & ? & ?)]; [by left|right]. by exists d.
  - intros x Hx. cbn. by rewrite rewritten_section.
  - apply edit_doc_clean; [by apply (shows_clean _ _ Hs)|]. intros x Hx Hcx. apply Forall_singleton.
    split; [by apply update_sec_ok|by apply cr_update].
Qed.
Lemma delete_shown m s name n e now r s' :
  shows m s → _validate_name name = Some n → delete_entry name e now s = Some (r, s') →
  (is_error r = true ∧ s' = s) ∨
  (∃ d, m !! n = Some d ∧ one_section e d ∧ r = Deleted n e ∧ shows (<[n := edit_doc e (λ _, []) d]> m) s').
Proof.
  intros Hs Hn. unfold delete_entry. rewrite Hn. cbn [mbind option_bind]. rewrite (read_shown m) by done.
  destruct (m !! n) as [d|] eqn:Hd; cbn [fmap option_fmap option_map]; [|intros [= <- <-]; by left].
  injection 1. clear H. intros H.
  eapply (edit_shown m s n d e _ (λ _, [])) in H; [|done|done|done|].
  - destruct H as [(? & ? & _)|(? & ? & ?)]; [by left|right]. by exists d.
  - apply edit_doc_clean; [by apply (shows_clean _ _ Hs)|]. intros x _ _. constructor.
Qed.

(** ** Whole files *)
Lemma rows_filtered name name' s :
  filter (λ r, r_file r = name') (filter (λ r, r_file r ≠ name) (fts s)) =
  if decide (name = name') then [] else rows_of name' s.
Proof.
  rewrite list_filter_filter. case_decide as Hn.
  - subst name'. apply filter_none. by intros r _ [??].
  - apply list_filter_iff. intros r. naive_solver.
Qed.
Lemma archive_shown m s name n s' :
  shows m s → _validate_name name = Some n → archive_file name s = Some s' →
  shows (alter (λ d, d <| d_archived := true |>) n m) s'.
Proof.
  intros Hs Hn. unfold archive_file. rewrite Hn. cbn [mbind option_bind]. rewrite (read_shown m) by done.
  destruct (m !! n) as [d|] eqn:Hd; cbn [fmap option_fmap option_map]; intros [= <-].
  - set (d' := d <| d_archived := true |>).
    assert (alter (λ d, d <| d_archived := true |>) n m = <[n := d']> m) as ->.
    { apply map_eq. intros k. destruct (decide (n = k)) as [<-|Hk]; [by rewrite lookup_alter_eq, lookup_insert_eq, Hd|].
      by rewrite lookup_alter_ne, lookup_insert_ne. }
    pose proof (shows_clean _ _ Hs _ _ Hd) as Hclean. rewrite archived_doc by apply Hclean.
    assert (doc_clean n d') as Hclean' by by apply revived_clean.
    assert (∀ k, files (if d_archived d then s else s <| files ::= insert n
              (replace_first (comment (t "file") n) (comment (t "file") n ++ NL :: _ARCHIVED_MARK) (render_doc n d)) |>) !! k =
            render_doc k <$> <[n := d']> m !! k) as Hfiles.
    { intros k. destruct (d_archived d) eqn:Ha.
      - rewrite (shows_files _ _ Hs). assert (d' = d) as -> by (destruct d; cbn in *; by subst). by rewrite insert_id.
      - cbn [modify files]. rewrite archive_doc by done. destruct (decide (n = k)) as [<-|Hk]; [by rewrite !lookup_insert_eq|].
        rewrite !lookup_insert_ne by done. apply Hs. }
    apply shows_registry. split; [by apply map_Forall_insert_2; [|apply Hs]|exact Hfiles|].
    intros k. unfold rows_of. cbn [modify fts]. destruct (d_archived d); cbn [modify fts]; rewrite rows_filtered;
      (case_decide as Hk; [subst k; by rewrite lookup_insert_eq|rewrite lookup_insert_ne by done; apply Hs]).
  - assert (alter (λ d, d <| d_archived := true |>) n m = m) as ->; [|done].
    apply map_eq. intros k. destruct (decide (n = k)) as [<-|Hk]; [by rewrite lookup_alter_eq, Hd|]. by rewrite lookup_alter_ne.
Qed.
Lemma delete_file_shown m s name n b s' :
  shows m s → _validate_name name = Some n → delete_file name s = Some (b, s') → shows (delete n m) s'.
Proof.
  intros Hs Hn. unfold delete_file. rewrite Hn. cbn [mbind option_bind]. intros [= _ <-]. split.
  - by apply map_Forall_delete, Hs.
  - intros k. cbn [files]. destruct (decide (n = k)) as [<-|Hk]; [by rewrite !lookup_delete_eq|].
    rewrite !lookup_delete_ne by done. apply Hs.
  - intros k. unfold rows_of. cbn [fts]. rewrite rows_filtered. case_decide as Hk; [subst k; by rewrite lookup_delete_eq|].
    rewrite lookup_delete_ne by done. apply Hs.
Qed.

(** ** Adding entries *)
Lemma words_from_chars (P : N → Prop) cur s :
  Forall P s → Forall (λ c, P c ∧ is_space c = false) cur →
  Forall (λ w, w ≠ [] ∧ Forall (λ c, P c ∧ is_space c = false) w) (split_words_from cur s).
Proof.
  intros Hs. revert cur. induction Hs as [|c s Hc _ IH]; intros cur Hcur; cbn.
  - destruct cur; [constructor|]. by apply Forall_singleton.
  - destruct (is_space c) eqn:Hsp.
    + destruct cur; [by apply IH|]. apply Forall_cons. split; [done|]. by apply IH.
    + apply IH, Forall_app. split; [done|]. by apply Forall_singleton.
Qed.
Lemma words_chars (P : N → Prop) s :
  Forall P s → Forall (λ w, w ≠ [] ∧ Forall (λ c, P c ∧ is_space c = false) w) (split_words s).
Proof. intros Hs. by apply words_from_chars. Qed.
Definition name_text (s : text) : Prop := Forall (λ c, is_name_char c = true) s.
Definition spaced_name (s : text) : Prop := Forall (λ c, is_name_char c = true ∨ c = SP) s.
Lemma name_chars n : _NAME_RE n = true → NL ∉ n → name_text n.
Proof.
  unfold _NAME_RE, name_text. destruct n as [|c r]; [done|]. rewrite not_elem_of_cons. intros [Hc Hr]%andb_true_iff [_ Hnl].
  apply Forall_cons. split.
  - unfold is_ascii_alnum, is_digit in Hc. unfold is_name_char, is_digit. lia.
  - apply orb_true_iff in Hr as [Hr|Hr].
    + rewrite forallb_forall in Hr. apply Forall_forall. intros x Hx. by apply Hr, list_elem_of_In.
    + destruct (reverse r) as [|l r'] eqn:E; [done|]. apply andb_true_iff in Hr as [->%N.eqb_eq _].
      exfalso. apply Hnl. apply elem_of_reverse. rewrite E. set_solver.
Qed.
Lemma name_absent c s : is_name_char c = false → c ≠ SP → spaced_name s → c ∉ s.
Proof. intros Hc Hs H Hin. unfold spaced_name in H. rewrite Forall_forall in H. destruct (H c Hin); congruence. Qed.
(** A name that validation leaves alone however often it is applied. *)
Definition stable_name (n : text) : Prop := _validate_name n = Some n ∧ NL ∉ n.
Lemma stable_text n : stable_name n → name_text n.
Proof. intros [Hn%validated_name Hnl]. by apply name_chars. Qed.
Lemma title_name b s : spaced_name s → spaced_name (title_from b s).
Proof.
  intros H. revert b. induction H as [|c s Hc _ IH]; intros b; [constructor|]. cbn [title_from]. apply Forall_cons.
  split; [|apply IH]. destruct Hc as [Hc|Hc].
  - left. unfold is_name_char, is_digit in *. destruct b; case_match; lia.
  - right. subst c. by destruct b.
Qed.
Lemma lower_name s : name_text s → name_text (lower_text s).
Proof.
  intros H. apply Forall_fmap. eapply Forall_impl; [exact H|]. intros c. cbn. unfold is_name_char, lower_code, is_digit.
  intros Hc. repeat case_match; lia.
Qed.
Lemma spaced_words (f : N → N) n :
  name_text n → (∀ c, f c = c ∨ f c = SP) → Forall (λ w, w ≠ [] ∧ name_text w) (split_words (f <$> n)).
Proof.
  intros Hn Hf. assert (spaced_name (f <$> n)) as Hs.
  { apply Forall_fmap. eapply Forall_impl; [exact Hn|]. intros c Hc. cbn. destruct (Hf c) as [->| ->]; [by left|by right]. }
  eapply Forall_impl; [by apply (words_chars _ _ Hs)|]. intros w [Hw Hall]. split; [done|].
  eapply Forall_impl; [exact Hall|]. cbn. intros c [[Hc|Hc] Hsp]; [done|]. by subst c.
Qed.
Lemma name_spaced s : name_text s → spaced_name s.
Proof. intros H. eapply Forall_impl; [exact H|]. by left. Qed.
Lemma line_of_name s : spaced_name s → line_ok s.
Proof. intros H. split; by apply name_absent. Qed.
Lemma join_spaced ls : Forall name_text ls → spaced_name (join_with [SP] ls).
Proof.
  induction 1 as [|l ls Hl Hls IH]; [constructor|]. destruct ls; [by apply name_spaced|].
  rewrite join_with_cons by done. apply Forall_app. split; [by apply name_spaced|]. apply Forall_cons. by split; [right|].
Qed.

Definition new_doc (name : text) (now : N) : Doc :=
  let parts := split_words ((λ c, if bool_decide (c ∈ [46; 45; 95]%N) then SP else c) <$> name) in
  header_doc (title (join_with [SP] parts)) (lower_text <$> filter (λ p, 2 < length p) parts) now [].
Lemma new_doc_clean n now : name_text n → doc_clean n (new_doc n now).
Proof.
  intros Hn. unfold new_doc. set (parts := split_words _).
  assert (Forall (λ w, w ≠ [] ∧ name_text w) parts) as Hparts.
  { apply spaced_words; [done|]. intros c. case_bool_decide; [by right|by left]. }
  assert (Forall name_text parts) as Hp by (eapply Forall_impl; [exact Hparts|]; by intros w []).
  assert (Forall name_text (lower_text <$> filter (λ p, 2 < length p) parts)) as Hk.
  { apply Forall_fmap, Forall_forall. intros w [_ Hw]%list_elem_of_filter. cbn. apply lower_name.
    by apply (proj1 (Forall_forall _ _) Hp). }
  assert (spaced_name (title (join_with [SP] parts))) as Hd by by apply title_name, join_spaced.
  split.
  - apply header_doc_ok; [by apply line_of_name, name_spaced|by apply line_of_name| |constructor].
    eapply Forall_impl; [exact Hk|]. intros w Hw. by apply line_of_name, name_spaced.
  - apply cr_sections. split; [|constructor]. unfold header_of. cbn [d_archived d_rest header_doc app].
    apply not_elem_of_app. split; [apply cr_comment; split; [vm_compute; set_solver|by apply name_absent, name_spaced]|].
    apply not_elem_of_cons. split; [done|]. apply cr_join. rewrite !Forall_cons, Forall_nil.
    split_and!; [| | |apply not_elem_of_nil|done]; apply cr_comment; (split; [vm_compute; set_solver|]).
    + by apply name_absent.
    + apply join_absent; [vm_compute; set_solver|]. eapply Forall_impl; [exact Hk|]. intros w Hw.
      by apply name_absent, name_spaced.
    + by apply decimal_absent.
Qed.
Lemma ensure_shown m s n now :
  shows m s → stable_name n →
  ∃ d, shows (<[n := d]> m) (_ensure_file n now s) ∧ d = default (new_doc n now) (m !! n).
Proof.
  intros Hs Hstable. pose proof (stable_text n Hstable) as Hn. destruct Hstable as [Hv _].
  unfold _ensure_file. rewrite Hv. cbn [default from_option id]. rewrite (shows_files _ _ Hs). destruct (m !! n) as [d|] eqn:Hd.
  - exists d. cbn [fmap option_fmap option_map]. by rewrite insert_id.
  - cbn [fmap option_fmap option_map default from_option]. eexists. split; [|reflexivity].
    pose proof (shows_text m s n (new_doc n now) Hs (new_doc_clean n now Hn)) as H. rewrite Hd in H.
    specialize (H eq_refl). unfold new_doc at 2 in H. rewrite <-format_header in H. cbn [mbind list_bind] in H.
    rewrite app_nil_r in H. destruct H as [Hc Hf Hr]. split; [exact Hc|exact Hf|exact Hr].
Qed.

(** ** Writing an entry *)
Lemma shows_append m s n d x y :
  shows m s → m !! n = Some d → d_archived d = false → sec_ok x → CR ∉ render_section x → entry_of n x = Some y →
  shows (<[n := add_section x d]> m)
    (s <| files ::= insert n (render_doc n d ++ SEP ++ render_section x) |> <| fts ::= λ rs, rs ++ [row_of n y] |>).
Proof.
  intros Hs Hd Ha Hx Hcr Hy. pose proof (shows_clean _ _ Hs _ _ Hd) as Hclean.
  assert (doc_clean n (add_section x d)) as Hclean' by by apply added_clean.
  split.
  - by apply map_Forall_insert_2; [|apply Hs].
  - intros k. cbn [modify files]. rewrite <-render_add. destruct (decide (n = k)) as [<-|Hk]; [by rewrite !lookup_insert_eq|].
    rewrite !lookup_insert_ne by done. apply Hs.
  - intros k. unfold rows_of. cbn [modify fts]. rewrite filter_app. fold (rows_of k s). rewrite (shows_rows _ _ Hs).
    change [row_of n y] with (row_of n <$> [y]). rewrite (rows_only n) by done. case_decide as Hk.
    + subst k. rewrite lookup_insert_eq, Hd. cbn [from_option]. unfold entries_of, add_section. cbn [modify d_archived d_sections].
      rewrite Ha, omap_app, fmap_app. cbn [omap list_omap]. by rewrite Hy.
    + rewrite app_nil_r. by rewrite lookup_insert_ne.
Qed.
Record write_ok (content : text) (w : Write) : Prop := {
  wo_args : args_ok content (w_type w) (w_tags w) (w_weight w) (w_source w) [] (w_origin w);
  wo_weight : w_weight w ≠ [];
  wo_trim : strip content = content;
  wo_rule : Forall (λ l, l ≠ t "---") (split_lines content);
  wo_cr : CR ∉ content ∧ CR ∉ w_tags w;
  wo_today : tag_ok (w_today w) ∧ CR ∉ w_today w
}.
Lemma name_tag x : x ≠ [] → Forall (λ c, is_name_char c = true ∧ is_space c = false) x → tag_ok x ∧ CR ∉ x.
Proof.
  intros Hne Hx. assert (name_text x) as Hn by (eapply Forall_impl; [exact Hx|]; by intros c []).
  assert (∀ c, is_name_char c = false → c ≠ SP → c ∉ x) as Habs by (intros c Hc Hs; by apply name_absent, name_spaced).
  split; [|by apply Habs]. split_and!; try (by apply Habs); [done| |by apply at_absent, Habs].
  apply snug_strip_id. rewrite Forall_forall in Hx. split_and!.
  - done.
  - intros c u ->. apply Hx. set_solver.
  - intros c u ->. apply Hx. set_solver.
Qed.
Lemma lower_words w : Forall (λ c, is_name_char c = true ∧ is_space c = false) w →
  Forall (λ c, is_name_char c = true ∧ is_space c = false) (lower_text w).
Proof.
  intros H. apply Forall_fmap. eapply Forall_impl; [exact H|]. intros c. cbn.
  unfold is_name_char, lower_code, is_digit, is_space. intros [Hc Hs]. split; case_match; lia.
Qed.
Section adding.
Context (search : list Row → text → list Row) (bm25 : list Row → text → option text → list (text * Q))
  (set_order : list text → list text).
(** A set is gone through in some order. *)
Context (Hset : ∀ l, set_order l ≡ₚ l).

Lemma inferred_tags today n :
  name_text n → tag_ok today ∧ CR ∉ today → Forall (λ x, tag_ok x ∧ CR ∉ x) (_infer_tags set_order today n).
Proof.
  intros Hn Htoday. unfold _infer_tags. apply Forall_take. apply Forall_forall. intros x Hx. rewrite Hset in Hx.
  rewrite elem_of_elements, elem_of_list_to_set, elem_of_cons in Hx. destruct Hx as [->|Hx]; [done|].
  apply list_elem_of_fmap in Hx as (w & -> & [_ Hw]%list_elem_of_filter).
  assert (spaced_name ((λ c, if (c =? 46)%N then SP else c) <$> n)) as Hs.
  { apply Forall_fmap. eapply Forall_impl; [exact Hn|]. intros c Hc. cbn -[N.eqb]. case_match; [by right|by left]. }
  pose proof (words_chars _ _ Hs) as Hwords. rewrite Forall_forall in Hwords. destruct (Hwords w Hw) as [Hne Hall].
  apply name_tag; [by destruct w|]. apply lower_words. eapply Forall_impl; [exact Hall|]. cbn.
  intros c [[Hc|Hc] Hsp]; [done|by subst c].
Qed.
(** The tags an entry is written with. *)
Lemma written_tags c w n :
  write_ok c w → name_text n → ∃ ls, Forall (λ x, tag_ok x ∧ CR ∉ x) ls ∧
  (if decide (w_tags w = []) then join_with (t ",") (_infer_tags set_order (w_today w) n) else w_tags w) = join_with [44%N] ls.
Proof.
  intros Hw Hn. case_decide as Htags.
  - eexists. split; [|reflexivity]. by apply inferred_tags, Hw.
  - destruct (args_tags _ _ _ _ _ _ _ (wo_args _ _ Hw)) as (ls & Hls & Heq). exists ls. split; [|done].
    destruct (wo_cr _ _ Hw) as [_ Hcr]. rewrite Heq in Hcr. clear -Hls Hcr. induction Hls as [|x ls Hx _ IH]; [done|].
    destruct ls as [|x' ls].
    + apply Forall_singleton. done.
    + rewrite join_with_cons in Hcr by done. rewrite !elem_of_app in Hcr. apply Forall_cons. split; [split; [done|tauto]|].
      apply IH. tauto.
Qed.
End adding.

Lemma words_cr v : words v → CR ∉ v.
Proof. by apply word_absent. Qed.
Lemma made_cr c ty ls wt src e merged fused up orig now :
  args_ok c ty (join_with [44%N] ls) wt src merged orig → CR ∉ c → Forall (λ x, CR ∉ x) ls → CR ∉ merged →
  CR ∉ render_section (made_section c ty (join_with [44%N] ls) wt src e merged fused up orig now).
Proof.
  intros [_ Hty _ Hwt Hsrc _ Horig] Hc Hls Hm. apply cr_section. cbn [metas body made_section].
  assert (∀ v, optional_words v → CR ∉ v) as Hopt by (intros v [->|H]; [apply not_elem_of_nil|by apply words_cr]).
  assert (∀ k v, CR ∉ t k → CR ∉ v → Forall (λ m, CR ∉ t m.1 ∧ CR ∉ m.2) (opt_meta k v)) as Hmeta.
  { intros k v Hk Hv. unfold opt_meta. case_decide; [constructor|]. by apply Forall_singleton. }
  assert (∀ n, CR ∉ decimal n) as Hdec by (intros n; by apply decimal_absent).
  assert (∀ k : string, forallb (λ x, negb (x =? CR)%N) (t k) = true → CR ∉ t k) as Hkey.
  { intros k Hk Hin. rewrite forallb_forall in Hk. by apply list_elem_of_In, Hk in Hin. }
  split; [|by apply cr_sanitize]. rewrite !Forall_app. split_and!.
  - rewrite Forall_cons, Forall_singleton. cbn [fst snd]. split_and!; first [apply Hdec|by apply words_cr|by apply Hkey].
  - apply Hmeta; [by apply Hkey|]. apply join_absent; [vm_compute; set_solver|done].
  - case_match; [constructor|]. apply Forall_singleton. split; [by apply Hkey|by apply Hopt].
  - apply Hmeta; [by apply Hkey|by apply Hopt].
  - apply Hmeta; [by apply Hkey|by apply Hopt].
  - case_match; [constructor|]. apply Forall_singleton. split; [by apply Hkey|apply Hdec].
  - case_decide; [constructor|]. rewrite Forall_cons, Forall_singleton. cbn [fst snd]. split_and!; first [exact Hm|apply Hdec|by apply Hkey].
  - case_decide; [constructor|]. rewrite Forall_cons, Forall_singleton. cbn [fst snd].
    split_and!; first [apply Hdec|by apply Hkey|apply join_absent; [vm_compute; set_solver|]; apply Forall_fmap, Forall_forall; intros n _; apply Hdec].
Qed.

(** ** Epochs *)
Lemma bump_taken fuel taken e :
  0 < fuel → bump fuel taken e ∈ taken → ∀ i, i < fuel → (e + N.of_nat i)%N ∈ taken.
Proof.
  revert e. induction fuel as [|fuel IH]; intros e Hf; [lia|]. cbn [bump]. case_decide as He; [|done].
  intros Hb [|i] Hi; [by rewrite N.add_0_r|]. destruct fuel as [|fuel]; [lia|].
  replace (e + N.of_nat (S i))%N with (e + 1 + N.of_nat i)%N by lia. apply IH; [lia|done|lia].
Qed.
Lemma free_epoch_fresh taken e : free_epoch taken e ∉ taken.
Proof.
  intros Hin. unfold free_epoch in Hin. pose proof (bump_taken _ _ _ (Nat.lt_0_succ _) Hin) as H.
  set (l := (λ i, (e + N.of_nat i)%N) <$> List.seq 0 (S (length taken))).
  assert (l ⊆ taken) as Hsub.
  { intros x (i & -> & Hi%elem_of_seq)%list_elem_of_fmap. apply H. lia. }
  assert (NoDup l) as Hnd by (apply NoDup_fmap_2; [intros i j Hij; cbn in Hij; lia|apply NoDup_seq]).
  pose proof (submseteq_length _ _ (NoDup_submseteq _ _ Hnd Hsub)) as Hlen. unfold l in Hlen.
  rewrite length_fmap, length_seq in Hlen. lia.
Qed.
Lemma free_epoch_above taken e : (e ≤ free_epoch taken e)%N.
Proof.
  unfold free_epoch. generalize (S (length taken)) as fuel. intros fuel. revert e.
  induction fuel as [|fuel IH]; intros e; cbn [bump]; [lia|]. case_decide; [|lia]. specialize (IH (e + 1)%N). lia.
Qed.
Lemma free_epoch_id taken e : e ∉ taken → free_epoch taken e = e.
Proof. intros H. unfold free_epoch. cbn [bump]. by rewrite decide_False. Qed.

Lemma rows_ensured n now s k : rows_of k (_ensure_file n now s) = rows_of k s.
Proof. unfold _ensure_file. by destruct (files s !! _). Qed.
Lemma comma : t "," = [44%N].
Proof. reflexivity. Qed.

Section append.
Context (bm25 : list Row → text → option text → list (text * Q)) (set_order : list text → list text).
Context (Hset : ∀ l, set_order l ≡ₚ l).
(** What an append does to the documents: the file is made or revived, and
    gets one more section, of an epoch that the index does not have. *)
Lemma append_shown m s c w r s' :
  shows m s → write_ok c w → append_entry bm25 set_order c w s = Some (r, s') →
  (∀ n, _validate_name (_resolve_file_name (bm25 (fts s)) set_order (mfiles s) (w_file w) c (w_space w)) = Some n →
     stable_name n) →
  ∃ n e x ls, r = Saved n e ∧ e ∉ indexed_epochs n s ∧ sec_ok x ∧
    entry_of n x = Some (mkEntry n c e (w_type w) ls (w_weight w) (w_source w) 0 (w_origin w)) ∧
    shows (<[n := add_section x ((default (new_doc n (w_now w)) (m !! n)) <| d_archived := false |>)]> m) s'.
Proof.
  intros Hs Hw. unfold append_entry. set (resolved := _resolve_file_name _ _ _ _ _ _).
  destruct (_validate_name resolved) as [n|] eqn:Hn; [|done]. intros H Hstable. specialize (Hstable _ eq_refl).
  pose proof (stable_text _ Hstable) as Hname. destruct (ensure_shown m s n (w_now w) Hs Hstable) as (d & Hs1 & Hd).
  revert H.
  set (s1 := _ensure_file n (w_now w) s) in *. rewrite (read_shown _ _ _ Hs1), (shows_files _ _ Hs1), lookup_insert_eq.
  cbn [fmap option_fmap option_map default from_option id]. intros [= <- <-].
  pose proof (shows_clean _ _ Hs1 n d (lookup_insert_eq _ _ _)) as Hclean. rewrite archived_doc by apply Hclean.
  destruct (written_tags set_order Hset c w n Hw Hname) as (ls & Hls & ->).
  set (e := free_epoch _ _).
  set (x := made_section c (w_type w) (join_with [44%N] ls) (w_weight w) (w_source w) e [] [] 0 (w_origin w) (w_now w)).
  destruct Hw as [Hargs Hwt Htrim Hrule [Hcr _] _].
  assert (Forall tag_ok ls) as Hls1 by (eapply Forall_impl; [exact Hls|]; by intros ? []).
  assert (args_ok c (w_type w) (join_with [44%N] ls) (w_weight w) (w_source w) [] (w_origin w)) as Hargs'.
  { destruct Hargs. split; try done. by exists ls. }
  assert (sec_ok x) as Hx by by apply made_section_ok.
  assert (CR ∉ render_section x) as Hcrx.
  { apply made_cr; [done|done| |apply not_elem_of_nil]. eapply Forall_impl; [exact Hls|]. by intros ? []. }
  assert (entry_of n x = Some (mkEntry n c e (w_type w) ls (w_weight w) (w_source w) 0 (w_origin w))) as Hy.
  { unfold x. rewrite made_entry by done. rewrite sanitize_id, Htrim by done. by rewrite decide_False. }
  exists n, e, x, ls. split_and!; [done| |done|done|].
  - unfold e, indexed_epochs. unfold s1. rewrite rows_ensured. apply free_epoch_fresh.
  - rewrite <-Hd. rewrite !format_made. fold x. destruct (d_archived d) eqn:Ha.
    + rewrite revive_doc by (done || apply (ok_name _ _ (clean_ok _ _ Hclean))). rewrite <-render_add.
      pose proof (shows_write _ s1 n (add_section x (d <| d_archived := false |>)) (w_now w) Hs1) as H.
      rewrite insert_insert_eq in H. apply H. by apply added_clean; [apply revived_clean|..].
    + apply shows_registry. assert (d <| d_archived := false |> = d) as -> by (destruct d; cbn in *; by subst).
      pose proof (shows_append _ s1 n d x _ Hs1 (lookup_insert_eq _ _ _) Ha Hx Hcrx Hy) as H.
      rewrite insert_insert_eq in H. unfold row_of in H. cbn [content tags entry_type weight epoch source updated] in H.
      rewrite comma in H. exact H.
Qed.
End append.

(** ** Reopening an archived file *)
Definition kept (keep : gmap N text) (x : Sec) : bool :=
  match meta "epoch" (metas x) with
  | Some v => match keep !! int_of v with Some c => bool_decide (strip c = strip (body x)) | None => false end
  | None => false
  end.
Definition reopen_sec (keep : gmap N text) (x : Sec) : Sec :=
  if bool_decide (is_Some (meta "archived" (metas x))) || kept keep x then x
  else mkSec (match metas x with m :: ms => m :: ("archived", t "true") :: ms | [] => [] end) (body x).
Definition reopen_doc (keep : gmap N text) (d : Doc) : Doc :=
  mkDoc false (d_rest d) (reopen_sec keep <$> d_sections d).

Lemma epoch_at_start e r :
  search_at (run_field is_digit) (opening "epoch") (comment (t "epoch") (decimal e) ++ r) = Some (decimal e, r).
Proof.
  assert (comment (t "epoch") (decimal e) ++ r = opening "epoch" ++ SP :: decimal e ++ t " -->" ++ r) as ->.
  { unfold comment. rewrite <-!app_assoc. by rewrite t_app_key. }
  rewrite (opening_cons "epoch") at 2. cbn [app search_at]. rewrite app_comm_cons, <-opening_cons.
  rewrite starts_with_app, drop_app_length, run_field_value; [done| |apply decimal_nonempty|apply decimal_digits].
  intros c Hc. apply word_not_space. unfold is_word, is_alnum. by rewrite Hc, !orb_true_r.
Qed.
Lemma reopened_section keep x : sec_ok x → reopen_section keep (render_section x) = render_section (reopen_sec keep x).
Proof.
  intros Hx. destruct (ok_epoch _ Hx) as (e & ms & Hms). pose proof (ok_metas _ Hx) as Hm.
  pose proof (ok_no_comment _ Hx) as Hno.
  assert (contains (t "<!--") (body x ++ [NL]) = false) as Hno'.
  { rewrite contains_line by (vm_compute; set_solver). by rewrite Hno. }
  assert (_section_body (render_section x) = strip (body x)) as Hbody.
  { rewrite render_body, section_body by done. apply strip_blank_r. by apply Forall_singleton. }
  assert (contains _ARCHIVED_MARK (render_section x) = bool_decide (is_Some (meta "archived" (metas x)))) as Hmark.
  { rewrite render_body by done. by apply archived_section. }
  unfold reopen_section, reopen_sec. rewrite Hmark, Hbody.
  assert (render_section x = comment (t "epoch") (decimal e) ++ NL :: join_lines (comments ms ++ [body x; []])) as Hr.
  { unfold render_section. rewrite Hms, comments_cons. cbn [app]. by rewrite join_cons by by destruct (comments ms). }
  rewrite Hr, epoch_at_start. unfold kept. rewrite Hms, (meta_cons "epoch"), decide_True by done.
  destruct (bool_decide _ || _); [by rewrite Hr|].
  rewrite length_app, Nat.add_sub, take_app_length. unfold render_section. cbn [metas body].
  rewrite comments_cons. cbn [app]. rewrite join_cons by done. rewrite comments_cons. cbn [app]. by rewrite join_cons by by destruct (comments ms).
Qed.
Lemma reopen_sec_ok keep x : sec_ok x → sec_ok (reopen_sec keep x).
Proof.
  intros Hx. unfold reopen_sec. destruct (bool_decide _) eqn:Ha; [done|]. cbn [orb]. destruct (kept keep x); [done|].
  apply bool_decide_eq_false in Ha. destruct (ok_epoch _ Hx) as (e & ms & Hms).
  pose proof (ok_metas _ Hx) as Hm. pose proof (ok_keys _ Hx) as Hnd. rewrite Hms in Ha, Hm, Hnd.
  split; cbn [metas body]; rewrite ?Hms; try apply Hx.
  - by eexists e, _.
  - apply metas_ok_cons in Hm as [He Hm]. rewrite !metas_ok_cons. split_and!; [done| |done]. split; try done.
    + unfold KEYS. set_solver.
    + vm_compute. set_solver.
    + vm_compute. set_solver.
    + unfold DIGIT_KEYS. set_solver.
    + unfold WORD_KEYS. set_solver.
  - cbn in *. apply NoDup_cons in Hnd as [He Hnd]. apply NoDup_cons. split; [set_solver|]. apply NoDup_cons. split; [|done].
    intros Hin. apply Ha. rewrite meta_cons, decide_False by done. clear -Hin.
    induction ms as [|[k v] ms IH]; [by apply elem_of_nil in Hin|]. rewrite meta_cons. case_decide; [eauto|].
    apply IH. cbn in Hin. set_solver.
Qed.
Lemma cr_reopen keep x : CR ∉ render_section x → CR ∉ render_section (reopen_sec keep x).
Proof.
  unfold reopen_sec. destruct (_ || _); [done|]. rewrite !cr_section. cbn [metas body].
  intros [Hm Hb]. split; [|done]. destruct Hm as [|m ms H1 H2]; [done|].
  rewrite !Forall_cons. split_and!; [apply H1|apply H1|vm_compute; set_solver|vm_compute; set_solver|done].
Qed.
Lemma reopen_text keep name d :
  doc_ok name d → d_archived d = true → reopen_archived_file (render_doc name d) keep = render_doc name (reopen_doc keep d).
Proof.
  intros Hd Ha. unfold reopen_archived_file. rewrite archived_doc, Ha, split_doc by done. cbn [negb].
  assert (reopen_section keep <$> (render_section <$> d_sections d) = render_section <$> (reopen_sec keep <$> d_sections d)) as ->.
  { rewrite <-!list_fmap_compose. apply list_fmap_ext. intros i x Hx. cbn. apply reopened_section.
    eapply sections_ok; [done|]. by eapply list_elem_of_lookup_2. }
  rewrite join_sections. unfold render_doc, header_of, reopen_doc. cbn [d_archived d_rest d_sections].
  rewrite Ha, <-!app_assoc. rewrite replace_past by apply file_line_one, (ok_name _ _ Hd). by rewrite <-app_assoc.
Qed.
Lemma reopen_clean keep name d : doc_clean name d → doc_clean name (reopen_doc keep d).
Proof.
  intros [[Hn Hr Hno Hs] Hcr]. apply cr_sections in Hcr as [Hh Hss]. split.
  - split; try done. apply Forall_fmap. eapply Forall_impl; [exact Hs|]. intros x. apply reopen_sec_ok.
  - apply cr_sections. split.
    + pose proof (revived_clean name d false) as H. unfold header_of in *. cbn [d_archived d_rest reopen_doc] in *.
      rewrite !not_elem_of_app in *. split_and!; [tauto|apply not_elem_of_nil|tauto].
    + cbn. apply Forall_fmap. eapply Forall_impl; [exact Hss|]. intros x. apply cr_reopen.
Qed.
Lemma entry_of_reopened name keep x :
  sec_ok x → entry_of name (reopen_sec keep x) = if kept keep x then entry_of name x else None.
Proof.
  intros Hx. destruct (ok_epoch _ Hx) as (e & ms & Hms). unfold reopen_sec. case_bool_decide as Ha; cbn [orb].
  - destruct Ha as [v Hv]. assert (entry_of name x = None) as ->; [|by destruct (kept keep x)].
    unfold entry_of. by rewrite Hv.
  - destruct (kept keep x); [done|]. unfold entry_of. cbn [metas]. rewrite Hms, !meta_cons. by literal_keys.
Qed.
Definition kept_entry (keep : gmap N text) (y : MemoryEntry) : bool :=
  match keep !! epoch y with Some c => bool_decide (strip c = content y) | None => false end.
(** Nothing comes back to life but what is to be kept. *)
Lemma entries_reopened name keep d :
  doc_ok name d →
  entries_of name (reopen_doc keep d) =
  filter (λ y, kept_entry keep y = true) (omap (entry_of name) (d_sections d)).
Proof.
  intros [_ _ _ Hs]. unfold entries_of. cbn. induction Hs as [|x ss Hx _ IH]; [done|].
  rewrite fmap_cons. cbn [omap list_omap]. rewrite entry_of_reopened, IH by done. destruct (metas_epoch x Hx) as [e He].
  unfold kept. rewrite He, int_of_decimal.
  destruct (entry_of name x) as [y|] eqn:Hy; [|by repeat case_match].
  assert (epoch y = e ∧ content y = strip (body x)) as [Hye Hyc].
  { unfold entry_of in Hy. rewrite He in Hy. destruct (meta "archived" (metas x)); [done|]. injection Hy as <-.
    cbn. by rewrite int_of_decimal. }
  assert (kept_entry keep y = match keep !! e with Some c => bool_decide (strip c = strip (body x)) | None => false end)
    as Hk by (unfold kept_entry; by rewrite Hye, Hyc).
  rewrite filter_cons, Hk. by destruct (keep !! e) as [c|]; [case_bool_decide|].
Qed.

(** ** Moving entries *)
Definition writable (merged : text) (y : MemoryEntry) : Prop :=
  args_ok (content y) (entry_type y) (join_with [44%N] (tags y)) (weight y) (MemFormat.source y) merged (origin y) ∧
  Forall (λ x, tag_ok x ∧ CR ∉ x) (tags y) ∧ weight y ≠ [] ∧ CR ∉ content y ∧ strip (content y) = content y.
Lemma optional_of k ms d :
  Forall (λ m, meta_ok m.1 m.2) ms → k ∈ WORD_KEYS → optional_words d → optional_words (default d (meta k ms)).
Proof.
  intros Hms Hk Hd. destruct (meta k ms) as [v|] eqn:Hv; [|done]. right. by apply (ok_words _ _ (meta_meta_ok _ _ _ Hms Hv)).
Qed.
Lemma words_of_meta k ms d :
  Forall (λ m, meta_ok m.1 m.2) ms → k ∈ WORD_KEYS → words d → words (default d (meta k ms)).
Proof.
  intros Hms Hk Hd. destruct (meta k ms) as [v|] eqn:Hv; [|done]. by apply (ok_words _ _ (meta_meta_ok _ _ _ Hms Hv)).
Qed.
Lemma meta_in k ms v : meta k ms = Some v → (k, v) ∈ ms.
Proof.
  induction ms as [|[k' v'] ms IH]; [done|]. rewrite meta_cons, elem_of_cons. case_decide; [|by right; apply IH].
  subst k'. intros [= ->]. by left.
Qed.
Lemma entry_writable merged name x y :
  sec_ok x → CR ∉ render_section x → entry_of name x = Some y → plain merged → writable merged y.
Proof.
  intros Hx Hcr. destruct (metas_epoch x Hx) as [e He]. destruct Hx as [_ Hms _ Hno Htext _].
  apply cr_section in Hcr as [Hcm Hcb]. unfold entry_of. rewrite He. destruct (meta "archived" (metas x)); [done|].
  intros [= <-] Hmerged. unfold writable. cbn [content entry_type tags weight MemFormat.source origin].
  assert (words (t "note") ∧ words (t "normal")) as [Hnote Hnormal] by (split; (split; [done|by repeat constructor])).
  assert (∃ ls, from_option (split_on 44) [] (meta "tags" (metas x)) = ls ∧ Forall (λ x, tag_ok x ∧ CR ∉ x) ls) as (ls & -> & Hls).
  { destruct (meta "tags" (metas x)) as [v|] eqn:Hv; [|by exists []].
    destruct (ok_tags _ _ (meta_meta_ok _ _ _ Hms Hv) eq_refl) as (ls & Hne & Hls & ->). exists ls. cbn [from_option].
    assert (Forall (λ l, 44%N ∉ l) ls) as Hc by (eapply Forall_impl; [exact Hls|]; by intros l (? & ? & ? & _)).
    split; [by apply split_on_join|]. apply meta_in in Hv. rewrite Forall_forall in Hcm. apply Hcm in Hv as [_ Hv]. cbn in Hv.
    clear -Hls Hv. induction Hls as [|l ls Hl Hls IH]; [done|]. destruct ls as [|l' ls]; [by apply Forall_singleton|].
    rewrite join_with_cons, !not_elem_of_app in Hv by done. apply Forall_cons. split; [split; [done|tauto]|]. apply IH. tauto. }
  assert (Forall tag_ok ls) as Hls' by (eapply Forall_impl; [exact Hls|]; by intros l []).
  assert (words (default (t "normal") (meta "weight" (metas x)))) as Hw
    by (apply words_of_meta; [done|unfold WORD_KEYS; set_solver|done]).
  destruct (strip_within (body x)) as (u & v & Hbody).
  split_and!; [|done|apply Hw| |apply strip_involutive].
  - split; [|by apply words_of_meta; [|unfold WORD_KEYS; set_solver|]|by exists ls|by right| |done|].
    + split.
      * intros Hb. apply Htext. apply strip_nil. rewrite <-strip_involutive. by apply strip_nil.
      * rewrite Hbody in Hno. by apply contains_within in Hno.
    + apply optional_of; [done|unfold WORD_KEYS; set_solver|by left].
    + apply optional_of; [done|unfold WORD_KEYS; set_solver|by left].
  - rewrite Hbody, !not_elem_of_app in Hcb. tauto.
Qed.
Definition moved (target : text) (e : N) (y : MemoryEntry) : MemoryEntry := y <| file_name := target |> <| epoch := e |>.
Definition unruled_content (y : MemoryEntry) : Prop := Forall (λ l, l ≠ t "---") (split_lines (content y)).
Lemma entries_added name x d y :
  d_archived d = false → entry_of name x = Some y → entries_of name (add_section x d) = entries_of name d ++ [y].
Proof.
  intros Ha Hy. unfold entries_of, add_section. cbn [modify d_archived d_sections]. rewrite Ha, omap_app.
  cbn [omap list_omap]. by rewrite Hy.
Qed.
Section moving.
Context (src target : text) (now : N).
Context (Hsrc : plain src) (Hcr : CR ∉ src).

Lemma move_one_shown taken s m d y :
  shows m s → m !! target = Some d → d_archived d = false → writable src y → unruled_content y →
  ∃ e x s', move_one src target now (taken, s) y = (e :: taken, s') ∧ e ∉ taken ∧ e ∉ indexed_epochs target s ∧
    entry_of target x = Some (moved target e y) ∧ shows (<[target := add_section x d]> m) s'.
Proof.
  intros Hs Hd Ha (Hargs & Htags & Hw & Hc & Htrim) Hrule.
  set (e := free_epoch (taken ++ indexed_epochs target s) (epoch y)).
  set (x := made_section (content y) (entry_type y) (join_with [44%N] (tags y)) (weight y) (MemFormat.source y) e src []
    (updated y) (origin y) now).
  pose proof (free_epoch_fresh (taken ++ indexed_epochs target s) (epoch y)) as Hfresh. fold e in Hfresh.
  apply not_elem_of_app in Hfresh as [Hf1 Hf2].
  assert (entry_of target x = Some (moved target e y)) as Hy.
  { unfold x. rewrite made_entry by (eapply Forall_impl; [exact Htags|]; by intros ? []).
    rewrite sanitize_id, Htrim by done. rewrite decide_False by done. by destruct y. }
  assert (CR ∉ render_section x) as Hcrx.
  { apply made_cr; [done|done| |done]. eapply Forall_impl; [exact Htags|]. by intros ? []. }
  pose proof (shows_append m s target d x _ Hs Hd Ha ltac:(by apply made_section_ok) Hcrx Hy) as H.
  eexists e, x, _. split_and!; [reflexivity|done|done|done|].
  rewrite comma, format_made. fold e. fold x. rewrite (shows_files _ _ Hs), Hd.
  destruct H as [H1 H2 H3]. split; [exact H1|exact H2|exact H3].
Qed.
Lemma moves_shown es taken s m d :
  shows (<[target := d]> m) s → d_archived d = false → Forall (λ y, writable src y ∧ unruled_content y) es →
  ∃ d' ys, shows (<[target := d']> m) (foldl (move_one src target now) (taken, s) es).2 ∧ d_archived d' = false ∧
    entries_of target d' = entries_of target d ++ ys ∧
    Forall2 (λ y y', y' = moved target (epoch y') y) es ys ∧ NoDup (epoch <$> ys) ∧
    Forall (λ y, epoch y ∉ taken ∧ epoch y ∉ epoch <$> entries_of target d) ys.
Proof.
  intros Hs Ha Hes. revert taken s d Hs Ha. induction Hes as [|y es [Hy Hrule] _ IH]; intros taken s d Hs Ha.
  - exists d, []. split_and!; try done; [by rewrite app_nil_r|constructor].
  - destruct (move_one_shown taken s _ d y Hs (lookup_insert_eq _ _ _) Ha Hy Hrule) as (e & x & s' & Hm & Hf1 & Hf2 & Hx & Hs').
    rewrite insert_insert_eq in Hs'. cbn [foldl]. rewrite Hm.
    destruct (IH (e :: taken) s' (add_section x d) Hs' Ha) as (d' & ys & Hd' & Ha' & Hys & Hall & Hnd & Hfresh).
    exists d', (moved target e y :: ys). split_and!; try done.
    + rewrite Hys, (entries_added _ _ _ _ Ha Hx), <-app_assoc. done.
    + by constructor.
    + rewrite fmap_cons. apply NoDup_cons. split; [|done]. cbn. intros (y' & He & Hin)%list_elem_of_fmap.
      rewrite Forall_forall in Hfresh. destruct (Hfresh y' Hin) as [Hf _]. apply Hf. rewrite <-He. set_solver.
    + constructor.
      * split; [done|]. unfold indexed_epochs in Hf2. rewrite (shows_rows _ _ Hs), lookup_insert_eq in Hf2.
        cbn [from_option] in Hf2. by rewrite <-list_fmap_compose in Hf2.
      * eapply Forall_impl; [exact Hfresh|]. intros y' [H1 H2]. split; [set_solver|].
        rewrite (entries_added _ _ _ _ Ha Hx), fmap_app in H2. set_solver.
Qed.
End moving.

(** The target ready for what is moved: made if there is none, reopened if it
    is archived. *)
Definition receiving (target : text) (now : N) (m : gmap text Doc) : Doc :=
  let d := default (new_doc target now) (m !! target) in
  if d_archived d then reopen_doc ∅ d else d.
Lemma entries_sealed name d : doc_ok name d → entries_of name (reopen_doc ∅ d) = [].
Proof.
  intros Hd. rewrite entries_reopened by done. apply filter_none. intros y _. unfold kept_entry. by rewrite lookup_empty.
Qed.
Lemma reopen_shown m s n d :
  shows m s → m !! n = Some d → _validate_name n = Some n →
  ∃ s', match rewrite_file n (λ raw, if is_file_archived raw then Some (reopen_archived_file raw ∅) else None) s with
        | Some (_, s') => s'
        | None => s
        end = s' ∧ shows (<[n := if d_archived d then reopen_doc ∅ d else d]> m) s'.
Proof.
  intros Hs Hd Hn. eexists. split; [reflexivity|]. unfold rewrite_file. rewrite Hn. cbn [mbind option_bind].
  pose proof (shows_clean _ _ Hs _ _ Hd) as Hclean. pose proof (clean_ok _ _ Hclean) as Hok.
  rewrite (read_shown m) by done. rewrite Hd. cbn [fmap option_fmap option_map]. rewrite archived_doc by done.
  destruct (d_archived d) eqn:Ha; [|by rewrite insert_id].
  rewrite reopen_text by done. pose proof (reopen_clean ∅ n d Hclean) as Hclean'.
  assert (doc_ok n (reopen_doc ∅ d)) as Hok' by apply Hclean'.
  rewrite decide_False.
  - apply shows_text; [done|done|]. rewrite Hd. cbn [from_option]. rewrite entries_sealed by done.
    unfold entries_of. by rewrite Ha.
  - intros Heq. pose proof (archived_doc _ _ Hok') as H1. rewrite Heq, archived_doc, Ha in H1 by done. done.
Qed.
Lemma parsed_writable m s src y :
  shows m s → plain src →
  y ∈ from_option (parse_entries_from_markdown src) [] (read_path src s) → writable src y.
Proof.
  intros Hs Hsrc. rewrite (read_shown m) by done. destruct (m !! src) as [d|] eqn:Hd; [|by intros ?%elem_of_nil].
  cbn [fmap option_fmap option_map from_option]. destruct (shows_clean _ _ Hs _ _ Hd) as [Hok Hcr].
  rewrite parse_doc by done. apply cr_sections in Hcr as [_ Hss]. unfold entries_of. destruct (d_archived d); [by intros ?%elem_of_nil|].
  intros (x & Hx & Hy)%list_elem_of_omap. apply (entry_writable _ src x); [by eapply sections_ok| |done|done].
  by apply (proj1 (Forall_forall _ _) Hss).
Qed.
Lemma name_plain n : name_text n → plain n ∧ CR ∉ n.
Proof.
  intros H. assert (∀ c, is_name_char c = false → c ≠ SP → c ∉ n) as Habs by (intros c Hc Hs; by apply name_absent, name_spaced).
  unfold plain. split_and!; try (by apply Habs). by apply at_absent, Habs.
Qed.
Lemma move_shown m s src target epochs now k s' :
  shows m s → stable_name src → stable_name target → move_entries src target epochs now s = Some (k, s') →
  Forall unruled_content (from_option (parse_entries_from_markdown src) [] (read_path src s)) →
  let to_move := filter (λ e, epoch e ∈ epochs) (from_option (parse_entries_from_markdown src) [] (read_path src s)) in
  k = length to_move ∧
  (k = 0 ∧ s' = s ∨
   ∃ d ys, shows (<[target := d]> m) s' ∧ entries_of target d = entries_of target (receiving target now m) ++ ys ∧
     Forall2 (λ y y', y' = moved target (epoch y') y) to_move ys ∧ NoDup (epoch <$> ys) ∧
     Forall (λ y, epoch y ∉ epoch <$> entries_of target (receiving target now m)) ys).
Proof.
  intros Hs Hsrc Htarget Hmove Hun to_move. pose proof (stable_text _ Hsrc) as Hsn. destruct (name_plain _ Hsn) as [Hp Hcr].
  unfold move_entries in Hmove. destruct Hsrc as [Hsv _]. destruct Htarget as [Htv Htnl]. rewrite Hsv, Htv in Hmove.
  cbn [mbind option_bind] in Hmove. injection Hmove as Hmove. unfold read_file in Hmove. rewrite Hsv, Htv in Hmove.
  cbn [mbind option_bind] in Hmove.
  assert (Forall (λ y, writable src y ∧ unruled_content y) to_move) as Hw.
  { apply Forall_forall. intros y [_ Hy]%list_elem_of_filter. split; [by eapply parsed_writable|].
    by apply (proj1 (Forall_forall _ _) Hun). }
  destruct (read_path src s) as [[|c md]|] eqn:Hread; [injection Hmove as <- <-; split; [done|by left]| |injection Hmove as <- <-; split; [done|by left]].
  cbn [from_option] in to_move. fold to_move in Hmove. destruct to_move as [|y0 es] eqn:Hes; [injection Hmove as <- <-; split; [done|by left]|].
  destruct (ensure_shown m s target now Hs (conj Htv Htnl)) as (d & Hs1 & Hd).
  destruct (reopen_shown _ _ target d Hs1 (lookup_insert_eq _ _ _) Htv) as (s2 & Heq & Hs2).
  rewrite Heq, insert_insert_eq in *. set (taken := epochs_in _) in Hmove.
  assert (d_archived (if d_archived d then reopen_doc ∅ d else d) = false) as Ha by (destruct (d_archived d) eqn:E; done).
  destruct (moves_shown src target now Hp Hcr (y0 :: es) taken s2 m _ Hs2 Ha Hw) as (d' & ys & Hs3 & _ & Hys & Hall & Hnd & Hfresh).
  destruct (foldl _ _ _) as [taken' s3]. injection Hmove as <- <-. split; [done|right]. exists d', ys.
  unfold receiving. rewrite <-Hd. split_and!; [by repeat apply shows_registry|done|done|done|].
  eapply Forall_impl; [exact Hfresh|]. by intros y [].
Qed.
Lemma received_entries target now m s :
  shows m s → stable_name target →
  entries_of target (receiving target now m) = from_option (entries_of target) [] (m !! target).
Proof.
  intros Hs Htarget. unfold receiving. destruct (m !! target) as [d|] eqn:Hd; cbn [default from_option id]; [|done].
  destruct (d_archived d) eqn:Ha; [|done]. rewrite entries_sealed by apply (shows_clean _ _ Hs _ _ Hd).
  unfold entries_of. by rewrite Ha.
Qed.
