(* ===== verification/MemLife.v ===== *)
(** * The life of a memory store

    The operations of the store as one step function, the states it reaches
    from an empty directory, and what holds of them: the index follows the
    markdown, an edit touches one entry, a reindex rebuilds the index from the
    files alone.  The inputs are those the program's own callers write: texts
    that open no comment and hold no carriage return. *)
From Stdlib Require Import QArith_base.
From stdpp Require Import gmap sets strings sorting.
From S2P Require Import Prelude PyStr PyText Regex MemFormat Difflib MemRouting MemStore MemIndex.

(** ** Reindexing *)
Definition entries_in (name : text) (s : Store) : list MemoryEntry :=
  from_option (parse_entries_from_markdown name) [] (read_path name s).
Definition indexed_entries_of (name : text) (s : Store) : list MemoryEntry :=
  from_option (parse_entries_from_markdown name) [] (indexable name s).

Lemma entries_shown m s name : shows m s → entries_in name s = from_option (entries_of name) [] (m !! name).
Proof.
  intros Hs. unfold entries_in. rewrite (read_shown _ _ _ Hs). destruct (m !! name) as [d|] eqn:Hd; [|reflexivity].
  cbn [fmap option_fmap option_map from_option]. apply parse_doc, (shows_clean _ _ Hs _ _ Hd).
Qed.
Lemma file_names_NoDup s : NoDup (file_names s).
Proof. unfold file_names. rewrite merge_sort_Permutation. apply NoDup_fst_map_to_list. Qed.
Lemma elem_of_file_names name s : name ∈ file_names s ↔ is_Some (files s !! name).
Proof.
  unfold file_names. rewrite merge_sort_Permutation. rewrite list_elem_of_fmap. split.
  - intros ([k v] & -> & H%elem_of_map_to_list). eauto.
  - intros [v H]. exists (name, v). split; [done|]. by apply elem_of_map_to_list.
Qed.
Lemma index_file_spec now n s name :
  index_file now (n, s) name =
  (n + length (indexed_entries_of name s),
   match indexable name s with
   | Some _ =>
       s <| fts ::= λ rs, rs ++ (row_of name <$> indexed_entries_of name s) |>
         <| mfiles ::= λ fs, fs ++ [mkFileRow name (title ((λ c, if (c =? 46)%N then SP else c) <$> name))
              (join_with (t ",") (split_on 46 name)) (Z.of_nat (length (indexed_entries_of name s))) now now] |>
   | None => s
   end).
Proof.
  unfold index_file, indexed_entries_of. destruct (indexable name s); [done|]. cbn [from_option length].
  by rewrite Nat.add_0_r.
Qed.
(** What going through a list of files does. *)
Lemma index_files now names n s :
  NoDup names →
  let '(n', s') := foldl (index_file now) (n, s) names in
  files s' = files s ∧ hits s' = hits s ∧
  fts s' = fts s ++ (names ≫= λ name, row_of name <$> indexed_entries_of name s) ∧
  n' = n + length (names ≫= λ name, row_of name <$> indexed_entries_of name s) ∧
  (λ fr, (fr_name fr, fr_count fr)) <$> mfiles s' =
    ((λ fr, (fr_name fr, fr_count fr)) <$> mfiles s) ++
    ((λ name, (name, Z.of_nat (length (indexed_entries_of name s)))) <$> filter (λ name, is_Some (indexable name s)) names).
Proof.
  intros Hnd. revert n s. induction Hnd as [|name names Hname _ IH]; intros n s.
  - cbn. rewrite !app_nil_r, Nat.add_0_r. done.
  - cbn [foldl]. rewrite index_file_spec.
    set (s1 := match indexable name s with Some _ => _ | None => s end).
    assert (files s1 = files s ∧ hits s1 = hits s ∧ fts s1 = fts s ++ (row_of name <$> indexed_entries_of name s) ∧
      (λ fr, (fr_name fr, fr_count fr)) <$> mfiles s1 = ((λ fr, (fr_name fr, fr_count fr)) <$> mfiles s) ++
        (if decide (is_Some (indexable name s)) then [(name, Z.of_nat (length (indexed_entries_of name s)))] else []))
      as (Hf & Hh & Hfts & Hm).
    { unfold s1. destruct (indexable name s) eqn:E; cbn [modify files hits fts mfiles].
      - rewrite fmap_app, decide_True by eauto. done.
      - rewrite decide_False by by intros [??]. unfold indexed_entries_of. rewrite E. cbn. by rewrite !app_nil_r. }
    assert (∀ k, indexable k s1 = indexable k s) as Hix by (intros k; unfold indexable; by rewrite Hf).
    assert (∀ k, indexed_entries_of k s1 = indexed_entries_of k s) as Hie by (intros k; unfold indexed_entries_of; by rewrite Hix).
    specialize (IH (n + length (indexed_entries_of name s)) s1).
    destruct (foldl _ _ names) as [n' s']. destruct IH as (H1 & H2 & H3 & H4 & H5).
    assert ((names ≫= λ k, row_of k <$> indexed_entries_of k s1) = names ≫= λ k, row_of k <$> indexed_entries_of k s) as Hb.
    { apply list_bind_ext; [intros k; by rewrite Hie|done]. }
    rewrite Hb in *. split_and!; [congruence|congruence| | |].
    + rewrite H3, Hfts. cbn [mbind list_bind]. by rewrite app_assoc.
    + rewrite H4. cbn [mbind list_bind]. rewrite length_app, length_fmap. lia.
    + rewrite H5, Hm, <-app_assoc. f_equal. rewrite filter_cons.
      assert (filter (λ k, is_Some (indexable k s1)) names = filter (λ k, is_Some (indexable k s)) names) as ->.
      { apply list_filter_iff. intros k. by rewrite Hix. }
      case_decide; [rewrite fmap_cons|]; cbn [app]; [f_equal|]; apply list_fmap_ext; intros i k _; by rewrite Hie.
Qed.
Lemma rows_gathered (g : text → list MemoryEntry) name names :
  NoDup names →
  filter (λ r, r_file r = name) (names ≫= λ k, row_of k <$> g k) = if decide (name ∈ names) then row_of name <$> g name else [].
Proof.
  induction 1 as [|k names Hk _ IH]; [by rewrite decide_False by apply not_elem_of_nil|].
  rewrite bind_cons, filter_app, IH, (rows_only k) by done. destruct (decide (k = name)) as [->|Hn].
  - rewrite decide_False by done. rewrite decide_True by set_solver. by rewrite app_nil_r.
  - cbn [app]. apply decide_ext. set_solver.
Qed.

Lemma reindex_spec now s :
  let s' := (reindex now s).2 in
  files s' = files s ∧ hits s' = hits s ∧ (∀ name, rows_of name s' = row_of name <$> indexed_entries_of name s).
Proof.
  unfold reindex. set (s0 := (s <| fts := [] |>) <| mfiles := [] |>).
  pose proof (index_files now (file_names s) 0 s0 (file_names_NoDup s)) as H.
  destruct (foldl _ _ _) as [total s']. destruct H as (Hf & Hh & Hfts & _ & _). split_and!; [done|done|].
  intros name. cbn [snd]. unfold rows_of. rewrite Hfts. cbn [fts s0 modify app].
  rewrite (rows_gathered (λ k, indexed_entries_of k s0)) by apply file_names_NoDup.
  case_decide as Hin; [done|]. unfold indexed_entries_of, indexable. rewrite elem_of_file_names in Hin.
  by destruct (files s !! name) eqn:E; [destruct Hin; eauto|].
Qed.

(** C38: Reindexing depends on the files alone.  Whatever the index held before,
    afterwards every file has the rows of the entries parsed from it (a name
    or size the index refuses: none), the registry lists exactly the indexed
    files with the number of their rows, the returned total is the number of
    rows, and neither files nor hit counters change. *)
Theorem reindex_rebuilds (now : N) (s : Store) :
  let '(total, s') := reindex now s in
  (∀ name, rows_of name s' = row_of name <$> indexed_entries_of name s) ∧
  total = length (fts s') ∧
  (λ fr, (fr_name fr, fr_count fr)) <$> mfiles s' =
    (λ name, (name, Z.of_nat (length (rows_of name s')))) <$> filter (λ name, is_Some (indexable name s)) (file_names s) ∧
  files s' = files s ∧ hits s' = hits s.
Proof.
  pose proof (reindex_spec now s) as Hspec. cbv zeta in Hspec. unfold reindex in *.
  set (s0 := (s <| fts := [] |>) <| mfiles := [] |>) in *.
  pose proof (index_files now (file_names s) 0 s0 (file_names_NoDup s)) as H.
  destruct (foldl _ _ _) as [total s']. destruct H as (_ & _ & Hfts & Hn & Hm). destruct Hspec as (Hf & Hh & Hrows).
  cbn [snd] in *. split_and!; [done|by rewrite Hn, Hfts| |done|done].
  rewrite Hm. cbn [mfiles s0 modify fmap list_fmap app]. apply list_fmap_ext. intros i k _. rewrite Hrows.
  by rewrite length_fmap.
Qed.

(** ** Operations *)
Inductive Op :=
| Add (content : text) (skip_dedup : bool) (w : Write)
| Supersede (content : text) (w : Write)
| Update (name : text) (epoch : N) (content : text) (now : N)
| Delete (name : text) (epoch : N) (now : N)
| Archive (name : text)
| DeleteFile (name : text)
| Move (source target : text) (epochs : list N) (now : N)
| Reindex (now : N)
| Hits (now : N) (results : list (text * N)).

Section life.
Context (search : list Row → text → list Row) (bm25 : list Row → text → option text → list (text * Q))
  (set_order : list text → list text).
(** An operation that raises leaves the store as it is. *)
Definition run_op (o : Op) (s : Store) : Store :=
  match o with
  | Add c skip w => from_option snd s (add_entry search bm25 set_order c skip w s)
  | Supersede c w => from_option snd s (add_or_supersede_entry search bm25 set_order c w s)
  | Update name e c now => from_option snd s (update_entry name e c now s)
  | Delete name e now => from_option snd s (delete_entry name e now s)
  | Archive name => default s (archive_file name s)
  | DeleteFile name => from_option snd s (delete_file name s)
  | Move src target es now => from_option snd s (move_entries src target es now s)
  | Reindex now => (reindex now s).2
  | Hits now results => _record_hits now results s
  end.
(** What the callers write: the text opens no comment, holds no carriage
    return and is trimmed once its separators are rewritten; the fields are
    words and the tags are tags. *)
Record clean_write (c : text) (w : Write) (s : Store) : Prop := {
  cw_text : clean_text c;
  cw_trim : strip (sanitize_entry_content c) = sanitize_entry_content c;
  cw_type : words (w_type w);
  cw_tags : (∃ ls, Forall tag_ok ls ∧ w_tags w = join_with [44%N] ls) ∧ CR ∉ w_tags w;
  cw_weight : words (w_weight w);
  cw_source : optional_words (w_source w);
  cw_origin : optional_words (w_origin w);
  cw_today : tag_ok (w_today w) ∧ CR ∉ w_today w;
  cw_name : ∀ n, _validate_name (_resolve_file_name (bm25 (fts s)) set_order (mfiles s) (w_file w)
                                    (sanitize_entry_content c) (w_space w)) = Some n → stable_name n
}.
Definition clean_op (o : Op) (s : Store) : Prop :=
  match o with
  | Add c _ w | Supersede c w => clean_write c w s
  | Update _ _ c _ => clean_text c
  | Move src target _ _ =>
      stable_name src ∧ stable_name target ∧ Forall unruled_content (entries_in src s)
  | Reindex _ => ∀ name data, files s !! name = Some data → oversized data = false
  | _ => True
  end.
Inductive life : Store → Prop :=
| life_empty : life empty_store
| life_op o s : life s → clean_op o s → life (run_op o s).

(** ** What every life keeps *)
Definition lives (s : Store) : Prop := ∃ m, shows m s ∧ map_Forall (λ n _, _NAME_RE n = true) m.
Context (Hset : ∀ l, set_order l ≡ₚ l).

Lemma lives_insert m n d s :
  map_Forall (λ n _, _NAME_RE n = true) m → is_Some (m !! n) ∨ _NAME_RE n = true →
  shows (<[n := d]> m) s → lives s.
Proof.
  intros Hm Hn Hs. exists (<[n := d]> m). split; [done|]. apply map_Forall_insert_2; [|done].
  destruct Hn as [[d' Hd]|]; [by apply (Hm _ _ Hd)|done].
Qed.
Lemma stable_matches n : stable_name n → _NAME_RE n = true.
Proof. intros [Hn _]. by apply validated_name in Hn. Qed.
Lemma clean_write_ok c w s : clean_write c w s → ¬ blank c → write_ok (sanitize_entry_content c) w.
Proof.
  intros [[Hc Hcr] Htrim Hty [Htags Hcrt] Hw Hsrc Horig Htoday _] Hb. split; [|apply Hw|done|apply sanitize_no_rule| |done].
  - split; [split; [by apply sanitize_text|by apply sanitize_no_comment]|done|done|by right|done| |done].
    unfold plain. split_and!; [apply not_elem_of_nil|apply not_elem_of_nil|done].
  - split; [by apply cr_sanitize|done].
Qed.
Lemma sanitize_idem c : sanitize_entry_content (sanitize_entry_content c) = sanitize_entry_content c.
Proof. apply sanitize_id, sanitize_no_rule. Qed.
Lemma append_lives c w s r s' :
  lives s → clean_write c w s → ¬ blank c →
  append_entry bm25 set_order (sanitize_entry_content c) w s = Some (r, s') → lives s'.
Proof.
  intros (m & Hs & Hm) Hw Hb Happ. pose proof (cw_name _ _ _ Hw) as Hstable.
  destruct (append_shown bm25 set_order Hset m s _ w r s' Hs (clean_write_ok _ _ _ Hw Hb) Happ Hstable)
    as (n & e & x & ls & -> & _ & _ & _ & Hs').
  eapply lives_insert; [done| |exact Hs']. right. apply stable_matches, Hstable. unfold append_entry in Happ.
  destruct (_validate_name _) as [n'|]; [|done]. by destruct (read_path _ _); simplify_eq.
Qed.
Lemma add_lives c skip w s : lives s → clean_write c w s → lives (run_op (Add c skip w) s).
Proof.
  intros Hs Hw. cbn [run_op]. unfold add_entry. destruct (decide (strip c = [])) as [|Hb]; [done|]. rewrite strip_nil in Hb.
  set (dup := if skip || _ then _ else _). destruct dup; [done|].
  destruct (append_entry _ _ _ w s) as [[r s']|] eqn:E; [|done]. by eapply append_lives.
Qed.
Lemma update_lives name e c now s : lives s → clean_text c → lives (run_op (Update name e c now) s).
Proof.
  intros (m & Hs & Hm) Hc. cbn [run_op]. destruct (update_entry name e c now s) as [[r s']|] eqn:E; [|by exists m].
  cbn [from_option snd]. destruct (_validate_name name) as [n|] eqn:Hn; [|unfold update_entry in E; by rewrite Hn in E].
  destruct (update_shown m s name n e c now r s' Hs Hc Hn E) as [[_ ->]|(d & Hd & _ & _ & _ & Hs')]; [by exists m|].
  eapply lives_insert; [done| |exact Hs']. left. eauto.
Qed.
Lemma sanitized_clean c : clean_text c → clean_text (sanitize_entry_content c).
Proof. intros [Hc Hcr]. split; [by apply sanitize_no_comment|by apply cr_sanitize]. Qed.
Lemma supersede_lives c w s : lives s → clean_write c w s → lives (run_op (Supersede c w) s).
Proof.
  intros Hs Hw. cbn [run_op]. unfold add_or_supersede_entry. destruct (decide (strip c = [])) as [|Hb]; [done|].
  rewrite strip_nil in Hb.
  set (found := if length _ <? 60 then _ else _). destruct found as [dup|].
  - destruct (_supersede_reason _ _) as [why|]; [|done].
    pose proof (update_lives (r_file dup) (r_epoch dup) _ (w_now w) s Hs (sanitized_clean _ (cw_text _ _ _ Hw))) as Hu.
    cbn [run_op] in Hu. destruct (update_entry _ _ _ _ s) as [[rep s']|]; [|done].
    cbn [from_option snd mbind option_bind] in *. by destruct (is_error rep).
  - unfold add_entry. destruct (decide _); [done|]. rewrite sanitize_idem. cbn [orb].
    destruct (append_entry _ _ _ w s) as [[r s']|] eqn:E; [|done]. by eapply append_lives.
Qed.
Lemma delete_lives name e now s : lives s → lives (run_op (Delete name e now) s).
Proof.
  intros (m & Hs & Hm). cbn [run_op]. destruct (delete_entry name e now s) as [[r s']|] eqn:E; [|by exists m].
  cbn [from_option snd]. destruct (_validate_name name) as [n|] eqn:Hn; [|unfold delete_entry in E; by rewrite Hn in E].
  destruct (delete_shown m s name n e now r s' Hs Hn E) as [[_ ->]|(d & Hd & _ & _ & Hs')]; [by exists m|].
  eapply lives_insert; [done| |exact Hs']. left. eauto.
Qed.
Lemma archive_lives name s : lives s → lives (run_op (Archive name) s).
Proof.
  intros (m & Hs & Hm). cbn [run_op]. destruct (archive_file name s) as [s'|] eqn:E; [|by exists m].
  destruct (_validate_name name) as [n|] eqn:Hn; [|unfold archive_file in E; by rewrite Hn in E].
  eexists. split; [by eapply archive_shown|]. intros k d Hk%lookup_alter_Some.
  destruct Hk as [(_ & d' & Hd & _)|[_ Hd]]; by apply (Hm _ _ Hd).
Qed.
Lemma delete_file_lives name s : lives s → lives (run_op (DeleteFile name) s).
Proof.
  intros (m & Hs & Hm). cbn [run_op]. destruct (delete_file name s) as [[b s']|] eqn:E; [|by exists m].
  destruct (_validate_name name) as [n|] eqn:Hn; [|unfold delete_file in E; by rewrite Hn in E].
  eexists. split; [by eapply delete_file_shown|]. by apply map_Forall_delete.
Qed.
Lemma move_lives src target es now s :
  lives s → clean_op (Move src target es now) s → lives (run_op (Move src target es now) s).
Proof.
  intros (m & Hs & Hm) (Hsrc & Htarget & Hun). cbn [run_op].
  destruct (move_entries src target es now s) as [[k s']|] eqn:E; [|by exists m]. cbn [from_option snd].
  destruct (move_shown m s src target es now k s' Hs Hsrc Htarget E Hun) as [_ [[_ ->]|(d & ys & Hs' & _)]]; [by exists m|].
  eapply lives_insert; [done| |exact Hs']. right. by apply stable_matches.
Qed.
Lemma indexable_small m s name :
  shows m s → map_Forall (λ n _, _NAME_RE n = true) m → (∀ n data, files s !! n = Some data → oversized data = false) →
  indexable name s = read_path name s.
Proof.
  intros Hs Hm Hsize. unfold indexable, read_path. destruct (files s !! name) as [data|] eqn:E; [|done].
  rewrite (Hsize _ _ E). rewrite (shows_files _ _ Hs) in E. destruct (m !! name) as [d|] eqn:Hd; [|done].
  by rewrite (Hm _ _ Hd).
Qed.
Lemma reindex_lives now s : lives s → clean_op (Reindex now) s → lives (run_op (Reindex now) s).
Proof.
  intros (m & Hs & Hm) Hsize. exists m. split; [|done]. destruct (reindex_spec now s) as (Hf & _ & Hrows).
  split; [apply Hs|intros k; cbn [run_op]; rewrite Hf; apply Hs|]. intros k. cbn [run_op]. rewrite Hrows.
  unfold indexed_entries_of. rewrite (indexable_small m) by done. fold (entries_in k s).
  rewrite <-(shows_rows _ _ Hs). symmetry. by apply (shown_in_step m).
Qed.
Lemma life_lives s : life s → lives s.
Proof.
  induction 1 as [|o s _ IH Hclean]; [exists ∅; split; [apply shows_empty|apply map_Forall_empty]|].
  destruct o; [by apply add_lives|by apply supersede_lives|by apply update_lives|by apply delete_lives
    |by apply archive_lives|by apply delete_file_lives|by apply move_lives|by apply reindex_lives|].
  destruct IH as (m & [? ? ?] & ?). by exists m.
Qed.



(** What is added can be read back.  The confirmed file ends in the new
    entry, with the text as sanitized and an epoch no row of the file had;
    unless the file was archived before, the epoch finds that entry. *)
Theorem added_entry_is_found (s : Store) (c : text) (w : Write) (r : Reply) (s' : Store)
    (Hlife : life s) (Hw : clean_write c w s) (Hb : ¬ blank c)
    (Hadd : append_entry bm25 set_order (sanitize_entry_content c) w s = Some (r, s')) :
  ∃ n e ls, let y := mkEntry n (sanitize_entry_content c) e (w_type w) ls (w_weight w) (w_source w) 0 (w_origin w) in
    r = Saved n e ∧ e ∉ indexed_epochs n s ∧ (∃ before, entries_in n s' = before ++ [y]) ∧
    (is_file_archived (default [] (read_path n s)) = false →
       entries_in n s' = entries_in n s ++ [y] ∧ get_entry n e s' = Some y).
Proof.
  destruct (life_lives s Hlife) as (m & Hs & _).
  destruct (append_shown bm25 set_order Hset m s _ w r s' Hs (clean_write_ok _ _ _ Hw Hb) Hadd (cw_name _ _ _ Hw))
    as (n & e & x & ls & -> & He & Hx & Hy & Hs').
  exists n, e, ls. set (y := mkEntry _ _ _ _ _ _ _ _ _) in *. set (d0 := default (new_doc n (w_now w)) (m !! n)) in *.
  assert (entries_in n s' = entries_of n (d0 <| d_archived := false |>) ++ [y]) as Hes.
  { rewrite (entries_shown _ _ _ Hs'), lookup_insert_eq. by apply entries_added. }
  split_and!; [done|done|by eexists|]. intros Harch.
  assert (entries_of n (d0 <| d_archived := false |>) = entries_in n s) as Hd0.
  { rewrite (entries_shown _ _ _ Hs). unfold d0. rewrite (read_shown _ _ _ Hs) in Harch. destruct (m !! n) as [d|] eqn:Hd; [|done].
    cbn [fmap option_fmap option_map default from_option id] in *.
    rewrite archived_doc in Harch by apply (shows_clean _ _ Hs _ _ Hd). destruct d; cbn in *. by subst. }
  assert (entries_in n s' = entries_in n s ++ [y]) as Hes' by (rewrite <-Hd0; exact Hes). clear Hes.
  rename Hes' into Hes. split; [done|].
  assert (_validate_name n = Some n) as Hn.
  { unfold append_entry in Hadd. destruct (_validate_name _) as [n'|] eqn:E; [|done].
    destruct (cw_name _ _ _ Hw n' E) as [Hn' _]. by destruct (read_path _ _); simplify_eq. }
  unfold get_entry. rewrite Hn. cbn [mbind option_bind]. unfold entries_in in Hes.
  destruct (read_path n s') as [raw|]; [|by symmetry in Hes; apply app_eq_nil in Hes as [_ ?]]. cbn [from_option] in Hes.
  cbn [mbind option_bind]. rewrite Hes, filter_app, filter_none; [cbn; by rewrite decide_True|].
  intros z Hz Hze. apply He. unfold indexed_epochs. rewrite (shown_in_step _ _ Hs). rewrite <-list_fmap_compose.
  apply list_elem_of_fmap. by exists z.
Qed.

(** Moving copies entries and never reuses an epoch.  The target gets a
    copy of every chosen entry, in order and in every field but the file and
    the epoch; the epochs are distinct and none is an epoch of the target's
    live entries; the live entries the target had, and all other files, stay. *)
Theorem moved_entries_are_copied (s : Store) (src target : text) (es : list N) (now : N) (k : nat) (s' : Store)
    (Hlife : life s) (Hclean : clean_op (Move src target es now) s)
    (Hmove : move_entries src target es now s = Some (k, s')) :
  let chosen := filter (λ y, epoch y ∈ es) (entries_in src s) in
  ∃ ys, k = length chosen ∧ entries_in target s' = entries_in target s ++ ys ∧
    Forall2 (λ y y', y' = moved target (epoch y') y) chosen ys ∧
    NoDup (epoch <$> ys) ∧ Forall (λ y, epoch y ∉ epoch <$> entries_in target s) ys ∧
    ∀ f, f ≠ target → read_path f s' = read_path f s.
Proof.
  intros chosen. destruct (life_lives s Hlife) as (m & Hs & _). destruct Hclean as (Hsrc & Htarget & Hun).
  destruct (move_shown m s src target es now k s' Hs Hsrc Htarget Hmove Hun) as [Hk H]. fold (entries_in src s) in Hk, H.
  fold chosen in Hk, H. destruct H as [[Hk0 ->]|(d & ys & Hs' & Hd & Hall & Hnd & Hfresh)].
  - exists []. assert (chosen = []) as -> by (apply length_zero_iff_nil; congruence).
    split_and!; [done|by rewrite app_nil_r|constructor|constructor|constructor|done].
  - rewrite (received_entries target now m s) in Hd, Hfresh by done.
    exists ys. rewrite (entries_shown _ _ _ Hs'), (entries_shown _ _ _ Hs), lookup_insert_eq. cbn [from_option].
    split_and!; try done. intros f Hf. by rewrite (read_shown _ _ _ Hs'), (read_shown _ _ _ Hs), lookup_insert_ne.
Qed.
End life.

(** ** A small life *)
Definition demo_write (file : text) (e now : N) : Write :=
  mkWrite (Some file) (t "note") [] (t "normal") e (t "user") [] None now (t "2026-11-03").
Definition demo_search (rs : list Row) (c : text) : list Row := rs.
Definition demo_bm25 (rs : list Row) (c : text) (p : option text) : list (text * Q) := [].
Definition demo_order (l : list text) : list text := l.
Definition demo_file : text := t "ops.deploys".
Definition demo_fact : text := t "Deploys run at nine." ++ [NL] ++ t "---" ++ [NL] ++ t "Not on Fridays.".
Definition demo_run : Op → Store → Store := run_op demo_search demo_bm25 demo_order.
Definition demo_added : Store := demo_run (Add demo_fact false (demo_write demo_file 0 41)) empty_store.

Lemma no_char v c : forallb (λ x, negb (x =? c)%N) v = true → c ∉ v.
Proof. intros Hv Hin. rewrite forallb_forall in Hv. apply list_elem_of_In, Hv in Hin. by rewrite N.eqb_refl in Hin. Qed.
Lemma words_by v : v ≠ [] → forallb is_word v = true → words v.
Proof. intros Hne Hv. split; [done|]. rewrite forallb_forall in Hv. apply Forall_forall. intros c Hc. by apply Hv, list_elem_of_In. Qed.
Lemma stable_demo : stable_name demo_file.
Proof. split; [done|by apply no_char]. Qed.
Lemma clean_demo s e now :
  mfiles s = [] → clean_write demo_bm25 demo_order demo_fact (demo_write demo_file e now) s.
Proof.
  intros Hm. split; cbn [w_type w_tags w_weight w_source w_origin w_today demo_write].
  - split; [done|by apply no_char].
  - done.
  - by apply words_by.
  - split; [exists []; done|apply not_elem_of_nil].
  - by apply words_by.
  - right. by apply words_by.
  - by left.
  - split; [|by apply no_char]. split_and!; try (by apply no_char); done.
  - intros n. rewrite Hm. cbn [w_file w_space demo_write].
    assert (_resolve_file_name (demo_bm25 (fts s)) demo_order [] (Some demo_file) (sanitize_entry_content demo_fact) None =
            demo_file) as -> by by vm_compute.
    destruct stable_demo as [Hv Hnl]. rewrite Hv. intros [= <-]. apply stable_demo.
Qed.
Lemma life_demo : life demo_search demo_bm25 demo_order demo_added.
Proof. apply (life_op _ _ _ (Add _ _ _)); [constructor|by apply clean_demo]. Qed.

Definition demo_updated : option (Reply * Store) := update_entry demo_file 41 (t "Deploys run at ten.") 43 demo_added.
Lemma added_entry_is_found_witness :
  ∃ r s', append_entry demo_bm25 demo_order (sanitize_entry_content demo_fact) (demo_write demo_file 41 43) empty_store
            = Some (r, s') ∧
  ∃ n e ls, let y := mkEntry n (sanitize_entry_content demo_fact) e (t "note") ls (t "normal") (t "user") 0 [] in
    r = Saved n e ∧ e ∉ indexed_epochs n empty_store ∧ (∃ before, entries_in n s' = before ++ [y]) ∧
    (is_file_archived (default [] (read_path n empty_store)) = false →
       entries_in n s' = entries_in n empty_store ++ [y] ∧ get_entry n e s' = Some y).
Proof.
  destruct (append_entry demo_bm25 demo_order (sanitize_entry_content demo_fact) (demo_write demo_file 41 43) empty_store)
    as [[r s']|] eqn:E; [|by vm_compute in E].
  exists r, s'. split; [done|].
  apply (added_entry_is_found demo_search demo_bm25 demo_order (λ l, Permutation_refl l) empty_store demo_fact
    (demo_write demo_file 41 43)).
  - constructor.
  - by apply clean_demo.
  - intros H. inversion H. done.
  - exact E.
Defined.
Lemma moved_entries_are_copied_witness :
  ∃ k s', move_entries demo_file (t "ops.archive") [41%N] 50 demo_added = Some (k, s') ∧
  let chosen := filter (λ y, epoch y ∈ [41%N]) (entries_in demo_file demo_added) in
  ∃ ys, k = length chosen ∧ entries_in (t "ops.archive") s' = entries_in (t "ops.archive") demo_added ++ ys ∧
    Forall2 (λ y y', y' = moved (t "ops.archive") (epoch y') y) chosen ys ∧
    NoDup (epoch <$> ys) ∧ Forall (λ y, epoch y ∉ epoch <$> entries_in (t "ops.archive") demo_added) ys ∧
    ∀ f, f ≠ t "ops.archive" → read_path f s' = read_path f demo_added.
Proof.
  destruct (move_entries demo_file (t "ops.archive") [41%N] 50 demo_added) as [[k s']|] eqn:E; [|by vm_compute in E].
  exists k, s'. split; [done|].
  apply (moved_entries_are_copied demo_search demo_bm25 demo_order (λ l, Permutation_refl l) demo_added demo_file
    (t "ops.archive") [41%N] 50).
  - exact life_demo.
  - split_and!; [exact stable_demo|split; [done|by apply no_char]|].
    unfold unruled_content. apply (bool_decide_unpack _). by vm_compute.
  - exact E.
Defined.

(** ** Saving a whole file *)

(** A save against a version that is no longer there writes nothing.  After
    a save that held the version, the file is what was saved, its rows are the
    entries parsed from it and the returned version is the file's; a second
    save that still holds the first version is refused with that version and
    changes nothing, if the digest tells the two texts apart. *)
Theorem stale_save_is_refused (_revision_of : text → text) (mtime : text → Q) (size_of : text → nat)
    (name n old new other : text) (m : option Q) (now : N) (s : Store)
    (Hname : _validate_name name = Some n) (Hfixed : _validate_name n = Some n) (Hold : files s !! n = Some old)
    (Hdigest : _revision_of new ≠ _revision_of old) :
  let save := write_file _revision_of mtime size_of name in
  let s' := write_and_index n new now s in
  save new (Some (_revision_of old)) m now s = Some (Committed (version_of _revision_of mtime size_of new), s') ∧
  files s' = <[n := new]> (files s) ∧ rows_of n s' = row_of n <$> parse_entries_from_markdown n new ∧
  file_version _revision_of mtime size_of n s' = Some (version_of _revision_of mtime size_of new) ∧
  save other (Some (_revision_of old)) m now s' = Some (VersionConflict (version_of _revision_of mtime size_of new), s').
Proof.
  intros save s'. assert (files s' = <[n := new]> (files s)) as Hf by done.
  assert (∀ st, is_Some (files st !! n) → _ensure_file n now st = st) as Hens.
  { intros st [x Hx]. unfold _ensure_file. rewrite Hfixed. cbn [default from_option id]. by rewrite Hx. }
  assert (files s' !! n = Some new) as Hn by (rewrite Hf; apply lookup_insert_eq).
  split_and!; [|done| | |].
  - unfold save, write_file. rewrite Hname. cbn [mbind option_bind]. rewrite Hens by eauto. unfold file_version. rewrite Hold.
    cbn [fmap option_fmap option_map default from_option id _version_matches v_revision version_of]. by rewrite bool_decide_true.
  - unfold s', write_and_index. rewrite rows_reindexed. by rewrite decide_True.
  - unfold file_version. by rewrite Hn.
  - unfold save, write_file. rewrite Hname. cbn [mbind option_bind]. rewrite Hens by eauto. unfold file_version. rewrite Hn.
    cbn [fmap option_fmap option_map default from_option id _version_matches v_revision version_of]. by rewrite bool_decide_false.
Qed.
Lemma stale_save_is_refused_witness :
  let s' := write_and_index demo_file (t "new") 50 demo_added in
  let old := default [] (files demo_added !! demo_file) in
  write_file id (λ _, 0%Q) length demo_file (t "new") (Some old) None 50 demo_added =
    Some (Committed (version_of id (λ _, 0%Q) length (t "new")), s') ∧
  files s' = <[demo_file := t "new"]> (files demo_added) ∧
  rows_of demo_file s' = row_of demo_file <$> parse_entries_from_markdown demo_file (t "new") ∧
  file_version id (λ _, 0%Q) length demo_file s' = Some (version_of id (λ _, 0%Q) length (t "new")) ∧
  write_file id (λ _, 0%Q) length demo_file (t "lost") (Some old) None 50 s' =
    Some (VersionConflict (version_of id (λ _, 0%Q) length (t "new")), s').
Proof.
  destruct (files demo_added !! demo_file) as [old|] eqn:E; [|by vm_compute in E].
  apply (stale_save_is_refused id (λ _, 0%Q) length demo_file demo_file old (t "new") (t "lost")).
  - done.
  - done.
  - exact E.
  - intros H. cbn in H. subst old. by vm_compute in E.
Defined.

(** ** Where the store's promises fail *)
Definition second_fact : text := t "The pager rotates weekly.".
Definition revived : Store :=
  demo_run (Add second_fact false (demo_write demo_file 41 60)) (demo_run (Archive demo_file) demo_added).

(** An epoch can name two entries of a file, and a name with the suffix
    three times raises.  Adding asks the index alone which epochs are taken; an
    archived file has no rows, so reviving it with an entry of an epoch it
    holds gives two live entries one epoch, which no update or delete can
    tell apart any more.  And [x.md.md.md] loses one suffix to the routing, one to
    [add_entry] and one to [_ensure_file]: the file made is not the file opened. *)
Theorem addresses_may_collide :
  (epoch <$> entries_in demo_file revived) = [41; 41]%N ∧
  fst <$> update_entry demo_file 41 (t "Deploys run at ten.") 61 revived = Some (EpochCollision 2 demo_file 41) ∧
  (let '(r, s) := default (EmptyContent, empty_store)
     (add_entry demo_search demo_bm25 demo_order second_fact false (demo_write (t "ops.md.md.md") 0 41) empty_store) in
   r = Missing (t "ops.md") ∧ is_Some (files s !! t "ops") ∧ files s !! t "ops.md" = None).
Proof. vm_compute. split_and!; first [reflexivity | eexists; reflexivity]. Qed.

Definition edited : Store :=
  demo_added <| files ::= fmap (replace_first (t "nine") (t "noon")) |>.
Definition headless : Store :=
  default empty_store (snd <$> write_file id (λ _, 0%Q) length (t "notes")
    (t "# Notes" ++ format_entry (t "A fact.") (t "note") [] (t "normal") [] 7 [] [] 0 [] 7) None None 7 empty_store).

(** The health check and archiving can miss.  The check compares numbers of
    entries, so a file edited outside the program that keeps its number is in
    sync and keeps its stale rows; only a reindex sees it.  Archiving replaces
    the exact file line of the header, so a file without that line loses its
    rows and none of its text, and the next reindex brings it back. *)
Theorem maintenance_may_miss :
  (let '(h, s) := health_check true 70 edited in
   in_sync (h_survey h) = true ∧ h_reindexed h = None ∧ (r_content <$> rows_of demo_file s) = [sanitize_entry_content demo_fact] ∧
   (content <$> entries_in demo_file s) = [replace_first (t "nine") (t "noon") (sanitize_entry_content demo_fact)]) ∧
  (let archived := demo_run (Archive (t "notes")) headless in
   (r_content <$> rows_of (t "notes") headless) = [t "A fact."] ∧ rows_of (t "notes") archived = [] ∧
   files archived !! t "notes" = files headless !! t "notes" ∧
   (r_content <$> rows_of (t "notes") (demo_run (Reindex 71) archived)) = [t "A fact."]).
Proof. vm_compute. by split_and!. Qed.
