(* ===== verification/Context.v ===== *)
(** * The context compiler (core/context/compiler.py, core/context/tokens.py)

    [compile_context] from the blocks of the system prompt and the rows of a
    session to the payload of a call: the budget, the rows a turn may see and
    their order, view pruning under pressure, orphan exclusion (Compaction),
    the conversion of rows, trimming, the trim notice, the briefing and the
    tail.  Parameters: the tokenizer, the settings, what is read from disk,
    and JSON parsing of legacy contents.  Texts are lists of code points. *)
From Stdlib Require Import QArith_base Qround.
From stdpp Require Import list strings pretty sorting.
From S2P Require Import Prelude PyStr PyText Compaction.
#[local] Open Scope Z_scope.

(** ** Counting *)
Inductive Block := TextBlock (s : text) | ImageBlock (url : text).
Inductive Content := CText (s : text) | CBlocks (bs : list Block).
(** A message on its way to the provider, with the fields trimming uses. *)
Record Entry := mkEntry {
  e_role : role;
  e_content : Content;
  e_calls : list ToolCall;
  e_call_id : string;
  e_id : option Z;
  e_pending : bool;
  e_pinned : bool;
  e_turn_user : bool;
  e_created : text
}.
#[export] Instance Entry_settable : Settable Entry := λ e,
  mkEntry (e_role e) (e_content e) (e_calls e) (e_call_id e) (e_id e) (e_pending e) (e_pinned e) (e_turn_user e) (e_created e).

Definition CODE_STARTS : list text :=
  t <$> ["{"; "["; "def "; "class "; "import "; "from "; "async "; "function "; "const "; "let "; "var "; "<";
         "CREATE "; "SELECT "].
(** [_count_heuristic]; [int(len / 3.3)] as a quotient of integers. *)
Definition _count_heuristic (s : text) : Z :=
  if existsb (λ p, starts_with p (take 200 s)) CODE_STARTS then 10 * Z.of_nat (length s) / 33 else Z.of_nat (length s) / 4.

Section compiler.
(** The encoder of tiktoken, if it loads. *)
Context (encode : option (text → Z)).
Definition count (s : text) : Z :=
  if decide (s = []) then 0 else match encode with Some f => f s | None => _count_heuristic s end.
Definition sum_of {A} (f : A → Z) (l : list A) : Z := foldr (λ x acc, f x + acc) 0 l.
Definition count_block (b : Block) : Z := match b with TextBlock s => count s | ImageBlock _ => 85 end.
Definition count_content (c : Content) : Z :=
  match c with CText s => count s | CBlocks bs => sum_of count_block bs end.
Definition count_message (e : Entry) : Z :=
  4 + count_content (e_content e) + sum_of (λ tc, count (call_name tc) + count (arguments tc)) (e_calls e).
Definition total (es : list Entry) : Z := sum_of count_message es.

(** ** Trimming *)
Definition RESET : text := t "[Context was reset".
Definition ANSWERED : text := t "[User answered".
(** What no phase may drop, and what phase B may not. *)
Definition hard (e : Entry) : bool := bool_decide (e_role e = System) || e_pinned e.
Definition _is_pinned (e : Entry) : bool :=
  hard e || match e_content e with CText s => starts_with RESET s || starts_with ANSWERED s | CBlocks _ => false end.
Inductive Kind := KUser | KGroup | KOrphan | KOther.
Record Dropped := mkDropped { kind : Kind; msgs : list Entry }.
Definition kind_of (e : Entry) : Kind :=
  match e_role e with User => KUser | Tool => KOrphan | _ => KOther end.
Definition is_result (e : Entry) : bool := bool_decide (e_role e = Tool).
Definition is_caller (e : Entry) : bool :=
  bool_decide (e_role e = Assistant) && negb (bool_decide (e_calls e = [])).
Fixpoint span_results (es : list Entry) : list Entry * list Entry :=
  match es with
  | e :: es' => if is_result e then let '(u, r) := span_results es' in (e :: u, r) else ([], es)
  | [] => ([], [])
  end.
(** One pass over the messages after the head; [kept] are those passed.  With
    [grouped], an assistant's calls go together with the results that follow. *)
Fixpoint drop_oldest (fuel : nat) (grouped : bool) (keep : Entry → bool) (budget : Z) (kept rest : list Entry)
    : list Entry * list Dropped :=
  match fuel, rest with
  | S fuel, e :: rest' =>
      if total (kept ++ rest) <=? budget then (kept ++ rest, [])
      else if keep e then drop_oldest fuel grouped keep budget (kept ++ [e]) rest'
      else if grouped && is_caller e then
        let '(results, rest'') := span_results rest' in
        let '(out, ds) := drop_oldest fuel grouped keep budget kept rest'' in
        (out, mkDropped KGroup (e :: results) :: ds)
      else
        let '(out, ds) := drop_oldest fuel grouped keep budget kept rest' in
        (out, mkDropped (kind_of e) [e] :: ds)
  | _, _ => (kept ++ rest, [])
  end.
(** [_trim_history] of the messages after the head, with what it dropped. *)
Definition _trim_history (budget : Z) (messages : list Entry) : list Entry * list Dropped :=
  let '(out, ds) := drop_oldest (length messages) true _is_pinned budget [] messages in
  let '(out', ds') := drop_oldest (length out) false hard budget [] out in
  (out', ds ++ ds').
Definition trimmed_count (ds : list Dropped) : nat := length (ds ≫= msgs).

(** *** What trimming does *)
Lemma sum_of_app {A} (f : A → Z) l k : sum_of f (l ++ k) = sum_of f l + sum_of f k.
Proof. unfold sum_of. induction l as [|x l IH]; [done|]. cbn [foldr app]. rewrite IH. apply Z.add_assoc. Qed.
Lemma sum_of_perm {A} (f : A → Z) l k : l ≡ₚ k → sum_of f l = sum_of f k.
Proof. unfold sum_of. induction 1; cbn [foldr]; lia. Qed.
Lemma total_app a b : total (a ++ b) = total a + total b.
Proof. apply sum_of_app. Qed.
Lemma total_cons e es : total (e :: es) = count_message e + total es.
Proof. done. Qed.
Lemma total_perm a b : a ≡ₚ b → total a = total b.
Proof. apply sum_of_perm. Qed.
Lemma span_results_spec es : let '(u, r) := span_results es in
  es = u ++ r ∧ Forall (λ e, is_result e = true) u ∧ (length r ≤ length es)%nat ∧
  match r with e :: _ => is_result e = false | [] => True end.
Proof.
  induction es as [|e es IH]; cbn; [by split_and!|]. destruct (is_result e) eqn:He; [|by split_and!].
  destruct (span_results es) as [u r]. destruct IH as (-> & Hu & Hl & Hr). split_and!; [done|by constructor|lia|done].
Qed.
(** The pass keeps what it passes, drops nothing it is to keep but results,
    drops only while the budget is exceeded, and stops at it or at the end. *)
Lemma drop_oldest_spec fuel grouped keep budget kept rest :
  (length rest ≤ fuel)%nat →
  let '(out, ds) := drop_oldest fuel grouped keep budget kept rest in
  (∃ out', out = kept ++ out' ∧ sublist out' rest) ∧
  out ++ (ds ≫= msgs) ≡ₚ kept ++ rest ∧
  Forall (λ e, keep e = false ∨ grouped = true ∧ is_result e = true) (ds ≫= msgs) ∧
  (total out ≤ budget ∨ (Forall (λ e, keep e = true) kept → Forall (λ e, keep e = true) out)) ∧
  (∀ ds' d, ds = ds' ++ [d] → budget < total out + total (msgs d)).
Proof.
  revert kept rest. induction fuel as [|fuel IH]; intros kept [|e rest] Hlen; cbn in Hlen; try lia.
  1,2: cbn; split_and!; [exists []; by rewrite app_nil_r|by rewrite !app_nil_r|constructor|right; by rewrite app_nil_r
    |by intros [|? ?] ? ?].
  cbn [drop_oldest]. destruct (Z.leb_spec (total (kept ++ e :: rest)) budget) as [Hfit|Hover].
  { split_and!; [by exists (e :: rest)|cbn; by rewrite app_nil_r|constructor|by left|by intros [|? ?] ? ?]. }
  destruct (keep e) eqn:Hkeep; [|destruct (grouped && is_caller e) eqn:Hg].
  - specialize (IH (kept ++ [e]) rest ltac:(lia)). destruct (drop_oldest _ _ _ _ _ _) as [out ds].
    destruct IH as ((out' & -> & Hsub) & Hperm & Hd & Hend & Hlast). split_and!.
    + exists (e :: out'). rewrite <-app_assoc. split; [done|]. by apply sublist_skip.
    + by rewrite Hperm, <-app_assoc.
    + done.
    + destruct Hend as [?|Hend]; [by left|right]. intros Hk. apply Hend, Forall_app. split; [done|by apply Forall_singleton].
    + done.
  - apply andb_true_iff in Hg as [-> _]. pose proof (span_results_spec rest) as Hspan.
    destruct (span_results rest) as [results rest']. destruct Hspan as (-> & Hres & Hl & _).
    rewrite length_app in Hlen.
    specialize (IH kept rest' ltac:(lia)). destruct (drop_oldest _ _ _ _ kept rest') as [out ds].
    destruct IH as ((out' & -> & Hsub) & Hperm & Hd & Hend & Hlast). split_and!.
    + exists out'. split; [done|]. apply sublist_cons, sublist_inserts_l. done.
    + rewrite bind_cons. cbn [msgs]. rewrite (Permutation_app_comm (e :: results)), app_assoc, Hperm.
      rewrite <-app_assoc. apply Permutation_app_head. by rewrite Permutation_app_comm.
    + rewrite bind_cons. apply Forall_app. split; [|done]. cbn [msgs]. constructor; [by left|].
      eapply Forall_impl; [exact Hres|]. by right.
    + done.
    + intros [|d0 ds'] d; cbn [app]; intros [= <- Hds]; [|by eapply Hlast]. subst ds. cbn [mbind list_bind msgs] in *.
      rewrite app_nil_r in Hperm. rewrite (total_perm _ _ Hperm).
      rewrite !total_app, !total_cons, ?total_app in *. lia.
  - specialize (IH kept rest ltac:(lia)). destruct (drop_oldest _ _ _ _ _ _) as [out ds].
    destruct IH as ((out' & -> & Hsub) & Hperm & Hd & Hend & Hlast). split_and!.
    + exists out'. split; [done|]. by apply sublist_cons.
    + rewrite bind_cons. cbn [msgs]. rewrite (Permutation_app_comm [e]), app_assoc, Hperm.
      by rewrite <-app_assoc, (Permutation_app_comm rest).
    + rewrite bind_cons. apply Forall_app. split; [|done]. apply Forall_singleton. by left.
    + done.
    + intros [|d0 ds'] d; cbn [app]; intros [= <- Hds]; [|by eapply Hlast]. subst ds. cbn [mbind list_bind msgs] in *.
      rewrite app_nil_r in Hperm. rewrite (total_perm _ _ Hperm).
      rewrite !total_app, !total_cons in *. cbn [total sum_of foldr] in *. lia.
Qed.
Lemma hard_is_pinned e : hard e = true → _is_pinned e = true.
Proof. unfold _is_pinned. by intros ->. Qed.
Lemma trim_spec budget messages :
  Forall (λ e, hard e = true → is_result e = false) messages →
  let '(out, ds) := _trim_history budget messages in
  sublist out messages ∧ out ++ (ds ≫= msgs) ≡ₚ messages ∧ Forall (λ e, hard e = false) (ds ≫= msgs) ∧
  (total out ≤ budget ∨ Forall (λ e, hard e = true) out) ∧
  (∀ ds' d, ds = ds' ++ [d] → budget < total out + total (msgs d)).
Proof.
  intros Hres. unfold _trim_history.
  pose proof (drop_oldest_spec (length messages) true _is_pinned budget [] messages ltac:(lia)) as HB.
  destruct (drop_oldest _ true _ _ _ _) as [out ds]. destruct HB as ((o & -> & Hsub) & Hperm & Hd & Hend & Hlast).
  pose proof (drop_oldest_spec (length ([] ++ o)) false hard budget [] ([] ++ o) ltac:(lia)) as HC.
  destruct (drop_oldest _ false _ _ _ _) as [out' ds']. destruct HC as ((o' & -> & Hsub') & Hperm' & Hd' & Hend' & Hlast').
  cbn [app] in *. split_and!.
  - by etrans.
  - rewrite bind_app, <-Hperm. rewrite <-Hperm' at 1. rewrite <-app_assoc. apply Permutation_app_head, Permutation_app_comm.
  - rewrite bind_app. apply Forall_app. split.
    + apply Forall_forall. intros e He. apply not_true_iff_false. intros Hh. rewrite Forall_forall in Hd, Hres.
      assert (e ∈ messages) as Hm by (rewrite <-Hperm; set_solver).
      destruct (Hd e He) as [Hp|[_ Hr]]; [by rewrite hard_is_pinned in Hp|by rewrite (Hres e Hm Hh) in Hr].
    + eapply Forall_impl; [exact Hd'|]. by intros e [?|[? _]].
  - destruct Hend' as [?|Hend']; [by left|right]. by apply Hend'.
  - intros ds0 d Hds. destruct ds' as [|d' ds' _] using rev_ind.
    + rewrite app_nil_r in Hds. subst ds. cbn [mbind list_bind] in Hperm'. rewrite app_nil_r in Hperm'.
      rewrite (total_perm _ _ Hperm'). by eapply Hlast.
    + rewrite app_assoc in Hds. apply app_inj_tail in Hds as [_ <-]. by eapply Hlast'.
Qed.


(** ** Groups *)

(** A caller with its results, or a message that is neither. *)
Definition block_ok (b : list Entry) : Prop :=
  match b with
  | [e] => is_result e = false
  | e :: es => is_caller e = true ∧ Forall (λ r, is_result r = true) es
  | [] => False
  end.
Definition soft (e : Entry) : bool := is_caller e || is_result e.
Lemma caller_no_result e : is_caller e = true → is_result e = false.
Proof.
  unfold is_caller, is_result. intros [Ha%bool_decide_eq_true _]%andb_true_iff. rewrite Ha. done.
Qed.
Lemma span_block es bs :
  Forall (λ r, is_result r = true) es → Forall block_ok bs → span_results (es ++ concat bs) = (es, concat bs).
Proof.
  intros Hes Hbs. induction Hes as [|e es He _ IH]; cbn.
  - destruct Hbs as [|b bs Hb _]; [done|]. destruct b as [|e es]; [done|]. cbn.
    assert (is_result e = false) as ->; [|done]. destruct es; [done|]. destruct Hb as [Hb _]. by apply caller_no_result.
  - by rewrite He, IH.
Qed.
Lemma drop_blocks keep budget fuel kept bs :
  Forall block_ok bs → Forall (λ e, soft e = true → keep e = false) (concat bs) → (length (concat bs) ≤ fuel)%nat →
  ∃ bs', (drop_oldest fuel true keep budget kept (concat bs)).1 = kept ++ concat bs' ∧ sublist bs' bs.
Proof.
  intros Hbs. revert fuel kept. induction Hbs as [|b bs Hb Hbs IH]; intros fuel kept Hsoft Hlen.
  { exists []. by destruct fuel. }
  destruct b as [|e es]; [done|]. cbn [concat app] in *. destruct fuel as [|fuel]; [cbn in Hlen; lia|].
  assert (length (concat bs) ≤ fuel)%nat as Hlen' by (cbn [length] in Hlen; rewrite length_app in Hlen; lia).
  apply Forall_cons in Hsoft as [He [Hes' Hsoft]%Forall_app].
  cbn [drop_oldest]. destruct (total _ <=? budget); [by exists ((e :: es) :: bs)|].
  destruct (keep e) eqn:Hk; [|destruct (is_caller e) eqn:Hc; cbn [andb]].
  - assert (es = []) as ->.
    { destruct es; [done|]. destruct Hb as [Hc _]. by discriminate He; unfold soft; rewrite Hc. }
    destruct (IH fuel (kept ++ [e]) Hsoft Hlen') as (bs' & Heq & Hsub). cbn [app].
    exists ([e] :: bs'). rewrite Heq, <-app_assoc. split; [done|]. by apply sublist_skip.
  - assert (Forall (λ r, is_result r = true) es) as Hes by (destruct es; [done|by destruct Hb]).
    rewrite span_block by done. destruct (IH fuel kept Hsoft Hlen') as (bs' & Heq & Hsub).
    destruct (drop_oldest _ _ _ _ _ _) as [out ds]. exists bs'. split; [exact Heq|]. by apply sublist_cons.
  - assert (es = []) as ->.
    { destruct es; [done|]. destruct Hb as [Hc' _]. by rewrite Hc' in Hc. }
    destruct (IH fuel kept Hsoft Hlen') as (bs' & Heq & Hsub). cbn [app].
    destruct (drop_oldest _ _ _ _ _ _) as [out ds]. exists bs'. split; [exact Heq|]. by apply sublist_cons.
Qed.
Lemma single_blocks bs :
  Forall block_ok bs → Forall (λ e, soft e = false) (concat bs) → bs = (λ e, [e]) <$> concat bs.
Proof.
  induction 1 as [|b bs Hb _ IH]; [done|]. cbn [concat]. intros [Hs Hrest]%Forall_app. rewrite fmap_app, <-IH by done.
  destruct b as [|e es]; [done|]. destruct es as [|e' es]; [done|]. destruct Hb as [Hc _].
  apply Forall_cons in Hs as [He _]. unfold soft in He. by rewrite Hc in He.
Qed.

(** Trimming keeps groups whole.  In a history where the results follow
    their calls, and none of them opens like a reset or an answer note, what is
    left consists of whole groups of the history in order: no call loses its
    results and no result its call. *)
Theorem trim_keeps_groups_whole (budget : Z) (bs : list (list Entry))
    (Hbs : Forall block_ok bs) (Hsoft : Forall (λ e, soft e = true → _is_pinned e = false) (concat bs)) :
  ∃ bs', (_trim_history budget (concat bs)).1 = concat bs' ∧ sublist bs' bs.
Proof.
  unfold _trim_history.
  destruct (drop_blocks _is_pinned budget (length (concat bs)) [] bs Hbs Hsoft (le_n _)) as (b1 & Heq & Hsub).
  pose proof (drop_oldest_spec (length (concat bs)) true _is_pinned budget [] (concat bs) ltac:(lia)) as HB.
  destruct (drop_oldest _ true _ _ _ _) as [out ds]. cbn [fst app] in Heq. subst out. destruct HB as (_ & _ & _ & Hend & _).
  pose proof (drop_oldest_spec (length (concat b1)) false hard budget [] (concat b1) ltac:(lia)) as HC.
  assert (Forall block_ok b1) as Hb1 by (apply Forall_forall; intros b Hb; eapply Forall_forall; [exact Hbs|by eapply elem_of_sublist]).
  destruct Hend as [Hfit|Hpin].
  - assert (drop_oldest (length (concat b1)) false hard budget [] (concat b1) = (concat b1, [])) as ->; [|by exists b1].
    destruct (concat b1) as [|e l]; [done|]. cbn [length drop_oldest app]. by rewrite (proj2 (Z.leb_le _ _)).
  - destruct (drop_oldest _ false _ _ _ _) as [out ds']. destruct HC as ((out' & -> & Hsub') & _). cbn [fst app].
    specialize (Hpin (Forall_nil_2 _)). assert (b1 = (λ e, [e]) <$> concat b1) as Hsingle.
    { apply single_blocks; [done|]. apply Forall_forall. intros e He. apply not_true_iff_false. intros Hs.
      rewrite Forall_forall in Hpin, Hsoft. specialize (Hpin e He). rewrite (Hsoft e) in Hpin; [done| |done].
      rewrite elem_of_concat in He |- *. destruct He as (b & Hb & Heb). exists b. split; [by eapply elem_of_sublist|done]. }
    exists ((λ e, [e]) <$> out'). split; [clear; induction out' as [|e l IH]; cbn; [done|by rewrite <-IH]|]. rewrite Hsingle in Hsub. etrans; [|exact Hsub].
    clear -Hsub'. induction Hsub'; cbn; by constructor.
Qed.
End compiler.

(** ** The trim notice *)
Definition ELLIPSIS : text := [8230%N].
Definition BULLET : text := t "  " ++ [8226; 32]%N.
Definition DASH : text := [32; 8212; 32]%N.
Definition QUOTE : text := [34%N].
Definition shown {A} `{Pretty A} (x : A) : text := t (pretty x).
Definition shown_id (i : option Z) : text := match i with Some i => shown i | None => t "None" end.
(** [_snapshot]'s text. *)
Definition snapshot (e : Entry) : text :=
  match e_content e with
  | CText s => s
  | CBlocks bs => join_with [SP] (omap (λ b, match b with TextBlock s => Some s | ImageBlock _ => None end) bs)
  end.
Definition one_row (s : text) : text := replace [NL] [SP] s.
Definition _tool_names (e : Entry) : list text := filter (λ n, n ≠ []) (call_name <$> e_calls e).

Record Line := mkLine { l_user : bool; l_ids : list Z; l_text : text }.
Definition ids_of (es : list Entry) : list Z := omap e_id es.
Definition user_line (e : Entry) : text :=
  let full := snapshot e in
  BULLET ++ t "user msg " ++ shown_id (e_id e) ++ t " (" ++ take 16 (e_created e) ++ t ")" ++ DASH ++ QUOTE ++
  one_row (take 500 full ++ (if (500 <? length full)%nat then ELLIPSIS else [])) ++ QUOTE.
Definition tools_label (names : list text) : text :=
  match names with
  | [] => t "tool call"
  | n :: _ =>
      if ((1 <? length names)%nat && forallb (λ x, bool_decide (x = n)) names)%bool
      then n ++ [32; 215]%N ++ shown (length names)
      else if (length names <=? 4)%nat then join_with (t "+") names else shown (length names) ++ t " tool calls"
  end.
Definition group_line (e : Entry) (es : list Entry) : text :=
  BULLET ++ t "assistant+tools " ++ join_with (t ",") (shown <$> ids_of (e :: es)) ++ t " (" ++ tools_label (_tool_names e) ++
  t ")" ++ DASH ++ t "~" ++ shown (sum_list ((λ m, length (snapshot m)) <$> e :: es)) ++ t " chars".
Definition other_line (e : Entry) : text :=
  let preview := strip (one_row (take 500 (snapshot e))) in
  let quote := take (if decide (e_role e = Assistant) then 500 else 80)%nat preview in
  one_row (BULLET ++ role_text (e_role e) ++ t " msg " ++ shown_id (e_id e) ++ DASH ++ quote ++
           (if (length quote <? length (snapshot e))%nat then ELLIPSIS else [])).
Definition lines_of (d : Dropped) : list Line :=
  match kind d, msgs d with
  | _, [] => []
  | KUser, e :: es => [mkLine true (ids_of (e :: es)) (user_line e)]
  | KGroup, e :: es => [mkLine false (ids_of (e :: es)) (group_line e es)]
  | _, es => (λ e, mkLine false (ids_of [e]) (other_line e)) <$> es
  end.

Definition _NOTICE_MAX_ENTRIES : nat := 40.
Definition _NOTICE_MAX_CHARS : nat := Z.to_nat 6000.
(** The lines printed and the lines collapsed. *)
Definition _bound_notice_entries (ls : list Line) : list Line * list Line :=
  if (length ls <=? _NOTICE_MAX_ENTRIES)%nat then (ls, []) else
  let idx := zip (List.seq 0 (length ls)) ls in
  let users := fst <$> filter (λ x, l_user x.2 = true) idx in
  let others := fst <$> filter (λ x, l_user x.2 = false) idx in
  let room := Nat.max (_NOTICE_MAX_ENTRIES - length users) 4 in
  let keep := take _NOTICE_MAX_ENTRIES users ++ drop (length others - room) others in
  (snd <$> filter (λ x, x.1 ∈ keep) idx, snd <$> filter (λ x, x.1 ∉ keep) idx).
Definition span_text (ids : list Z) : text :=
  match ids with
  | [] => t "ids not recorded"
  | i :: js => t "msg ids " ++ shown (foldr Z.min i js) ++ [8211%N] ++ shown (foldr Z.max i js)
  end.
(** [text.rsplit("\n", 1)[0]] *)
Definition drop_last_line (s : text) : text :=
  match split_lines s with
  | l :: _ :: _ => join_lines (removelast (split_lines s))
  | _ => s
  end.
Definition TRUNCATED : text :=
  NL :: BULLET ++ ELLIPSIS ++ t "notice truncated" ++ DASH ++ t "search_sessions(query) covers the rest of this session".
Definition notice_lines (ds : list Dropped) : list text :=
  let '(kept, elided) := _bound_notice_entries (ds ≫= lines_of) in
  [ t "[Context trim notice" ++ DASH ++ t "current turn]";
    shown (length (ds ≫= msgs)) ++ t (" message(s) from this turn or earlier were dropped from your view to fit the " +:+
      "context budget. The full content is still in the database; use session_read(msg_id) to retrieve any specific item, or " +:+
      "search_sessions(query) to query the transcript (defaults to this session).");
    []; t "Dropped (oldest first):" ] ++ (l_text <$> kept) ++
  match elided with
  | [] => []
  | _ => [BULLET ++ ELLIPSIS ++ t "and " ++ shown (length elided) ++ t " further dropped item(s), " ++
          span_text (elided ≫= l_ids) ++ DASH ++ t "session_read(msg_id) reaches any of them individually"]
  end.
Definition _build_trim_notice (ds : list Dropped) : text :=
  match ds with
  | [] => []
  | _ =>
      let text_ := join_lines (notice_lines ds) in
      if (_NOTICE_MAX_CHARS <? length text_)%nat then drop_last_line (take _NOTICE_MAX_CHARS text_) ++ TRUNCATED else text_
  end.

(** ** The budget *)
Definition _HISTORY_BUDGET_FLOOR : Z := 4000.
Definition _MIN_OUTPUT_TOKENS : Z := 1024.
Definition safety_margin : Z := 2000.
(** The history's share and the output reserved; [None] is [ContextBudgetError]. *)
Definition plan_budget (budget max_output fixed_cost : Z) : option (Z * Z) :=
  let history_budget := budget - max_output - fixed_cost in
  if history_budget <? _HISTORY_BUDGET_FLOOR then
    let effective_max_output := budget - fixed_cost - _HISTORY_BUDGET_FLOOR in
    if effective_max_output <? _MIN_OUTPUT_TOKENS then None else Some (_HISTORY_BUDGET_FLOOR, effective_max_output)
  else Some (history_budget, max_output).

(** ** The rows of a turn *)

(** A row's metadata column, as far as it decodes: who owns an ephemeral
    notice ([Some None]: not a number), which user message the row belongs to
    (of other rows also from where rows before version 5 kept it). *)
Record Meta := mkMeta {
  m_injected : bool;
  m_pending : bool;
  m_owner : option (option Z);
  m_parent : option Z;
  m_created : text
}.
Definition no_meta : Meta := mkMeta false false None None [].

Inductive LegacyBlock := LText (s : text) | LImage (kind name : text) | LOther (s : text) | LIgnored.

Record Request := mkRequest {
  rq_head : list text;                (** the blocks up to the clock, none empty *)
  rq_scout : text;
  rq_goal : text;
  rq_tail : text;
  rq_tools : option text;             (** the schemas as JSON *)
  rq_vision : bool;
  rq_audio : bool;
  rq_budget : Z;
  rq_max_output : Z;
  rq_turn : option Z
}.
Record Settings := mkSettings {
  scout_first_turn_only : bool;
  view_prune_pressure : Q;
  view_prune_keep_recent : nat;
  view_prune_min_chars : nat;
  compaction_threshold : Q
}.

Section compiling.
Context (encode : option (text → Z)) (cfg : Settings).
(** The metadata of the rows, by id; the images and audio a text attaches,
    read from disk; [json.loads] of a content that may be a legacy list. *)
Context (meta : Z → Meta) (attached : text → list text) (blocks_of : text → option (list LegacyBlock)).

Definition meta_of (m : Message) : Meta := from_option meta no_meta (msg_id m).
Definition _delivery_pending (m : Message) : bool := is_user m && m_pending (meta_of m).
Definition _is_stale_ephemeral (turn : option Z) (m : Message) : bool :=
  bool_decide (msg_role m = System) &&
  match m_owner (meta_of m), turn with
  | None, _ => false
  | Some _, None => true
  | Some None, Some _ => false
  | Some (Some o), Some tid => negb (o =? tid)
  end.
Definition _parent_id (m : Message) : Z :=
  match m_parent (meta_of m) with Some p => p | None => rowid m end.
(** The newest marker's summary and boundary; a boundary past the rows is none. *)
Definition last_marker (raw : list Message) : option Message :=
  last (filter (λ m, msg_role m = CompactionMarker) raw).
Definition compacted_up_to (raw : list Message) : Z :=
  let up_to := from_option (λ m, default 0 (up_to m)) 0 (last_marker raw) in
  if (0 <? up_to) && (foldr Z.max 0 (rowid <$> raw) <? up_to) then 0 else up_to.
Definition seen (turn : option Z) (boundary : Z) (m : Message) : bool :=
  negb (bool_decide (msg_role m ∈ MARKER_ROLES)) &&
  ((boundary <? rowid m) || _delivery_pending m) &&
  negb (match turn with
        | Some tid => is_user m && (tid <? rowid m) && negb (m_injected (meta_of m))
        | None => false
        end) &&
  negb (_is_stale_ephemeral turn m).
Definition before (a b : Message) : Prop :=
  _parent_id a < _parent_id b ∨ _parent_id a = _parent_id b ∧ rowid a ≤ rowid b.
#[local] Instance before_dec : RelDecision before.
Proof. intros a b. unfold before. apply _. Defined.
Definition visible (turn : option Z) (raw : list Message) : list Message :=
  merge_sort before (filter (λ m, seen turn (compacted_up_to raw) m = true) raw).
Definition history_chars (ms : list Message) : nat := sum_list (length ∘ msg_content <$> ms).
Definition under_pressure (budget : Z) (ms : list Message) : bool :=
  negb (Qle_bool (inject_Z (Z.of_nat (history_chars ms))) (inject_Z (budget * 4) * view_prune_pressure cfg)).
Definition history_of (rq : Request) (raw : list Message) : list Message :=
  let ms := visible (rq_turn rq) raw in
  exclude_orphans
    (if under_pressure (rq_budget rq) ms
     then apply_view_pruning (view_prune_keep_recent cfg) (view_prune_min_chars cfg) ms else ms).

(** ** Conversion *)
Definition opens_list (s : text) : bool :=
  match lstrip s with
  | 91%N :: r => match lstrip r with 123%N :: _ => true | _ => false end
  | _ => false
  end.
Definition legacy_part (b : LegacyBlock) : option text :=
  match b with
  | LText s | LOther s => Some s
  | LImage kind name => Some (t "[" ++ kind ++ t ": " ++ name ++ t "]")
  | LIgnored => None
  end.
Definition _legacy_multimodal_to_text (s : text) : text :=
  if opens_list s then match blocks_of s with Some bs => join_lines (omap legacy_part bs) | None => s end else s.
Definition last_user (ms : list Message) : option nat :=
  last (filter (λ i, user_at ms i = true) (List.seq 0 (length ms))).
Definition convert (rq : Request) (latest : option nat) (i : nat) (m : Message) : Entry :=
  let text_form := _legacy_multimodal_to_text (msg_content m) in
  let content := if bool_decide (latest = Some i) && (rq_vision rq || rq_audio rq) then
                   match attached text_form with
                   | [] => CText text_form
                   | urls => CBlocks (TextBlock text_form :: (ImageBlock <$> urls))
                   end
                 else CText text_form in
  let turn_user := is_user m && match rq_turn rq with Some tid => bool_decide (msg_id m = Some tid) | None => false end in
  mkEntry (msg_role m) content (calls_of m)
    (if bool_decide (tool_call_id m = "None") then "" else tool_call_id m)
    (msg_id m) (_delivery_pending m) (_delivery_pending m || turn_user) turn_user (m_created (meta_of m)).
Definition converted (rq : Request) (ms : list Message) : list Entry := imap (convert rq (last_user ms)) ms.
Definition system_entry (s : text) (pinned : bool) : Entry := mkEntry System (CText s) [] "" None false pinned false [].

(** ** Assembly *)
Record Assembled := mkAssembled {
  a_head : Entry;
  a_history : list Entry;             (** summary and rows, after trimming *)
  a_dropped : list Dropped;
  a_notice : text;
  a_messages : list Entry;            (** all, in order *)
  a_system_tokens : Z;
  a_history_tokens : Z;
  a_tool_tokens : Z;
  a_history_budget : Z;
  a_max_output : Z;
  a_static_prefix : nat;
  a_has_compaction : bool
}.
Definition briefing_of (rq : Request) : text :=
  if scout_first_turn_only cfg
  then join_with [NL; NL] (filter (λ s, s ≠ []) [rq_scout rq; rq_goal rq]) else [].
Definition system_prompt (rq : Request) : text :=
  join_with [NL; NL] (rq_head rq ++
    if scout_first_turn_only cfg then [] else filter (λ s, s ≠ []) [rq_scout rq; rq_goal rq]).
Definition summary_entries (raw : list Message) : list Entry :=
  match last_marker raw with
  | Some m => match msg_content m with
              | [] => []
              | summary => [system_entry (t "[Previous conversation summary]" ++ NL :: summary) true]
              end
  | None => []
  end.
(** After the head and, when there was a compaction, one message more. *)
Definition insert_notice (has_compaction : bool) (notice : text) (es : list Entry) : list Entry :=
  match notice with
  | [] => es
  | _ => let k := if (has_compaction && (1 <=? length es)%nat)%bool then 1%nat else 0%nat in
         take k es ++ system_entry notice true :: drop k es
  end.
Fixpoint insert_briefing (briefing : Entry) (es : list Entry) : list Entry :=
  match es with
  | e :: es => if e_turn_user e then e :: briefing :: es else e :: insert_briefing briefing es
  | [] => [briefing]
  end.
Definition BRIEFING : text := t "[TURN BRIEFING, from the harness]".
Definition assemble (rq : Request) (raw : list Message) : option Assembled :=
  let turn_briefing := briefing_of rq in
  let prompt := system_prompt rq in
  let system_tokens := count encode prompt + count encode (rq_tail rq) + count encode turn_briefing in
  let tool_tokens := from_option (count encode) 0 (rq_tools rq) in
  '(history_budget, max_output) ← plan_budget (rq_budget rq) (rq_max_output rq) (system_tokens + tool_tokens + safety_margin);
  let body := summary_entries raw ++ converted rq (history_of rq raw) in
  let '(history, dropped) := if total encode body <=? history_budget then (body, [])
                             else _trim_history encode history_budget body in
  let has_compaction := bool_decide (is_Some (last_marker raw)) in
  let notice := _build_trim_notice dropped in
  let history_tokens := total encode history +
    match notice with [] => 0 | _ => count_message encode (system_entry notice true) end in
  let with_notice := insert_notice has_compaction notice history in
  let with_briefing := match turn_briefing with
                       | [] => with_notice
                       | _ => insert_briefing (mkEntry User (CText (BRIEFING ++ NL :: turn_briefing)) [] "" None false true
                                                 false []) with_notice
                       end in
  let head := system_entry prompt false in
  Some (mkAssembled head history dropped notice (head :: with_briefing ++ [system_entry (rq_tail rq) true])
    system_tokens history_tokens tool_tokens history_budget max_output (length (join_with [NL; NL] (rq_head rq)))
    has_compaction).

(** [_strip_private_fields] *)
Definition _strip_private_fields (e : Entry) : Entry :=
  mkEntry (e_role e) (e_content e) (e_calls e) (e_call_id e) None false false false [].
Record Payload := mkPayload {
  p_messages : list Entry;
  p_token_count : Z;
  p_history_budget : Z;
  p_needs_compaction : bool;
  p_has_compaction_summary : bool;
  p_trimmed : nat;
  p_static_prefix_chars : nat;
  p_effective_max_output : Z;
  p_delivered : list Z
}.
Definition payload_of (a : Assembled) : Payload :=
  mkPayload (_strip_private_fields <$> a_messages a)
    (a_system_tokens a + a_history_tokens a + a_tool_tokens a) (a_history_budget a)
    (Qfloor (inject_Z (a_history_budget a) * compaction_threshold cfg) <? a_history_tokens a)
    (a_has_compaction a) (trimmed_count (a_dropped a)) (a_static_prefix a) (a_max_output a)
    (omap (λ e, if e_pending e then e_id e else None) (a_messages a)).
Definition compile_context (rq : Request) (raw : list Message) : option Payload := payload_of <$> assemble rq raw.
End compiling.

(** ** The budget holds *)
Lemma split_lines_length l s : l ∈ split_lines s → (length l ≤ length s)%nat.
Proof. intros (a & b & ->)%line_infix. rewrite !length_app. lia. Qed.
Lemma drop_last_shorter s : (length (drop_last_line s) ≤ length s)%nat.
Proof.
  unfold drop_last_line. destruct (split_lines s) as [|l [|l' ls]] eqn:E; [lia|lia|].
  rewrite <-(join_split s), E. clear E s. revert l l'. induction ls as [|x ls IH]; intros l l'.
  - change (removelast [l; l']) with [l]. rewrite (join_cons l [l']) by done. cbn [join_lines]. rewrite length_app. lia.
  - change (removelast (l :: l' :: x :: ls)) with (l :: removelast (l' :: x :: ls)).
    specialize (IH l' x). rewrite (join_cons l (l' :: x :: ls)) by done.
    rewrite (join_cons l (removelast (l' :: x :: ls))) by by destruct ls. rewrite !length_app. cbn [length]. lia.
Qed.
Lemma notice_length ds : Z.of_nat (length (_build_trim_notice ds)) ≤ 6100.
Proof.
  unfold _build_trim_notice. destruct ds as [|d ds]; [cbn; lia|]. set (s := join_lines _).
  destruct (Nat.ltb_spec _NOTICE_MAX_CHARS (length s)) as [Hlong|Hshort].
  - rewrite length_app. pose proof (drop_last_shorter (take _NOTICE_MAX_CHARS s)) as H. rewrite length_take in H.
    assert (Z.of_nat (length TRUNCATED) ≤ 100) by (by vm_compute).
    assert (Z.of_nat _NOTICE_MAX_CHARS = 6000) by by vm_compute. lia.
  - assert (Z.of_nat _NOTICE_MAX_CHARS = 6000) by by vm_compute. lia.
Qed.
Lemma heuristic_bound s : _count_heuristic s ≤ 10 * Z.of_nat (length s) / 33.
Proof. unfold _count_heuristic. destruct (existsb _ _); [lia|]. apply Z.div_le_lower_bound; lia. Qed.
Lemma notice_tokens ds : count_message None (system_entry (_build_trim_notice ds) true) ≤ safety_margin.
Proof.
  unfold count_message, count_content, count. cbn [e_content e_calls system_entry sum_of foldr].
  case_decide; [done|]. pose proof (notice_length ds) as Hl. pose proof (heuristic_bound (_build_trim_notice ds)) as Hb.
  unfold safety_margin. assert (10 * Z.of_nat (length (_build_trim_notice ds)) / 33 ≤ 61000 / 33) as Hd by (apply Z.div_le_mono; lia).
  change (61000 / 33) with 1848 in Hd. lia.
Qed.
Lemma plan_budget_spec budget max_output fixed hb out :
  plan_budget budget max_output fixed = Some (hb, out) →
  hb + out + fixed = budget ∧ _HISTORY_BUDGET_FLOOR ≤ hb ∧ out ≤ max_output ∧
  (out = max_output ∨ hb = _HISTORY_BUDGET_FLOOR ∧ _MIN_OUTPUT_TOKENS ≤ out).
Proof.
  unfold plan_budget. destruct (Z.ltb_spec (budget - max_output - fixed) _HISTORY_BUDGET_FLOOR).
  - destruct (Z.ltb_spec (budget - fixed - _HISTORY_BUDGET_FLOOR) _MIN_OUTPUT_TOKENS); [done|]. intros [= <- <-]. lia.
  - intros [= <- <-]. lia.
Qed.
Section bounds.
Context (encode : option (text → Z)) (cfg : Settings).
Context (meta : Z → Meta) (attached : text → list text) (blocks_of : text → option (list LegacyBlock)).

(** No result is pinned: pending rows and the turn's row are the user's. *)
Lemma body_results rq raw :
  Forall (λ e, hard e = true → is_result e = false)
    (summary_entries raw ++ converted meta attached blocks_of rq (history_of cfg meta rq raw)).
Proof.
  apply Forall_app. split.
  - unfold summary_entries. destruct (last_marker raw) as [m|]; [|done]. destruct (msg_content m); [done|].
    by apply Forall_singleton.
  - apply Forall_forall. intros e He. unfold converted in He. apply elem_of_lookup_imap in He as (i & m & -> & _).
    unfold hard, is_result, convert, _delivery_pending, is_user. cbn [e_role e_pinned].
    destruct (msg_role m); cbn; done.
Qed.
Lemma assemble_spec rq raw a :
  assemble encode cfg meta attached blocks_of rq raw = Some a →
  a_history_budget a + a_max_output a + (a_system_tokens a + a_tool_tokens a + safety_margin) = rq_budget rq ∧
  a_max_output a ≤ rq_max_output rq ∧
  (a_max_output a = rq_max_output rq ∨ a_history_budget a = _HISTORY_BUDGET_FLOOR ∧ _MIN_OUTPUT_TOKENS ≤ a_max_output a) ∧
  a_history_tokens a = total encode (a_history a) +
    match a_notice a with [] => 0 | _ => count_message encode (system_entry (a_notice a) true) end ∧
  a_notice a = _build_trim_notice (a_dropped a) ∧
  (total encode (a_history a) ≤ a_history_budget a ∨ Forall (λ e, hard e = true) (a_history a)) ∧
  sublist (a_history a) (summary_entries raw ++ converted meta attached blocks_of rq (history_of cfg meta rq raw)) ∧
  a_history a ++ (a_dropped a ≫= msgs) ≡ₚ
    summary_entries raw ++ converted meta attached blocks_of rq (history_of cfg meta rq raw) ∧
  Forall (λ e, hard e = false) (a_dropped a ≫= msgs).
Proof.
  unfold assemble. destruct (plan_budget _ _ _) as [[hb out]|] eqn:Hplan; [|done]. cbn [mbind option_bind].
  apply plan_budget_spec in Hplan as (Hsum & Hfloor & Hle & Hor).
  set (body := summary_entries raw ++ _).
  pose proof (trim_spec encode hb body (body_results rq raw)) as Htrim.
  assert (∀ h d, (if total encode body <=? hb then (body, []) else _trim_history encode hb body) = (h, d) →
    (total encode h ≤ hb ∨ Forall (λ e, hard e = true) h) ∧ sublist h body ∧ h ++ (d ≫= msgs) ≡ₚ body ∧
    Forall (λ e, hard e = false) (d ≫= msgs)) as Hbody.
  { intros h d. destruct (Z.leb_spec (total encode body) hb) as [Hfit|_].
    - intros [= <- <-]. split_and!; [by left|done|by rewrite app_nil_r|constructor].
    - intros Heq. rewrite Heq in Htrim. destruct Htrim as (? & ? & ? & ? & _). done. }
  destruct (if _ <=? _ then _ else _) as [h d]. destruct (Hbody h d eq_refl) as (H1 & H2 & H3 & H4).
  intros [= <-]. cbn [a_history_budget a_max_output a_system_tokens a_tool_tokens a_history_tokens a_history a_notice a_dropped].
  by split_and!.
Qed.

(** C15: A compiled request fits the window.  The history's share, the reserved
    output, the system part, the tools and the margin add up to the budget,
    and the reservation is only ever cut; so unless every message left is
    pinned, the counted tokens and the reservation exceed the budget at most
    by what the trim notice takes beyond the margin, and without a tokenizer
    the notice never does. *)
Theorem compiled_request_fits (rq : Request) (raw : list Message) (a : Assembled)
    (Ha : assemble encode cfg meta attached blocks_of rq raw = Some a) :
  let p := payload_of cfg a in
  let notice := match a_notice a with [] => 0 | _ => count_message encode (system_entry (a_notice a) true) end in
  a_history_budget a + a_max_output a + a_system_tokens a + a_tool_tokens a + safety_margin = rq_budget rq ∧
  p_effective_max_output p ≤ rq_max_output rq ∧
  (p_effective_max_output p < rq_max_output rq →
     p_history_budget p = _HISTORY_BUDGET_FLOOR ∧ _MIN_OUTPUT_TOKENS ≤ p_effective_max_output p) ∧
  (p_token_count p + p_effective_max_output p ≤ rq_budget rq + (notice - safety_margin) ∨
   Forall (λ e, hard e = true) (a_history a)) ∧
  (encode = None → notice ≤ safety_margin).
Proof.
  destruct (assemble_spec rq raw a Ha) as (Hsum & Hle & Hor & Htok & Hn & Hend & _). cbn zeta.
  unfold payload_of. cbn [p_effective_max_output p_history_budget p_token_count]. split_and!; [lia|lia|lia| |].
  - destruct Hend as [Hend|Hend]; [left; lia|by right].
  - intros ->. rewrite Hn. pose proof (notice_tokens (a_dropped a)). destruct (_build_trim_notice _); [done|lia].
Qed.

(** C35: The window error is raised exactly when the fixed part leaves no room.
    Whatever the history, compiling fails if and only if the wanted output
    leaves less than the history floor and even the smallest output does. *)
Theorem budget_error_exact (rq : Request) (raw : list Message) :
  compile_context encode cfg meta attached blocks_of rq raw = None ↔
  let fixed := count encode (system_prompt cfg rq) + count encode (rq_tail rq) + count encode (briefing_of cfg rq) +
               from_option (count encode) 0 (rq_tools rq) + safety_margin in
  rq_budget rq - fixed < rq_max_output rq + _HISTORY_BUDGET_FLOOR ∧
  rq_budget rq - fixed < _MIN_OUTPUT_TOKENS + _HISTORY_BUDGET_FLOOR.
Proof.
  unfold compile_context, assemble, plan_budget. cbn zeta. set (sys := _ + _ + _). set (tools := from_option _ _ _).
  destruct (Z.ltb_spec (rq_budget rq - rq_max_output rq - (sys + tools + safety_margin)) _HISTORY_BUDGET_FLOOR) as [H1|H1];
    [destruct (Z.ltb_spec (rq_budget rq - (sys + tools + safety_margin) - _HISTORY_BUDGET_FLOOR) _MIN_OUTPUT_TOKENS) as [H2|H2]|];
    cbn [mbind option_bind].
  - cbn. split; [lia|done].
  - destruct (if _ <=? _ then _ else _) as [h d]. cbn [fmap option_fmap option_map]. split; [done|lia].
  - destruct (if _ <=? _ then _ else _) as [h d]. cbn [fmap option_fmap option_map]. split; [done|lia].
Qed.
End bounds.

(** ** What a turn sees *)
Section turn.
Context (encode : option (text → Z)) (cfg : Settings).
Context (meta : Z → Meta) (attached : text → list text) (blocks_of : text → option (list LegacyBlock)).

Lemma pruned_users k c ms m : is_user m = true → m ∈ apply_view_pruning k c ms ↔ m ∈ ms.
Proof.
  intros Hm. unfold apply_view_pruning. destruct (length ms <=? k)%nat; [done|].
  rewrite elem_of_lookup_imap. rewrite list_elem_of_lookup. split.
  - intros (i & x & Heq & Hx). exists i. rewrite Hx. destruct (_ && _ && _)%bool eqn:E; [|by rewrite Heq].
    subst m. apply andb_true_iff in E as [[_ Ht]%andb_true_iff _]. unfold is_user, is_tool in *.
    cbn in Hm. apply bool_decide_eq_true in Hm, Ht. congruence.
  - intros (i & Hx). exists i, m. split; [|done]. unfold is_user, is_tool in *. apply bool_decide_eq_true in Hm. rewrite Hm.
    rewrite bool_decide_false, andb_false_r by done. done.
Qed.
Lemma users_of_history rq raw m :
  is_user m = true →
  m ∈ history_of cfg meta rq raw ↔ m ∈ raw ∧ seen meta (rq_turn rq) (compacted_up_to raw) m = true.
Proof.
  intros Hm. unfold history_of, exclude_orphans, repair_unanswered_tool_calls. rewrite elem_of_repair.
  set (ms := if under_pressure _ _ _ then _ else _).
  assert (m ∈ ms ↔ m ∈ visible meta (rq_turn rq) raw) as Hms.
  { unfold ms. destruct (under_pressure _ _ _); [by apply pruned_users|done]. }
  assert (m ∈ visible meta (rq_turn rq) raw ↔ m ∈ raw ∧ seen meta (rq_turn rq) (compacted_up_to raw) m = true) as Hv.
  { unfold visible. rewrite merge_sort_Permutation, list_elem_of_filter. tauto. }
  rewrite <-Hv, <-Hms, list_elem_of_filter. split.
  - intros [H|[[_ H]|(a & _ & (c & _ & _ & _ & ->)%elem_of_stubs)]]; [by apply elem_of_nil in H|done|done].
  - intros H. right. left. split; [|done]. unfold orphan, is_tool, is_user in *. apply bool_decide_eq_true in Hm.
    by rewrite Hm.
Qed.
Lemma insert_notice_elem b notice es e :
  e ∈ insert_notice b notice es ↔ e ∈ es ∨ notice ≠ [] ∧ e = system_entry notice true.
Proof.
  unfold insert_notice. destruct notice as [|c n]; [naive_solver|].
  generalize (if (b && (1 <=? length es)%nat)%bool then 1%nat else 0%nat) as k. intros k.
  rewrite <-(take_drop k es) at 3. rewrite !elem_of_app, elem_of_cons. naive_solver.
Qed.
Lemma insert_briefing_elem b es e : e ∈ insert_briefing b es ↔ e ∈ es ∨ e = b.
Proof.
  induction es as [|x es IH]; cbn [insert_briefing].
  - rewrite elem_of_nil, list_elem_of_singleton. tauto.
  - destruct (e_turn_user x); rewrite !elem_of_cons, ?IH; tauto.
Qed.
(** The messages sent: the head, the history, what the harness adds. *)
Lemma elem_of_messages rq raw a e :
  assemble encode cfg meta attached blocks_of rq raw = Some a → e ∈ a_messages a →
  e ∈ a_history a ∨ e_id e = None ∧ e_pending e = false.
Proof.
  unfold assemble. destruct (plan_budget _ _ _) as [[hb out]|]; [|done]. cbn [mbind option_bind].
  destruct (if _ <=? _ then _ else _) as [h d]. intros [= <-]. cbn [a_messages a_history].
  rewrite elem_of_cons, elem_of_app, list_elem_of_singleton. intros [->|[He| ->]]; [by right| |by right].
  destruct (briefing_of cfg rq); [|apply insert_briefing_elem in He as [He| ->]; [|by right]];
    (apply insert_notice_elem in He as [He|[_ ->]]; [by left|by right]).
Qed.
Lemma history_sent rq raw a e :
  assemble encode cfg meta attached blocks_of rq raw = Some a → e ∈ a_history a → e ∈ a_messages a.
Proof.
  unfold assemble. destruct (plan_budget _ _ _) as [[hb out]|]; [|done]. cbn [mbind option_bind].
  destruct (if _ <=? _ then _ else _) as [h d]. intros [= <-]. cbn [a_messages a_history]. intros He.
  apply elem_of_cons. right. apply elem_of_app. left.
  destruct (briefing_of cfg rq); [|apply insert_briefing_elem; left]; (apply insert_notice_elem; by left).
Qed.

End turn.

(** ** A small session *)
Definition demo_settings : Settings := mkSettings true (1 # 2) 30 (Z.to_nat 2000) (8 # 10).
Definition demo_request : Request :=
  mkRequest [t "You are Pernix."] (t "Scout report.") [] (t "[CURRENT STATE]") None false false 8100 1100 (Some 5).
Definition view_call (args : text) : ToolCall := mkToolCall "c1" (t "view_image") args false.
Definition demo_rows (args : text) : list Message :=
  [ mkMessage (Some 1) User (t "What is on the chart?") [] "" false None;
    mkMessage (Some 2) Assistant [] [view_call args] "" false None;
    mkMessage (Some 3) User (t "[image: chart.png]") [] "" false None;
    mkMessage (Some 4) Tool (t "Displayed chart.png.") [] "c1" false None;
    mkMessage (Some 5) User (t "And the second one?") [] "" false None;
    mkMessage (Some 6) User (t "Never mind.") [] "" false None ].
Definition demo_meta (i : Z) : Meta :=
  mkMeta false false None (if decide (i ∈ [2; 3; 4]) then Some 1 else None) [].
Definition demo_assembled (args : text) : option Assembled :=
  assemble None demo_settings demo_meta (λ _, []) (λ _, None) demo_request (demo_rows args).
Definition long_args : text := replicate (Z.to_nat 20000) 97%N.

Example demo_order : (λ a, e_id <$> a_messages a) <$> demo_assembled (t "{}") =
  Some [None; Some 1; Some 2; Some 3; Some 4; Some 5; None; None].
Proof. vm_compute. reflexivity. Qed.

(** Trimming can part a result from its call.  Rows are grouped by
    adjacency, and a tool that writes a row of its own while it runs puts it
    between the call and the result; when the history fits once the call is
    dropped, the result is sent without it. *)
Theorem trim_may_part_a_result :
  match demo_assembled long_args with
  | Some a =>
      (e_id <$> a_history a) = [Some 3; Some 4; Some 5] ∧ kind <$> a_dropped a = [KUser; KGroup] ∧
      filter (λ e, is_result e = true ∧ e_call_id e ∉ (a_messages a ≫= λ x, call_id <$> e_calls x)) (a_messages a) ≠ []
  | None => False
  end.
Proof. vm_compute. split_and!; [done|done|discriminate]. Qed.

Definition demo_blocks : list (list Entry) :=
  let row i := match imap (convert demo_meta (λ _, []) (λ _, None) demo_request None) (demo_rows (t "{}")) !! i with
               | Some e => e | None => system_entry [] false end in
  [[row 0%nat]; [row 1%nat; row 3%nat]; [row 4%nat]].
Lemma trim_keeps_groups_whole_witness :
  Forall block_ok demo_blocks ∧
  ∃ bs', (_trim_history None 8 (concat demo_blocks)).1 = concat bs' ∧ sublist bs' demo_blocks.
Proof.
  assert (Forall block_ok demo_blocks) as H.
  { repeat apply Forall_cons_2; [done|split; [done|by apply Forall_cons_2]|done|apply Forall_nil_2]. }
  split; [exact H|]. apply (trim_keeps_groups_whole None 8); [exact H|].
  apply (bool_decide_unpack _). by vm_compute.
Defined.
Lemma compiled_request_fits_witness :
  ∃ a, assemble None demo_settings demo_meta (λ _, []) (λ _, None) demo_request (demo_rows long_args) = Some a ∧
  let p := payload_of demo_settings a in
  let notice := match a_notice a with [] => 0 | _ => count_message None (system_entry (a_notice a) true) end in
  a_history_budget a + a_max_output a + a_system_tokens a + a_tool_tokens a + safety_margin = rq_budget demo_request ∧
  p_effective_max_output p ≤ rq_max_output demo_request ∧
  (p_effective_max_output p < rq_max_output demo_request →
     p_history_budget p = _HISTORY_BUDGET_FLOOR ∧ _MIN_OUTPUT_TOKENS ≤ p_effective_max_output p) ∧
  (p_token_count p + p_effective_max_output p ≤ rq_budget demo_request + (notice - safety_margin) ∨
   Forall (λ e, hard e = true) (a_history a)) ∧
  (@None (text → Z) = None → notice ≤ safety_margin).
Proof.
  destruct (assemble None demo_settings demo_meta (λ _, []) (λ _, None) demo_request (demo_rows long_args))
    as [a|] eqn:E; [|by vm_compute in E]. exists a. split; [done|].
  exact (compiled_request_fits None demo_settings demo_meta (λ _, []) (λ _, None) demo_request (demo_rows long_args) a E).
Defined.
